(* ===== verification/_CoqProject ===== *)
-Q . S2P
Prelude.v
Text.v
Task.v
Participant.v
Errors.v
Environment.v
Phase1Parameters.v
Curve.v
Elements.v
MultiExp.v
Hashing.v
Buffers.v
Accumulator.v
Phase1.v
Layout.v
Computation.v
Verifying.v
Aggregation.v
DegreeBounds.v
Keypair.v
Groth16Params.v
Polynomial.v
MPCParameters.v
DeltaContributions.v
KeyFiles.v
NewParameters.v
ChunkedGroth16.v
ChunkedContributions.v
ChunkedVerification.v
SetupPrograms.v
Contribution.v
Locator.v
Chunk.v
Round.v
Board.v
ParticipantInfo.v
RoundMetrics.v
CoordinatorState.v
RoundTransition.v
DropParticipant.v
CoordinatorInvariant.v
RoundInvariant.v
Serde.v
Storage.v
RoundStorage.v
Commands.v
Responses.v
Frame.v
Coordinator.v
RoundStore.v
Contributing.v
Ceremony.v
Sample.v
Challenges.v
Cli.v
Messages.v
Operators.v
ContributorProgram.v
VerifierProgram.v
Browser.v
Deployments.v
Refinement.v
Progress.v
HashChain.v
Recovery.v
Removal.v
Honest.v
