(* ===== verification/Prelude.v ===== *)
(** * The setup ceremony of Aleo: a verification library

    The repository runs a trusted setup in two phases.  In the first, the
    "powers of tau", many contributors work on one accumulator: a coordinator
    keeps a challenge per chunk of the parameters; contributors take turns to
    multiply the elements of a chunk by powers of their secrets, verifiers
    check the responses and turn them into the next challenges, and at the end
    of a round the chunks are aggregated.  The second phase specialises the
    result to a circuit, and goes on with contributions to its Groth16
    parameters.  This library models the crates that carry that logic and
    proves what makes them correct.  This file holds what all the others share:
    outcomes of fallible code, the monad of methods with [&mut self], machine
    arithmetic, insertion sort, hash-map iteration, and lemmas and tactics for
    them.

    ** The program and the files of the library

    1. The cryptographic operations on buffers ([src/setup-utils/src],
       [src/phase1/src]).
       - [Curve]: the traits of the curve library, with their laws; a toy
         engine to evaluate the models.
       - [Elements]: [elements.rs], [io/read.rs], [io/write.rs].
       - [MultiExp]: [helpers.rs] and [seed.rs]: powers, batch and bucket
         exponentiation, random ratio checks, hashing to G2.
       - [Hashing]: [helpers.rs]: hashes of data in pieces, [HashWriter],
         entropy.
       - [Phase1Parameters]: [objects/parameters.rs] and the size macros.
       - [Buffers]: [helpers/buffers.rs]: sections, batches.
       - [Accumulator]: [helpers/accumulator.rs], [objects/public_key.rs],
         [objects/private_key.rs], [serialization.rs].
       - [Phase1]: [initialization.rs], [key_generation.rs],
         [computation.rs], [verification.rs], [aggregation.rs].
       - Theorems: [Layout] (the range arithmetic of a buffer is a partition of
         it), [Computation], [Verifying], [Aggregation], [DegreeBounds].
    2. The second phase ([src/phase2/src], [setup-utils/src/groth16_utils.rs],
       [src/setup2/src/cli], [phase1-cli/src/bin/prepare_phase2.rs]).
       - [Keypair], [Polynomial], [MPCParameters] ([parameters.rs]) and
         [Groth16Params]: keys and transcript, the circuit at the powers of the
         first phase, contributing and verifying in memory.
       - [ChunkedGroth16]: [chunked_groth16.rs], the same on files, in batches
         and in place.
       - [SetupPrograms]: preparing, creating, contributing, verifying.
       - Theorems: [DeltaContributions], [KeyFiles], [NewParameters],
         [ChunkedContributions], [ChunkedVerification].
    3. The state of the coordinator ([src/phase1-coordinator/src]).
       - [Text], [Task], [Participant], [Errors], [Environment],
         [Contribution], [Chunk], [Round]: [objects/], [environment.rs], the
         error type of [coordinator.rs].
       - [ParticipantInfo], [RoundMetrics], [CoordinatorState],
         [RoundTransition], [DropParticipant]: [coordinator_state.rs], in the
         order of its layers (one participant; timers; queue, tasks and locks;
         from one round to the next; drops and bans).
       - Theorems: [CoordinatorInvariant] (all operations), [RoundInvariant]
         (the deal of tasks in a running round), [Board] (the abstract
         specification of a round: one cell per chunk).
    4. The files ([storage/], [commands/], the file operations of
       [objects/round.rs]).
       - [Locator] ([DiskResolver]), [Serde] (what the JSON of an object has to
         satisfy, and an instance), [Storage] ([Disk] as a map from paths to
         contents and a set of directories), [RoundStorage], [Commands].
       - Theorems: [Frame] (what an operation leaves alone), [Responses] (what
         the commands write is what they accept).
    5. The coordinator ([coordinator.rs]).
       - [Coordinator] (state, loading and storing the round, queue, locks,
         drops), [Contributing] (the calls of contributors and verifiers),
         [Ceremony] (creation, initialization, aggregation, next round,
         [update], shutdown).
       - Theorems: [RoundStore], [Refinement], [Progress], [HashChain],
         [Recovery], [Removal], [Honest], [Challenges], [Deployments];
         [Sample] evaluates a ceremony of two chunks with two contributors.
    6. The programs around it.
       - [Cli]: [src/phase1-cli/src], the commands on named files.
       - [Messages]: [src/setup1-shared/src], [setup1-contributor/src/reliability]:
         the messages of the reliability checks, their encoding and the
         contributor's replies.
       - [Operators]: what the programs share: requests, authorization,
         environments of the setups, uploads.
       - [ContributorProgram]: [setup1-contributor/src/commands/contribute.rs]
         and [setup_keys/confirmation_key.rs].
       - [VerifierProgram]: [setup1-verifier/src/verifier.rs] and
         [coordinator_requests.rs].
       - [Browser]: [src/phase1-wasm/src], the contributor in a web page.

    A contribution goes through all parts of the first phase.  A program of
    part 6 locks a chunk, downloads its challenge, computes the response with
    the operations of part 1 and uploads it with its signature;
    [Contributing.try_contribute] checks the task in the state of part 3, reads
    the round and the response from the files of part 4, checks hash chain and
    signature, and stores the round.  [SetupPrograms.prepare_phase2] turns the
    last response into the parameters that part 2 reads.

    The state of a model is that of the code: [CoordinatorState] and
    [ParticipantInfo] have the fields of the structs; [Coordinator.Coordinator]
    holds environment, storage and state; a mapped file is its bytes, and a
    [&mut] slice the state of a method; the files of a program are a map from
    names to bytes, and the network is a state that the server changes.

    ** What is shown

    - A contribution is one multiplication ([Computation]): batches, in-place
      writing and compressions do not matter; contributions compose by the
      product of the keys; aggregating contributed chunks is contributing to
      the aggregate ([Aggregation]).  The optimised routines agree with their
      references: the bucket multi-exponentiation is the linear combination,
      the batches cover a chunk, the points that pass the random ratio check
      whatever its coefficients are exactly the geometric progressions
      ([MultiExp], [Buffers]).
    - Verification accepts every honest contribution, and what it accepts is
      bound to the key in its first elements and lies in the subgroup in the
      four sections of powers (the element under beta in G2 gets no such
      check); two gaps are stated as theorems ([Verifying], [DegreeBounds]).
    - Every challenge that honest contributors can bring a chunk to holds the
      generators under the product of their keys, and the next honest response
      to it is verified ([Challenges]), for all the parameters and deployments
      the repository names ([Deployments]).
    - In the second phase, the parameters are those of the powers
      ([Groth16Params]) and start a ceremony ([NewParameters]); a contribution
      changes delta and the two queries that are divided by it, and nothing
      that verifies changes more ([DeltaContributions]); on files, in place
      and in batches, contributing and verifying do what they do in memory
      ([ChunkedContributions], [ChunkedVerification], [SetupPrograms]); the
      verification also accepts parameters without a new contribution.
    - The state is well-formed after any sequence of operations, failing ones
      included ([CoordinatorInvariant]); in a running round every cell of the
      (chunk, contribution) grid is the task of exactly one member, until a
      contributor is dropped whose replacement is a member already, which
      loses the replacement's own bucket ([RoundInvariant], [Task]); queue,
      precommit, commit, drop and replacement do what they mean to
      ([RoundTransition], [DropParticipant]).
    - The round in the files refines the board: whatever calls are made, its
      chunks move only as the board allows, and successful calls are exactly
      its events ([Refinement]); so in a round of [n] chunks that keeps its
      [m] contributors at most [3 * n * m] of them succeed, and one more for
      each lock that another call gives up in between ([Progress]).
    - A contribution and a verification are accepted exactly when the files
      continue the hash chain and are signed ([HashChain]); what the
      coordinator's own commands compute is accepted ([Honest]).
    - The programs run the ceremony of the coordinator: the commands on files
      ([Cli]), the contributor's and the verifier's program on the server
      ([VerifierProgram.operators_run_the_ceremony]), the contributor in the
      browser ([Browser.browser_takes_part]).  Two of their flaws are theorems:
      the verify command on equal compressions ([Cli]), and when the
      contributor takes itself for finished ([ContributorProgram]).
    - Round trips: locators and paths, stored objects, sizes of files,
      messages, parameters of the second phase ([Locator], [Storage],
      [Phase1Parameters], [Messages], [KeyFiles], [SetupPrograms]).
    - What goes wrong when work is taken back ([Recovery], [Removal]), and
      what does not: a replaced contributor leaves a running round behind
      exactly when its replacement was not a member yet.

    ** Conventions

    - A Rust [Result] is an [outcome], with a third case for a panic.  A method
      on [&mut self] returns the state on every path: an error does not undo
      the assignments before it.  The coordinator holds its locks during a call,
      so calls run one after the other.
    - [u64] and [usize] are [N] with the wrap-around of a release build written
      out; bounds under which nothing wraps are hypotheses
      ([Computation.parameter_bounds]: size below 2^40, batch at least 2 and
      below 2^32, elements of at most 4095 bytes), which [Deployments] proves
      of all named parameters.  Counters of contributors are [nat].
    - One call reads the clock once ([now], nanoseconds); seconds and minutes
      come from [TimeApi].  The order in which a [HashMap] or a directory is
      read is an arbitrary permutation ([HashOrder]).
    - A [&mut] slice is the state of a method; sections that the tasks of a
      [rayon] scope share out are disjoint, so the tasks run one after the
      other.  A failed [expect] in one of them is a panic.  Log messages and
      spans are left out.
    - Other crates are class parameters with the laws the code relies on, and
      with an instance the examples run on: the curves
      ([Curve.PairingEngine], [EngineLaws]), random numbers ([Randomness]),
      hashing to a curve ([Keypair.HashToCurve]), evaluation domains
      ([Groth16Params.Domains]), the format of proving keys and the assembly of
      a circuit ([MPCParameters.KeyFormat], [Assemblies]), JSON ([Serde] and
      the formats of the programs), Blake2b, hexadecimal text and [thread_rng]
      ([Commands.Cryptography], [Hashing.Digests]), signatures ([Signature]),
      accounts and the server ([Operators.Wallet], [Operators.Server]).
    - Fuel: [dense_multiexp_inner] gets one step more than the bits of a scalar
      (each level skips a window of at least 3 bits, shown enough in
      [MultiExp]); splitting a list into chunks gets its length.  [hash_to_g2] draws
      candidates until one is a point: how many are tried is [hash_fuel], and
      running out of it is a failure, never a result.  The endless loops of the
      programs - trying a request again, the passes over the chunks - are run a
      given number of times ([Operators.until_ok]); the theorems are about any
      number, or about one pass.

    ** Not modelled

    - Of the programs: parsing of options, printing, progress bars, waiting,
      logging, the thread of the heartbeats, the questions after a contribution
      (address for a token, tweet), the encryption of the contributor's keys,
      and the pool of web workers ([phase1-wasm/src/pool.rs]).
    - The HTTP server, which is not in the repository, and the libraries of
      curves, constraint systems, Fourier transforms and accounts.
    - The callback after an aggregation, the status report, the logging of the
      coordinator; errors of the operating system (a file that exists can be
      read and written). *)

From stdpp Require Export base tactics numbers list gmap sets strings countable sorting.
From Stdlib Require Export NArith ZArith Lia.
From Stdlib Require Strings.Byte.

(** [u8] buffers *)
Notation bytes := (list Byte.byte).
#[export] Instance byte_eq_dec : EqDecision Byte.byte := Byte.byte_eq_dec.


(** ** Outcomes of fallible code

    A Rust function that returns [Result<A, E>] either yields [Ok], yields
    [Err], or panics (failed [assert!], [unwrap] on [None], ...). *)

Inductive outcome (E A : Type) : Type :=
| Ok (a : A)
| Err (e : E)
| Panic.
Arguments Ok {E A} a.
Arguments Err {E A} e.
Arguments Panic {E A}.

(** [Result::ok], the success value if there is one. *)
Definition ok_value {E A} (o : outcome E A) : option A :=
  match o with Ok a => Some a | _ => None end.

(** [Result::map_err] composed with [From::from] by the [?] operator. *)
Definition map_err {E E' A} (f : E → E') (o : outcome E A) : outcome E' A :=
  match o with Ok a => Ok a | Err e => Err (f e) | Panic => Panic end.

Definition is_ok {E A} (o : outcome E A) : bool :=
  match o with Ok _ => true | _ => false end.

Definition bind_outcome {E A B} (o : outcome E A) (k : A → outcome E B) : outcome E B :=
  match o with Ok a => k a | Err e => Err e | Panic => Panic end.

(** [Option::ok_or]. *)
Definition ok_or {E A} (o : option A) (e : E) : outcome E A :=
  match o with Some a => Ok a | None => Err e end.

(** ** Methods with [&mut self]

    A method maps the state it borrows to an outcome and the state it leaves
    behind.  The state is returned on every path: an [Err] does not undo the
    assignments made before it. *)

Definition M (E S A : Type) : Type := S → outcome E A * S.

Definition ret {E S A} (a : A) : M E S A := λ s, (Ok a, s).
Definition fail {E S A} (e : E) : M E S A := λ s, (Err e, s).
Definition bind {E S A B} (m : M E S A) (k : A → M E S B) : M E S B := λ s,
  match m s with
  | (Ok a, s') => k a s'
  | (Err e, s') => (Err e, s')
  | (Panic, s') => (Panic, s')
  end.
Definition gets {E S A} (f : S → A) : M E S A := λ s, (Ok (f s), s).
Definition modify {E S} (f : S → S) : M E S unit := λ s, (Ok tt, f s).

(** [return Err(e)] when the condition on the current state holds. *)
Definition check {E S A} (b : S → bool) (e : E) (k : M E S A) : M E S A := λ s,
  if b s then (Err e, s) else k s.

(** The [?] operator on a pure [Result]. *)
Definition lift {E S A} (o : outcome E A) : M E S A := λ s, (o, s).

(** A method call on a field, for example [self.map.get_mut(k)] followed by a
    method of the value: [get] fetches the field, [put] stores it back. *)
Definition zoom {E S T A} (get : S → T) (put : T → S → S) (m : M E T A) : M E S A := λ s,
  let '(o, t) := m (get s) in (o, put t s).

Declare Scope rust_scope.
Delimit Scope rust_scope with rust.
Open Scope rust_scope.
Notation "'let!' x ':=' m 'in' k" := (bind m (λ x, k))
  (at level 10, x name, m at level 100, k at level 200) : rust_scope.
Notation "m ;;; k" := (bind m (λ _, k))
  (at level 100, k at level 200, right associativity) : rust_scope.
Notation "'bail_if' b 'with' e ;;; k" := (check b e k)
  (at level 10, b at level 99, e at level 99, k at level 200) : rust_scope.
Notation "'try!' x ':=' o 'in' k" := (bind_outcome o (λ x, k))
  (at level 10, x name, o at level 100, k at level 200) : rust_scope.

Lemma bind_ok {E S A B} (m : M E S A) (k : A → M E S B) s b s' :
  bind m k s = (Ok b, s') ↔ ∃ a s1, m s = (Ok a, s1) ∧ k a s1 = (Ok b, s').
Proof.
  unfold bind. destruct (m s) as [[a|e|] s1].
  - naive_solver.
  - split; [done|]. intros (?&?&?&?); simplify_eq.
  - split; [done|]. intros (?&?&?&?); simplify_eq.
Qed.

Lemma bind_assoc {E S A B C} (m : M E S A) (k : A → M E S B) (h : B → M E S C) s :
  bind (bind m k) h s = bind m (λ a, bind (k a) h) s.
Proof. unfold bind. by destruct (m s) as [[a|e|] s1]. Qed.

(** Running past a step that succeeds. *)
Lemma run_bind {E S A B} (m : M E S A) (k : A → M E S B) s a s' : m s = (Ok a, s') → bind m k s = k a s'.
Proof. intros Hm. unfold bind. by rewrite Hm. Qed.
Lemma run_bind_tt {E S B} (m : M E S unit) (k : M E S B) s s' : m s = (Ok tt, s') → (m ;;; k) s = k s'.
Proof. intros Hm. by rewrite (run_bind _ _ _ _ _ Hm). Qed.
Lemma run_lift {E S A B} (a : A) (k : A → M E S B) s : bind (lift (Ok a)) k s = k a s.
Proof. done. Qed.

Lemma check_ok {E S A} (b : S → bool) (e : E) (k : M E S A) s a s' :
  check b e k s = (Ok a, s') ↔ b s = false ∧ k s = (Ok a, s').
Proof. unfold check. destruct (b s); naive_solver. Qed.

Lemma bind_outcome_ok {E A B} (o : outcome E A) (k : A → outcome E B) b :
  bind_outcome o k = Ok b ↔ ∃ a, o = Ok a ∧ k a = Ok b.
Proof. destruct o; naive_solver. Qed.

Lemma map_err_ok {E E' A} (f : E → E') (o : outcome E A) a :
  map_err f o = Ok a ↔ o = Ok a.
Proof. destruct o; naive_solver. Qed.

Lemma ok_or_ok {E A} (o : option A) (e : E) a : ok_or o e = Ok a ↔ o = Some a.
Proof. destruct o; naive_solver. Qed.

(** Collecting an iterator of [Result]s: the first error wins. *)
Fixpoint collect {E A} (l : list (outcome E A)) : outcome E (list A) :=
  match l with
  | [] => Ok []
  | o :: l => try! a := o in try! r := collect l in Ok (a :: r)
  end.

Lemma collect_ok {E A} (l : list (outcome E A)) r :
  collect l = Ok r ↔ Forall2 (λ o a, o = Ok a) l r.
Proof.
  revert r. induction l as [|o l IH]; intros r; simpl.
  - split; [intros [= <-]; constructor | by inversion 1].
  - rewrite bind_outcome_ok. setoid_rewrite bind_outcome_ok. setoid_rewrite IH.
    split.
    + intros (a & -> & r' & ? & [= <-]). by constructor.
    + inversion 1; naive_solver.
Qed.

(** ** Options and booleans *)

Definition is_some {A} (o : option A) : bool := match o with Some _ => true | None => false end.
Definition is_none {A} (o : option A) : bool := negb (is_some o).
Definition is_nil {A} (l : list A) : bool := match l with [] => true | _ => false end.

Lemma is_some_true {A} (o : option A) : is_some o = true ↔ ∃ a, o = Some a.
Proof. destruct o; naive_solver. Qed.
Lemma is_some_false {A} (o : option A) : is_some o = false ↔ o = None.
Proof. destruct o; naive_solver. Qed.
Lemma is_none_true {A} (o : option A) : is_none o = true ↔ o = None.
Proof. destruct o; naive_solver. Qed.
Lemma is_none_false {A} (o : option A) : is_none o = false ↔ ∃ a, o = Some a.
Proof. destruct o; naive_solver. Qed.
Lemma is_nil_true {A} (l : list A) : is_nil l = true ↔ l = [].
Proof. destruct l; naive_solver. Qed.
Lemma is_nil_false {A} (l : list A) : is_nil l = false ↔ l ≠ [].
Proof. destruct l; naive_solver. Qed.

(** [HashMap::is_empty] and [HashMap::contains_key]. *)
Definition map_is_empty {K A} `{Countable K} (m : gmap K A) : bool :=
  Nat.eqb (size m) 0.
Definition contains_key {K A} `{Countable K} (k : K) (m : gmap K A) : bool :=
  is_some (m !! k).

Lemma map_is_empty_true {K A} `{Countable K} (m : gmap K A) : map_is_empty m = true ↔ m = ∅.
Proof. unfold map_is_empty. rewrite Nat.eqb_eq. apply map_size_empty_iff. Qed.
Lemma map_is_empty_false {K A} `{Countable K} (m : gmap K A) : map_is_empty m = false ↔ m ≠ ∅.
Proof. rewrite <-map_is_empty_true. by destruct (map_is_empty m). Qed.
Lemma contains_key_true {K A} `{Countable K} (k : K) (m : gmap K A) :
  contains_key k m = true ↔ ∃ a, m !! k = Some a.
Proof. apply is_some_true. Qed.
Lemma contains_key_false {K A} `{Countable K} (k : K) (m : gmap K A) :
  contains_key k m = false ↔ m !! k = None.
Proof. apply is_some_false. Qed.

Create HintDb guards.
#[export] Hint Rewrite @is_some_true @is_some_false @is_none_true @is_none_false
  @is_nil_true @is_nil_false @map_is_empty_true @map_is_empty_false
  @contains_key_true @contains_key_false bool_decide_eq_true bool_decide_eq_false
  andb_true_iff andb_false_iff orb_true_iff orb_false_iff negb_true_iff negb_false_iff
  N.eqb_eq N.eqb_neq N.ltb_lt N.ltb_ge N.leb_le N.leb_gt
  Nat.eqb_eq Nat.eqb_neq Nat.ltb_lt Nat.ltb_ge Nat.leb_le Nat.leb_gt
  Z.ltb_lt Z.ltb_ge Z.leb_le Z.leb_gt : guards.

(** Turn the boolean guards of the context into propositions. *)
Ltac guards_to_props :=
  repeat match goal with
  | H : _ = true |- _ => progress autorewrite with guards in H
  | H : _ = false |- _ => progress autorewrite with guards in H
  end.

(** Run a method down one control path per case of its guards. *)
Ltac run_method H :=
  cbv [bind check gets modify ret fail lift zoom] in H;
  repeat (case_match; simplify_eq/=).

Lemma bind_lift_ok {E S A B} (o : outcome E A) (k : A → M E S B) s b s' :
  bind (lift o) k s = (Ok b, s') ↔ ∃ a, o = Ok a ∧ k a s = (Ok b, s').
Proof. unfold bind, lift. destruct o; split; try done; naive_solver. Qed.
Lemma bind_pure_ok {E S A B} (f : S → outcome E A) (k : A → M E S B) s b s' :
  bind (λ s, (f s, s)) k s = (Ok b, s') ↔ ∃ a, f s = Ok a ∧ k a s = (Ok b, s').
Proof. unfold bind. destruct (f s); split; try done; naive_solver. Qed.
Lemma bind_gets {E S A B} (f : S → A) (k : A → M E S B) s : bind (gets f) k s = k (f s) s.
Proof. done. Qed.
Lemma bind_modify {E S B} (f : S → S) (k : unit → M E S B) s : bind (modify f) k s = k tt (f s).
Proof. done. Qed.
Lemma zoom_ok {E S T A} (get : S → T) (put : T → S → S) (m : M E T A) s a s' :
  zoom get put m s = (Ok a, s') ↔ ∃ t, m (get s) = (Ok a, t) ∧ s' = put t s.
Proof. unfold zoom. destruct (m (get s)) as [o u]; split; [intros [= -> <-]; eauto | by intros (t & [= -> ->] & ->)]. Qed.

(** The outcome of a call that is evaluated apart from the state it leaves. *)
Lemma pair_outcome {A B} (p : A * B) a : p.1 = a → p = (a, p.2).
Proof. by destruct p; simpl; intros ->. Qed.

(** Follow a successful call of a method through its sequence of steps. *)
Ltac ok_inv H :=
  repeat lazymatch type of H with
  | check _ _ _ _ = (Ok _, _) =>
      let G := fresh "Hguard" in apply check_ok in H as [G H]
  | bind (gets _) _ _ = _ => rewrite bind_gets in H; cbn beta in H
  | bind (modify _) _ _ = _ => rewrite bind_modify in H; cbn beta in H
  | bind (lift _) _ _ = (Ok _, _) =>
      let x := fresh "x" in let G := fresh "Hlift" in apply bind_lift_ok in H as (x & G & H)
  | bind _ _ _ = (Ok _, _) =>
      let x := fresh "x" in let s := fresh "s" in let G := fresh "Hstep" in
      apply bind_ok in H as (x & s & G & H)
  | ret _ _ = (Ok _, _) => cbv [ret] in H; injection H; clear H; intros; subst
  end.

(** ** Machine integers

    A [u64] is an [N] below [2^64].  Release builds wrap on overflow (the
    workspace's [profile.release] does not set [overflow-checks]). *)

Definition u64_modulus : N := 18446744073709551616.
Definition u64_add (a b : N) : N := (a + b) mod u64_modulus.
Definition u64_mul (a b : N) : N := (a * b) mod u64_modulus.
Definition u64_sub (a b : N) : N := (a + (u64_modulus - b)) mod u64_modulus.

Lemma u64_add_exact a b : (a + b < u64_modulus)%N → u64_add a b = (a + b)%N.
Proof. intros. by apply N.mod_small. Qed.
Lemma u64_mul_exact a b : (a * b < u64_modulus)%N → u64_mul a b = (a * b)%N.
Proof. intros. by apply N.mod_small. Qed.
Lemma u64_sub_exact a b : (b ≤ a)%N → (a < u64_modulus)%N → u64_sub a b = (a - b)%N.
Proof.
  intros. unfold u64_sub.
  replace (a + (u64_modulus - b))%N with (a - b + 1 * u64_modulus)%N by lia.
  rewrite N.Div0.mod_add. apply N.mod_small. lia.
Qed.
Lemma u64_add_bound a b : (u64_add a b < u64_modulus)%N.
Proof. apply N.mod_lt. done. Qed.
Lemma u64_add_1_ne a : (a < u64_modulus)%N → u64_add a 1 ≠ a.
Proof.
  intros Ha. unfold u64_add. assert (1 < u64_modulus)%N by by vm_compute.
  destruct (decide (a + 1 = u64_modulus)%N) as [E|]; [rewrite E, N.Div0.mod_same | rewrite N.mod_small]; lia.
Qed.

#[global] Opaque u64_modulus.

(** [lia] with the positivity of the quotients and remainders of the goal and
    the context, which it does not know for [N]. *)
Ltac n_pos t :=
  lazymatch goal with
  | H : (0 ≤ t)%N |- _ => fail
  | _ => pose proof (N.le_0_l t)
  end.
Ltac nlia :=
  repeat match goal with
  | |- context [(?x / ?y)%N] => n_pos (x / y)%N
  | |- context [(?x mod ?y)%N] => n_pos (x mod y)%N
  | H : context [(?x / ?y)%N] |- _ => n_pos (x / y)%N
  | H : context [(?x mod ?y)%N] |- _ => n_pos (x mod y)%N
  end; lia.

(** The range [a..b]. *)
Definition u64_range (a b : N) : list N :=
  (λ i, a + N.of_nat i)%N <$> seq 0 (N.to_nat (b - a)).

Lemma u64_range_length a b : length (u64_range a b) = N.to_nat (b - a).
Proof. unfold u64_range. by rewrite length_fmap, length_seq. Qed.
Lemma u64_range_lookup a b i :
  i < N.to_nat (b - a) → u64_range a b !! i = Some (a + N.of_nat i)%N.
Proof. intros. unfold u64_range. by rewrite list_lookup_fmap, lookup_seq_lt. Qed.
Lemma elem_of_u64_range a b x : x ∈ u64_range a b ↔ (a ≤ x < b)%N.
Proof.
  unfold u64_range. rewrite list_elem_of_fmap. setoid_rewrite elem_of_seq. split.
  - intros (i & -> & ?). lia.
  - intros. exists (N.to_nat (x - a)). lia.
Qed.
Lemma u64_range_NoDup a b : NoDup (u64_range a b).
Proof. apply NoDup_fmap_2; [intros i j ?; lia|]. apply NoDup_seq. Qed.
Lemma u64_range_snoc a n :
  u64_range a (a + N.of_nat (S n)) = u64_range a (a + N.of_nat n) ++ [(a + N.of_nat n)%N].
Proof.
  unfold u64_range.
  replace (N.to_nat (a + N.of_nat (S n) - a)) with (S n) by lia.
  replace (N.to_nat (a + N.of_nat n - a)) with n by lia.
  by rewrite seq_S, fmap_app.
Qed.

(** ** Hash tables

    [std::collections::HashMap] iterates in an order the standard library does
    not specify.  Code whose result may depend on it is modelled over any
    choice of order, and theorems hold for all of them. *)

Class HashOrder := {
  hash_iter {K A : Type} `{Countable K} : gmap K A → list (K * A);
  hash_iter_perm {K A : Type} `{Countable K} (m : gmap K A) : hash_iter m ≡ₚ map_to_list m;
}.

(** The order used when a model is evaluated. *)
Definition trie_order : HashOrder := {|
  hash_iter K A _ _ m := map_to_list m;
  hash_iter_perm K A _ _ m := Permutation_refl _;
|}.

Section hash_order.
Context `{HashOrder} {K A : Type} `{Countable K}.
Implicit Types m : gmap K A.

Lemma elem_of_hash_iter m k a : (k, a) ∈ hash_iter m ↔ m !! k = Some a.
Proof. rewrite hash_iter_perm. apply elem_of_map_to_list. Qed.
Lemma hash_iter_NoDup m : NoDup (hash_iter m).*1.
Proof. rewrite hash_iter_perm. apply NoDup_fst_map_to_list. Qed.
Lemma hash_iter_length m : length (hash_iter m) = size m.
Proof. rewrite hash_iter_perm. apply length_map_to_list. Qed.
Lemma hash_iter_to_map m : list_to_map (hash_iter m) = m.
Proof.
  rewrite <-(list_to_map_to_list m) at 2.
  apply list_to_map_proper; [apply hash_iter_NoDup | apply hash_iter_perm].
Qed.
End hash_order.

(** ** Lists *)

Definition contains {A} `{EqDecision A} (l : list A) (a : A) : bool := bool_decide (a ∈ l).

(** [partition] on an iterator. *)
Definition partition_by {A} (p : A → bool) (l : list A) : list A * list A :=
  (filter (λ a, p a = true) l, filter (λ a, p a = false) l).

Lemma filter_partition_perm {A} (p : A → bool) (l : list A) :
  filter (λ a, p a = true) l ++ filter (λ a, p a = false) l ≡ₚ l.
Proof.
  induction l as [|a l IH]; [done|].
  rewrite !filter_cons. destruct (p a) eqn:E; repeat case_decide; try done.
  - simpl. by rewrite IH.
  - by rewrite <-Permutation_middle, IH.
Qed.

Lemma NoDup_fmap_fst_filter {K A} (P : K * A → Prop) `{∀ x, Decision (P x)} (l : list (K * A)) :
  NoDup l.*1 → NoDup (filter P l).*1.
Proof. intros. eapply sublist_NoDup; [done|]. by apply fmap_sublist, sublist_filter. Qed.

(** [slice::sort_by] is stable: equal elements keep their order. *)
Section sort_by.
Context {A : Type} (le : A → A → bool).

Fixpoint insert_by (x : A) (l : list A) : list A :=
  match l with
  | [] => [x]
  | y :: l => if le x y then x :: y :: l else y :: insert_by x l
  end.
Definition sort_by (l : list A) : list A := foldr insert_by [] l.

Lemma insert_by_perm x l : insert_by x l ≡ₚ x :: l.
Proof.
  induction l as [|y l IH]; simpl; [done|]. destruct (le x y); [done|].
  by rewrite IH, Permutation_swap.
Qed.
Lemma sort_by_perm l : sort_by l ≡ₚ l.
Proof. induction l as [|x l IH]; simpl; [done|]. by rewrite insert_by_perm, IH. Qed.
Lemma sort_by_length l : length (sort_by l) = length l.
Proof. by rewrite sort_by_perm. Qed.

Context (le_total : ∀ x y, le x y = false → le y x = true).
Context (le_trans : ∀ x y z, le x y = true → le y z = true → le x z = true).

Lemma insert_by_sorted x l :
  StronglySorted (λ x y, le x y = true) l → StronglySorted (λ x y, le x y = true) (insert_by x l).
Proof.
  induction 1 as [|y l Hs IH Hy]; simpl; [by repeat constructor|].
  destruct (le x y) eqn:E.
  - constructor; [by constructor|]. constructor; [done|].
    eapply Forall_impl; [done|]. naive_solver.
  - constructor; [done|]. rewrite insert_by_perm. constructor; auto.
Qed.
Lemma sort_by_sorted l : StronglySorted (λ x y, le x y = true) (sort_by l).
Proof. induction l; simpl; [constructor|]. by apply insert_by_sorted. Qed.
End sort_by.

(** [Iterator::min_by_key]: the first of the elements with the least key. *)
Definition min_by_key {A} (key : A → nat) (l : list A) : option A :=
  match l with
  | [] => None
  | x :: l => Some (foldl (λ best y, if (key y <? key best)%nat then y else best) x l)
  end.

Lemma min_by_key_Some {A} (key : A → nat) l x :
  min_by_key key l = Some x → x ∈ l ∧ ∀ y, y ∈ l → key x ≤ key y.
Proof.
  destruct l as [|a l]; simpl; [done|]. intros [= <-]. revert a.
  induction l as [|b l IH]; intros a; simpl.
  - split; [by constructor|]. intros y ->%list_elem_of_singleton. done.
  - destruct (Nat.ltb_spec (key b) (key a)).
    + destruct (IH b) as [? Hmin]. split; [by constructor|].
      intros y [->|Hy]%elem_of_cons; [|by apply Hmin].
      pose proof (Hmin b ltac:(constructor)). lia.
    + destruct (IH a) as [Hin Hmin]. split; [set_solver|].
      intros y [->|[->|Hy]%elem_of_cons]%elem_of_cons.
      * apply Hmin. constructor.
      * pose proof (Hmin a ltac:(constructor)). lia.
      * apply Hmin. by constructor.
Qed.

(** [for x in l { body }] with early exit on errors. *)
Fixpoint for_each {E S A} (f : A → M E S unit) (l : list A) : M E S unit :=
  match l with
  | [] => ret tt
  | x :: l => f x ;;; for_each f l
  end.

(** [for x in l { body }] that collects what the bodies return: [filter_map]
    with a fallible closure that mutates its environment, collected into a
    [Result<Vec<_>, _>]. *)
Fixpoint collect_map {E S A B} (f : A → M E S (option B)) (l : list A) : M E S (list B) :=
  match l with
  | [] => ret []
  | x :: l =>
      let! o := f x in
      let! r := collect_map f l in
      ret (match o with Some b => b :: r | None => r end)
  end.

(** Run a method on a value of its own, for its result and the value it leaves. *)
Definition run_on {E S A} (m : M E S A) (s : S) : outcome E S :=
  let '(o, s') := m s in bind_outcome o (λ _, Ok s').

Lemma run_on_ok {E S A} (m : M E S A) s s' :
  run_on m s = Ok s' ↔ ∃ a, m s = (Ok a, s').
Proof. unfold run_on. destruct (m s) as [[a|e|] s1]; naive_solver. Qed.

(** [collect] into a [HashMap]: a later entry replaces an earlier one. *)
Definition hash_map_from_iter {K A} `{Countable K} (l : list (K * A)) : gmap K A :=
  foldl (λ m kv, <[kv.1 := kv.2]> m) ∅ l.

Lemma foldl_insert_lookup {K A} `{Countable K} (l : list (K * A)) (m : gmap K A) k :
  k ∉ l.*1 → foldl (λ (m : gmap K A) kv, <[kv.1 := kv.2]> m) m l !! k = m !! k.
Proof.
  revert m. induction l as [|[k' a] l IH]; intros m Hk; simpl in *; [done|].
  rewrite IH by set_solver. apply lookup_insert_ne. set_solver.
Qed.
Lemma foldl_insert_to_map {K A} `{Countable K} (l : list (K * A)) (m : gmap K A) :
  NoDup l.*1 → foldl (λ (m : gmap K A) kv, <[kv.1 := kv.2]> m) m l = list_to_map l ∪ m.
Proof.
  revert m. induction l as [|[k a] l IH]; intros m Hnd; simpl in *; [by rewrite (left_id_L ∅ (∪))|].
  apply NoDup_cons in Hnd as [Hk Hnd]. rewrite IH by done.
  rewrite <-insert_union_r by by apply not_elem_of_list_to_map_1. by rewrite insert_union_l.
Qed.
Lemma hash_map_from_iter_to_map {K A} `{Countable K} (l : list (K * A)) :
  NoDup l.*1 → hash_map_from_iter l = list_to_map l.
Proof. intros. unfold hash_map_from_iter. rewrite foldl_insert_to_map by done. apply (right_id_L ∅ (∪)). Qed.

(** An enumerated [map] with a fallible body succeeds when each body does. *)
Lemma collect_imap_ok {E A B} (f : nat → A → outcome E B) (g : nat → A → B) l :
  (∀ i x, l !! i = Some x → f i x = Ok (g i x)) → collect (imap f l) = Ok (imap g l).
Proof.
  revert f g. induction l as [|x l IH]; intros f g Hf; simpl; [done|].
  rewrite (Hf 0 x) by done. simpl. rewrite (IH (f ∘ S) (g ∘ S)) by (intros; by apply Hf). done.
Qed.
Lemma collect_imap_inv {E A B} (f : nat → A → outcome E B) l r :
  collect (imap f l) = Ok r →
  length r = length l ∧
  (∀ i x, l !! i = Some x → ∃ y, r !! i = Some y ∧ f i x = Ok y) ∧
  (∀ i y, r !! i = Some y → ∃ x, l !! i = Some x ∧ f i x = Ok y).
Proof.
  intros Hr%collect_ok. pose proof (Forall2_length _ _ _ Hr) as Hlen. rewrite length_imap in Hlen.
  split; [done|]. split.
  - intros i x Hx. destruct (Forall2_lookup_l _ _ _ i (f i x) Hr) as (y & Hy & Hf); [|by eauto].
    by rewrite list_lookup_imap, Hx.
  - intros i y Hy. destruct (Forall2_lookup_r _ _ _ i y Hr Hy) as (o & Ho & ->).
    rewrite list_lookup_imap in Ho. destruct (l !! i) as [x|]; simplify_eq/=. eauto.
Qed.

(** Lookups in a table built from a list without duplicate keys. *)
Lemma hash_map_from_iter_Some {K A} `{Countable K} (l : list (K * A)) k a :
  NoDup l.*1 → hash_map_from_iter l !! k = Some a ↔ (k, a) ∈ l.
Proof. intros. rewrite hash_map_from_iter_to_map by done. symmetry. by apply elem_of_list_to_map. Qed.

Lemma foldl_delete_lookup {K A} `{Countable K} (ks : list K) (m : gmap K A) k :
  foldl (λ q p, delete p q) m ks !! k = if decide (k ∈ ks) then None else m !! k.
Proof.
  revert m. induction ks as [|k' ks IH]; intros m; cbn [foldl].
  - case_decide as Hk; [by apply not_elem_of_nil in Hk | done].
  - rewrite IH. destruct (decide (k = k')) as [->|Hne].
    + rewrite lookup_delete_eq, (decide_True _ _ (list_elem_of_here k' ks)). by case_decide.
    + rewrite lookup_delete_ne by done. apply decide_ext. set_solver.
Qed.

Lemma existsb_false {A} (f : A → bool) l :
  existsb f l = false ↔ ∀ x, x ∈ l → f x = false.
Proof.
  induction l as [|y l IH]; simpl.
  - split; [|done]. intros _ x []%not_elem_of_nil.
  - rewrite orb_false_iff, IH. setoid_rewrite elem_of_cons. naive_solver.
Qed.

Lemma StronglySorted_lookup {A} (R : A → A → Prop) l i j x y :
  StronglySorted R l → i < j → l !! i = Some x → l !! j = Some y → R x y.
Proof.
  intros Hs. revert i j. induction Hs as [|z l Hs IH Hz]; intros i j Hij Hi Hj; [done|].
  destruct j as [|j]; [lia|]. destruct i as [|i]; simplify_eq/=.
  - rewrite Forall_forall in Hz. by eapply Hz, list_elem_of_lookup_2.
  - apply (IH i j); [lia|done..].
Qed.

Lemma StronglySorted_filter {A} (R : A → A → Prop) (P : A → Prop) `{∀ x, Decision (P x)} l :
  StronglySorted R l → StronglySorted R (filter P l).
Proof.
  induction 1 as [|x l Hs IH Hx]; [constructor|]. rewrite filter_cons. case_decide; [|done].
  constructor; [done|]. rewrite Forall_forall in *. intros y [_ Hy]%list_elem_of_filter. by apply Hx.
Qed.

Lemma map_filter_lookup_decide {K A} `{Countable K} (P : K * A → Prop) `{∀ x, Decision (P x)}
    (m : gmap K A) k :
  filter P m !! k = match m !! k with Some a => if decide (P (k, a)) then Some a else None | None => None end.
Proof.
  apply option_eq. intros a. rewrite map_lookup_filter_Some.
  destruct (m !! k); [case_decide|]; naive_solver.
Qed.

Lemma NoDup_fst_inj {K A} (l : list (K * A)) k a b :
  NoDup l.*1 → (k, a) ∈ l → (k, b) ∈ l → a = b.
Proof.
  intros Hnd (i & Hi)%list_elem_of_lookup (j & Hj)%list_elem_of_lookup.
  assert (i = j) as ->; [|by simplify_eq].
  apply (NoDup_lookup _ _ _ k Hnd); by rewrite list_lookup_fmap, ?Hi, ?Hj.
Qed.

Lemma difference_singleton_empty {A} `{Countable A} (p : A) (ps : gset A) :
  p ∈ ps → ps ∖ {[p]} = ∅ → ps = {[p]}.
Proof.
  intros Hp He. apply set_eq. intros x. rewrite elem_of_singleton. split; [|by intros ->].
  intros Hx. destruct (decide (x = p)); [done|]. assert (x ∈ ps ∖ {[p]}) by set_solver. set_solver.
Qed.

Lemma hash_map_from_iter_elem {K A} `{Countable K} (l : list (K * A)) k a :
  hash_map_from_iter l !! k = Some a → (k, a) ∈ l.
Proof.
  unfold hash_map_from_iter.
  assert (∀ m : gmap K A, foldl (λ (m : gmap K A) kv, <[kv.1 := kv.2]> m) m l !! k = Some a →
    (k, a) ∈ l ∨ m !! k = Some a) as Hl.
  { induction l as [|[k' a'] l IH]; intros m; simpl; [by right|].
    intros [Hin|Hm]%IH; [left; by right|]. apply lookup_insert_Some in Hm as [[-> ->]|[_ ?]]; [left; by left|by right]. }
  intros [?|?%lookup_empty_Some]%Hl; done.
Qed.

(** ** Invariants of methods

    [preserves P m]: the method [m] leaves a state with [P] behind when it
    starts in one, whatever it returns. *)

Definition preserves {E S A} (P : S → Prop) (m : M E S A) : Prop := ∀ s, P s → P (m s).2.

Section preserves.
Context {E S : Type} (P : S → Prop).

Lemma preserves_ret {A} (a : A) : preserves P (ret (E := E) a).
Proof. by intros s. Qed.
Lemma preserves_fail {A} (e : E) : preserves P (fail (A := A) e).
Proof. by intros s. Qed.
Lemma preserves_gets {A} (f : S → A) : preserves P (gets (E := E) f).
Proof. by intros s. Qed.
Lemma preserves_lift {A} (o : outcome E A) : preserves P (lift o).
Proof. by intros s. Qed.
Lemma preserves_modify (f : S → S) : (∀ s, P s → P (f s)) → preserves P (modify (E := E) f).
Proof. by intros Hf s ?%Hf. Qed.
Lemma preserves_bind {A B} (m : M E S A) (k : A → M E S B) :
  preserves P m → (∀ a, preserves P (k a)) → preserves P (bind m k).
Proof.
  intros Hm Hk s Hs. specialize (Hm s Hs). unfold bind. destruct (m s) as [[a|e|] s1]; [|done..].
  by apply Hk.
Qed.
Lemma preserves_check {A} (b : S → bool) e (k : M E S A) : preserves P k → preserves P (check b e k).
Proof. intros Hk s Hs. unfold check. destruct (b s); [done|]. by apply Hk. Qed.
Lemma preserves_for_each {A} (f : A → M E S unit) l :
  (∀ x, x ∈ l → preserves P (f x)) → preserves P (for_each f l).
Proof.
  intros Hf. induction l as [|x l IH]; [apply preserves_ret|].
  apply preserves_bind; [apply Hf; by left | intros; apply IH; intros; apply Hf; by right].
Qed.
Lemma preserves_collect_map {A B} (f : A → M E S (option B)) l :
  (∀ x, preserves P (f x)) → preserves P (collect_map f l).
Proof.
  intros Hf. induction l as [|x l IH]; [apply preserves_ret|].
  apply preserves_bind; [apply Hf|]. intros o. apply preserves_bind; [done|]. intros r. apply preserves_ret.
Qed.
End preserves.

Create HintDb preserve discriminated.
#[export] Hint Resolve preserves_ret preserves_fail preserves_gets preserves_lift preserves_modify
  preserves_bind preserves_check preserves_for_each preserves_collect_map : preserve.

(** Take a method apart down to its assignments. *)
Ltac preserve_step :=
  lazymatch goal with
  | |- preserves _ (bind _ _) => apply preserves_bind; [|intros ?]
  | |- preserves _ (check _ _ _) => apply preserves_check
  | |- preserves _ (ret _) => apply preserves_ret
  | |- preserves _ (fail _) => apply preserves_fail
  | |- preserves _ (gets _) => apply preserves_gets
  | |- preserves _ (lift _) => apply preserves_lift
  | |- preserves _ (modify _) => apply preserves_modify; intros ? ?
  | |- preserves _ (if ?b then _ else _) => destruct b
  | |- preserves _ (match ?x with _ => _ end) => destruct x
  end.
Ltac preserve_tac := repeat (preserve_step || solve [eauto with preserve]).
