(* ===== verification/Text.v ===== *)
(** * Strings: splitting, and decimal [u64]s

    What the coordinator's (de)serializers and its path resolver use of
    [str::split], [str::splitn], [str::strip_prefix], [u64]'s [Display] and
    [u64::from_str]. *)

From S2P Require Import Prelude.
From Stdlib Require Import DecimalString DecimalN DecimalFacts Decimal.
From Stdlib Require Import Ascii String.

(** [s] contains the character [c]. *)
Fixpoint has_char (c : ascii) (s : string) : bool :=
  match s with
  | EmptyString => false
  | String a s => if Ascii.eqb a c then true else has_char c s
  end.

(** The text before the first [c], and the text after it if there is one. *)
Fixpoint split_once (c : ascii) (s : string) : string * option string :=
  match s with
  | EmptyString => (EmptyString, None)
  | String a s =>
      if Ascii.eqb a c then (EmptyString, Some s)
      else let '(l, r) := split_once c s in (String a l, r)
  end.

(** [s.split(c)]: [fuel] bounds the number of pieces; [length s] separators
    give at most [length s + 1] pieces. *)
Fixpoint split_fuel (fuel : nat) (c : ascii) (s : string) : list string :=
  match fuel with
  | O => [s]
  | S fuel =>
      match split_once c s with
      | (l, None) => [l]
      | (l, Some r) => l :: split_fuel fuel c r
      end
  end.
Definition split (c : ascii) (s : string) : list string := split_fuel (String.length s) c s.

(** [s.splitn(2, c).collect_tuple()] *)
Definition splitn2 (c : ascii) (s : string) : option (string * string) :=
  match split_once c s with
  | (l, Some r) => Some (l, r)
  | (_, None) => None
  end.

Fixpoint strip_prefix (p s : string) : option string :=
  match p, s with
  | EmptyString, _ => Some s
  | String a p, String b s => if Ascii.eqb a b then strip_prefix p s else None
  | String _ _, EmptyString => None
  end.

Lemma append_cons x (a b : string) : String x a +:+ b = String x (a +:+ b).
Proof. done. Qed.
Lemma append_nil_l (a : string) : "" +:+ a = a.
Proof. done. Qed.

Lemma append_assoc (a b c : string) : (a +:+ b) +:+ c = a +:+ (b +:+ c).
Proof. induction a as [|x a IH]; [done | by rewrite !append_cons; simpl; rewrite ?IH]. Qed.
Lemma append_nil_r (a : string) : a +:+ "" = a.
Proof. induction a as [|x a IH]; [done | by rewrite !append_cons; simpl; rewrite ?IH]. Qed.
Lemma append_length (a b : string) :
  String.length (a +:+ b) = String.length a + String.length b.
Proof. induction a as [|x a IH]; [done | by rewrite !append_cons; simpl; rewrite ?IH]. Qed.

Lemma has_char_app c a b : has_char c (a +:+ b) = has_char c a || has_char c b.
Proof. induction a as [|x a IH]; [done|]. rewrite append_cons; simpl. by destruct (Ascii.eqb x c). Qed.

Lemma strip_prefix_app p s : strip_prefix p (p +:+ s) = Some s.
Proof. induction p as [|a p IH]; [done|]. rewrite append_cons; simpl. by rewrite Ascii.eqb_refl. Qed.
Lemma strip_prefix_Some p s r : strip_prefix p s = Some r → s = p +:+ r.
Proof.
  revert s. induction p as [|a p IH]; intros s; simpl; [by intros [= ->]|].
  destruct s as [|b s]; [done|]. destruct (Ascii.eqb_spec a b) as [->|]; [|done].
  intros ?. by rewrite (IH s).
Qed.

Lemma split_once_app c a b :
  has_char c a = false → split_once c (a +:+ String c b) = (a, Some b).
Proof.
  induction a as [|x a IH]; [intros _; cbv [String.append]; simpl; by rewrite Ascii.eqb_refl|]. rewrite append_cons; simpl.
  destruct (Ascii.eqb x c); [done|]. intros. by rewrite IH.
Qed.
Lemma split_once_none c a : has_char c a = false → split_once c a = (a, None).
Proof.
  induction a as [|x a IH]; simpl; [done|].
  destruct (Ascii.eqb x c); [done|]. intros. by rewrite IH.
Qed.
Lemma split_once_Some c s l r :
  split_once c s = (l, Some r) → s = l +:+ String c r ∧ has_char c l = false.
Proof.
  revert l. induction s as [|x s IH]; intros l; simpl; [done|].
  destruct (Ascii.eqb_spec x c) as [->|Hx].
  - by intros [= <- <-].
  - destruct (split_once c s) as [l' r'] eqn:E. intros [= <- ->].
    destruct (IH l' eq_refl) as [-> ?]. split; [done|]. simpl.
    by destruct (Ascii.eqb_spec x c).
Qed.

Lemma splitn2_app c a b :
  has_char c a = false → splitn2 c (a +:+ String c b) = Some (a, b).
Proof. intros. unfold splitn2. by rewrite split_once_app. Qed.

Lemma split_cons c a b :
  has_char c a = false → has_char c b = false → split c (a +:+ String c b) = [a; b].
Proof.
  intros Ha Hb. unfold split. rewrite append_length. simpl.
  replace (String.length a + S (String.length b)) with (S (String.length a + String.length b)) by lia.
  simpl. rewrite split_once_app by done. f_equal.
  destruct (String.length a + String.length b); simpl; [done|].
  by rewrite split_once_none.
Qed.

(** ** Decimal numbers *)

(** [u64]'s [Display]. *)
Definition u64_to_string (n : N) : string := NilEmpty.string_of_uint (N.to_uint n).

(** [u64::from_str]: an optional sign [+], then at least one digit, below [2^64]. *)
Definition u64_from_str (s : string) : option N :=
  let digits := match s with String "+" r => r | _ => s end in
  match digits with
  | EmptyString => None
  | _ =>
      match NilEmpty.uint_of_string digits with
      | Some u => if (N.of_uint u <? u64_modulus)%N then Some (N.of_uint u) else None
      | None => None
      end
  end.

Definition is_digit (a : ascii) : bool :=
  ((48 <=? N_of_ascii a) && (N_of_ascii a <=? 57))%N.

Fixpoint all_digits (s : string) : bool :=
  match s with
  | EmptyString => true
  | String a s => is_digit a && all_digits s
  end.

Lemma string_of_uint_digits d : all_digits (NilEmpty.string_of_uint d) = true.
Proof. induction d; simpl; auto. Qed.
Lemma u64_to_string_digits n : all_digits (u64_to_string n) = true.
Proof. apply string_of_uint_digits. Qed.

Lemma all_digits_no_char c s : all_digits s = true → is_digit c = false → has_char c s = false.
Proof.
  induction s as [|a s IH]; simpl; [done|]. intros [Ha ?]%andb_true_iff Hc.
  destruct (Ascii.eqb_spec a c) as [->|]; [congruence | auto].
Qed.
Lemma u64_to_string_no_char c n : is_digit c = false → has_char c (u64_to_string n) = false.
Proof. apply all_digits_no_char, u64_to_string_digits. Qed.

Lemma to_uint_not_nil n : N.to_uint n ≠ Decimal.Nil.
Proof. destruct n as [|p]; simpl; [done|]. apply DecimalPos.Unsigned.to_uint_nonnil. Qed.

Lemma u64_to_string_cons n : ∃ a s, u64_to_string n = String a s ∧ is_digit a = true.
Proof.
  pose proof (u64_to_string_digits n) as Hd. unfold u64_to_string in *.
  pose proof (to_uint_not_nil n).
  destruct (N.to_uint n); simpl in *; try done; eauto.
Qed.

Lemma u64_from_to_string n : (n < u64_modulus)%N → u64_from_str (u64_to_string n) = Some n.
Proof.
  intros Hn. unfold u64_from_str.
  destruct (u64_to_string_cons n) as (a & s & Hs & Ha). rewrite Hs.
  assert (match String a s with String "+" r => r | _ => String a s end = String a s) as ->.
  { destruct (Ascii.eqb_spec a "+") as [->|Hne]; [done|].
    destruct a as [[] [] [] [] [] [] [] []]; try done. }
  rewrite <-Hs. unfold u64_to_string. rewrite NilEmpty.usu.
  rewrite DecimalN.Unsigned.of_to.
  by apply N.ltb_lt in Hn as ->.
Qed.

Lemma u64_to_string_inj n n' : u64_to_string n = u64_to_string n' → n = n'.
Proof.
  unfold u64_to_string. intros Heq.
  apply DecimalN.Unsigned.to_uint_inj.
  assert (Some (N.to_uint n) = Some (N.to_uint n')) as [= ?]; [|done].
  by rewrite <-(NilEmpty.usu (N.to_uint n)), <-(NilEmpty.usu (N.to_uint n')), Heq.
Qed.

Lemma u64_from_str_bound s n : u64_from_str s = Some n → (n < u64_modulus)%N.
Proof.
  unfold u64_from_str. intros H. repeat case_match; simplify_eq; by apply N.ltb_lt.
Qed.

(** ** Splitting and joining *)

Lemma split_once_length c s l r : split_once c s = (l, Some r) → String.length r < String.length s.
Proof. intros [-> _]%split_once_Some. rewrite append_length. simpl. lia. Qed.

Lemma split_fuel_enough c f1 f2 s :
  String.length s ≤ f1 → String.length s ≤ f2 → split_fuel f1 c s = split_fuel f2 c s.
Proof.
  revert f2 s. induction f1 as [|f1 IH]; intros [|f2] s H1 H2; simpl; [done| | |].
  1,2: destruct s; simpl in *; [done | lia].
  destruct (split_once c s) as [l [r|]] eqn:E; [|done].
  apply split_once_length in E. f_equal. apply IH; lia.
Qed.

Lemma split_unfold c s :
  split c s = match split_once c s with (l, None) => [l] | (l, Some r) => l :: split c r end.
Proof.
  unfold split at 1. destruct s as [|a s]; [done|].
  change (String.length (String a s)) with (S (String.length s)). cbn [split_fuel].
  destruct (split_once c (String a s)) as [l [r|]] eqn:E; [|done].
  apply split_once_length in E. simpl in E. f_equal. apply split_fuel_enough; lia.
Qed.

Lemma split_once_None c s l : split_once c s = (l, None) → s = l ∧ has_char c s = false.
Proof.
  revert l. induction s as [|a s IH]; intros l; simpl; [by intros [= <-]|].
  destruct (Ascii.eqb a c); [done|]. destruct (split_once c s) as [l' r']. intros [= <- ->].
  by destruct (IH l' eq_refl) as [-> ?].
Qed.

(** Induction over the pieces of a string. *)
Lemma pieces_ind c (P : string → Prop) :
  (∀ s, has_char c s = false → P s) →
  (∀ l r, has_char c l = false → P r → P (l +:+ String c r)) →
  ∀ s, P s.
Proof.
  intros H1 H2 s. remember (String.length s) as n eqn:Hn.
  revert s Hn. induction (lt_wf n) as [n _ IH]. intros s ->.
  destruct (split_once c s) as [l [r|]] eqn:E.
  - pose proof (split_once_length _ _ _ _ E). apply split_once_Some in E as [-> ?]. eauto.
  - apply split_once_None in E as [_ ?]. by apply H1.
Qed.

Lemma split_piece c s : has_char c s = false → split c s = [s].
Proof. intros. rewrite split_unfold. by rewrite split_once_none. Qed.
Lemma split_app c a b : split c (a +:+ String c b) = split c a ++ split c b.
Proof.
  induction a as [a Ha|l r Hl IH] using (pieces_ind c).
  - by rewrite split_unfold, split_once_app, (split_piece c a).
  - rewrite append_assoc, append_cons, split_unfold, split_once_app, IH by done.
    by rewrite (split_unfold c (l +:+ _)), split_once_app.
Qed.
Lemma split_nonempty c s : split c s ≠ [].
Proof. rewrite split_unfold. by destruct (split_once c s) as [? [?|]]. Qed.

Lemma concat_split c s : String.concat (String c "") (split c s) = s.
Proof.
  induction s as [s Hs|l r Hl IH] using (pieces_ind c); [by rewrite split_piece|].
  rewrite split_app, (split_piece c l) by done. simpl.
  pose proof (split_nonempty c r). destruct (split c r); [done|]. by rewrite IH.
Qed.

(** [s.contains(p)] *)
Fixpoint contains_str (p s : string) : bool :=
  is_some (strip_prefix p s) || match s with EmptyString => false | String _ s => contains_str p s end.

Lemma has_char_neq c a b : has_char c a = true → has_char c b = false → a ≠ b.
Proof. intros ?? ->. congruence. Qed.
Lemma has_char_sep c a b : has_char c (a +:+ String c b) = true.
Proof. rewrite has_char_app. simpl. rewrite Ascii.eqb_refl. apply orb_true_r. Qed.

(** ** Substrings *)

Lemma strip_prefix_app_both a p s : strip_prefix (a +:+ p) (a +:+ s) = strip_prefix p s.
Proof.
  induction a as [|x a IH]; [done|]. rewrite !append_cons. cbn [strip_prefix].
  by rewrite Ascii.eqb_refl.
Qed.

Lemma strip_prefix_app_sep c p s r :
  has_char c p = false → is_some (strip_prefix p (s +:+ String c r)) = is_some (strip_prefix p s).
Proof.
  revert s. induction p as [|x p IH]; intros s; [done|]. cbn [has_char].
  destruct (Ascii.eqb_spec x c) as [|Hne]; [done|]. intros Hp.
  destruct s as [|y s].
  - change ("" +:+ String c r) with (String c r). cbn [strip_prefix].
    by destruct (Ascii.eqb_spec x c).
  - rewrite append_cons. cbn [strip_prefix]. destruct (Ascii.eqb x y); [auto | done].
Qed.

Lemma contains_str_sep c p a b :
  has_char c p = false → p ≠ ""%string →
  contains_str p (a +:+ String c b) = contains_str p a || contains_str p b.
Proof.
  intros Hp Hne. induction a as [|x a IH].
  - change ("" +:+ String c b) with (String c b). cbn [contains_str].
    destruct p as [|y p]; [done|]. cbn [has_char] in Hp. cbn [strip_prefix].
    by destruct (Ascii.eqb_spec y c).
  - rewrite append_cons. cbn [contains_str]. rewrite IH, <-append_cons.
    rewrite (strip_prefix_app_sep c p (String x a)) by done. by rewrite orb_assoc.
Qed.

Lemma contains_str_no_char c p s :
  has_char c p = true → has_char c s = false → contains_str p s = false.
Proof.
  intros Hp. induction s as [|y s IH]; cbn [contains_str has_char].
  - intros _. by destruct p.
  - destruct (Ascii.eqb_spec y c) as [|Hne]; [done|]. intros Hs. rewrite IH by done.
    rewrite orb_false_r. apply is_some_false.
    destruct (strip_prefix p (String y s)) as [r|] eqn:E; [|done]. apply strip_prefix_Some in E.
    assert (has_char c (String y s) = true) as Hc by (rewrite E, has_char_app, Hp; done).
    cbn [has_char] in Hc. rewrite Hs in Hc. by destruct (Ascii.eqb_spec y c).
Qed.

Lemma strip_prefix_sep c a a' r :
  has_char c a = false → has_char c a' = false →
  is_some (strip_prefix (a +:+ String c "") (a' +:+ String c r)) = bool_decide (a = a').
Proof.
  revert a'. induction a as [|x a IH]; intros [|y a'] Ha Ha'; cbn [has_char] in Ha, Ha'.
  - change ("" +:+ ?s) with s. cbn [strip_prefix]. by rewrite Ascii.eqb_refl, bool_decide_eq_true_2.
  - change ("" +:+ ?s) with s. rewrite append_cons. cbn [strip_prefix].
    destruct (Ascii.eqb_spec y c); [done|]. destruct (Ascii.eqb_spec c y); [done|].
    by rewrite bool_decide_eq_false_2.
  - change ("" +:+ ?s) with s. rewrite append_cons. cbn [strip_prefix].
    destruct (Ascii.eqb_spec x c); [done|]. by rewrite bool_decide_eq_false_2.
  - rewrite !append_cons. cbn [strip_prefix].
    destruct (Ascii.eqb_spec x c); [done|]. destruct (Ascii.eqb_spec y c); [done|].
    destruct (Ascii.eqb_spec x y) as [->|Hne].
    + rewrite IH by done. apply bool_decide_ext. split; [by intros -> | by intros [= ?]].
    + rewrite bool_decide_eq_false_2; [done|]. by intros [= ? _].
Qed.

(** Only zero starts with the digit zero. *)
Lemma unorm_D0 d d' : unorm d = D0 d' → d' = Nil.
Proof.
  intros H. assert (∀ d', nzhead d ≠ D0 d') as Hn.
  { clear. intros d'. induction d; simpl; congruence. }
  unfold unorm in H. destruct (nzhead d) eqn:E; simplify_eq; try done. by destruct (Hn d').
Qed.

Lemma u64_to_string_leading_zero n s :
  is_some (strip_prefix "0" (u64_to_string n +:+ String "." s)) = (n =? 0)%N.
Proof.
  destruct (u64_to_string_cons n) as (a & r & E & _). rewrite E, append_cons.
  cbn [strip_prefix]. destruct (Ascii.eqb_spec "0" a) as [<-|Hne].
  - destruct (N.eqb_spec n 0) as [->|Hn]; [done|]. exfalso. unfold u64_to_string in E.
    pose proof (DecimalN.Unsigned.to_of (N.to_uint n)) as Ho. rewrite DecimalN.Unsigned.of_to in Ho.
    destruct (N.to_uint n) as [|d| | | | | | | | |] eqn:Eu; simpl in E; try discriminate.
    symmetry in Ho. apply unorm_D0 in Ho as ->. apply Hn.
    by rewrite <-(DecimalN.Unsigned.of_to n), Eu.
  - destruct (N.eqb_spec n 0) as [->|]; [|done]. vm_compute in E. congruence.
Qed.
