(* ===== verification/Task.v ===== *)
(** * Tasks and their distribution over the contributors of a round

    [phase1-coordinator/src/objects/task.rs]: the [Task] identity, its textual
    form, and [initialize_tasks], which deals the (chunk, contribution) grid of
    a round to its contributors. *)

From S2P Require Import Prelude Text.
From Stdlib Require Import Ascii.

Record Task := MkTask { chunk_id : N; contribution_id : N }.

#[export] Instance Task_eq_dec : EqDecision Task.
Proof. solve_decision. Defined.
#[export] Instance Task_countable : Countable Task.
Proof.
  by apply (inj_countable' (λ t, (chunk_id t, contribution_id t)) (λ p, MkTask p.1 p.2)); intros [].
Defined.

Definition task_contains (t : Task) (c : N) : bool := (chunk_id t =? c)%N.
Definition to_tuple (t : Task) : N * N := (chunk_id t, contribution_id t).

(** ** Textual form *)

Definition task_serialize (t : Task) : string :=
  u64_to_string (chunk_id t) +:+ "/" +:+ u64_to_string (contribution_id t).

Inductive TaskParseError :=
| InvalidChunkId
| InvalidContributionId
| InvalidNumber.

Definition task_deserialize (s : string) : outcome TaskParseError Task :=
  let pieces := split "/"%char s in
  try! c := ok_or (pieces !! 0) InvalidChunkId in
  try! k := ok_or (pieces !! 1) InvalidContributionId in
  try! chunk := ok_or (u64_from_str c) InvalidNumber in
  try! contribution := ok_or (u64_from_str k) InvalidNumber in
  Ok (MkTask chunk contribution).

(** ** Distribution *)

Inductive TaskInitializationError :=
| StartingBucketIdOutOfRange (starting_bucket_id number_of_contributors : N)
| NotEnoughChunks (number_of_chunks number_of_contributors : N).

#[export] Instance TaskInitializationError_eq_dec : EqDecision TaskInitializationError.
Proof. solve_decision. Defined.

(** The mutable variables of the loop of [initialize_tasks]. *)
Record DealState := MkDeal { initial_steps : N; final_steps : N; dealt : list Task }.

(** One iteration of the loop over [start + 1 .. end]. *)
Definition deal_step (number_of_chunks bucket_size number_of_contributors
    number_of_initial_steps number_of_final_steps : N) (s : DealState) (current_index : N)
    : DealState :=
  let chunk := (current_index mod number_of_chunks)%N in
  let is_new_bucket := (chunk mod bucket_size =? 0)%N in
  let initial :=
    if is_new_bucket && (initial_steps s <? number_of_initial_steps)%N
    then u64_add (initial_steps s) 1 else initial_steps s in
  let final :=
    if is_new_bucket && (number_of_chunks <=? current_index)%N then
      if (final_steps s <? number_of_final_steps)%N
      then u64_add (final_steps s) 1 else final_steps s
    else final_steps s in
  let steps := (u64_add initial final mod number_of_contributors)%N in
  let contribution := u64_add steps 1 in
  MkDeal initial final (dealt s ++ [MkTask chunk contribution]).

Definition initialize_tasks (starting_bucket_id number_of_chunks number_of_contributors : N)
    : outcome TaskInitializationError (list Task) :=
  if (number_of_contributors =? 0)%N then Ok []
  else if (number_of_contributors <=? starting_bucket_id)%N then
    Err (StartingBucketIdOutOfRange starting_bucket_id number_of_contributors)
  else if (number_of_chunks <? number_of_contributors)%N then
    Err (NotEnoughChunks number_of_chunks number_of_contributors)
  else
    let number_of_buckets := number_of_contributors in
    let bucket_size := (number_of_chunks / number_of_buckets)%N in
    let number_of_initial_steps := u64_sub (u64_sub number_of_contributors 1) starting_bucket_id in
    let number_of_final_steps := starting_bucket_id in
    let start := u64_mul starting_bucket_id bucket_size in
    let end_ := u64_add start number_of_chunks in
    let tasks0 := [MkTask (start mod number_of_chunks) 1] in
    let s := foldl (deal_step number_of_chunks bucket_size number_of_contributors
                      number_of_initial_steps number_of_final_steps)
                   (MkDeal 0 0 tasks0) (u64_range (u64_add start 1) end_) in
    (* assert!(tasks.len() == number_of_chunks as usize) *)
    if (N.of_nat (length (dealt s)) =? number_of_chunks)%N then Ok (dealt s) else Panic.

Example tasks_4_2_0 :
  initialize_tasks 0 4 2 = Ok [MkTask 0 1; MkTask 1 1; MkTask 2 2; MkTask 3 2].
Proof. vm_compute. reflexivity. Qed.
Example tasks_4_2_1 :
  initialize_tasks 1 4 2 = Ok [MkTask 2 1; MkTask 3 1; MkTask 0 2; MkTask 1 2].
Proof. vm_compute. reflexivity. Qed.
Example tasks_3_2_1 :
  initialize_tasks 1 3 2 = Ok [MkTask 1 1; MkTask 2 1; MkTask 0 2].
Proof. vm_compute. reflexivity. Qed.

(** ** Round trip of the textual form *)

Definition task_in_range (t : Task) : Prop :=
  (chunk_id t < u64_modulus)%N ∧ (contribution_id t < u64_modulus)%N.

Lemma task_deserialize_serialize_aux t :
  task_in_range t → task_deserialize (task_serialize t) = Ok t.
Proof.
  intros [Hc Hk]. unfold task_deserialize, task_serialize.
  change ("/" +:+ ?s) with (String "/" s).
  rewrite split_cons by (by apply u64_to_string_no_char).
  simpl. rewrite !u64_from_to_string by done. by destruct t.
Qed.

(** ** The deal in closed form

    Bucket [q] holds the chunks [q * bs .. q * bs + bs]; the chunks past the
    last full bucket count as part of bucket [n - 1].  The contributor that
    starts in bucket [b] makes contribution [1 + (q - b) mod n] to the chunks
    of bucket [q]. *)

Definition bucket_of (n bs c : N) : N := N.min (c / bs) (n - 1).
Definition contribution_of (b n bs c : N) : N := ((bucket_of n bs c + n - b) mod n + 1)%N.

(** The [i]-th chunk the contributor of bucket [b] visits. *)
Definition deal_task (b m n bs i : N) : Task :=
  MkTask (i mod m) (contribution_of b n bs (i mod m)).

Lemma div_succ x bs :
  (0 < bs)%N →
  ((x + 1) / bs = if (x + 1) mod bs =? 0 then x / bs + 1 else x / bs)%N.
Proof.
  intros Hbs.
  pose proof (N.div_mod x bs ltac:(lia)) as Hx.
  pose proof (N.mod_lt x bs ltac:(lia)).
  assert (x mod bs + 1 < bs ∨ x mod bs + 1 = bs)%N as [Hlt|Heq] by lia.
  - assert (x / bs = (x + 1) / bs)%N as <- by (apply (N.div_unique _ _ _ (x mod bs + 1)); lia).
    assert (x mod bs + 1 = (x + 1) mod bs)%N as <- by (apply (N.mod_unique _ _ (x / bs)); lia).
    destruct (N.eqb_spec (x mod bs + 1) 0); [nlia | done].
  - assert (x / bs + 1 = (x + 1) / bs)%N as <- by (apply (N.div_unique _ _ _ 0); lia).
    assert (0 = (x + 1) mod bs)%N as <- by (apply (N.mod_unique _ _ (x / bs + 1)); lia).
    done.
Qed.

Section deal.
Context (b m n bs : N).
Context (Hb : (b < n)%N) (Hbs : (0 < bs)%N) (Hfit : (n * bs ≤ m)%N).

Definition initial_at (cur : N) : N :=
  if (cur <? m)%N then (bucket_of n bs cur - b)%N else (n - 1 - b)%N.
Definition final_at (cur : N) : N :=
  if (cur <? m)%N then 0%N else ((cur - m) / bs + 1)%N.
Definition deal_at (cur : N) : DealState :=
  MkDeal (initial_at cur) (final_at cur)
    (deal_task b m n bs <$> u64_range (b * bs) (cur + 1)).

Lemma n_le_m : (n ≤ m)%N.
Proof. nia. Qed.
Lemma start_lt : (b * bs < m)%N.
Proof. nia. Qed.

Lemma bucket_ge_start cur : (b * bs ≤ cur)%N → (b ≤ bucket_of n bs cur)%N.
Proof.
  intros. unfold bucket_of.
  assert (b ≤ cur / bs)%N by (apply N.div_le_lower_bound; nlia). nlia.
Qed.
Lemma bucket_last : bucket_of n bs (m - 1) = (n - 1)%N.
Proof.
  unfold bucket_of.
  assert (n - 1 ≤ (m - 1) / bs)%N by (apply N.div_le_lower_bound; nia). nlia.
Qed.
Lemma bucket_before_start c : (c < b * bs)%N → (bucket_of n bs c = c / bs ∧ c / bs < b)%N.
Proof.
  intros. unfold bucket_of.
  assert (c / bs < b)%N by (apply N.Div0.div_lt_upper_bound; nlia). nlia.
Qed.

(** The steps taken when index [cur] is reached give its contribution. *)
Lemma steps_at cur :
  (b * bs ≤ cur < b * bs + m)%N →
  ((initial_at cur + final_at cur) mod n + 1 = contribution_of b n bs (cur mod m))%N.
Proof.
  intros [Hl Hr]. unfold contribution_of, initial_at, final_at.
  destruct (N.ltb_spec cur m).
  - rewrite (N.mod_small cur) by done. pose proof (bucket_ge_start cur Hl).
    replace (bucket_of n bs cur + n - b)%N with (bucket_of n bs cur - b + 0 + 1 * n)%N by nlia.
    by rewrite N.Div0.mod_add.
  - assert (cur mod m = cur - m)%N as ->.
    { symmetry. apply (N.mod_unique _ _ 1); nia. }
    destruct (bucket_before_start (cur - m)) as [-> ?]; [nlia|].
    f_equal. f_equal. nlia.
Qed.

Lemma initial_at_succ cur :
  (b * bs ≤ cur)%N → (cur + 1 < b * bs + m)%N →
  (if ((cur + 1) mod m mod bs =? 0) && (initial_at cur <? n - 1 - b)
   then initial_at cur + 1 else initial_at cur)%N = initial_at (cur + 1).
Proof.
  intros Hl Hr. unfold initial_at.
  destruct (N.ltb_spec cur m), (N.ltb_spec (cur + 1) m); try nlia.
  - rewrite (N.mod_small (cur + 1) m) by done.
    pose proof (bucket_ge_start cur Hl) as Hge. unfold bucket_of in *.
    rewrite (div_succ cur bs) by done.
    destruct (N.eqb_spec ((cur + 1) mod bs) 0); simpl; [|done].
    destruct (N.ltb_spec (N.min (cur / bs) (n - 1) - b) (n - 1 - b)); nlia.
  - replace cur with (m - 1)%N by nlia. rewrite bucket_last.
    rewrite (proj2 (N.ltb_ge _ _)) by nlia. by rewrite andb_false_r.
  - rewrite (proj2 (N.ltb_ge (n - 1 - b) _)) by nlia. by rewrite andb_false_r.
Qed.

Lemma final_at_succ cur :
  (b * bs ≤ cur)%N → (cur + 1 < b * bs + m)%N →
  (if ((cur + 1) mod m mod bs =? 0) && (m <=? cur + 1) then
     if final_at cur <? b then final_at cur + 1 else final_at cur
   else final_at cur)%N = final_at (cur + 1).
Proof.
  intros Hl Hr. unfold final_at.
  destruct (N.ltb_spec (cur + 1) m).
  { rewrite (proj2 (N.leb_gt _ _)), andb_false_r by nlia.
    by rewrite (proj2 (N.ltb_lt cur m)) by nlia. }
  rewrite (proj2 (N.leb_le _ _)), andb_true_r by nlia.
  assert ((cur + 1) mod m = cur + 1 - m)%N as ->.
  { symmetry. apply (N.mod_unique _ _ 1); nia. }
  destruct (N.ltb_spec cur m).
  - replace (cur + 1 - m)%N with 0%N by nlia.
    rewrite N.Div0.mod_0_l, N.Div0.div_0_l. simpl.
    rewrite (proj2 (N.ltb_lt 0 b)) by nia. nlia.
  - replace (cur + 1 - m)%N with (cur - m + 1)%N by nlia.
    rewrite (div_succ (cur - m) bs) by done.
    destruct (N.eqb_spec ((cur - m + 1) mod bs) 0) as [Hz|]; [|nlia].
    destruct (bucket_before_start (cur - m + 1)) as [_ Hlt]; [nlia|].
    rewrite (div_succ (cur - m) bs), (proj2 (N.eqb_eq _ _) Hz) in Hlt by done.
    by rewrite (proj2 (N.ltb_lt _ _)) by nlia.
Qed.

Context (Hm : (2 * m < u64_modulus)%N).

Lemma deal_step_at cur :
  (b * bs ≤ cur)%N → (cur + 1 < b * bs + m)%N →
  deal_step m bs n (n - 1 - b) b (deal_at cur) (cur + 1) = deal_at (cur + 1).
Proof.
  intros Hl Hr. unfold deal_step. cbn [initial_steps final_steps dealt deal_at].
  pose proof start_lt. pose proof n_le_m.
  pose proof (initial_at_succ cur Hl Hr) as Hi.
  pose proof (final_at_succ cur Hl Hr) as Hf.
  assert (initial_at cur + 1 < u64_modulus)%N.
  { unfold initial_at, bucket_of. destruct (cur <? m)%N; nlia. }
  assert (final_at cur + 1 < u64_modulus)%N.
  { unfold final_at. destruct (N.ltb_spec cur m); [nlia|].
    assert ((cur - m) / bs ≤ cur - m)%N by (apply N.Div0.div_le_upper_bound; nia). nlia. }
  rewrite (u64_add_exact (initial_at cur)), (u64_add_exact (final_at cur)) by done.
  rewrite Hi, Hf.
  assert (initial_at (cur + 1) + final_at (cur + 1) < u64_modulus)%N.
  { unfold initial_at, final_at, bucket_of. destruct (N.ltb_spec (cur + 1) m); [nlia|].
    destruct (bucket_before_start (cur + 1 - m)); nlia. }
  rewrite (u64_add_exact (initial_at (cur + 1))) by done.
  pose proof (N.mod_lt (initial_at (cur + 1) + final_at (cur + 1)) n ltac:(nlia)).
  rewrite (u64_add_exact _ 1) by nlia.
  unfold deal_at. f_equal.
  replace (cur + 1 + 1)%N with (b * bs + N.of_nat (S (N.to_nat (cur + 1 - b * bs))))%N by nlia.
  rewrite u64_range_snoc, fmap_app.
  replace (b * bs + N.of_nat (N.to_nat (cur + 1 - b * bs)))%N with (cur + 1)%N by nlia.
  f_equal. simpl. unfold deal_task. do 2 f_equal. apply steps_at. nlia.
Qed.

Lemma deal_loop k :
  (N.of_nat k < m)%N →
  foldl (deal_step m bs n (n - 1 - b) b) (deal_at (b * bs))
    (u64_range (b * bs + 1) (b * bs + 1 + N.of_nat k)) = deal_at (b * bs + N.of_nat k).
Proof.
  induction k as [|k IH]; intros Hk.
  - unfold u64_range. replace (b * bs + 1 + N.of_nat 0 - (b * bs + 1))%N with 0%N by nlia.
    simpl. f_equal. nlia.
  - rewrite u64_range_snoc, foldl_app, IH by nlia. simpl.
    replace (b * bs + 1 + N.of_nat k)%N with (b * bs + N.of_nat k + 1)%N by nlia.
    rewrite deal_step_at by nlia. f_equal. nlia.
Qed.
End deal.

(** What [initialize_tasks] returns when its guards pass. *)
Definition deal_list (b m n : N) : list Task :=
  deal_task b m n (m / n) <$> u64_range (b * (m / n)) (b * (m / n) + m).

Lemma deal_list_length b m n : length (deal_list b m n) = N.to_nat m.
Proof. unfold deal_list. rewrite length_fmap, u64_range_length. lia. Qed.

Lemma initialize_tasks_deal b m n :
  (b < n)%N → (n ≤ m)%N → (2 * m < u64_modulus)%N → initialize_tasks b m n = Ok (deal_list b m n).
Proof.
  intros Hb Hnm Hm. unfold initialize_tasks.
  rewrite (proj2 (N.eqb_neq _ _)), (proj2 (N.leb_gt n b)), (proj2 (N.ltb_ge m n)) by lia.
  assert (0 < m / n)%N as Hbs by (apply N.div_str_pos; lia).
  pose proof (N.Div0.mul_div_le m n) as Hfit.
  pose proof (start_lt b m n (m / n) Hb Hbs Hfit).
  rewrite (u64_sub_exact n 1), (u64_sub_exact (n - 1) b), u64_mul_exact by lia.
  rewrite !u64_add_exact by lia.
  pose proof (deal_loop b m n (m / n) Hb Hbs Hfit Hm (N.to_nat (m - 1)) ltac:(lia)) as Hloop.
  replace (b * (m / n) + 1 + N.of_nat (N.to_nat (m - 1)))%N with (b * (m / n) + m)%N in Hloop by lia.
  replace (b * (m / n) + N.of_nat (N.to_nat (m - 1)))%N with (b * (m / n) + m - 1)%N in Hloop by lia.
  assert (deal_at b m n (m / n) (b * (m / n)) = MkDeal 0 0 [MkTask ((b * (m / n)) mod m) 1]) as Hinit.
  { pose proof (steps_at b m n (m / n) Hb Hbs Hfit (b * (m / n)) ltac:(lia)) as Hsteps.
    unfold deal_at, deal_task, initial_at, final_at in *.
    rewrite (proj2 (N.ltb_lt _ _)) in * by done.
    assert (bucket_of n (m / n) (b * (m / n)) = b) as Hbk.
    { unfold bucket_of. rewrite N.div_mul by lia. lia. }
    rewrite Hbk in *. replace (b - b + 0)%N with 0%N in Hsteps by lia.
    rewrite N.Div0.mod_0_l in Hsteps. rewrite N.sub_diag. f_equal.
    replace (b * (m / n) + 1)%N with (b * (m / n) + N.of_nat 1)%N by lia.
    rewrite u64_range_snoc. unfold u64_range at 1.
    replace (b * (m / n) + N.of_nat 0 - b * (m / n))%N with 0%N by lia. simpl.
    rewrite N.add_0_r. by rewrite <-Hsteps. }
  rewrite <-Hinit, Hloop. unfold deal_at. cbn [dealt].
  replace (b * (m / n) + m - 1 + 1)%N with (b * (m / n) + m)%N by lia.
  fold (deal_list b m n). rewrite deal_list_length.
  by rewrite (proj2 (N.eqb_eq _ _)) by lia.
Qed.

Lemma bucket_of_lt n bs c : (0 < n)%N → (bucket_of n bs c < n)%N.
Proof. unfold bucket_of. lia. Qed.

Lemma contribution_of_cases b n bs c :
  (b < n)%N →
  contribution_of b n bs c =
    (if b <=? bucket_of n bs c then bucket_of n bs c - b + 1 else bucket_of n bs c + n - b + 1)%N.
Proof.
  intros Hb. unfold contribution_of. pose proof (bucket_of_lt n bs c ltac:(lia)).
  destruct (N.leb_spec b (bucket_of n bs c)).
  - f_equal. symmetry. apply (N.mod_unique _ _ 1); lia.
  - f_equal. apply N.mod_small. lia.
Qed.

Lemma contribution_of_range b n bs c :
  (b < n)%N → (1 ≤ contribution_of b n bs c ≤ n)%N.
Proof.
  intros. rewrite contribution_of_cases by done. pose proof (bucket_of_lt n bs c ltac:(lia)).
  destruct (N.leb_spec b (bucket_of n bs c)); lia.
Qed.

Lemma contribution_of_inj b b' n bs c :
  (b < n)%N → (b' < n)%N → contribution_of b n bs c = contribution_of b' n bs c → b = b'.
Proof.
  intros ??. rewrite !contribution_of_cases by done. pose proof (bucket_of_lt n bs c ltac:(lia)).
  destruct (N.leb_spec b (bucket_of n bs c)), (N.leb_spec b' (bucket_of n bs c)); lia.
Qed.

Lemma contribution_of_surj n bs c k :
  (1 ≤ k ≤ n)%N → ∃ b, (b < n)%N ∧ contribution_of b n bs c = k.
Proof.
  intros Hk. pose proof (bucket_of_lt n bs c ltac:(lia)).
  destruct (decide (k ≤ bucket_of n bs c + 1)%N).
  - exists (bucket_of n bs c + 1 - k)%N. split; [lia|].
    rewrite contribution_of_cases by lia. rewrite (proj2 (N.leb_le _ _)) by lia. lia.
  - exists (bucket_of n bs c + n + 1 - k)%N. split; [lia|].
    rewrite contribution_of_cases by lia. rewrite (proj2 (N.leb_gt _ _)) by lia. lia.
Qed.

(** Position [pos] of chunk [c] in the list of the contributor of bucket [b]. *)
Definition visit_position (b m bs c : N) : N :=
  if (b * bs <=? c)%N then (c - b * bs)%N else (c + m - b * bs)%N.

Lemma deal_list_lookup b m n c :
  (b < n)%N → (n ≤ m)%N → (c < m)%N →
  deal_list b m n !! N.to_nat (visit_position b m (m / n) c) =
    Some (MkTask c (contribution_of b n (m / n) c)).
Proof.
  intros Hb Hnm Hc. unfold deal_list, visit_position.
  assert (0 < m / n)%N as Hbs by (apply N.div_str_pos; lia).
  pose proof (start_lt b m n (m / n) Hb Hbs (N.Div0.mul_div_le m n)).
  rewrite list_lookup_fmap. destruct (N.leb_spec (b * (m / n)) c); rewrite u64_range_lookup by lia;
    simpl; unfold deal_task.
  - rewrite N.mod_small by lia. do 2 f_equal; lia || (f_equal; lia).
  - replace (_ mod m)%N with c; [done|]. apply (N.mod_unique _ _ 1); lia.
Qed.

Lemma elem_of_deal_list b m n t :
  (b < n)%N → (n ≤ m)%N →
  t ∈ deal_list b m n ↔
    (chunk_id t < m)%N ∧ contribution_id t = contribution_of b n (m / n) (chunk_id t).
Proof.
  intros Hb Hnm. split.
  - unfold deal_list. intros (i & -> & Hi)%list_elem_of_fmap. simpl.
    split; [|done]. apply N.mod_lt. lia.
  - destruct t as [c k]; simpl. intros [Hc ->].
    eapply list_elem_of_lookup_2. by apply deal_list_lookup.
Qed.

Lemma deal_list_chunks b m n :
  (b < n)%N → (n ≤ m)%N → chunk_id <$> deal_list b m n ≡ₚ u64_range 0 m.
Proof.
  intros Hb Hnm. symmetry. apply submseteq_length_Permutation.
  - apply NoDup_submseteq; [apply u64_range_NoDup|].
    intros c [_ Hc]%elem_of_u64_range. apply list_elem_of_fmap.
    exists (MkTask c (contribution_of b n (m / n) c)). split; [done|].
    by apply elem_of_deal_list.
  - rewrite length_fmap, deal_list_length, u64_range_length. lia.
Qed.

Lemma deal_list_NoDup b m n : (b < n)%N → (n ≤ m)%N → NoDup (deal_list b m n).
Proof.
  intros. apply (NoDup_fmap_1 chunk_id). rewrite deal_list_chunks by done.
  apply u64_range_NoDup.
Qed.

(** Whoever makes the contribution below visits the chunk strictly earlier. *)
Lemma predecessor_earlier b b' m n bs c :
  (b < n)%N → (b' < n)%N → (0 < bs)%N → (n * bs ≤ m)%N → (c < m)%N →
  contribution_of b n bs c = (contribution_of b' n bs c + 1)%N →
  (visit_position b' m bs c < visit_position b m bs c)%N.
Proof.
  intros Hb Hb' Hbs Hfit Hc. rewrite !contribution_of_cases by done.
  assert (bucket_of n bs c * bs ≤ c)%N.
  { unfold bucket_of. pose proof (N.Div0.mul_div_le c bs). nia. }
  assert (c < (bucket_of n bs c + 1) * bs ∨ bucket_of n bs c = n - 1)%N.
  { unfold bucket_of. pose proof (N.mul_succ_div_gt c bs ltac:(lia)). nia. }
  pose proof (bucket_of_lt n bs c ltac:(lia)).
  unfold visit_position. generalize dependent (bucket_of n bs c). intros q **.
  destruct (N.leb_spec b q), (N.leb_spec b' q), (N.leb_spec (b * bs) c), (N.leb_spec (b' * bs) c);
    nia.
Qed.

(** ** Properties *)

(** C40. On every input whose index arithmetic fits in 64 bits,
    [initialize_tasks] never panics, fails exactly when its two guards say so,
    and otherwise its loop computes the closed form of the deal: the
    contributor of bucket [b] visits the chunks from [b * bucket_size] on,
    cyclically, and makes contribution [1 + (q - b) mod n] in bucket [q]. *)
Theorem initialize_tasks_closed_form b m n :
  (2 * m < u64_modulus)%N →
  initialize_tasks b m n =
    if (n =? 0)%N then Ok []
    else if (n <=? b)%N then Err (StartingBucketIdOutOfRange b n)
    else if (m <? n)%N then Err (NotEnoughChunks m n)
    else Ok (deal_list b m n).
Proof.
  intros Hm. destruct (N.eqb_spec n 0) as [->|]; [done|].
  destruct (N.leb_spec n b) as [?|?].
  { unfold initialize_tasks. by rewrite (proj2 (N.eqb_neq _ _)), (proj2 (N.leb_le n b)) by done. }
  destruct (N.ltb_spec m n) as [?|?].
  { unfold initialize_tasks.
    by rewrite (proj2 (N.eqb_neq _ _)), (proj2 (N.leb_gt n b)), (proj2 (N.ltb_lt m n)) by done. }
  by apply initialize_tasks_deal.
Qed.

Lemma initialize_tasks_closed_form_witness :
  initialize_tasks 1 4 2 = Ok (deal_list 1 4 2) ∧ initialize_tasks 2 4 2 = Err (StartingBucketIdOutOfRange 2 2).
Proof.
  split; rewrite initialize_tasks_closed_form; reflexivity.
Defined.

(** Success of [initialize_tasks] for a nonempty round. *)
Lemma initialize_tasks_Ok b m n tasks :
  n ≠ 0%N → (2 * m < u64_modulus)%N → initialize_tasks b m n = Ok tasks →
  (b < n)%N ∧ (n ≤ m)%N ∧ tasks = deal_list b m n.
Proof.
  intros Hn Hm Hi. pose proof (initialize_tasks_deal b m n) as Hd.
  unfold initialize_tasks in Hi. rewrite (proj2 (N.eqb_neq _ _)) in Hi by done.
  destruct (N.leb_spec n b); [done|]. destruct (N.ltb_spec m n); [done|].
  split; [lia|]. split; [lia|]. specialize (Hd ltac:(lia) ltac:(lia) Hm).
  unfold initialize_tasks in Hd.
  rewrite (proj2 (N.eqb_neq _ _)), (proj2 (N.leb_gt n b)), (proj2 (N.ltb_ge m n)) in Hd by lia.
  congruence.
Qed.

(** A contributor visits every chunk of the round exactly once. *)
Lemma initialize_tasks_every_chunk_once b m n tasks :
  n ≠ 0%N → (2 * m < u64_modulus)%N → initialize_tasks b m n = Ok tasks →
  chunk_id <$> tasks ≡ₚ u64_range 0 m.
Proof.
  intros Hn Hm (? & ? & ->)%initialize_tasks_Ok; [|done..]. by apply deal_list_chunks.
Qed.

(** The contributors of a round together are dealt every cell of the
    (chunk, contribution) grid exactly once: a list only holds tasks of the
    grid, and each cell of the grid is in the list of exactly one starting
    bucket. *)
Theorem initialize_tasks_deals_the_grid m n :
  (n ≤ m)%N → (2 * m < u64_modulus)%N →
  let dealt_to t b := (b < n)%N ∧ ∃ tasks, initialize_tasks b m n = Ok tasks ∧ t ∈ tasks in
  (∀ t b, dealt_to t b → (chunk_id t < m)%N ∧ (1 ≤ contribution_id t ≤ n)%N) ∧
  (∀ t, (chunk_id t < m)%N → (1 ≤ contribution_id t ≤ n)%N → exists! b, dealt_to t b).
Proof.
  intros Hnm Hm dealt_to.
  assert (∀ t b, dealt_to t b ↔ (b < n)%N ∧ (chunk_id t < m)%N ∧
            contribution_id t = contribution_of b n (m / n) (chunk_id t)) as Hd.
  { intros t b. unfold dealt_to. split.
    - intros (Hb & tasks & Hi & Ht). rewrite initialize_tasks_deal in Hi by done.
      simplify_eq. by apply elem_of_deal_list in Ht.
    - intros (Hb & Ht). split; [done|]. rewrite initialize_tasks_deal by done.
      eexists; split; [done|]. by apply elem_of_deal_list. }
  split.
  - intros t b (Hb & ? & ->)%Hd. split; [done|]. by apply contribution_of_range.
  - intros t Hc Hk. destruct (contribution_of_surj n (m / n) (chunk_id t) _ Hk) as (b & Hb & Heq).
    exists b. split; [by apply Hd|]. intros b' (? & ? & ?)%Hd.
    by apply (contribution_of_inj b b' n (m / n) (chunk_id t)); try congruence.
Qed.

Lemma initialize_tasks_deals_the_grid_witness :
  exists! b, (b < 3)%N ∧ ∃ tasks, initialize_tasks b 7 3 = Ok tasks ∧ MkTask 6 2 ∈ tasks.
Proof.
  apply (initialize_tasks_deals_the_grid 7 3); done.
Defined.

(** The deal cannot deadlock: the contribution a task builds on is in the
    list of exactly one other contributor, at a strictly earlier position, so
    working through the lists in step makes progress. *)
Theorem initialize_tasks_predecessor_earlier b m n tasks i c k :
  n ≠ 0%N → (2 * m < u64_modulus)%N → initialize_tasks b m n = Ok tasks →
  (1 ≤ k)%N → tasks !! i = Some (MkTask c (k + 1)) →
  ∃ b' tasks' j, b' ≠ b ∧ initialize_tasks b' m n = Ok tasks' ∧
    tasks' !! j = Some (MkTask c k) ∧ j < i.
Proof.
  intros Hn Hm (Hb & Hnm & ->)%initialize_tasks_Ok Hk Hi; [|done..].
  pose proof (list_elem_of_lookup_2 _ _ _ Hi) as [Hc Heq]%elem_of_deal_list; [|done..].
  simpl in *. pose proof (contribution_of_range b n (m / n) c Hb).
  destruct (contribution_of_surj n (m / n) c k) as (b' & Hb' & Hk'); [lia|].
  exists b', (deal_list b' m n), (N.to_nat (visit_position b' m (m / n) c)).
  assert (i = N.to_nat (visit_position b m (m / n) c)) as ->.
  { eapply NoDup_lookup; [by apply (deal_list_NoDup b m n) | done|].
    rewrite deal_list_lookup, Heq by done. done. }
  split; [intros ->; lia|]. split; [by apply initialize_tasks_deal|].
  split; [by rewrite deal_list_lookup, Hk' by done|].
  assert (0 < m / n)%N by (apply N.div_str_pos; lia).
  pose proof (predecessor_earlier b b' m n (m / n) c).
  pose proof (N.Div0.mul_div_le m n). lia.
Qed.

Lemma initialize_tasks_predecessor_earlier_witness :
  ∃ b' tasks' j, b' ≠ 0%N ∧ initialize_tasks b' 4 2 = Ok tasks' ∧
    tasks' !! j = Some (MkTask 2 1) ∧ j < 2.
Proof.
  by apply (initialize_tasks_predecessor_earlier 0 4 2 (deal_list 0 4 2) 2 2 1).
Defined.

(** A task survives serialization: [Deserialize] reads back what
    [Serialize] wrote. *)
Lemma task_roundtrip t :
  task_in_range t → task_deserialize (task_serialize t) = Ok t.
Proof. apply task_deserialize_serialize_aux. Qed.
