(* ===== verification/Participant.v ===== *)
(** * Participants of the ceremony

    [phase1-coordinator/src/objects/participant.rs]. *)

From S2P Require Import Prelude Text.
From Stdlib Require Import Ascii.

Definition ContributorId := string.
Definition VerifierId := string.

Inductive Participant :=
| Contributor (id : ContributorId)
| Verifier (id : VerifierId).

#[export] Instance Participant_eq_dec : EqDecision Participant.
Proof. unfold EqDecision, Decision, ContributorId, VerifierId in *. solve_decision. Defined.
#[export] Instance Participant_countable : Countable Participant.
Proof.
  refine (inj_countable' (λ p, match p with Contributor s => (true, s) | Verifier s => (false, s) end)
    (λ x : bool * string, if x.1 then Contributor x.2 else Verifier x.2) _); by intros [].
Defined.

Definition new_contributor (s : string) : Participant := Contributor s.
Definition new_verifier (s : string) : Participant := Verifier s.

Definition is_contributor (p : Participant) : bool :=
  match p with Contributor _ => true | Verifier _ => false end.
Definition is_verifier (p : Participant) : bool := negb (is_contributor p).

Definition address (p : Participant) : string :=
  match p with Contributor a => a | Verifier a => a end.

(** [Display], [Debug] and [Serialize] all write this text. *)
Definition participant_to_string (p : Participant) : string :=
  match p with
  | Contributor id => id +:+ ".contributor"
  | Verifier id => id +:+ ".verifier"
  end.

(** [Deserialize]; every failure is [Error::custom("unknown participant type")],
    shown here as [None]. *)
Definition participant_deserialize (s : string) : option Participant :=
  match splitn2 "."%char s with
  | None => None
  | Some (id, participant_type) =>
      if bool_decide (participant_type = "contributor") then Some (Contributor id)
      else if bool_decide (participant_type = "verifier") then Some (Verifier id)
      else None
  end.

Lemma is_contributor_inv p : is_contributor p = true → ∃ id, p = Contributor id.
Proof. destruct p; naive_solver. Qed.

Lemma participant_deserialize_address s p :
  participant_deserialize s = Some p → has_char "." (address p) = false.
Proof.
  unfold participant_deserialize, splitn2.
  destruct (split_once "." s) as [l [r|]] eqn:E; [|done].
  apply split_once_Some in E as [_ E].
  repeat case_bool_decide; intros; by simplify_eq.
Qed.

(** The textual form of a participant reads back as the participant
    exactly when its id holds no dot: the serializer appends the role after a
    dot, the deserializer splits at the first one. *)
Theorem participant_roundtrip p :
  participant_deserialize (participant_to_string p) = Some p ↔ has_char "." (address p) = false.
Proof.
  split; [apply participant_deserialize_address|].
  unfold participant_deserialize. destruct p as [id|id]; simpl; intros Hid.
  - change ".contributor" with (String "." "contributor"). by rewrite splitn2_app.
  - change ".verifier" with (String "." "verifier"). by rewrite splitn2_app.
Qed.

(** An id with a dot does not come back. *)
Example participant_dotted_id :
  participant_deserialize (participant_to_string (Contributor "a.b")) = None.
Proof. reflexivity. Qed.
