(* ===== verification/Errors.v ===== *)
(** * Errors of the coordinator

    [CoordinatorError] of [phase1-coordinator/src/coordinator.rs].  The variants
    that wrap an error of another crate ([Error], [Integer], [IOError], [Hex],
    [JsonError], [Phase1Setup], [TryFromSliceError]) are kept without the
    wrapped value. *)

From S2P Require Import Prelude Task Participant.
Inductive CoordinatorError :=
| AggregateContributionFileSizeMismatch
| ChallengeHashSizeInvalid
| ChunkAlreadyComplete
| ChunkAlreadyVerified
| ChunkIdAlreadyAdded
| ChunkIdInvalid
| ChunkIdMismatch
| ChunkIdMissing
| ChunkLockAlreadyAcquired
| ChunkLockLimitReached
| ChunkMissing
| ChunkMissingVerification
| ChunkCannotLockZeroContributions (chunk_id : N)
| ChunkNotLockedOrByWrongParticipant
| ComputationFailed
| CompressedContributionHashingUnsupported
| ContributorPendingTasksCannotBeEmpty (source : Participant)
| ContributionAlreadyAssignedVerifiedLocator
| ContributionAlreadyAssignedVerifier
| ContributionAlreadyVerified
| ContributionFailed
| ContributionFileSignatureLocatorAlreadyExists
| ContributionFileSizeMismatch
| ContributionHashMismatch
| ContributionIdIsNonzero
| ContributionIdMismatch
| ContributionIdMustBeNonzero
| ContributionLocatorAlreadyExists
| ContributionLocatorIncorrect
| ContributionLocatorMissing
| ContributionMissing
| ContributionMissingVerification
| ContributionMissingVerifiedLocator
| ContributionMissingVerifier
| ContributionShouldNotExist
| ContributionSignatureFileSizeMismatch
| ContributionSignatureSizeMismatch
| ContributionsComplete
| ContributorAlreadyContributed
| ContributorSignatureInvalid
| ContributorsMissing
| CoordinatorContributorMissing
| CoordinatorStateNotInitialized
| CurrentRoundAggregating
| CurrentRoundAggregated
| CurrentRoundFinished
| CurrentRoundNotAggregated
| CurrentRoundNotFinished
| DropParticipantFailed
| ExpectedContributor
| ExpectedVerifier
| Error
| InitializationFailed
| InitializationTranscriptsDiffer
| Integer
| IOError
| Hex
| JsonError
| JustificationInvalid
| LocatorDeserializationFailed
| LocatorFileAlreadyExists
| LocatorFileAlreadyExistsAndOpen
| LocatorFileAlreadyOpen
| LocatorFileMissing
| LocatorFileNotOpen
| LocatorFileShouldBeOpen
| LocatorSerializationFailed
| NextChallengeHashAlreadyExists
| NextChallengeHashSizeInvalid
| NextChallengeHashMissing
| NextRoundAlreadyInPrecommit
| NextRoundShouldBeEmpty
| NumberOfChunksInvalid
| NumberOfContributionsDiffer
| ParticipantAlreadyAdded
| ParticipantAlreadyAddedChunk
| ParticipantAlreadyBanned
| ParticipantAlreadyDropped
| ParticipantAlreadyFinished
| ParticipantAlreadyFinishedChunk (chunk_id : N)
| ParticipantAlreadyFinishedTask (source : Task)
| ParticipantAlreadyHasLockedChunk
| ParticipantAlreadyHasLockedChunks
| ParticipantAlreadyPrecommitted
| ParticipantAlreadyStarted
| ParticipantAlreadyWorkingOnChunk (chunk_id : N)
| ParticipantBanned
| ParticipantDidNotDoWork
| ParticipantDidntLockChunkId
| ParticipantHasAssignedTasks
| ParticipantHasLockedMaximumChunks
| ParticipantHasNotStarted
| ParticipantHasNoRemainingTasks
| ParticipantHasRemainingTasks
| ParticipantInCurrentRoundCannotJoinQueue
| ParticipantLockedChunkWithManyContributions
| ParticipantMissing
| ParticipantMissingDisposingTask
| ParticipantMissingPendingTask (pending_task : Task)
| ParticipantNotFound (source : Participant)
| ParticipantNotReady
| ParticipantRoundHeightInvalid
| ParticipantRoundHeightMissing
| ParticipantShouldHavePendingTasks
| ParticipantShouldNotBeFinished
| ParticipantStillHasLock
| ParticipantStillHasLocks
| ParticipantStillHasTaskAsAssigned
| ParticipantStillHasTaskAsPending
| ParticipantUnauthorized
| ParticipantUnauthorizedForChunkId (chunk_id : N)
| ParticipantWasDropped
| PendingTasksMustContainResponseTask (response_task : Task)
| Phase1Setup
| QueueIsEmpty
| QueueWaitTimeIncomplete
| ResponseHashSizeInvalid
| RoundAggregationFailed
| RoundAlreadyInitialized
| RoundAlreadyAggregated
| RoundCommitFailedOrCorrupted
| RoundContributorMissing
| RoundContributorsMissing
| RoundContributorsNotUnique
| RoundDirectoryMissing
| RoundDoesNotExist
| RoundFileMissing
| RoundFileSizeMismatch
| RoundHeightIsZero
| RoundHeightMismatch
| RoundHeightNotSet
| RoundLocatorAlreadyExists
| RoundLocatorMissing
| RoundNotAggregated
| RoundNotComplete
| RoundNotReady
| RoundNumberOfContributorsUnauthorized
| RoundNumberOfVerifiersUnauthorized
| RoundShouldNotExist
| RoundStateMissing
| RoundUpdateCorruptedStateOfContributors
| RoundUpdateCorruptedStateOfVerifiers
| RoundVerifiersMissing
| RoundVerifiersNotUnique
| SignatureSchemeIsInsecure
| StorageCopyFailed
| StorageFailed
| StorageInitializationFailed
| StorageLocatorAlreadyExists
| StorageLocatorAlreadyExistsAndOpen
| StorageLocatorFormatIncorrect
| StorageLocatorMissing
| StorageLocatorNotOpen
| StorageLockFailed
| StorageReaderFailed
| StorageSizeLookupFailed
| StorageUpdateFailed
| TaskInitializationFailed (source : TaskInitializationError)
| PreviousContributionMissing (current_task : Task)
| TryFromSliceError
| UnauthorizedChunkContributor
| UnauthorizedChunkVerifier
| VerificationFailed
| VerificationOnContributionIdZero
| VerifierMissing
| VerifierSignatureInvalid
| VerifiersMissing.

(** [impl From<TaskInitializationError> for CoordinatorError] *)
Definition from_task_error (e : TaskInitializationError) : CoordinatorError := TaskInitializationFailed e.
