(* ===== verification/Environment.v ===== *)
(** * Settings of the coordinator

    [phase1-coordinator/src/environment.rs]: the settings of a ceremony, its
    named parameters, the environments of the three deployments and their
    builders; and the size macros of [phase1/src/macros.rs]. *)

From S2P Require Import Prelude Participant.
Inductive ContributionMode := Full | Chunked.
Inductive ProvingSystem := Groth16 | Marlin.
Inductive CurveKind := Bls12_377 | BW6.
Inductive UseCompression := CompressionYes | CompressionNo.
Inductive CheckForCorrectness := CheckFull | OnlyNonZero | OnlyInGroup | CheckNo.

(** A zero [chunk_size] makes [number_of_chunks] divide by zero and panic; the
    model rules it out by the type. *)
Record Settings := MkSettings {
  contribution_mode : ContributionMode;
  proving_system : ProvingSystem;
  curve : CurveKind;
  power : N;
  batch_size : N;
  chunk_size : positive;
}.

(** [Settings::new] panics on a zero batch size. *)
Definition settings_new {E} (m : ContributionMode) (ps : ProvingSystem) (c : CurveKind)
    (p b : N) (cs : positive) : outcome E Settings :=
  if (b =? 0)%N then Panic else Ok (MkSettings m ps c p b cs).

Inductive Deployment := Testing | Development | Production.

(** Durations are nanoseconds, as instants are. *)
Record Environment := MkEnvironment {
  parameters : Settings;
  compressed_inputs : UseCompression;
  compressed_outputs : UseCompression;
  check_input_for_correctness : CheckForCorrectness;
  minimum_contributors_per_round : nat;
  maximum_contributors_per_round : nat;
  minimum_verifiers_per_round : nat;
  maximum_verifiers_per_round : nat;
  contributor_lock_chunk_limit : nat;
  verifier_lock_chunk_limit : nat;
  contributor_seen_timeout : Z;
  verifier_seen_timeout : Z;
  participant_lock_timeout : Z;
  queue_seen_timeout : Z;
  participant_ban_threshold : nat;
  allow_current_contributors_in_queue : bool;
  allow_current_verifiers_in_queue : bool;
  queue_wait_time : N;
  coordinator_contributors : list Participant;
  coordinator_verifiers : list Participant;
  software_version : N;
  deployment : Deployment;
  local_base_directory : string;
  disable_reliability_zeroing : bool;
}.

(** [1 << k] on [u64]: release builds reduce the shift amount modulo 64. *)
Definition u64_shl1 (k : N) : N := (N.shiftl 1 (k mod 64)) mod u64_modulus.

(** [total_size_in_g1!] *)
Definition total_size_in_g1 (ps : ProvingSystem) (p : N) : N :=
  match ps with
  | Groth16 => u64_sub (u64_shl1 (u64_add p 1)) 1
  | Marlin => u64_shl1 p
  end.

Definition number_of_chunks (env : Environment) : N :=
  let s := parameters env in
  (u64_sub (u64_add (total_size_in_g1 (proving_system s) (power s)) (Npos (chunk_size s))) 1
   / Npos (chunk_size s))%N.

(** [chunk_size!]: the chunk size that gives [num_chunks] chunks. *)
Definition chunk_size_for (num_chunks : N) (ps : ProvingSystem) (p : N) : N :=
  (u64_sub (u64_add (total_size_in_g1 ps p) num_chunks) 1 / num_chunks)%N.

Lemma u64_shl1_exact k : (k < 64)%N → u64_shl1 k = (2 ^ k)%N.
Proof.
  intros Hk. unfold u64_shl1. rewrite (N.mod_small k) by done. rewrite N.shiftl_1_l.
  apply N.mod_small. change u64_modulus with (2 ^ 64)%N. by apply N.pow_lt_mono_r.
Qed.

(** The number of group elements, without the machine arithmetic. *)
Definition total_size (ps : ProvingSystem) (p : N) : N :=
  match ps with Groth16 => 2 ^ (p + 1) - 1 | Marlin => 2 ^ p end%N.

Lemma total_size_in_g1_exact ps p : (p < 63)%N → total_size_in_g1 ps p = total_size ps p.
Proof.
  intros Hp. destruct ps; simpl.
  - rewrite u64_add_exact by (change u64_modulus with (2 ^ 64)%N; lia).
    rewrite u64_shl1_exact by lia. apply u64_sub_exact.
    + pose proof (N.pow_nonzero 2 (p + 1)). lia.
    + change u64_modulus with (2 ^ 64)%N. apply N.pow_lt_mono_r; lia.
  - apply u64_shl1_exact. lia.
Qed.

(** The chunks tile the powers of tau: all chunks but the last are full,
    and the last one is not empty. *)
Lemma number_of_chunks_tiles env :
  (power (parameters env) < 62)%N → (Npos (chunk_size (parameters env)) < 2 ^ 63)%N →
  let s := parameters env in
  ((number_of_chunks env - 1) * Npos (chunk_size s)
     < total_size (proving_system s) (power s)
     ≤ number_of_chunks env * Npos (chunk_size s))%N ∧ (0 < number_of_chunks env)%N.
Proof.
  intros Hp Hc s. unfold number_of_chunks. fold s. rewrite total_size_in_g1_exact by (subst s; lia).
  assert (0 < total_size (proving_system s) (power s) < 2 ^ 63)%N as [Hpos Hlt].
  { unfold total_size. pose proof (N.pow_nonzero 2 (power s)).
    assert (2 ^ (power s) < 2 ^ 62)%N by (apply N.pow_lt_mono_r; subst s; lia).
    change (2 ^ 63)%N with (2 * 2 ^ 62)%N. rewrite N.add_1_r, N.pow_succ_r'.
    destruct (proving_system s); lia. }
  set (t := total_size _ _) in *. set (c := Npos (chunk_size s)) in *.
  assert (0 < c)%N by (subst c; lia).
  change (2 ^ 63)%N with 9223372036854775808%N in *.
  rewrite u64_add_exact by (change u64_modulus with 18446744073709551616%N; subst c s; lia).
  rewrite u64_sub_exact by (change u64_modulus with 18446744073709551616%N; subst c s; lia).
  pose proof (N.div_mod (t + c - 1) c ltac:(lia)) as Hdiv.
  pose proof (N.mod_lt (t + c - 1) c ltac:(lia)) as Hmod.
  assert (0 < (t + c - 1) / c)%N by (apply N.div_str_pos; lia).
  split; [|done]. rewrite N.mul_sub_distr_r, N.mul_1_l, (N.mul_comm _ c). nlia.
Qed.

(** ** Named parameters and environments *)

Inductive Parameters :=
| AleoInner | AleoOuter | AleoUniversal
| Custom (settings : Settings)
| Test3Chunks | Test8Chunks
| TestChunks (number_of_chunks : N)
| TestCustom (number_of_chunks power batch_size : N).

(** [test_chunks] and [test_custom] share this shape.  [chunk_size!] divides
    by the number of chunks, and its result is never zero. *)
Definition test_settings {E} (chunks p batch : N) : outcome E Settings :=
  match chunks, chunk_size_for chunks Groth16 p with
  | N0, _ => Panic
  | _, N0 => Panic
  | _, Npos cs => settings_new Chunked Groth16 Bls12_377 p batch cs
  end.

Definition to_settings {E} (p : Parameters) : outcome E Settings :=
  match p with
  | AleoInner => settings_new Chunked Groth16 Bls12_377 19 2097152 32768
  | AleoOuter => settings_new Chunked Groth16 BW6 20 2097152 65536
  | AleoUniversal => settings_new Chunked Marlin Bls12_377 28 2097152 65536
  | Custom s => Ok s
  | Test3Chunks => settings_new Chunked Groth16 Bls12_377 8 64 172
  | Test8Chunks => settings_new Chunked Groth16 Bls12_377 14 64 4096
  | TestChunks n => test_settings n 14 128
  | TestCustom n p b => test_settings n p b
  end.

Definition nanos_per_minute : Z := 60000000000.

(** [Testing::default]; its parameters are [Test3Chunks]. *)
Definition testing_environment : Environment := {|
  parameters := MkSettings Chunked Groth16 Bls12_377 8 64 172;
  compressed_inputs := CompressionNo;
  compressed_outputs := CompressionYes;
  check_input_for_correctness := CheckNo;
  minimum_contributors_per_round := 1;
  maximum_contributors_per_round := 5;
  minimum_verifiers_per_round := 1;
  maximum_verifiers_per_round := 5;
  contributor_lock_chunk_limit := 5;
  verifier_lock_chunk_limit := 5;
  contributor_seen_timeout := 5 * nanos_per_minute;
  verifier_seen_timeout := 15 * nanos_per_minute;
  participant_lock_timeout := 20 * nanos_per_minute;
  queue_seen_timeout := 10 * 1440 * nanos_per_minute;
  participant_ban_threshold := 5;
  allow_current_contributors_in_queue := true;
  allow_current_verifiers_in_queue := true;
  queue_wait_time := 0;
  coordinator_contributors := [Contributor "testing-coordinator-contributor"];
  coordinator_verifiers := [Verifier "testing-coordinator-verifier"];
  software_version := 1;
  deployment := Testing;
  local_base_directory := "./transcript/testing";
  disable_reliability_zeroing := false;
|}.

(** [Development::default]; its parameters are [AleoInner]. *)
Definition development_environment : Environment := {|
  parameters := MkSettings Chunked Groth16 Bls12_377 19 2097152 32768;
  compressed_inputs := CompressionNo;
  compressed_outputs := CompressionYes;
  check_input_for_correctness := CheckNo;
  minimum_contributors_per_round := 1;
  maximum_contributors_per_round := 5;
  minimum_verifiers_per_round := 1;
  maximum_verifiers_per_round := 5;
  contributor_lock_chunk_limit := 5;
  verifier_lock_chunk_limit := 5;
  contributor_seen_timeout := nanos_per_minute;
  verifier_seen_timeout := 15 * nanos_per_minute;
  participant_lock_timeout := 20 * nanos_per_minute;
  queue_seen_timeout := 10 * nanos_per_minute;
  participant_ban_threshold := 5;
  allow_current_contributors_in_queue := true;
  allow_current_verifiers_in_queue := true;
  queue_wait_time := 60;
  coordinator_contributors := [Contributor "development-coordinator-contributor"];
  coordinator_verifiers := [Verifier "development-coordinator-verifier"];
  software_version := 1;
  deployment := Development;
  local_base_directory := "./transcript/development";
  disable_reliability_zeroing := false;
|}.

(** [Production::default]; its parameters are [AleoInner]. *)
Definition production_environment : Environment := {|
  parameters := MkSettings Chunked Groth16 Bls12_377 19 2097152 32768;
  compressed_inputs := CompressionNo;
  compressed_outputs := CompressionYes;
  check_input_for_correctness := CheckNo;
  minimum_contributors_per_round := 1;
  maximum_contributors_per_round := 5;
  minimum_verifiers_per_round := 1;
  maximum_verifiers_per_round := 5;
  contributor_lock_chunk_limit := 5;
  verifier_lock_chunk_limit := 5;
  contributor_seen_timeout := 7 * 1440 * nanos_per_minute;
  verifier_seen_timeout := 7 * 1440 * nanos_per_minute;
  participant_lock_timeout := 7 * 1440 * nanos_per_minute;
  queue_seen_timeout := 7 * 1440 * nanos_per_minute;
  participant_ban_threshold := 5;
  allow_current_contributors_in_queue := false;
  allow_current_verifiers_in_queue := true;
  queue_wait_time := 120;
  coordinator_contributors := [Contributor "coordinator-contributor"];
  coordinator_verifiers := [Verifier "coordinator-verifier"];
  software_version := 1;
  deployment := Production;
  local_base_directory := "./transcript";
  disable_reliability_zeroing := false;
|}.

(** ** The builders of the environments

    The methods of [Testing]; [Development] and [Production] have the same ones
    ([Development] has no [queue_seen_timeout]).  Non-contributors among the coordinator contributors panic. *)

Definition set_parameters (v : Settings) (e : Environment) : Environment :=
  MkEnvironment v (compressed_inputs e) (compressed_outputs e) (check_input_for_correctness e) (minimum_contributors_per_round e) (maximum_contributors_per_round e) (minimum_verifiers_per_round e) (maximum_verifiers_per_round e) (contributor_lock_chunk_limit e) (verifier_lock_chunk_limit e) (contributor_seen_timeout e) (verifier_seen_timeout e) (participant_lock_timeout e) (queue_seen_timeout e) (participant_ban_threshold e) (allow_current_contributors_in_queue e) (allow_current_verifiers_in_queue e) (queue_wait_time e) (coordinator_contributors e) (coordinator_verifiers e) (software_version e) (deployment e) (local_base_directory e) (disable_reliability_zeroing e).
Definition set_minimum_contributors_per_round (v : nat) (e : Environment) : Environment :=
  MkEnvironment (parameters e) (compressed_inputs e) (compressed_outputs e) (check_input_for_correctness e) v (maximum_contributors_per_round e) (minimum_verifiers_per_round e) (maximum_verifiers_per_round e) (contributor_lock_chunk_limit e) (verifier_lock_chunk_limit e) (contributor_seen_timeout e) (verifier_seen_timeout e) (participant_lock_timeout e) (queue_seen_timeout e) (participant_ban_threshold e) (allow_current_contributors_in_queue e) (allow_current_verifiers_in_queue e) (queue_wait_time e) (coordinator_contributors e) (coordinator_verifiers e) (software_version e) (deployment e) (local_base_directory e) (disable_reliability_zeroing e).
Definition set_maximum_contributors_per_round (v : nat) (e : Environment) : Environment :=
  MkEnvironment (parameters e) (compressed_inputs e) (compressed_outputs e) (check_input_for_correctness e) (minimum_contributors_per_round e) v (minimum_verifiers_per_round e) (maximum_verifiers_per_round e) (contributor_lock_chunk_limit e) (verifier_lock_chunk_limit e) (contributor_seen_timeout e) (verifier_seen_timeout e) (participant_lock_timeout e) (queue_seen_timeout e) (participant_ban_threshold e) (allow_current_contributors_in_queue e) (allow_current_verifiers_in_queue e) (queue_wait_time e) (coordinator_contributors e) (coordinator_verifiers e) (software_version e) (deployment e) (local_base_directory e) (disable_reliability_zeroing e).
Definition set_disable_reliability_zeroing (v : bool) (e : Environment) : Environment :=
  MkEnvironment (parameters e) (compressed_inputs e) (compressed_outputs e) (check_input_for_correctness e) (minimum_contributors_per_round e) (maximum_contributors_per_round e) (minimum_verifiers_per_round e) (maximum_verifiers_per_round e) (contributor_lock_chunk_limit e) (verifier_lock_chunk_limit e) (contributor_seen_timeout e) (verifier_seen_timeout e) (participant_lock_timeout e) (queue_seen_timeout e) (participant_ban_threshold e) (allow_current_contributors_in_queue e) (allow_current_verifiers_in_queue e) (queue_wait_time e) (coordinator_contributors e) (coordinator_verifiers e) (software_version e) (deployment e) (local_base_directory e) v.
Definition set_coordinator_contributors (v : list Participant) (e : Environment) : Environment :=
  MkEnvironment (parameters e) (compressed_inputs e) (compressed_outputs e) (check_input_for_correctness e) (minimum_contributors_per_round e) (maximum_contributors_per_round e) (minimum_verifiers_per_round e) (maximum_verifiers_per_round e) (contributor_lock_chunk_limit e) (verifier_lock_chunk_limit e) (contributor_seen_timeout e) (verifier_seen_timeout e) (participant_lock_timeout e) (queue_seen_timeout e) (participant_ban_threshold e) (allow_current_contributors_in_queue e) (allow_current_verifiers_in_queue e) (queue_wait_time e) v (coordinator_verifiers e) (software_version e) (deployment e) (local_base_directory e) (disable_reliability_zeroing e).
Definition set_coordinator_verifiers (v : list Participant) (e : Environment) : Environment :=
  MkEnvironment (parameters e) (compressed_inputs e) (compressed_outputs e) (check_input_for_correctness e) (minimum_contributors_per_round e) (maximum_contributors_per_round e) (minimum_verifiers_per_round e) (maximum_verifiers_per_round e) (contributor_lock_chunk_limit e) (verifier_lock_chunk_limit e) (contributor_seen_timeout e) (verifier_seen_timeout e) (participant_lock_timeout e) (queue_seen_timeout e) (participant_ban_threshold e) (allow_current_contributors_in_queue e) (allow_current_verifiers_in_queue e) (queue_wait_time e) (coordinator_contributors e) v (software_version e) (deployment e) (local_base_directory e) (disable_reliability_zeroing e).
Definition set_contributor_seen_timeout (v : Z) (e : Environment) : Environment :=
  MkEnvironment (parameters e) (compressed_inputs e) (compressed_outputs e) (check_input_for_correctness e) (minimum_contributors_per_round e) (maximum_contributors_per_round e) (minimum_verifiers_per_round e) (maximum_verifiers_per_round e) (contributor_lock_chunk_limit e) (verifier_lock_chunk_limit e) v (verifier_seen_timeout e) (participant_lock_timeout e) (queue_seen_timeout e) (participant_ban_threshold e) (allow_current_contributors_in_queue e) (allow_current_verifiers_in_queue e) (queue_wait_time e) (coordinator_contributors e) (coordinator_verifiers e) (software_version e) (deployment e) (local_base_directory e) (disable_reliability_zeroing e).
Definition set_participant_lock_timeout (v : Z) (e : Environment) : Environment :=
  MkEnvironment (parameters e) (compressed_inputs e) (compressed_outputs e) (check_input_for_correctness e) (minimum_contributors_per_round e) (maximum_contributors_per_round e) (minimum_verifiers_per_round e) (maximum_verifiers_per_round e) (contributor_lock_chunk_limit e) (verifier_lock_chunk_limit e) (contributor_seen_timeout e) (verifier_seen_timeout e) v (queue_seen_timeout e) (participant_ban_threshold e) (allow_current_contributors_in_queue e) (allow_current_verifiers_in_queue e) (queue_wait_time e) (coordinator_contributors e) (coordinator_verifiers e) (software_version e) (deployment e) (local_base_directory e) (disable_reliability_zeroing e).
Definition set_queue_seen_timeout (v : Z) (e : Environment) : Environment :=
  MkEnvironment (parameters e) (compressed_inputs e) (compressed_outputs e) (check_input_for_correctness e) (minimum_contributors_per_round e) (maximum_contributors_per_round e) (minimum_verifiers_per_round e) (maximum_verifiers_per_round e) (contributor_lock_chunk_limit e) (verifier_lock_chunk_limit e) (contributor_seen_timeout e) (verifier_seen_timeout e) (participant_lock_timeout e) v (participant_ban_threshold e) (allow_current_contributors_in_queue e) (allow_current_verifiers_in_queue e) (queue_wait_time e) (coordinator_contributors e) (coordinator_verifiers e) (software_version e) (deployment e) (local_base_directory e) (disable_reliability_zeroing e).

Definition testing_from {E} (p : Parameters) : outcome E Environment :=
  try! s := to_settings p in Ok (set_parameters s testing_environment).
Definition development_from {E} (p : Parameters) : outcome E Environment :=
  try! s := to_settings p in Ok (set_parameters s development_environment).
Definition production_from {E} (p : Parameters) : outcome E Environment :=
  try! s := to_settings p in Ok (set_parameters s production_environment).

Definition with_coordinator_contributors {E} (cs : list Participant) (e : Environment) : outcome E Environment :=
  if existsb (λ p, negb (is_contributor p)) cs then Panic else Ok (set_coordinator_contributors cs e).
Definition with_coordinator_verifiers {E} (vs : list Participant) (e : Environment) : outcome E Environment :=
  if existsb (λ p, negb (is_verifier p)) vs then Panic else Ok (set_coordinator_verifiers vs e).

Example testing_environment_chunks : number_of_chunks testing_environment = 3%N.
Proof. vm_compute. reflexivity. Qed.
Example testing_environment_settings :
  to_settings (E := unit) Test3Chunks = Ok (parameters testing_environment).
Proof. reflexivity. Qed.
Example default_settings :
  to_settings (E := unit) AleoInner = Ok (parameters development_environment) ∧
  to_settings (E := unit) AleoInner = Ok (parameters production_environment).
Proof. done. Qed.
Example aleo_universal_chunks s :
  to_settings (E := unit) AleoUniversal = Ok s →
  number_of_chunks (MkEnvironment s CompressionNo CompressionYes CheckNo 1 5 1 5 5 5 0 0 0 0 5
    true true 0 [] [] 1 Production "" false) = 4096%N.
Proof. intros [= <-]. vm_compute. reflexivity. Qed.
