(* ===== verification/Phase1Parameters.v ===== *)
(** * Sizes of the phase 1 files

    [phase1/src/objects/parameters.rs]: how many powers a chunk holds and how
    many bytes its accumulator and its contribution take, and the size macros
    of [phase1-coordinator/src/macros.rs].  The sizes of the group elements
    are constants of the curve library: a [CurveSizes] instance. *)

From S2P Require Import Prelude Participant Environment.

(** [CurveParameters]: sizes in bytes, without and with compression. *)
Record CurveParameters := MkCurveParameters {
  g1_size : N;
  g2_size : N;
  g1_compressed_size : N;
  g2_compressed_size : N;
}.

(** [CurveParameters::new] for the two curves of the ceremony. *)
Class CurveSizes := curve_parameters : CurveKind → CurveParameters.

(** The values the repository's tests state. *)
Definition snarkvm_sizes : CurveSizes := λ c,
  match c with
  | Bls12_377 => MkCurveParameters 96 192 48 96
  | BW6 => MkCurveParameters 192 192 96 96
  end.

(** [usize] arithmetic: sums and products wrap around, and wrapping once at
    the end gives the same value. *)
Definition usize (n : N) : N := (n mod u64_modulus)%N.

Record Phase1Parameters := MkPhase1Parameters {
  p1_contribution_mode : ContributionMode;
  p1_chunk_index : N;
  p1_chunk_size : N;
  p1_curve : CurveParameters;
  p1_proving_system : ProvingSystem;
  g1_chunk_size : N;
  other_chunk_size : N;
  powers_g1_length : N;
  powers_length : N;
  total_size_in_log2 : N;
  p1_batch_size : N;
  public_key_size : N;
  accumulator_size : N;
  contribution_size : N;
  hash_size : N;
}.

Definition powers_length_of (size : N) : N := u64_shl1 size.
Definition powers_g1_length_of (size : N) : N := u64_sub (usize (2 * powers_length_of size)) 1.

Definition upper_bound (ps : ProvingSystem) (size : N) : N :=
  match ps with Groth16 => powers_g1_length_of size | Marlin => powers_length_of size end.

Definition chunk_sizes (mode : ContributionMode) (index chunk_size : N) (ps : ProvingSystem)
    (size : N) : N * N :=
  let powers_length := powers_length_of size in
  let upper := upper_bound ps size in
  let '(start, end_) :=
    match mode with
    | Chunked => (usize (index * chunk_size), usize ((index + 1) * chunk_size))
    | Full => (0%N, upper)
    end in
  let g1 := if (upper <? end_)%N then u64_sub upper start else u64_sub end_ start in
  let other :=
    match ps with
    | Groth16 =>
        if (powers_length <? end_)%N && (powers_length <=? start)%N then 0%N
        else if (powers_length <? end_)%N then u64_sub powers_length start
        else u64_sub end_ start
    | Marlin => 0%N
    end in
  (g1, other).

(** The bytes of the group elements, given the sizes of one element of each
    group. *)
Definition elements_size (ps : ProvingSystem) (index size g1 g2 g1_elements other_elements : N) : N :=
  match ps with
  | Groth16 => (g1_elements * g1 + other_elements * (g2 + g1 * 2) + g2)%N
  | Marlin =>
      (g1_elements * g1
       + if (index =? 0)%N then 3 * g1 + 3 * size * g1 + (size + 2) * g2 else 0)%N
  end.

Definition new_parameters (mode : ContributionMode) (index chunk_size : N) (c : CurveParameters)
    (ps : ProvingSystem) (size batch : N) : Phase1Parameters :=
  let hash_size := 64%N in
  let '(g1, other) := chunk_sizes mode index chunk_size ps size in
  let accumulator_size :=
    usize (elements_size ps index size (g1_size c) (g2_size c) g1 other + hash_size) in
  let public_key_size := usize (3 * g2_compressed_size c + 6 * g1_compressed_size c) in
  let contribution_size :=
    usize (elements_size ps index size (g1_compressed_size c) (g2_compressed_size c) g1 other
           + hash_size + public_key_size) in
  MkPhase1Parameters mode index chunk_size c ps g1 other (powers_g1_length_of size)
    (powers_length_of size) size batch public_key_size accumulator_size contribution_size hash_size.

Definition new_full `{CurveSizes} (c : CurveKind) (ps : ProvingSystem) (size batch : N) : Phase1Parameters :=
  new_parameters Full 0 0 (curve_parameters c) ps size batch.

Definition new_chunk `{CurveSizes} (c : CurveKind) (mode : ContributionMode) (index chunk_size : N)
    (ps : ProvingSystem) (size batch : N) : Phase1Parameters :=
  new_parameters mode index chunk_size (curve_parameters c) ps size batch.

Definition into_chunk_parameters (p : Phase1Parameters) (mode : ContributionMode)
    (index chunk_size : N) : Phase1Parameters :=
  new_parameters mode index chunk_size (p1_curve p) (p1_proving_system p)
    (total_size_in_log2 p) (p1_batch_size p).

Definition get_length (p : Phase1Parameters) (c : UseCompression) : N :=
  match c with
  | CompressionYes => u64_sub (contribution_size p) (public_key_size p)
  | CompressionNo => accumulator_size p
  end.

(** ** File sizes of the coordinator *)

(** [phase1_chunked_parameters!] and [phase1_full_parameters!] *)
Definition chunked_parameters `{CurveSizes} (s : Settings) (chunk_id : N) : Phase1Parameters :=
  new_chunk (curve s) (contribution_mode s) chunk_id (Npos (chunk_size s)) (proving_system s)
    (power s) (batch_size s).
Definition full_parameters `{CurveSizes} (s : Settings) : Phase1Parameters :=
  new_full (curve s) (proving_system s) (power s) (batch_size s).

Definition unverified_contribution_size `{CurveSizes} (s : Settings) (chunk_id : N) (c : UseCompression) : N :=
  let p := chunked_parameters s chunk_id in
  match c with
  | CompressionYes => contribution_size p
  | CompressionNo => usize (accumulator_size p + public_key_size p)
  end.
Definition verified_contribution_size `{CurveSizes} (s : Settings) (chunk_id : N) (c : UseCompression) : N :=
  let p := chunked_parameters s chunk_id in
  match c with
  | CompressionYes => u64_sub (contribution_size p) (public_key_size p)
  | CompressionNo => accumulator_size p
  end.

(** [Object::contribution_file_size], [Object::round_file_size] and
    [Object::contribution_file_signature_size] *)
Definition contribution_file_size `{CurveSizes} (env : Environment) (chunk_id : N) (verified : bool) : N :=
  if verified then verified_contribution_size (parameters env) chunk_id (compressed_inputs env)
  else unverified_contribution_size (parameters env) chunk_id (compressed_outputs env).
Definition round_file_size `{CurveSizes} (env : Environment) : N :=
  get_length (full_parameters (parameters env)) (compressed_inputs env).
Definition contribution_file_signature_size (verified : bool) : N := if verified then 628 else 471.

(** ** Sums over the chunks *)

Definition total (f : N → N) (n : N) : N := foldr (λ i acc, f i + acc)%N 0%N (u64_range 0 n).

Lemma foldr_add_acc (f : N → N) l a :
  foldr (λ i acc, f i + acc)%N a l = (foldr (λ i acc, f i + acc) 0 l + a)%N.
Proof. induction l as [|x l IH]; simpl; [done|]. rewrite IH. lia. Qed.
Lemma total_0 f : total f 0 = 0%N.
Proof. done. Qed.
Lemma total_succ f n : total f (N.succ n) = (total f n + f n)%N.
Proof.
  unfold total. replace (N.succ n) with (0 + N.of_nat (S (N.to_nat n)))%N by lia.
  rewrite u64_range_snoc, foldr_app. rewrite N.add_0_l, N2Nat.id. simpl.
  rewrite foldr_add_acc. lia.
Qed.

Lemma total_ext f g n : (∀ i, (i < n)%N → f i = g i) → total f n = total g n.
Proof.
  induction n as [|n IH] using N.peano_ind; intros H; [done|].
  rewrite !total_succ, IH, H by (intros; try apply H; lia). done.
Qed.
Lemma total_linear f g k c n :
  total (λ i, f i * k + g i + c)%N n = (total f n * k + total g n + n * c)%N.
Proof. induction n as [|n IH] using N.peano_ind; [done|]. rewrite !total_succ, IH. nlia. Qed.
Lemma total_first x n : (0 < n)%N → total (λ i, if (i =? 0)%N then x else 0%N) n = x.
Proof.
  destruct n as [|p] using N.peano_ind; [lia|]. intros _. clear IHp.
  induction p as [|p IH] using N.peano_ind; [rewrite total_succ, total_0; simpl; lia|].
  rewrite total_succ, IH. destruct (N.eqb_spec (N.succ p) 0); lia.
Qed.
(** The part of [0 .. u] in the chunk that starts at [i * c]. *)
Definition in_chunk (u c i : N) : N := (N.min ((i + 1) * c) u - N.min (i * c) u)%N.
Lemma total_in_chunk u c n : (u ≤ n * c)%N → total (in_chunk u c) n = u.
Proof.
  intros Hu. assert (total (in_chunk u c) n = N.min (n * c) u) as ->; [|lia].
  clear Hu. induction n as [|n IH] using N.peano_ind; [rewrite total_0; nlia|].
  rewrite total_succ, IH. unfold in_chunk. rewrite <-N.add_1_r. nlia.
Qed.

(** ** The chunks of a round tile its powers

    Within [size_bounds] no sum wraps around. *)

Definition size_bounds (s : Settings) (c : CurveParameters) : Prop :=
  (power s < 40)%N ∧ (Npos (chunk_size s) < 2 ^ 40)%N ∧
  (g1_size c < 2 ^ 12)%N ∧ (g2_size c < 2 ^ 12)%N.

(** The powers of tau in G1, and those of alpha, beta and tau in G2. *)
Definition other_powers (ps : ProvingSystem) (size : N) : N :=
  match ps with Groth16 => 2 ^ size | Marlin => 0 end%N.

Lemma pow2_bound k m : (k < m)%N → (2 ^ k * 2 ≤ 2 ^ m)%N.
Proof.
  intros. replace (2 ^ k * 2)%N with (2 ^ N.succ k)%N by (rewrite N.pow_succ_r'; lia).
  apply N.pow_le_mono_r; lia.
Qed.

Lemma powers_exact ps size :
  (size < 40)%N →
  powers_length_of size = (2 ^ size)%N ∧ upper_bound ps size = total_size ps size ∧
  (0 < 2 ^ size < 2 ^ 40)%N ∧ (2 ^ size ≤ total_size ps size < 2 ^ 41)%N.
Proof.
  intros Hs. pose proof (pow2_bound size 40 Hs). pose proof (N.pow_nonzero 2 size).
  assert (powers_length_of size = (2 ^ size)%N) as Hl by (apply u64_shl1_exact; lia).
  change u64_modulus with 18446744073709551616%N in *.
  change (2 ^ 40)%N with 1099511627776%N in *. change (2 ^ 41)%N with 2199023255552%N.
  split_and!; try lia.
  - destruct ps; simpl; [|done]. unfold powers_g1_length_of, usize. rewrite Hl.
    change u64_modulus with 18446744073709551616%N.
    rewrite (N.mod_small (2 * _)) by lia.
    rewrite u64_sub_exact by (change u64_modulus with 18446744073709551616%N; lia).
    rewrite N.add_1_r, N.pow_succ_r'. lia.
  - unfold total_size. rewrite N.add_1_r, N.pow_succ_r'. destruct ps; lia.
  - unfold total_size. rewrite N.add_1_r, N.pow_succ_r'. destruct ps; lia.
Qed.

Lemma chunk_sizes_exact s i n :
  (power s < 40)%N → (Npos (chunk_size s) < 2 ^ 40)%N →
  ((n - 1) * Npos (chunk_size s) < total_size (proving_system s) (power s))%N → (i < n)%N →
  chunk_sizes Chunked i (Npos (chunk_size s)) (proving_system s) (power s) =
  (in_chunk (total_size (proving_system s) (power s)) (Npos (chunk_size s)) i,
   in_chunk (other_powers (proving_system s) (power s)) (Npos (chunk_size s)) i).
Proof.
  intros Hp Hc Hn Hi. destruct (powers_exact (proving_system s) (power s) Hp) as (Hl & Hu & Hl' & Hu').
  unfold chunk_sizes. rewrite Hl, Hu. set (c := Npos (chunk_size s)) in *.
  set (u := total_size _ _) in *.
  assert (i * c < u)%N by nia. assert (0 < c)%N by (subst c; lia).
  change (2 ^ 40)%N with 1099511627776%N in *. change (2 ^ 41)%N with 2199023255552%N in *.
  unfold usize, in_chunk. change u64_modulus with 18446744073709551616%N.
  rewrite !N.mod_small by nia.
  f_equal.
  - destruct (N.ltb_spec u ((i + 1) * c)); rewrite u64_sub_exact by
      (change u64_modulus with 18446744073709551616%N; nia); nia.
  - unfold other_powers. destruct (proving_system s); [|by rewrite !N.min_0_r].
    destruct (N.ltb_spec (2 ^ power s) ((i + 1) * c)), (N.leb_spec (2 ^ power s) (i * c));
      cbn [andb]; rewrite ?u64_sub_exact by
      (change u64_modulus with 18446744073709551616%N; nia); nia.
Qed.

(** The bytes every chunk repeats: the hash, and beta in G2. *)
Definition chunk_overhead (ps : ProvingSystem) (c : CurveParameters) : N :=
  match ps with Groth16 => g2_size c + 64 | Marlin => 64 end%N.
(** The bytes only the first chunk has. *)
Definition first_chunk_extra (ps : ProvingSystem) (size : N) (c : CurveParameters) : N :=
  match ps with
  | Groth16 => 0
  | Marlin => 3 * g1_size c + 3 * size * g1_size c + (size + 2) * g2_size c
  end%N.
Definition other_weight (ps : ProvingSystem) (c : CurveParameters) : N :=
  match ps with Groth16 => g2_size c + g1_size c * 2 | Marlin => 0 end%N.

Lemma accumulator_exact s c i g1 other index_mode cs :
  size_bounds s c → (g1 < 2 ^ 41)%N → (other < 2 ^ 41)%N →
  chunk_sizes index_mode i cs (proving_system s) (power s) = (g1, other) →
  accumulator_size (new_parameters index_mode i cs c (proving_system s) (power s) (batch_size s)) =
  (g1 * g1_size c + (other * other_weight (proving_system s) c
     + if i =? 0 then first_chunk_extra (proving_system s) (power s) c else 0)
   + chunk_overhead (proving_system s) c)%N.
Proof.
  intros (Hp & _ & Hg1 & Hg2) Hb Hb' Hcs. unfold new_parameters. rewrite Hcs. cbn [accumulator_size].
  change (2 ^ 41)%N with 2199023255552%N in *. change (2 ^ 12)%N with 4096%N in *.
  assert (g1 * g1_size c ≤ 2199023255552 * 4096)%N by (apply N.mul_le_mono; lia).
  assert (other * (g2_size c + g1_size c * 2) ≤ 2199023255552 * 12288)%N by (apply N.mul_le_mono; lia).
  assert (3 * power s * g1_size c ≤ 120 * 4096)%N by (apply N.mul_le_mono; lia).
  assert ((power s + 2) * g2_size c ≤ 42 * 4096)%N by (apply N.mul_le_mono; lia).
  unfold usize, elements_size, other_weight, first_chunk_extra, chunk_overhead.
  change u64_modulus with 18446744073709551616%N.
  destruct (proving_system s), (i =? 0)%N; rewrite N.mod_small; lia.
Qed.

Lemma in_chunk_le u c i : (in_chunk u c i ≤ u)%N.
Proof. unfold in_chunk. lia. Qed.

Section chunks.
Context `{CS : CurveSizes} (env : Environment).
Notation s := (parameters env).
Notation n := (number_of_chunks env).
Notation curve := (curve_parameters (curve s)).
Context (Hmode : contribution_mode s = Chunked) (Hb : size_bounds s curve).

Lemma chunk_g1_other i :
  (i < n)%N →
  g1_chunk_size (chunked_parameters s i) =
    in_chunk (total_size (proving_system s) (power s)) (Npos (chunk_size s)) i ∧
  other_chunk_size (chunked_parameters s i) =
    in_chunk (other_powers (proving_system s) (power s)) (Npos (chunk_size s)) i.
Proof.
  intros Hi. destruct Hb as (Hp & Hc & _).
  destruct (number_of_chunks_tiles env) as [[Hn _] _].
  { lia. } { change (2 ^ 63)%N with 9223372036854775808%N. change (2 ^ 40)%N with 1099511627776%N in *. lia. }
  unfold chunked_parameters, new_chunk, new_parameters. rewrite Hmode.
  by rewrite (chunk_sizes_exact s i n).
Qed.

Lemma other_powers_le ps size : (size < 40)%N → (other_powers ps size ≤ total_size ps size)%N.
Proof. intros (_ & _ & _ & H)%(powers_exact ps). destruct ps; simpl in *; lia. Qed.

(** The chunks of a round hold every power of tau exactly once, and their
    accumulators together are the accumulator of the whole round with the
    hash and, for Groth16, beta in G2 repeated in each chunk. *)
Theorem chunks_tile_the_round :
  total (λ i, g1_chunk_size (chunked_parameters s i)) n = total_size (proving_system s) (power s) ∧
  total (λ i, other_chunk_size (chunked_parameters s i)) n = other_powers (proving_system s) (power s) ∧
  total (λ i, verified_contribution_size s i CompressionNo) n =
    (get_length (full_parameters s) CompressionNo
     + (n - 1) * chunk_overhead (proving_system s) curve)%N.
Proof.
  pose proof Hb as (Hp & Hc & _).
  destruct (number_of_chunks_tiles env) as [[Hlt Hle] Hpos].
  { lia. } { change (2 ^ 63)%N with 9223372036854775808%N. change (2 ^ 40)%N with 1099511627776%N in *. lia. }
  pose proof (other_powers_le (proving_system s) (power s) Hp) as Hother.
  destruct (powers_exact (proving_system s) (power s) Hp) as (Hl & Hu & Hl' & Hu').
  assert (total (in_chunk (total_size (proving_system s) (power s)) (Npos (chunk_size s))) n
          = total_size (proving_system s) (power s)) as H1 by (by apply total_in_chunk).
  assert (total (in_chunk (other_powers (proving_system s) (power s)) (Npos (chunk_size s))) n
          = other_powers (proving_system s) (power s)) as H2 by (apply total_in_chunk; lia).
  split; [|split].
  - rewrite <-H1. apply total_ext. intros i Hi. apply (chunk_g1_other i Hi).
  - rewrite <-H2. apply total_ext. intros i Hi. apply (chunk_g1_other i Hi).
  - unfold verified_contribution_size, get_length, full_parameters, new_full.
    rewrite (accumulator_exact _ _ 0 (total_size (proving_system s) (power s))
               (other_powers (proving_system s) (power s))); try (done || lia).
    2: { unfold chunk_sizes. rewrite Hl, Hu, !u64_sub_exact
           by (change u64_modulus with 18446744073709551616%N;
               change (2 ^ 41)%N with 2199023255552%N in *; lia).
         rewrite N.ltb_irrefl. unfold other_powers. destruct (proving_system s); [|f_equal; lia].
         rewrite (proj2 (N.leb_gt _ 0)), andb_false_r by lia.
         destruct (N.ltb_spec (2 ^ power s) (total_size Groth16 (power s))); f_equal; lia. }
    rewrite (total_ext _ (λ i,
      in_chunk (total_size (proving_system s) (power s)) (Npos (chunk_size s)) i * g1_size curve
      + (in_chunk (other_powers (proving_system s) (power s)) (Npos (chunk_size s)) i
           * other_weight (proving_system s) curve
         + (if i =? 0 then first_chunk_extra (proving_system s) (power s) curve else 0) + 0)
      + chunk_overhead (proving_system s) curve)%N).
    + rewrite total_linear, total_linear, total_first, H1, H2 by done. simpl. nia.
    + intros i Hi. unfold chunked_parameters, new_chunk. rewrite Hmode.
      pose proof (in_chunk_le (total_size (proving_system s) (power s)) (Npos (chunk_size s)) i).
      pose proof (in_chunk_le (other_powers (proving_system s) (power s)) (Npos (chunk_size s)) i).
      pose proof (chunk_sizes_exact s i n Hp Hc Hlt Hi) as Hcs.
      erewrite accumulator_exact; [|exact Hb| | |exact Hcs]; lia.
Qed.
End chunks.

Lemma chunks_tile_the_round_witness :
  let _ := snarkvm_sizes in
  let s := parameters testing_environment in
  total (λ i, verified_contribution_size s i CompressionNo) 3 = (147616 + 2 * 256)%N.
Proof.
  intros CS s.
  destruct (chunks_tile_the_round (CS := CS) testing_environment) as (_ & _ & H); [done | by vm_compute|].
  change (number_of_chunks testing_environment) with 3%N in H. etransitivity; [exact H|]. by vm_compute.
Defined.
