(* ===== verification/Curve.v ===== *)
(** * Pairing-friendly curves

    The traits of the curve library ([snarkvm_fields], [snarkvm_curves]) that
    the [phase1] and [setup-utils] crates are generic in: the operations they
    call as records, and what they rely on as classes of laws.  Groups are
    written additively, as in the code. *)

From S2P Require Import Prelude Environment Phase1Parameters.

(** [PrimeField] *)
Record PrimeField := MkPrimeField {
  scalar :> Type;
  scalar_eq_dec : EqDecision scalar;
  fr_zero : scalar;
  fr_one : scalar;
  fr_mul : scalar → scalar → scalar;
  fr_pow : scalar → N → scalar;
  batch_inversion : list scalar → list scalar;
  fr_inverse : scalar → option scalar;
  to_repr : scalar → N;
  size_in_bits : N;
  MODULUS : N;
}.
#[global] Existing Instance scalar_eq_dec.
Arguments fr_zero {_}.
Arguments fr_one {_}.
Arguments fr_mul {_}.
Arguments fr_pow {_}.
Arguments batch_inversion {_}.
Arguments fr_inverse {_}.
Arguments to_repr {_}.

(** [AffineCurve] over a scalar field.  The projective and the affine form of
    a point are the same point. *)
Record AffineCurve (F : PrimeField) := MkAffineCurve {
  point :> Type;
  point_eq_dec : EqDecision point;
  zero : point;
  prime_subgroup_generator : point;
  add : point → point → point;
  neg : point → point;
  mul : point → F → point;
  mul_bits : point → N → point;
  (* SERIALIZED_SIZE and UNCOMPRESSED_SIZE *)
  serialized_size : UseCompression → N;
  serialize : UseCompression → point → bytes;
  deserialize : UseCompression → bytes → option point;
  from_random_bytes : bytes → option point;
  mul_by_cofactor : point → point;
}.
#[global] Existing Instance point_eq_dec.
Arguments point {_}.
Arguments zero {_ _}.
Arguments prime_subgroup_generator {_ _}.
Arguments add {_ _}.
Arguments neg {_ _}.
Arguments mul {_ _}.
Arguments mul_bits {_ _}.
Arguments serialized_size {_}.
Arguments serialize {_ _}.
Arguments deserialize {_ _}.
Arguments from_random_bytes {_ _}.
Arguments mul_by_cofactor {_ _}.

Definition is_zero {F} {C : AffineCurve F} (p : C) : bool := bool_decide (p = zero).

(** [PairingEngine] *)
Record PairingEngine := MkPairingEngine {
  Fr : PrimeField;
  G1Affine : AffineCurve Fr;
  G2Affine : AffineCurve Fr;
  Fqk : Type;
  Fqk_eq_dec : EqDecision Fqk;
  pairing : G1Affine → G2Affine → Fqk;
}.
#[global] Existing Instance Fqk_eq_dec.
Arguments pairing {_}.

(** [CurveParameters::new] *)
Definition curve_parameters_new (E : PairingEngine) : CurveParameters :=
  MkCurveParameters (serialized_size (G1Affine E) CompressionNo) (serialized_size (G2Affine E) CompressionNo)
    (serialized_size (G1Affine E) CompressionYes) (serialized_size (G2Affine E) CompressionYes).

(** ** Laws *)

(** [n] times a point. *)
Definition times {F} {C : AffineCurve F} (n : N) (p : C) : C := N.iter n (add p) zero.

(** A point of the subgroup of prime order. *)
Definition in_subgroup {F} {C : AffineCurve F} (p : C) : Prop := mul_bits p (MODULUS F) = zero.

Class FieldLaws (F : PrimeField) : Prop := {
  fr_mul_comm (x y : F) : fr_mul x y = fr_mul y x;
  fr_mul_assoc (x y z : F) : fr_mul x (fr_mul y z) = fr_mul (fr_mul x y) z;
  fr_mul_one (x : F) : fr_mul x fr_one = x;
  fr_one_nonzero : (fr_one : F) ≠ fr_zero;
  fr_mul_zero (x : F) : fr_mul x fr_zero = fr_zero;
  fr_mul_nonzero (x y : F) : x ≠ fr_zero → y ≠ fr_zero → fr_mul x y ≠ fr_zero;
  fr_pow_zero (x : F) : fr_pow x 0 = fr_one;
  fr_pow_succ (x : F) n : fr_pow x (N.succ n) = fr_mul x (fr_pow x n);
  batch_inversion_inverts (l : list F) :
    Forall2 (λ x y, x ≠ fr_zero → fr_mul x y = fr_one) l (batch_inversion l);
  fr_inverse_inverts (x : F) :
    match fr_inverse x with Some y => fr_mul x y = fr_one | None => x = fr_zero end;
  to_repr_bound (x : F) : (to_repr x < 2 ^ size_in_bits F)%N;
  to_repr_zero : to_repr (fr_zero : F) = 0%N;
  to_repr_one : to_repr (fr_one : F) = 1%N;
}.

Class CurveLaws {F} (C : AffineCurve F) : Prop := {
  add_comm (p q : C) : add p q = add q p;
  add_assoc (p q r : C) : add p (add q r) = add (add p q) r;
  add_zero (p : C) : add p zero = p;
  add_neg (p : C) : add p (neg p) = zero;
  mul_bits_times (p : C) n : mul_bits p n = times n p;
  mul_times (p : C) x : mul p x = times (to_repr x) p;
  mul_one (p : C) : mul p fr_one = p;
  mul_mul (p : C) x y : in_subgroup p → mul (mul p x) y = mul p (fr_mul x y);
  mul_nonzero (p : C) x : in_subgroup p → p ≠ zero → x ≠ fr_zero → mul p x ≠ zero;
  generator_nonzero : (prime_subgroup_generator : C) ≠ zero;
  cofactor_in_subgroup (p : C) : in_subgroup (mul_by_cofactor p);
  generator_in_subgroup : in_subgroup (prime_subgroup_generator : C);
  serialized_size_pos c : (0 < serialized_size C c)%N;
  serialize_length c (p : C) : length (serialize c p) = N.to_nat (serialized_size C c);
  deserialize_serialize c (p : C) rest :
    in_subgroup p → deserialize c (serialize c p ++ rest) = Some p;
}.

Class EngineLaws (E : PairingEngine) : Prop := {
  fr_laws :: FieldLaws (Fr E);
  g1_laws :: CurveLaws (G1Affine E);
  g2_laws :: CurveLaws (G2Affine E);
  pairing_mul (p : G1Affine E) (q : G2Affine E) x :
    in_subgroup p → in_subgroup q → pairing (mul p x) q = pairing p (mul q x);
  pairing_inj (p p' : G1Affine E) (q : G2Affine E) :
    in_subgroup p → in_subgroup p' → in_subgroup q → q ≠ zero → pairing p q = pairing p' q → p = p';
  pairing_inj_r (p : G1Affine E) (q q' : G2Affine E) :
    in_subgroup p → in_subgroup q → in_subgroup q' → p ≠ zero → pairing p q = pairing p q' → q = q';
}.

(** ** Consequences *)

Section field.
Context {F : PrimeField} `{!FieldLaws F}.

Lemma fr_one_mul (x : F) : fr_mul fr_one x = x.
Proof. by rewrite fr_mul_comm, fr_mul_one. Qed.
Lemma fr_mul_swap (x y z : F) : fr_mul x (fr_mul y z) = fr_mul y (fr_mul x z).
Proof. by rewrite !fr_mul_assoc, (fr_mul_comm x). Qed.
Lemma fr_pow_one (x : F) : fr_pow x 1 = x.
Proof. change 1%N with (N.succ 0). by rewrite fr_pow_succ, fr_pow_zero, fr_mul_one. Qed.
Lemma fr_pow_add (x : F) m n : fr_pow x (m + n) = fr_mul (fr_pow x m) (fr_pow x n).
Proof.
  induction m as [|m IH] using N.peano_ind.
  - by rewrite N.add_0_l, fr_pow_zero, fr_one_mul.
  - by rewrite N.add_succ_l, !fr_pow_succ, IH, fr_mul_assoc.
Qed.
Lemma fr_pow_mul (x y : F) n : fr_pow (fr_mul x y) n = fr_mul (fr_pow x n) (fr_pow y n).
Proof.
  induction n as [|n IH] using N.peano_ind.
  - by rewrite !fr_pow_zero, fr_mul_one.
  - rewrite !fr_pow_succ, IH, <-!fr_mul_assoc. f_equal. apply fr_mul_swap.
Qed.
Lemma fr_pow_nonzero (x : F) n : x ≠ fr_zero → fr_pow x n ≠ fr_zero.
Proof.
  intros Hx. induction n as [|n IH] using N.peano_ind.
  - rewrite fr_pow_zero. apply fr_one_nonzero.
  - rewrite fr_pow_succ. by apply fr_mul_nonzero.
Qed.
End field.

Section group.
Context {F : PrimeField} {C : AffineCurve F} `{!CurveLaws C}.
Implicit Types p q : C.

Lemma zero_add p : add zero p = p.
Proof. by rewrite add_comm, add_zero. Qed.
Lemma add_swap p q r : add p (add q r) = add q (add p r).
Proof. by rewrite !add_assoc, (add_comm p). Qed.
Lemma add_middle p q r s : add (add p q) (add r s) = add (add p r) (add q s).
Proof. rewrite <-!add_assoc. f_equal. apply add_swap. Qed.

Lemma times_0 p : times 0 p = zero.
Proof. done. Qed.
Lemma times_succ n p : times (N.succ n) p = add p (times n p).
Proof. apply N.iter_succ. Qed.
Lemma times_1 p : times 1 p = p.
Proof. apply add_zero. Qed.
Lemma times_add m n p : times (m + n) p = add (times m p) (times n p).
Proof.
  induction m as [|m IH] using N.peano_ind.
  - by rewrite N.add_0_l, times_0, zero_add.
  - by rewrite N.add_succ_l, !times_succ, IH, add_assoc.
Qed.
Lemma times_zero n : times n (zero : C) = zero.
Proof. induction n as [|n IH] using N.peano_ind; [done|]. by rewrite times_succ, IH, add_zero. Qed.
Lemma times_add_r n p q : times n (add p q) = add (times n p) (times n q).
Proof.
  induction n as [|n IH] using N.peano_ind; [by rewrite !times_0, add_zero|].
  by rewrite !times_succ, IH, add_middle.
Qed.
Lemma times_mul m n p : times (m * n) p = times m (times n p).
Proof.
  induction m as [|m IH] using N.peano_ind; [done|].
  by rewrite N.mul_succ_l, N.add_comm, times_add, IH, times_succ.
Qed.

Lemma mul_zero_l (x : F) : mul (zero : C) x = zero.
Proof. by rewrite mul_times, times_zero. Qed.
Lemma mul_add_l p q (x : F) : mul (add p q) x = add (mul p x) (mul q x).
Proof. by rewrite !mul_times, times_add_r. Qed.
Lemma mul_times_comm n p (x : F) : mul (times n p) x = times n (mul p x).
Proof. by rewrite !mul_times, <-!times_mul, N.mul_comm. Qed.
Lemma mul_in_subgroup p (x : F) : in_subgroup p → in_subgroup (mul p x).
Proof. unfold in_subgroup. rewrite !mul_bits_times, <-mul_times_comm. intros ->. apply mul_zero_l. Qed.
Lemma add_in_subgroup p q : in_subgroup p → in_subgroup q → in_subgroup (add p q).
Proof. unfold in_subgroup. rewrite !mul_bits_times, times_add_r. intros -> ->. apply add_zero. Qed.
Lemma neg_in_subgroup p : in_subgroup p → in_subgroup (neg p).
Proof.
  unfold in_subgroup. rewrite !mul_bits_times. intros Hp.
  transitivity (add (times (MODULUS F) (neg p)) (times (MODULUS F) p)); [by rewrite Hp, add_zero|].
  rewrite <-times_add_r, (add_comm (neg p)), add_neg. apply times_zero.
Qed.
Lemma zero_in_subgroup : in_subgroup (zero : C).
Proof. unfold in_subgroup. by rewrite mul_bits_times, times_zero. Qed.
Lemma times_in_subgroup n p : in_subgroup p → in_subgroup (times n p).
Proof.
  intros Hp. induction n as [|n IH] using N.peano_ind; [apply zero_in_subgroup|].
  rewrite times_succ. by apply add_in_subgroup.
Qed.
End group.

#[export] Hint Resolve generator_in_subgroup zero_in_subgroup mul_in_subgroup add_in_subgroup : curve.

(** ** A toy engine

    All three groups are the integers modulo 5, the pairing is the product.  A
    point of G1 takes one byte compressed and two bytes uncompressed, a point
    of G2 twice as much.  It is small enough to evaluate the whole phase. *)

Module Toy.
Inductive Z5 := Z0 | Z1 | Z2 | Z3 | Z4.
#[global] Instance Z5_eq_dec : EqDecision Z5.
Proof. solve_decision. Defined.

Definition to_N (x : Z5) : N := match x with Z0 => 0 | Z1 => 1 | Z2 => 2 | Z3 => 3 | Z4 => 4 end.
Definition of_N (n : N) : Z5 :=
  match (n mod 5)%N with 0%N => Z0 | 1%N => Z1 | 2%N => Z2 | 3%N => Z3 | _ => Z4 end.
Definition plus (x y : Z5) : Z5 := of_N (to_N x + to_N y).
Definition product (x y : Z5) : Z5 := of_N (to_N x * to_N y).
Definition inverse (x : Z5) : Z5 := match x with Z2 => Z3 | Z3 => Z2 | _ => x end.
Definition opposite (x : Z5) : Z5 := match x with Z0 => Z0 | Z1 => Z4 | Z2 => Z3 | Z3 => Z2 | Z4 => Z1 end.

Definition field : PrimeField := {|
  scalar := Z5;
  fr_zero := Z0;
  fr_one := Z1;
  fr_mul := product;
  fr_pow x n := N.iter n (product x) Z1;
  batch_inversion l := inverse <$> l;
  fr_inverse x := match x with Z0 => None | _ => Some (inverse x) end;
  to_repr := to_N;
  size_in_bits := 3;
  MODULUS := 5;
|}.

Definition byte_of (x : Z5) : Byte.byte := default Byte.x00 (Byte.of_N (to_N x)).
Definition width (n : nat) (c : UseCompression) : nat :=
  match c with CompressionYes => n | CompressionNo => 2 * n end.
Definition parse (width : nat) (data : bytes) : option Z5 :=
  match data with
  | b :: _ =>
      if (width <=? length data)%nat && (Byte.to_N b <? 5)%N
           && forallb (Byte.eqb b) (take width data)
      then Some (of_N (Byte.to_N b)) else None
  | [] => None
  end.

Definition curve (n : nat) : AffineCurve field := {|
  point := Z5 : Type;
  zero := Z0;
  prime_subgroup_generator := Z1;
  add := plus;
  neg := opposite;
  mul := product : Z5 → field → Z5;
  mul_bits p n := product p (of_N n);
  serialized_size c := N.of_nat (width n c);
  serialize c p := repeat (byte_of p) (width n c);
  deserialize c := parse (width n c);
  from_random_bytes data := match data with b :: _ => Some (of_N (Byte.to_N b)) | [] => None end;
  mul_by_cofactor p := p;
|}.

Definition engine : PairingEngine := {|
  Fr := field; G1Affine := curve 1; G2Affine := curve 2;
  Fqk := Z5; pairing := product;
|}.

Lemma of_N_mod n : of_N (n mod 5) = of_N n.
Proof. unfold of_N. by rewrite N.Div0.mod_mod. Qed.
Lemma of_N_add_l x n : of_N (to_N x + n) = plus x (of_N n).
Proof.
  unfold plus. rewrite <-of_N_mod, <-N.Div0.add_mod_idemp_r, of_N_mod.
  assert (n mod 5 < 5)%N by (apply N.mod_lt; done).
  rewrite <-(of_N_mod n). destruct (n mod 5)%N as [|[[]|[]|]] eqn:E; try done; try lia;
    destruct p; try done; lia.
Qed.

Lemma field_laws : FieldLaws field.
Proof.
  split; try (by intros []); try (by intros [] []); try (by intros [] [] []); try done.
  - intros x n. apply N.iter_succ.
  - intros l. induction l as [|x l IH]; constructor; [by destruct x | exact IH].
Qed.

Lemma times_of_N n (k : N) (p : curve n) : times k p = product p (of_N k).
Proof.
  induction k as [|k IH] using N.peano_ind; [by destruct p|].
  unfold times in *. rewrite N.iter_succ, IH. rewrite <-N.add_1_l.
  change (of_N (1 + k)) with (of_N (to_N Z1 + k)). rewrite of_N_add_l. cbn [add curve].
  by destruct p, (of_N k).
Qed.

Lemma curve_laws n : n ≠ 0 → CurveLaws (curve n).
Proof.
  intros Hn. split; try (by intros []); try (by intros [] []); try (by intros [] [] []); try done.
  - intros p k. by rewrite times_of_N.
  - intros []; cbn; lia.
  - intros c p. cbn. by rewrite repeat_length, Nat2N.id.
  - intros c p rest _. cbn. unfold parse.
    destruct (width n c) as [|w] eqn:Hw; [destruct c; cbn in Hw; lia|].
    cbn [repeat app]. rewrite <-Hw at 1. cbn [length].
    assert (S w <=? S (length (repeat (byte_of p) w ++ rest)) = true)%nat as Hle.
    { apply Nat.leb_le. rewrite length_app, repeat_length. lia. }
    rewrite Hw, Hle. cbn [take]. rewrite take_app_length' by (by rewrite repeat_length).
    assert (forallb (Byte.eqb (byte_of p)) (byte_of p :: repeat (byte_of p) w) = true) as ->.
    { apply forallb_forall. intros b [<-|Hb]; [|apply repeat_spec in Hb as ->]; by destruct p. }
    by destruct p.
Qed.

Lemma engine_laws : EngineLaws engine.
Proof.
  split.
  - apply field_laws.
  - by apply curve_laws.
  - by apply curve_laws.
  - by intros [] [] [].
  - intros p p' q _ _ _. by destruct p, p', q.
  - intros p q q' _ _ _. by destruct p, q, q'.
Qed.
End Toy.
