(* ===== verification/Elements.v ===== *)
(** * Group elements in buffers

    [setup-utils/src/errors.rs], [elements.rs] and [io/]: reading and writing
    one element or a batch of elements.  Slices are lists, [&mut] slices the
    state of a method; an index out of range panics.  A parallel iterator is
    the sequential one: its items touch disjoint parts of the buffer, and of
    several errors the first is reported. *)

From S2P Require Import Prelude Environment Phase1Parameters Curve.

Inductive ElementType := TauG1 | TauG2 | AlphaG1 | BetaG1 | BetaG2.

Inductive InvariantKind :=
| Contributions | CsHash | AlphaG1Unchanged | BetaG1Unchanged | BetaG2Unchanged | GammaAbcG1 | GammaG2
| DeltaG1 | Transcript | AlphaG1Query | BetaG1Query | BetaG2Query.

Inductive Phase2Error :=
| BrokenInvariant (kind : InvariantKind)
| Phase2InvalidLength
| NoContributions
| InvalidTranscript.

(** [Error] and [VerificationError]; wrapped errors of other crates are kept
    without their payload. *)
Inductive SetupError :=
| IoError
| SynthesisError
| CrossBeamError
| Phase2 (error : Phase2Error)
| ZexeSerializationError
| PointAtInfinity
| InvalidRatio (context : string)
| InvalidGenerator (element : ElementType)
| InvalidLength (expected got : N)
| InvalidChunk
| IncorrectSubgroup.

Notation setup A := (outcome SetupError A).
Notation on S A := (M SetupError S A).

(** [Result::expect] *)
Definition expect {S A} (m : on S A) : on S A := λ s,
  match m s with (Err _, s) => (Panic, s) | r => r end.
Definition expect' {A} (o : setup A) : setup A := match o with Err _ => Panic | o => o end.

Definition assert {S} (b : bool) : on S unit := λ s, (if b then Ok tt else Panic, s).

(** ** Slices *)

(** [usize] products and differences. *)
Notation usize_mul := u64_mul.
Notation usize_sub := u64_sub.
Notation usize_add := u64_add.

Definition len {A} (l : list A) : N := N.of_nat (length l).

(** [&l[s..e]] *)
Definition slice {A} (s e : N) (l : list A) : setup (list A) :=
  if (s <=? e)%N && (e <=? len l)%N
  then Ok (take (N.to_nat (e - s)) (list.drop (N.to_nat s) l)) else Panic.

(** A method of [&mut l[s..e]]. *)
Definition slice_mut {A B} (s e : N) (m : on (list A) B) : on (list A) B := λ l,
  if (s <=? e)%N && (e <=? len l)%N
  then let '(o, l') := m (take (N.to_nat (e - s)) (list.drop (N.to_nat s) l)) in
       (o, take (N.to_nat s) l ++ l' ++ list.drop (N.to_nat e) l)
  else (Panic, l).

(** [l[i]] *)
Definition index {A} (l : list A) (i : nat) : setup A :=
  match l !! i with Some a => Ok a | None => Panic end.

(** [slice::chunks]: pieces of [n] items, the last one may be shorter; the
    fuel is the number of items. *)
Fixpoint slice_chunks_fuel {A} (fuel n : nat) (l : list A) : list (list A) :=
  match fuel, l with
  | S fuel, _ :: _ => take n l :: slice_chunks_fuel fuel n (list.drop n l)
  | _, _ => []
  end.
Definition slice_chunks {A} (n : nat) (l : list A) : list (list A) := slice_chunks_fuel (length l) n l.

(** Chunks of size zero panic. *)
Definition cfg_chunks {A} (n : N) (l : list A) : setup (list (list A)) :=
  if (n =? 0)%N then Panic else Ok (slice_chunks (N.to_nat n) l).

(** [chunks_mut(n).zip(items)], one call per pair. *)
Fixpoint zip_chunks {A B} (f : B → on (list A) unit) (items : list B) (cs : list (list A))
    : setup unit * list (list A) :=
  match items, cs with
  | b :: items, c :: cs =>
      let '(o, c') := f b c in
      match o with
      | Ok _ => let '(o, cs') := zip_chunks f items cs in (o, c' :: cs')
      | o => (o, c' :: cs)
      end
  | _, _ => (Ok tt, cs)
  end.
Definition cfg_chunks_mut {A B} (n : N) (f : B → on (list A) unit) (items : list B)
    : on (list A) unit := λ l,
  if (n =? 0)%N then (Panic, l)
  else let '(o, cs) := zip_chunks f items (slice_chunks (N.to_nat n) l) in (o, concat cs).

(** ** One element *)

Section elements.
Context {F : PrimeField} {C : AffineCurve F}.

(** [buffer_size] *)
Definition buffer_size (compression : UseCompression) : N := serialized_size C compression.

Definition rejects_zero (check : CheckForCorrectness) : bool :=
  match check with CheckFull | OnlyNonZero => true | _ => false end.

(** [Deserializer::read_element], from the front of the data. *)
Definition read_element (compression : UseCompression) (check : CheckForCorrectness) (data : bytes)
    : setup C :=
  try! point := ok_or (deserialize compression data) ZexeSerializationError in
  if rejects_zero check && is_zero point then Err PointAtInfinity else Ok point.

(** [Serializer::write_element] to a slice: what fits is written, and it is an
    error if that is not everything. *)
Definition write_all (data : bytes) : on bytes unit := λ buffer,
  (if (len data <=? len buffer)%N then Ok tt else Err ZexeSerializationError,
   take (length buffer) data ++ list.drop (length data) buffer).
Definition write_element (p : C) (compression : UseCompression) : on bytes unit :=
  write_all (serialize compression p).

(** ** Batches *)

Definition read_batch (compression : UseCompression) (check : CheckForCorrectness) (data : bytes)
    : setup (list C) :=
  try! cs := cfg_chunks (buffer_size compression) data in
  collect (read_element compression check <$> cs).

(** [read_batch_preallocated]: the elements read replace the first ones. *)
Definition read_batch_preallocated (elements : list C) (compression : UseCompression)
    (check : CheckForCorrectness) (data : bytes) : setup (list C) :=
  try! cs := cfg_chunks (buffer_size compression) data in
  try! read := collect (read_element compression check <$> take (length elements) cs) in
  Ok (read ++ list.drop (length read) elements).

Definition write_batch (elements : list C) (compression : UseCompression) : on bytes unit :=
  let element_size := buffer_size compression in
  cfg_chunks_mut element_size (λ p, slice_mut 0 element_size (write_element p compression)) elements.

(** [init_element]: the same element in every place. *)
Definition init_element (p : C) (compression : UseCompression) : on bytes unit := λ buffer,
  let element_size := buffer_size compression in
  cfg_chunks_mut element_size (λ p, slice_mut 0 element_size (write_element p compression))
    (repeat p (length buffer)) buffer.
End elements.
Arguments buffer_size {_} C.
Arguments read_element {_ C}.
Arguments read_batch {_ C}.

(** ** Whole pieces *)

Section pieces.
Context {A : Type}.
Implicit Types (l : list A) (ls : list (list A)).

Lemma slice_chunks_fuel_enough fuel n l :
  n ≠ 0 → length l ≤ fuel → slice_chunks_fuel fuel n l = slice_chunks n l.
Proof.
  intros Hn. unfold slice_chunks.
  assert (∀ k m l', length l' ≤ k → length l' ≤ m →
    slice_chunks_fuel k n l' = slice_chunks_fuel m n l') as H.
  { induction k as [|k IH]; intros [|m] [|x l'] Hk Hm; simpl in *; try done; try lia.
    f_equal. apply IH; rewrite length_drop; simpl; lia. }
  intros Hl. by apply H.
Qed.
Lemma slice_chunks_cons n l : n ≠ 0 → l ≠ [] → slice_chunks n l = take n l :: slice_chunks n (list.drop n l).
Proof.
  intros Hn Hl. destruct l as [|x l]; [done|]. unfold slice_chunks at 1. cbn [length slice_chunks_fuel].
  f_equal. apply slice_chunks_fuel_enough; [done|]. rewrite length_drop. simpl. lia.
Qed.
Lemma slice_chunks_app n l l' : n ≠ 0 → length l = n → slice_chunks n (l ++ l') = l :: slice_chunks n l'.
Proof.
  intros Hn Hl. rewrite slice_chunks_cons; [|done|].
  - by rewrite take_app_length', drop_app_length'.
  - destruct l; [simpl in Hl; lia | done].
Qed.
Lemma slice_chunks_concat n ls l :
  n ≠ 0 → Forall (λ l, length l = n) ls → slice_chunks n (concat ls ++ l) = ls ++ slice_chunks n l.
Proof.
  intros Hn. induction 1 as [|l' ls Hl' _ IH]; [done|].
  simpl. rewrite <-app_assoc, slice_chunks_app by done. by rewrite IH.
Qed.
Lemma slice_chunks_exact n ls :
  n ≠ 0 → Forall (λ l, length l = n) ls → slice_chunks n (concat ls) = ls.
Proof. intros Hn H. rewrite <-(app_nil_r (concat ls)), slice_chunks_concat by done. apply app_nil_r. Qed.
Lemma concat_slice_chunks n l : n ≠ 0 → concat (slice_chunks n l) = l.
Proof.
  intros Hn. remember (length l) as k eqn:Hk. revert l Hk.
  induction k as [k IH] using lt_wf_ind. intros l ->. destruct (decide (l = [])) as [->|Hl]; [done|].
  rewrite slice_chunks_cons by done. simpl. rewrite IH with (m := length (list.drop n l)); try done.
  - apply take_drop.
  - rewrite length_drop. destruct l; [done | simpl; lia].
Qed.
(** A list of [k * n] items is [k] whole pieces. *)
Lemma whole_pieces n k l :
  length l = k * n → ∃ ls, l = concat ls ∧ length ls = k ∧ Forall (λ l, length l = n) ls.
Proof.
  revert l. induction k as [|k IH]; intros l Hl.
  - exists []. destruct l; [done | simpl in Hl; lia].
  - destruct (IH (list.drop n l)) as (ls & Heq & Hlen & Hall); [rewrite length_drop; lia|].
    exists (take n l :: ls). simpl. rewrite <-Heq, take_drop, Hlen. split_and!; try done.
    constructor; [|done]. rewrite length_take. lia.
Qed.

Lemma concat_length n ls : Forall (λ l, length l = n) ls → length (concat ls) = length ls * n.
Proof. induction 1 as [|l ls Hl _ IH]; [done|]. simpl. rewrite length_app. lia. Qed.
Lemma drop_concat n k ls :
  Forall (λ l, length l = n) ls → k ≤ length ls → list.drop (k * n) (concat ls) = concat (list.drop k ls).
Proof.
  intros H. revert k. induction H as [|l ls Hl _ IH]; intros [|k] Hk; simpl in *; try done; try lia.
  rewrite drop_app_ge by lia. replace (n + k * n - length l) with (k * n) by lia. apply IH. lia.
Qed.
Lemma take_concat n k ls :
  Forall (λ l, length l = n) ls → k ≤ length ls → take (k * n) (concat ls) = concat (take k ls).
Proof.
  intros H. revert k. induction H as [|l ls Hl _ IH]; intros [|k] Hk; simpl in *; try done; try lia.
  rewrite take_app_ge by lia. replace (n + k * n - length l) with (k * n) by lia. f_equal. apply IH. lia.
Qed.
End pieces.

Lemma slice_ok {A} (s e : nat) (l : list A) :
  s ≤ e ≤ length l → slice (N.of_nat s) (N.of_nat e) l = Ok (take (e - s) (list.drop s l)).
Proof.
  intros H. unfold slice, len. rewrite (proj2 (N.leb_le _ _)), (proj2 (N.leb_le _ _)) by lia. simpl.
  by rewrite <-Nat2N.inj_sub, !Nat2N.id.
Qed.
Lemma slice_mut_ok {A B} (s e : nat) (m : on (list A) B) l o l' :
  s ≤ e ≤ length l → m (take (e - s) (list.drop s l)) = (o, l') →
  slice_mut (N.of_nat s) (N.of_nat e) m l = (o, take s l ++ l' ++ list.drop e l).
Proof.
  intros H Hm. unfold slice_mut, len. rewrite (proj2 (N.leb_le _ _)), (proj2 (N.leb_le _ _)) by lia. simpl.
  by rewrite <-Nat2N.inj_sub, !Nat2N.id, Hm.
Qed.

Lemma len_app {A} (l l' : list A) : len (l ++ l') = (len l + len l')%N.
Proof. unfold len. rewrite length_app. lia. Qed.
Lemma to_nat_len {A} (l : list A) : N.to_nat (len l) = length l.
Proof. unfold len. lia. Qed.
Lemma len_nil {A} : len ([] : list A) = 0%N.
Proof. done. Qed.

(** ** Buffers of elements *)

Section codec.
Context {F : PrimeField} {C : AffineCurve F} `{!CurveLaws C}.
Implicit Types (p : C) (l : list C) (data : bytes).

(** The size of an element as a length. *)
Definition width (c : UseCompression) : nat := N.to_nat (serialized_size C c).

(** The bytes of a list of elements. *)
Definition encode (c : UseCompression) (l : list C) : bytes := concat (serialize c <$> l).

(** The buffer holds exactly these elements, and the check accepts them. *)
Definition decodes (c : UseCompression) (check : CheckForCorrectness) (data : bytes) (l : list C) : Prop :=
  read_batch c check data = Ok l ∧ length data = length l * width c.

Definition passes (check : CheckForCorrectness) (p : C) : Prop :=
  rejects_zero check = true → p ≠ zero.

Lemma width_pos c : 0 < width c.
Proof. pose proof (serialized_size_pos (C := C) c). unfold width. lia. Qed.
Lemma serialize_width c p : length (serialize c p) = width c.
Proof. apply serialize_length. Qed.
Lemma buffer_size_width c : buffer_size C c = N.of_nat (width c).
Proof. unfold buffer_size, width. lia. Qed.

Lemma buffer_size_nat c : N.to_nat (buffer_size C c) = width c.
Proof. done. Qed.
Lemma buffer_size_nonzero c : (buffer_size C c =? 0)%N = false.
Proof. apply N.eqb_neq. pose proof (serialized_size_pos (C := C) c). unfold buffer_size. lia. Qed.

Lemma encode_app c l l' : encode c (l ++ l') = encode c l ++ encode c l'.
Proof. unfold encode. by rewrite fmap_app, concat_app. Qed.
Lemma encode_length c l : length (encode c l) = length l * width c.
Proof.
  unfold encode. rewrite (concat_length (width c)); [by rewrite length_fmap|].
  apply Forall_fmap, Forall_true. intros p. apply serialize_width.
Qed.

Lemma read_element_ok c check p rest :
  in_subgroup p → passes check p → read_element c check (serialize c p ++ rest) = Ok p.
Proof.
  intros Hp Hc. unfold read_element. rewrite deserialize_serialize by done. cbn [ok_or bind_outcome].
  unfold is_zero. destruct (rejects_zero check) eqn:E; [|done].
  rewrite bool_decide_eq_false_2 by (by apply Hc). done.
Qed.
Lemma read_element_passes c check data p : read_element c check data = Ok p → passes check p.
Proof.
  unfold read_element. rewrite bind_outcome_ok. intros (q & _ & H) Hr. rewrite Hr in H.
  unfold is_zero in H. case_bool_decide; simplify_eq/=. done.
Qed.

(** A decoded buffer, piece by piece. *)
Lemma decodes_pieces c check data l :
  decodes c check data l ↔ ∃ cs, data = concat cs ∧ Forall (λ d, length d = width c) cs ∧
    Forall2 (λ d p, read_element c check d = Ok p) cs l.
Proof.
  pose proof (width_pos c) as Hw. unfold decodes, read_batch, cfg_chunks. rewrite buffer_size_nonzero, buffer_size_nat.
  cbn [bind_outcome]. split.
  - intros [H Hlen]. destruct (whole_pieces _ _ _ Hlen) as (cs & -> & Hcs & Hall).
    rewrite slice_chunks_exact in H by (done || lia). apply collect_ok, Forall2_fmap_l in H. eauto.
  - intros (cs & -> & Hall & H). rewrite slice_chunks_exact by (done || lia). split.
    + apply collect_ok, Forall2_fmap_l. done.
    + rewrite (concat_length (width c)) by done. by rewrite (Forall2_length _ _ _ H).
Qed.

Lemma decodes_encode c check l :
  Forall in_subgroup l → Forall (passes check) l → decodes c check (encode c l) l.
Proof.
  intros Hl Hc. apply decodes_pieces. exists (serialize c <$> l). split_and!; [done| |].
  - apply Forall_fmap, Forall_true. intros p. apply serialize_width.
  - apply Forall2_fmap_l. induction Hl as [|p l Hp _ IH]; [constructor|].
    apply Forall_cons in Hc as [Hpc Hc]. constructor; [|by apply IH].
    unfold compose. pose proof (read_element_ok c check p [] Hp Hpc) as H. by rewrite app_nil_r in H.
Qed.
Lemma decodes_passes c check data l : decodes c check data l → Forall (passes check) l.
Proof.
  intros (cs & _ & _ & H)%decodes_pieces. induction H as [|d p cs l Hp]; constructor; [|done].
  by eapply read_element_passes.
Qed.
Lemma decodes_weaken c check data l :
  decodes c check data l → decodes c CheckNo data l.
Proof.
  rewrite !decodes_pieces. intros (cs & Hd & Hall & H). exists cs. split_and!; try done.
  eapply Forall2_impl; [exact H|]. intros d p Hp. unfold read_element in *.
  rewrite bind_outcome_ok in Hp. destruct Hp as (q & Hq & Hp). rewrite Hq. simpl.
  destruct (rejects_zero check && is_zero q); by simplify_eq.
Qed.
Lemma decodes_strengthen c check data l :
  decodes c CheckNo data l → Forall (passes check) l → decodes c check data l.
Proof.
  rewrite !decodes_pieces. intros (cs & Hd & Hall & H) Hp. exists cs. split_and!; try done.
  clear Hd Hall. induction H as [|d p cs l H _ IH]; [constructor|].
  apply Forall_cons in Hp as [Hp Hl]. constructor; [|by apply IH].
  unfold read_element in *. rewrite bind_outcome_ok in H. destruct H as (q & Hq & [= ->]). rewrite Hq. simpl.
  unfold is_zero. destruct (rejects_zero check) eqn:E; [|done].
  by rewrite bool_decide_eq_false_2 by (by apply Hp).
Qed.

Lemma decodes_length c check data l : decodes c check data l → length data = length l * width c.
Proof. by intros [_ H]. Qed.

(** The elements from [s] to [e] of a decoded buffer. *)
Lemma decodes_slice c check data l s e :
  decodes c check data l → s ≤ e ≤ length l →
  ∃ d, slice (N.of_nat (s * width c)) (N.of_nat (e * width c)) data = Ok d ∧
       decodes c check d (take (e - s) (list.drop s l)).
Proof.
  intros (cs & -> & Hall & H)%decodes_pieces Hse. pose proof (Forall2_length _ _ _ H) as Hlen.
  rewrite slice_ok by (rewrite (concat_length (width c)) by done; nia).
  rewrite (drop_concat (width c)) by (done || lia).
  replace (e * width c - s * width c) with ((e - s) * width c) by nia.
  rewrite (take_concat (width c)); [|by apply Forall_drop | rewrite length_drop; lia].
  eexists. split; [done|]. apply decodes_pieces. eexists. split; [done|]. split.
  - by apply Forall_take, Forall_drop.
  - by apply Forall2_take, Forall2_drop.
Qed.
Lemma decodes_app_inv c check d d' l k :
  decodes c check (d ++ d') l → length d = k * width c →
  decodes c check d (take k l) ∧ decodes c check d' (list.drop k l).
Proof.
  intros (cs & Heq & Hall & H)%decodes_pieces Hd. pose proof (width_pos c).
  assert (k ≤ length cs) as Hk.
  { apply (f_equal length) in Heq. rewrite length_app, (concat_length (width c)) in Heq by done. nia. }
  assert (d = concat (take k cs) ∧ d' = concat (list.drop k cs)) as [-> ->].
  { rewrite <-(take_concat (width c)), <-(drop_concat (width c)), <-Heq, <-Hd by done.
    by rewrite take_app_length, drop_app_length. }
  split; apply decodes_pieces; eexists; (split; [done|]); split.
  - by apply Forall_take.
  - by apply Forall2_take.
  - by apply Forall_drop.
  - by apply Forall2_drop.
Qed.
Lemma decodes_app c check d d' l l' :
  decodes c check d l → decodes c check d' l' → decodes c check (d ++ d') (l ++ l').
Proof.
  intros (cs & -> & Hall & H)%decodes_pieces (cs' & -> & Hall' & H')%decodes_pieces.
  apply decodes_pieces. exists (cs ++ cs'). rewrite concat_app. split_and!; [done| |].
  - by apply Forall_app_2.
  - by apply Forall2_app.
Qed.

Lemma read_batch_decodes c check data l : decodes c check data l → read_batch c check data = Ok l.
Proof. by intros [H _]. Qed.

(** The preallocated elements are replaced from the front. *)
Lemma read_preallocated_decodes c check data l elements :
  decodes c check data l →
  read_batch_preallocated elements c check data =
    Ok (take (length elements) l ++ list.drop (length l) elements).
Proof.
  intros (cs & -> & Hall & H)%decodes_pieces. pose proof (width_pos c). pose proof (Forall2_length _ _ _ H) as Hlen.
  unfold read_batch_preallocated, cfg_chunks. rewrite buffer_size_nonzero, buffer_size_nat.
  cbn [bind_outcome].
  rewrite slice_chunks_exact by (done || lia).
  rewrite (proj2 (collect_ok _ (take (length elements) l))).
  - cbn [bind_outcome]. f_equal. f_equal. rewrite length_take.
    destruct (decide (length l ≤ length elements)); [by rewrite Nat.min_r by lia|].
    rewrite !drop_ge by lia. done.
  - apply Forall2_fmap_l, Forall2_take, H.
Qed.

(** ** Writing *)

Lemma write_element_ok c p (buffer : bytes) :
  width c ≤ length buffer →
  write_element p c buffer = (Ok tt, serialize c p ++ list.drop (width c) buffer).
Proof.
  intros Hb. unfold write_element, write_all, len. rewrite serialize_width.
  rewrite (proj2 (N.leb_le _ _)) by lia. by rewrite take_ge by (rewrite serialize_width; lia).
Qed.
Lemma write_piece_ok c p (buffer : bytes) :
  length buffer = width c →
  slice_mut 0 (buffer_size C c) (write_element p c) buffer = (Ok tt, serialize c p).
Proof.
  intros Hb. rewrite buffer_size_width. change 0%N with (N.of_nat 0).
  erewrite slice_mut_ok; [|lia|].
  2: { rewrite drop_0, Nat.sub_0_r, take_ge by lia. apply write_element_ok. lia. }
  rewrite !drop_ge, !app_nil_r by lia. done.
Qed.
Lemma zip_pieces_ok c l cs :
  length l ≤ length cs → Forall (λ d, length d = width c) (take (length l) cs) →
  zip_chunks (λ p, slice_mut 0 (buffer_size C c) (write_element p c)) l cs =
    (Ok tt, (serialize c <$> l) ++ list.drop (length l) cs).
Proof.
  revert cs. induction l as [|p l IH]; intros [|d cs] Hlen H; simpl in *; try done; try lia.
  apply Forall_cons in H as [Hd H]. rewrite write_piece_ok by done.
  by rewrite IH by (done || lia).
Qed.
Lemma write_batch_app c l (d rest : bytes) :
  length d = length l * width c →
  write_batch l c (d ++ rest) = (Ok tt, encode c l ++ rest).
Proof.
  intros Hd. pose proof (width_pos c). unfold write_batch, cfg_chunks_mut. rewrite buffer_size_nonzero, buffer_size_nat.
  destruct (whole_pieces _ _ _ Hd) as (cs & -> & Hcs & Hall).
  rewrite slice_chunks_concat by (done || lia).
  rewrite zip_pieces_ok; [|rewrite length_app; lia | rewrite take_app_length' by done; exact Hall].
  rewrite drop_app_length' by done. by rewrite concat_app, concat_slice_chunks by lia.
Qed.
Lemma write_batch_ok c l (buffer : bytes) :
  length buffer = length l * width c → write_batch l c buffer = (Ok tt, encode c l).
Proof. intros H. pose proof (write_batch_app c l buffer [] H) as E. by rewrite !app_nil_r in E. Qed.
(** Writing the elements from [s] on. *)
Lemma write_slice_ok c l s (buffer : bytes) :
  (s + length l) * width c ≤ length buffer →
  slice_mut (N.of_nat (s * width c)) (N.of_nat ((s + length l) * width c)) (write_batch l c) buffer =
    (Ok tt, take (s * width c) buffer ++ encode c l ++ list.drop ((s + length l) * width c) buffer).
Proof.
  intros H. apply slice_mut_ok; [nia|]. apply write_batch_ok. rewrite length_take, length_drop. nia.
Qed.
Lemma init_element_ok c p n (buffer : bytes) :
  length buffer = n * width c → init_element p c buffer = (Ok tt, encode c (repeat p n)).
Proof.
  intros Hb. pose proof (width_pos c). unfold init_element, cfg_chunks_mut. rewrite buffer_size_nonzero, buffer_size_nat.
  destruct (whole_pieces _ _ _ Hb) as (cs & -> & Hcs & Hall).
  rewrite slice_chunks_exact by (done || lia).
  assert (∀ k, length cs ≤ k →
    zip_chunks (λ p, slice_mut 0 (buffer_size C c) (write_element p c)) (repeat p k) cs =
    (Ok tt, serialize c <$> repeat p n)) as Hzip.
  { clear Hb. revert n Hcs. induction Hall as [|d cs Hd _ IH]; intros n Hcs k Hk.
    - simpl in Hcs. subst n. by destruct k.
    - destruct k as [|k]; [simpl in Hk; lia|]. destruct n as [|n]; [done|]. simpl in *.
      rewrite write_piece_ok by done. by rewrite (IH n) by lia. }
  rewrite Hzip; [done|]. rewrite (concat_length (width c)) by done. nia.
Qed.
End codec.
Arguments width {_} C.
Arguments decodes {_ C}.
