(* ===== verification/MultiExp.v ===== *)
(** * Arithmetic on many points

    [setup-utils/src/helpers.rs] and [seed.rs]: powers of tau, exponentiation
    of a batch, the multi-exponentiation by windows and buckets, random linear
    combinations, ratio checks by pairing, and hashing into G2. *)

From S2P Require Import Prelude Environment Phase1Parameters Curve Elements.
From Stdlib Require Import Strings.Byte.

(** Randomness and hash functions of other crates: [rand], [rand_chacha],
    [blake2], [blake2s_simd]. *)
Class Randomness (E : PairingEngine) := {
  Rng : Type;
  from_seed : bytes → Rng;
  gen_byte : Rng → Byte.byte * Rng;
  rand_scalar : Rng → Fr E * Rng;
  rand_g1 : Rng → G1Affine E * Rng;
  blake2b : bytes → bytes;
  blake2s_seed : bytes → bytes;
  (* num_cpus::get() *)
  num_cpus : N;
}.

(** ** Powers and exponentiation *)

Section exponents.
Context {F : PrimeField} {C : AffineCurve F}.

(** [generate_powers_of_tau] *)
Definition generate_powers_of_tau (tau : F) (s e : N) : list F := fr_pow tau <$> u64_range s e.

(** [batch_exp] *)
Definition batch_exp (bases : list C) (exps : list F) (coeff : option F) : setup (list C) :=
  if negb (length bases =? length exps)%nat
  then Err (InvalidLength (len bases) (len exps))
  else Ok (zip_with (λ base exp,
             mul base (match coeff with Some coeff => fr_mul exp coeff | None => exp end)) bases exps).

(** [batch_mul] *)
Definition batch_mul (bases : list C) (coeff : F) : setup (list C) := Ok ((λ base, mul base coeff) <$> bases).

(** ** Multi-exponentiation *)

(** [⌈ln n⌉] for a 32-bit [n], 0 for [n = 0]: the number of powers of e below
    [n]; the list holds them rounded down. *)
Definition ln_ceil (n : N) : N :=
  len (filter (λ t, t < n)%N [1; 2; 7; 20; 54; 148; 403; 1096; 2980; 8103; 22026; 59874; 162754; 442413;
    1202604; 3269017; 8886110; 24154952; 65659969; 178482300; 485165195; 1318815734; 3584912846]%N).

Definition window_bits (n : N) : N := if (n <? 32)%N then 3 else ln_ceil (n mod 2 ^ 32).

(** What one base adds: to the accumulator or to a bucket. *)
Definition add_to_bucket (skip c : N) (handle_trivial : bool) (state : C * list C) (term : C * N)
    : C * list C :=
  let '(acc, buckets) := state in
  let '(base, exp) := term in
  if (exp =? to_repr (fr_zero : F))%N then (acc, buckets)
  else if (exp =? to_repr (fr_one : F))%N
  then (if handle_trivial then add acc base else acc, buckets)
  else
    let exp := ((N.shiftr exp skip) mod 2 ^ 64 mod N.shiftl 1 c)%N in
    if (exp =? 0)%N then (acc, buckets)
    else (acc, alter (λ b, add b base) (N.to_nat (exp - 1)) buckets).

Definition add_running (bucket : C) (state : C * C) : C * C :=
  let '(running_sum, acc) := state in
  let running_sum := add running_sum bucket in
  (running_sum, add acc running_sum).

(** The work of one thread: fill the buckets, then add them up from the last
    to the first, each as often as its number. *)
Definition region_chunk (skip c : N) (handle_trivial : bool) (terms : list (C * N)) : C :=
  let '(acc, buckets) :=
    foldl (add_to_bucket skip c handle_trivial) (zero, repeat zero (N.to_nat (N.shiftl 1 c - 1))) terms in
  (foldr add_running (zero, acc) buckets).2.

(** One region: the threads' results are added in some order. *)
Definition region (num_cpus skip c : N) (handle_trivial : bool) (terms : list (C * N)) : C :=
  let chunk := (len terms / num_cpus + 1)%N in
  foldl add zero (region_chunk skip c handle_trivial <$> slice_chunks (N.to_nat chunk) terms).

(** [dense_multiexp_inner]; with [c = 0] the recursion never ends, and the
    stack overflows. *)
Fixpoint dense_multiexp_inner (fuel : nat) (num_cpus : N) (terms : list (C * N)) (skip c : N)
    (handle_trivial : bool) : setup C :=
  match fuel with
  | 0 => Panic
  | S fuel =>
      let this := region num_cpus skip c handle_trivial terms in
      let skip := (skip + c)%N in
      if (size_in_bits F <=? skip)%N then Ok this
      else
        try! next_region := dense_multiexp_inner fuel num_cpus terms skip c false in
        Ok (add (N.iter c (λ p, add p p) next_region) this)
  end.

(** [dense_multiexp] *)
Definition dense_multiexp (num_cpus : N) (bases : list C) (exponents : list N) : setup C :=
  if negb (length exponents =? length bases)%nat then Panic
  else dense_multiexp_inner (S (N.to_nat (size_in_bits F))) num_cpus (zip bases exponents) 0
         (window_bits (len exponents)) true.
End exponents.

(** ** Ratios *)

Section ratios.
Context {E : PairingEngine} `{!Randomness E}.

Fixpoint draw {A} (n : nat) (gen : Rng → A * Rng) : on Rng (list A) := λ rng,
  match n with
  | 0 => (Ok [], rng)
  | S n => let '(a, rng) := gen rng in
           (let! l := draw n gen in ret (a :: l)) rng
  end.

(** [merge_pairs]; [thread_rng] is the generator in the state. *)
Definition merge_pairs {C : AffineCurve (Fr E)} (v1 v2 : list C) : on Rng (C * C) :=
  assert (length v1 =? length v2)%nat ;;;
  let! randomness := draw (length v1) rand_scalar in
  let randomness := to_repr <$> randomness in
  let! s := lift (dense_multiexp num_cpus v1 randomness) in
  let! sx := lift (dense_multiexp num_cpus v2 randomness) in
  ret (s, sx).

(** [power_pairs] *)
Definition power_pairs {C : AffineCurve (Fr E)} (v : list C) : on Rng (C * C) :=
  let! lower := lift (slice 0 (usize_sub (len v) 1) v) in
  let! upper := lift (slice 1 (len v) v) in
  merge_pairs lower upper.

Definition same_ratio (g1 : G1Affine E * G1Affine E) (g2 : G2Affine E * G2Affine E) : bool :=
  bool_decide (pairing g1.1 g2.2 = pairing g1.2 g2.1).

Definition check_same_ratio (g1 : G1Affine E * G1Affine E) (g2 : G2Affine E * G2Affine E)
    (err : string) : setup unit :=
  if negb (bool_decide (pairing g1.1 g2.2 = pairing g1.2 g2.1)) then Err (InvalidRatio err) else Ok tt.

(** ** Hashing *)

(** [from_slice]: the first 32 bytes. *)
Definition from_slice (data : bytes) : setup bytes := slice 0 32 data.

Definition derive_rng_from_seed (seed : bytes) : Rng := from_seed (blake2s_seed seed).

(** [hash_to_g2]: candidates are drawn until one is a point that the cofactor
    does not take to zero.  The loop has no bound; the result is [None] when
    the fuel does not suffice. *)
Fixpoint hash_to_g2_loop (fuel : nat) (rng : Rng) : option (G2Affine E) :=
  match fuel with
  | 0 => None
  | S fuel =>
      let '(drawn, rng) := draw (N.to_nat (serialized_size (G2Affine E) CompressionYes)) gen_byte rng in
      match from_random_bytes (match drawn with Ok l => l | _ => [] end) with
      | Some p =>
          let scaled := mul_by_cofactor p in
          if negb (is_zero scaled) then Some scaled else hash_to_g2_loop fuel rng
      | None => hash_to_g2_loop fuel rng
      end
  end.
(** There is no result, as after a panic, while the search has not ended. *)
Definition hash_to_g2 (fuel : nat) (digest : bytes) : setup (G2Affine E) :=
  try! seed := from_slice digest in
  match hash_to_g2_loop fuel (from_seed seed) with Some p => Ok p | None => Panic end.

(** [compute_g2_s] *)
Definition g2_s_digest (digest : bytes) (g1_s g1_s_x : G1Affine E) (personalization : Byte.byte) : bytes :=
  blake2b ([personalization] ++ digest
           ++ serialize CompressionYes g1_s ++ serialize CompressionYes g1_s_x).
Definition compute_g2_s (fuel : nat) (digest : bytes) (g1_s g1_s_x : G1Affine E)
    (personalization : Byte.byte) : setup (G2Affine E) :=
  hash_to_g2 fuel (g2_s_digest digest g1_s g1_s_x personalization).
End ratios.

(** ** The multi-exponentiation computes the linear combination *)

Section multiexp.
Context {F : PrimeField} {C : AffineCurve F} `{!FieldLaws F, !CurveLaws C}.
Implicit Types (terms : list (C * N)) (buckets : list C).

Definition sum (l : list C) : C := foldr add zero l.
Definition lincomb terms : C := sum ((λ t, times t.2 t.1) <$> terms).

Lemma sum_cons (p : C) l : sum (p :: l) = add p (sum l).
Proof. done. Qed.
Lemma sum_app (l l' : list C) : sum (l ++ l') = add (sum l) (sum l').
Proof. unfold sum. induction l as [|p l IH]; simpl; [by rewrite zero_add | by rewrite IH, add_assoc]. Qed.
Lemma foldl_sum (l : list C) a : foldl add a l = add a (sum l).
Proof. revert a. induction l as [|p l IH]; intros a; simpl; [by rewrite add_zero | by rewrite IH, add_assoc]. Qed.
Lemma sum_concat (ls : list (list C)) : sum (sum <$> ls) = sum (concat ls).
Proof. induction ls as [|l ls IH]; [done|]. csimpl. rewrite sum_app, <-IH. done. Qed.

(** Sums of multiples that depend on the term. *)
Definition weigh (weight : N → N) terms : C := sum ((λ t, times (weight t.2) t.1) <$> terms).
Lemma weigh_add f g terms : weigh (λ n, f n + g n)%N terms = add (weigh f terms) (weigh g terms).
Proof.
  unfold weigh. induction terms as [|t terms IH]; [symmetry; apply add_zero|].
  by rewrite !fmap_cons, !sum_cons, IH, times_add, add_middle.
Qed.
Lemma weigh_mul k f terms : weigh (λ n, k * f n)%N terms = times k (weigh f terms).
Proof.
  unfold weigh. induction terms as [|t terms IH]; [symmetry; apply times_zero|].
  by rewrite !fmap_cons, !sum_cons, IH, times_mul, times_add_r.
Qed.
Lemma weigh_ext f g terms :
  Forall (λ t, f t.2 = g t.2) terms → weigh f terms = weigh g terms.
Proof. unfold weigh. induction 1 as [|t terms H _ IH]; [done|]. by rewrite !fmap_cons, !sum_cons, H, IH. Qed.

(** The buckets, each as often as its number. *)
Fixpoint weighted (k : N) buckets : C :=
  match buckets with [] => zero | b :: buckets => add (times k b) (weighted (N.succ k) buckets) end.

Lemma weighted_alter k buckets i p :
  i < length buckets →
  weighted k (alter (λ b, add b p) i buckets) = add (weighted k buckets) (times (k + N.of_nat i) p).
Proof.
  revert k i. induction buckets as [|b buckets IH]; intros k [|i] Hi; csimpl in *; try lia.
  - rewrite times_add_r, N.add_0_r, <-!add_assoc. f_equal. apply add_comm.
  - rewrite IH by lia. replace (N.succ k + N.of_nat i)%N with (k + N.of_nat (S i))%N by lia.
    apply add_assoc.
Qed.
Lemma weighted_succ k buckets : weighted (N.succ k) buckets = add (weighted k buckets) (sum buckets).
Proof.
  revert k. induction buckets as [|b buckets IH]; intros k; simpl; [by rewrite add_zero|].
  rewrite (IH (N.succ k)), times_succ. unfold sum at 2. simpl. fold (sum buckets).
  rewrite (add_comm b), add_middle. done.
Qed.
Lemma weighted_zero k n : weighted k (repeat zero n) = zero.
Proof. revert k. induction n as [|n IH]; intros k; simpl; [done|]. by rewrite IH, times_zero, add_zero. Qed.
(** The running sums visit every bucket as often as its number. *)
Lemma running_sums acc buckets :
  foldr add_running (zero, acc) buckets =
  (sum buckets, add acc (weighted 1 buckets)).
Proof.
  induction buckets as [|b buckets IH]; [cbn; by rewrite add_zero|].
  cbn [foldr weighted]. rewrite IH, times_1. unfold add_running. change 2%N with (N.succ 1).
  rewrite weighted_succ, sum_cons, (add_comm (sum buckets)). f_equal.
  rewrite <-!add_assoc. f_equal. rewrite !add_assoc, (add_comm (weighted 1 buckets)). done.
Qed.

(** The multiple of a base that one region takes. *)
Definition digit (skip c : N) (handle_trivial : bool) (exp : N) : N :=
  if (exp =? 0)%N then 0
  else if (exp =? 1)%N then (if handle_trivial then 1 else 0)
  else (exp / 2 ^ skip) mod 2 ^ c.

Lemma window_exact exp skip c :
  (c ≤ 64)%N → ((N.shiftr exp skip) mod 2 ^ 64 mod N.shiftl 1 c = (exp / 2 ^ skip) mod 2 ^ c)%N.
Proof.
  intros Hc. rewrite N.shiftr_div_pow2, N.shiftl_1_l.
  replace (2 ^ 64)%N with (2 ^ c * 2 ^ (64 - c))%N by (rewrite <-N.pow_add_r; f_equal; lia).
  rewrite N.Div0.mod_mul_r, N.mul_comm, N.Div0.mod_add. apply N.Div0.mod_mod.
Qed.

Lemma add_to_bucket_digit skip c ht acc buckets base exp :
  (c ≤ 64)%N → length buckets = N.to_nat (2 ^ c - 1) →
  let '(acc', buckets') := add_to_bucket skip c ht (acc, buckets) (base, exp) in
  add acc' (weighted 1 buckets') = add (add acc (weighted 1 buckets)) (times (digit skip c ht exp) base) ∧
  length buckets' = N.to_nat (2 ^ c - 1).
Proof.
  intros Hc Hlen. unfold add_to_bucket, digit. rewrite to_repr_zero, to_repr_one, window_exact by done.
  destruct (N.eqb_spec exp 0); [by rewrite times_0, add_zero|].
  destruct (N.eqb_spec exp 1).
  - destruct ht; [|by rewrite times_0, add_zero]. split; [|done].
    rewrite times_1, <-!add_assoc. f_equal. apply add_comm.
  - assert ((exp / 2 ^ skip) mod 2 ^ c < 2 ^ c)%N as Hlt by (apply N.mod_lt; by apply N.pow_nonzero).
    destruct (N.eqb_spec ((exp / 2 ^ skip) mod 2 ^ c) 0) as [->|Hd]; [by rewrite times_0, add_zero|].
    split; [|by rewrite length_alter]. set (d := ((exp / 2 ^ skip) mod 2 ^ c)%N) in *. clearbody d.
    rewrite weighted_alter by (rewrite Hlen; lia).
    replace (1 + N.of_nat (N.to_nat (d - 1)))%N with d by lia. apply add_assoc.
Qed.

Lemma fill_buckets skip c ht terms acc buckets :
  (c ≤ 64)%N → length buckets = N.to_nat (2 ^ c - 1) →
  let '(acc', buckets') := foldl (add_to_bucket skip c ht) (acc, buckets) terms in
  add acc' (weighted 1 buckets') = add (add acc (weighted 1 buckets)) (weigh (digit skip c ht) terms).
Proof.
  intros Hc. revert acc buckets. induction terms as [|[base exp] terms IH]; intros acc buckets Hlen.
  - cbn. by rewrite add_zero.
  - cbn [foldl]. pose proof (add_to_bucket_digit skip c ht acc buckets base exp Hc Hlen) as Hs.
    destruct (add_to_bucket skip c ht (acc, buckets) (base, exp)) as [acc' buckets'].
    destruct Hs as [Hs Hlen']. specialize (IH acc' buckets' Hlen').
    destruct (foldl _ _ terms). rewrite IH, Hs, <-add_assoc. done.
Qed.

Lemma region_chunk_digits skip c ht terms :
  (c ≤ 64)%N → region_chunk skip c ht terms = weigh (digit skip c ht) terms.
Proof.
  intros Hc. unfold region_chunk.
  pose proof (fill_buckets skip c ht terms zero (repeat zero (N.to_nat (N.shiftl 1 c - 1))) Hc) as H.
  rewrite repeat_length, N.shiftl_1_l in H. specialize (H eq_refl). rewrite N.shiftl_1_l.
  destruct (foldl _ _ terms) as [acc buckets]. rewrite running_sums, H, weighted_zero, add_zero.
  apply zero_add.
Qed.

Lemma region_digits cpus skip c ht terms :
  (c ≤ 64)%N → region cpus skip c ht terms = weigh (digit skip c ht) terms.
Proof.
  intros Hc. unfold region. rewrite foldl_sum, zero_add.
  rewrite (list_fmap_ext _ (weigh (digit skip c ht))).
  2: { intros i x _. by apply region_chunk_digits. }
  assert (N.to_nat (len terms / cpus + 1) ≠ 0) as Hn by (generalize (len terms / cpus)%N; lia).
  pose proof (concat_slice_chunks _ terms Hn) as Heq. revert Heq.
  generalize (slice_chunks (N.to_nat (len terms / cpus + 1)) terms). intros ls <-. clear Hn.
  unfold weigh. induction ls as [|l ls IH]; [done|].
  by rewrite fmap_cons, sum_cons, concat_cons, fmap_app, sum_app, <-IH.
Qed.

(** What the regions from [skip] on add up to. *)
Definition remaining (skip : N) (ht : bool) (exp : N) : N :=
  if (exp =? 0)%N then 0 else if (exp =? 1)%N then (if ht then 1 else 0) else exp / 2 ^ skip.

Lemma double_pow c (p : C) : N.iter c (λ p, add p p) p = times (2 ^ c) p.
Proof.
  induction c as [|c IH] using N.peano_ind; [by rewrite N.pow_0_r, times_1|].
  rewrite N.iter_succ, IH, N.pow_succ_r'. replace (2 * 2 ^ c)%N with (2 ^ c + 2 ^ c)%N by lia.
  by rewrite times_add.
Qed.

Lemma dense_multiexp_inner_sums fuel cpus terms skip c ht :
  (0 < c ≤ 64)%N → Forall (λ t, t.2 < 2 ^ size_in_bits F)%N terms →
  N.to_nat (size_in_bits F - skip) < fuel →
  dense_multiexp_inner fuel cpus terms skip c ht = Ok (weigh (remaining skip ht) terms).
Proof.
  intros Hc Hb. revert skip ht. induction fuel as [|fuel IH]; intros skip ht Hf; [lia|].
  cbn [dense_multiexp_inner]. rewrite region_digits by lia.
  destruct (N.leb_spec (size_in_bits F) (skip + c)).
  - f_equal. apply weigh_ext. eapply Forall_impl; [exact Hb|]. intros [base exp] Hexp. cbn [snd] in *.
    unfold digit, remaining. destruct (exp =? 0)%N, (exp =? 1)%N; try done.
    apply N.mod_small. apply N.Div0.div_lt_upper_bound. rewrite <-N.pow_add_r.
    eapply N.lt_le_trans; [exact Hexp|]. apply N.pow_le_mono_r; lia.
  - rewrite IH by lia. cbn [bind_outcome]. f_equal. rewrite double_pow, <-weigh_mul, <-weigh_add.
    apply weigh_ext, Forall_true. intros [base exp]. cbn [snd]. unfold digit, remaining.
    destruct (exp =? 0)%N; [lia|]. destruct (exp =? 1)%N; [destruct ht; lia|].
    rewrite N.pow_add_r, <-N.Div0.div_div, <-(N.Div0.div_mod (exp / 2 ^ skip) (2 ^ c)). done.
Qed.

Lemma window_bits_bounds n : (n < 2 ^ 32)%N → (0 < window_bits n ≤ 64)%N.
Proof.
  intros Hn. unfold window_bits. destruct (N.ltb_spec n 32); [lia|].
  rewrite N.mod_small by done. unfold ln_ceil, len. split.
  - rewrite filter_cons_True by lia. simpl. lia.
  - match goal with |- context [filter ?P ?l] =>
      assert (length (filter P l) ≤ length l) as Hle by apply length_filter end.
    simpl length in Hle at 2. lia.
Qed.

Lemma dense_multiexp_sums (cpus : N) (bases : list C) (exponents : list N)
    (Hlen : length exponents = length bases) (Hsize : (len exponents < 2 ^ 32)%N)
    (Hexp : Forall (λ n, n < 2 ^ size_in_bits F)%N exponents) :
  dense_multiexp cpus bases exponents = Ok (lincomb (zip bases exponents)).
Proof.
  unfold dense_multiexp. rewrite Hlen, Nat.eqb_refl. cbn [negb].
  rewrite dense_multiexp_inner_sums; [| by apply window_bits_bounds | | lia].
  - f_equal. unfold lincomb, weigh. f_equal. apply list_fmap_ext. intros i [base exp] _. cbn [fst snd].
    unfold remaining. rewrite N.pow_0_r, N.div_1_r.
    destruct (N.eqb_spec exp 0) as [->|]; [done|]. by destruct (N.eqb_spec exp 1) as [->|].
  - apply Forall_lookup. intros i [base exp] Hi. cbn [snd].
    apply lookup_zip_with_Some in Hi as (b & e & [= <- <-] & _ & He).
    exact (Forall_lookup_1 _ _ _ _ Hexp He).
Qed.

(** C29. The multi-exponentiation by windows and buckets, split over any number
    of threads, computes the linear combination of the bases: for fewer than
    2^32 bases the recursion over the windows ends. *)
Theorem dense_multiexp_is_lincomb (cpus : N) (bases : list C) (exponents : list N)
    (Hlen : length exponents = length bases) (Hsize : (len exponents < 2 ^ 32)%N)
    (Hexp : Forall (λ n, n < 2 ^ size_in_bits F)%N exponents) :
  dense_multiexp cpus bases exponents = Ok (lincomb (zip bases exponents)).
Proof. by apply (dense_multiexp_sums cpus bases exponents). Qed.
End multiexp.

Lemma dense_multiexp_is_lincomb_witness :
  dense_multiexp (C := Toy.curve 1) 2 [Toy.Z2; Toy.Z3; Toy.Z4] [3; 1; 7]%N =
    Ok (lincomb (C := Toy.curve 1) (zip [Toy.Z2; Toy.Z3; Toy.Z4] [3; 1; 7]%N)) ∧
  lincomb (C := Toy.curve 1) (zip [Toy.Z2; Toy.Z3; Toy.Z4] [3; 1; 7]%N) = Toy.Z2.
Proof.
  pose proof Toy.field_laws. assert (CurveLaws (Toy.curve 1)) by (by apply Toy.curve_laws).
  split; [|by vm_compute].
  apply (dense_multiexp_is_lincomb (F := Toy.field) (C := Toy.curve 1)); [done | by vm_compute|].
  apply (bool_decide_eq_true_1 _). vm_compute. reflexivity.
Defined.

(** ** Random combinations of geometric progressions *)

Section progressions.
Context {E : PairingEngine} `{!Randomness E, !EngineLaws E}.

Lemma draw_ok {A} n (gen : Rng → A * Rng) rng :
  ∃ l rng', draw n gen rng = (Ok l, rng') ∧ length l = n.
Proof.
  revert rng. induction n as [|n IH]; intros rng; cbn [draw]; [by exists [], rng|].
  destruct (gen rng) as [a rng1]. destruct (IH rng1) as (l & rng' & Hl & Hlen).
  unfold bind. rewrite Hl. exists (a :: l), rng'. simpl. by rewrite Hlen.
Qed.

Context {C : AffineCurve (Fr E)} `{!CurveLaws C}.
Implicit Types (v : list C) (x : Fr E) (rs : list (Fr E)).

Definition combination rs v : C := lincomb (zip v (to_repr <$> rs)).

Lemma combination_multiexp rs v cpus :
  length rs = length v → (len v < 2 ^ 32)%N →
  dense_multiexp cpus v (to_repr <$> rs) = Ok (combination rs v).
Proof.
  intros Hlen Hsize. apply dense_multiexp_sums.
  - by rewrite length_fmap.
  - unfold len in *. by rewrite length_fmap, Hlen.
  - apply Forall_fmap, Forall_true. intros r. apply to_repr_bound.
Qed.
Lemma combination_mul rs v x : combination rs ((λ p, mul p x) <$> v) = mul (combination rs v) x.
Proof.
  unfold combination, lincomb. revert v. induction rs as [|r rs IH]; intros [|p v].
  - symmetry. apply mul_zero_l.
  - symmetry. apply mul_zero_l.
  - symmetry. apply mul_zero_l.
  - rewrite !fmap_cons. cbn [zip zip_with]. rewrite !fmap_cons, !sum_cons. cbn [fst snd].
    by rewrite IH, mul_add_l, mul_times_comm.
Qed.
Lemma combination_in_subgroup rs v : Forall in_subgroup v → in_subgroup (combination rs v).
Proof.
  intros Hv. unfold combination, lincomb. revert rs. induction Hv as [|p v Hp _ IH]; intros [|r rs];
    try apply zero_in_subgroup.
  rewrite fmap_cons. cbn [zip zip_with]. rewrite fmap_cons, sum_cons. cbn [fst snd].
  apply add_in_subgroup; [by apply times_in_subgroup | apply IH].
Qed.

Lemma merge_pairs_ok v1 v2 rng :
  length v1 = length v2 → (len v1 < 2 ^ 32)%N →
  ∃ rs rng', draw (length v1) rand_scalar rng = (Ok rs, rng') ∧
    merge_pairs v1 v2 rng = (Ok (combination rs v1, combination rs v2), rng').
Proof.
  intros Hlen Hsize. destruct (draw_ok (length v1) rand_scalar rng) as (rs & rng' & Hdraw & Hrs).
  exists rs, rng'. split; [done|]. unfold merge_pairs, assert, bind, lift.
  rewrite <-Hlen, Nat.eqb_refl, Hdraw.
  rewrite !combination_multiexp; [done | lia | unfold len in *; by rewrite <-Hlen | done | done].
Qed.

(** Every element is [x] times the one before. *)
Definition geometric x v : Prop := list.drop 1 v = (λ p, mul p x) <$> take (length v - 1) v.

Lemma power_pairs_slices v rng :
  v ≠ [] → (len v < 2 ^ 32)%N →
  power_pairs v rng = merge_pairs (take (length v - 1) v) (list.drop 1 v) rng.
Proof.
  intros Hv Hsize. unfold power_pairs. assert (0 < length v) as Hpos by (destruct v; [done | simpl; lia]).
  rewrite u64_sub_exact by (unfold len in *; change u64_modulus with 18446744073709551616%N;
    change (2 ^ 32)%N with 4294967296%N in *; lia).
  replace (len v - 1)%N with (N.of_nat (length v - 1)) by (unfold len; lia).
  change 0%N with (N.of_nat 0). change 1%N with (N.of_nat 1). unfold len.
  unfold bind, lift. rewrite !slice_ok by lia. rewrite drop_0, Nat.sub_0_r.
  by rewrite (take_ge (list.drop 1 v)) by (rewrite length_drop; lia).
Qed.

Lemma power_pairs_geometric x v rng :
  v ≠ [] → (len v < 2 ^ 32)%N → geometric x v →
  ∃ s rng', power_pairs v rng = (Ok (s, mul s x), rng') ∧ (Forall in_subgroup v → in_subgroup s).
Proof.
  intros Hv Hsize Hx. rewrite power_pairs_slices by done. rewrite Hx.
  destruct (merge_pairs_ok (take (length v - 1) v) ((λ p, mul p x) <$> take (length v - 1) v) rng)
    as (rs & rng' & _ & H).
  - by rewrite length_fmap.
  - unfold len in *. rewrite length_take. lia.
  - rewrite combination_mul in H. eexists _, _. split; [exact H|].
    intros Hv'. by apply combination_in_subgroup, Forall_take.
Qed.

(** A combination with one coefficient 1 picks an element. *)
Definition unit_vector (n i : nat) : list (Fr E) := <[i := fr_one]> (repeat fr_zero n).

Lemma combination_zeros n v : combination (repeat fr_zero n) v = zero.
Proof.
  unfold combination, lincomb. revert v. induction n as [|n IH]; intros [|p v]; try done.
  cbn [repeat]. rewrite !fmap_cons. cbn [zip zip_with]. rewrite fmap_cons, sum_cons.
  cbn [fst snd]. by rewrite to_repr_zero, times_0, zero_add, IH.
Qed.
Lemma combination_unit n i v p : v !! i = Some p → i < n → combination (unit_vector n i) v = p.
Proof.
  unfold unit_vector. revert n v. induction i as [|i IH]; intros [|n] [|q v] Hi Hn; try lia; try done.
  - simpl in Hi. injection Hi as ->. unfold combination. cbn [repeat]. csimpl.
    unfold lincomb. rewrite fmap_cons, sum_cons. cbn [fst snd].
    rewrite to_repr_one, times_1.
    change (sum _) with (combination (repeat (fr_zero : Fr E) n) v). by rewrite combination_zeros, add_zero.
  - cbn [repeat]. csimpl. unfold combination in *. rewrite fmap_cons. cbn [zip zip_with].
    unfold lincomb in *. rewrite fmap_cons, sum_cons. cbn [fst snd].
    rewrite to_repr_zero, times_0, zero_add. apply IH; [done | lia].
Qed.
End progressions.

(** The generator can yield any sequence of scalars. *)
Definition full_randomness (E : PairingEngine) `{!Randomness E} : Prop :=
  ∀ l, ∃ rng rng', draw (length l) rand_scalar rng = (Ok l, rng').

(** A random point is one of the subgroup; BLAKE2b has 64 bytes of output. *)
Class RandomnessLaws (E : PairingEngine) `{!Randomness E} : Prop := {
  rand_g1_in_subgroup rng : in_subgroup (rand_g1 rng).1;
  blake2b_length data : length (blake2b data) = 64;
}.

Lemma compute_g2_s_in_subgroup {E : PairingEngine} `{!Randomness E, !EngineLaws E} fuel digest (s t : G1Affine E) b h :
  compute_g2_s fuel digest s t b = Ok h → in_subgroup h ∧ h ≠ zero.
Proof.
  unfold compute_g2_s, hash_to_g2. intros H. apply bind_outcome_ok in H as (seed & _ & H).
  destruct (hash_to_g2_loop fuel (from_seed seed)) as [q|] eqn:Hq; [injection H as <-|done]. clear -EngineLaws0 Hq.
  revert Hq. generalize (from_seed seed) as rng. induction fuel as [|fuel IH]; intros rng Hq; [done|].
  cbn [hash_to_g2_loop] in Hq. destruct (draw _ _ rng) as [drawn rng1].
  destruct (from_random_bytes _) as [p|]; [|by apply (IH rng1)].
  destruct (is_zero (mul_by_cofactor p)) eqn:Hz; [by apply (IH rng1)|]. injection Hq as <-.
  split; [apply cofactor_in_subgroup|]. by apply bool_decide_eq_false_1 in Hz.
Qed.

Section soundness.
Context {E : PairingEngine} `{!Randomness E, !EngineLaws E}.

(** The random check of a power progression is complete and sound: points
    in which each is [x] times the one before pass with any random
    coefficients, and points of the subgroup that pass with all random
    coefficients are such a progression. *)
Theorem power_check_exact (v : list (G1Affine E)) (g : G2Affine E) (x : Fr E) (err : string)
    (Hv : v ≠ []) (Hsize : (len v < 2 ^ 32)%N) (Hrandom : full_randomness E)
    (Hsub : Forall in_subgroup v) (Hg : in_subgroup g) (Hnz : g ≠ zero) :
  geometric x v ↔
  ∀ rng, (let! pairs := power_pairs v in lift (check_same_ratio pairs (g, mul g x) err)) rng =
         (Ok tt, (power_pairs v rng).2).
Proof.
  assert (∀ s t : G1Affine E, in_subgroup s → check_same_ratio (s, t) (g, mul g x) err = Ok tt ↔
            pairing (mul s x) g = pairing t g) as Hratio.
  { intros s t Hs. unfold check_same_ratio. cbn [fst snd]. rewrite <-pairing_mul by done. case_bool_decide; done. }
  split.
  - intros Hx rng. destruct (power_pairs_geometric x v rng Hv Hsize Hx) as (s & rng' & Hp & Hs).
    unfold bind, lift. rewrite Hp. by rewrite (proj2 (Hratio s (mul s x) (Hs Hsub))).
  - intros Hall. unfold geometric. apply list_eq. intros i.
    destruct (decide (i < length v - 1)) as [Hi|Hi].
    2: { rewrite !lookup_ge_None_2; [done | rewrite length_fmap, length_take; lia | rewrite length_drop; lia]. }
    destruct (Hrandom (unit_vector (length v - 1) i)) as (rng & rng' & Hdraw).
    destruct (lookup_lt_is_Some_2 v i) as [p Hp]; [lia|].
    destruct (lookup_lt_is_Some_2 v (S i)) as [q Hq]; [lia|].
    specialize (Hall rng). rewrite power_pairs_slices in Hall by done.
    destruct (merge_pairs_ok (take (length v - 1) v) (list.drop 1 v) rng) as (rs & rng1 & Hdraw' & Hm).
    { rewrite length_take, length_drop. lia. }
    { unfold len in *. rewrite length_take. lia. }
    unfold unit_vector in Hdraw at 1. rewrite length_insert, repeat_length in Hdraw.
    rewrite length_take, Nat.min_l, Hdraw in Hdraw' by lia. injection Hdraw' as <- _.
    unfold bind, lift in Hall. rewrite power_pairs_slices in Hall by done. rewrite Hm in Hall.
    rewrite (combination_unit _ _ _ p), (combination_unit _ _ _ q) in Hall;
      [|by rewrite lookup_drop | done | rewrite lookup_take_lt by lia; done | done].
    injection Hall as Hall. apply Hratio in Hall; [|by eapply (Forall_lookup_1 _ v)]. apply pairing_inj in Hall; try done.
    + rewrite lookup_drop, list_lookup_fmap, lookup_take_lt by lia.
      change (1 + i) with (S i). rewrite Hp, Hq. simpl. by rewrite Hall.
    + apply mul_in_subgroup. by eapply (Forall_lookup_1 _ v).
    + by eapply (Forall_lookup_1 _ v).
Qed.
End soundness.

(** ** Randomness of the toy engine *)

(** The generator is the list of what is still to come, then ones for ever. *)
Definition toy_pop (rng : list Toy.Z5) : Toy.Z5 * list Toy.Z5 :=
  match rng with x :: rng => (x, rng) | [] => (Toy.Z1, []) end.

Definition toy_randomness : Randomness Toy.engine := {|
  Rng := list Toy.Z5;
  from_seed data := (λ b, Toy.of_N (Byte.to_N b)) <$> data;
  gen_byte rng := let '(x, rng) := toy_pop rng in (Toy.byte_of x, rng);
  rand_scalar := toy_pop : list Toy.Z5 → Fr Toy.engine * list Toy.Z5;
  rand_g1 rng := (toy_pop rng : G1Affine Toy.engine * list Toy.Z5);
  blake2b data := take 64 (reverse data ++ repeat x00 64);
  blake2s_seed data := take 32 (data ++ repeat x00 32);
  num_cpus := 2;
|}.
#[local] Existing Instance toy_randomness.
#[local] Existing Instance Toy.engine_laws.

Definition toy_rng (l : list Toy.Z5) : Rng (E := Toy.engine) := l.

Lemma toy_randomness_laws : RandomnessLaws Toy.engine.
Proof.
  split; [intros rng; by destruct (rand_g1 rng).1|].
  intros data. change (length (take 64 (reverse data ++ repeat x00 64)) = 64).
  rewrite length_take, length_app, repeat_length. lia.
Qed.
Lemma toy_full_randomness : full_randomness Toy.engine.
Proof.
  intros l. exists (toy_rng l), (toy_rng []). induction l as [|x l IH]; [done|].
  change (draw (length (x :: l)) rand_scalar (toy_rng (x :: l))) with
    ((let! r := draw (length l) rand_scalar in ret (x :: r)) (toy_rng l)).
  unfold bind. by rewrite IH.
Qed.

Lemma power_check_exact_witness :
  let v : list (G1Affine Toy.engine) := [Toy.Z1; Toy.Z2; Toy.Z4] in
  let g : G2Affine Toy.engine := Toy.Z1 in
  geometric (Toy.Z2 : Fr Toy.engine) v ∧
  ∀ rng : Rng (E := Toy.engine),
    (let! pairs := power_pairs v in lift (check_same_ratio pairs (g, mul g (Toy.Z2 : Fr Toy.engine)) "")) rng =
    (Ok tt, (power_pairs v rng).2).
Proof.
  intros v g. assert (geometric (Toy.Z2 : Fr Toy.engine) v) as Hx by done. split; [exact Hx|].
  assert (Forall in_subgroup v) as Hsub by (repeat constructor).
  exact (proj1 (power_check_exact v g Toy.Z2 "" ltac:(done) ltac:(done) toy_full_randomness Hsub
    ltac:(done) ltac:(done)) Hx).
Defined.
