(* ===== verification/Hashing.v ===== *)
(** * Hashing in pieces, and entropy

    [setup-utils/src/helpers.rs]: hashes of data that comes in pieces - files
    by the gigabyte, what is written through a [HashWriter] - and the sources
    of randomness.  The hash functions are parameters. *)

From S2P Require Import Prelude Environment Phase1Parameters Curve Elements MultiExp.
From Stdlib Require Import Strings.Byte.

(** [blake2::Blake2b], [sha2::Sha256] and [ChaChaRng::from_seed]. *)
Class Digests := {
  Hasher : Type;
  hasher_new : Hasher;
  hasher_update : Hasher → bytes → Hasher;
  hasher_finalize : Hasher → bytes;
  sha256 : bytes → bytes;
  ChaCha : Type;
  chacha_from_seed : bytes → ChaCha;
}.
(** Hashing in pieces is hashing the whole. *)
Class DigestsLaws `{Digests} (blake2b : bytes → bytes) : Prop :=
  hashed_in_pieces pieces : hasher_finalize (foldl hasher_update hasher_new pieces) = blake2b (concat pieces).

(** A writer, with how much of the data it takes. *)
Class Writer (W : Type) := {
  writer_write : bytes → W → outcome SetupError nat * W;
  writer_flush : W → outcome SetupError unit * W;
  writer_takes data w n w' : writer_write data w = (Ok n, w') → n ≤ length data;
}.

Section hashing.
Context `{Digests}.

(** [calculate_hash], by pieces of a gigabyte. *)
Definition calculate_hash_by (chunk_size : nat) (input_map : bytes) : bytes :=
  hasher_finalize (foldl hasher_update hasher_new (slice_chunks chunk_size input_map)).
Definition hash_of_map (input_map : bytes) : bytes := calculate_hash_by (N.to_nat (N.shiftl 1 30)) input_map.

(** [blank_hash] and [reduced_hash] *)
Definition hash_of_nothing : bytes := hasher_finalize hasher_new.
Definition reduced_hash (old_power new_power : Byte.byte) : bytes :=
  hasher_finalize (hasher_update hasher_new [old_power; new_power]).

(** [from_slice], [get_rng] and [user_system_randomness], with the bytes of the
    system and the line that is read. *)
Definition seed_from_slice (data : bytes) : setup bytes := if (length data <? 32)%nat then Panic else Ok (take 32 data).
Definition get_rng (digest : bytes) : setup ChaCha := try! seed := seed_from_slice digest in Ok (chacha_from_seed seed).
Definition user_system_randomness (system : bytes) (user_input : bytes) : bytes :=
  hasher_finalize (hasher_update (foldl (λ h r, hasher_update h [r]) hasher_new system) user_input).

(** [beacon_randomness]: 2^10 iterations. *)
Definition beacon_randomness (beacon_hash : bytes) : bytes := Nat.iter (2 ^ 10) sha256 beacon_hash.

(** [HashWriter] *)
Record HashWriter (W : Type) := MkHashWriter { hw_writer : W; hw_hasher : Hasher }.
Arguments MkHashWriter {_}.
Arguments hw_writer {_}.
Arguments hw_hasher {_}.

Section writer.
Context {W : Type} `{!Writer W}.

Definition hash_writer_new (writer : W) : HashWriter W := MkHashWriter writer hasher_new.
Definition into_hash (w : HashWriter W) : bytes := hasher_finalize (hw_hasher w).
Definition hash_writer_write (buf : bytes) : M SetupError (HashWriter W) nat := λ w,
  match writer_write buf (hw_writer w) with
  | (Ok n, writer) =>
      (Ok n, MkHashWriter writer (if (0 <? n)%nat then hasher_update (hw_hasher w) (take n buf) else hw_hasher w))
  | (Err e, writer) => (Err e, MkHashWriter writer (hw_hasher w))
  | (Panic, writer) => (Panic, MkHashWriter writer (hw_hasher w))
  end.
Definition hash_writer_flush : M SetupError (HashWriter W) unit := λ w,
  let '(o, writer) := writer_flush (hw_writer w) in (o, MkHashWriter writer (hw_hasher w)).

(** Any sequence of writes and flushes, with what the writer took. *)
Inductive hash_writes : HashWriter W → bytes → HashWriter W → Prop :=
| writes_nothing w : hash_writes w [] w
| writes_data w data buf n w1 w2 :
    hash_writes w data w1 → hash_writer_write buf w1 = (Ok n, w2) → hash_writes w (data ++ take n buf) w2
| writes_fail w data buf e w1 w2 :
    hash_writes w data w1 → hash_writer_write buf w1 = (Err e, w2) → hash_writes w data w2
| writes_flush w data o w1 w2 :
    hash_writes w data w1 → hash_writer_flush w1 = (o, w2) → hash_writes w data w2.

Context {blake2b : bytes → bytes} `{!DigestsLaws blake2b}.

(** The hash is that of the data which the writer took, whatever fails and
    however little is taken at a time. *)
Lemma hash_writer_hashes writer data w :
  hash_writes (hash_writer_new writer) data w → into_hash w = blake2b data.
Proof.
  enough (∀ w0 data w, hash_writes w0 data w → w0 = hash_writer_new writer →
    ∃ pieces, hw_hasher w = foldl hasher_update hasher_new pieces ∧ concat pieces = data) as Hall.
  { intros Hw. destruct (Hall _ _ _ Hw eq_refl) as (pieces & Hh & <-). unfold into_hash. by rewrite Hh, hashed_in_pieces. }
  clear data w. intros w0 data w. induction 1 as [w|w data buf n w1 w2 _ IH Hn|w data buf e w1 w2 _ IH Hn|w data o w1 w2 _ IH Hn]; intros Hw0.
  - exists []. by subst.
  - destruct (IH Hw0) as (pieces & Hh & Hc). unfold hash_writer_write in Hn.
    destruct (writer_write buf (hw_writer w1)) as [[k| |] writer']; [|done|done]. injection Hn as <- <-. cbn [hw_hasher].
    destruct (Nat.ltb_spec 0 k).
    + exists (pieces ++ [take k buf]). rewrite foldl_app, concat_app, Hc, Hh. cbn [foldl concat app].
      split; [done|]. by rewrite app_nil_r.
    + exists pieces. split; [done|]. replace k with 0 by lia. by rewrite take_0, app_nil_r.
  - destruct (IH Hw0) as (pieces & Hh & Hc). unfold hash_writer_write in Hn.
    destruct (writer_write buf (hw_writer w1)) as [[k| |] writer']; try done. injection Hn as _ <-. by exists pieces.
  - destruct (IH Hw0) as (pieces & Hh & Hc). unfold hash_writer_flush in Hn.
    destruct (writer_flush (hw_writer w1)) as [o' writer']. injection Hn as _ <-. by exists pieces.
Qed.

(** However large the pieces are. *)
Lemma calculate_hash_whole chunk_size data : 0 < chunk_size → calculate_hash_by chunk_size data = blake2b data.
Proof. intros Hpos. unfold calculate_hash_by. by rewrite hashed_in_pieces, concat_slice_chunks by lia. Qed.
Lemma randomness_of_all system user_input : user_system_randomness system user_input = blake2b (system ++ user_input).
Proof.
  unfold user_system_randomness.
  assert (∀ h, foldl (λ h r, hasher_update h [r]) h system = foldl hasher_update h ((λ r, [r]) <$> system)) as ->.
  { induction system as [|r system IH]; intros h; [done|]. cbn. apply IH. }
  change (hasher_update ?h user_input) with (foldl hasher_update h [user_input]).
  rewrite <-foldl_app, hashed_in_pieces, concat_app. cbn. rewrite app_nil_r. f_equal. f_equal.
  induction system as [|r system IH]; [done|]. cbn. by rewrite IH.
Qed.
End writer.
End hashing.
