(* ===== verification/Buffers.v ===== *)
(** * The buffers of an accumulator

    [phase1/src/helpers/buffers.rs]: the sections of a buffer, the batches in
    which its elements are processed, and the exponentiation of one batch.  A
    [&mut] section of a buffer is its range; the sections do not overlap, so
    the tasks of a [rayon] scope run in some order. *)

From S2P Require Import Prelude Environment Phase1Parameters Curve Elements MultiExp.

(** A slice of a buffer: its start and its length. *)
Record range := MkRange { r_start : N; r_len : N }.

(** [split_at] and [split_at_mut] *)
Definition split_at (mid : N) (r : range) : setup (range * range) :=
  if (mid <=? r_len r)%N
  then Ok (MkRange (r_start r) mid, MkRange (r_start r + mid) (r_len r - mid))
  else Panic.

(** [&mut r[s..e]] *)
Definition sub_range (s e : N) (r : range) : setup range :=
  if (s <=? e)%N && (e <=? r_len r)%N then Ok (MkRange (r_start r + s) (e - s)) else Panic.

Definition empty_range : range := MkRange 0 0.

Definition view (r : range) (buffer : bytes) : bytes :=
  take (N.to_nat (r_len r)) (list.drop (N.to_nat (r_start r)) buffer).

(** A method of a section. *)
Definition within {A} (r : range) (m : on bytes A) : on bytes A := λ buffer,
  let '(o, part) := m (view r buffer) in
  (o, take (N.to_nat (r_start r)) buffer ++ part
      ++ list.drop (N.to_nat (r_start r) + N.to_nat (r_len r)) buffer).

(** [SplitBuf] and [SplitBufMut]: [TauG1, TauG2, AlphaG1, BetaG1, BetaG2]. *)
Record SplitBuf := MkSplitBuf { sb_tau_g1 : range; sb_tau_g2 : range; sb_alpha_g1 : range;
                                sb_beta_g1 : range; sb_beta_g2 : range }.

Section buffers.
Context (E : PairingEngine).
Notation G1 := (G1Affine E).
Notation G2 := (G2Affine E).
Implicit Types (p : Phase1Parameters) (c : UseCompression).

(** The sections, given how many elements each of the first four has. *)
Definition split_groth16 p c (total n_tau_g1 n_tau_g2 n_alpha n_beta : N) : setup SplitBuf :=
  let g1_size := buffer_size G1 c in
  let g2_size := buffer_size G2 c in
  try! x := split_at (hash_size p) (MkRange 0 total) in
  try! x := split_at (usize_mul g1_size n_tau_g1) (snd x) in
  let tau_g1 := fst x in
  try! x := split_at (usize_mul g2_size n_tau_g2) (snd x) in
  let tau_g2 := fst x in
  try! x := split_at (usize_mul g1_size n_alpha) (snd x) in
  let alpha_g1 := fst x in
  try! x := split_at (usize_mul g1_size n_beta) (snd x) in
  let beta_g1 := fst x in
  try! beta_g2 := sub_range 0 g2_size (snd x) in
  Ok (MkSplitBuf tau_g1 tau_g2 alpha_g1 beta_g1 beta_g2).

Definition split_marlin p c (total n_tau_g1 : N) : setup SplitBuf :=
  let g1_size := buffer_size G1 c in
  let g2_size := buffer_size G2 c in
  let '(g2_chunk_size, alpha_chunk_size) :=
    if (p1_chunk_index p =? 0)%N
    then (usize_add (total_size_in_log2 p) 2, usize_add 3 (usize_mul 3 (total_size_in_log2 p)))
    else (0, 0)%N in
  try! x := split_at (hash_size p) (MkRange 0 total) in
  try! x := split_at (usize_mul g1_size n_tau_g1) (snd x) in
  let tau_g1 := fst x in
  try! x := split_at (usize_mul g2_size g2_chunk_size) (snd x) in
  let tau_g2 := fst x in
  try! x := split_at (usize_mul g1_size alpha_chunk_size) (snd x) in
  Ok (MkSplitBuf tau_g1 tau_g2 (fst x) empty_range empty_range).

(** [split_mut], on a buffer of [total] bytes. *)
Definition split_mut p c (total : N) : setup SplitBuf :=
  match p1_proving_system p with
  | Groth16 => split_groth16 p c total (g1_chunk_size p) (other_chunk_size p) (other_chunk_size p)
                 (other_chunk_size p)
  | Marlin => split_marlin p c total (g1_chunk_size p)
  end.

(** [split]: as [split_mut], and the powers of tau in G1 must not be empty. *)
Definition split p c (total : N) : setup SplitBuf :=
  try! s := split_mut p c total in
  if (0 <? r_len (sb_tau_g1 s))%N then Ok s else Panic.

(** [buffer_to_chunk] of [split_at_chunk_mut] *)
Definition buffer_to_chunk p (r : range) (element_size : N) (is_other : bool) : setup range :=
  if is_other && (other_chunk_size p =? 0)%N then Ok empty_range
  else
    let chunk :=
      match p1_proving_system p, is_other with
      | Groth16, true => Some (other_chunk_size p)
      | Groth16, false | Marlin, false => Some (g1_chunk_size p)
      | Marlin, true => None
      end in
    match chunk with
    | None => Ok empty_range
    | Some chunk =>
        let start := usize_mul (usize_mul (p1_chunk_index p) (p1_chunk_size p)) element_size in
        let end_ := usize_add start (usize_mul chunk element_size) in
        sub_range start end_ r
    end.

(** [split_at_chunk_mut]: the place of one chunk in the buffer of the round. *)
Definition split_at_chunk_mut p c (total : N) : setup SplitBuf :=
  let g1_size := buffer_size G1 c in
  let g2_size := buffer_size G2 c in
  match p1_proving_system p with
  | Groth16 =>
      try! s := split_groth16 p c total (powers_g1_length p) (powers_length p) (powers_length p)
                  (powers_length p) in
      try! tau_g1 := buffer_to_chunk p (sb_tau_g1 s) g1_size false in
      try! tau_g2 := buffer_to_chunk p (sb_tau_g2 s) g2_size true in
      try! alpha_g1 := buffer_to_chunk p (sb_alpha_g1 s) g1_size true in
      try! beta_g1 := buffer_to_chunk p (sb_beta_g1 s) g1_size true in
      Ok (MkSplitBuf tau_g1 tau_g2 alpha_g1 beta_g1 (sb_beta_g2 s))
  | Marlin =>
      try! s := split_marlin p c total (powers_length p) in
      try! tau_g1 := buffer_to_chunk p (sb_tau_g1 s) g1_size false in
      Ok (MkSplitBuf tau_g1 (sb_tau_g2 s) (sb_alpha_g1 s) empty_range empty_range)
  end.

(** ** Batches *)

(** The range of [iter_chunk]. *)
Definition iter_bounds p : N * N :=
  let upper_bound := match p1_proving_system p with
                     | Groth16 => powers_g1_length p | Marlin => powers_length p end in
  match p1_contribution_mode p with
  | Chunked => (usize_mul (p1_chunk_index p) (p1_chunk_size p),
                N.min (usize_mul (usize_add (p1_chunk_index p) 1) (p1_chunk_size p)) upper_bound)
  | Full => (0%N, upper_bound)
  end.

Inductive MinMaxResult := NoElements | OneElement (x : N) | MinMax (x y : N).
Definition minmax (l : list N) : MinMaxResult :=
  match l with
  | [] => NoElements
  | [x] => OneElement x
  | x :: l => MinMax (foldl N.min x l) (foldl N.max x l)
  end.

(** The elements of one batch; all batches but the last take one more, so that
    neighbours overlap. *)
Definition batch_bounds (max : N) (chunk : list N) : setup (N * N) :=
  let last := usize_sub max 1 in
  match minmax chunk with
  | MinMax s e => Ok (s, if (last <=? e)%N then usize_add e 1 else usize_add e 2)
  | OneElement s => Ok (s, if (last <=? s)%N then usize_add s 1 else usize_add s 2)
  | NoElements => Err InvalidChunk
  end.

Definition iter_chunk {S} p (action : N → N → on S unit) : on S unit :=
  let '(min, max) := iter_bounds p in
  let! cs := lift (cfg_chunks (usize_sub (p1_batch_size p) 1) (u64_range min max)) in
  for_each (λ chunk,
    let! batch := lift (batch_bounds max chunk) in
    action (fst batch) (snd batch)) cs.

(** [apply_powers], on the output section. *)
Definition apply_powers {C : AffineCurve (Fr E)} (output_compressed : UseCompression)
    (input : bytes) (input_compressed : UseCompression) (check : CheckForCorrectness)
    (s e : N) (powers : list (Fr E)) (coeff : option (Fr E)) : on bytes unit :=
  let in_size := buffer_size C input_compressed in
  let out_size := buffer_size C output_compressed in
  let! data := lift (slice (usize_mul s in_size) (usize_mul e in_size) input) in
  let! elements := lift (read_batch input_compressed check data) in
  let! powers := lift (slice 0 (usize_sub e s) powers) in
  let! elements := lift (batch_exp (C := C) elements powers coeff) in
  slice_mut (usize_mul s out_size) (usize_mul e out_size) (write_batch elements output_compressed).
End buffers.

(** ** Sections *)

Lemma view_app (a b c : bytes) r :
  r = MkRange (len a) (len b) → view r (a ++ b ++ c) = b.
Proof.
  intros ->. unfold view, len. cbn [r_start r_len]. rewrite !Nat2N.id, drop_app_length.
  apply take_app_length.
Qed.
Lemma within_app {A} (m : on bytes A) o (a b c b' : bytes) r :
  r = MkRange (len a) (len b) → m b = (o, b') → within r m (a ++ b ++ c) = (o, a ++ b' ++ c).
Proof.
  intros -> Hm. unfold within. rewrite (view_app a b c) by done. rewrite Hm.
  unfold len. cbn [r_start r_len]. rewrite !Nat2N.id, take_app_length.
  rewrite <-drop_drop, drop_app_length, drop_app_length. done.
Qed.
Lemma within_empty {A} (m : on bytes A) o data : m [] = (o, []) → within empty_range m data = (o, data).
Proof.
  intros H. unfold within. change (view empty_range data) with (@nil Byte.byte). by rewrite H.
Qed.

Lemma split_at_ok (mid s n : N) : (mid ≤ n)%N → split_at mid (MkRange s n) = Ok (MkRange s mid, MkRange (s + mid) (n - mid)).
Proof. intros H. unfold split_at. simpl. by rewrite (proj2 (N.leb_le _ _)). Qed.
Lemma sub_range_ok s e a n : (s ≤ e ≤ n)%N → sub_range s e (MkRange a n) = Ok (MkRange (a + s) (e - s)).
Proof. intros [H1 H2]. unfold sub_range. simpl. by rewrite !(proj2 (N.leb_le _ _)). Qed.

(** ** Ranges of numbers *)

Lemma u64_range_nil a b : (b ≤ a)%N → u64_range a b = [].
Proof. intros. unfold u64_range. by replace (N.to_nat (b - a)) with 0 by lia. Qed.
Lemma u64_range_split a b k :
  (a + N.of_nat k ≤ b)%N → u64_range a b = u64_range a (a + N.of_nat k) ++ u64_range (a + N.of_nat k) b.
Proof.
  intros H. unfold u64_range. replace (N.to_nat (b - a)) with (k + N.to_nat (b - (a + N.of_nat k))) by lia.
  rewrite seq_app, fmap_app. replace (N.to_nat (a + N.of_nat k - a)) with k by lia. f_equal.
  apply list_eq. intros i. rewrite !list_lookup_fmap.
  destruct (decide (i < N.to_nat (b - (a + N.of_nat k)))).
  - rewrite !lookup_seq_lt by lia. simpl. f_equal. lia.
  - rewrite !lookup_seq_ge by lia. done.
Qed.
Lemma u64_range_take a b k :
  (a + N.of_nat k ≤ b)%N → take k (u64_range a b) = u64_range a (a + N.of_nat k).
Proof.
  intros H. rewrite (u64_range_split a b k) by done. apply take_app_length'.
  rewrite u64_range_length. lia.
Qed.
Lemma u64_range_drop a b k :
  list.drop k (u64_range a b) = u64_range (a + N.of_nat k) b.
Proof.
  destruct (decide (a + N.of_nat k ≤ b)%N).
  - rewrite (u64_range_split a b k) by done. apply drop_app_length'. rewrite u64_range_length. lia.
  - rewrite (u64_range_nil (a + _)) by lia. apply drop_ge. rewrite u64_range_length. lia.
Qed.

(** ** The batches *)

Lemma foldl_min_ge x l : Forall (λ y, x ≤ y)%N l → foldl N.min x l = x.
Proof. induction 1 as [|y l Hy _ IH]; [done|]. simpl. by rewrite N.min_l. Qed.
Lemma foldl_max_range x n :
  foldl N.max x (u64_range (x + 1) (x + 1 + N.of_nat n)) = (x + N.of_nat n)%N.
Proof.
  induction n as [|n IH]; [rewrite u64_range_nil by lia; simpl; lia|].
  rewrite u64_range_snoc, foldl_app, IH. simpl. lia.
Qed.
Lemma minmax_range a n :
  minmax (u64_range a (a + N.of_nat (S n))) =
    if (n =? 0)%nat then OneElement a else MinMax a (a + N.of_nat n).
Proof.
  rewrite (u64_range_split a _ 1) by lia.
  assert (u64_range a (a + N.of_nat 1) = [a]) as ->.
  { unfold u64_range. replace (N.to_nat (a + N.of_nat 1 - a)) with 1 by lia. simpl. f_equal. lia. }
  destruct n as [|n]; [by rewrite u64_range_nil by lia|].
  rewrite (u64_range_split (a + N.of_nat 1) _ 1) by lia.
  assert (u64_range (a + N.of_nat 1) (a + N.of_nat 1 + N.of_nat 1) = [a + 1]%N) as ->.
  { unfold u64_range. replace (N.to_nat _) with 1 by lia. simpl. f_equal. lia. }
  cbn [app minmax Nat.eqb]. f_equal.
  - apply foldl_min_ge. constructor; [lia|]. apply Forall_forall. intros y Hy.
    apply elem_of_u64_range in Hy. lia.
  - cbn [foldl]. replace (N.max a (a + 1)) with (a + 1)%N by lia.
    pose proof (foldl_max_range (a + 1) n) as H.
    replace (a + N.of_nat 1 + N.of_nat 1)%N with (a + 1 + 1)%N by lia.
    replace (a + N.of_nat (S (S n)))%N with (a + 1 + 1 + N.of_nat n)%N by lia.
    rewrite H. lia.
Qed.
Lemma batch_bounds_range max a b :
  (a < b ≤ max)%N → (max < 2 ^ 63)%N →
  batch_bounds max (u64_range a b) = Ok (a, N.min max (b + 1)).
Proof.
  intros H Hmax. change (2 ^ 63)%N with 9223372036854775808%N in Hmax.
  replace b with (a + N.of_nat (S (N.to_nat (b - a - 1))))%N at 1 by lia.
  unfold batch_bounds. rewrite minmax_range.
  rewrite u64_sub_exact by (change u64_modulus with 18446744073709551616%N; lia).
  destruct (Nat.eqb_spec (N.to_nat (b - a - 1)) 0);
    (destruct (N.leb_spec (max - 1) a) || idtac);
    try destruct (N.leb_spec (max - 1) (a + N.of_nat (N.to_nat (b - a - 1))));
    rewrite !u64_add_exact by (change u64_modulus with 18446744073709551616%N; lia);
    do 2 f_equal; lia.
Qed.

Section batches.
Context (p : Phase1Parameters) (lo hi : N).
Hypothesis bounds : iter_bounds p = (lo, hi).
Hypothesis hi_small : (hi < 2 ^ 63)%N.
Hypothesis batch : (2 ≤ p1_batch_size p < 2 ^ 63)%N.

Notation step := (p1_batch_size p - 1)%N.

(** A batch [s, e) is processed when the elements below [k] are done: the
    first batch starts where nothing is done, the others one element back. *)
Definition next_batch (k s e : N) : Prop :=
  (lo ≤ s)%N ∧ (s < e ≤ hi)%N ∧ (s ≤ k ≤ e)%N ∧ (e - s ≤ p1_batch_size p)%N ∧
  (e = hi ∨ e - s = p1_batch_size p)%N ∧
  ((s = lo ∧ k = lo) ∨ k = s + 1)%N.

(** The batches in their order, from [k] elements done to [k'] done. *)
Inductive batch_chain : N → list (N * N) → N → Prop :=
| chain_nil k : batch_chain k [] k
| chain_cons k s e bs k' : next_batch k s e → batch_chain e bs k' → batch_chain k ((s, e) :: bs) k'.

(** [iter_chunk] is a loop over such a chain. *)
Lemma iter_chunk_batches :
  (lo < hi)%N → ∃ bs, batch_chain lo bs hi ∧
    ∀ (S : Type) (action : N → N → on S unit) st,
      iter_chunk p action st = for_each (λ b, action (fst b) (snd b)) bs st.
Proof.
  intros Hlo. change (2 ^ 63)%N with 9223372036854775808%N in *.
  assert (∀ n s k, N.to_nat (hi - s) ≤ n → (lo ≤ s)%N →
    ((s < hi)%N → (s = lo ∧ k = lo) ∨ k = s + 1)%N → ((hi ≤ s)%N → k = hi) →
    ∃ bs, batch_chain k bs hi ∧ ∀ (S : Type) (action : N → N → on S unit) st,
      for_each (λ chunk, let! b := lift (batch_bounds hi chunk) in action (fst b) (snd b))
        (slice_chunks (N.to_nat step) (u64_range s hi)) st = for_each (λ b, action (fst b) (snd b)) bs st) as Hloop.
  2: { destruct (Hloop (N.to_nat (hi - lo)) lo lo) as (bs & Hbs & Hrun); try done; [left; done | lia|].
       exists bs. split; [done|]. intros S action st. unfold iter_chunk. rewrite bounds.
       rewrite u64_sub_exact by (change u64_modulus with 18446744073709551616%N; lia).
       unfold cfg_chunks. rewrite (proj2 (N.eqb_neq _ 0)) by lia. unfold bind at 1, lift at 1. apply Hrun. }
  intros n. induction n as [n IH] using lt_wf_ind. intros s k Hn Hs Hk Hk'.
  destruct (N.le_gt_cases hi s) as [Hge|Hlt].
  - exists []. rewrite (Hk' Hge). split; [constructor|]. intros S action st. by rewrite u64_range_nil by done.
  - specialize (Hk Hlt). set (e := N.min hi (N.min hi (s + step) + 1)).
    destruct (IH (N.to_nat (hi - (s + step))) ltac:(lia) (s + step)%N e) as (bs & Hbs & Hrun);
      [lia | lia | subst e; lia | subst e; lia|].
    exists ((s, e) :: bs). split.
    { constructor; [|done]. subst e. unfold next_batch. lia. }
    intros S action st. rewrite slice_chunks_cons; [|lia|].
    2: { intros Hnil. apply (f_equal length) in Hnil. rewrite u64_range_length in Hnil. simpl in Hnil. lia. }
    rewrite u64_range_drop, N2Nat.id.
    assert (take (N.to_nat step) (u64_range s hi) = u64_range s (N.min hi (s + step))) as ->.
    { destruct (N.le_gt_cases (s + step) hi).
      - rewrite u64_range_take by lia. f_equal. lia.
      - rewrite take_ge by (rewrite u64_range_length; lia). f_equal. lia. }
    cbn [for_each]. unfold bind at 1 2 4, lift at 1.
    rewrite batch_bounds_range by (change (2 ^ 63)%N with 9223372036854775808%N; lia). cbn [fst snd].
    fold e. destruct (action s e st) as [[[]| |] st1]; [|done|done]. apply Hrun.
Qed.

(** What holds after each batch holds at the end. *)
Lemma batch_chain_inv {S} (action : N → N → on S unit) (I : N → S → Prop) k bs k' st :
  batch_chain k bs k' → I k st →
  (∀ k s e st, next_batch k s e → I k st → ∃ st', action s e st = (Ok tt, st') ∧ I e st') →
  ∃ st', for_each (λ b, action (fst b) (snd b)) bs st = (Ok tt, st') ∧ I k' st'.
Proof.
  intros Hbs H0 Hstep. revert st H0. induction Hbs as [k|k s e bs k' Hb Hbs IH]; intros st H0.
  - by exists st.
  - destruct (Hstep k s e st Hb H0) as (st1 & Hact & H1). destruct (IH st1 H1) as (st' & Hrun & H').
    exists st'. split; [|done]. cbn [for_each fst snd]. unfold bind. by rewrite Hact.
Qed.
Lemma iter_chunk_inv {S} (action : N → N → on S unit) (I : N → S → Prop) st :
  (lo < hi)%N → I lo st →
  (∀ k s e st, next_batch k s e → I k st → ∃ st', action s e st = (Ok tt, st') ∧ I e st') →
  ∃ st', iter_chunk p action st = (Ok tt, st') ∧ I hi st'.
Proof.
  intros Hlo H0 Hstep. destruct (iter_chunk_batches Hlo) as (bs & Hbs & Hrun).
  rewrite Hrun. by apply (batch_chain_inv action I lo).
Qed.

(** Every element is in a batch, and so is every pair of neighbours. *)
Lemma batch_chain_covers k bs k' (i : N) :
  batch_chain k bs k' → (k ≤ i < k')%N → ∃ k0 s e, (s, e) ∈ bs ∧ next_batch k0 s e ∧ (s ≤ i < e)%N.
Proof.
  induction 1 as [k|k s e bs k' Hb Hbs IH]; intros Hi; [lia|].
  destruct (N.lt_ge_cases i e).
  - exists k, s, e. split; [by left|]. split; [done|]. destruct Hb. lia.
  - destruct IH as (k0 & s' & e' & Hin & ? & ?); [lia|]. exists k0, s', e'. split; [by right|]. done.
Qed.
Lemma batch_chain_neighbours k bs k' (i : N) :
  batch_chain k bs k' → ((k ≤ i ∨ k = i + 1 ∧ lo < k) ∧ i + 1 < k')%N →
  ∃ k0 s e, (s, e) ∈ bs ∧ next_batch k0 s e ∧ (s ≤ i ∧ i + 1 < e)%N.
Proof.
  induction 1 as [k|k s e bs k' Hb Hbs IH]; intros Hi; [lia|].
  destruct (N.lt_ge_cases (i + 1) e).
  - exists k, s, e. split; [by left|]. split; [done|]. destruct Hb as (? & ? & ? & ? & ? & [?|?]); lia.
  - destruct IH as (k0 & s' & e' & Hin & ? & ?).
    { destruct Hb as (? & ? & ? & ? & ? & ?). lia. }
    exists k0, s', e'. split; [by right|]. done.
Qed.
End batches.

(** C30. The batches of a chunk cover it in order: the first starts at its
    first element, the last ends at its last, each has at most the batch size
    and shares exactly one element with the next, so that every ratio of
    neighbours lies in one batch. *)
Theorem iter_chunk_covers (p : Phase1Parameters) (lo hi : N)
    (Hbounds : iter_bounds p = (lo, hi)) (Hpos : (lo < hi)%N) (Hsmall : (hi < 2 ^ 63)%N)
    (Hbatch : (2 ≤ p1_batch_size p < 2 ^ 63)%N) :
  ∃ batches, iter_chunk p (λ s e, modify (λ l, l ++ [(s, e)])) [] = (Ok tt, batches) ∧
    Forall (λ b, fst b < snd b ∧ snd b - fst b ≤ p1_batch_size p)%N batches ∧
    fst <$> head batches = Some lo ∧ snd <$> last batches = Some hi ∧
    (∀ i b b', batches !! i = Some b → batches !! S i = Some b' → snd b = fst b' + 1)%N.
Proof.
  set (I := λ (k : N) (l : list (N * N)),
    Forall (λ b, lo ≤ fst b ∧ fst b < snd b ∧ snd b - fst b ≤ p1_batch_size p)%N l ∧
    match l with [] => k = lo | b :: _ => fst b = lo ∧ snd <$> last l = Some k end ∧
    (∀ i b b', l !! i = Some b → l !! S i = Some b' → snd b = fst b' + 1)%N).
  destruct (iter_chunk_inv p lo hi Hbounds Hsmall Hbatch (λ s e, modify (λ l, l ++ [(s, e)])) I [])
    as (l & Hl & Hall & Hends & Hnext); [done | by split_and! | |].
  - intros k s e l (Hlo & Hse & Hk & Hsize & _ & Hstart) (Hall & Hends & Hnext).
    eexists. split; [done|]. split_and!.
    + apply Forall_app_2; [done|]. repeat constructor; simpl; lia.
    + destruct l as [|b l]; simpl.
      * split; [lia|done].
      * split; [apply Hends|]. change (b :: l ++ [(s, e)]) with ((b :: l) ++ [(s, e)]). by rewrite last_snoc.
    + intros i b b' Hb Hb'. destruct (decide (S i < length l)).
      * rewrite lookup_app_l in Hb, Hb' by lia. by eapply Hnext.
      * assert (S i = length l) as Hi.
        { apply lookup_lt_Some in Hb'. rewrite length_app in Hb'. simpl in Hb'. lia. }
        rewrite lookup_app_l in Hb by lia. rewrite lookup_app_r, Hi, Nat.sub_diag in Hb' by lia.
        injection Hb' as <-. destruct l as [|b0 l]; [simpl in Hi; lia|].
        destruct Hends as [_ Hlast]. rewrite last_lookup, <-Hi in Hlast. simpl pred in Hlast.
        rewrite Hb in Hlast. injection Hlast as Hlast. simpl.
        apply (Forall_lookup_1 _ _ _ _ Hall) in Hb. lia.
  - exists l. split; [done|]. split; [by eapply Forall_impl; [exact Hall|]; intros b (_ & H)|].
    destruct l as [|b l]; [lia|].
    split_and!; try done; [simpl; f_equal|]; apply Hends.
Qed.

Definition toy_parameters (mode : ContributionMode) (index : N) (ps : ProvingSystem) : Phase1Parameters :=
  new_parameters mode index 4 (curve_parameters_new Toy.engine) ps 2 3.

Lemma iter_chunk_covers_witness :
  iter_chunk (toy_parameters Full 0 Groth16) (λ s e, modify (λ l, l ++ [(s, e)])) [] =
    (Ok tt, [(0, 3); (2, 5); (4, 7); (6, 7)]%N) ∧
  ∃ batches, iter_chunk (toy_parameters Full 0 Groth16) (λ s e, modify (λ l, l ++ [(s, e)])) [] =
      (Ok tt, batches) ∧
    Forall (λ b, fst b < snd b ∧ snd b - fst b ≤ 3)%N batches ∧
    fst <$> head batches = Some 0%N ∧ snd <$> last batches = Some 7%N ∧
    (∀ i b b', batches !! i = Some b → batches !! S i = Some b' → snd b = fst b' + 1)%N.
Proof.
  split; [by vm_compute|].
  apply (iter_chunk_covers (toy_parameters Full 0 Groth16) 0 7); by vm_compute.
Defined.
