(* ===== verification/Accumulator.v ===== *)
(** * Accumulators

    [phase1/src/helpers/accumulator.rs], [objects/public_key.rs] and
    [objects/private_key.rs]: the elements of an accumulator, reading and
    writing them whole, decompression, and the checks on batches of elements
    that verification uses. *)

From S2P Require Import Prelude Environment Phase1Parameters Curve Elements MultiExp Buffers.
From Stdlib Require Import Strings.Byte.

Section accumulator.
Context (E : PairingEngine) `{!Randomness E}.
Notation G1 := (G1Affine E).
Notation G2 := (G2Affine E).
Implicit Types (p : Phase1Parameters) (c : UseCompression).

(** The elements of [Phase1] and of [AccumulatorElements]. *)
Record Accumulator := MkAccumulator {
  tau_powers_g1 : list G1;
  tau_powers_g2 : list G2;
  alpha_tau_powers_g1 : list G1;
  beta_tau_powers_g1 : list G1;
  beta_g2 : G2;
}.

Record PublicKey := MkPublicKey {
  pk_tau_g1 : G1 * G1;
  pk_alpha_g1 : G1 * G1;
  pk_beta_g1 : G1 * G1;
  pk_tau_g2 : G2;
  pk_alpha_g2 : G2;
  pk_beta_g2 : G2;
}.

Record PrivateKey := MkPrivateKey { tau : Fr E; alpha : Fr E; beta : Fr E }.

(** ** Reading and writing whole accumulators *)

Definition serialize_accumulator (elements : Accumulator) p c : on bytes unit := λ output,
  (let! s := lift (split_mut E p c (len output)) in
   within (sb_tau_g1 s) (write_batch (tau_powers_g1 elements) c) ;;;
   within (sb_tau_g2 s) (write_batch (tau_powers_g2 elements) c) ;;;
   within (sb_alpha_g1 s) (write_batch (alpha_tau_powers_g1 elements) c) ;;;
   within (sb_beta_g1 s) (write_batch (beta_tau_powers_g1 elements) c) ;;;
   match p1_proving_system p with
   | Groth16 => within (sb_beta_g2 s) (write_element (beta_g2 elements) c)
   | Marlin => ret tt
   end) output.

Definition deserialize_accumulator p c (check : CheckForCorrectness) (input : bytes) : setup Accumulator :=
  try! s := split E p c (len input) in
  try! tau_g1 := read_batch c check (view (sb_tau_g1 s) input) in
  try! tau_g2 := read_batch c check (view (sb_tau_g2 s) input) in
  try! alpha_g1 := read_batch c check (view (sb_alpha_g1 s) input) in
  try! beta_g1 := read_batch c check (view (sb_beta_g1 s) input) in
  try! beta_g2 := match p1_proving_system p with
                  | Groth16 => read_element c check (view (sb_beta_g2 s) input)
                  | Marlin => Ok prime_subgroup_generator
                  end in
  Ok (MkAccumulator tau_g1 tau_g2 alpha_g1 beta_g1 beta_g2).

(** [decompress_buffer], on the output section. *)
Definition decompress_buffer {C : AffineCurve (Fr E)} (input : bytes) (check : CheckForCorrectness)
    (s e : N) : on bytes unit :=
  let in_size := buffer_size C CompressionYes in
  let out_size := buffer_size C CompressionNo in
  let! data := lift (slice (usize_mul s in_size) (usize_mul e in_size) input) in
  let! elements := lift (read_batch (C := C) CompressionYes check data) in
  slice_mut (usize_mul s out_size) (usize_mul e out_size) (write_batch elements CompressionNo).

Definition decompress p (check : CheckForCorrectness) (input : bytes) : on bytes unit := λ output,
  (let! i := lift (split E p CompressionYes (len input)) in
   let! o := lift (split_mut E p CompressionNo (len output)) in
   match p1_proving_system p with
   | Groth16 =>
       let! beta_g2_el := lift (read_element (C := G2) CompressionYes check (view (sb_beta_g2 i) input)) in
       within (sb_beta_g2 o) (write_element beta_g2_el CompressionNo) ;;;
       expect (within (sb_tau_g1 o)
         (decompress_buffer (C := G1) (view (sb_tau_g1 i) input) check 0 (g1_chunk_size p))) ;;;
       if (0 <? other_chunk_size p)%N then
         expect (within (sb_tau_g2 o)
           (decompress_buffer (C := G2) (view (sb_tau_g2 i) input) check 0 (other_chunk_size p))) ;;;
         expect (within (sb_alpha_g1 o)
           (decompress_buffer (C := G1) (view (sb_alpha_g1 i) input) check 0 (other_chunk_size p))) ;;;
         expect (within (sb_beta_g1 o)
           (decompress_buffer (C := G1) (view (sb_beta_g1 i) input) check 0 (other_chunk_size p)))
       else ret tt
   | Marlin =>
       (if (p1_chunk_index p =? 0)%N
           || match p1_contribution_mode p with Full => true | Chunked => false end
        then
          within (sb_alpha_g1 o) (decompress_buffer (C := G1) (view (sb_alpha_g1 i) input) check 0
            (usize_add 3 (usize_mul 3 (total_size_in_log2 p)))) ;;;
          within (sb_tau_g2 o) (decompress_buffer (C := G2) (view (sb_tau_g2 i) input) check 0
            (usize_add (total_size_in_log2 p) 2))
        else ret tt) ;;;
       expect (within (sb_tau_g1 o)
         (decompress_buffer (C := G1) (view (sb_tau_g1 i) input) check 0 (g1_chunk_size p)))
   end) output.

(** ** Public keys *)

(** The derived [CanonicalSerialize]: the fields in their order, compressed. *)
Definition public_key_bytes (key : PublicKey) : bytes :=
  serialize CompressionYes (fst (pk_tau_g1 key)) ++ serialize CompressionYes (snd (pk_tau_g1 key)) ++
  serialize CompressionYes (fst (pk_alpha_g1 key)) ++ serialize CompressionYes (snd (pk_alpha_g1 key)) ++
  serialize CompressionYes (fst (pk_beta_g1 key)) ++ serialize CompressionYes (snd (pk_beta_g1 key)) ++
  serialize CompressionYes (pk_tau_g2 key) ++ serialize CompressionYes (pk_alpha_g2 key) ++
  serialize CompressionYes (pk_beta_g2 key).

(** The derived [CanonicalDeserialize]: one element, and what follows it. *)
Definition take_element {C : AffineCurve (Fr E)} (data : bytes) : setup (C * bytes) :=
  try! el := read_element CompressionYes CheckNo data in
  Ok (el, list.drop (N.to_nat (buffer_size C CompressionYes)) data).
Definition parse_public_key (data : bytes) : setup PublicKey :=
  try! x := take_element (C := G1) data in let '(t1, data) := x in
  try! x := take_element (C := G1) data in let '(t2, data) := x in
  try! x := take_element (C := G1) data in let '(a1, data) := x in
  try! x := take_element (C := G1) data in let '(a2, data) := x in
  try! x := take_element (C := G1) data in let '(b1, data) := x in
  try! x := take_element (C := G1) data in let '(b2, data) := x in
  try! x := take_element (C := G2) data in let '(t, data) := x in
  try! x := take_element (C := G2) data in let '(a, data) := x in
  try! x := take_element (C := G2) data in let '(b, _) := x in
  Ok (MkPublicKey (t1, t2) (a1, a2) (b1, b2) t a b).

(** Where the key of a contribution starts. *)
Definition public_key_position p c : N := get_length p c.

(** [PublicKey::write] and [PublicKey::read] *)
Definition public_key_write (key : PublicKey) p c : on bytes unit := λ output,
  slice_mut (public_key_position p c) (len output) (write_all (public_key_bytes key)) output.
Definition public_key_read p c (input : bytes) : setup PublicKey :=
  try! data := slice (public_key_position p c) (len input) input in
  parse_public_key data.

(** ** Checks *)

(** [compute_g2_s_key] *)
Definition compute_g2_s_key (fuel : nat) (key : PublicKey) (digest : bytes) : setup (G2 * G2 * G2) :=
  try! tau := compute_g2_s fuel digest (fst (pk_tau_g1 key)) (snd (pk_tau_g1 key)) x00 in
  try! alpha := compute_g2_s fuel digest (fst (pk_alpha_g1 key)) (snd (pk_alpha_g1 key)) x01 in
  try! beta := compute_g2_s fuel digest (fst (pk_beta_g1 key)) (snd (pk_beta_g1 key)) x02 in
  Ok (tau, alpha, beta).

(** Reading the elements [s..e] into the front of [elements]. *)
Definition read_into {C : AffineCurve (Fr E)} (buffer : bytes) c (check : CheckForCorrectness)
    (s e : N) (elements : list C) : setup (list C) :=
  let size := buffer_size C c in
  try! data := slice (usize_mul s size) (usize_mul e size) buffer in
  try! target := slice 0 (usize_sub e s) elements in
  try! read := read_batch_preallocated target c check data in
  Ok (read ++ list.drop (length read) elements).

Definition check_power_ratios (buffer : bytes) c (check : CheckForCorrectness) (s e : N)
    (elements : list G1) (ratio : G2 * G2) : on Rng unit :=
  let! elements := lift (read_into buffer c check s e elements) in
  let! v := lift (slice 0 (usize_sub e s) elements) in
  let! pairs := power_pairs v in
  lift (check_same_ratio pairs ratio "Power pairs").

Definition check_power_ratios_g2 (buffer : bytes) c (check : CheckForCorrectness) (s e : N)
    (elements : list G2) (ratio : G1 * G1) : on Rng unit :=
  let! elements := lift (read_into buffer c check s e elements) in
  let! v := lift (slice 0 (usize_sub e s) elements) in
  let! pairs := power_pairs v in
  lift (check_same_ratio ratio pairs "Power pairs").

Definition check_elements_are_nonzero_and_in_prime_order_subgroup {C : AffineCurve (Fr E)}
    (buffer : bytes) c (s e : N) (elements : list C) : setup unit :=
  try! elements := read_into buffer c CheckFull s e elements in
  if forallb (λ el, is_zero (mul_bits el (MODULUS (Fr E)))) elements then Ok tt else Err IncorrectSubgroup.

Definition read_initial_elements_with_amount {C : AffineCurve (Fr E)} (buffer : bytes) (amount : N) c
    (check : CheckForCorrectness) : setup (list C) :=
  try! data := slice 0 (usize_mul amount (buffer_size C c)) buffer in
  try! result := read_batch c check data in
  if negb (len result =? amount)%N then Err (InvalidLength amount (len result)) else Ok result.
Definition read_initial_elements {C : AffineCurve (Fr E)} (buffer : bytes) c
    (check : CheckForCorrectness) : setup (list C) :=
  read_initial_elements_with_amount buffer 2 c check.
End accumulator.
Arguments tau_powers_g1 {_}.
Arguments tau_powers_g2 {_}.
Arguments alpha_tau_powers_g1 {_}.
Arguments beta_tau_powers_g1 {_}.
Arguments beta_g2 {_}.
Arguments MkAccumulator {_}.
Arguments MkPublicKey {_}.
Arguments pk_tau_g1 {_}.
Arguments pk_alpha_g1 {_}.
Arguments pk_beta_g1 {_}.
Arguments pk_tau_g2 {_}.
Arguments pk_alpha_g2 {_}.
Arguments pk_beta_g2 {_}.
Arguments MkPrivateKey {_}.
Arguments tau {_}.
Arguments alpha {_}.
Arguments beta {_}.
