(* ===== verification/Phase1.v ===== *)
(** * The operations of phase 1

    [phase1/src/]: [initialization.rs], [key_generation.rs], [computation.rs],
    [verification.rs], [aggregation.rs].  The spawned tasks of a scope write
    disjoint sections or only read, and run here one after the other; a failed
    [expect] in any of them is a panic of the operation.  Spans and log
    messages are left out. *)

From S2P Require Import Prelude Environment Phase1Parameters Curve Elements MultiExp Buffers Accumulator.
From Stdlib Require Import Strings.Byte.

Section phase1.
Context (E : PairingEngine) `{!Randomness E}.
Notation G1 := (G1Affine E).
Notation G2 := (G2Affine E).
Implicit Types (p : Phase1Parameters) (c : UseCompression).

(** [Phase1::initialization] *)
Definition phase1_initialize c p : on bytes unit := λ output,
  (let! s := lift (split_mut E p c (len output)) in
   let one_g1 : G1 := prime_subgroup_generator in
   let one_g2 : G2 := prime_subgroup_generator in
   expect (within (sb_tau_g1 s) (init_element one_g1 c)) ;;;
   expect (within (sb_tau_g2 s) (init_element one_g2 c)) ;;;
   expect (within (sb_alpha_g1 s) (init_element one_g1 c)) ;;;
   expect (within (sb_beta_g1 s) (init_element one_g1 c)) ;;;
   expect (within (sb_beta_g2 s) (init_element one_g2 c))) output.

(** The closure [op] of [Phase1::key_generation]: a proof of knowledge of [x]. *)
Definition prove_knowledge (fuel : nat) (digest : bytes) (x : Fr E) (personalization : Byte.byte)
    : on Rng (G1 * G1 * G2) := λ rng,
  let '(g1_s, rng) := rand_g1 rng in
  let g1_s_x := mul g1_s x in
  (let! g2_s := lift (compute_g2_s fuel digest g1_s g1_s_x personalization) in
   let g2_s_x := mul g2_s x in
   ret (g1_s, g1_s_x, g2_s_x)) rng.

(** [Phase1::key_generation] *)
Definition key_generation (fuel : nat) (digest : bytes) : on Rng (PublicKey E * PrivateKey E) :=
  bail_if (λ _, negb (len digest =? 64)%N) with (InvalidLength 64 (len digest)) ;;;
  let! tau := (λ rng, let '(x, rng) := rand_scalar rng in (Ok x, rng)) in
  let! alpha := (λ rng, let '(x, rng) := rand_scalar rng in (Ok x, rng)) in
  let! beta := (λ rng, let '(x, rng) := rand_scalar rng in (Ok x, rng)) in
  let! pk_tau := prove_knowledge fuel digest tau x00 in
  let! pk_alpha := prove_knowledge fuel digest alpha x01 in
  let! pk_beta := prove_knowledge fuel digest beta x02 in
  ret (MkPublicKey (fst pk_tau) (fst pk_alpha) (fst pk_beta) (snd pk_tau) (snd pk_alpha) (snd pk_beta),
       MkPrivateKey tau alpha beta).

(** ** Computation *)

(** Indices within the chunk. *)
Definition in_chunk_index p (i : N) : N :=
  match p1_contribution_mode p with
  | Chunked => usize_sub i (usize_mul (p1_chunk_index p) (p1_chunk_size p))
  | Full => i
  end.

(** [end] for the elements of which there are only [powers_length]. *)
Definition other_max p : N :=
  match p1_contribution_mode p with
  | Chunked => N.min (usize_mul (usize_add (p1_chunk_index p) 1) (p1_chunk_size p)) (powers_length p)
  | Full => powers_length p
  end.
Definition other_end p (s e : N) : N :=
  if (other_max p <? usize_add s (p1_batch_size p))%N then other_max p else e.

Definition nonempty (r : range) : bool := (0 <? r_len r)%N.

(** The batch [s..e] of a Groth16 contribution. *)
Definition contribute_groth16 p ci co (check : CheckForCorrectness) (key : PrivateKey E)
    (input : bytes) (i o : SplitBuf) (s e : N) : on bytes unit :=
  let powers := generate_powers_of_tau (tau key) s e in
  assert (nonempty (sb_tau_g1 i)) ;;;
  expect (within (sb_tau_g1 o)
    (apply_powers E (C := G1) co (view (sb_tau_g1 i) input) ci check
       (in_chunk_index p s) (in_chunk_index p e) powers None)) ;;;
  if (s <? powers_length p)%N then
    let e := other_end p s e in
    let s := in_chunk_index p s in
    let e := in_chunk_index p e in
    assert (nonempty (sb_tau_g2 i)) ;;;
    expect (within (sb_tau_g2 o)
      (apply_powers E (C := G2) co (view (sb_tau_g2 i) input) ci check s e powers None)) ;;;
    assert (nonempty (sb_alpha_g1 i)) ;;;
    expect (within (sb_alpha_g1 o)
      (apply_powers E (C := G1) co (view (sb_alpha_g1 i) input) ci check s e powers (Some (alpha key)))) ;;;
    assert (nonempty (sb_beta_g1 i)) ;;;
    expect (within (sb_beta_g1 o)
      (apply_powers E (C := G1) co (view (sb_beta_g1 i) input) ci check s e powers (Some (beta key))))
  else ret tt.

(** The exponents [powers_length - 1 - 2^i + 2] of the degree bounds. *)
Definition degree_exponent p (i : N) : N :=
  u64_add (u64_sub (u64_sub (powers_length p) 1) (u64_shl1 i)) 2.
Definition degree_bound_powers p (key : PrivateKey E) : list (Fr E) :=
  (λ i, fr_pow (tau key) (degree_exponent p i)) <$> u64_range 0 (total_size_in_log2 p).

(** What a Marlin contribution does once, in the first chunk. *)
Definition contribute_marlin_first p ci co (check : CheckForCorrectness) (key : PrivateKey E)
    (input : bytes) (i o : SplitBuf) : on bytes unit :=
  let size := total_size_in_log2 p in
  let degree_bound_powers := degree_bound_powers p key in
  let g2_inverse_powers := batch_inversion degree_bound_powers in
  expect (within (sb_tau_g2 o)
    (apply_powers E (C := G2) co (view (sb_tau_g2 i) input) ci check
       2 (usize_add size 2) g2_inverse_powers None)) ;;;
  let g1_degree_powers :=
    concat ((λ f, [f; fr_mul f (tau key); fr_mul f (fr_pow (tau key) 2)]) <$> degree_bound_powers) in
  expect (within (sb_alpha_g1 o)
    (apply_powers E (C := G1) co (view (sb_alpha_g1 i) input) ci check
       3 (usize_add 3 (usize_mul 3 size)) g1_degree_powers (Some (alpha key)))) ;;;
  let num_alpha_powers := 3%N in
  expect (within (sb_alpha_g1 o)
    (apply_powers E (C := G1) co (view (sb_alpha_g1 i) input) ci check
       0 num_alpha_powers (generate_powers_of_tau (tau key) 0 num_alpha_powers) (Some (alpha key)))) ;;;
  expect (within (sb_tau_g2 o)
    (apply_powers E (C := G2) co (view (sb_tau_g2 i) input) ci check
       0 2 (generate_powers_of_tau (tau key) 0 2) None)).

(** The batch [s..e] of a Marlin contribution. *)
Definition contribute_marlin p ci co (check : CheckForCorrectness) (key : PrivateKey E)
    (input : bytes) (i o : SplitBuf) (s e : N) : on bytes unit :=
  expect (within (sb_tau_g1 o)
    (apply_powers E (C := G1) co (view (sb_tau_g1 i) input) ci check
       (in_chunk_index p s) (in_chunk_index p e) (generate_powers_of_tau (tau key) s e) None)).

(** [Phase1::computation] *)
Definition computation (input : bytes) ci co (check : CheckForCorrectness) (key : PrivateKey E) p
    : on bytes unit := λ output,
  (let! i := lift (split E p ci (len input)) in
   let! o := lift (split_mut E p co (len output)) in
   match p1_proving_system p with
   | Groth16 =>
       let! beta_g2_el := lift (read_element (C := G2) ci check (view (sb_beta_g2 i) input)) in
       within (sb_beta_g2 o) (write_element (mul beta_g2_el (beta key)) co) ;;;
       iter_chunk p (contribute_groth16 p ci co check key input i o)
   | Marlin =>
       (if (p1_chunk_index p =? 0)%N then contribute_marlin_first p ci co check key input i o
        else ret tt) ;;;
       iter_chunk p (contribute_marlin p ci co check key input i o)
   end) output.

(** ** Verification *)

(** The proofs of knowledge and the first elements: only in the first chunk,
    or without chunks. *)
Definition check_key_ratios (key : PublicKey E) (tau_g2_s alpha_g2_s beta_g2_s : G2) : setup unit :=
  try! _ := check_same_ratio (pk_tau_g1 key) (tau_g2_s, pk_tau_g2 key) "Tau G1<>G2" in
  try! _ := check_same_ratio (pk_alpha_g1 key) (alpha_g2_s, pk_alpha_g2 key) "Alpha G1<>G2" in
  check_same_ratio (pk_beta_g1 key) (beta_g2_s, pk_beta_g2 key) "Beta G1<>G2".

(** The two first elements before and after, the first being the generator. *)
Definition check_initial {C : AffineCurve (Fr E)} (element : ElementType) ci co
    (check_in check_out : CheckForCorrectness) (before after : bytes) : setup (list C * list C) :=
  try! before := read_initial_elements E before ci check_in in
  try! after := read_initial_elements E after co check_out in
  try! after_0 := index after 0 in
  if negb (bool_decide (after_0 = prime_subgroup_generator)) then Err (InvalidGenerator element)
  else Ok (before, after).

(** The reused vectors: the first elements of the next section replace those
    read before. *)
Definition check_first_elements (ci co : UseCompression) (check_in check_out : CheckForCorrectness)
    (checks : list (bytes * bytes * (G2 * G2))) (before_g1 after_g1 : list G1) : setup unit :=
  bind_outcome
    (foldl (λ state '(before, after, ratio),
       try! state := state in
       try! before_g1 := read_batch_preallocated (fst state) ci check_in before in
       try! after_g1 := read_batch_preallocated (snd state) co check_out after in
       try! before_0 := index before_g1 0 in
       try! after_0 := index after_g1 0 in
       try! _ := check_same_ratio (before_0, after_0) ratio "Before-After: alpha_g1[0] / beta_g1[0]" in
       Ok (before_g1, after_g1)) (Ok (before_g1, after_g1)) checks)
    (λ _, Ok tt).

Definition verify_initial_elements (fuel : nat) (input output : bytes) (key : PublicKey E) (digest : bytes)
    (ci co : UseCompression) (check_in check_out : CheckForCorrectness) p (i o : SplitBuf) : setup unit :=
  try! g2_s := compute_g2_s_key E fuel key digest in
  let '(tau_g2_s, alpha_g2_s, beta_g2_s) := g2_s in
  try! _ := check_key_ratios key tau_g2_s alpha_g2_s beta_g2_s in
  try! tau_g1 := check_initial (C := G1) TauG1 ci co check_in check_out
                   (view (sb_tau_g1 i) input) (view (sb_tau_g1 o) output) in
  let '(before_g1, after_g1) := tau_g1 in
  try! before_1 := index before_g1 1 in
  try! after_1 := index after_g1 1 in
  try! _ := check_same_ratio (before_1, after_1) (tau_g2_s, pk_tau_g2 key) "Before-After: tau_g1" in
  try! tau_g2 := check_initial (C := G2) TauG2 ci co check_in check_out
                   (view (sb_tau_g2 i) input) (view (sb_tau_g2 o) output) in
  let '(before_g2, after_g2) := tau_g2 in
  try! before_1 := index before_g2 1 in
  try! after_1 := index after_g2 1 in
  try! _ := check_same_ratio (pk_tau_g1 key) (before_1, after_1) "Before-After: tau_g2" in
  let alpha := (view (sb_alpha_g1 i) input, view (sb_alpha_g1 o) output, (alpha_g2_s, pk_alpha_g2 key)) in
  let beta := (view (sb_beta_g1 i) input, view (sb_beta_g1 o) output, (beta_g2_s, pk_beta_g2 key)) in
  try! _ := check_first_elements ci co check_in check_out
              (match p1_proving_system p with Groth16 => [alpha; beta] | Marlin => [alpha] end)
              before_g1 after_g1 in
  match p1_proving_system p with
  | Groth16 =>
      try! before := read_element (C := G2) ci check_in (view (sb_beta_g2 i) input) in
      try! after := read_element (C := G2) co check_out (view (sb_beta_g2 o) output) in
      check_same_ratio (pk_beta_g1 key) (before, after) "Before-After: beta_g2[0]"
  | Marlin => Ok tt
  end.

(** The elements [s..e] of a section, read into a fresh vector. *)
Definition verify_section {C : AffineCurve (Fr E)} p c (section : bytes) (s e : N) : setup unit :=
  expect' (check_elements_are_nonzero_and_in_prime_order_subgroup E section c s e
             (repeat (zero : C) (N.to_nat (p1_batch_size p)))).

(** The batch [s..e] of the elements. *)
Definition verify_batch p c (output : bytes) (o : SplitBuf) (s e : N) : setup unit :=
  try! _ := verify_section (C := G1) p c (view (sb_tau_g1 o) output) (in_chunk_index p s) (in_chunk_index p e) in
  match p1_proving_system p with
  | Groth16 =>
      if (s <? powers_length p)%N then
        let e := other_end p s e in
        let s := in_chunk_index p s in
        let e := in_chunk_index p e in
        try! _ := verify_section (C := G2) p c (view (sb_tau_g2 o) output) s e in
        try! _ := verify_section (C := G1) p c (view (sb_alpha_g1 o) output) s e in
        verify_section (C := G1) p c (view (sb_beta_g1 o) output) s e
      else Ok tt
  | Marlin =>
      if (s =? 0)%N then
        try! _ := verify_section (C := G1) p c (view (sb_alpha_g1 o) output) 0
                    (usize_add 3 (usize_mul 3 (total_size_in_log2 p))) in
        verify_section (C := G2) p c (view (sb_tau_g2 o) output) 0 (usize_add (total_size_in_log2 p) 2)
      else Ok tt
  end.

(** [Phase1::verification] *)
Definition phase1_verify (fuel : nat) (input output : bytes) (key : PublicKey E) (digest : bytes) ci co
    (check_in check_out : CheckForCorrectness) p : setup unit :=
  try! o := split E p co (len output) in
  try! _ := (if (match p1_contribution_mode p with Full => true | Chunked => false end)
                || (p1_chunk_index p =? 0)%N
             then
               try! i := split E p ci (len input) in
               verify_initial_elements fuel input output key digest ci co check_in check_out p i o
             else Ok tt) in
  fst (iter_chunk p (λ s e, lift (verify_batch p co output o s e)) tt).

(** ** Verification of the aggregated round *)

Definition zeros {C : AffineCurve (Fr E)} (n : N) : list C := repeat zero (N.to_nat n).

Definition verify_ratios_groth16 p c (check : CheckForCorrectness) (output : bytes) (o : SplitBuf)
    (g1_check : G1 * G1) (g2_check : G2 * G2) (s e : N) : on Rng unit :=
  expect (check_power_ratios E (view (sb_tau_g1 o) output) c check s e (zeros (p1_batch_size p)) g2_check) ;;;
  if (s <? powers_length p)%N then
    let e := if (powers_length p <? usize_add s (p1_batch_size p))%N then powers_length p else e in
    expect (check_power_ratios_g2 E (view (sb_tau_g2 o) output) c check s e
      (zeros (p1_batch_size p)) g1_check) ;;;
    expect (check_power_ratios E (view (sb_alpha_g1 o) output) c check s e
      (zeros (p1_batch_size p)) g2_check) ;;;
    expect (check_power_ratios E (view (sb_beta_g1 o) output) c check s e
      (zeros (p1_batch_size p)) g2_check)
  else ret tt.

(** One degree bound: the inverse power in G2 and the triple under alpha. *)
Definition verify_degree_bound c (check : CheckForCorrectness) (output : bytes) (o : SplitBuf)
    (g2_check : G2 * G2) (alpha_0 : G1) (i power : N) : setup unit :=
  let g1_size := buffer_size G1 c in
  let g2_size := buffer_size G2 c in
  try! d := slice (usize_mul power g1_size) (usize_mul (usize_add power 1) g1_size) (view (sb_tau_g1 o) output) in
  try! g1 := expect' (read_element (C := G1) c check d) in
  try! d := slice (usize_mul (usize_add 2 i) g2_size) (usize_mul (usize_add (usize_add 2 i) 1) g2_size)
              (view (sb_tau_g2 o) output) in
  try! g2 := expect' (read_element (C := G2) c check d) in
  try! _ := expect' (check_same_ratio (g1, prime_subgroup_generator) (prime_subgroup_generator, g2) "G1<>G2") in
  let first := usize_add 3 (usize_mul 3 i) in
  try! d := slice (usize_mul first g1_size) (usize_mul (usize_add first 3) g1_size)
              (view (sb_alpha_g1 o) output) in
  try! alphas := expect' (read_batch_preallocated (repeat (zero : G1) 3) c check d) in
  try! a0 := index alphas 0 in
  try! a1 := index alphas 1 in
  try! a2 := index alphas 2 in
  try! _ := expect' (check_same_ratio (a0, a1) g2_check "alpha_g1 ratio 1") in
  try! _ := expect' (check_same_ratio (a1, a2) g2_check "alpha_g1 ratio 2") in
  expect' (check_same_ratio (a0, alpha_0) (prime_subgroup_generator, g2) "alpha consistent").

(** The degree bounds whose power of tau is in the batch. *)
Definition powers_of_two_in_range p (s e : N) : list (N * N) :=
  filter (λ '(_, power), s ≤ power ∧ power < e)%N
    ((λ i, (i, degree_exponent p i)) <$> u64_range 0 (total_size_in_log2 p)).

Definition verify_ratios_marlin p c (check : CheckForCorrectness) (output : bytes) (o : SplitBuf)
    (g1_check : G1 * G1) (g2_check : G2 * G2) (alpha_0 : G1) (s e : N) : on Rng unit :=
  expect (check_power_ratios E (view (sb_tau_g1 o) output) c check s e (zeros (p1_batch_size p)) g2_check) ;;;
  for_each (λ b, lift (verify_degree_bound c check output o g2_check alpha_0 (fst b) (snd b)))
    (powers_of_two_in_range p s e) ;;;
  if (s =? 0)%N then
    expect (check_power_ratios E (view (sb_alpha_g1 o) output) c check 0 3 (zeros 3) g2_check) ;;;
    expect (check_power_ratios_g2 E (view (sb_tau_g2 o) output) c check 0 2 (zeros 3) g1_check)
  else ret tt.

(** [Phase1::aggregate_verification] *)
Definition phase1_aggregate_verify (output : bytes) c (check : CheckForCorrectness) p : on Rng unit :=
  let! o := lift (split E p c (len output)) in
  let! after_g1 := lift (read_initial_elements E (C := G1) (view (sb_tau_g1 o) output) c check) in
  let! after_g2 := lift (read_initial_elements E (C := G2) (view (sb_tau_g2 o) output) c check) in
  let! after_alpha_g1 := lift (read_initial_elements E (C := G1) (view (sb_alpha_g1 o) output) c check) in
  let! g1_0 := lift (index after_g1 0) in
  let! g1_1 := lift (index after_g1 1) in
  let! g2_0 := lift (index after_g2 0) in
  let! g2_1 := lift (index after_g2 1) in
  let! alpha_0 := lift (index after_alpha_g1 0) in
  match p1_proving_system p with
  | Groth16 => iter_chunk p (verify_ratios_groth16 p c check output o (g1_0, g1_1) (g2_0, g2_1))
  | Marlin => iter_chunk p (verify_ratios_marlin p c check output o (g1_0, g1_1) (g2_0, g2_1) alpha_0)
  end.

(** ** Aggregation *)

(** Copying one section: read it whole, write it whole. *)
Definition copy_section {C : AffineCurve (Fr E)} (input : bytes) ci co : on bytes unit :=
  let! elements := lift (expect' (read_batch (C := C) ci CheckNo input)) in
  expect (write_batch elements co).

Definition aggregate_groth16 p (chunk_index : N) (input : bytes) ci co (i o : SplitBuf) : on bytes unit :=
  within (sb_tau_g1 o) (copy_section (C := G1) (view (sb_tau_g1 i) input) ci co) ;;;
  (if (usize_mul chunk_index (p1_chunk_size p) <? powers_length p)%N then
     within (sb_tau_g2 o) (copy_section (C := G2) (view (sb_tau_g2 i) input) ci co) ;;;
     within (sb_alpha_g1 o) (copy_section (C := G1) (view (sb_alpha_g1 i) input) ci co) ;;;
     within (sb_beta_g1 o) (copy_section (C := G1) (view (sb_beta_g1 i) input) ci co)
   else ret tt) ;;;
  if (chunk_index =? 0)%N then
    let! element := lift (expect' (read_element (C := G2) ci CheckNo (view (sb_beta_g2 i) input))) in
    expect (within (sb_beta_g2 o) (write_element element co))
  else ret tt.

Definition aggregate_marlin p (chunk_index : N) (input : bytes) ci co (i o : SplitBuf) : on bytes unit :=
  let start := usize_mul chunk_index (p1_chunk_size p) in
  within (sb_tau_g1 o) (copy_section (C := G1) (view (sb_tau_g1 i) input) ci co) ;;;
  (if (start <? usize_add 2 (total_size_in_log2 p))%N then
     within (sb_tau_g2 o) (copy_section (C := G2) (view (sb_tau_g2 i) input) ci co)
   else ret tt) ;;;
  if (start <? usize_add 3 (usize_mul 3 (total_size_in_log2 p)))%N then
    within (sb_alpha_g1 o) (copy_section (C := G1) (view (sb_alpha_g1 i) input) ci co)
  else ret tt.

(** The body of the loop over the chunks. *)
Definition aggregate_chunk p co (chunk_index : N) (input : bytes) ci : on bytes unit := λ output,
  let chunk_parameters :=
    into_chunk_parameters p (p1_contribution_mode p) chunk_index (p1_chunk_size p) in
  (let! i := lift (split E chunk_parameters ci (len input)) in
   let! o := lift (split_at_chunk_mut E chunk_parameters co (len output)) in
   match p1_proving_system p with
   | Groth16 => aggregate_groth16 chunk_parameters chunk_index input ci co i o
   | Marlin => aggregate_marlin chunk_parameters chunk_index input ci co i o
   end) output.

(** [Phase1::aggregation] *)
Definition aggregation (inputs : list (bytes * UseCompression)) co p : on bytes unit :=
  for_each (λ '(chunk_index, (input, ci)), aggregate_chunk p co chunk_index input ci)
    (imap (λ i input, (N.of_nat i, input)) inputs).
End phase1.
