(* ===== verification/Layout.v ===== *)
(** * The layout of an accumulator

    For the parameters that the constructors of [Phase1Parameters] compute
    within the stated bounds, a buffer is the hash followed by its five
    sections and what may follow them (the public key of a contribution).  The
    lemmas turn the range arithmetic of [Buffers] into this decomposition. *)

From S2P Require Import Prelude Environment Phase1Parameters Curve Elements MultiExp Buffers Accumulator Phase1.

(** Arithmetic with the bounds as numerals. *)
Ltac bounds_lia :=
  change (2 ^ 12)%N with 4096%N in *; change (2 ^ 20)%N with 1048576%N in *;
  change (2 ^ 32)%N with 4294967296%N in *; change (2 ^ 41)%N with 2199023255552%N in *;
  change (2 ^ 42)%N with 4398046511104%N in *; change (2 ^ 44)%N with 17592186044416%N in *;
  change (2 ^ 62)%N with 4611686018427387904%N in *; change (2 ^ 63)%N with 9223372036854775808%N in *;
  change u64_modulus with 18446744073709551616%N in *; lia.

(** ** Regular parameters *)

(** The first element of the chunk, and the one after the last. *)
Definition chunk_lo (p : Phase1Parameters) : N :=
  match p1_contribution_mode p with Chunked => p1_chunk_index p * p1_chunk_size p | Full => 0 end.
Definition chunk_hi (p : Phase1Parameters) : N := chunk_lo p + g1_chunk_size p.
(** The end of those elements of the chunk of which there are only
    [powers_length]. *)
Definition other_hi (p : Phase1Parameters) : N := chunk_lo p + other_chunk_size p.

Record regular (E : PairingEngine) (p : Phase1Parameters) : Prop := {
  reg_hash : hash_size p = 64%N;
  reg_bounds : iter_bounds p = (chunk_lo p, chunk_hi p);
  reg_pos : (0 < g1_chunk_size p)%N;
  reg_offset : p1_contribution_mode p = Chunked →
    usize_mul (p1_chunk_index p) (p1_chunk_size p) = chunk_lo p;
  reg_other : p1_proving_system p = Groth16 →
    if (chunk_lo p <? powers_length p)%N
    then (other_chunk_size p = N.min (chunk_hi p) (powers_length p) - chunk_lo p)%N
    else other_chunk_size p = 0%N;
  reg_other_max : p1_proving_system p = Groth16 → other_max p = N.min (chunk_hi p) (powers_length p);
  reg_full : p1_contribution_mode p = Full → p1_chunk_index p = 0%N;
  reg_first : p1_chunk_index p = 0%N ↔ chunk_lo p = 0%N;
  reg_powers : powers_length p = (2 ^ total_size_in_log2 p)%N;
  reg_size : (total_size_in_log2 p < 40)%N;
  reg_hi : (chunk_hi p < 2 ^ 41)%N;
  reg_batch : (2 ≤ p1_batch_size p < 2 ^ 32)%N;
  reg_g1 c : (serialized_size (G1Affine E) c < 2 ^ 12)%N;
  reg_g2 c : (serialized_size (G2Affine E) c < 2 ^ 12)%N;
}.

(** How many elements each section has. *)
Definition n_tau_g1 (p : Phase1Parameters) : nat := N.to_nat (g1_chunk_size p).
Definition n_tau_g2 (p : Phase1Parameters) : nat :=
  match p1_proving_system p with
  | Groth16 => N.to_nat (other_chunk_size p)
  | Marlin => if (p1_chunk_index p =? 0)%N then N.to_nat (total_size_in_log2 p) + 2 else 0
  end.
Definition n_alpha (p : Phase1Parameters) : nat :=
  match p1_proving_system p with
  | Groth16 => N.to_nat (other_chunk_size p)
  | Marlin => if (p1_chunk_index p =? 0)%N then 3 + 3 * N.to_nat (total_size_in_log2 p) else 0
  end.
Definition n_beta (p : Phase1Parameters) : nat :=
  match p1_proving_system p with Groth16 => N.to_nat (other_chunk_size p) | Marlin => 0 end.
Definition n_beta_g2 (p : Phase1Parameters) : nat :=
  match p1_proving_system p with Groth16 => 1 | Marlin => 0 end.

Record Parts := MkParts {
  pt_hash : bytes; pt_tau_g1 : bytes; pt_tau_g2 : bytes; pt_alpha_g1 : bytes; pt_beta_g1 : bytes;
  pt_beta_g2 : bytes; pt_rest : bytes;
}.
Definition join (x : Parts) : bytes :=
  pt_hash x ++ pt_tau_g1 x ++ pt_tau_g2 x ++ pt_alpha_g1 x ++ pt_beta_g1 x ++ pt_beta_g2 x ++ pt_rest x.

Definition set_tau_g1 d x := MkParts (pt_hash x) d (pt_tau_g2 x) (pt_alpha_g1 x) (pt_beta_g1 x) (pt_beta_g2 x) (pt_rest x).
Definition set_tau_g2 d x := MkParts (pt_hash x) (pt_tau_g1 x) d (pt_alpha_g1 x) (pt_beta_g1 x) (pt_beta_g2 x) (pt_rest x).
Definition set_alpha_g1 d x := MkParts (pt_hash x) (pt_tau_g1 x) (pt_tau_g2 x) d (pt_beta_g1 x) (pt_beta_g2 x) (pt_rest x).
Definition set_beta_g1 d x := MkParts (pt_hash x) (pt_tau_g1 x) (pt_tau_g2 x) (pt_alpha_g1 x) d (pt_beta_g2 x) (pt_rest x).
Definition set_beta_g2 d x := MkParts (pt_hash x) (pt_tau_g1 x) (pt_tau_g2 x) (pt_alpha_g1 x) (pt_beta_g1 x) d (pt_rest x).

Section layout.
Context {E : PairingEngine} `{!EngineLaws E}.
Notation w1 := (width (G1Affine E)).
Notation w2 := (width (G2Affine E)).
Implicit Types (p : Phase1Parameters) (c : UseCompression) (x : Parts).

Record fits p c x : Prop := {
  fit_hash : length (pt_hash x) = 64;
  fit_tau_g1 : length (pt_tau_g1 x) = n_tau_g1 p * w1 c;
  fit_tau_g2 : length (pt_tau_g2 x) = n_tau_g2 p * w2 c;
  fit_alpha : length (pt_alpha_g1 x) = n_alpha p * w1 c;
  fit_beta : length (pt_beta_g1 x) = n_beta p * w1 c;
  fit_beta_g2 : length (pt_beta_g2 x) = n_beta_g2 p * w2 c;
}.

(** The length of an accumulator. *)
Definition accumulator_length p c : nat :=
  64 + n_tau_g1 p * w1 c + n_tau_g2 p * w2 c + n_alpha p * w1 c + n_beta p * w1 c + n_beta_g2 p * w2 c.

(** The ranges of the sections. *)
Definition ranges p c : SplitBuf :=
  let s1 := (64 + N.of_nat (n_tau_g1 p * w1 c))%N in
  let s2 := (s1 + N.of_nat (n_tau_g2 p * w2 c))%N in
  let s3 := (s2 + N.of_nat (n_alpha p * w1 c))%N in
  let s4 := (s3 + N.of_nat (n_beta p * w1 c))%N in
  MkSplitBuf (MkRange 64 (N.of_nat (n_tau_g1 p * w1 c))) (MkRange s1 (N.of_nat (n_tau_g2 p * w2 c)))
    (MkRange s2 (N.of_nat (n_alpha p * w1 c)))
    (match p1_proving_system p with Groth16 => MkRange s3 (N.of_nat (n_beta p * w1 c)) | Marlin => empty_range end)
    (match p1_proving_system p with Groth16 => MkRange s4 (N.of_nat (w2 c)) | Marlin => empty_range end).

Lemma parts_exist p c data :
  accumulator_length p c ≤ length data → ∃ x, data = join x ∧ fits p c x.
Proof.
  intros H. unfold accumulator_length in H.
  set (d1 := list.drop 64 data). set (d2 := list.drop (n_tau_g1 p * w1 c) d1).
  set (d3 := list.drop (n_tau_g2 p * w2 c) d2). set (d4 := list.drop (n_alpha p * w1 c) d3).
  set (d5 := list.drop (n_beta p * w1 c) d4). set (d6 := list.drop (n_beta_g2 p * w2 c) d5).
  exists (MkParts (take 64 data) (take (n_tau_g1 p * w1 c) d1) (take (n_tau_g2 p * w2 c) d2)
    (take (n_alpha p * w1 c) d3) (take (n_beta p * w1 c) d4) (take (n_beta_g2 p * w2 c) d5) d6).
  split.
  - unfold join. cbn. subst d6 d5 d4 d3 d2 d1. by rewrite !take_drop.
  - split; cbn; rewrite length_take; subst d6 d5 d4 d3 d2 d1; rewrite ?length_drop; lia.
Qed.

Lemma join_length p c x : fits p c x → length (join x) = accumulator_length p c + length (pt_rest x).
Proof. intros []. unfold join, accumulator_length. rewrite !length_app. lia. Qed.

(** ** Views and updates of the sections *)


Lemma part_tau_g1 p c x : fits p c x → sb_tau_g1 (ranges p c) = MkRange (len (pt_hash x)) (len (pt_tau_g1 x)).
Proof. intros []. unfold len. cbn. f_equal; lia. Qed.
Lemma part_tau_g2 p c x : fits p c x →
  sb_tau_g2 (ranges p c) = MkRange (len (pt_hash x ++ pt_tau_g1 x)) (len (pt_tau_g2 x)).
Proof. intros []. unfold len. rewrite length_app. cbn. f_equal; lia. Qed.
Lemma part_alpha p c x : fits p c x →
  sb_alpha_g1 (ranges p c) = MkRange (len (pt_hash x ++ pt_tau_g1 x ++ pt_tau_g2 x)) (len (pt_alpha_g1 x)).
Proof. intros []. unfold len. rewrite !length_app. cbn. f_equal; lia. Qed.
Lemma part_beta p c x : fits p c x → p1_proving_system p = Groth16 →
  sb_beta_g1 (ranges p c) =
    MkRange (len (pt_hash x ++ pt_tau_g1 x ++ pt_tau_g2 x ++ pt_alpha_g1 x)) (len (pt_beta_g1 x)).
Proof. intros [] Hp. unfold len. rewrite !length_app. cbn. rewrite Hp. f_equal; lia. Qed.
Lemma part_beta_g2 p c x : fits p c x → p1_proving_system p = Groth16 →
  sb_beta_g2 (ranges p c) =
    MkRange (len (pt_hash x ++ pt_tau_g1 x ++ pt_tau_g2 x ++ pt_alpha_g1 x ++ pt_beta_g1 x)) (len (pt_beta_g2 x)).
Proof.
  intros [] Hp. unfold n_beta_g2 in *. rewrite Hp in *. unfold len. rewrite !length_app. cbn. rewrite Hp. f_equal; lia.
Qed.
Lemma marlin_empty p c x : fits p c x → p1_proving_system p = Marlin → pt_beta_g1 x = [] ∧ pt_beta_g2 x = [].
Proof.
  intros [] Hp. unfold n_beta, n_beta_g2 in *. rewrite Hp in *.
  split; apply nil_length_inv; lia.
Qed.

Section sections.
Context p c x (Hx : fits p c x).

Lemma view_tau_g1 : view (sb_tau_g1 (ranges p c)) (join x) = pt_tau_g1 x.
Proof. apply view_app. by apply part_tau_g1. Qed.
Lemma view_tau_g2 : view (sb_tau_g2 (ranges p c)) (join x) = pt_tau_g2 x.
Proof. unfold join. rewrite app_assoc. apply view_app. by apply part_tau_g2. Qed.
Lemma view_alpha : view (sb_alpha_g1 (ranges p c)) (join x) = pt_alpha_g1 x.
Proof.
  unfold join. rewrite (app_assoc (pt_tau_g1 x)), (app_assoc (pt_hash x)). apply view_app. by apply part_alpha.
Qed.
Lemma view_beta : view (sb_beta_g1 (ranges p c)) (join x) = pt_beta_g1 x.
Proof.
  destruct (p1_proving_system p) eqn:Hp.
  - unfold join. rewrite (app_assoc (pt_tau_g2 x)), (app_assoc (pt_tau_g1 x)), (app_assoc (pt_hash x)).
    apply view_app. by apply part_beta.
  - destruct (marlin_empty p c x Hx Hp) as [-> _]. cbn. by rewrite Hp.
Qed.
Lemma view_beta_g2 : view (sb_beta_g2 (ranges p c)) (join x) = pt_beta_g2 x.
Proof.
  destruct (p1_proving_system p) eqn:Hp.
  - unfold join. rewrite (app_assoc (pt_alpha_g1 x)), (app_assoc (pt_tau_g2 x)), (app_assoc (pt_tau_g1 x)),
      (app_assoc (pt_hash x)). apply view_app. by apply part_beta_g2.
  - destruct (marlin_empty p c x Hx Hp) as [_ ->]. cbn. by rewrite Hp.
Qed.

Context {A : Type} (m : on bytes A) (o : setup A) (d : bytes).
Lemma within_tau_g1 :
  m (pt_tau_g1 x) = (o, d) → within (sb_tau_g1 (ranges p c)) m (join x) = (o, join (set_tau_g1 d x)).
Proof. intros H. exact (within_app m o _ _ _ d _ (part_tau_g1 p c x Hx) H). Qed.
Lemma within_tau_g2 :
  m (pt_tau_g2 x) = (o, d) → within (sb_tau_g2 (ranges p c)) m (join x) = (o, join (set_tau_g2 d x)).
Proof.
  intros H. pose proof (within_app m o _ _ (pt_alpha_g1 x ++ pt_beta_g1 x ++ pt_beta_g2 x ++ pt_rest x)
    d _ (part_tau_g2 p c x Hx) H) as Hw. by rewrite <-!app_assoc in Hw.
Qed.
Lemma within_alpha :
  m (pt_alpha_g1 x) = (o, d) → within (sb_alpha_g1 (ranges p c)) m (join x) = (o, join (set_alpha_g1 d x)).
Proof.
  intros H. pose proof (within_app m o _ _ (pt_beta_g1 x ++ pt_beta_g2 x ++ pt_rest x)
    d _ (part_alpha p c x Hx) H) as Hw. by rewrite <-!app_assoc in Hw.
Qed.
Lemma within_beta :
  m (pt_beta_g1 x) = (o, d) → length d = length (pt_beta_g1 x) →
  within (sb_beta_g1 (ranges p c)) m (join x) = (o, join (set_beta_g1 d x)).
Proof.
  intros H Hd. destruct (p1_proving_system p) eqn:Hp.
  - pose proof (within_app m o _ _ (pt_beta_g2 x ++ pt_rest x) d _ (part_beta p c x Hx Hp) H) as Hw.
    by rewrite <-!app_assoc in Hw.
  - destruct (marlin_empty p c x Hx Hp) as [Hb _]. rewrite Hb in *. apply nil_length_inv in Hd as ->.
    cbn [ranges sb_beta_g1]. rewrite Hp, (within_empty m o) by done. unfold join. cbn. by rewrite Hb.
Qed.
Lemma within_beta_g2 :
  m (pt_beta_g2 x) = (o, d) → length d = length (pt_beta_g2 x) →
  within (sb_beta_g2 (ranges p c)) m (join x) = (o, join (set_beta_g2 d x)).
Proof.
  intros H Hd. destruct (p1_proving_system p) eqn:Hp.
  - pose proof (within_app m o _ _ (pt_rest x) d _ (part_beta_g2 p c x Hx Hp) H) as Hw.
    by rewrite <-!app_assoc in Hw.
  - destruct (marlin_empty p c x Hx Hp) as [_ Hb]. rewrite Hb in *. apply nil_length_inv in Hd as ->.
    cbn [ranges sb_beta_g2]. rewrite Hp, (within_empty m o) by done. unfold join. cbn. by rewrite Hb.
Qed.
End sections.

(** The sections stay where they are when their lengths do. *)
Lemma fits_tau_g1 p c x d : fits p c x → length d = length (pt_tau_g1 x) → fits p c (set_tau_g1 d x).
Proof. intros [] Hd. split; cbn; lia. Qed.
Lemma fits_tau_g2 p c x d : fits p c x → length d = length (pt_tau_g2 x) → fits p c (set_tau_g2 d x).
Proof. intros [] Hd. split; cbn; lia. Qed.
Lemma fits_alpha p c x d : fits p c x → length d = length (pt_alpha_g1 x) → fits p c (set_alpha_g1 d x).
Proof. intros [] Hd. split; cbn; lia. Qed.
Lemma fits_beta p c x d : fits p c x → length d = length (pt_beta_g1 x) → fits p c (set_beta_g1 d x).
Proof. intros [] Hd. split; cbn; lia. Qed.
Lemma fits_beta_g2 p c x d : fits p c x → length d = length (pt_beta_g2 x) → fits p c (set_beta_g2 d x).
Proof. intros [] Hd. split; cbn; lia. Qed.

(** ** Splitting *)

Lemma usize_mul_exact a b : (a < 2 ^ 20)%N → (b < 2 ^ 44)%N → usize_mul a b = (a * b)%N.
Proof.
  intros Ha Hb. apply u64_mul_exact. assert (a * b ≤ 2 ^ 20 * 2 ^ 44)%N by (apply N.mul_le_mono; lia).
  assert (a * b ≤ 2 ^ 20 * (2 ^ 44 - 1))%N by (apply N.mul_le_mono; bounds_lia).
  bounds_lia.
Qed.
Lemma usize_add_exact a b : (a < 2 ^ 62)%N → (b < 2 ^ 62)%N → usize_add a b = (a + b)%N.
Proof. intros Ha Hb. apply u64_add_exact. bounds_lia. Qed.

Context p (Hp : regular E p).

Lemma other_le : p1_proving_system p = Groth16 → (other_chunk_size p ≤ g1_chunk_size p)%N.
Proof.
  intros Hs. pose proof (reg_other _ _ Hp Hs) as H. unfold chunk_hi in H.
  destruct (chunk_lo p <? powers_length p)%N; lia.
Qed.
Lemma section_size_g1 c n : (n < 2 ^ 42)%N → usize_mul (buffer_size (G1Affine E) c) n = N.of_nat (N.to_nat n * w1 c).
Proof.
  intros Hn. pose proof (reg_g1 _ _ Hp c) as H. unfold buffer_size, width.
  rewrite usize_mul_exact by bounds_lia. lia.
Qed.
Lemma section_size_g2 c n : (n < 2 ^ 42)%N → usize_mul (buffer_size (G2Affine E) c) n = N.of_nat (N.to_nat n * w2 c).
Proof.
  intros Hn. pose proof (reg_g2 _ _ Hp c) as H. unfold buffer_size, width.
  rewrite usize_mul_exact by bounds_lia. lia.
Qed.
Lemma g1_chunk_small : (g1_chunk_size p < 2 ^ 42)%N.
Proof. pose proof (reg_hi _ _ Hp) as H. unfold chunk_hi in H. bounds_lia. Qed.
Lemma size_sums :
  usize_add (total_size_in_log2 p) 2 = (total_size_in_log2 p + 2)%N ∧
  usize_add 3 (usize_mul 3 (total_size_in_log2 p)) = (3 + 3 * total_size_in_log2 p)%N.
Proof.
  pose proof (reg_size _ _ Hp). rewrite (usize_mul_exact 3) by bounds_lia.
  by rewrite !usize_add_exact by bounds_lia.
Qed.

Lemma split_mut_ok c (n : nat) :
  accumulator_length p c ≤ n → split_mut E p c (N.of_nat n) = Ok (ranges p c).
Proof.
  intros Hn. pose proof g1_chunk_small as Hg. pose proof size_sums as [Hs1 Hs2].
  pose proof (reg_size _ _ Hp) as Hsz.
  unfold split_mut, accumulator_length, ranges, n_tau_g2, n_alpha, n_beta, n_beta_g2, n_tau_g1 in *.
  pose proof other_le as Ho. destruct (p1_proving_system p) eqn:Hs.
  - specialize (Ho eq_refl).
    unfold split_groth16. rewrite !section_size_g1, !section_size_g2 by lia.
    rewrite (reg_hash _ _ Hp), buffer_size_width.
    repeat (rewrite split_at_ok by lia; cbn [bind_outcome fst snd]).
    rewrite sub_range_ok by lia. cbn [bind_outcome]. f_equal. f_equal; f_equal; lia.
  - unfold split_marlin. rewrite Hs1, Hs2.
    destruct (p1_chunk_index p =? 0)%N; rewrite !section_size_g1, !section_size_g2
      by bounds_lia;
      rewrite (reg_hash _ _ Hp);
      repeat (rewrite split_at_ok by lia; cbn [bind_outcome fst snd]); f_equal; f_equal; f_equal; lia.
Qed.
Lemma split_ok c (n : nat) :
  accumulator_length p c ≤ n → split E p c (N.of_nat n) = Ok (ranges p c).
Proof.
  intros Hn. unfold split. rewrite split_mut_ok by done. cbn [bind_outcome].
  pose proof (reg_pos _ _ Hp). pose proof (width_pos (C := G1Affine E) c).
  cbn [ranges sb_tau_g1 r_len]. unfold n_tau_g1. by rewrite (proj2 (N.ltb_lt _ _)) by nia.
Qed.
Lemma split_join c x : fits p c x → split E p c (len (join x)) = Ok (ranges p c).
Proof. intros Hx. apply split_ok. rewrite (join_length p c) by done. lia. Qed.
Lemma split_mut_join c x : fits p c x → split_mut E p c (len (join x)) = Ok (ranges p c).
Proof. intros Hx. apply split_mut_ok. rewrite (join_length p c) by done. lia. Qed.
End layout.
