(* ===== verification/Computation.v ===== *)
(** * What a contribution computes

    The computation of [Phase1] runs over batches, in place, with overlapping
    batches and a compression of its own for input and output.  Here it is
    shown to be one multiplication of every element by its own power of the
    contributor's key. *)

From S2P Require Import Prelude Environment Phase1Parameters Curve Elements MultiExp Buffers Accumulator Phase1 Layout.

(** ** Accumulators in buffers *)

Section held.
Context {E : PairingEngine} `{!EngineLaws E}.
Implicit Types (p : Phase1Parameters) (c : UseCompression) (x : Parts) (acc : Accumulator E).

(** The parts hold the elements of the accumulator. *)
Record holds p c (check : CheckForCorrectness) x acc : Prop := {
  hold_fits : fits (E := E) p c x;
  hold_tau_g1 : decodes c check (pt_tau_g1 x) (tau_powers_g1 acc);
  hold_tau_g2 : decodes c check (pt_tau_g2 x) (tau_powers_g2 acc);
  hold_alpha : decodes c check (pt_alpha_g1 x) (alpha_tau_powers_g1 acc);
  hold_beta : decodes c check (pt_beta_g1 x) (beta_tau_powers_g1 acc);
  hold_beta_g2 : match p1_proving_system p with
                 | Groth16 => decodes c check (pt_beta_g2 x) [beta_g2 acc]
                 | Marlin => beta_g2 acc = prime_subgroup_generator
                 end;
}.

Lemma decodes_single {C : AffineCurve (Fr E)} `{!CurveLaws C} c check data (q : C) :
  length data = width C c → decodes c check data [q] ↔ read_element c check data = Ok q.
Proof.
  intros Hlen. rewrite decodes_pieces. split.
  - intros (cs & -> & _ & H). apply Forall2_cons_inv_r in H as (d & cs' & Hd & H & ->).
    apply Forall2_nil_inv_r in H as ->. simpl in *. by rewrite app_nil_r in *.
  - intros H. exists [data]. simpl. rewrite app_nil_r. by repeat constructor.
Qed.

Lemma deserialize_holds p c check x acc :
  regular E p → holds p c check x acc → deserialize_accumulator E p c check (join x) = Ok acc.
Proof.
  intros Hp [Hf H1 H2 H3 H4 H5]. unfold deserialize_accumulator.
  rewrite (split_join p Hp c x Hf). cbn [bind_outcome].
  rewrite (view_tau_g1 p c x Hf), (view_tau_g2 p c x Hf), (view_alpha p c x Hf), (view_beta p c x Hf),
    (view_beta_g2 p c x Hf).
  rewrite (read_batch_decodes _ _ _ _ H1), (read_batch_decodes _ _ _ _ H2), (read_batch_decodes _ _ _ _ H3),
    (read_batch_decodes _ _ _ _ H4). cbn [bind_outcome].
  pose proof (fit_beta_g2 _ _ _ Hf) as Hb. unfold n_beta_g2 in Hb. destruct acc, (p1_proving_system p).
  - cbn in H5. apply decodes_single in H5; [|lia]. by rewrite H5.
  - cbn in H5. by rewrite H5.
Qed.

Lemma deserialize_holds_inv p c check data acc :
  regular E p → accumulator_length (E := E) p c ≤ length data →
  deserialize_accumulator E p c check data = Ok acc →
  ∃ x, data = join x ∧ holds p c check x acc.
Proof.
  intros Hp Hlen H. destruct (parts_exist (E := E) p c data Hlen) as (x & -> & Hf).
  exists x. split; [done|]. unfold deserialize_accumulator in H.
  rewrite (split_join p Hp c x Hf) in H. cbn [bind_outcome] in H.
  rewrite (view_tau_g1 p c x Hf), (view_tau_g2 p c x Hf), (view_alpha p c x Hf), (view_beta p c x Hf),
    (view_beta_g2 p c x Hf) in H.
  apply bind_outcome_ok in H as (l1 & H1 & H). apply bind_outcome_ok in H as (l2 & H2 & H).
  apply bind_outcome_ok in H as (l3 & H3 & H). apply bind_outcome_ok in H as (l4 & H4 & H).
  apply bind_outcome_ok in H as (b & Hb & [= <-]).
  assert (∀ (C : AffineCurve (Fr E)) (L : CurveLaws C) d (l : list C) n,
    read_batch c check d = Ok l → length d = n * width C c → decodes c check d l) as Hd.
  { intros C L d l n Hr Hn. split; [done|]. unfold read_batch, cfg_chunks in Hr.
    rewrite buffer_size_nonzero, buffer_size_nat in Hr. cbn [bind_outcome] in Hr.
    apply collect_ok, Forall2_length in Hr. rewrite length_fmap in Hr.
    destruct (whole_pieces _ _ _ Hn) as (cs & -> & Hcs & Hall).
    rewrite slice_chunks_exact in Hr by (done || (pose proof (width_pos (C := C) c); lia)).
    rewrite (concat_length (width C c)) by done. lia. }
  pose proof (fit_beta_g2 _ _ _ Hf) as Hlb. unfold n_beta_g2 in Hlb.
  split; cbn; [exact Hf | | | | |].
  - eapply Hd; [apply g1_laws | done | apply Hf].
  - eapply Hd; [apply g2_laws | done | apply Hf].
  - eapply Hd; [apply g1_laws | done | apply Hf].
  - eapply Hd; [apply g1_laws | done | apply Hf].
  - destruct (p1_proving_system p); [|by injection Hb as <-].
    apply decodes_single; [lia | done].
Qed.

Lemma holds_lengths p c check x acc :
  holds p c check x acc →
  length (tau_powers_g1 acc) = n_tau_g1 p ∧ length (tau_powers_g2 acc) = n_tau_g2 p ∧
  length (alpha_tau_powers_g1 acc) = n_alpha p ∧ length (beta_tau_powers_g1 acc) = n_beta p.
Proof.
  intros [[] H1 H2 H3 H4 _]. apply decodes_length in H1, H2, H3, H4.
  pose proof (width_pos (C := G1Affine E) c). pose proof (width_pos (C := G2Affine E) c).
  split_and!; eapply Nat.mul_cancel_r; eauto; lia || nia.
Qed.
End held.

(** ** The reference: one multiplication per element *)

Section reference.
Context {E : PairingEngine}.
Implicit Types (p : Phase1Parameters) (key : PrivateKey E) (acc : Accumulator E).

Definition scale {C : AffineCurve (Fr E)} (l : list C) (exponents : list (Fr E)) : list C :=
  zip_with mul l exponents.

(** [tau^lo, tau^(lo+1), ...] *)
Definition tau_exponents p key (n : nat) : list (Fr E) :=
  (λ i, fr_pow (tau key) (chunk_lo p + N.of_nat i)) <$> seq 0 n.
Definition times_key (k : Fr E) (exponents : list (Fr E)) : list (Fr E) := (λ x, fr_mul x k) <$> exponents.

(** Marlin: [1, tau] and the inverses of the degree bounds in G2; [1, tau,
    tau^2] and three powers from each degree bound on under alpha. *)
Definition g2_exponents p key : list (Fr E) :=
  generate_powers_of_tau (tau key) 0 2 ++ batch_inversion (degree_bound_powers E p key).
Definition degree_triples p key : list (Fr E) :=
  concat ((λ f, [f; fr_mul f (tau key); fr_mul f (fr_pow (tau key) 2)]) <$> degree_bound_powers E p key).
Definition alpha_exponents p key : list (Fr E) :=
  generate_powers_of_tau (tau key) 0 3 ++ degree_triples p key.

(** All points are in the subgroup of prime order. *)
Definition in_group acc : Prop :=
  Forall in_subgroup (tau_powers_g1 acc) ∧ Forall in_subgroup (tau_powers_g2 acc) ∧
  Forall in_subgroup (alpha_tau_powers_g1 acc) ∧ Forall in_subgroup (beta_tau_powers_g1 acc) ∧
  in_subgroup (beta_g2 acc).

(** What the contribution of a key makes of an accumulator. *)
Definition contributed p key acc : Accumulator E :=
  match p1_proving_system p with
  | Groth16 =>
      MkAccumulator
        (scale (tau_powers_g1 acc) (tau_exponents p key (length (tau_powers_g1 acc))))
        (scale (tau_powers_g2 acc) (tau_exponents p key (length (tau_powers_g2 acc))))
        (scale (alpha_tau_powers_g1 acc)
           (times_key (alpha key) (tau_exponents p key (length (alpha_tau_powers_g1 acc)))))
        (scale (beta_tau_powers_g1 acc)
           (times_key (beta key) (tau_exponents p key (length (beta_tau_powers_g1 acc)))))
        (mul (beta_g2 acc) (beta key))
  | Marlin =>
      MkAccumulator
        (scale (tau_powers_g1 acc) (tau_exponents p key (length (tau_powers_g1 acc))))
        (scale (tau_powers_g2 acc) (g2_exponents p key))
        (scale (alpha_tau_powers_g1 acc) (times_key (alpha key) (alpha_exponents p key)))
        (beta_tau_powers_g1 acc)
        (beta_g2 acc)
  end.
End reference.

(** ** One batch *)

Section batch.
Context {E : PairingEngine} `{!EngineLaws E}.
Context {C : AffineCurve (Fr E)} `{!CurveLaws C}.
Implicit Types (l target : list C) (powers : list (Fr E)).

Definition with_coeff (coeff : option (Fr E)) (exponents : list (Fr E)) : list (Fr E) :=
  match coeff with Some k => times_key k exponents | None => exponents end.

Lemma with_coeff_length coeff exponents : length (with_coeff coeff exponents) = length exponents.
Proof. destruct coeff; [apply length_fmap | done]. Qed.
Lemma scale_length l exponents : length exponents = length l → length (scale l exponents) = length l.
Proof. intros H. unfold scale. rewrite length_zip_with. lia. Qed.

Lemma batch_exp_ok l exps coeff :
  length exps = length l → batch_exp (C := C) l exps coeff = Ok (scale l (with_coeff coeff exps)).
Proof.
  intros H. unfold batch_exp. rewrite H, Nat.eqb_refl. cbn [negb]. f_equal.
  unfold scale, with_coeff, times_key. destruct coeff; [|done].
  by rewrite zip_with_fmap_r.
Qed.

(** The batch [s..e] of a section, given where the exponents are. *)
Lemma apply_powers_ok ci co check (input out : bytes) l exponents powers coeff (s e : nat) :
  decodes ci check input l → length exponents = length l → s ≤ e ≤ length l →
  e - s ≤ length powers → take (e - s) powers = take (e - s) (list.drop s exponents) →
  length l * width C co ≤ length out →
  (N.of_nat (length l) < 2 ^ 42)%N → (∀ c, serialized_size C c < 2 ^ 12)%N →
  apply_powers E (C := C) co input ci check (N.of_nat s) (N.of_nat e) powers coeff out =
    (Ok tt, take (s * width C co) out
            ++ encode co (take (e - s) (list.drop s (scale l (with_coeff coeff exponents))))
            ++ list.drop (e * width C co) out).
Proof.
  intros Hd Hexp Hse Hlen Hpow Hout Hl Hw. unfold apply_powers. cbv zeta.
  assert (∀ c n, n ≤ length l → usize_mul (N.of_nat n) (buffer_size C c) = N.of_nat (n * width C c)) as Hmul.
  { intros c n Hn. rewrite N.mul_comm || idtac. unfold u64_mul. rewrite N.mul_comm.
    change ((buffer_size C c * N.of_nat n) mod u64_modulus)%N with (usize_mul (buffer_size C c) (N.of_nat n)).
    unfold buffer_size. pose proof (Hw c). rewrite usize_mul_exact by bounds_lia. unfold width. lia. }
  rewrite !Hmul by lia.
  destruct (decodes_slice ci check input l s e Hd Hse) as (d & Hslice & Hd').
  unfold bind, lift. rewrite Hslice, (read_batch_decodes _ _ _ _ Hd').
  rewrite u64_sub_exact by bounds_lia. replace (N.of_nat e - N.of_nat s)%N with (N.of_nat (e - s)) by lia.
  change 0%N with (N.of_nat 0). rewrite slice_ok by lia. rewrite drop_0, Nat.sub_0_r, Hpow.
  rewrite batch_exp_ok by (rewrite !length_take, !length_drop; lia).
  assert (scale (take (e - s) (list.drop s l)) (with_coeff coeff (take (e - s) (list.drop s exponents))) =
          take (e - s) (list.drop s (scale l (with_coeff coeff exponents)))) as ->.
  { unfold scale. rewrite zip_with_drop, zip_with_take. f_equal.
    destruct coeff; [|done]. unfold with_coeff, times_key. by rewrite fmap_take, fmap_drop. }
  set (seg := take (e - s) (list.drop s (scale l (with_coeff coeff exponents)))).
  assert (length seg = e - s) as Hseg.
  { subst seg. rewrite length_take, length_drop, scale_length; [lia|]. by rewrite with_coeff_length. }
  replace e with (s + length seg) by lia. apply write_slice_ok. rewrite Hseg.
  replace (s + (e - s)) with e by lia. nia.
Qed.

(** The first [k] elements of a section are the target's. *)
Definition written c target (k : nat) (out : bytes) : Prop :=
  length out = length target * width C c ∧ take (k * width C c) out = encode c (take k target).

Lemma written_0 c target out : length out = length target * width C c → written c target 0 out.
Proof. intros H. by split. Qed.
Lemma written_all c target out : written c target (length target) out → out = encode c target.
Proof. intros [H1 H2]. by rewrite !take_ge in H2 by lia. Qed.

Lemma written_batch c target (k s e : nat) out :
  written c target k out → s ≤ k ≤ e → e ≤ length target →
  written c target e (take (s * width C c) out ++ encode c (take (e - s) (list.drop s target))
                      ++ list.drop (e * width C c) out).
Proof.
  intros [Hlen Hk] Hse He. set (seg := take (e - s) (list.drop s target)).
  assert (length seg = e - s) as Hseg by (subst seg; rewrite length_take, length_drop; lia).
  assert (length (take (s * width C c) out) = s * width C c) as Hs by (rewrite length_take; nia).
  split.
  - rewrite !length_app, Hs, encode_length, Hseg, length_drop. nia.
  - rewrite app_assoc, take_app_length'.
    2: { rewrite length_app, Hs, encode_length, Hseg. nia. }
    assert (take (s * width C c) out = encode c (take s target)) as ->.
    { replace (s * width C c) with (min (s * width C c) (k * width C c)) by nia.
      rewrite <-take_take, Hk. rewrite <-(take_drop s (take k target)), encode_app, take_take.
      rewrite Nat.min_l by lia. apply take_app_length'. rewrite encode_length, length_take by lia. f_equal. lia. }
    rewrite <-encode_app. subst seg. rewrite take_take_drop. do 2 f_equal. lia.
Qed.

(** A batch carries the section from [k] to [e]. *)
Lemma apply_powers_written ci co check (input out : bytes) l exponents powers coeff (k s e : nat) :
  decodes ci check input l → length exponents = length l → s ≤ k ≤ e → e ≤ length l →
  e - s ≤ length powers → take (e - s) powers = take (e - s) (list.drop s exponents) →
  (N.of_nat (length l) < 2 ^ 42)%N → (∀ c, serialized_size C c < 2 ^ 12)%N →
  written co (scale l (with_coeff coeff exponents)) k out →
  ∃ out', apply_powers E (C := C) co input ci check (N.of_nat s) (N.of_nat e) powers coeff out = (Ok tt, out') ∧
    written co (scale l (with_coeff coeff exponents)) e out' ∧ length out' = length out.
Proof.
  intros Hd Hexp Hk He Hpl Hpow Hl Hw Hwr.
  assert (length (scale l (with_coeff coeff exponents)) = length l) as Hsl.
  { apply scale_length. by rewrite with_coeff_length. }
  eexists. split; [|split].
  - eapply apply_powers_ok; try done; [lia|]. destruct Hwr as [-> _]. rewrite Hsl. lia.
  - eapply written_batch; [exact Hwr | lia | lia].
  - destruct (written_batch co (scale l (with_coeff coeff exponents)) k s e out Hwr) as [H1 _]; [lia | lia|].
    destruct Hwr as [-> _]. exact H1.
Qed.
End batch.

(** ** The batches of a chunk *)

Section chunk.
Context {E : PairingEngine} `{!EngineLaws E, !Randomness E}.
Context (p : Phase1Parameters) (Hp : regular E p) (key : PrivateKey E).
Context (ci co : UseCompression) (check : CheckForCorrectness) (xi : Parts) (acc : Accumulator E).
Context (Hin : holds p ci check xi acc).
Notation target := (contributed p key acc).

Lemma in_chunk_index_lo (s : N) :
  (chunk_lo p ≤ s)%N → (s < 2 ^ 42)%N → in_chunk_index p s = N.of_nat (N.to_nat (s - chunk_lo p)).
Proof.
  intros Hs Hb. unfold in_chunk_index. destruct (p1_contribution_mode p) eqn:Hm.
  - unfold chunk_lo. rewrite Hm. lia.
  - rewrite (reg_offset _ _ Hp Hm), u64_sub_exact by bounds_lia. lia.
Qed.

(** The powers of a batch are the exponents of its elements. *)
Lemma batch_exponents (s e e' : N) (n : nat) :
  (chunk_lo p ≤ s)%N → (s < e' ≤ e)%N → N.to_nat (e' - chunk_lo p) ≤ n →
  let i := N.to_nat (s - chunk_lo p) in let j := N.to_nat (e' - chunk_lo p) in
  j - i ≤ length (generate_powers_of_tau (tau key) s e) ∧
  take (j - i) (generate_powers_of_tau (tau key) s e) = take (j - i) (list.drop i (tau_exponents p key n)).
Proof.
  intros Hs He Hn i j. unfold generate_powers_of_tau. rewrite length_fmap, u64_range_length.
  split; [lia|]. apply list_eq. intros m. destruct (decide (m < j - i)).
  - rewrite !lookup_take_lt by done. rewrite lookup_drop. unfold tau_exponents.
    rewrite !list_lookup_fmap, u64_range_lookup, lookup_seq_lt by lia. simpl. do 2 f_equal. lia.
  - by rewrite !lookup_take_ge by lia.
Qed.

(** The progress of the output after all elements below [k]. *)
Record progress (x0 : Parts) (k : N) (x : Parts) : Prop := {
  pg_fits : fits (E := E) p co x;
  pg_hash : pt_hash x = pt_hash x0;
  pg_rest : pt_rest x = pt_rest x0;
  pg_beta_g2 : pt_beta_g2 x = pt_beta_g2 x0;
  pg_tau_g1 : written co (tau_powers_g1 target) (N.to_nat (k - chunk_lo p)) (pt_tau_g1 x);
  pg_tau_g2 : match p1_proving_system p with
    | Groth16 => written co (tau_powers_g2 target) (N.to_nat (N.min k (other_hi p) - chunk_lo p)) (pt_tau_g2 x)
    | Marlin => pt_tau_g2 x = pt_tau_g2 x0 end;
  pg_alpha : match p1_proving_system p with
    | Groth16 => written co (alpha_tau_powers_g1 target) (N.to_nat (N.min k (other_hi p) - chunk_lo p)) (pt_alpha_g1 x)
    | Marlin => pt_alpha_g1 x = pt_alpha_g1 x0 end;
  pg_beta : match p1_proving_system p with
    | Groth16 => written co (beta_tau_powers_g1 target) (N.to_nat (N.min k (other_hi p) - chunk_lo p)) (pt_beta_g1 x)
    | Marlin => pt_beta_g1 x = pt_beta_g1 x0 end;
}.

Lemma n_tau_g1_small : (N.of_nat (n_tau_g1 p) < 2 ^ 42)%N.
Proof. pose proof (g1_chunk_small p Hp). unfold n_tau_g1. lia. Qed.

Lemma tau_exponents_length n : length (tau_exponents p key n) = n.
Proof. unfold tau_exponents. by rewrite length_fmap, length_seq. Qed.

(** The batch of the powers of tau in G1. *)
Lemma tau_g1_batch (k s e : N) (d : bytes) :
  next_batch p (chunk_lo p) (chunk_hi p) k s e →
  written co (tau_powers_g1 target) (N.to_nat (k - chunk_lo p)) d →
  ∃ d', apply_powers E (C := G1Affine E) co (pt_tau_g1 xi) ci check (in_chunk_index p s) (in_chunk_index p e)
          (generate_powers_of_tau (tau key) s e) None d = (Ok tt, d') ∧
    written co (tau_powers_g1 target) (N.to_nat (e - chunk_lo p)) d' ∧ length d' = length d.
Proof.
  intros (Hlo & Hse & Hk & _ & _ & _) Hw. pose proof (reg_hi _ _ Hp) as Hhi.
  destruct (holds_lengths _ _ _ _ _ Hin) as (Hl & _). pose proof n_tau_g1_small as Hsm.
  assert (N.to_nat (chunk_hi p - chunk_lo p) = n_tau_g1 p) as Hn by (unfold chunk_hi, n_tau_g1; lia).
  destruct (batch_exponents s e e (length (tau_powers_g1 acc))) as [Hpl Hpe]; [done | lia | lia|].
  assert (tau_powers_g1 target =
    scale (tau_powers_g1 acc) (with_coeff None (tau_exponents p key (length (tau_powers_g1 acc))))) as Ht
    by (unfold contributed; by destruct (p1_proving_system p)).
  rewrite Ht in *. rewrite !in_chunk_index_lo by bounds_lia.
  apply (apply_powers_written _ _ _ _ _ _ _ _ _ (N.to_nat (k - chunk_lo p))); try done; try lia.
  - apply Hin.
  - apply tau_exponents_length.
  - apply (reg_g1 _ _ Hp).
Qed.

Lemma other_hi_le : p1_proving_system p = Groth16 → (other_hi p ≤ chunk_hi p)%N.
Proof. intros Hs. pose proof (other_le p Hp Hs). unfold other_hi, chunk_hi. lia. Qed.

(** The end of a batch for the shorter sections. *)
Lemma other_end_min (k s e : N) :
  p1_proving_system p = Groth16 → next_batch p (chunk_lo p) (chunk_hi p) k s e → (s < powers_length p)%N →
  other_end p s e = N.min e (other_hi p) ∧ (s < N.min e (other_hi p))%N.
Proof.
  intros Hs (Hlo & Hse & _ & Hsize & Hend & _) Hsp. pose proof (reg_hi _ _ Hp). pose proof (reg_batch _ _ Hp).
  pose proof (reg_other _ _ Hp Hs) as Ho. rewrite (proj2 (N.ltb_lt _ _)) in Ho by lia.
  assert (other_hi p = N.min (chunk_hi p) (powers_length p)) as Hoh by (unfold other_hi; lia).
  unfold other_end. rewrite (reg_other_max _ _ Hp Hs), <-Hoh, usize_add_exact by bounds_lia.
  destruct (N.ltb_spec (other_hi p) (s + p1_batch_size p)); lia.
Qed.
(** A batch that starts beyond them leaves the shorter sections done. *)
Lemma other_done (k s e : N) :
  p1_proving_system p = Groth16 → next_batch p (chunk_lo p) (chunk_hi p) k s e → (powers_length p ≤ s)%N →
  (N.min e (other_hi p) = N.min k (other_hi p))%N.
Proof.
  intros Hs (Hlo & Hse & Hk & _ & _ & _) Hsp. pose proof (reg_other _ _ Hp Hs) as Ho. unfold other_hi.
  destruct (N.ltb_spec (chunk_lo p) (powers_length p)); lia.
Qed.

(** The batch of one of the shorter sections. *)
Lemma other_batch {C : AffineCurve (Fr E)} `{!CurveLaws C} (k s e : N) (input d : bytes) (l : list C) coeff :
  p1_proving_system p = Groth16 → next_batch p (chunk_lo p) (chunk_hi p) k s e → (s < powers_length p)%N →
  decodes ci check input l → length l = N.to_nat (other_chunk_size p) →
  (∀ c, serialized_size C c < 2 ^ 12)%N →
  written co (scale l (with_coeff coeff (tau_exponents p key (length l))))
    (N.to_nat (N.min k (other_hi p) - chunk_lo p)) d →
  ∃ d', apply_powers E (C := C) co input ci check (in_chunk_index p s) (in_chunk_index p (other_end p s e))
          (generate_powers_of_tau (tau key) s e) coeff d = (Ok tt, d') ∧
    written co (scale l (with_coeff coeff (tau_exponents p key (length l))))
      (N.to_nat (N.min e (other_hi p) - chunk_lo p)) d' ∧ length d' = length d.
Proof.
  intros Hs Hb Hsp Hd Hl Hw Hwr. destruct (other_end_min k s e Hs Hb Hsp) as [-> Hlt].
  pose proof (other_hi_le Hs). destruct Hb as (Hlo & Hse & Hk & _ & _ & _). pose proof (reg_hi _ _ Hp).
  destruct (batch_exponents s e (N.min e (other_hi p)) (length l)) as [Hpl Hpe];
    [done | lia | unfold other_hi; lia|].
  rewrite !in_chunk_index_lo by bounds_lia.
  apply (apply_powers_written _ _ _ _ _ _ _ _ _ (N.to_nat (N.min k (other_hi p) - chunk_lo p))); try done.
  - apply tau_exponents_length.
  - lia.
  - unfold other_hi. lia.
  - rewrite Hl. pose proof (other_le p Hp Hs). pose proof (g1_chunk_small p Hp). lia.
Qed.

Lemma section_nonempty {C : AffineCurve (Fr E)} `{!CurveLaws C} (n : nat) c :
  0 < n → (0 <? N.of_nat (n * width C c))%N = true.
Proof. intros Hn. pose proof (width_pos (C := C) c). apply N.ltb_lt. nia. Qed.

Lemma tau_g1_nonempty : nonempty (sb_tau_g1 (ranges (E := E) p ci)) = true.
Proof.
  apply (section_nonempty (C := G1Affine E)). pose proof (reg_pos _ _ Hp). unfold n_tau_g1. lia.
Qed.
Lemma others_nonempty :
  p1_proving_system p = Groth16 → (0 < other_chunk_size p)%N →
  nonempty (sb_tau_g2 (ranges (E := E) p ci)) = true ∧ nonempty (sb_alpha_g1 (ranges (E := E) p ci)) = true ∧
  nonempty (sb_beta_g1 (ranges (E := E) p ci)) = true.
Proof.
  intros Hs Hpos. unfold nonempty, ranges. cbn. unfold n_tau_g2, n_alpha, n_beta. rewrite Hs. cbn.
  split_and!; (apply (section_nonempty (C := G1Affine E)) || apply (section_nonempty (C := G2Affine E))); lia.
Qed.

Lemma expect_ok {S A} (m : on S A) s a s' : m s = (Ok a, s') → expect m s = (Ok a, s').
Proof. unfold expect. by intros ->. Qed.

Lemma contribute_groth16_batch x0 (k s e : N) st :
  p1_proving_system p = Groth16 → next_batch p (chunk_lo p) (chunk_hi p) k s e →
  (∃ x, st = join x ∧ progress x0 k x) →
  ∃ st', contribute_groth16 E p ci co check key (join xi) (ranges (E := E) p ci) (ranges (E := E) p co) s e st
           = (Ok tt, st') ∧ (∃ x, st' = join x ∧ progress x0 e x).
Proof.
  intros Hs Hb (x & -> & [Hf Hh Hr Hb2 H1 H2 H3 H4]). rewrite Hs in H2, H3, H4.
  destruct (holds_lengths _ _ _ _ _ Hin) as (L1 & L2 & L3 & L4).
  pose proof (hold_fits _ _ _ _ _ Hin) as Hfi. unfold n_tau_g2, n_alpha, n_beta in L2, L3, L4.
  rewrite Hs in L2, L3, L4.
  unfold contribute_groth16. cbv zeta. unfold bind at 1, assert at 1. rewrite tau_g1_nonempty.
  rewrite (view_tau_g1 p ci xi Hfi).
  destruct (tau_g1_batch k s e _ Hb H1) as (d1 & E1 & W1 & D1).
  unfold bind at 1. rewrite (expect_ok _ _ _ _ (within_tau_g1 p co x Hf _ _ _ E1)).
  pose proof (fits_tau_g1 p co x d1 Hf D1) as Hf1. set (x1 := set_tau_g1 d1 x) in *.
  destruct (N.ltb_spec s (powers_length p)) as [Hsp|Hsp].
  2: { exists (join x1). split; [done|]. exists x1. split; [done|].
       split; rewrite ?Hs, ?(other_done k s e Hs Hb Hsp); try done. }
  unfold contributed in H2, H3, H4. rewrite Hs in H2, H3, H4. cbn in H2, H3, H4.
  assert (0 < other_chunk_size p)%N as Hpos.
  { destruct (other_end_min k s e Hs Hb Hsp) as [_ Hlt]. destruct Hb. unfold other_hi in Hlt. lia. }
  destruct (others_nonempty Hs Hpos) as (N2 & N3 & N4). unfold assert. rewrite N2, N3, N4.
  rewrite (view_tau_g2 p ci xi Hfi), (view_alpha p ci xi Hfi), (view_beta p ci xi Hfi).
  destruct (other_batch k s e (pt_tau_g2 xi) (pt_tau_g2 x1) _ None Hs Hb Hsp (hold_tau_g2 _ _ _ _ _ Hin) L2
    (reg_g2 _ _ Hp) H2) as (d2 & E2 & W2 & D2).
  pose proof (fits_tau_g2 p co x1 d2 Hf1 D2) as Hf2.
  destruct (other_batch k s e (pt_alpha_g1 xi) (pt_alpha_g1 x1) _ (Some (alpha key)) Hs Hb Hsp
    (hold_alpha _ _ _ _ _ Hin) L3 (reg_g1 _ _ Hp) H3) as (d3 & E3 & W3 & D3).
  pose proof (fits_alpha p co _ d3 Hf2 D3) as Hf3.
  destruct (other_batch k s e (pt_beta_g1 xi) (pt_beta_g1 x1) _ (Some (beta key)) Hs Hb Hsp
    (hold_beta _ _ _ _ _ Hin) L4 (reg_g1 _ _ Hp) H4) as (d4 & E4 & W4 & D4).
  pose proof (fits_beta p co _ d4 Hf3 D4) as Hf4.
  unfold bind. rewrite (expect_ok _ _ _ _ (within_tau_g2 p co x1 Hf1 _ _ _ E2)).
  rewrite (expect_ok _ _ _ _ (within_alpha p co _ Hf2 _ _ _ E3)).
  rewrite (expect_ok _ _ _ _ (within_beta p co _ Hf3 _ _ _ E4 D4)).
  eexists. split; [done|]. eexists. split; [done|].
  split; rewrite ?Hs; unfold contributed; rewrite ?Hs; try done.
  unfold contributed in W1. by rewrite Hs in W1.
Qed.

Lemma contribute_marlin_batch x0 (k s e : N) st :
  p1_proving_system p = Marlin → next_batch p (chunk_lo p) (chunk_hi p) k s e →
  (∃ x, st = join x ∧ progress x0 k x) →
  ∃ st', contribute_marlin E p ci co check key (join xi) (ranges (E := E) p ci) (ranges (E := E) p co) s e st
           = (Ok tt, st') ∧ (∃ x, st' = join x ∧ progress x0 e x).
Proof.
  intros Hs Hb (x & -> & [Hf Hh Hr Hb2 H1 H2 H3 H4]). rewrite Hs in H2, H3, H4.
  pose proof (hold_fits _ _ _ _ _ Hin) as Hfi. unfold contribute_marlin. rewrite (view_tau_g1 p ci xi Hfi).
  destruct (tau_g1_batch k s e _ Hb H1) as (d1 & E1 & W1 & D1).
  rewrite (expect_ok _ _ _ _ (within_tau_g1 p co x Hf _ _ _ E1)).
  pose proof (fits_tau_g1 p co x d1 Hf D1) as Hf1.
  eexists. split; [done|]. eexists. split; [done|]. by split; rewrite ?Hs.
Qed.

(** A section written in two pieces, the second one first. *)
Lemma two_pieces {C : AffineCurve (Fr E)} `{!CurveLaws C} (input out : bytes) (l : list C) e1 e2 coeff :
  decodes ci check input l → length (e1 ++ e2) = length l → length out = length l * width C co →
  (N.of_nat (length l) < 2 ^ 42)%N → (∀ c, serialized_size C c < 2 ^ 12)%N →
  ∃ out1,
    apply_powers E (C := C) co input ci check (N.of_nat (length e1)) (N.of_nat (length l)) e2 coeff out
      = (Ok tt, out1) ∧ length out1 = length out ∧
    apply_powers E (C := C) co input ci check 0 (N.of_nat (length e1)) e1 coeff out1
      = (Ok tt, encode co (scale l (with_coeff coeff (e1 ++ e2)))).
Proof.
  intros Hd Hexp Hout Hsmall Hw. rewrite length_app in Hexp.
  set (target := scale l (with_coeff coeff (e1 ++ e2))).
  assert (length target = length l) as Ht by
    (apply scale_length; rewrite with_coeff_length, length_app; done).
  assert (length (take (length l - length e1) (list.drop (length e1) target)) = length e2) as Hseg
    by (rewrite length_take, length_drop; lia).
  assert (length (take (length e1 * width C co) out) = length e1 * width C co) as Hfront
    by (rewrite length_take; nia).
  eexists. split; [|split].
  - apply (apply_powers_ok ci co check input out l (e1 ++ e2)); try done; try lia.
    + by rewrite length_app.
    + by rewrite drop_app_length.
  - fold target. rewrite !length_app, Hfront, encode_length, Hseg, length_drop. nia.
  - fold target. match goal with |- apply_powers _ _ _ _ _ _ _ _ _ ?o = _ => set (out1 := o) end.
    assert (list.drop (length e1 * width C co) out1 = encode co (list.drop (length e1) target)) as Hback.
    { subst out1. rewrite drop_app_length' by done. rewrite (drop_ge out) by lia. rewrite app_nil_r.
      by rewrite take_ge by (rewrite length_drop; lia). }
    change 0%N with (N.of_nat 0).
    rewrite (apply_powers_ok ci co check input out1 l (e1 ++ e2)); try done; try lia.
    + rewrite Hback. cbn [Nat.mul]. rewrite take_0, drop_0, Nat.sub_0_r. fold target.
      rewrite app_nil_l, <-encode_app, take_drop. done.
    + by rewrite length_app.
    + rewrite Nat.sub_0_r, drop_0, take_app_length. by rewrite take_ge.
    + subst out1. rewrite !length_app, Hfront, encode_length, Hseg, length_drop. nia.
Qed.

Lemma scale_in_subgroup {C : AffineCurve (Fr E)} `{!CurveLaws C} (l : list C) exponents :
  Forall in_subgroup l → Forall in_subgroup (scale l exponents).
Proof.
  intros H. revert exponents. induction H as [|q l Hq _ IH]; intros [|e exponents]; constructor; [|apply IH].
  by apply mul_in_subgroup.
Qed.
Lemma contributed_in_group : in_group acc → in_group target.
Proof.
  intros (H1 & H2 & H3 & H4 & H5). unfold contributed, in_group.
  destruct (p1_proving_system p); cbn; split_and!; try done;
    (by apply scale_in_subgroup) || by apply mul_in_subgroup.
Qed.

Lemma decodes_encoded {C : AffineCurve (Fr E)} `{!CurveLaws C} c (l : list C) :
  Forall in_subgroup l → decodes c CheckNo (encode c l) l.
Proof. intros H. apply decodes_encode; [done|]. by apply Forall_true. Qed.

Lemma degree_bound_powers_length : length (degree_bound_powers E p key) = N.to_nat (total_size_in_log2 p).
Proof. unfold degree_bound_powers. rewrite length_fmap, u64_range_length. lia. Qed.
Lemma g2_exponents_length : length (g2_exponents p key) = N.to_nat (total_size_in_log2 p) + 2.
Proof.
  unfold g2_exponents, generate_powers_of_tau. rewrite length_app, length_fmap, u64_range_length.
  rewrite <-(Forall2_length _ _ _ (batch_inversion_inverts (degree_bound_powers E p key))).
  rewrite degree_bound_powers_length. lia.
Qed.
Lemma alpha_exponents_length : length (alpha_exponents p key) = 3 + 3 * N.to_nat (total_size_in_log2 p).
Proof.
  unfold alpha_exponents, generate_powers_of_tau. rewrite length_app, length_fmap, u64_range_length.
  unfold degree_triples. rewrite (concat_length 3) by (by apply Forall_fmap, Forall_true).
  rewrite length_fmap, degree_bound_powers_length. lia.
Qed.

(** The sections of a Marlin contribution that only the first chunk has. *)
Lemma marlin_first_sections xo :
  p1_proving_system p = Marlin → p1_chunk_index p = 0%N → fits (E := E) p co xo →
  contribute_marlin_first E p ci co check key (join xi) (ranges (E := E) p ci) (ranges (E := E) p co) (join xo) =
    (Ok tt, join (set_tau_g2 (encode co (tau_powers_g2 target))
                    (set_alpha_g1 (encode co (alpha_tau_powers_g1 target)) xo))).
Proof.
  intros Hs Hi Hf. pose proof (hold_fits _ _ _ _ _ Hin) as Hfi.
  destruct (holds_lengths _ _ _ _ _ Hin) as (_ & L2 & L3 & _). pose proof (size_sums p Hp) as [S2 S3].
  unfold n_tau_g2, n_alpha in L2, L3. rewrite Hs, Hi in L2, L3. cbn [N.eqb] in L2, L3.
  pose proof (reg_size _ _ Hp).
  destruct (two_pieces (pt_tau_g2 xi) (pt_tau_g2 xo) (tau_powers_g2 acc) (generate_powers_of_tau (tau key) 0 2)
    (batch_inversion (degree_bound_powers E p key)) None) as (d2 & A2 & D2 & B2).
  { apply Hin. } { rewrite L2. apply g2_exponents_length. }
  { rewrite (fit_tau_g2 _ _ _ Hf), L2. unfold n_tau_g2. by rewrite Hs, Hi. }
  { bounds_lia. } { apply (reg_g2 _ _ Hp). }
  destruct (two_pieces (pt_alpha_g1 xi) (pt_alpha_g1 xo) (alpha_tau_powers_g1 acc)
    (generate_powers_of_tau (tau key) 0 3) (degree_triples p key) (Some (alpha key))) as (d3 & A3 & D3 & B3).
  { apply Hin. } { rewrite L3. apply alpha_exponents_length. }
  { rewrite (fit_alpha _ _ _ Hf), L3. unfold n_alpha. by rewrite Hs, Hi. }
  { bounds_lia. } { apply (reg_g1 _ _ Hp). }
  rewrite L2 in A2. rewrite L3 in A3.
  change (N.of_nat (length (generate_powers_of_tau (tau key) 0 2))) with 2%N in A2, B2.
  change (N.of_nat (length (generate_powers_of_tau (tau key) 0 3))) with 3%N in A3, B3.
  unfold contribute_marlin_first. cbv zeta. rewrite S2, S3.
  rewrite (view_tau_g2 p ci xi Hfi), (view_alpha p ci xi Hfi). fold (degree_triples p key).
  replace (total_size_in_log2 p + 2)%N with (N.of_nat (N.to_nat (total_size_in_log2 p) + 2)) by lia.
  replace (3 + 3 * total_size_in_log2 p)%N with (N.of_nat (3 + 3 * N.to_nat (total_size_in_log2 p))) by lia.
  pose proof (fits_tau_g2 p co xo d2 Hf D2) as Hf2. pose proof (fits_alpha p co _ d3 Hf2 D3) as Hf3.
  unfold bind. rewrite (expect_ok _ _ _ _ (within_tau_g2 p co xo Hf _ _ _ A2)).
  rewrite (expect_ok _ _ _ _ (within_alpha p co _ Hf2 _ _ _ A3)).
  rewrite (expect_ok _ _ _ _ (within_alpha p co _ Hf3 _ _ _ B3)).
  assert (fits (E := E) p co (set_alpha_g1 (encode co (scale (alpha_tau_powers_g1 acc)
    (with_coeff (Some (alpha key)) (generate_powers_of_tau (tau key) 0 3 ++ degree_triples p key))))
    (set_alpha_g1 d3 (set_tau_g2 d2 xo)))) as Hf4.
  { apply fits_alpha; [done|]. cbn [set_alpha_g1 set_tau_g2 pt_alpha_g1]. rewrite encode_length, scale_length.
    - rewrite D3, (fit_alpha _ _ _ Hf), L3. unfold n_alpha. by rewrite Hs, Hi.
    - rewrite with_coeff_length, L3. apply alpha_exponents_length. }
  rewrite (expect_ok _ _ _ _ (within_tau_g2 p co _ Hf4 _ _ _ B2)).
  unfold contributed. rewrite Hs. done.
Qed.

Lemma contributed_lengths :
  length (tau_powers_g1 target) = n_tau_g1 p ∧ length (tau_powers_g2 target) = n_tau_g2 p ∧
  length (alpha_tau_powers_g1 target) = n_alpha p ∧ length (beta_tau_powers_g1 target) = n_beta p.
Proof.
  destruct (holds_lengths _ _ _ _ _ Hin) as (L1 & L2 & L3 & L4).
  assert (∀ k n, length (times_key k (tau_exponents p key n)) = n) as Hk.
  { intros k n. unfold times_key. by rewrite length_fmap, tau_exponents_length. }
  unfold contributed, scale. destruct (p1_proving_system p) eqn:Hs; cbn;
    rewrite !length_zip_with, ?Hk, ?tau_exponents_length; [lia|].
  unfold n_tau_g2, n_alpha in *. rewrite Hs in *. unfold times_key.
  rewrite length_fmap, g2_exponents_length, alpha_exponents_length, L1, L2, L3.
  destruct (p1_chunk_index p =? 0)%N; lia.
Qed.

Lemma write_exact {C : AffineCurve (Fr E)} `{!CurveLaws C} c (q : C) (d : bytes) :
  length d = width C c → write_element q c d = (Ok tt, serialize c q).
Proof. intros Hd. rewrite write_element_ok by lia. by rewrite drop_ge, app_nil_r by lia. Qed.

(** Nothing is done before the first batch. *)
Lemma progress_start x0 : fits (E := E) p co x0 → progress x0 (chunk_lo p) x0.
Proof.
  intros Hf. destruct contributed_lengths as (L1 & L2 & L3 & L4). destruct Hf eqn:Ef.
  assert (N.to_nat (N.min (chunk_lo p) (other_hi p) - chunk_lo p) = 0) as Hz by lia.
  split; try done; rewrite ?Hz, ?N.sub_diag.
  - apply written_0. by rewrite L1.
  - destruct (p1_proving_system p); [|done]. apply written_0. by rewrite L2.
  - destruct (p1_proving_system p); [|done]. apply written_0. by rewrite L3.
  - destruct (p1_proving_system p); [|done]. apply written_0. by rewrite L4.
Qed.

(** All is done after the last. *)
Lemma progress_end x0 x :
  in_group acc → progress x0 (chunk_hi p) x →
  (p1_proving_system p = Marlin → decodes co CheckNo (pt_tau_g2 x0) (tau_powers_g2 target) ∧
     decodes co CheckNo (pt_alpha_g1 x0) (alpha_tau_powers_g1 target)) →
  match p1_proving_system p with
  | Groth16 => decodes co CheckNo (pt_beta_g2 x0) [beta_g2 target]
  | Marlin => beta_g2 target = prime_subgroup_generator
  end →
  holds p co CheckNo x target.
Proof.
  intros Hgrp [Hf _ _ Hb W1 W2 W3 W4] Hmarlin Hbeta.
  destruct contributed_lengths as (L1 & L2 & L3 & L4).
  destruct (contributed_in_group Hgrp) as (G1 & G2 & G3 & G4 & _).
  assert (N.to_nat (chunk_hi p - chunk_lo p) = n_tau_g1 p) as Hfull by (unfold chunk_hi, n_tau_g1; lia).
  rewrite Hfull, <-L1 in W1. apply written_all in W1.
  unfold n_tau_g2, n_alpha, n_beta in L2, L3, L4. destruct (p1_proving_system p) eqn:Hs.
  - pose proof (other_hi_le Hs) as Hle.
    assert (N.to_nat (N.min (chunk_hi p) (other_hi p) - chunk_lo p) = N.to_nat (other_chunk_size p)) as Ho
      by (unfold other_hi in *; lia).
    rewrite Ho in W2, W3, W4. rewrite <-L2 in W2. rewrite <-L3 in W3. rewrite <-L4 in W4.
    apply written_all in W2, W3, W4.
    split; rewrite ?Hs, ?W1, ?W2, ?W3, ?W4, ?Hb; try done; by apply decodes_encoded.
  - destruct (Hmarlin eq_refl) as [M2 M3]. apply nil_length_inv in L4.
    pose proof (fit_beta _ _ _ Hf) as F4. unfold n_beta in F4. rewrite Hs in F4. apply nil_length_inv in F4.
    split; rewrite ?Hs, ?W1, ?W2, ?W3, ?L4, ?F4; try done; [by apply decodes_encoded|].
    by apply (decodes_encoded (C := G1Affine E) co []).
Qed.

(** The whole computation, on the parts of the output. *)
Lemma computation_parts xo :
  fits (E := E) p co xo → in_group acc →
  ∃ x', computation E (join xi) ci co check key p (join xo) = (Ok tt, join x') ∧
    holds p co CheckNo x' target ∧ pt_hash x' = pt_hash xo ∧ pt_rest x' = pt_rest xo.
Proof.
  intros Hf Hgrp. pose proof (hold_fits _ _ _ _ _ Hin) as Hfi. pose proof (contributed_in_group Hgrp) as Htg.
  unfold computation. rewrite (split_join p Hp ci xi Hfi), (split_mut_join p Hp co xo Hf).
  unfold bind at 1, lift at 1. unfold bind at 1, lift at 1.
  pose proof (reg_hi _ _ Hp). pose proof (reg_batch _ _ Hp). pose proof (reg_pos _ _ Hp).
  assert (chunk_lo p < chunk_hi p)%N as Hlt by (unfold chunk_hi; lia).
  pose proof (hold_beta_g2 _ _ _ _ _ Hin) as Hbi. pose proof (fit_beta_g2 _ _ _ Hfi) as Lbi.
  pose proof (fit_beta_g2 _ _ _ Hf) as Lbo. unfold n_beta_g2 in Lbi, Lbo.
  destruct (p1_proving_system p) eqn:Hs.
  - rewrite Nat.mul_1_l in Lbi, Lbo. apply decodes_single in Hbi; [|done].
    rewrite (view_beta_g2 p ci xi Hfi). unfold bind at 1, lift at 1. rewrite Hbi.
    set (b := mul (beta_g2 acc) (beta key)).
    pose proof (write_exact co b (pt_beta_g2 xo) Lbo) as Ew.
    assert (length (serialize co b) = length (pt_beta_g2 xo)) as Lb by (rewrite serialize_width; lia).
    unfold bind at 1. rewrite (within_beta_g2 p co xo Hf _ _ _ Ew Lb).
    set (x0 := set_beta_g2 (serialize co b) xo). pose proof (fits_beta_g2 p co xo _ Hf Lb) as Hf0.
    destruct (iter_chunk_inv p (chunk_lo p) (chunk_hi p) (reg_bounds _ _ Hp) ltac:(bounds_lia) ltac:(bounds_lia)
      (contribute_groth16 E p ci co check key (join xi) (ranges (E := E) p ci) (ranges (E := E) p co))
      (λ k st, ∃ x, st = join x ∧ progress x0 k x) (join x0) Hlt) as (st' & Hrun & x' & -> & Hpg).
    { exists x0. split; [done|]. by apply progress_start. }
    { intros k s e st Hb Hst. by apply (contribute_groth16_batch x0 k s e st). }
    exists x'. split; [exact Hrun|]. split; [|split; apply Hpg].
    apply (progress_end x0); try done; [by rewrite Hs|]. rewrite Hs. cbn.
    unfold contributed. rewrite Hs. cbn. apply decodes_single; [apply serialize_width|].
    rewrite <-(app_nil_r (serialize co _)). apply read_element_ok; [|done].
    apply mul_in_subgroup, Hgrp.
  - assert (∃ x0, (if (p1_chunk_index p =? 0)%N
        then contribute_marlin_first E p ci co check key (join xi) (ranges (E := E) p ci) (ranges (E := E) p co)
        else ret tt) (join xo) = (Ok tt, join x0) ∧ fits (E := E) p co x0 ∧
      decodes co CheckNo (pt_tau_g2 x0) (tau_powers_g2 target) ∧
      decodes co CheckNo (pt_alpha_g1 x0) (alpha_tau_powers_g1 target) ∧
      pt_hash x0 = pt_hash xo ∧ pt_rest x0 = pt_rest xo) as (x0 & Hfirst & Hf0 & M2 & M3 & Hh & Hr).
    { destruct contributed_lengths as (_ & L2 & L3 & _).
      destruct Htg as (_ & G2 & G3 & _).
      destruct (N.eqb_spec (p1_chunk_index p) 0) as [Hi|Hi].
      - eexists. split; [by apply marlin_first_sections|]. cbn. split_and!; try done; try by apply decodes_encoded.
        apply fits_tau_g2; [apply fits_alpha; [done|]|]; cbn; rewrite encode_length.
        + rewrite (fit_alpha _ _ _ Hf). by rewrite L3.
        + rewrite (fit_tau_g2 _ _ _ Hf). by rewrite L2.
      - exists xo. split; [done|]. split; [done|].
        pose proof (fit_tau_g2 _ _ _ Hf) as F2. pose proof (fit_alpha _ _ _ Hf) as F3.
        unfold n_tau_g2, n_alpha in *. rewrite Hs, (proj2 (N.eqb_neq _ _) Hi) in *.
        apply nil_length_inv in F2, F3, L2, L3. rewrite F2, F3, L2, L3.
        split; [by apply (decodes_encoded (C := G2Affine E) co [])|].
        split; [by apply (decodes_encoded (C := G1Affine E) co [])|]. done. }
    unfold bind at 1. rewrite Hfirst.
    destruct (iter_chunk_inv p (chunk_lo p) (chunk_hi p) (reg_bounds _ _ Hp) ltac:(bounds_lia) ltac:(bounds_lia)
      (contribute_marlin E p ci co check key (join xi) (ranges (E := E) p ci) (ranges (E := E) p co))
      (λ k st, ∃ x, st = join x ∧ progress x0 k x) (join x0) Hlt) as (st' & Hrun & x' & -> & Hpg).
    { exists x0. split; [done|]. by apply progress_start. }
    { intros k s e st Hb Hst. by apply (contribute_marlin_batch x0 k s e st). }
    exists x'. split; [exact Hrun|]. split; [|by split; [rewrite (pg_hash _ _ _ Hpg) | rewrite (pg_rest _ _ _ Hpg)]].
    apply (progress_end x0); try done. rewrite Hs. unfold contributed. by rewrite Hs.
Qed.
End chunk.

(** ** Parameters are regular *)

Record parameter_bounds (E : PairingEngine) (mode : ContributionMode) (index chunk_size : N)
    (ps : ProvingSystem) (size batch : N) : Prop := {
  pb_size : (size < 40)%N;
  pb_batch : (2 ≤ batch < 2 ^ 32)%N;
  pb_chunk : (chunk_size < 2 ^ 40)%N;
  pb_mode : match mode with
            | Chunked => (0 < chunk_size)%N ∧ (index * chunk_size < total_size ps size)%N
            | Full => index = 0%N
            end;
  pb_g1 c : (serialized_size (G1Affine E) c < 2 ^ 12)%N;
  pb_g2 c : (serialized_size (G2Affine E) c < 2 ^ 12)%N;
}.

Section parameters.
Context {E : PairingEngine} `{!EngineLaws E}.
Context (mode : ContributionMode) (index chunk_size : N) (ps : ProvingSystem) (size batch : N).
Context (Hb : parameter_bounds E mode index chunk_size ps size batch).
Notation p := (new_parameters mode index chunk_size (curve_parameters_new E) ps size batch).

Lemma powers_bounds :
  powers_length_of size = (2 ^ size)%N ∧ upper_bound ps size = total_size ps size ∧
  (0 < 2 ^ size < 1099511627776)%N ∧ (2 ^ size ≤ total_size ps size < 2199023255552)%N.
Proof. apply (powers_exact ps size), Hb. Qed.

Lemma powers_g1_exact : powers_g1_length_of size = (2 * 2 ^ size - 1)%N.
Proof.
  destruct powers_bounds as (Hl & _ & Hlt & _). unfold powers_g1_length_of, usize. rewrite Hl.
  rewrite N.mod_small by bounds_lia. apply u64_sub_exact; bounds_lia.
Qed.
Lemma total_size_groth16 : total_size Groth16 size = (2 * 2 ^ size - 1)%N.
Proof. unfold total_size. by rewrite N.add_1_r, N.pow_succ_r'. Qed.

(** The bounds of the chunk without the machine arithmetic. *)
Definition exact_hi : N :=
  match mode with Chunked => N.min ((index + 1) * chunk_size) (total_size ps size) | Full => total_size ps size end.
Definition exact_lo : N := match mode with Chunked => index * chunk_size | Full => 0 end.

Lemma exact_bounds : (exact_lo < exact_hi ≤ total_size ps size)%N.
Proof.
  destruct powers_bounds as (_ & _ & Hlt & Hle). pose proof (pb_mode _ _ _ _ _ _ _ Hb) as Hm.
  unfold exact_lo, exact_hi. destruct mode; nia.
Qed.
Lemma chunk_products :
  mode = Chunked → usize (index * chunk_size) = (index * chunk_size)%N ∧
  usize ((index + 1) * chunk_size) = ((index + 1) * chunk_size)%N ∧
  usize_mul index chunk_size = (index * chunk_size)%N ∧
  usize_mul (usize_add index 1) chunk_size = ((index + 1) * chunk_size)%N.
Proof.
  intros Hmode. destruct powers_bounds as (_ & _ & Hlt & Hle). pose proof (pb_mode _ _ _ _ _ _ _ Hb) as Hm.
  rewrite Hmode in Hm. pose proof (pb_chunk _ _ _ _ _ _ _ Hb) as Hc.
  change (2 ^ 40)%N with 1099511627776%N in Hc.
  assert (index < 2199023255552)%N by nia.
  unfold usize. rewrite !N.mod_small by (change u64_modulus with 18446744073709551616%N; nia).
  rewrite u64_add_exact by bounds_lia.
  by rewrite !u64_mul_exact by (change u64_modulus with 18446744073709551616%N; nia).
Qed.

Lemma chunk_sizes_regular :
  chunk_sizes mode index chunk_size ps size =
    ((exact_hi - exact_lo)%N,
     match ps with
     | Groth16 => if (exact_lo <? 2 ^ size)%N then (N.min exact_hi (2 ^ size) - exact_lo)%N else 0%N
     | Marlin => 0%N
     end).
Proof.
  destruct powers_bounds as (Hl & Hu & Hlt & Hle). pose proof exact_bounds as Hex.
  pose proof (pb_mode _ _ _ _ _ _ _ Hb) as Hm. pose proof chunk_products as Hprod.
  unfold chunk_sizes. rewrite Hl, Hu. unfold exact_lo, exact_hi in *. destruct mode.
  - rewrite N.ltb_irrefl. rewrite u64_sub_exact by bounds_lia. f_equal. destruct ps; [|done].
    rewrite (proj2 (N.leb_gt _ 0)), andb_false_r by lia.
    destruct (N.ltb_spec (2 ^ size) (total_size Groth16 size)), (N.ltb_spec 0 (2 ^ size)); rewrite ?u64_sub_exact by bounds_lia; lia.
  - destruct (Hprod eq_refl) as (-> & -> & _ & _). destruct Hm as [Hc Hi]. f_equal.
    + destruct (N.ltb_spec (total_size ps size) ((index + 1) * chunk_size));
        rewrite u64_sub_exact by (change u64_modulus with 18446744073709551616%N; nia); nia.
    + destruct ps; [|done].
      destruct (N.ltb_spec (2 ^ size) ((index + 1) * chunk_size)), (N.leb_spec (2 ^ size) (index * chunk_size)),
        (N.ltb_spec (index * chunk_size) (2 ^ size)); cbn [andb]; try lia;
        rewrite ?u64_sub_exact by (change u64_modulus with 18446744073709551616%N; nia); nia.
Qed.

Lemma new_parameters_regular : regular E p.
Proof.
  destruct powers_bounds as (Hl & Hu & Hlt & Hle). pose proof exact_bounds as Hex.
  pose proof chunk_sizes_regular as Hcs. pose proof chunk_products as Hprod.
  pose proof (pb_mode _ _ _ _ _ _ _ Hb) as Hm. pose proof powers_g1_exact as Hg1.
  assert (match ps with Groth16 => powers_g1_length_of size | Marlin => powers_length_of size end =
          total_size ps size) as Hub by (destruct ps; [rewrite total_size_groth16|]; done).
  unfold new_parameters. rewrite Hcs.
  split; cbn [hash_size p1_contribution_mode p1_chunk_index p1_chunk_size p1_proving_system g1_chunk_size
    other_chunk_size powers_g1_length powers_length total_size_in_log2 p1_batch_size];
    unfold chunk_hi, chunk_lo, iter_bounds, other_max;
    cbn [hash_size p1_contribution_mode p1_chunk_index p1_chunk_size p1_proving_system g1_chunk_size
    other_chunk_size powers_g1_length powers_length total_size_in_log2 p1_batch_size];
    rewrite ?Hub, ?Hl.
  - done.
  - unfold exact_lo, exact_hi in *. destruct mode; [f_equal; lia|].
    destruct (Hprod eq_refl) as (_ & _ & -> & ->). f_equal. lia.
  - lia.
  - intros ->. by destruct (Hprod eq_refl) as (_ & _ & -> & _).
  - intros ->. unfold exact_lo, exact_hi in *. destruct mode; [|]; case_match; lia.
  - intros Hps. assert (total_size ps size = 2 * 2 ^ size - 1)%N as Ht by (rewrite Hps; apply total_size_groth16).
    unfold exact_lo, exact_hi in *. rewrite Ht in *.
    destruct mode; [lia|]. destruct (Hprod eq_refl) as (_ & _ & _ & ->). lia.
  - by intros ->.
  - destruct mode; [done|]. nia.
  - done.
  - apply Hb.
  - unfold exact_lo, exact_hi in *. change (2 ^ 41)%N with 2199023255552%N. destruct mode; lia.
  - apply Hb.
  - apply (pb_g1 _ _ _ _ _ _ _ Hb).
  - apply (pb_g2 _ _ _ _ _ _ _ Hb).
Qed.

(** The length the parameters state is the length of the layout. *)
Lemma elements_size_layout (c : UseCompression) :
  (elements_size ps index size (serialized_size (G1Affine E) c) (serialized_size (G2Affine E) c)
    (g1_chunk_size p) (other_chunk_size p) + 64)%N = N.of_nat (accumulator_length (E := E) p c) ∧
  (N.of_nat (accumulator_length (E := E) p c) < 2 ^ 63)%N.
Proof.
  pose proof new_parameters_regular as Hr. pose proof (g1_chunk_small p Hr) as Hg.
  assert (other_chunk_size p ≤ g1_chunk_size p)%N as Ho.
  { unfold new_parameters. rewrite chunk_sizes_regular. cbn [g1_chunk_size other_chunk_size].
    generalize exact_hi exact_lo. intros hi lo. repeat case_match; lia. }
  assert (p1_proving_system p = ps ∧ p1_chunk_index p = index ∧ total_size_in_log2 p = size) as (E1 & E2 & E3).
  { unfold new_parameters. by rewrite chunk_sizes_regular. }
  pose proof (pb_g1 _ _ _ _ _ _ _ Hb c). pose proof (pb_g2 _ _ _ _ _ _ _ Hb c). pose proof (pb_size _ _ _ _ _ _ _ Hb).
  unfold accumulator_length, n_tau_g1, n_tau_g2, n_alpha, n_beta, n_beta_g2, width, elements_size.
  rewrite E1, E2, E3. set (a := g1_chunk_size p) in *. set (b := other_chunk_size p) in *.
  set (u := serialized_size (G1Affine E) c) in *. set (v := serialized_size (G2Affine E) c) in *.
  change (2 ^ 12)%N with 4096%N in *. change (2 ^ 42)%N with 4398046511104%N in *.
  change (2 ^ 63)%N with 9223372036854775808%N in *.
  assert (a * u ≤ 4398046511104 * 4096)%N by (apply N.mul_le_mono; lia).
  assert (b * u ≤ 4398046511104 * 4096)%N by (apply N.mul_le_mono; lia).
  assert (b * v ≤ 4398046511104 * 4096)%N by (apply N.mul_le_mono; lia).
  assert (size * u ≤ 40 * 4096)%N by (apply N.mul_le_mono; lia).
  assert (size * v ≤ 40 * 4096)%N by (apply N.mul_le_mono; lia).
  destruct ps; [|destruct (index =? 0)%N]; lia.
Qed.

Lemma get_length_layout c : get_length p c = N.of_nat (accumulator_length (E := E) p c).
Proof.
  destruct (elements_size_layout c) as [Hl Hlt].
  pose proof (pb_g1 _ _ _ _ _ _ _ Hb CompressionYes). pose proof (pb_g2 _ _ _ _ _ _ _ Hb CompressionYes).
  revert Hl Hlt. generalize (accumulator_length (E := E) p c). intros n.
  unfold get_length, new_parameters. destruct (chunk_sizes _ _ _ _ _) as [a b].
  cbn [accumulator_size contribution_size public_key_size g1_chunk_size other_chunk_size curve_parameters_new
    g1_size g2_size g1_compressed_size g2_compressed_size].
  change (2 ^ 12)%N with 4096%N in *. change (2 ^ 63)%N with 9223372036854775808%N in *.
  unfold usize. change u64_modulus with 18446744073709551616%N.
  destruct c; intros Hl Hlt.
  - rewrite (N.mod_small (3 * _ + _)) by lia. rewrite N.mod_small by lia.
    rewrite u64_sub_exact by (change u64_modulus with 18446744073709551616%N; lia). lia.
  - rewrite N.mod_small by lia. lia.
Qed.
End parameters.

(** ** The theorems *)

Section theorems.
Context {E : PairingEngine} `{!EngineLaws E, !Randomness E}.

(** Run on the parts of the buffers, put together again. *)
Lemma computation_result (p : Phase1Parameters) (key : PrivateKey E) ci co check
    (input output : bytes) (acc : Accumulator E)
    (Hp : regular E p)
    (Hinput : deserialize_accumulator E p ci check input = Ok acc)
    (Hin : accumulator_length (E := E) p ci ≤ length input)
    (Hout : accumulator_length (E := E) p co ≤ length output)
    (Hgroup : in_group acc) :
  ∃ output', computation E input ci co check key p output = (Ok tt, output') ∧
    deserialize_accumulator E p co CheckNo output' = Ok (contributed p key acc) ∧
    take 64 output' = take 64 output ∧
    list.drop (accumulator_length (E := E) p co) output' =
      list.drop (accumulator_length (E := E) p co) output ∧
    length output' = length output.
Proof.
  destruct (deserialize_holds_inv p ci check input acc Hp Hin Hinput) as (xi & -> & Hh).
  destruct (parts_exist p co output Hout) as (xo & -> & Hf).
  destruct (computation_parts p Hp key ci co check xi acc Hh xo Hf Hgroup) as (x & Hrun & Hx & Hhash & Hrest).
  exists (join x). split; [done|]. pose proof (hold_fits _ _ _ _ _ Hx) as Hfx.
  split; [by apply deserialize_holds|]. split; [|split].
  - pose proof (fit_hash _ _ _ Hf). pose proof (fit_hash _ _ _ Hfx).
    unfold join. by rewrite !take_app_length', Hhash by lia.
  - assert (∀ y, fits (E := E) p co y → list.drop (accumulator_length (E := E) p co) (join y) = pt_rest y) as Hd.
    { intros y [f0 f1 f2 f3 f4 f5]. unfold join. rewrite !app_assoc. apply drop_app_length'.
      rewrite !length_app, f0, f1, f2, f3, f4, f5. reflexivity. }
    by rewrite !Hd, Hrest.
  - by rewrite (join_length p co x Hfx), (join_length p co xo Hf), Hrest.
Qed.

(** C10. A contribution multiplies every element of the chunk by its own power
    of the contributor's key - whatever the batch size, with the compression
    of input and output chosen independently - and leaves the hash in front
    of the elements and everything behind them as they were. *)
Theorem computation_contributes (p : Phase1Parameters) (key : PrivateKey E) ci co check
    (input output : bytes) (acc : Accumulator E)
    (Hp : regular E p)
    (Hinput : deserialize_accumulator E p ci check input = Ok acc)
    (Hin : accumulator_length (E := E) p ci ≤ length input)
    (Hout : accumulator_length (E := E) p co ≤ length output)
    (Hgroup : in_group acc) :
  ∃ output', computation E input ci co check key p output = (Ok tt, output') ∧
    deserialize_accumulator E p co CheckNo output' = Ok (contributed p key acc) ∧
    take 64 output' = take 64 output ∧
    list.drop (accumulator_length (E := E) p co) output' =
      list.drop (accumulator_length (E := E) p co) output ∧
    length output' = length output.
Proof. by apply (computation_result p key ci co check input output acc). Qed.

(** ** Contributions in sequence *)

Definition key_nonzero (key : PrivateKey E) : Prop :=
  tau key ≠ fr_zero ∧ alpha key ≠ fr_zero ∧ beta key ≠ fr_zero.
Definition combine_keys (k1 k2 : PrivateKey E) : PrivateKey E :=
  MkPrivateKey (fr_mul (tau k1) (tau k2)) (fr_mul (alpha k1) (alpha k2)) (fr_mul (beta k1) (beta k2)).

(** No point is zero. *)
Definition nonzero (acc : Accumulator E) : Prop :=
  Forall (λ q, q ≠ zero) (tau_powers_g1 acc) ∧ Forall (λ q, q ≠ zero) (tau_powers_g2 acc) ∧
  Forall (λ q, q ≠ zero) (alpha_tau_powers_g1 acc) ∧ Forall (λ q, q ≠ zero) (beta_tau_powers_g1 acc) ∧
  beta_g2 acc ≠ zero.

Lemma scale_scale {C : AffineCurve (Fr E)} `{!CurveLaws C} (l : list C) e1 e2 :
  Forall in_subgroup l → scale (scale l e1) e2 = scale l (zip_with fr_mul e1 e2).
Proof.
  unfold scale. intros Hl. revert e1 e2. induction Hl as [|q l Hq _ IH]; intros [|x e1] [|y e2]; try done.
  cbn [zip_with]. by rewrite mul_mul, IH.
Qed.
Lemma scale_nonzero {C : AffineCurve (Fr E)} `{!CurveLaws C} (l : list C) es :
  Forall in_subgroup l → Forall (λ q, q ≠ zero) l → Forall (λ x, x ≠ fr_zero) es →
  Forall (λ q, q ≠ zero) (scale l es).
Proof.
  unfold scale. intros Hl Hz He. revert es He. induction Hl as [|q l Hq _ IH]; intros es He; [constructor|].
  apply Forall_cons in Hz as [Hz Hzl]. destruct He as [|x es Hx He]; [constructor|]. constructor.
  - by apply mul_nonzero.
  - by apply IH.
Qed.

Lemma zip_powers {A} (f : A → N) (x y : Fr E) (l : list A) :
  zip_with fr_mul ((λ i, fr_pow x (f i)) <$> l) ((λ i, fr_pow y (f i)) <$> l) =
  (λ i, fr_pow (fr_mul x y) (f i)) <$> l.
Proof. induction l as [|a l IH]; [done|]. csimpl. by rewrite fr_pow_mul, IH. Qed.
Lemma tau_exponents_combine p k1 k2 n :
  zip_with fr_mul (tau_exponents p k1 n) (tau_exponents p k2 n) = tau_exponents p (combine_keys k1 k2) n.
Proof. unfold tau_exponents. apply zip_powers. Qed.
Lemma times_key_combine (x y : Fr E) e1 e2 :
  zip_with fr_mul (times_key x e1) (times_key y e2) = times_key (fr_mul x y) (zip_with fr_mul e1 e2).
Proof.
  unfold times_key. revert e2. induction e1 as [|a e1 IH]; intros [|b e2]; try done. csimpl. rewrite IH.
  f_equal. rewrite <-!fr_mul_assoc. f_equal. apply fr_mul_swap.
Qed.

Lemma inverse_unique (x y z : Fr E) : fr_mul x y = fr_one → fr_mul x z = fr_one → y = z.
Proof.
  intros Hy Hz. rewrite <-(fr_mul_one y), <-Hz, fr_mul_assoc, (fr_mul_comm y), Hy. apply fr_one_mul.
Qed.
Lemma batch_inversion_combine (l1 l2 : list (Fr E)) :
  Forall (λ x, x ≠ fr_zero) l1 → Forall (λ x, x ≠ fr_zero) l2 → length l1 = length l2 →
  zip_with fr_mul (batch_inversion l1) (batch_inversion l2) = batch_inversion (zip_with fr_mul l1 l2).
Proof.
  intros H1 H2 Hlen. apply list_eq. intros i. pose proof (batch_inversion_inverts l1) as B1.
  pose proof (batch_inversion_inverts l2) as B2. pose proof (batch_inversion_inverts (zip_with fr_mul l1 l2)) as B3.
  destruct (decide (i < length l1)) as [Hi|Hi].
  - destruct (lookup_lt_is_Some_2 l1 i Hi) as [x Hx]. destruct (lookup_lt_is_Some_2 l2 i) as [y Hy]; [lia|].
    destruct (Forall2_lookup_l _ _ _ _ _ B1 Hx) as (x' & Hx' & Ex).
    destruct (Forall2_lookup_l _ _ _ _ _ B2 Hy) as (y' & Hy' & Ey).
    assert (zip_with fr_mul l1 l2 !! i = Some (fr_mul x y)) as Hxy by (by rewrite lookup_zip_with, Hx, Hy).
    destruct (Forall2_lookup_l _ _ _ _ _ B3 Hxy) as (z & Hz & Ez).
    rewrite lookup_zip_with, Hx', Hy', Hz. simpl. f_equal.
    pose proof (Forall_lookup_1 _ _ _ _ H1 Hx) as Nx. pose proof (Forall_lookup_1 _ _ _ _ H2 Hy) as Ny.
    apply (inverse_unique (fr_mul x y)).
    + rewrite <-fr_mul_assoc, (fr_mul_swap y), fr_mul_assoc, Ex, Ey by done. apply fr_mul_one.
    + by apply Ez, fr_mul_nonzero.
  - apply Forall2_length in B1, B2, B3. rewrite length_zip_with in B3.
    rewrite !lookup_ge_None_2; [done | lia | rewrite length_zip_with; lia].
Qed.
Lemma degree_bound_powers_nonzero p key :
  key_nonzero key → Forall (λ x, x ≠ fr_zero) (degree_bound_powers E p key).
Proof. intros [Ht _]. apply Forall_fmap, Forall_true. intros i. by apply fr_pow_nonzero. Qed.
Lemma degree_bound_powers_combine p k1 k2 :
  zip_with fr_mul (degree_bound_powers E p k1) (degree_bound_powers E p k2) =
  degree_bound_powers E p (combine_keys k1 k2).
Proof. apply zip_powers. Qed.
Lemma generate_combine k1 k2 s e :
  zip_with fr_mul (generate_powers_of_tau (tau k1) s e) (generate_powers_of_tau (tau k2) s e) =
  generate_powers_of_tau (tau (combine_keys k1 k2)) s e.
Proof. apply zip_powers. Qed.

Lemma g2_exponents_combine p k1 k2 :
  key_nonzero k1 → key_nonzero k2 →
  zip_with fr_mul (g2_exponents p k1) (g2_exponents p k2) = g2_exponents p (combine_keys k1 k2).
Proof.
  intros H1 H2. unfold g2_exponents. rewrite zip_with_app by done.
  rewrite generate_combine, batch_inversion_combine, degree_bound_powers_combine; try done.
  - by apply degree_bound_powers_nonzero.
  - by apply degree_bound_powers_nonzero.
  - unfold degree_bound_powers. by rewrite !length_fmap.
Qed.
Lemma degree_triples_combine p k1 k2 :
  zip_with fr_mul (degree_triples p k1) (degree_triples p k2) = degree_triples p (combine_keys k1 k2).
Proof.
  unfold degree_triples. rewrite <-degree_bound_powers_combine. unfold degree_bound_powers.
  induction (u64_range 0 (total_size_in_log2 p)) as [|i l IH]; [done|].
  rewrite !fmap_cons. cbn [zip_with]. rewrite !fmap_cons, !concat_cons. cbn [app zip_with]. rewrite <-IH.
  cbn [combine_keys tau]. rewrite fr_pow_mul.
  assert (∀ a b c d : Fr E, fr_mul (fr_mul a b) (fr_mul c d) = fr_mul (fr_mul a c) (fr_mul b d)) as Hswap.
  { intros a b c d. rewrite <-!fr_mul_assoc. f_equal. apply fr_mul_swap. }
  by rewrite !(Hswap _ (tau k1)), !(Hswap _ (fr_pow (tau k1) 2)).
Qed.
Lemma alpha_exponents_combine p k1 k2 :
  zip_with fr_mul (alpha_exponents p k1) (alpha_exponents p k2) = alpha_exponents p (combine_keys k1 k2).
Proof.
  unfold alpha_exponents. rewrite zip_with_app by done. by rewrite generate_combine, degree_triples_combine.
Qed.

Lemma contributed_combine p k1 k2 acc :
  in_group acc → key_nonzero k1 → key_nonzero k2 →
  contributed p k2 (contributed p k1 acc) = contributed p (combine_keys k1 k2) acc.
Proof.
  intros (G1 & G2 & G3 & G4 & G5) H1 H2. assert (∀ (C : AffineCurve (Fr E)) (l : list C) k n, n = length l →
    length (scale l (tau_exponents p k n)) = n) as Hlen.
  { intros C l k n ->. unfold scale, tau_exponents. rewrite length_zip_with, length_fmap, length_seq. lia. }
  assert (∀ (C : AffineCurve (Fr E)) (l : list C) x k n, n = length l →
    length (scale l (times_key x (tau_exponents p k n))) = n) as Hlen'.
  { intros C l x k n ->. unfold scale, times_key, tau_exponents.
    rewrite length_zip_with, !length_fmap, length_seq. lia. }
  unfold contributed. destruct (p1_proving_system p);
    cbn [tau_powers_g1 tau_powers_g2 alpha_tau_powers_g1 beta_tau_powers_g1 beta_g2]; f_equal;
    rewrite ?Hlen, ?Hlen' by done; rewrite ?scale_scale, ?mul_mul by done; try done; f_equal;
    rewrite ?times_key_combine; try f_equal; try apply tau_exponents_combine.
  - by apply g2_exponents_combine.
  - apply alpha_exponents_combine.
Qed.

Lemma generate_nonzero (x : Fr E) s e : x ≠ fr_zero → Forall (λ y, y ≠ fr_zero) (generate_powers_of_tau x s e).
Proof. intros Hx. apply Forall_fmap, Forall_true. intros i. by apply fr_pow_nonzero. Qed.
Lemma tau_exponents_nonzero p key n : key_nonzero key → Forall (λ x, x ≠ fr_zero) (tau_exponents p key n).
Proof. intros [Ht _]. apply Forall_fmap, Forall_true. intros i. by apply fr_pow_nonzero. Qed.
Lemma times_key_nonzero (k : Fr E) l :
  k ≠ fr_zero → Forall (λ x, x ≠ fr_zero) l → Forall (λ x, x ≠ fr_zero) (times_key k l).
Proof. intros Hk Hl. apply Forall_fmap. eapply Forall_impl; [exact Hl|]. intros x Hx. by apply fr_mul_nonzero. Qed.
Lemma batch_inversion_nonzero (l : list (Fr E)) :
  Forall (λ x, x ≠ fr_zero) l → Forall (λ x, x ≠ fr_zero) (batch_inversion l).
Proof.
  intros Hl. apply Forall_lookup. intros i y Hy.
  destruct (Forall2_lookup_r _ _ _ _ _ (batch_inversion_inverts l) Hy) as (x & Hx & Hxy).
  intros ->. rewrite fr_mul_zero in Hxy. apply fr_one_nonzero, eq_sym, Hxy. by apply (Forall_lookup_1 _ _ _ _ Hl Hx).
Qed.
Lemma g2_exponents_nonzero p key : key_nonzero key → Forall (λ x, x ≠ fr_zero) (g2_exponents p key).
Proof.
  intros Hk. apply Forall_app_2; [by apply generate_nonzero, Hk|].
  by apply batch_inversion_nonzero, degree_bound_powers_nonzero.
Qed.
Lemma alpha_exponents_nonzero p key : key_nonzero key → Forall (λ x, x ≠ fr_zero) (alpha_exponents p key).
Proof.
  intros Hk. apply Forall_app_2; [by apply generate_nonzero, Hk|].
  unfold degree_triples. pose proof (degree_bound_powers_nonzero p key Hk) as Hd.
  induction Hd as [|f l Hf _ IH]; [constructor|]. rewrite fmap_cons, concat_cons.
  apply Forall_app_2; [|exact IH]. destruct Hk as [Ht _].
  repeat constructor; [done | by apply fr_mul_nonzero | by apply fr_mul_nonzero, fr_pow_nonzero].
Qed.
Lemma contributed_nonzero p key acc :
  in_group acc → nonzero acc → key_nonzero key → nonzero (contributed p key acc).
Proof.
  intros (G1 & G2 & G3 & G4 & G5) (N1 & N2 & N3 & N4 & N5) Hk. pose proof Hk as (Ht & Ha & Hbk).
  unfold contributed, nonzero. destruct (p1_proving_system p); cbn; split_and!; try done;
    try (apply scale_nonzero; [done | done|]); auto using tau_exponents_nonzero, times_key_nonzero,
      g2_exponents_nonzero, alpha_exponents_nonzero.
  by apply mul_nonzero.
Qed.

(** A buffer without zeros passes every check. *)
Lemma holds_strengthen p c check x acc :
  holds p c CheckNo x acc → nonzero acc → holds p c check x acc.
Proof.
  intros [Hf H1 H2 H3 H4 H5] (N1 & N2 & N3 & N4 & N5).
  assert (∀ (C : AffineCurve (Fr E)) (l : list C), Forall (λ q, q ≠ zero) l → Forall (passes check) l) as Hp.
  { intros C l Hl. eapply Forall_impl; [exact Hl|]. by intros q Hq _. }
  split; try (apply decodes_strengthen; [done | by apply Hp]); [done|].
  destruct (p1_proving_system p); [|done]. apply decodes_strengthen; [done|]. apply Hp. by repeat constructor.
Qed.
Lemma deserialize_strengthen p c check data acc :
  regular E p → accumulator_length (E := E) p c ≤ length data →
  deserialize_accumulator E p c CheckNo data = Ok acc → nonzero acc →
  deserialize_accumulator E p c check data = Ok acc.
Proof.
  intros Hp Hlen H Hz. destruct (deserialize_holds_inv p c CheckNo data acc Hp Hlen H) as (x & -> & Hx).
  apply deserialize_holds; [done|]. by apply holds_strengthen.
Qed.

(** Two contributions in sequence, the second one on the output of the
    first, are one contribution of the products of the keys: no contributor
    can undo or replace what another has put in. *)
Theorem contributions_compose (p : Phase1Parameters) (k1 k2 : PrivateKey E) c0 c1 c2 check1 check2
    (input out1 out2 : bytes) (acc : Accumulator E)
    (Hp : regular E p)
    (Hinput : deserialize_accumulator E p c0 check1 input = Ok acc)
    (H0 : accumulator_length (E := E) p c0 ≤ length input)
    (H1 : accumulator_length (E := E) p c1 ≤ length out1)
    (H2 : accumulator_length (E := E) p c2 ≤ length out2)
    (Hgroup : in_group acc) (Hnz : nonzero acc) (Hk1 : key_nonzero k1) (Hk2 : key_nonzero k2) :
  ∃ out1' out2', computation E input c0 c1 check1 k1 p out1 = (Ok tt, out1') ∧
    computation E out1' c1 c2 check2 k2 p out2 = (Ok tt, out2') ∧
    deserialize_accumulator E p c2 CheckNo out2' = Ok (contributed p (combine_keys k1 k2) acc).
Proof.
  destruct (computation_result p k1 c0 c1 check1 input out1 acc Hp Hinput H0 H1 Hgroup)
    as (out1' & Hrun1 & Hd1 & _ & _ & Hlen1).
  assert (in_group (contributed p k1 acc)) as Hgroup1 by (by apply contributed_in_group).
  destruct (computation_result p k2 c1 c2 check2 out1' out2 (contributed p k1 acc) Hp)
    as (out2' & Hrun2 & Hd2 & _); try done; [| by rewrite Hlen1 |].
  - apply deserialize_strengthen; [done | by rewrite Hlen1 | done | by apply contributed_nonzero].
  - exists out1', out2'. split; [done|]. split; [done|]. by rewrite Hd2, contributed_combine.
Qed.
End theorems.

(** ** A contribution of the toy engine *)

#[local] Existing Instance toy_randomness.
#[local] Existing Instance Toy.engine_laws.

Lemma toy_regular mode index ps :
  (index ≤ 1)%N → (mode = Full → index = 0%N) → (ps = Marlin → index = 0%N) →
  regular Toy.engine (toy_parameters mode index ps).
Proof.
  intros Hi Hm Hps. apply new_parameters_regular. split; try done.
  - destruct mode; [by apply Hm|]. split; [done|]. destruct ps; [|rewrite Hps by done]; unfold total_size; cbn; lia.
  - by intros [].
  - by intros [].
Qed.

Definition toy_buffer (c : UseCompression) (p : Phase1Parameters) : bytes :=
  repeat Byte.x00 (accumulator_length (E := Toy.engine) p c).
Definition toy_initial (c : UseCompression) (p : Phase1Parameters) : bytes :=
  (phase1_initialize Toy.engine c p (toy_buffer c p)).2.
Definition toy_accumulator : Accumulator Toy.engine :=
  MkAccumulator (repeat Toy.Z1 7 : list (G1Affine Toy.engine)) (repeat Toy.Z1 4 : list (G2Affine Toy.engine))
    (repeat Toy.Z1 4 : list (G1Affine Toy.engine)) (repeat Toy.Z1 4 : list (G1Affine Toy.engine))
    (Toy.Z1 : G2Affine Toy.engine).
Definition toy_key (t a b : Toy.Z5) : PrivateKey Toy.engine :=
  MkPrivateKey (t : Fr Toy.engine) (a : Fr Toy.engine) (b : Fr Toy.engine).

Lemma toy_in_group : in_group toy_accumulator.
Proof. by repeat constructor. Qed.
Lemma toy_nonzero : nonzero toy_accumulator.
Proof. by repeat constructor. Qed.
Lemma toy_initial_deserializes c :
  deserialize_accumulator Toy.engine (toy_parameters Full 0 Groth16) c CheckFull
    (toy_initial c (toy_parameters Full 0 Groth16)) = Ok toy_accumulator.
Proof. destruct c; vm_compute; reflexivity. Qed.

Lemma computation_contributes_witness :
  let p := toy_parameters Full 0 Groth16 in
  let key := toy_key Toy.Z2 Toy.Z3 Toy.Z4 in
  ∃ output', computation Toy.engine (toy_initial CompressionNo p) CompressionNo CompressionYes CheckFull key p
               (toy_buffer CompressionYes p) = (Ok tt, output') ∧
    deserialize_accumulator Toy.engine p CompressionYes CheckNo output' = Ok (contributed p key toy_accumulator) ∧
    tau_powers_g1 (contributed p key toy_accumulator) =
      ([Toy.Z1; Toy.Z2; Toy.Z4; Toy.Z3; Toy.Z1; Toy.Z2; Toy.Z4] : list (G1Affine Toy.engine)).
Proof.
  intros p key.
  destruct (computation_contributes p key CompressionNo CompressionYes CheckFull (toy_initial CompressionNo p)
    (toy_buffer CompressionYes p) toy_accumulator) as (output' & Hrun & Hd & _).
  - by apply toy_regular.
  - apply toy_initial_deserializes.
  - by vm_compute.
  - by vm_compute.
  - apply toy_in_group.
  - exists output'. split; [exact Hrun|]. split; [exact Hd | by vm_compute].
Defined.

Lemma contributions_compose_witness :
  let p := toy_parameters Full 0 Groth16 in
  let k1 := toy_key Toy.Z2 Toy.Z3 Toy.Z4 in
  let k2 := toy_key Toy.Z3 Toy.Z3 Toy.Z2 in
  ∃ out1 out2,
    computation Toy.engine (toy_initial CompressionNo p) CompressionNo CompressionYes CheckFull k1 p
      (toy_buffer CompressionYes p) = (Ok tt, out1) ∧
    computation Toy.engine out1 CompressionYes CompressionNo CheckFull k2 p
      (toy_buffer CompressionNo p) = (Ok tt, out2) ∧
    deserialize_accumulator Toy.engine p CompressionNo CheckNo out2 =
      Ok (contributed p (combine_keys k1 k2) toy_accumulator).
Proof.
  intros p k1 k2.
  apply (contributions_compose p k1 k2 CompressionNo CompressionYes CompressionNo CheckFull CheckFull).
  - by apply toy_regular.
  - apply toy_initial_deserializes.
  - by vm_compute.
  - by vm_compute.
  - by vm_compute.
  - apply toy_in_group.
  - apply toy_nonzero.
  - by split_and!.
  - by split_and!.
Defined.
