(* ===== verification/Verifying.v ===== *)
(** * What a verification accepts

    An honest contribution passes, whatever randomness the key pair was made
    from; and whatever passes holds points of the prime-order subgroup only,
    none of them zero, with first elements in the ratios of the public key. *)

From S2P Require Import Prelude Environment Phase1Parameters Curve Elements MultiExp Buffers Accumulator Phase1 Layout Computation.
From Stdlib Require Import Strings.Byte.

Section verifying.
Context {E : PairingEngine} `{!EngineLaws E, !Randomness E, !RandomnessLaws E}.
Implicit Types (p : Phase1Parameters) (acc : Accumulator E).

(** ** Ratios *)

Lemma same_ratio_g1 (q : G1Affine E) (h : G2Affine E) (x : Fr E) err :
  in_subgroup q → in_subgroup h → check_same_ratio (q, mul q x) (h, mul h x) err = Ok tt.
Proof.
  intros Hq Hh. unfold check_same_ratio. cbn [fst snd].
  by rewrite bool_decide_eq_true_2 by (by rewrite pairing_mul).
Qed.

Lemma ratio_g1 (q q' : G1Affine E) (h : G2Affine E) (x : Fr E) err :
  in_subgroup q → in_subgroup q' → in_subgroup h → h ≠ zero →
  check_same_ratio (q, q') (h, mul h x) err = Ok tt → q' = mul q x.
Proof.
  intros Hq Hq' Hh Hz H. unfold check_same_ratio in H. cbn [fst snd] in H.
  destruct (bool_decide_reflect (pairing q (mul h x) = pairing q' h)) as [He|]; [|done].
  rewrite <-pairing_mul in He by done. symmetry. eapply pairing_inj; [| | |exact Hz|exact He]; done || by apply mul_in_subgroup.
Qed.
Lemma ratio_g2 (s : G1Affine E) (r r' : G2Affine E) (x : Fr E) err :
  in_subgroup s → in_subgroup r → in_subgroup r' → s ≠ zero →
  check_same_ratio (s, mul s x) (r, r') err = Ok tt → r' = mul r x.
Proof.
  intros Hs Hr Hr' Hz H. unfold check_same_ratio in H. cbn [fst snd] in H.
  destruct (bool_decide_reflect (pairing s r' = pairing (mul s x) r)) as [He|]; [|done].
  rewrite pairing_mul in He by done. eapply pairing_inj_r; [| | |exact Hz|exact He]; done || by apply mul_in_subgroup.
Qed.
(** A pair of zeros has any ratio. *)
Lemma zero_ratio (r r' : G2Affine E) err :
  in_subgroup r → in_subgroup r' → check_same_ratio ((zero, zero) : G1Affine E * G1Affine E) (r, r') err = Ok tt.
Proof.
  assert (∀ q : G2Affine E, in_subgroup q → pairing (zero : G1Affine E) q =
    pairing (prime_subgroup_generator : G1Affine E) zero) as Hz.
  { intros q Hq. assert (∀ D (L : CurveLaws D) (q : D), mul q (fr_zero : Fr E) = zero) as Hm.
    { intros D L d. by rewrite mul_times, to_repr_zero. }
    rewrite <-(Hm (G1Affine E) _ prime_subgroup_generator), pairing_mul by (done || apply generator_in_subgroup). by rewrite (Hm (G2Affine E) _). }
  intros Hr Hr'. unfold check_same_ratio. cbn [fst snd]. by rewrite !Hz, bool_decide_eq_true_2 by done.
Qed.

(** ** One section *)

Section section.
Context {C : AffineCurve (Fr E)} `{!CurveLaws C}.

Lemma usize_mul_width (n : nat) c :
  (N.of_nat n < 2 ^ 42)%N → (serialized_size C c < 2 ^ 12)%N →
  usize_mul (N.of_nat n) (buffer_size C c) = N.of_nat (n * width C c).
Proof.
  intros Hn Hw. unfold u64_mul. rewrite N.mul_comm.
  change ((buffer_size C c * N.of_nat n) mod u64_modulus)%N with (usize_mul (buffer_size C c) (N.of_nat n)).
  unfold buffer_size. rewrite usize_mul_exact by bounds_lia. unfold width. lia.
Qed.

Lemma read_into_ok c check (data : bytes) (l elements : list C) (s e : nat) :
  decodes c check data l → s ≤ e ≤ length l → e - s ≤ length elements →
  (N.of_nat (length l) < 2 ^ 42)%N → (serialized_size C c < 2 ^ 12)%N →
  read_into E data c check (N.of_nat s) (N.of_nat e) elements =
    Ok (take (e - s) (list.drop s l) ++ list.drop (e - s) elements).
Proof.
  intros Hd Hse Hel Hl Hw. unfold read_into. rewrite !usize_mul_width by bounds_lia.
  destruct (decodes_slice c check data l s e Hd Hse) as (d & -> & Hd'). cbn [bind_outcome].
  rewrite u64_sub_exact by bounds_lia. replace (N.of_nat e - N.of_nat s)%N with (N.of_nat (e - s)) by lia.
  change 0%N with (N.of_nat 0). rewrite slice_ok by lia. cbn [bind_outcome].
  rewrite drop_0, Nat.sub_0_r. rewrite (read_preallocated_decodes _ _ _ _ _ Hd'). cbn [bind_outcome].
  assert (length (take (e - s) (list.drop s l)) = e - s) as Hseg by (rewrite length_take, length_drop; lia).
  rewrite Hseg, length_take, Nat.min_l by lia. rewrite (drop_ge (take _ elements)) by (rewrite length_take; lia).
  rewrite take_ge by lia. rewrite app_nil_r, Hseg. done.
Qed.

Lemma verify_section_ok p c (data : bytes) (l : list C) (s e : nat) :
  decodes c CheckFull data l → Forall in_subgroup l → s ≤ e ≤ length l → (N.of_nat (e - s) ≤ p1_batch_size p)%N →
  (N.of_nat (length l) < 2 ^ 42)%N → (serialized_size C c < 2 ^ 12)%N →
  verify_section E (C := C) p c data (N.of_nat s) (N.of_nat e) = Ok tt.
Proof.
  intros Hd Hg Hse Hb Hl Hw. unfold verify_section, check_elements_are_nonzero_and_in_prime_order_subgroup.
  rewrite (read_into_ok c CheckFull data l) by (try done; rewrite ?repeat_length; lia). cbn [bind_outcome].
  assert (forallb (λ el : C, is_zero (mul_bits el (MODULUS (Fr E))))
    (take (e - s) (list.drop s l) ++ list.drop (e - s) (repeat zero (N.to_nat (p1_batch_size p)))) = true) as ->; [|done].
  apply Is_true_eq_true, forallb_True, Forall_app_2.
  - eapply Forall_impl; [by apply Forall_take, Forall_drop, Hg|]. intros q Hq.
    apply Is_true_eq_left. unfold is_zero. by apply bool_decide_eq_true_2.
  - apply Forall_drop, Forall_forall. intros q Hq. apply list_elem_of_In, repeat_spec in Hq as ->.
    apply Is_true_eq_left. unfold is_zero. apply bool_decide_eq_true_2, zero_in_subgroup.
Qed.

(** What a passed section tells, piece by piece. *)
Lemma verify_section_inv p c (cs : list bytes) (s e : nat) :
  Forall (λ d, length d = width C c) cs → s ≤ e ≤ length cs →
  (N.of_nat (length cs) < 2 ^ 42)%N → (serialized_size C c < 2 ^ 12)%N →
  verify_section E (C := C) p c (concat cs) (N.of_nat s) (N.of_nat e) = Ok tt →
  ∀ i d, s ≤ i < e → cs !! i = Some d → ∃ q : C, read_element c CheckFull d = Ok q ∧ in_subgroup q.
Proof.
  intros Hall Hse Hl Hw H i d Hi Hd. unfold verify_section in H.
  assert (check_elements_are_nonzero_and_in_prime_order_subgroup E (C := C) (concat cs) c (N.of_nat s) (N.of_nat e)
    (repeat zero (N.to_nat (p1_batch_size p))) = Ok tt) as Hc by (by destruct (check_elements_are_nonzero_and_in_prime_order_subgroup _ _ _ _ _ _) as [[]| |]).
  clear H. unfold check_elements_are_nonzero_and_in_prime_order_subgroup in Hc.
  apply bind_outcome_ok in Hc as (els & Hread & Hzero). destruct (forallb _ els) eqn:Hfb; [clear Hzero|done].
  unfold read_into in Hread. rewrite !usize_mul_width in Hread by bounds_lia.
  pose proof (width_pos (C := C) c) as Hpos.
  rewrite slice_ok in Hread by (rewrite (concat_length (width C c)) by done; nia). cbn [bind_outcome] in Hread.
  rewrite (drop_concat (width C c)) in Hread by (done || lia).
  replace (e * width C c - s * width C c) with ((e - s) * width C c) in Hread by nia.
  rewrite (take_concat (width C c)) in Hread; [|by apply Forall_drop | rewrite length_drop; lia].
  rewrite u64_sub_exact in Hread by bounds_lia.
  replace (N.of_nat e - N.of_nat s)%N with (N.of_nat (e - s)) in Hread by lia.
  apply bind_outcome_ok in Hread as (target & Ht & Hread).
  assert (length target = e - s) as Hlt.
  { unfold slice in Ht. case_match eqn:Hc; [|done]. apply andb_true_iff in Hc as [_ Hc]. apply N.leb_le in Hc.
    injection Ht as <-. change (N.to_nat 0) with 0. rewrite drop_0, length_take. unfold len in Hc. lia. }
  apply bind_outcome_ok in Hread as (read & Hread & [= <-]).
  unfold read_batch_preallocated, cfg_chunks in Hread.
  rewrite buffer_size_nonzero, buffer_size_nat in Hread. cbn [bind_outcome] in Hread.
  assert (Forall (λ d, length d = width C c) (take (e - s) (list.drop s cs))) as Hall' by
    (by apply Forall_take, Forall_drop).
  assert (length (take (e - s) (list.drop s cs)) = e - s) as Hlen by (rewrite length_take, length_drop; lia).
  rewrite slice_chunks_exact in Hread by (done || lia). rewrite Hlt, take_ge in Hread by lia.
  apply bind_outcome_ok in Hread as (r & Hr & [= <-]). apply collect_ok, Forall2_fmap_l in Hr.
  assert (take (e - s) (list.drop s cs) !! (i - s) = Some d) as Hd'.
  { rewrite lookup_take_lt, lookup_drop by lia. by replace (s + (i - s)) with i by lia. }
  destruct (Forall2_lookup_l _ _ _ _ _ Hr Hd') as (q & Hq & Hrq). exists q. split; [exact Hrq|].
  apply Is_true_eq_left, forallb_True in Hfb. apply Forall_app in Hfb as [Hfb _].
  apply Forall_app in Hfb as [Hfb _].
  pose proof (Forall_lookup_1 _ _ _ _ Hfb Hq) as Hz. apply Is_true_eq_true in Hz.
  unfold is_zero in Hz. by apply bool_decide_eq_true_1 in Hz.
Qed.

Lemma read_initial_ok c check (data : bytes) (l : list C) :
  decodes c check data l → 2 ≤ length l → (serialized_size C c < 2 ^ 12)%N →
  read_initial_elements E data c check = Ok (take 2 l).
Proof.
  intros Hd Hl Hw. unfold read_initial_elements, read_initial_elements_with_amount.
  change 2%N with (N.of_nat 2). rewrite usize_mul_width by (done || bounds_lia).
  destruct (decodes_slice c check data l 0 2 Hd) as (d & Hs & Hd'); [lia|].
  change (N.of_nat (0 * width C c)) with 0%N in Hs. rewrite Hs. cbn [bind_outcome].
  rewrite (read_batch_decodes _ _ _ _ Hd'). cbn [bind_outcome Nat.sub]. rewrite drop_0.
  unfold len. rewrite length_take, Nat.min_l by lia. done.
Qed.
Lemma scale_lookup (l : list C) es i q x :
  l !! i = Some q → es !! i = Some x → scale l es !! i = Some (mul q x).
Proof. intros Hq Hx. unfold scale. by rewrite lookup_zip_with, Hq, Hx. Qed.
Lemma index_take (l : list C) i n q : l !! i = Some q → i < n → index (take n l) i = Ok q.
Proof. intros Hq Hi. unfold index. by rewrite lookup_take_lt, Hq. Qed.

Lemma check_initial_ok el ci co check_in check_out (before after : bytes) (lb la : list C) :
  decodes ci check_in before lb → decodes co check_out after la → 2 ≤ length lb → 2 ≤ length la →
  (∀ c, serialized_size C c < 2 ^ 12)%N → la !! 0 = Some prime_subgroup_generator →
  check_initial E el ci co check_in check_out before after = Ok (take 2 lb, take 2 la).
Proof.
  intros Hb Ha Lb La Hw Hg. unfold check_initial.
  rewrite (read_initial_ok _ _ _ _ Hb), (read_initial_ok _ _ _ _ Ha) by done. cbn [bind_outcome].
  rewrite (index_take _ _ _ _ Hg) by lia. cbn [bind_outcome]. by rewrite bool_decide_eq_true_2.
Qed.

Lemma check_initial_inv el ci co check_in check_out (before after : bytes) (lb la : list C) r :
  decodes ci check_in before lb → decodes co check_out after la → 2 ≤ length lb → 2 ≤ length la →
  (∀ c, serialized_size C c < 2 ^ 12)%N →
  check_initial E el ci co check_in check_out before after = Ok r →
  r = (take 2 lb, take 2 la) ∧ la !! 0 = Some prime_subgroup_generator.
Proof.
  intros Hb Ha Lb La Hw H. unfold check_initial in H.
  rewrite (read_initial_ok _ _ _ _ Hb), (read_initial_ok _ _ _ _ Ha) in H by done. cbn [bind_outcome] in H.
  destruct (lookup_lt_is_Some_2 la 0) as [q Hq]; [lia|].
  rewrite (index_take _ _ _ _ Hq) in H by lia. cbn [bind_outcome] in H.
  destruct (bool_decide_reflect (q = prime_subgroup_generator)) as [Hg|]; [|done]. rewrite Hg in Hq.
  by injection H as <-.
Qed.

Lemma read_preallocated_first c check (data : bytes) (l elements : list C) q :
  decodes c check data l → l !! 0 = Some q → 0 < length elements →
  ∃ els, read_batch_preallocated elements c check data = Ok els ∧ index els 0 = Ok q ∧
    length els = length elements.
Proof.
  intros Hd Hq Hel. rewrite (read_preallocated_decodes _ _ _ _ _ Hd). eexists. split; [done|].
  destruct l as [|a l]; [done|]. destruct elements as [|b elements]; [simpl in Hel; lia|].
  injection Hq as ->. split; [done|]. rewrite length_app, length_take, length_drop. simpl. lia.
Qed.
End section.

(** ** Keys *)

Record key_pair (fuel : nat) (digest : bytes) (pk : PublicKey E) (sk : PrivateKey E) : Prop := {
  kp_tau : ∃ s h, in_subgroup s ∧ pk_tau_g1 pk = (s, mul s (tau sk)) ∧ pk_tau_g2 pk = mul h (tau sk) ∧
    compute_g2_s fuel digest s (mul s (tau sk)) x00 = Ok h;
  kp_alpha : ∃ s h, in_subgroup s ∧ pk_alpha_g1 pk = (s, mul s (alpha sk)) ∧ pk_alpha_g2 pk = mul h (alpha sk) ∧
    compute_g2_s fuel digest s (mul s (alpha sk)) x01 = Ok h;
  kp_beta : ∃ s h, in_subgroup s ∧ pk_beta_g1 pk = (s, mul s (beta sk)) ∧ pk_beta_g2 pk = mul h (beta sk) ∧
    compute_g2_s fuel digest s (mul s (beta sk)) x02 = Ok h;
}.

Lemma prove_knowledge_ok fuel digest (x : Fr E) b rng r rng' :
  prove_knowledge E fuel digest x b rng = (Ok r, rng') →
  ∃ s h, in_subgroup s ∧ r = (s, mul s x, mul h x) ∧ compute_g2_s fuel digest s (mul s x) b = Ok h.
Proof.
  unfold prove_knowledge. pose proof (rand_g1_in_subgroup rng) as Hs. destruct (rand_g1 rng) as [s rng1].
  unfold bind, lift, ret.
  destruct (compute_g2_s fuel digest s (mul s x) b) as [h| |] eqn:Hh; [|done|done].
  intros [= <- _]. by exists s, h.
Qed.

Lemma key_generation_pair fuel digest rng pk sk rng' :
  key_generation E fuel digest rng = (Ok (pk, sk), rng') →
  length digest = 64 ∧ key_pair fuel digest pk sk.
Proof.
  intros H. unfold key_generation in H. apply check_ok in H as [Hlen H].
  apply bind_ok in H as (t & r1 & Ht & H). apply bind_ok in H as (a & r2 & Ha & H).
  apply bind_ok in H as (b & r3 & Hb & H).
  apply bind_ok in H as (kt & r4 & Hkt & H). apply bind_ok in H as (ka & r5 & Hka & H).
  apply bind_ok in H as (kb & r6 & Hkb & H). unfold ret in H. injection H as <- <- _.
  apply prove_knowledge_ok in Hkt as (s1 & h1 & S1 & -> & H1), Hka as (s2 & h2 & S2 & -> & H2),
    Hkb as (s3 & h3 & S3 & -> & H3).
  split; [|split; cbn; eauto 6].
  apply negb_false_iff, N.eqb_eq in Hlen. unfold len in Hlen. lia.
Qed.

Lemma key_pair_g2_s fuel digest pk sk :
  key_pair fuel digest pk sk →
  ∃ st ht sa ha sb hb, compute_g2_s_key E fuel pk digest = Ok (ht, ha, hb) ∧
    pk = MkPublicKey (st, mul st (tau sk)) (sa, mul sa (alpha sk)) (sb, mul sb (beta sk))
           (mul ht (tau sk)) (mul ha (alpha sk)) (mul hb (beta sk)) ∧
    (in_subgroup st ∧ in_subgroup sa ∧ in_subgroup sb) ∧ in_subgroup ht ∧ in_subgroup ha ∧ in_subgroup hb.
Proof.
  intros [(s1 & h1 & S1 & A1 & B1 & C1) (s2 & h2 & S2 & A2 & B2 & C2) (s3 & h3 & S3 & A3 & B3 & C3)].
  destruct (compute_g2_s_in_subgroup _ _ _ _ _ _ C1) as [T1 _], (compute_g2_s_in_subgroup _ _ _ _ _ _ C2) as [T2 _],
    (compute_g2_s_in_subgroup _ _ _ _ _ _ C3) as [T3 _].
  exists s1, h1, s2, h2, s3, h3. unfold compute_g2_s_key. rewrite A1, A2, A3. cbn [fst snd].
  rewrite C1, C2, C3. split; [done|]. split; [|done]. destruct pk. cbn in *. congruence.
Qed.

(** ** An honest contribution *)

(** The chunk whose first elements a verification looks at. *)
Definition is_first p : bool :=
  match p1_contribution_mode p with Full => true | Chunked => false end || (p1_chunk_index p =? 0)%N.

(** What the verification of the first chunk needs: two powers of tau in each
    group, the first being the generators; a batch holds the extra elements of
    Marlin. *)
Record first_elements p acc : Prop := {
  fe_two_g1 : 2 ≤ n_tau_g1 p;
  fe_two_g2 : 2 ≤ n_tau_g2 p;
  fe_g1 : tau_powers_g1 acc !! 0 = Some prime_subgroup_generator;
  fe_g2 : tau_powers_g2 acc !! 0 = Some prime_subgroup_generator;
  fe_batch : p1_proving_system p = Marlin → (3 + 3 * total_size_in_log2 p ≤ p1_batch_size p)%N;
}.

(** The accumulator with another beta in G2. *)
Definition with_beta_g2 (b : G2Affine E) acc : Accumulator E :=
  MkAccumulator (tau_powers_g1 acc) (tau_powers_g2 acc) (alpha_tau_powers_g1 acc) (beta_tau_powers_g1 acc) b.

Section honest.
Context (p : Phase1Parameters) (Hp : regular E p) (fuel : nat) (digest : bytes).
Context (pk : PublicKey E) (sk : PrivateKey E) (Hkeys : key_pair fuel digest pk sk).
Context (ci co : UseCompression) (check_in check_out : CheckForCorrectness).
Context (xi xo : Parts) (acc : Accumulator E).
Context (Hin : holds p ci check_in xi acc) (Hgroup : in_group acc).
Lemma is_first_index : is_first p = true → p1_chunk_index p = 0%N ∧ chunk_lo p = 0%N.
Proof.
  intros H. assert (p1_chunk_index p = 0%N) as Hi.
  { unfold is_first in H. destruct (p1_contribution_mode p) eqn:Hm; [by apply (reg_full _ _ Hp)|].
    by apply N.eqb_eq in H. }
  split; [done|]. by apply (reg_first _ _ Hp).
Qed.

(** The first elements after the contribution. *)
Lemma target_tau_g1 i q :
  tau_powers_g1 acc !! i = Some q →
  tau_powers_g1 (contributed p sk acc) !! i = Some (mul q (fr_pow (tau sk) (chunk_lo p + N.of_nat i))).
Proof.
  intros Hq. pose proof (lookup_lt_Some _ _ _ Hq) as Hlt.
  assert (tau_powers_g1 (contributed p sk acc) = scale (tau_powers_g1 acc) (tau_exponents p sk (length (tau_powers_g1 acc)))) as ->
    by (unfold contributed; by destruct (p1_proving_system p)).
  apply scale_lookup; [done|]. unfold tau_exponents. by rewrite list_lookup_fmap, lookup_seq_lt.
Qed.
Lemma target_tau_g2 i q :
  chunk_lo p = 0%N → i < 2 → tau_powers_g2 acc !! i = Some q →
  tau_powers_g2 (contributed p sk acc) !! i = Some (mul q (fr_pow (tau sk) (N.of_nat i))).
Proof.
  intros Hlo Hi Hq. pose proof (lookup_lt_Some _ _ _ Hq) as Hlt.
  unfold contributed. destruct (p1_proving_system p); cbn; (apply scale_lookup; [done|]).
  - unfold tau_exponents. rewrite list_lookup_fmap, lookup_seq_lt by done. by rewrite Hlo.
  - unfold g2_exponents. rewrite lookup_app_l by done. unfold generate_powers_of_tau.
    rewrite list_lookup_fmap, u64_range_lookup by (simpl; lia). by rewrite N.add_0_l.
Qed.
Lemma target_alpha q :
  chunk_lo p = 0%N → alpha_tau_powers_g1 acc !! 0 = Some q →
  alpha_tau_powers_g1 (contributed p sk acc) !! 0 = Some (mul q (alpha sk)).
Proof.
  intros Hlo Hq. pose proof (lookup_lt_Some _ _ _ Hq) as Hlt.
  unfold contributed. destruct (p1_proving_system p); cbn; (apply scale_lookup; [done|]); unfold times_key.
  - unfold tau_exponents. rewrite !list_lookup_fmap, lookup_seq_lt by done. rewrite Hlo. simpl.
    by rewrite fr_pow_zero, fr_one_mul.
  - rewrite list_lookup_fmap. assert (alpha_exponents p sk !! 0 = Some (fr_pow (tau sk) 0)) as -> by done.
    simpl. by rewrite fr_pow_zero, fr_one_mul.
Qed.
Lemma target_beta q :
  p1_proving_system p = Groth16 → chunk_lo p = 0%N → beta_tau_powers_g1 acc !! 0 = Some q →
  beta_tau_powers_g1 (contributed p sk acc) !! 0 = Some (mul q (beta sk)).
Proof.
  intros Hs Hlo Hq. pose proof (lookup_lt_Some _ _ _ Hq) as Hlt. unfold contributed. rewrite Hs. cbn.
  apply scale_lookup; [done|]. unfold times_key, tau_exponents. rewrite !list_lookup_fmap, lookup_seq_lt by done.
  rewrite Hlo. simpl. by rewrite fr_pow_zero, fr_one_mul.
Qed.

(** The verification sees beta in G2 through one ratio only. *)
Context (b : G2Affine E).
Context (Hbeta : p1_proving_system p = Groth16 →
  check_same_ratio (pk_beta_g1 pk) (beta_g2 acc, b) "Before-After: beta_g2[0]" = Ok tt).
Notation target := (with_beta_g2 b (contributed p sk acc)).
Context (Hout : ∀ check, holds p co check xo target).

Lemma verify_initial_ok :
  is_first p = true → first_elements p acc →
  verify_initial_elements E fuel (join xi) (join xo) pk digest ci co check_in check_out p
    (ranges (E := E) p ci) (ranges (E := E) p co) = Ok tt.
Proof.
  intros Hfirst [T1 T2 F1 F2 _]. destruct (is_first_index Hfirst) as [Hidx Hlo].
  destruct (key_pair_g2_s _ _ _ _ Hkeys) as (st & ht & sa & ha & sb & hb & Hs & -> & (Ss1 & Ss2 & Ss3) & Sh1 & Sh2 & Sh3).
  destruct Hgroup as (G1 & G2 & G3 & G4 & G5).
  destruct (holds_lengths _ _ _ _ _ Hin) as (L1 & L2 & L3 & L4).
  destruct (holds_lengths _ _ _ _ _ (Hout check_out)) as (M1 & M2 & M3 & M4).
  pose proof (hold_fits _ _ _ _ _ Hin) as Hfi. pose proof (hold_fits _ _ _ _ _ (Hout check_out)) as Hfo.
  destruct Hin as [_ I1 I2 I3 I4 I5]. destruct (Hout check_out) as [_ O1 O2 O3 O4 O5].
  destruct (lookup_lt_is_Some_2 (tau_powers_g1 acc) 1) as [q1 Hq1]; [lia|].
  destruct (lookup_lt_is_Some_2 (tau_powers_g2 acc) 1) as [r1 Hr1]; [lia|].
  pose proof (Forall_lookup_1 _ _ _ _ G1 Hq1). pose proof (Forall_lookup_1 _ _ _ _ G2 Hr1).
  assert (0 < n_alpha p) as Na.
  { unfold n_alpha, n_tau_g2 in *. rewrite Hidx in *. destruct (p1_proving_system p); cbn in *; lia. }
  destruct (lookup_lt_is_Some_2 (alpha_tau_powers_g1 acc) 0) as [a0 Ha0]; [lia|].
  pose proof (Forall_lookup_1 _ _ _ _ G3 Ha0).
  pose proof (target_tau_g1 0 _ F1) as F1'. pose proof (target_tau_g1 1 _ Hq1) as Hq1'.
  pose proof (target_tau_g2 0 _ Hlo ltac:(lia) F2) as F2'. pose proof (target_tau_g2 1 _ Hlo ltac:(lia) Hr1) as Hr1'.
  rewrite Hlo in F1', Hq1'. cbn [N.of_nat N.add Pos.of_succ_nat] in F1', Hq1', F2', Hr1'.
  rewrite fr_pow_zero, mul_one in F1'. rewrite fr_pow_zero, mul_one in F2'. rewrite fr_pow_one in Hq1', Hr1'.
  unfold verify_initial_elements. rewrite Hs. cbn [bind_outcome pk_tau_g1 pk_tau_g2 pk_alpha_g1 pk_alpha_g2
    pk_beta_g1 pk_beta_g2]. unfold check_key_ratios. cbn [pk_tau_g1 pk_tau_g2 pk_alpha_g1 pk_alpha_g2
    pk_beta_g1 pk_beta_g2]. rewrite !same_ratio_g1 by done. cbn [bind_outcome].
  rewrite (view_tau_g1 p ci xi Hfi), (view_tau_g1 p co xo Hfo), (view_tau_g2 p ci xi Hfi), (view_tau_g2 p co xo Hfo),
    (view_alpha p ci xi Hfi), (view_alpha p co xo Hfo), (view_beta p ci xi Hfi), (view_beta p co xo Hfo),
    (view_beta_g2 p ci xi Hfi), (view_beta_g2 p co xo Hfo).
  rewrite (check_initial_ok _ _ _ _ _ _ _ _ _ I1 O1) by (apply (reg_g1 _ _ Hp) || done || lia).
  cbn [bind_outcome]. rewrite (index_take _ _ _ _ Hq1), (index_take _ _ _ _ Hq1') by lia. cbn [bind_outcome].
  rewrite same_ratio_g1 by done. cbn [bind_outcome].
  rewrite (check_initial_ok _ _ _ _ _ _ _ _ _ I2 O2) by (apply (reg_g2 _ _ Hp) || done || lia).
  cbn [bind_outcome]. rewrite (index_take _ _ _ _ Hr1), (index_take _ _ _ _ Hr1') by lia. cbn [bind_outcome].
  rewrite same_ratio_g1 by done. cbn [bind_outcome].
  destruct (read_preallocated_first _ _ _ _ (take 2 (tau_powers_g1 acc)) a0 I3 Ha0) as (v1 & R1 & X1 & V1).
  { rewrite length_take. lia. }
  destruct (read_preallocated_first _ _ _ _ (take 2 (tau_powers_g1 target)) _ O3 (target_alpha a0 Hlo Ha0))
    as (v2 & R2 & X2 & V2).
  { rewrite length_take. lia. }
  destruct (p1_proving_system p) eqn:Hps.
  - destruct (lookup_lt_is_Some_2 (beta_tau_powers_g1 acc) 0) as [b0 Hb0].
    { unfold n_beta, n_tau_g2 in *. rewrite Hps in *. lia. }
    pose proof (Forall_lookup_1 _ _ _ _ G4 Hb0).
    destruct (read_preallocated_first _ _ _ _ v1 b0 I4 Hb0) as (v3 & R3 & X3 & _).
    { rewrite V1, length_take. lia. }
    destruct (read_preallocated_first _ _ _ _ v2 _ O4 (target_beta b0 Hps Hlo Hb0)) as (v4 & R4 & X4 & _).
    { rewrite V2, length_take. lia. }
    unfold check_first_elements. cbn [foldl bind_outcome fst snd]. rewrite R1. cbn [bind_outcome].
    rewrite R2. cbn [bind_outcome]. rewrite X1. cbn [bind_outcome]. rewrite X2. cbn [bind_outcome].
    rewrite same_ratio_g1 by done. cbn [bind_outcome fst snd]. rewrite R3. cbn [bind_outcome].
    rewrite R4. cbn [bind_outcome]. rewrite X3. cbn [bind_outcome]. rewrite X4. cbn [bind_outcome].
    rewrite same_ratio_g1 by done. cbn [bind_outcome].
    pose proof (fit_beta_g2 _ _ _ Hfi) as Li. pose proof (fit_beta_g2 _ _ _ Hfo) as Lo. unfold n_beta_g2 in Li, Lo.
    rewrite Hps in Li, Lo. apply decodes_single in I5, O5; [|lia..].
    rewrite I5, O5. cbn [bind_outcome with_beta_g2 beta_g2]. by apply Hbeta.
  - unfold check_first_elements. cbn [foldl bind_outcome fst snd]. rewrite R1. cbn [bind_outcome].
    rewrite R2. cbn [bind_outcome]. rewrite X1. cbn [bind_outcome]. rewrite X2. cbn [bind_outcome].
    rewrite same_ratio_g1 by done. done.
Qed.

Lemma verify_batch_ok (k s e : N) :
  (is_first p = true → first_elements p acc) → next_batch p (chunk_lo p) (chunk_hi p) k s e →
  verify_batch E p co (join xo) (ranges (E := E) p co) s e = Ok tt.
Proof.
  intros Hfirst Hb. pose proof (hold_fits _ _ _ _ _ (Hout CheckFull)) as Hfo.
  destruct (holds_lengths _ _ _ _ _ (Hout CheckFull)) as (M1 & M2 & M3 & M4).
  destruct (Hout CheckFull) as [_ O1 O2 O3 O4 _].
  destruct (contributed_in_group p sk acc Hgroup) as (G1 & G2 & G3 & G4 & _).
  pose proof (reg_hi _ _ Hp). pose proof (g1_chunk_small p Hp) as Hsm.
  unfold verify_batch. rewrite (view_tau_g1 p co xo Hfo), (view_tau_g2 p co xo Hfo),
    (view_alpha p co xo Hfo), (view_beta p co xo Hfo).
  pose proof Hb as (Hlo & Hse & Hk & Hsize & Hend & Hstart).
  rewrite !(in_chunk_index_lo p Hp) by bounds_lia.
  rewrite (verify_section_ok p co _ _ _ _ O1 G1);
    [|rewrite M1; unfold n_tau_g1, chunk_hi in *; lia | lia | rewrite M1; unfold n_tau_g1; bounds_lia | apply Hp].
  cbn [bind_outcome]. destruct (p1_proving_system p) eqn:Hps.
  - destruct (N.ltb_spec s (powers_length p)) as [Hsp|]; [|done].
    destruct (other_end_min p Hp k s e Hps Hb Hsp) as [Hoe Hlt]. cbv zeta. rewrite Hoe.
    rewrite !(in_chunk_index_lo p Hp) by bounds_lia.
    pose proof (other_le p Hp Hps). unfold n_tau_g2, n_alpha, n_beta in M2, M3, M4. rewrite Hps in M2, M3, M4.
    unfold other_hi in *.
    rewrite (verify_section_ok p co _ _ _ _ O2 G2); [|rewrite M2; lia | lia | rewrite M2; lia | apply (reg_g2 _ _ Hp)].
    cbn [bind_outcome].
    rewrite (verify_section_ok p co _ _ _ _ O3 G3); [|rewrite M3; lia | lia | rewrite M3; lia | apply (reg_g1 _ _ Hp)].
    cbn [bind_outcome].
    apply (verify_section_ok p co _ _ _ _ O4 G4); [rewrite M4; lia | lia | rewrite M4; lia | apply (reg_g1 _ _ Hp)].
  - destruct (N.eqb_spec s 0) as [->|]; [|done].
    assert (chunk_lo p = 0%N) as Hz by lia. pose proof (proj2 (reg_first _ _ Hp) Hz) as Hidx.
    destruct Hfirst as [_ _ _ _ Hbatch]; [unfold is_first; rewrite Hidx; apply orb_true_r|].
    specialize (Hbatch Hps). destruct (size_sums p Hp) as [-> ->]. pose proof (reg_size _ _ Hp).
    unfold n_tau_g2, n_alpha in M2, M3. rewrite Hps, Hidx in M2, M3. cbn [N.eqb] in M2, M3.
    replace (3 + 3 * total_size_in_log2 p)%N with (N.of_nat (3 + 3 * N.to_nat (total_size_in_log2 p))) by lia.
    replace (total_size_in_log2 p + 2)%N with (N.of_nat (N.to_nat (total_size_in_log2 p) + 2)) by lia.
    change 0%N with (N.of_nat 0).
    rewrite (verify_section_ok p co _ _ _ _ O3 G3);
      [|rewrite M3; lia | lia | rewrite M3; bounds_lia | apply (reg_g1 _ _ Hp)].
    cbn [bind_outcome].
    apply (verify_section_ok p co _ _ _ _ O2 G2); [rewrite M2; lia | lia | rewrite M2; bounds_lia | apply (reg_g2 _ _ Hp)].
Qed.

Lemma verify_parts :
  (is_first p = true → first_elements p acc) →
  phase1_verify E fuel (join xi) (join xo) pk digest ci co check_in check_out p = Ok tt.
Proof.
  intros Hfirst. pose proof (hold_fits _ _ _ _ _ Hin) as Hfi.
  pose proof (hold_fits _ _ _ _ _ (Hout CheckFull)) as Hfo.
  unfold phase1_verify. rewrite (split_join p Hp co xo Hfo), (split_join p Hp ci xi Hfi). cbn [bind_outcome].
  assert ((if (match p1_contribution_mode p with Full => true | Chunked => false end || (p1_chunk_index p =? 0)%N)
    then verify_initial_elements E fuel (join xi) (join xo) pk digest ci co check_in check_out p
      (ranges (E := E) p ci) (ranges (E := E) p co) else Ok tt) = Ok tt) as ->.
  { fold (is_first p). destruct (is_first p) eqn:Hf; [|done]. apply verify_initial_ok; auto. }
  cbn [bind_outcome]. pose proof (reg_hi _ _ Hp). pose proof (reg_batch _ _ Hp). pose proof (reg_pos _ _ Hp).
  destruct (iter_chunk_inv p (chunk_lo p) (chunk_hi p) (reg_bounds _ _ Hp) ltac:(bounds_lia) ltac:(bounds_lia)
    (λ s e, lift (verify_batch E p co (join xo) (ranges (E := E) p co) s e)) (λ _ _, True) tt)
    as ([] & -> & _); [unfold chunk_hi; lia | done | | done].
  intros k s e [] Hb _. exists tt. split; [|done]. unfold lift. by rewrite (verify_batch_ok k).
Qed.
End honest.
End verifying.

(** ** What passes *)

(** A section of non-zero points of the subgroup. *)
Definition sound_section {F} (C : AffineCurve F) (c : UseCompression) (data : bytes) : Prop :=
  ∃ l : list C, decodes c CheckFull data l ∧ Forall (λ q, in_subgroup q ∧ q ≠ zero) l.

Section sound.
Context {E : PairingEngine} `{!EngineLaws E, !Randomness E}.

Lemma for_each_lift_ok {A S} (f : A → setup unit) (l : list A) (s s' : S) :
  for_each (λ a, lift (f a)) l s = (Ok tt, s') → ∀ a, a ∈ l → f a = Ok tt.
Proof.
  revert s. induction l as [|b l IH]; intros s H a Ha; [by apply not_elem_of_nil in Ha|].
  cbn [for_each] in H. apply bind_ok in H as ([] & s1 & Hb & H). injection Hb as Hb _.
  apply elem_of_cons in Ha as [->|Ha]; [done | by apply (IH s1 H)].
Qed.

Lemma sound_pieces {C : AffineCurve (Fr E)} `{!CurveLaws C} c (data : bytes) (n : nat) :
  length data = n * width C c →
  (∀ cs, data = concat cs → length cs = n → Forall (λ d, length d = width C c) cs →
    ∀ i d, i < n → cs !! i = Some d → ∃ q : C, read_element c CheckFull d = Ok q ∧ in_subgroup q) →
  sound_section C c data.
Proof.
  intros Hlen H. destruct (whole_pieces _ _ _ Hlen) as (cs & -> & Hcs & Hall).
  specialize (H cs eq_refl Hcs Hall).
  assert (∃ l : list C, Forall2 (λ d q, read_element c CheckFull d = Ok q) cs l ∧ Forall in_subgroup l)
    as (l & Hl & Hg).
  { clear Hlen Hall. revert n Hcs H. induction cs as [|d cs IH]; intros n Hcs H; [by exists []|].
    destruct n as [|n]; [done|]. destruct (H 0 d) as (q & Hq & Hqg); [lia | done|].
    destruct (IH n) as (l & Hl & Hg); [by injection Hcs| |exists (q :: l); by split; constructor].
    intros i d' Hi Hd'. apply (H (S i)); [lia | done]. }
  assert (decodes c CheckFull (concat cs) l) as Hd by (apply decodes_pieces; by exists cs).
  exists l. split; [done|]. apply Forall_and. split; [done|].
  eapply Forall_impl; [by eapply decodes_passes|]. intros q Hq. by apply Hq.
Qed.
Lemma sound_empty {C : AffineCurve (Fr E)} `{!CurveLaws C} c : sound_section C c [].
Proof.
  exists []. split; [|constructor]. apply decodes_pieces. exists []. by split_and!; [|constructor|constructor].
Qed.

Context (p : Phase1Parameters) (Hp : regular E p) (co : UseCompression) (x : Parts).
Context (Hf : fits (E := E) p co x) (bs : list (N * N)).
Context (Hbs : batch_chain p (chunk_lo p) (chunk_hi p) (chunk_lo p) bs (chunk_hi p)).
Context (Hall : ∀ b, b ∈ bs → verify_batch E p co (join x) (ranges (E := E) p co) b.1 b.2 = Ok tt).

(** The batch that holds an element of the chunk. *)
Lemma covering_batch (n : nat) :
  n < n_tau_g1 p → ∃ k s e, next_batch p (chunk_lo p) (chunk_hi p) k s e ∧
    (s ≤ chunk_lo p + N.of_nat n < e)%N ∧
    verify_batch E p co (join x) (ranges (E := E) p co) s e = Ok tt.
Proof.
  intros Hn. pose proof (reg_hi _ _ Hp). pose proof (reg_batch _ _ Hp).
  destruct (batch_chain_covers p (chunk_lo p) (chunk_hi p) ltac:(bounds_lia) ltac:(bounds_lia) _ _ _
    (chunk_lo p + N.of_nat n)%N Hbs) as (k & s & e & Hin & Hb & Hse).
  { unfold chunk_hi, n_tau_g1 in *. lia. }
  exists k, s, e. split; [done|]. split; [done|]. by apply (Hall (s, e)).
Qed.

Lemma sound_tau_g1 : sound_section (G1Affine E) co (pt_tau_g1 x).
Proof.
  apply (sound_pieces co _ (n_tau_g1 p)); [apply Hf|]. intros cs Hcs Hlen Hw i d Hi Hd.
  destruct (covering_batch i Hi) as (k & s & e & Hb & Hse & Hv). pose proof (reg_hi _ _ Hp).
  pose proof Hb as (Hlo & Hse' & _). unfold verify_batch in Hv. apply bind_outcome_ok in Hv as ([] & Hv & _).
  rewrite (view_tau_g1 p co x Hf), Hcs, !(in_chunk_index_lo p Hp) in Hv by bounds_lia.
  pose proof (g1_chunk_small p Hp). unfold chunk_hi, n_tau_g1 in *.
  eapply (verify_section_inv p co cs); [done | | | apply (reg_g1 _ _ Hp) | exact Hv | | done]; lia.
Qed.

(** The sections of Groth16 that are as long as [powers_length] allows. *)
Lemma sound_other {C : AffineCurve (Fr E)} `{!CurveLaws C} (data : bytes) :
  p1_proving_system p = Groth16 → (∀ c, serialized_size C c < 2 ^ 12)%N →
  length data = N.to_nat (other_chunk_size p) * width C co →
  (∀ s e, (s < powers_length p)%N → verify_batch E p co (join x) (ranges (E := E) p co) s e = Ok tt →
    verify_section E (C := C) p co data (in_chunk_index p s) (in_chunk_index p (other_end p s e)) = Ok tt) →
  sound_section C co data.
Proof.
  intros Hs Hw Hlen Hv. pose proof (other_le p Hp Hs) as Hle. pose proof (g1_chunk_small p Hp). pose proof (reg_hi _ _ Hp).
  apply (sound_pieces co _ (N.to_nat (other_chunk_size p))); [done|]. intros cs Hcs Hlc Hwc i d Hi Hd.
  destruct (covering_batch i) as (k & s & e & Hb & Hse & Hvb); [unfold n_tau_g1; lia|].
  assert (s < powers_length p)%N as Hsp.
  { pose proof (reg_other _ _ Hp Hs) as Ho. unfold chunk_hi in *. destruct (N.ltb_spec (chunk_lo p) (powers_length p)); lia. }
  destruct (other_end_min p Hp k s e Hs Hb Hsp) as [He Hlt].
  specialize (Hv s e Hsp Hvb). destruct Hb as (Hlo & Hse' & _). rewrite He, Hcs in Hv.
  rewrite !(in_chunk_index_lo p Hp) in Hv by bounds_lia. unfold other_hi in *.
  eapply (verify_section_inv p co cs); [done | | | apply Hw | exact Hv | | done]; lia.
Qed.

Lemma sound_sections :
  sound_section (G1Affine E) co (pt_tau_g1 x) ∧ sound_section (G2Affine E) co (pt_tau_g2 x) ∧
  sound_section (G1Affine E) co (pt_alpha_g1 x) ∧ sound_section (G1Affine E) co (pt_beta_g1 x).
Proof.
  split; [apply sound_tau_g1|]. destruct Hf as [_ _ F2 F3 F4 _]. unfold n_tau_g2, n_alpha, n_beta in *.
  destruct (p1_proving_system p) eqn:Hs.
  - split_and!; (apply sound_other; [done | apply Hp | done | ]); intros s e Hsp Hv; unfold verify_batch in Hv;
      rewrite Hs, (proj2 (N.ltb_lt _ _) Hsp) in Hv; apply bind_outcome_ok in Hv as ([] & _ & Hv);
      cbv zeta in Hv; apply bind_outcome_ok in Hv as ([] & H1 & Hv);
      apply bind_outcome_ok in Hv as ([] & H2 & H3).
    + by rewrite (view_tau_g2 p co x Hf) in H1.
    + by rewrite (view_alpha p co x Hf) in H2.
    + by rewrite (view_beta p co x Hf) in H3.
  - assert (pt_beta_g1 x = []) as -> by (by apply nil_length_inv).
    assert (sound_section (G2Affine E) co (pt_tau_g2 x) ∧ sound_section (G1Affine E) co (pt_alpha_g1 x)) as [? ?].
    2: { split_and!; [done | done | apply sound_empty]. }
    destruct (N.eqb_spec (p1_chunk_index p) 0) as [Hi|Hi].
    2: { apply nil_length_inv in F2, F3. rewrite F2, F3. split; apply sound_empty. }
    destruct (covering_batch 0) as (k & s & e & Hb & Hse & Hv).
    { pose proof (reg_pos _ _ Hp). unfold n_tau_g1. lia. }
    pose proof (proj1 (reg_first _ _ Hp) Hi) as Hlo. assert (s = 0%N) as -> by lia.
    unfold verify_batch in Hv. rewrite Hs in Hv. apply bind_outcome_ok in Hv as ([] & _ & Hv). cbn [N.eqb] in Hv.
    apply bind_outcome_ok in Hv as ([] & H3 & H2). destruct (size_sums p Hp) as [S2 S3]. pose proof (reg_size _ _ Hp).
    rewrite S3, (view_alpha p co x Hf) in H3. rewrite S2, (view_tau_g2 p co x Hf) in H2.
    replace (3 + 3 * total_size_in_log2 p)%N with (N.of_nat (3 + 3 * N.to_nat (total_size_in_log2 p))) in H3 by lia.
    replace (total_size_in_log2 p + 2)%N with (N.of_nat (N.to_nat (total_size_in_log2 p) + 2)) in H2 by lia.
    split; eapply sound_pieces; try done; intros cs Hcs Hlc Hwc i d Hid Hd.
    + rewrite Hcs in H2. eapply (verify_section_inv p co cs 0); [done | | | apply (reg_g2 _ _ Hp) | exact H2 | | done];
        [lia | bounds_lia | lia].
    + rewrite Hcs in H3. eapply (verify_section_inv p co cs 0); [done | | | apply (reg_g1 _ _ Hp) | exact H3 | | done];
        [lia | bounds_lia | lia].
Qed.
End sound.

(** ** The first elements of what passes *)

(** The first elements of an accumulator are those of a contribution. *)
Record first_contributed {E : PairingEngine} (p : Phase1Parameters) (key : PrivateKey E)
    (acc acc' : Accumulator E) : Prop := {
  fc_generator_g1 : tau_powers_g1 acc' !! 0 = Some prime_subgroup_generator;
  fc_generator_g2 : tau_powers_g2 acc' !! 0 = Some prime_subgroup_generator;
  fc_tau_g1 : tau_powers_g1 acc' !! 1 = (λ q, mul q (tau key)) <$> tau_powers_g1 acc !! 1;
  fc_tau_g2 : tau_powers_g2 acc' !! 1 = (λ q, mul q (tau key)) <$> tau_powers_g2 acc !! 1;
  fc_alpha : alpha_tau_powers_g1 acc' !! 0 = (λ q, mul q (alpha key)) <$> alpha_tau_powers_g1 acc !! 0;
  fc_beta : p1_proving_system p = Groth16 →
    beta_tau_powers_g1 acc' !! 0 = (λ q, mul q (beta key)) <$> beta_tau_powers_g1 acc !! 0;
  fc_beta_g2 : p1_proving_system p = Groth16 → in_subgroup (beta_g2 acc') →
    beta_g2 acc' = mul (beta_g2 acc) (beta key);
}.

(** A public key whose points in G2 are powers of the hashed points by a
    private key, and whose points in G1 are as its comment promises. *)
Record promised_key {E : PairingEngine} `{!Randomness E} (fuel : nat) (digest : bytes)
    (pk : PublicKey E) (key : PrivateKey E) : Prop := {
  pm_g2 : ∃ ht ha hb, compute_g2_s_key E fuel pk digest = Ok (ht, ha, hb) ∧
    pk_tau_g2 pk = mul ht (tau key) ∧ pk_alpha_g2 pk = mul ha (alpha key) ∧ pk_beta_g2 pk = mul hb (beta key);
  pm_group : Forall in_subgroup [(pk_tau_g1 pk).1; (pk_tau_g1 pk).2; (pk_alpha_g1 pk).1; (pk_alpha_g1 pk).2;
    (pk_beta_g1 pk).1; (pk_beta_g1 pk).2];
  pm_nonzero : Forall (λ q, q ≠ zero) [(pk_tau_g1 pk).1; (pk_alpha_g1 pk).1; (pk_beta_g1 pk).1];
}.

Section first.
Context {E : PairingEngine} `{!EngineLaws E, !Randomness E}.
Context (p : Phase1Parameters) (Hp : regular E p) (fuel : nat) (digest : bytes).
Context (pk : PublicKey E) (key : PrivateKey E) (Hpk : promised_key fuel digest pk key).

Lemma compute_g2_s_key_inv ht ha hb :
  compute_g2_s_key E fuel pk digest = Ok (ht, ha, hb) →
  (in_subgroup ht ∧ ht ≠ zero) ∧ (in_subgroup ha ∧ ha ≠ zero) ∧ in_subgroup hb ∧ hb ≠ zero.
Proof.
  unfold compute_g2_s_key. intros H. apply bind_outcome_ok in H as (h1 & H1 & H).
  apply bind_outcome_ok in H as (h2 & H2 & H). apply bind_outcome_ok in H as (h3 & H3 & [= <- <- <-]).
  by split_and!; eapply compute_g2_s_in_subgroup.
Qed.

(** The proofs of knowledge: one private key in both groups. *)
Lemma promised_g1 ht ha hb :
  compute_g2_s_key E fuel pk digest = Ok (ht, ha, hb) → check_key_ratios E pk ht ha hb = Ok tt →
  (pk_tau_g1 pk).2 = mul (pk_tau_g1 pk).1 (tau key) ∧ (pk_beta_g1 pk).2 = mul (pk_beta_g1 pk).1 (beta key).
Proof.
  intros Hh H. destruct Hpk as [(ht' & ha' & hb' & Hh' & Et & Ea & Eb) Hg _].
  rewrite Hh in Hh'. injection Hh' as <- <- <-. destruct (compute_g2_s_key_inv _ _ _ Hh) as ([Gt Zt] & _ & Gb & Zb).
  rewrite !Forall_cons in Hg. destruct Hg as (S1 & S2 & _ & _ & S5 & S6 & _).
  unfold check_key_ratios in H. apply bind_outcome_ok in H as ([] & H1 & H).
  apply bind_outcome_ok in H as ([] & _ & H3). rewrite Et in H1. rewrite Eb in H3.
  rewrite (surjective_pairing (pk_tau_g1 pk)) in H1. rewrite (surjective_pairing (pk_beta_g1 pk)) in H3.
  split; [exact (ratio_g1 _ _ _ _ _ S1 S2 Gt Zt H1) | exact (ratio_g1 _ _ _ _ _ S5 S6 Gb Zb H3)].
Qed.

Context (ci co : UseCompression) (check_in check_out : CheckForCorrectness) (xi xo : Parts).
Context (acc acc' : Accumulator E) (Hin : holds p ci check_in xi acc) (Hout : holds p co CheckNo xo acc').
Context (Hgroup : in_group acc).
Context (Hsound : ∀ check, decodes co check (pt_tau_g1 xo) (tau_powers_g1 acc') ∧
  decodes co check (pt_tau_g2 xo) (tau_powers_g2 acc') ∧
  decodes co check (pt_alpha_g1 xo) (alpha_tau_powers_g1 acc') ∧
  decodes co check (pt_beta_g1 xo) (beta_tau_powers_g1 acc')).
Context (Hgroup' : Forall in_subgroup (tau_powers_g1 acc') ∧ Forall in_subgroup (tau_powers_g2 acc') ∧
  Forall in_subgroup (alpha_tau_powers_g1 acc') ∧ Forall in_subgroup (beta_tau_powers_g1 acc')).

(** One of the reused vectors' checks. *)
Lemma first_check_inv (before after : bytes) (lb la v1 v2 : list (G1Affine E)) h x err r :
  decodes ci check_in before lb → decodes co check_out after la →
  Forall in_subgroup lb → Forall in_subgroup la → 0 < length lb → 0 < length la →
  0 < length v1 → 0 < length v2 → in_subgroup h → h ≠ zero →
  (try! v1 := read_batch_preallocated v1 ci check_in before in
   try! v2 := read_batch_preallocated v2 co check_out after in
   try! b := index v1 0 in
   try! a := index v2 0 in
   try! _ := check_same_ratio (b, a) (h, mul h x) err in Ok (v1, v2)) = Ok r →
  la !! 0 = (λ q, mul q x) <$> lb !! 0 ∧ length r.1 = length v1 ∧ length r.2 = length v2.
Proof.
  intros Db Da Gb Ga Lb La L1 L2 Hh Hz H.
  destruct (lookup_lt_is_Some_2 lb 0 Lb) as [qb Hqb], (lookup_lt_is_Some_2 la 0 La) as [qa Hqa].
  destruct (read_preallocated_first _ _ _ _ v1 qb Db Hqb L1) as (w1 & R1 & X1 & W1).
  destruct (read_preallocated_first _ _ _ _ v2 qa Da Hqa L2) as (w2 & R2 & X2 & W2).
  rewrite R1 in H. cbn [bind_outcome] in H. rewrite R2 in H. cbn [bind_outcome] in H.
  rewrite X1 in H. cbn [bind_outcome] in H. rewrite X2 in H. cbn [bind_outcome] in H.
  apply bind_outcome_ok in H as ([] & H & [= <-]). split; [|done]. rewrite Hqa, Hqb. cbn. f_equal.
  eapply ratio_g1; [| | exact Hh | exact Hz | exact H].
  - exact (Forall_lookup_1 _ _ _ _ Gb Hqb).
  - exact (Forall_lookup_1 _ _ _ _ Ga Hqa).
Qed.

Lemma verify_initial_sound :
  is_first p = true → 2 ≤ n_tau_g1 p → 2 ≤ n_tau_g2 p →
  verify_initial_elements E fuel (join xi) (join xo) pk digest ci co check_in check_out p
    (ranges (E := E) p ci) (ranges (E := E) p co) = Ok tt →
  first_contributed p key acc acc'.
Proof.
  intros Hfirst T1 T2 H. destruct (is_first_index p Hp Hfirst) as [Hidx Hlo].
  destruct (holds_lengths _ _ _ _ _ Hin) as (L1 & L2 & L3 & L4), (holds_lengths _ _ _ _ _ Hout) as (M1 & M2 & M3 & M4).
  pose proof (hold_fits _ _ _ _ _ Hin) as Hfi. pose proof (hold_fits _ _ _ _ _ Hout) as Hfo.
  pose proof Hin as [_ I1 I2 I3 I4 I5]. destruct (Hsound check_out) as (O1 & O2 & O3 & O4).
  destruct Hgroup as (G1 & G2 & G3 & G4 & G5), Hgroup' as (G1' & G2' & G3' & G4').
  assert (0 < n_alpha p) as Na.
  { unfold n_alpha, n_tau_g2 in *. rewrite Hidx in *. destruct (p1_proving_system p); cbn in *; lia. }
  unfold verify_initial_elements in H.
  apply bind_outcome_ok in H as ([[ht ha] hb] & Hh & H). cbv zeta in H.
  apply bind_outcome_ok in H as ([] & Hratios & H).
  destruct (promised_g1 _ _ _ Hh Hratios) as [Kt Kb].
  destruct (compute_g2_s_key_inv _ _ _ Hh) as ([Sht Zht] & [Sha Zha] & Shb & Zhb).
  destruct Hpk as [(ht' & ha' & hb' & Hh' & Et & Ea & Eb) Hg Hz].
  rewrite Hh in Hh'. injection Hh' as <- <- <-.
  rewrite !Forall_cons in Hg. rewrite !Forall_cons in Hz. destruct Hg as (S1 & S2 & _ & _ & S5 & S6 & _), Hz as (Z1 & _ & Z3 & _).
  rewrite (view_tau_g1 p ci xi Hfi), (view_tau_g1 p co xo Hfo), (view_tau_g2 p ci xi Hfi), (view_tau_g2 p co xo Hfo),
    (view_alpha p ci xi Hfi), (view_alpha p co xo Hfo), (view_beta p ci xi Hfi), (view_beta p co xo Hfo),
    (view_beta_g2 p ci xi Hfi), (view_beta_g2 p co xo Hfo) in H.
  apply bind_outcome_ok in H as (r1 & Hr1 & H).
  eapply check_initial_inv in Hr1 as [Er1 Fg1]; [| exact I1 | exact O1 | lia | lia | apply (reg_g1 _ _ Hp)].
  rewrite Er1 in H.
  destruct (lookup_lt_is_Some_2 (tau_powers_g1 acc) 1) as [q1 Hq1]; [lia|].
  destruct (lookup_lt_is_Some_2 (tau_powers_g1 acc') 1) as [q1' Hq1']; [lia|].
  cbv beta iota in H. rewrite (index_take _ _ _ _ Hq1) in H by lia. cbn [bind_outcome] in H.
  rewrite (index_take _ _ _ _ Hq1') in H by lia. cbn [bind_outcome] in H.
  apply bind_outcome_ok in H as ([] & Ht1 & H). rewrite Et in Ht1.
  apply ratio_g1 in Ht1; [| exact (Forall_lookup_1 _ _ _ _ G1 Hq1) | exact (Forall_lookup_1 _ _ _ _ G1' Hq1') | done | done].
  apply bind_outcome_ok in H as (r2 & Hr2 & H).
  eapply check_initial_inv in Hr2 as [Er2 Fg2]; [| exact I2 | exact O2 | lia | lia | apply (reg_g2 _ _ Hp)].
  rewrite Er2 in H.
  destruct (lookup_lt_is_Some_2 (tau_powers_g2 acc) 1) as [h1 Hh1]; [lia|].
  destruct (lookup_lt_is_Some_2 (tau_powers_g2 acc') 1) as [h1' Hh1']; [lia|].
  cbv beta iota in H. rewrite (index_take _ _ _ _ Hh1) in H by lia. cbn [bind_outcome] in H.
  rewrite (index_take _ _ _ _ Hh1') in H by lia. cbn [bind_outcome] in H.
  apply bind_outcome_ok in H as ([] & Ht2 & H). rewrite (surjective_pairing (pk_tau_g1 pk)), Kt in Ht2.
  apply ratio_g2 in Ht2; [| done | exact (Forall_lookup_1 _ _ _ _ G2 Hh1) | exact (Forall_lookup_1 _ _ _ _ G2' Hh1') | done].
  apply bind_outcome_ok in H as ([] & Hfirsts & H). rewrite Ea, Eb in Hfirsts.
  assert (0 < length (take 2 (tau_powers_g1 acc)) ∧ 0 < length (take 2 (tau_powers_g1 acc'))) as [P1 P2]
    by (rewrite !length_take; lia).
  assert (alpha_tau_powers_g1 acc' !! 0 = (λ q, mul q (alpha key)) <$> alpha_tau_powers_g1 acc !! 0 ∧
    (p1_proving_system p = Groth16 →
       beta_tau_powers_g1 acc' !! 0 = (λ q, mul q (beta key)) <$> beta_tau_powers_g1 acc !! 0)) as [Falpha Fbeta].
  { unfold check_first_elements in Hfirsts. destruct (p1_proving_system p) eqn:Hps; cbn [foldl] in Hfirsts;
      apply bind_outcome_ok in Hfirsts as (r & Hr & _).
    - apply bind_outcome_ok in Hr as (s & Hs & Hr).
      apply (first_check_inv _ _ _ _ _ _ _ _ _ _ I3 O3) in Hs as (Ha & V1 & V2); try done; try lia.
      split; [done|]. intros _.
      apply (first_check_inv _ _ _ _ _ _ _ _ _ _ I4 O4) in Hr as (Hb & _); try done.
      3: exact (eq_ind_r (λ n, 0 < n) P1 V1).
      3: exact (eq_ind_r (λ n, 0 < n) P2 V2).
      all: unfold n_beta, n_tau_g2 in *; rewrite Hps in *; lia.
    - split; [|done]. by apply (first_check_inv _ _ _ _ _ _ _ _ _ _ I3 O3) in Hr as (Ha & V1 & V2); try lia. }
  split; try done.
  - by rewrite Hq1, Hq1', Ht1.
  - by rewrite Hh1, Hh1', Ht2.
  - intros Hps Hbg. rewrite Hps in H, I5. pose proof (hold_beta_g2 _ _ _ _ _ Hout) as O5. rewrite Hps in O5.
    pose proof (fit_beta_g2 _ _ _ Hfi) as Li. pose proof (fit_beta_g2 _ _ _ Hfo) as Lo. unfold n_beta_g2 in Li, Lo.
    rewrite Hps in Li, Lo. apply decodes_single in I5, O5; [|lia..].
    rewrite I5 in H. cbn [bind_outcome] in H. apply bind_outcome_ok in H as (b & Hb & H).
    assert (b = beta_g2 acc') as ->.
    { unfold read_element in Hb, O5. apply bind_outcome_ok in Hb as (y & Hy & Hb). rewrite Hy in O5.
      cbn [bind_outcome] in O5. destruct (rejects_zero check_out && is_zero y); [done|].
      destruct (rejects_zero CheckNo && is_zero y); congruence. }
    rewrite (surjective_pairing (pk_beta_g1 pk)), Kb in H. by apply ratio_g2 in H.
Qed.
End first.

(** ** Theorems *)

Section theorem.
Context {E : PairingEngine} `{!EngineLaws E, !Randomness E, !RandomnessLaws E}.

(** C11. Whatever randomness a key pair is made from, the contribution of its
    private key passes the verification with its public key: the output's
    points are non-zero points of the subgroup, and the first elements are in
    the ratios of the key. *)
Theorem honest_contribution_verifies (p : Phase1Parameters) (fuel : nat) (digest : bytes) (rng rng' : Rng)
    (pk : PublicKey E) (sk : PrivateKey E) ci co check check_in check_out
    (input output : bytes) (acc : Accumulator E)
    (Hp : regular E p)
    (Hkeys : key_generation E fuel digest rng = (Ok (pk, sk), rng'))
    (Hinput : deserialize_accumulator E p ci CheckNo input = Ok acc)
    (Hin : accumulator_length (E := E) p ci ≤ length input)
    (Hout : accumulator_length (E := E) p co ≤ length output)
    (Hgroup : in_group acc) (Hnz : nonzero acc) (Hsk : key_nonzero sk)
    (Hfirst : is_first p = true → first_elements p acc) :
  ∃ output', computation E input ci co check sk p output = (Ok tt, output') ∧
    phase1_verify E fuel input output' pk digest ci co check_in check_out p = Ok tt.
Proof.
  destruct (key_generation_pair _ _ _ _ _ _ Hkeys) as [_ Hpair].
  destruct (deserialize_holds_inv p ci CheckNo input acc Hp Hin Hinput) as (xi & -> & Hh).
  destruct (parts_exist p co output Hout) as (xo & -> & Hf).
  destruct (computation_parts p Hp sk ci co check xi acc (holds_strengthen p ci check xi acc Hh Hnz) xo Hf Hgroup)
    as (x & Hrun & Hx & _).
  exists (join x). split; [done|].
  assert (∀ c, holds p co c x (with_beta_g2 (beta_g2 (contributed p sk acc)) (contributed p sk acc))) as Hxc.
  { intros c. replace (with_beta_g2 _ _) with (contributed p sk acc) by (by destruct (contributed p sk acc)).
    apply holds_strengthen; [done|]. by apply contributed_nonzero. }
  apply (verify_parts p Hp fuel digest pk sk Hpair ci co check_in check_out xi x acc) with
    (b := beta_g2 (contributed p sk acc)); try done.
  - by apply holds_strengthen.
  - intros Hs. destruct Hpair as [_ _ (s & h & Hsg & -> & _)]. unfold contributed. rewrite Hs. cbn.
    apply same_ratio_g1; [done | apply Hgroup].
Qed.

(** C26. Nothing rejects a public key with the identity in it, although the
    comment of [PublicKey] says that none of its points may be: with the
    identity for the pair of beta in G1, the ratio that binds beta in G2 holds
    of any point, so that every point of the subgroup can take the place of
    the honest beta. *)
Theorem identity_key_unbinds_beta_g2 (p : Phase1Parameters) (fuel : nat) (digest : bytes) (rng rng' : Rng)
    (pk : PublicKey E) (sk : PrivateKey E) ci co check_in check_out
    (input output : bytes) (acc : Accumulator E) (h b : G2Affine E)
    (Hp : regular E p) (Hps : p1_proving_system p = Groth16)
    (Hkeys : key_generation E fuel digest rng = (Ok (pk, sk), rng'))
    (Hinput : deserialize_accumulator E p ci CheckNo input = Ok acc)
    (Hin : accumulator_length (E := E) p ci ≤ length input)
    (Hout : accumulator_length (E := E) p co ≤ length output)
    (Hgroup : in_group acc) (Hnz : nonzero acc) (Hsk : key_nonzero sk)
    (Hfirst : is_first p = true → first_elements p acc)
    (Hh : compute_g2_s fuel digest (zero : G1Affine E) zero x02 = Ok h)
    (Hb : in_subgroup b) (Hbz : b ≠ zero) :
  ∃ output',
    phase1_verify E fuel input output'
      (MkPublicKey (pk_tau_g1 pk) (pk_alpha_g1 pk) (zero, zero) (pk_tau_g2 pk) (pk_alpha_g2 pk)
         (mul h (beta sk))) digest ci co check_in check_out p = Ok tt ∧
    deserialize_accumulator E p co CheckNo output' = Ok (with_beta_g2 b (contributed p sk acc)).
Proof.
  destruct (key_generation_pair _ _ _ _ _ _ Hkeys) as [_ [Kt Ka _]].
  destruct (deserialize_holds_inv p ci CheckNo input acc Hp Hin Hinput) as (xi & -> & Hi).
  destruct (parts_exist p co output Hout) as (xo & -> & Hf).
  destruct (computation_parts p Hp sk ci co CheckNo xi acc Hi xo Hf Hgroup) as (x & _ & Hx & _).
  set (t := with_beta_g2 b (contributed p sk acc)).
  assert (holds p co CheckNo (set_beta_g2 (serialize co b) x) t) as Ht.
  { destruct Hx as [Hfx H1 H2 H3 H4 _]. split; try done.
    - apply fits_beta_g2; [done|]. rewrite (fit_beta_g2 _ _ _ Hfx), serialize_width. unfold n_beta_g2.
      rewrite Hps. lia.
    - rewrite Hps. cbn. rewrite <-(app_nil_r (serialize co b)).
      apply (decodes_encoded (C := G2Affine E) co [b]). by repeat constructor. }
  exists (join (set_beta_g2 (serialize co b) x)). split; [|by apply deserialize_holds].
  apply (verify_parts p Hp fuel digest _ sk) with (xi := xi) (acc := acc) (b := b); try done.
  - split; [exact Kt | exact Ka |]. exists zero, h. cbn. rewrite mul_zero_l by apply _.
    split_and!; try done. apply zero_in_subgroup.
  - by apply holds_strengthen.
  - intros _. cbn. apply zero_ratio; [apply Hgroup | done].
  - intros c. apply holds_strengthen; [done|].
    destruct (contributed_nonzero p sk acc Hgroup Hnz Hsk) as (N1 & N2 & N3 & N4 & _). by split_and!.
Qed.

Lemma verified_parts (p : Phase1Parameters) (fuel : nat) (digest : bytes) (pk : PublicKey E)
    ci co check_in check_out (input output : bytes) :
  regular E p → accumulator_length (E := E) p co ≤ length output →
  phase1_verify E fuel input output pk digest ci co check_in check_out p = Ok tt →
  ∃ x, output = join x ∧ fits (E := E) p co x ∧
    sound_section (G1Affine E) co (pt_tau_g1 x) ∧ sound_section (G2Affine E) co (pt_tau_g2 x) ∧
    sound_section (G1Affine E) co (pt_alpha_g1 x) ∧ sound_section (G1Affine E) co (pt_beta_g1 x).
Proof.
  intros Hp Hout Hverify. destruct (parts_exist p co output Hout) as (x & -> & Hf).
  exists x. split; [done|]. split; [done|].
  pose proof (reg_hi _ _ Hp). pose proof (reg_batch _ _ Hp). pose proof (reg_pos _ _ Hp).
  destruct (iter_chunk_batches p (chunk_lo p) (chunk_hi p) (reg_bounds _ _ Hp) ltac:(bounds_lia) ltac:(bounds_lia))
    as (bs & Hbs & Hrun); [unfold chunk_hi; lia|].
  apply (sound_sections p Hp co x Hf bs Hbs). unfold phase1_verify in Hverify.
  rewrite (split_join p Hp co x Hf) in Hverify. cbn [bind_outcome] in Hverify.
  apply bind_outcome_ok in Hverify as ([] & _ & Hverify). rewrite Hrun in Hverify.
  destruct (for_each _ bs tt) as [o st] eqn:Hfe. cbn in Hverify. subst o.
  by apply (for_each_lift_ok _ _ _ _ Hfe).
Qed.

(** C24. What passes is sound in the four sections of powers: tau in G1 and in
    G2, alpha and beta in G1 of an accepted output hold non-zero points of the
    subgroup, whoever has written it. The fifth section, the element under beta
    in G2, is not covered: it is read without this check. *)
Theorem verified_sections_sound (p : Phase1Parameters) (fuel : nat) (digest : bytes) (pk : PublicKey E)
    ci co check_in check_out (input output : bytes)
    (Hp : regular E p) (Hout : accumulator_length (E := E) p co ≤ length output)
    (Hverify : phase1_verify E fuel input output pk digest ci co check_in check_out p = Ok tt) :
  sound_section (G1Affine E) co (view (sb_tau_g1 (ranges (E := E) p co)) output) ∧
  sound_section (G2Affine E) co (view (sb_tau_g2 (ranges (E := E) p co)) output) ∧
  sound_section (G1Affine E) co (view (sb_alpha_g1 (ranges (E := E) p co)) output) ∧
  sound_section (G1Affine E) co (view (sb_beta_g1 (ranges (E := E) p co)) output).
Proof.
  destruct (verified_parts p fuel digest pk ci co check_in check_out input output Hp Hout Hverify)
    as (x & -> & Hf & Hs).
  by rewrite (view_tau_g1 p co x Hf), (view_tau_g2 p co x Hf), (view_alpha p co x Hf), (view_beta p co x Hf).
Qed.

(** The verification of the first elements reads beta in G2. *)
Lemma verify_initial_beta_g2 p fuel digest (pk : PublicKey E) ci co check_in check_out input output i o :
  p1_proving_system p = Groth16 →
  verify_initial_elements E fuel input output pk digest ci co check_in check_out p i o = Ok tt →
  ∃ b, read_element (C := G2Affine E) co check_out (view (sb_beta_g2 o) output) = Ok b.
Proof.
  intros Hps H. unfold verify_initial_elements in H. rewrite Hps in H.
  apply bind_outcome_ok in H as ([[ht ha] hb] & _ & H). apply bind_outcome_ok in H as ([] & _ & H).
  apply bind_outcome_ok in H as ([b1 a1] & _ & H). apply bind_outcome_ok in H as (x1 & _ & H).
  apply bind_outcome_ok in H as (x2 & _ & H). apply bind_outcome_ok in H as ([] & _ & H).
  apply bind_outcome_ok in H as ([b2 a2] & _ & H). apply bind_outcome_ok in H as (x3 & _ & H).
  apply bind_outcome_ok in H as (x4 & _ & H). apply bind_outcome_ok in H as ([] & _ & H).
  apply bind_outcome_ok in H as ([] & _ & H). apply bind_outcome_ok in H as (before & _ & H).
  apply bind_outcome_ok in H as (after & Hafter & _). by exists after.
Qed.

(** C25. A verification that passes binds the first chunk to the private key
    of the public key, if that is as its comment promises: the output parses,
    the powers of tau start with the generators and are carried on by tau,
    and the first elements of the other sections are those of the input times
    alpha and beta. *)
Theorem verified_first_elements (p : Phase1Parameters) (fuel : nat) (digest : bytes) (pk : PublicKey E)
    (key : PrivateKey E) ci co check_in check_out (input output : bytes) (acc : Accumulator E)
    (Hp : regular E p) (Hfirst : is_first p = true) (Hpk : promised_key fuel digest pk key)
    (Hg1 : 2 ≤ n_tau_g1 p) (Hg2 : 2 ≤ n_tau_g2 p)
    (Hinput : deserialize_accumulator E p ci check_in input = Ok acc)
    (Hin : accumulator_length (E := E) p ci ≤ length input)
    (Hout : accumulator_length (E := E) p co ≤ length output)
    (Hgroup : in_group acc)
    (Hverify : phase1_verify E fuel input output pk digest ci co check_in check_out p = Ok tt) :
  ∃ acc', deserialize_accumulator E p co CheckNo output = Ok acc' ∧ first_contributed p key acc acc'.
Proof.
  destruct (verified_parts p fuel digest pk ci co check_in check_out input output Hp Hout Hverify)
    as (x & -> & Hf & (l1 & D1 & S1) & (l2 & D2 & S2) & (l3 & D3 & S3) & (l4 & D4 & S4)).
  apply Forall_and in S1 as [G1 Z1], S2 as [G2 Z2], S3 as [G3 Z3], S4 as [G4 Z4].
  destruct (deserialize_holds_inv p ci check_in input acc Hp Hin Hinput) as (xi & -> & Hi).
  pose proof (hold_fits _ _ _ _ _ Hi) as Hfi.
  unfold phase1_verify in Hverify. rewrite (split_join p Hp co x Hf), (split_join p Hp ci xi Hfi) in Hverify.
  cbn [bind_outcome] in Hverify. apply bind_outcome_ok in Hverify as ([] & Hinit & _).
  fold (is_first p) in Hinit. rewrite Hfirst in Hinit.
  assert (∃ b, match p1_proving_system p with
    | Groth16 => decodes co CheckNo (pt_beta_g2 x) [b : G2Affine E] | Marlin => b = prime_subgroup_generator end) as [b Hb].
  { pose proof (fit_beta_g2 _ _ _ Hf) as Lb. unfold n_beta_g2 in Lb.
    destruct (p1_proving_system p) eqn:Hps; [|by eexists].
    destruct (verify_initial_beta_g2 p fuel digest pk ci co check_in check_out _ _ _ _ Hps Hinit) as (b & Hb).
    rewrite (view_beta_g2 p co x Hf) in Hb. exists b. apply decodes_weaken with (check := check_out).
    apply decodes_single; [lia | exact Hb]. }
  assert (holds p co CheckNo x (MkAccumulator l1 l2 l3 l4 b)) as Hx by
    (split; try done; by eapply decodes_weaken).
  eexists. split; [by apply deserialize_holds|].
  apply (verify_initial_sound p Hp fuel digest pk key Hpk ci co check_in check_out xi x); try done.
  intros c. cbn. assert (∀ (D : AffineCurve (Fr E)) (L : CurveLaws D) d (l : list D),
    decodes co CheckFull d l → Forall (λ q, q ≠ zero) l → decodes co c d l) as Hany.
  { intros D L d l Hd Hz. apply decodes_strengthen; [by eapply decodes_weaken|].
    eapply Forall_impl; [exact Hz|]. by intros q Hq _. }
  split_and!; eapply Hany; try eassumption; apply _.
Qed.
End theorem.

(** ** A verification with the toy engine *)

#[local] Existing Instance toy_randomness.
#[local] Existing Instance toy_randomness_laws.
#[local] Existing Instance Toy.engine_laws.

Definition toy_digest : bytes := repeat x03 64.
Definition toy_randomness_list : Rng (E := Toy.engine) := toy_rng [Toy.Z2; Toy.Z3; Toy.Z4; Toy.Z2; Toy.Z3; Toy.Z1].
Definition toy_public_key : PublicKey Toy.engine :=
  MkPublicKey ((Toy.Z2, Toy.Z4) : G1Affine Toy.engine * G1Affine Toy.engine)
    ((Toy.Z3, Toy.Z4) : G1Affine Toy.engine * G1Affine Toy.engine)
    ((Toy.Z1, Toy.Z4) : G1Affine Toy.engine * G1Affine Toy.engine)
    (Toy.Z3 : G2Affine Toy.engine) (Toy.Z2 : G2Affine Toy.engine) (Toy.Z1 : G2Affine Toy.engine).
Definition toy_private_key : PrivateKey Toy.engine := toy_key Toy.Z2 Toy.Z3 Toy.Z4.
Definition toy_full : Phase1Parameters := toy_parameters Full 0 Groth16.
Definition toy_output : bytes :=
  (computation Toy.engine (toy_initial CompressionNo toy_full) CompressionNo CompressionYes CheckFull
     toy_private_key toy_full (toy_buffer CompressionYes toy_full)).2.

Lemma toy_key_generation :
  key_generation Toy.engine 5 toy_digest toy_randomness_list = (Ok (toy_public_key, toy_private_key), toy_rng []).
Proof. by vm_compute. Qed.
Lemma toy_first : first_elements toy_full toy_accumulator.
Proof. split; try done; vm_compute; lia. Qed.
Lemma toy_initial_unchecked :
  deserialize_accumulator Toy.engine toy_full CompressionNo CheckNo (toy_initial CompressionNo toy_full) =
    Ok toy_accumulator.
Proof. by vm_compute. Qed.
Lemma toy_verifies :
  phase1_verify Toy.engine 5 (toy_initial CompressionNo toy_full) toy_output toy_public_key toy_digest
    CompressionNo CompressionYes CheckFull CheckFull toy_full = Ok tt.
Proof. by vm_compute. Qed.
Lemma toy_promised : promised_key 5 toy_digest toy_public_key toy_private_key.
Proof.
  split; [|by repeat constructor..].
  exists (Toy.Z4 : G2Affine Toy.engine), (Toy.Z4 : G2Affine Toy.engine), (Toy.Z4 : G2Affine Toy.engine).
  by vm_compute.
Qed.

Lemma honest_contribution_verifies_witness :
  ∃ output', computation Toy.engine (toy_initial CompressionNo toy_full) CompressionNo CompressionYes CheckFull
      toy_private_key toy_full (toy_buffer CompressionYes toy_full) = (Ok tt, output') ∧
    phase1_verify Toy.engine 5 (toy_initial CompressionNo toy_full) output' toy_public_key toy_digest
      CompressionNo CompressionYes CheckFull CheckFull toy_full = Ok tt.
Proof.
  apply (honest_contribution_verifies toy_full 5 toy_digest toy_randomness_list (toy_rng []) toy_public_key
    toy_private_key CompressionNo CompressionYes CheckFull CheckFull CheckFull
    (toy_initial CompressionNo toy_full) (toy_buffer CompressionYes toy_full) toy_accumulator).
  - by apply toy_regular.
  - apply toy_key_generation.
  - apply toy_initial_unchecked.
  - by vm_compute.
  - by vm_compute.
  - apply toy_in_group.
  - apply toy_nonzero.
  - by split_and!.
  - intros _. apply toy_first.
Defined.

Lemma identity_key_unbinds_beta_g2_witness :
  let b : G2Affine Toy.engine := Toy.Z3 in
  ∃ (h : G2Affine Toy.engine) output',
    phase1_verify Toy.engine 5 (toy_initial CompressionNo toy_full) output'
      (MkPublicKey (pk_tau_g1 toy_public_key) (pk_alpha_g1 toy_public_key) (zero, zero) (pk_tau_g2 toy_public_key)
         (pk_alpha_g2 toy_public_key) (mul h (beta toy_private_key))) toy_digest
      CompressionNo CompressionYes CheckFull CheckFull toy_full = Ok tt ∧
    deserialize_accumulator Toy.engine toy_full CompressionYes CheckNo output' =
      Ok (with_beta_g2 b (contributed toy_full toy_private_key toy_accumulator)) ∧
    b ≠ beta_g2 (contributed toy_full toy_private_key toy_accumulator).
Proof.
  intros b. exists (Toy.Z3 : G2Affine Toy.engine).
  destruct (identity_key_unbinds_beta_g2 toy_full 5 toy_digest toy_randomness_list (toy_rng []) toy_public_key
    toy_private_key CompressionNo CompressionYes CheckFull CheckFull
    (toy_initial CompressionNo toy_full) (toy_buffer CompressionYes toy_full) toy_accumulator
    (Toy.Z3 : G2Affine Toy.engine) b) as (output' & Hv & Hd).
  - by apply toy_regular.
  - done.
  - apply toy_key_generation.
  - apply toy_initial_unchecked.
  - by vm_compute.
  - by vm_compute.
  - apply toy_in_group.
  - apply toy_nonzero.
  - by split_and!.
  - intros _. apply toy_first.
  - by vm_compute.
  - done.
  - done.
  - exists output'. split; [exact Hv|]. split; [exact Hd|]. done.
Defined.

Lemma verified_sections_sound_witness :
  sound_section (G1Affine Toy.engine) CompressionYes
    (view (sb_tau_g1 (ranges (E := Toy.engine) toy_full CompressionYes)) toy_output).
Proof.
  apply (verified_sections_sound toy_full 5 toy_digest toy_public_key CompressionNo CompressionYes CheckFull
    CheckFull (toy_initial CompressionNo toy_full) toy_output).
  - by apply toy_regular.
  - by vm_compute.
  - apply toy_verifies.
Defined.

Lemma verified_first_elements_witness :
  ∃ acc', deserialize_accumulator Toy.engine toy_full CompressionYes CheckNo toy_output = Ok acc' ∧
    first_contributed toy_full toy_private_key toy_accumulator acc'.
Proof.
  apply (verified_first_elements toy_full 5 toy_digest toy_public_key toy_private_key CompressionNo CompressionYes
    CheckFull CheckFull (toy_initial CompressionNo toy_full) toy_output toy_accumulator).
  - by apply toy_regular.
  - done.
  - apply toy_promised.
  - vm_compute. lia.
  - vm_compute. lia.
  - by apply toy_initial_deserializes.
  - by vm_compute.
  - by vm_compute.
  - apply toy_in_group.
  - apply toy_verifies.
Defined.
