(* ===== verification/Aggregation.v ===== *)
(** * Aggregation

    The chunks of a round, written one after the other into the sections of
    the round's buffer, make one accumulator; contributing to all chunks with
    one key and aggregating is contributing to the aggregated accumulator. *)

From S2P Require Import Prelude Environment Phase1Parameters Curve Elements MultiExp Buffers Accumulator Phase1 Layout Computation.

(** ** Pieces *)

Section tiles.
Context {A : Type} (size : N).
Implicit Types (ls : list (list A)).

(** The pieces are the chunks of [size] of a list of length [total]. *)
Definition tiled (total : N) ls : Prop :=
  ∀ i l, ls !! i = Some l →
    N.of_nat (length l) = (N.min (N.of_nat (S i) * size) total - N.min (N.of_nat i * size) total)%N.

Lemma tiled_prefix total ls i :
  tiled total ls → i ≤ length ls → N.of_nat (length (concat (take i ls))) = N.min (N.of_nat i * size) total.
Proof.
  intros Ht. induction i as [|i IH]; intros Hi; [simpl; lia|].
  destruct (lookup_lt_is_Some_2 ls i) as [l Hl]; [lia|].
  rewrite (take_S_r _ _ _ Hl), concat_app, length_app. simpl. rewrite app_nil_r.
  specialize (IH ltac:(lia)). specialize (Ht i l Hl). nia.
Qed.
Lemma tiled_length total ls :
  tiled total ls → (total ≤ N.of_nat (length ls) * size)%N → N.of_nat (length (concat ls)) = total.
Proof.
  intros Ht Hn. pose proof (tiled_prefix total ls (length ls) Ht ltac:(lia)) as H.
  rewrite firstn_all in H. lia.
Qed.
(** Where a piece is. *)
Lemma tiled_piece total ls i l :
  tiled total ls → ls !! i = Some l →
  take (length l) (list.drop (N.to_nat (N.min (N.of_nat i * size) total)) (concat ls)) = l.
Proof.
  intros Ht Hl. pose proof (lookup_lt_Some _ _ _ Hl) as Hi.
  pose proof (tiled_prefix total ls i Ht ltac:(lia)) as Hp.
  rewrite <-(take_drop_middle ls i l Hl) at 1. rewrite concat_app, concat_cons.
  rewrite drop_app_length' by lia. apply take_app_length.
Qed.
Lemma tiled_end total ls i l :
  tiled total ls → ls !! i = Some l →
  N.to_nat (N.min (N.of_nat i * size) total) + length l = N.to_nat (N.min (N.of_nat (S i) * size) total).
Proof. intros Ht Hl. specialize (Ht i l Hl). nia. Qed.
End tiles.

(** ** Writing a piece of a section *)

Lemma within_sub_range {A} (m : on bytes A) (a : N) (n u v : nat) (buffer : bytes) :
  u ≤ v ≤ n → N.to_nat a + n ≤ length buffer →
  within (MkRange (a + N.of_nat u) (N.of_nat (v - u))) m buffer =
  within (MkRange a (N.of_nat n)) (slice_mut (N.of_nat u) (N.of_nat v) m) buffer.
Proof.
  intros Huv Hn. unfold within, view. cbn [r_start r_len]. rewrite !Nat2N.id.
  set (section := take n (list.drop (N.to_nat a) buffer)).
  assert (length section = n) as Hs by (subst section; rewrite length_take, length_drop; lia).
  replace (N.to_nat (a + N.of_nat u)) with (N.to_nat a + u) by lia.
  assert (take (v - u) (list.drop (N.to_nat a + u) buffer) = take (v - u) (list.drop u section)) as Hview.
  { subst section. rewrite skipn_firstn_comm, take_take, drop_drop, Nat.min_l by lia. done. }
  unfold slice_mut. unfold len. rewrite Hs, !(proj2 (N.leb_le _ _)) by lia. cbn [andb].
  rewrite !Nat2N.id. replace (N.to_nat (N.of_nat v - N.of_nat u)) with (v - u) by lia. rewrite <-Hview.
  destruct (m (take (v - u) (list.drop (N.to_nat a + u) buffer))) as [o part]. f_equal.
  rewrite <-!app_assoc. rewrite (app_assoc (take (N.to_nat a) buffer)).
  f_equal.
  - subst section. rewrite take_take, Nat.min_l by lia. symmetry. apply take_take_drop.
  - f_equal. subst section.
    replace (N.to_nat a + u + (v - u)) with (N.to_nat a + v) by lia.
    rewrite <-(take_drop (n - v) (list.drop (N.to_nat a + v) buffer)), drop_drop. f_equal.
    + by rewrite skipn_firstn_comm, drop_drop.
    + f_equal. lia.
Qed.

Section copying.
Context {E : PairingEngine} `{!EngineLaws E}.
Context {C : AffineCurve (Fr E)} `{!CurveLaws C}.

Lemma copy_section_write ci co (data : bytes) (l : list C) buffer :
  decodes ci CheckNo data l → copy_section E (C := C) data ci co buffer = expect (write_batch l co) buffer.
Proof. intros Hd. unfold copy_section, bind, lift. by rewrite (read_batch_decodes _ _ _ _ Hd). Qed.

(** The piece [l] of the target, copied to its place. *)
Lemma copy_piece ci co (data : bytes) (l target : list C) (s : nat) (out : bytes) :
  decodes ci CheckNo data l → take (length l) (list.drop s target) = l → s + length l ≤ length target →
  written co target s out →
  ∃ out', slice_mut (N.of_nat (s * width C co)) (N.of_nat ((s + length l) * width C co))
      (copy_section E (C := C) data ci co) out = (Ok tt, out') ∧
    written co target (s + length l) out' ∧ length out' = length out.
Proof.
  intros Hd Hl Hs Hw. pose proof Hw as [Hlen _].
  eexists. split; [|split].
  - erewrite slice_mut_ok; [|nia|].
    2: { rewrite (copy_section_write _ _ _ _ _ Hd). apply expect_ok, write_batch_ok.
         rewrite length_take, length_drop. nia. }
    done.
  - pose proof (written_batch co target s s (s + length l) out Hw ltac:(lia) Hs) as H.
    replace (s + length l - s) with (length l) in H by lia. by rewrite Hl in H.
  - rewrite !length_app, length_take, encode_length, length_drop. nia.
Qed.
Lemma copy_whole ci co (data : bytes) (l : list C) (out : bytes) :
  decodes ci CheckNo data l → length out = length l * width C co →
  copy_section E (C := C) data ci co out = (Ok tt, encode co l).
Proof.
  intros Hd Hlen. rewrite (copy_section_write _ _ _ _ _ Hd). apply expect_ok.
  by apply write_batch_ok.
Qed.
Lemma copy_empty ci co (buffer : bytes) : copy_section E (C := C) [] ci co buffer = (Ok tt, buffer).
Proof.
  assert (decodes ci CheckNo [] ([] : list C)) as Hd.
  { apply decodes_pieces. exists []. by split_and!; [|constructor|constructor]. }
  rewrite (copy_section_write _ _ _ _ _ Hd). apply expect_ok.
  exact (write_batch_app co [] [] buffer eq_refl).
Qed.
End copying.

(** ** The parameters of a round and of its chunks *)

Definition chunk_parameters (E : PairingEngine) (ps : ProvingSystem) (size chunk_size batch i : N) : Phase1Parameters :=
  new_parameters Chunked i chunk_size (curve_parameters_new E) ps size batch.
Definition round_parameters (E : PairingEngine) (ps : ProvingSystem) (size batch : N) : Phase1Parameters :=
  new_parameters Full 0 0 (curve_parameters_new E) ps size batch.

Record round_bounds (E : PairingEngine) (ps : ProvingSystem) (size chunk_size batch : N) (n : nat) : Prop := {
  rb_size : (size < 40)%N;
  rb_batch : (2 ≤ batch < 2 ^ 32)%N;
  rb_chunk : (0 < chunk_size < 2 ^ 40)%N;
  rb_g1 c : (serialized_size (G1Affine E) c < 2 ^ 12)%N;
  rb_g2 c : (serialized_size (G2Affine E) c < 2 ^ 12)%N;
  (** [n] chunks are as many as needed. *)
  rb_last : (N.of_nat (n - 1) * chunk_size < total_size ps size)%N;
  rb_all : (total_size ps size ≤ N.of_nat n * chunk_size)%N;
}.

Section round.
Context {E : PairingEngine} `{!EngineLaws E}.
Context (ps : ProvingSystem) (size chunk_size batch : N) (n : nat).
Context (Hr : round_bounds E ps size chunk_size batch n).
Notation P := (round_parameters E ps size batch).
Notation pc i := (chunk_parameters E ps size chunk_size batch (N.of_nat i)).
Notation total := (total_size ps size).

Lemma round_parameter_bounds : parameter_bounds E Full 0 0 ps size batch.
Proof. destruct Hr. by split. Qed.
Lemma chunk_parameter_bounds i : i < n → parameter_bounds E Chunked (N.of_nat i) chunk_size ps size batch.
Proof.
  intros Hi. destruct Hr. split; try done; [lia|]. split; [lia|].
  apply N.le_lt_trans with (N.of_nat (n - 1) * chunk_size)%N; [|done]. apply N.mul_le_mono; lia.
Qed.
Lemma round_regular : regular E P.
Proof. apply new_parameters_regular, round_parameter_bounds. Qed.
Lemma chunk_regular i : i < n → regular E (pc i).
Proof. intros Hi. by apply new_parameters_regular, chunk_parameter_bounds. Qed.

(** The sizes, without the machine arithmetic. *)
Lemma powers_le : (2 ^ size ≤ total)%N.
Proof. apply (powers_bounds _ _ _ _ _ _ round_parameter_bounds). Qed.

Record chunk_facts (i : nat) : Prop := {
  cf_lo : chunk_lo (pc i) = (N.of_nat i * chunk_size)%N;
  cf_g1 : g1_chunk_size (pc i) = (N.min (N.of_nat (S i) * chunk_size) total - N.of_nat i * chunk_size)%N;
  cf_other : p1_proving_system (pc i) = Groth16 →
    other_chunk_size (pc i) = (N.min (N.of_nat (S i) * chunk_size) (2 ^ size) - N.of_nat i * chunk_size)%N;
  cf_powers : powers_length (pc i) = (2 ^ size)%N;
  cf_powers_g1 : p1_proving_system (pc i) = Groth16 → powers_g1_length (pc i) = total;
}.

Lemma chunk_ok i : i < n → chunk_facts i.
Proof.
  intros Hi. pose proof (chunk_parameter_bounds i Hi) as Hb.
  pose proof (chunk_sizes_regular _ _ _ _ _ _ Hb) as Hc. pose proof powers_le.
  destruct (powers_bounds _ _ _ _ _ _ Hb) as (Hl & _).
  pose proof (powers_g1_exact _ _ _ _ _ _ Hb) as Hg. unfold exact_hi, exact_lo in Hc.
  replace (N.of_nat i + 1)%N with (N.of_nat (S i)) in Hc by lia.
  split; unfold chunk_lo, chunk_parameters, new_parameters; rewrite ?Hc;
    cbn [p1_contribution_mode p1_chunk_index p1_chunk_size g1_chunk_size other_chunk_size powers_length powers_g1_length p1_proving_system].
  - done.
  - lia.
  - intros ->. destruct (N.ltb_spec (N.of_nat i * chunk_size) (2 ^ size)); lia.
  - done.
  - intros ->. by rewrite Hg, total_size_groth16.
Qed.

Lemma chunk_fields i :
  p1_contribution_mode (pc i) = Chunked ∧ p1_chunk_index (pc i) = N.of_nat i ∧ p1_chunk_size (pc i) = chunk_size ∧
  p1_proving_system (pc i) = ps ∧ total_size_in_log2 (pc i) = size ∧ hash_size (pc i) = 64%N.
Proof. unfold chunk_parameters, new_parameters. by destruct (chunk_sizes _ _ _ _ _). Qed.
Lemma round_fields :
  p1_proving_system P = ps ∧ p1_chunk_index P = 0%N ∧ total_size_in_log2 P = size ∧ g1_chunk_size P = total ∧
  (p1_proving_system P = Groth16 → other_chunk_size P = 2 ^ size)%N.
Proof.
  pose proof (chunk_sizes_regular _ _ _ _ _ _ round_parameter_bounds) as Hc. unfold exact_hi, exact_lo in Hc.
  pose proof powers_le. unfold round_parameters, new_parameters. rewrite Hc. cbn [p1_proving_system p1_chunk_index
    total_size_in_log2 g1_chunk_size other_chunk_size]. split_and!; try done; [lia|]. intros ->.
  destruct (N.ltb_spec 0 (2 ^ size)); lia.
Qed.

(** The part of a section of [width]-byte elements that holds [len] of them
    from [lo] on. *)
Definition piece (start : N) (lo len width : nat) : range :=
  MkRange (start + N.of_nat (lo * width)) (N.of_nat ((lo + len) * width - lo * width)).

Lemma chunk_bound i : i < n → (N.of_nat i * chunk_size < total ∧ total < 2199023255552)%N.
Proof.
  intros Hi. destruct (powers_bounds _ _ _ _ _ _ round_parameter_bounds) as (_ & _ & _ & Ht).
  split; [|lia]. apply N.le_lt_trans with (N.of_nat (n - 1) * chunk_size)%N; [|apply Hr].
  apply N.mul_le_mono; lia.
Qed.

Lemma element_offset (k : N) (w : nat) :
  (k < 2 ^ 42)%N → (N.of_nat w < 2 ^ 12)%N → usize_mul k (N.of_nat w) = N.of_nat (N.to_nat k * w).
Proof.
  intros Hk Hw. unfold u64_mul. rewrite N.mul_comm.
  change ((N.of_nat w * k) mod u64_modulus)%N with (usize_mul (N.of_nat w) k).
  rewrite usize_mul_exact by bounds_lia. lia.
Qed.

Lemma buffer_to_chunk_ok i (a : N) (m w len : nat) (is_other : bool) :
  i < n → (N.of_nat w < 2 ^ 12)%N → N.to_nat (N.of_nat i * chunk_size) + len ≤ m → (N.of_nat m < 2 ^ 42)%N →
  (is_other = true → ps = Groth16 ∧ other_chunk_size (pc i) = N.of_nat len ∧ 0 < len) →
  (is_other = false → g1_chunk_size (pc i) = N.of_nat len) →
  buffer_to_chunk (pc i) (MkRange a (N.of_nat (m * w))) (N.of_nat w) is_other =
    Ok (piece a (N.to_nat (N.of_nat i * chunk_size)) len w).
Proof.
  intros Hi Hw Hm Hsmall Ho Hg. destruct (chunk_fields i) as (_ & Ei & Ec & Es & _ & _).
  destruct (chunk_bound i Hi) as [Hlo Ht]. unfold buffer_to_chunk. rewrite Ei, Ec, Es.
  assert (∀ c, c = N.of_nat len →
    sub_range (usize_mul (usize_mul (N.of_nat i) chunk_size) (N.of_nat w))
      (usize_add (usize_mul (usize_mul (N.of_nat i) chunk_size) (N.of_nat w)) (usize_mul c (N.of_nat w)))
      (MkRange a (N.of_nat (m * w))) = Ok (piece a (N.to_nat (N.of_nat i * chunk_size)) len w)) as Hsub.
  { intros c ->. rewrite (u64_mul_exact (N.of_nat i)) by bounds_lia.
    rewrite !element_offset by bounds_lia. rewrite Nat2N.id.
    assert (N.of_nat (N.to_nat (N.of_nat i * chunk_size) * w) ≤ 4398046511104 * 4096)%N.
    { rewrite Nat2N.inj_mul, N2Nat.id. apply N.mul_le_mono; bounds_lia. }
    assert (N.of_nat (len * w) ≤ 4398046511104 * 4096)%N.
    { rewrite Nat2N.inj_mul. apply N.mul_le_mono; bounds_lia. }
    rewrite usize_add_exact by bounds_lia. rewrite sub_range_ok by nia. unfold piece. f_equal. f_equal. lia. }
  destruct is_other; cbn [andb].
  - destruct (Ho eq_refl) as (-> & Hlen & Hpos). rewrite (proj2 (N.eqb_neq _ 0)) by lia. by apply Hsub.
  - specialize (Hg eq_refl). destruct ps; by apply Hsub.
Qed.

(** The place of a chunk in the buffer of the round. *)
Lemma split_at_chunk_groth16 i co (m : nat) :
  i < n → ps = Groth16 → accumulator_length (E := E) P co ≤ m →
  let r := ranges (E := E) P co in
  let lo := N.to_nat (N.of_nat i * chunk_size) in
  let k := N.to_nat (other_chunk_size (pc i)) in
  let other r w := if (other_chunk_size (pc i) =? 0)%N then empty_range else piece (r_start r) lo k w in
  split_at_chunk_mut E (pc i) co (N.of_nat m) = Ok (MkSplitBuf
    (piece 64 lo (N.to_nat (g1_chunk_size (pc i))) (width (G1Affine E) co))
    (other (sb_tau_g2 r) (width (G2Affine E) co)) (other (sb_alpha_g1 r) (width (G1Affine E) co))
    (other (sb_beta_g1 r) (width (G1Affine E) co)) (sb_beta_g2 r)).
Proof.
  intros Hi Hs Hm r lo k other. destruct (chunk_fields i) as (_ & Ei & Ec & Es & _ & Eh).
  destruct round_fields as (Fs & Fi & Fz & Fg & Fo). pose proof (chunk_ok i Hi) as [_ Cg Co Cp Cpg].
  pose proof (eq_trans Es Hs) as Es'. pose proof (eq_trans Fs Hs) as Fs'.
  specialize (Fo Fs'). specialize (Co Es'). specialize (Cpg Es').
  destruct (chunk_bound i Hi) as [Hlo Ht]. pose proof powers_le as Hle.
  pose proof (round_regular) as HP.
  unfold split_at_chunk_mut. rewrite Es', Cp, Cpg.
  assert (split_groth16 E (pc i) co (N.of_nat m) total (2 ^ size) (2 ^ size) (2 ^ size) = Ok r) as ->.
  { pose proof (split_mut_ok P HP co m Hm) as Hsp. unfold split_mut in Hsp. rewrite Fs', Fg, Fo in Hsp.
    unfold r. rewrite <-Hsp. unfold split_groth16. by rewrite Eh, (reg_hash _ _ HP). }
  cbn [bind_outcome]. rewrite !buffer_size_width.
  assert (∀ (w x : nat), (N.of_nat w < 2 ^ 12)%N → ∀ a, buffer_to_chunk (pc i)
      (MkRange a (N.of_nat (N.to_nat (2 ^ size) * w))) (N.of_nat w) true =
    Ok (if (other_chunk_size (pc i) =? 0)%N then empty_range else piece a lo k w)) as Hother.
  { intros w _ Hw a. destruct (N.eqb_spec (other_chunk_size (pc i)) 0) as [Hz|Hz].
    - unfold buffer_to_chunk. by rewrite Hz.
    - apply buffer_to_chunk_ok; try done; [subst lo k; lia | bounds_lia | intros _; subst k; split_and!; [done | lia | lia]]. }
  pose proof (rb_g1 _ _ _ _ _ _ Hr co) as W1. pose proof (rb_g2 _ _ _ _ _ _ Hr co) as W2.
  assert (N.of_nat (width (G1Affine E) co) < 2 ^ 12)%N as W1' by (unfold width; lia).
  assert (N.of_nat (width (G2Affine E) co) < 2 ^ 12)%N as W2' by (unfold width; lia).
  subst r. unfold ranges, n_tau_g1, n_tau_g2, n_alpha, n_beta in *. rewrite Fs', Fg, Fo in *.
  cbn [sb_tau_g1 sb_tau_g2 sb_alpha_g1 sb_beta_g1 sb_beta_g2].
  rewrite (buffer_to_chunk_ok i 64 _ _ (N.to_nat (g1_chunk_size (pc i))) false); try done;
    [|subst lo; lia | bounds_lia | intros _; lia].
  cbn [bind_outcome]. rewrite !Hother by done. done.
Qed.

Lemma split_at_chunk_marlin i co (m : nat) :
  i < n → ps = Marlin → accumulator_length (E := E) P co ≤ m →
  let r := ranges (E := E) P co in
  let lo := N.to_nat (N.of_nat i * chunk_size) in
  ∃ a b, split_at_chunk_mut E (pc i) co (N.of_nat m) = Ok (MkSplitBuf
    (piece 64 lo (N.to_nat (g1_chunk_size (pc i))) (width (G1Affine E) co))
    (if (i =? 0)%nat then sb_tau_g2 r else MkRange a 0) (if (i =? 0)%nat then sb_alpha_g1 r else MkRange b 0)
    empty_range empty_range).
Proof.
  intros Hi Hs Hm r lo. destruct (chunk_fields i) as (_ & Ei & Ec & Es & Ez & Eh).
  destruct round_fields as (Fs & Fi & Fz & Fg & _). pose proof (chunk_ok i Hi) as [_ Cg _ Cp _].
  pose proof (eq_trans Es Hs) as Es'. pose proof (eq_trans Fs Hs) as Fs'.
  destruct (chunk_bound i Hi) as [Hlo Ht]. pose proof (round_regular) as HP.
  assert (total = 2 ^ size)%N as Htot by (unfold total_size; by rewrite Hs).
  pose proof (rb_g1 _ _ _ _ _ _ Hr co) as W1. pose proof (rb_g2 _ _ _ _ _ _ Hr co) as W2.
  assert (N.of_nat (width (G1Affine E) co) < 2 ^ 12)%N as W1' by (unfold width; lia).
  pose proof (split_mut_ok P HP co m Hm) as Hsp. unfold split_mut in Hsp. rewrite Fs', Fg in Hsp.
  unfold split_at_chunk_mut. rewrite Es', Cp, <-Htot.
  assert (buffer_to_chunk (pc i) (MkRange 64 (N.of_nat (N.to_nat total * width (G1Affine E) co)))
    (buffer_size (G1Affine E) co) false =
    Ok (piece 64 lo (N.to_nat (g1_chunk_size (pc i))) (width (G1Affine E) co))) as Htau.
  { rewrite buffer_size_width. apply buffer_to_chunk_ok; try done; [subst lo; lia | bounds_lia | intros _; lia]. }
  destruct (Nat.eqb_spec i 0) as [Hz|Hz].
  - exists 0%N, 0%N. assert (split_marlin E (pc i) co (N.of_nat m) total = Ok r) as ->.
    { unfold r. rewrite <-Hsp. unfold split_marlin. rewrite Eh, (reg_hash _ _ HP), Ei, Fi, Ez, Fz. by rewrite Hz. }
    cbn [bind_outcome]. unfold r, ranges. rewrite Fs'. cbn [sb_tau_g1 sb_tau_g2 sb_alpha_g1].
    unfold n_tau_g1. rewrite Fg, Htau. done.
  - unfold split_marlin. rewrite Ei, (proj2 (N.eqb_neq _ 0)), Eh by lia.
    unfold accumulator_length, n_tau_g1 in Hm. rewrite Fg in Hm.
    rewrite (section_size_g1 P HP), !(section_size_g2 P HP), !(section_size_g1 P HP) by bounds_lia.
    repeat (rewrite split_at_ok by lia; cbn [bind_outcome fst snd sb_tau_g1 sb_tau_g2 sb_alpha_g1]).
    rewrite N.add_0_l, Htau. cbn [bind_outcome]. by do 2 eexists.
Qed.

(** A piece of a section, in the buffer. *)
Lemma within_piece {A} (m : on bytes A) r (lo len w k : nat) (buffer : bytes) :
  r_len r = N.of_nat (k * w) → lo + len ≤ k → N.to_nat (r_start r) + k * w ≤ length buffer →
  within (piece (r_start r) lo len w) m buffer =
  within r (slice_mut (N.of_nat (lo * w)) (N.of_nat ((lo + len) * w)) m) buffer.
Proof.
  destruct r as [a l]. cbn [r_start r_len]. intros -> Hk Hb. unfold piece. apply within_sub_range; [nia | done].
Qed.
Lemma range_in_buffer co x : fits (E := E) P co x →
  let r := ranges (E := E) P co in
  N.to_nat (r_start (sb_tau_g1 r)) + n_tau_g1 P * width (G1Affine E) co ≤ length (join x) ∧
  N.to_nat (r_start (sb_tau_g2 r)) + n_tau_g2 P * width (G2Affine E) co ≤ length (join x) ∧
  N.to_nat (r_start (sb_alpha_g1 r)) + n_alpha P * width (G1Affine E) co ≤ length (join x) ∧
  N.to_nat (r_start (sb_beta_g1 r)) + n_beta P * width (G1Affine E) co ≤ length (join x).
Proof.
  intros Hf r. rewrite (join_length P co x Hf). unfold accumulator_length. subst r. unfold ranges.
  destruct (p1_proving_system P) eqn:Hs; cbn [sb_tau_g1 sb_tau_g2 sb_alpha_g1 sb_beta_g1 r_start empty_range];
    [lia|]. unfold n_beta. rewrite Hs. lia.
Qed.
End round.

(** ** The aggregated accumulator *)

Definition glue {E : PairingEngine} (accs : list (Accumulator E)) : Accumulator E :=
  MkAccumulator (concat (tau_powers_g1 <$> accs)) (concat (tau_powers_g2 <$> accs))
    (concat (alpha_tau_powers_g1 <$> accs)) (concat (beta_tau_powers_g1 <$> accs))
    (default prime_subgroup_generator (beta_g2 <$> head accs)).

Section aggregation.
Context {E : PairingEngine} `{!EngineLaws E}.
Context (ps : ProvingSystem) (size chunk_size batch : N) (accs : list (Accumulator E)).
Notation n := (length accs).
Context (Hr : round_bounds E ps size chunk_size batch n).
Notation P := (round_parameters E ps size batch).
Notation pc i := (chunk_parameters E ps size chunk_size batch (N.of_nat i)).
Notation total := (total_size ps size).
Notation w1 := (width (G1Affine E)).
Notation w2 := (width (G2Affine E)).

(** Every accumulator has the lengths of its chunk. *)
Definition chunk_lengths (i : nat) (acc : Accumulator E) : Prop :=
  length (tau_powers_g1 acc) = n_tau_g1 (pc i) ∧ length (tau_powers_g2 acc) = n_tau_g2 (pc i) ∧
  length (alpha_tau_powers_g1 acc) = n_alpha (pc i) ∧ length (beta_tau_powers_g1 acc) = n_beta (pc i).
Context (Hlens : ∀ i acc, accs !! i = Some acc → chunk_lengths i acc).
Context (Hgroup : Forall in_group accs).

Lemma chunk_offset i : i < n → N.min (N.of_nat i * chunk_size) total = (N.of_nat i * chunk_size)%N.
Proof. intros Hi. destruct (chunk_bound _ _ _ _ _ Hr i Hi). lia. Qed.
Lemma tiled_tau_g1 : tiled chunk_size total (tau_powers_g1 <$> accs).
Proof.
  intros i l Hl. rewrite list_lookup_fmap in Hl. apply fmap_Some in Hl as (acc & Ha & ->).
  pose proof (lookup_lt_Some _ _ _ Ha) as Hi. destruct (Hlens i acc Ha) as (-> & _).
  unfold n_tau_g1. rewrite (cf_g1 _ _ _ _ _ (chunk_ok _ _ _ _ _ Hr i Hi)), (chunk_offset i Hi). lia.
Qed.
(** The sections that are as long as [powers_length] allows. *)
Lemma tiled_other {A} (f : Accumulator E → list A) :
  ps = Groth16 → (∀ i acc, accs !! i = Some acc → length (f acc) = N.to_nat (other_chunk_size (pc i))) →
  tiled chunk_size (2 ^ size) (f <$> accs).
Proof.
  intros Hs Hf i l Hl. rewrite list_lookup_fmap in Hl. apply fmap_Some in Hl as (acc & Ha & ->).
  pose proof (lookup_lt_Some _ _ _ Ha) as Hi. rewrite (Hf i acc Ha).
  destruct (chunk_fields (E := E) ps size chunk_size batch i) as (_ & _ & _ & Es & _).
  rewrite (cf_other _ _ _ _ _ (chunk_ok _ _ _ _ _ Hr i Hi) (eq_trans Es Hs)). lia.
Qed.
Lemma groth16_lengths i acc :
  ps = Groth16 → accs !! i = Some acc →
  length (tau_powers_g2 acc) = N.to_nat (other_chunk_size (pc i)) ∧
  length (alpha_tau_powers_g1 acc) = N.to_nat (other_chunk_size (pc i)) ∧
  length (beta_tau_powers_g1 acc) = N.to_nat (other_chunk_size (pc i)).
Proof.
  intros Hs Ha. destruct (Hlens i acc Ha) as (_ & L2 & L3 & L4).
  destruct (chunk_fields (E := E) ps size chunk_size batch i) as (_ & _ & _ & Es & _).
  pose proof (eq_trans Es Hs) as Es'. unfold n_tau_g2, n_alpha, n_beta in *. by rewrite Es' in L2, L3, L4.
Qed.
Lemma marlin_lengths i acc :
  ps = Marlin → accs !! i = Some acc →
  length (tau_powers_g2 acc) = (if (i =? 0)%nat then N.to_nat size + 2 else 0) ∧
  length (alpha_tau_powers_g1 acc) = (if (i =? 0)%nat then 3 + 3 * N.to_nat size else 0) ∧
  length (beta_tau_powers_g1 acc) = 0.
Proof.
  intros Hs Ha. destruct (Hlens i acc Ha) as (_ & L2 & L3 & L4).
  destruct (chunk_fields (E := E) ps size chunk_size batch i) as (_ & Ei & _ & Es & Ez & _).
  pose proof (eq_trans Es Hs) as Es'. unfold n_tau_g2, n_alpha, n_beta in *. rewrite Es' in L2, L3, L4.
  rewrite Ei, Ez in L2, L3. destruct i; [done|]. by rewrite (proj2 (N.eqb_neq _ 0)) in L2, L3 by lia.
Qed.

(** The lengths of the round. *)
Lemma concat_all_empty {A} (ls : list (list A)) : Forall (λ l, l = []) ls → concat ls = [].
Proof. induction 1 as [|l ls -> _ IH]; [done | exact IH]. Qed.
Lemma first_only {A} (f : Accumulator E → list A) (k : nat) :
  (∀ i acc, accs !! i = Some acc → length (f acc) = if (i =? 0)%nat then k else 0) →
  length (concat (f <$> accs)) = k ∧ (∀ acc, accs !! 0 = Some acc → concat (f <$> accs) = f acc).
Proof.
  intros Hf. destruct accs as [|a l] eqn:Ea.
  { exfalso. destruct Hr. simpl in *. unfold total_size in *. destruct ps; lia. }
  assert (concat (f <$> l) = []) as Hl.
  { apply concat_all_empty, Forall_fmap, Forall_lookup. intros i b Hb.
    apply nil_length_inv. exact (Hf (S i) b Hb). }
  rewrite fmap_cons, concat_cons, Hl, app_nil_r. split; [exact (Hf 0 a eq_refl)|]. by intros acc [= ->].
Qed.
Lemma glue_lengths :
  length (tau_powers_g1 (glue accs)) = n_tau_g1 P ∧ length (tau_powers_g2 (glue accs)) = n_tau_g2 P ∧
  length (alpha_tau_powers_g1 (glue accs)) = n_alpha P ∧ length (beta_tau_powers_g1 (glue accs)) = n_beta P.
Proof.
  destruct (round_fields _ _ _ _ _ Hr) as (Fs & Fi & Fz & Fg & Fo).
  cbn [glue tau_powers_g1 tau_powers_g2 alpha_tau_powers_g1 beta_tau_powers_g1].
  assert (total ≤ N.of_nat (length (tau_powers_g1 <$> accs)) * chunk_size)%N as Hn
    by (rewrite length_fmap; apply Hr).
  pose proof (tiled_length _ _ _ tiled_tau_g1 Hn) as L1. split; [unfold n_tau_g1; lia|].
  pose proof (powers_le _ _ _ _ _ Hr) as Hp. unfold n_tau_g2, n_alpha, n_beta.
  destruct (p1_proving_system P) eqn:Hs.
  - rewrite Fo by done. assert (ps = Groth16) as Hps by congruence.
    assert (∀ A (f : Accumulator E → list A),
      (∀ i acc, accs !! i = Some acc → length (f acc) = N.to_nat (other_chunk_size (pc i))) →
      length (concat (f <$> accs)) = N.to_nat (2 ^ size)) as Hall.
    { intros A f Hf. pose proof (tiled_length chunk_size (2 ^ size) (f <$> accs) (tiled_other f Hps Hf)) as H.
      rewrite length_fmap in H. rewrite length_fmap in Hn. lia. }
    split_and!; apply Hall; intros i acc Ha; by destruct (groth16_lengths i acc Hps Ha) as (? & ? & ?).
  - assert (ps = Marlin) as Hps by congruence. rewrite Fi, Fz. cbn [N.eqb].
    split_and!; (apply first_only; intros i acc Ha; destruct (marlin_lengths i acc Hps Ha) as (L2 & L3 & L4); try done).
    by destruct (i =? 0)%nat.
Qed.
Lemma concat_in_group {C : AffineCurve (Fr E)} `{!CurveLaws C} (f : Accumulator E → list C) :
  (∀ acc, in_group acc → Forall in_subgroup (f acc)) → Forall in_subgroup (concat (f <$> accs)).
Proof.
  intros Hf. clear Hr Hlens. induction Hgroup as [|a l Ha Hl IH]; [constructor|]. rewrite fmap_cons, concat_cons.
  apply Forall_app_2; [by apply Hf | by apply IH].
Qed.
Lemma glue_in_group : in_group (glue accs).
Proof.
  split_and!; try (apply concat_in_group; by intros acc (? & ? & ? & ? & ?)).
  cbn. destruct Hgroup as [|a l Ha]; [apply generator_in_subgroup | apply Ha].
Qed.

(** ** One chunk *)

Context (co : UseCompression).
Notation T := (glue accs).
(** Where chunk [i] starts in a section of [m] elements. *)
Notation off m i := (N.to_nat (N.min (N.of_nat i * chunk_size) m)).

(** The piece of a section that chunk [i] fills. *)
Lemma copy_chunk {C : AffineCurve (Fr E)} `{!CurveLaws C} ci (data out : bytes) (f : Accumulator E → list C)
    (m : N) i acc :
  tiled chunk_size m (f <$> accs) → (m ≤ N.of_nat n * chunk_size)%N → accs !! i = Some acc →
  decodes ci CheckNo data (f acc) → written co (concat (f <$> accs)) (off m i) out →
  ∃ out', slice_mut (N.of_nat (off m i * width C co)) (N.of_nat ((off m i + length (f acc)) * width C co))
      (copy_section E (C := C) data ci co) out = (Ok tt, out') ∧
    written co (concat (f <$> accs)) (off m (S i)) out' ∧ length out' = length out.
Proof.
  intros Ht Hm Ha Hd Hw. assert ((f <$> accs) !! i = Some (f acc)) as Hl by (by rewrite list_lookup_fmap, Ha).
  pose proof (tiled_end chunk_size m _ i _ Ht Hl) as He.
  rewrite <-He. apply copy_piece; [exact Hd | exact (tiled_piece chunk_size m _ i _ Ht Hl) | | exact Hw].
  rewrite He. pose proof (tiled_length chunk_size m _ Ht) as H. rewrite length_fmap in H.
  specialize (H Hm). lia.
Qed.

Record aggregated (x0 : Parts) (k : nat) (x : Parts) : Prop := {
  ag_fits : fits (E := E) P co x;
  ag_hash : pt_hash x = pt_hash x0;
  ag_rest : pt_rest x = pt_rest x0;
  ag_tau_g1 : written co (tau_powers_g1 T) (off total k) (pt_tau_g1 x);
  ag_groth16 : ps = Groth16 →
    written co (tau_powers_g2 T) (off (2 ^ size)%N k) (pt_tau_g2 x) ∧
    written co (alpha_tau_powers_g1 T) (off (2 ^ size)%N k) (pt_alpha_g1 x) ∧
    written co (beta_tau_powers_g1 T) (off (2 ^ size)%N k) (pt_beta_g1 x) ∧
    (0 < k → pt_beta_g2 x = serialize co (beta_g2 T));
  ag_marlin : ps = Marlin → 0 < k →
    pt_tau_g2 x = encode co (tau_powers_g2 T) ∧ pt_alpha_g1 x = encode co (alpha_tau_powers_g1 T);
}.

Lemma all_chunks m : (m ≤ total)%N → (m ≤ N.of_nat n * chunk_size)%N.
Proof. pose proof (rb_all _ _ _ _ _ _ Hr). lia. Qed.

(** Chunk [i] copied to its place in the section [r] of the buffer. *)
Lemma chunk_section {C : AffineCurve (Fr E)} `{!CurveLaws C} (f : Accumulator E → list C) (m : N)
    (r : range) (section : bytes) (put : bytes → bytes) ci data i acc buffer :
  tiled chunk_size m (f <$> accs) → (m ≤ N.of_nat n * chunk_size)%N → (N.of_nat i * chunk_size ≤ m)%N →
  accs !! i = Some acc → decodes ci CheckNo data (f acc) →
  written co (concat (f <$> accs)) (off m i) section →
  r_len r = N.of_nat (N.to_nat m * width C co) → N.to_nat (r_start r) + N.to_nat m * width C co ≤ length buffer →
  (∀ (c : on bytes unit) o d, c section = (o, d) → length d = length section → within r c buffer = (o, put d)) →
  ∃ d, within (piece (r_start r) (N.to_nat (N.of_nat i * chunk_size)) (length (f acc)) (width C co))
      (copy_section E (C := C) data ci co) buffer = (Ok tt, put d) ∧
    written co (concat (f <$> accs)) (off m (S i)) d ∧ length d = length section.
Proof.
  intros Ht Hm Hi Ha Hd Hw Hrl Hrb Hput.
  assert ((f <$> accs) !! i = Some (f acc)) as Hl by (by rewrite list_lookup_fmap, Ha).
  pose proof (tiled_end chunk_size m _ i _ Ht Hl) as He.
  destruct (copy_chunk ci data section f m i acc Ht Hm Ha Hd Hw) as (d & Hrun & Hd' & Hlen).
  exists d. split; [|done]. rewrite N.min_l in Hrun, He by done.
  rewrite (within_piece _ r _ _ _ (N.to_nat m)); [by apply Hput | done | lia | done].
Qed.

Lemma tau_g1_chunk i acc ci xi x :
  accs !! i = Some acc → holds (pc i) ci CheckNo xi acc → fits (E := E) P co x →
  written co (tau_powers_g1 T) (off total i) (pt_tau_g1 x) →
  ∃ d, within (piece 64 (N.to_nat (N.of_nat i * chunk_size)) (N.to_nat (g1_chunk_size (pc i))) (w1 co))
      (copy_section E (C := G1Affine E) (pt_tau_g1 xi) ci co) (join x) = (Ok tt, join (set_tau_g1 d x)) ∧
    written co (tau_powers_g1 T) (off total (S i)) d ∧ length d = length (pt_tau_g1 x).
Proof.
  intros Ha Hi Hf Hw. pose proof (lookup_lt_Some _ _ _ Ha) as Hlt.
  destruct (Hlens i acc Ha) as (L & _). unfold n_tau_g1 in L. rewrite <-L.
  destruct (range_in_buffer _ _ _ co x Hf) as (R & _).
  destruct (round_fields _ _ _ _ _ Hr) as (_ & _ & _ & Fg & _). unfold n_tau_g1 in R. rewrite Fg in R.
  apply (chunk_section tau_powers_g1 total (sb_tau_g1 (ranges (E := E) P co)) _
    (λ d, join (set_tau_g1 d x))); try done.
  - apply tiled_tau_g1.
  - by apply all_chunks.
  - destruct (chunk_bound _ _ _ _ _ Hr i Hlt). lia.
  - apply Hi.
  - cbn [ranges sb_tau_g1 r_len]. unfold n_tau_g1. by rewrite Fg.
  - intros c o d Hc _. by apply within_tau_g1.
Qed.

(** The three other sections of Groth16, where the chunk has elements in them. *)
Lemma others_chunk i acc ci xi x :
  ps = Groth16 → (N.of_nat i * chunk_size < 2 ^ size)%N →
  accs !! i = Some acc → holds (pc i) ci CheckNo xi acc → fits (E := E) P co x →
  let m := (2 ^ size)%N in
  let lo := N.to_nat (N.of_nat i * chunk_size) in
  let k := N.to_nat (other_chunk_size (pc i)) in
  let r := ranges (E := E) P co in
  written co (tau_powers_g2 T) (off m i) (pt_tau_g2 x) →
  written co (alpha_tau_powers_g1 T) (off m i) (pt_alpha_g1 x) →
  written co (beta_tau_powers_g1 T) (off m i) (pt_beta_g1 x) →
  ∃ d2 d3 d4,
    let x2 := set_tau_g2 d2 x in let x3 := set_alpha_g1 d3 x2 in let x4 := set_beta_g1 d4 x3 in
    within (piece (r_start (sb_tau_g2 r)) lo k (w2 co))
      (copy_section E (C := G2Affine E) (pt_tau_g2 xi) ci co) (join x) = (Ok tt, join x2) ∧
    within (piece (r_start (sb_alpha_g1 r)) lo k (w1 co))
      (copy_section E (C := G1Affine E) (pt_alpha_g1 xi) ci co) (join x2) = (Ok tt, join x3) ∧
    within (piece (r_start (sb_beta_g1 r)) lo k (w1 co))
      (copy_section E (C := G1Affine E) (pt_beta_g1 xi) ci co) (join x3) = (Ok tt, join x4) ∧
    written co (tau_powers_g2 T) (off m (S i)) d2 ∧ written co (alpha_tau_powers_g1 T) (off m (S i)) d3 ∧
    written co (beta_tau_powers_g1 T) (off m (S i)) d4 ∧ fits (E := E) P co x4.
Proof.
  intros Hs Hlt Ha Hi Hf m lo k r W2 W3 W4.
  destruct (round_fields _ _ _ _ _ Hr) as (Fs & _ & _ & _ & Fo). specialize (Fo (eq_trans Fs Hs)).
  assert (n_tau_g2 P = N.to_nat m ∧ n_alpha P = N.to_nat m ∧ n_beta P = N.to_nat m) as (N2 & N3 & N4).
  { unfold n_tau_g2, n_alpha, n_beta. by rewrite (eq_trans Fs Hs), Fo. }
  assert (r_len (sb_tau_g2 r) = N.of_nat (N.to_nat m * w2 co) ∧ r_len (sb_alpha_g1 r) = N.of_nat (N.to_nat m * w1 co) ∧
    r_len (sb_beta_g1 r) = N.of_nat (N.to_nat m * w1 co)) as (E2 & E3 & E4).
  { subst r. unfold ranges. rewrite (eq_trans Fs Hs), N2, N3, N4. done. }
  pose proof (all_chunks m (powers_le _ _ _ _ _ Hr)) as Hall. assert (N.of_nat i * chunk_size ≤ m)%N as Hle by (subst m; lia).
  assert (∀ A (f : Accumulator E → list A),
    (∀ i acc, accs !! i = Some acc → length (f acc) = N.to_nat (other_chunk_size (pc i))) →
    tiled chunk_size m (f <$> accs)) as Htiled by (intros A f Hl; by apply tiled_other).
  destruct (groth16_lengths i acc Hs Ha) as (L2 & L3 & L4).
  assert (∀ y, fits (E := E) P co y → N.to_nat (r_start (sb_tau_g2 r)) + N.to_nat m * w2 co ≤ length (join y) ∧
    N.to_nat (r_start (sb_alpha_g1 r)) + N.to_nat m * w1 co ≤ length (join y) ∧
    N.to_nat (r_start (sb_beta_g1 r)) + N.to_nat m * w1 co ≤ length (join y)) as Hin.
  { intros y Hy. destruct (range_in_buffer _ _ _ co y Hy) as (_ & B2 & B3 & B4).
    rewrite N2 in B2. rewrite N3 in B3. rewrite N4 in B4. done. }
  destruct (chunk_section tau_powers_g2 m (sb_tau_g2 r) (pt_tau_g2 x) (λ d, join (set_tau_g2 d x)) ci (pt_tau_g2 xi) i acc (join x))
    as (d2 & R2 & D2 & Z2); try done.
  { apply Htiled. intros j a Hj. apply (groth16_lengths j a Hs Hj). } { apply Hi. } { by apply Hin. }
  { intros c o d Hc _. by apply within_tau_g2. }
  pose proof (fits_tau_g2 P co x d2 Hf Z2) as Hf2. set (x2 := set_tau_g2 d2 x) in *.
  destruct (chunk_section alpha_tau_powers_g1 m (sb_alpha_g1 r) (pt_alpha_g1 x2) (λ d, join (set_alpha_g1 d x2)) ci (pt_alpha_g1 xi)
    i acc (join x2)) as (d3 & R3 & D3 & Z3); try done.
  { apply Htiled. intros j a Hj. apply (groth16_lengths j a Hs Hj). } { apply Hi. } { by apply Hin. }
  { intros c o d Hc _. by apply within_alpha. }
  pose proof (fits_alpha P co x2 d3 Hf2 Z3) as Hf3. set (x3 := set_alpha_g1 d3 x2) in *.
  destruct (chunk_section beta_tau_powers_g1 m (sb_beta_g1 r) (pt_beta_g1 x3) (λ d, join (set_beta_g1 d x3)) ci (pt_beta_g1 xi)
    i acc (join x3)) as (d4 & R4 & D4 & Z4); try done.
  { apply Htiled. intros j a Hj. apply (groth16_lengths j a Hs Hj). } { apply Hi. } { by apply Hin. }
  { intros c o d Hc Hd. by apply within_beta. }
  exists d2, d3, d4. rewrite L2 in R2. rewrite L3 in R3. rewrite L4 in R4. split_and!; try done.
  by apply fits_beta.
Qed.

Lemma into_chunk i :
  into_chunk_parameters (pc 0) (p1_contribution_mode (pc 0)) (N.of_nat i) (p1_chunk_size (pc 0)) = pc i.
Proof.
  destruct (chunk_fields (E := E) ps size chunk_size batch 0) as (Em & _ & Ec & Es & Ez & _).
  unfold into_chunk_parameters. rewrite Em, Ec, Es, Ez. unfold chunk_parameters at 1 2, new_parameters at 2 3.
  by destruct (chunk_sizes _ _ _ _ _).
Qed.
Lemma chunk_start i : i < n → usize_mul (N.of_nat i) chunk_size = (N.of_nat i * chunk_size)%N.
Proof. intros Hi. destruct (chunk_bound _ _ _ _ _ Hr i Hi). apply u64_mul_exact. bounds_lia. Qed.
Lemma glue_beta_g2 acc : accs !! 0 = Some acc → beta_g2 T = beta_g2 acc.
Proof. destruct accs as [|a l]; [done|]. by intros [= ->]. Qed.

(** The element under beta in G2, copied by the first chunk. *)
Lemma beta_g2_chunk acc ci xi x :
  ps = Groth16 → accs !! 0 = Some acc → holds (pc 0) ci CheckNo xi acc → fits (E := E) P co x →
  (let! element := lift (expect' (read_element (C := G2Affine E) ci CheckNo (pt_beta_g2 xi))) in
   expect (within (sb_beta_g2 (ranges (E := E) P co)) (write_element element co))) (join x) =
    (Ok tt, join (set_beta_g2 (serialize co (beta_g2 T)) x)) ∧
  fits (E := E) P co (set_beta_g2 (serialize co (beta_g2 T)) x).
Proof.
  intros Hs Ha Hi Hf. rewrite (glue_beta_g2 acc Ha).
  destruct (round_fields _ _ _ _ _ Hr) as (Fs & _). destruct (chunk_fields (E := E) ps size chunk_size batch 0) as (_ & _ & _ & Es & _).
  pose proof (hold_beta_g2 _ _ _ _ _ Hi) as Hb. pose proof (fit_beta_g2 _ _ _ (hold_fits _ _ _ _ _ Hi)) as Lb.
  pose proof (fit_beta_g2 _ _ _ Hf) as Lo. unfold n_beta_g2 in Lb, Lo. change (N.of_nat 0) with 0%N in *.
  rewrite (eq_trans Es Hs) in Hb, Lb. rewrite (eq_trans Fs Hs) in Lo. rewrite Nat.mul_1_l in Lb, Lo.
  apply decodes_single in Hb; [|done]. pose proof (write_exact co (beta_g2 acc) _ Lo) as Hw.
  assert (length (serialize co (beta_g2 acc)) = length (pt_beta_g2 x)) as Ll by (by rewrite serialize_width).
  split; [|by apply fits_beta_g2]. unfold bind, lift. rewrite Hb. cbn [expect'].
  by apply expect_ok, within_beta_g2.
Qed.

(** The same, with the test that decides whether there are any. *)
Lemma others_copied i acc ci xi x :
  ps = Groth16 → accs !! i = Some acc → holds (pc i) ci CheckNo xi acc → fits (E := E) P co x →
  let m := (2 ^ size)%N in
  let r := ranges (E := E) P co in
  let other r w := if (other_chunk_size (pc i) =? 0)%N then empty_range
    else piece (r_start r) (N.to_nat (N.of_nat i * chunk_size)) (N.to_nat (other_chunk_size (pc i))) w in
  written co (tau_powers_g2 T) (off m i) (pt_tau_g2 x) →
  written co (alpha_tau_powers_g1 T) (off m i) (pt_alpha_g1 x) →
  written co (beta_tau_powers_g1 T) (off m i) (pt_beta_g1 x) →
  ∃ x', (if (N.of_nat i * chunk_size <? m)%N then
      within (other (sb_tau_g2 r) (w2 co)) (copy_section E (C := G2Affine E) (pt_tau_g2 xi) ci co) ;;;
      within (other (sb_alpha_g1 r) (w1 co)) (copy_section E (C := G1Affine E) (pt_alpha_g1 xi) ci co) ;;;
      within (other (sb_beta_g1 r) (w1 co)) (copy_section E (C := G1Affine E) (pt_beta_g1 xi) ci co)
    else ret tt) (join x) = (Ok tt, join x') ∧
    fits (E := E) P co x' ∧ pt_hash x' = pt_hash x ∧ pt_rest x' = pt_rest x ∧ pt_tau_g1 x' = pt_tau_g1 x ∧
    pt_beta_g2 x' = pt_beta_g2 x ∧
    written co (tau_powers_g2 T) (off m (S i)) (pt_tau_g2 x') ∧
    written co (alpha_tau_powers_g1 T) (off m (S i)) (pt_alpha_g1 x') ∧
    written co (beta_tau_powers_g1 T) (off m (S i)) (pt_beta_g1 x').
Proof.
  intros Hs Ha Hi Hf m r other W2 W3 W4. pose proof (lookup_lt_Some _ _ _ Ha) as Hlt.
  destruct (chunk_fields (E := E) ps size chunk_size batch i) as (_ & _ & _ & Es & _).
  pose proof (cf_other _ _ _ _ _ (chunk_ok _ _ _ _ _ Hr i Hlt) (eq_trans Es Hs)) as Co.
  destruct (N.ltb_spec (N.of_nat i * chunk_size) m) as [Hin|Hout].
  - destruct (others_chunk i acc ci xi x Hs Hin Ha Hi Hf W2 W3 W4)
      as (d2 & d3 & d4 & R2 & R3 & R4 & D2 & D3 & D4 & Hf4).
    eexists. split; [|split; [exact Hf4|by split_and!]].
    subst other r. cbv beta. rewrite (proj2 (N.eqb_neq _ 0)) by (pose proof (rb_chunk _ _ _ _ _ _ Hr); lia).
    unfold bind at 1. rewrite R2. unfold bind at 1. rewrite R3. exact R4.
  - exists x. rewrite (N.min_r _ m) in W2, W3, W4 by done. rewrite (N.min_r _ m) by lia. by split_and!.
Qed.

Lemma aggregate_groth16_chunk x0 i acc ci xi x :
  ps = Groth16 → accs !! i = Some acc → holds (pc i) ci CheckNo xi acc → aggregated x0 i x →
  ∃ x', aggregate_chunk E (pc 0) co (N.of_nat i) (join xi) ci (join x) = (Ok tt, join x') ∧
    aggregated x0 (S i) x'.
Proof.
  intros Hs Ha Hi [Hf Hh Hrest W1 Hg _]. destruct (Hg Hs) as (W2 & W3 & W4 & Hb).
  pose proof (lookup_lt_Some _ _ _ Ha) as Hlt. pose proof (hold_fits _ _ _ _ _ Hi) as Hfi.
  destruct (chunk_fields (E := E) ps size chunk_size batch i) as (_ & _ & Ec & Es & _).
  destruct (chunk_fields (E := E) ps size chunk_size batch 0) as (_ & _ & _ & Es0 & _).
  pose proof (chunk_ok _ _ _ _ _ Hr i Hlt) as [_ _ Co Cp _]. specialize (Co (eq_trans Es Hs)).
  pose proof (split_at_chunk_groth16 _ _ _ _ _ Hr i co (length (join x)) Hlt Hs) as Hsplit.
  rewrite (join_length P co x Hf) in Hsplit at 1. specialize (Hsplit ltac:(lia)). cbv zeta in Hsplit.
  unfold aggregate_chunk. cbv zeta. rewrite into_chunk. unfold bind at 1, lift at 1.
  rewrite (split_join (pc i) (chunk_regular _ _ _ _ _ Hr i Hlt) ci xi Hfi). unfold bind at 1, lift at 1.
  unfold len. rewrite Hsplit, (eq_trans Es0 Hs). unfold aggregate_groth16. cbn [sb_tau_g1 sb_tau_g2 sb_alpha_g1 sb_beta_g1 sb_beta_g2].
  rewrite (view_tau_g1 (pc i) ci xi Hfi), (view_tau_g2 (pc i) ci xi Hfi), (view_alpha (pc i) ci xi Hfi),
    (view_beta (pc i) ci xi Hfi), (view_beta_g2 (pc i) ci xi Hfi), Ec, Cp, (chunk_start i Hlt).
  destruct (tau_g1_chunk i acc ci xi x Ha Hi Hf W1) as (d1 & R1 & D1 & Z1).
  unfold bind at 1. rewrite R1. pose proof (fits_tau_g1 P co x d1 Hf Z1) as Hf1.
  destruct (others_copied i acc ci xi (set_tau_g1 d1 x) Hs Ha Hi Hf1 W2 W3 W4)
    as (x1 & R2 & Hf2 & A1 & A2 & A3 & A4 & A5 & A6 & A7).
  unfold bind at 1. rewrite R2. clear R1 R2 Hsplit. destruct i as [|i].
  - change (N.of_nat 0 =? 0)%N with true. cbv iota. destruct (beta_g2_chunk acc ci xi x1 Hs Ha Hi Hf2) as [Rb Hfb].
    rewrite Rb. eexists. split; [done|]. split; try done.
    + exact (eq_trans A1 Hh).
    + exact (eq_trans A2 Hrest).
    + cbn [set_beta_g2 pt_tau_g1]. by rewrite A3.
    + by rewrite Hs.
  - rewrite (proj2 (N.eqb_neq _ 0)) by lia. eexists. split; [done|]. split; try done.
    + exact (eq_trans A1 Hh).
    + exact (eq_trans A2 Hrest).
    + by rewrite A3.
    + intros _. split_and!; try done. intros _. rewrite A4. apply Hb. lia.
    + by rewrite Hs.
Qed.

(** In Marlin the two other sections come with the first chunk, and are empty in the rest. *)
Lemma marlin_others i acc ci xi x a b :
  ps = Marlin → accs !! i = Some acc → holds (pc i) ci CheckNo xi acc → fits (E := E) P co x →
  let r := ranges (E := E) P co in
  ∃ x', within (if (i =? 0)%nat then sb_tau_g2 r else MkRange a 0)
      (copy_section E (C := G2Affine E) (pt_tau_g2 xi) ci co) (join x) = (Ok tt, join (set_tau_g2 (pt_tau_g2 x') x)) ∧
    within (if (i =? 0)%nat then sb_alpha_g1 r else MkRange b 0)
      (copy_section E (C := G1Affine E) (pt_alpha_g1 xi) ci co) (join (set_tau_g2 (pt_tau_g2 x') x)) = (Ok tt, join x') ∧
    fits (E := E) P co x' ∧ pt_hash x' = pt_hash x ∧ pt_rest x' = pt_rest x ∧ pt_tau_g1 x' = pt_tau_g1 x ∧
    (i = 0 → pt_tau_g2 x' = encode co (tau_powers_g2 T) ∧ pt_alpha_g1 x' = encode co (alpha_tau_powers_g1 T)) ∧
    (i ≠ 0 → x' = x).
Proof.
  intros Hs Ha Hi Hf r. destruct (marlin_lengths i acc Hs Ha) as (L2 & L3 & _).
  destruct (Nat.eqb_spec i 0) as [->|Hne].
  - destruct glue_lengths as (_ & G2 & G3 & _).
    destruct (first_only tau_powers_g2 (N.to_nat size + 2)) as [_ F2].
    { intros j c Hj. apply (marlin_lengths j c Hs Hj). }
    destruct (first_only alpha_tau_powers_g1 (3 + 3 * N.to_nat size)) as [_ F3].
    { intros j c Hj. apply (marlin_lengths j c Hs Hj). }
    specialize (F2 acc Ha). specialize (F3 acc Ha).
    assert (length (pt_tau_g2 x) = length (tau_powers_g2 acc) * w2 co) as W2
      by (rewrite (fit_tau_g2 _ _ _ Hf), <-G2; cbn [glue tau_powers_g2]; by rewrite F2).
    assert (length (pt_alpha_g1 x) = length (alpha_tau_powers_g1 acc) * w1 co) as W3
      by (rewrite (fit_alpha _ _ _ Hf), <-G3; cbn [glue alpha_tau_powers_g1]; by rewrite F3).
    pose proof (copy_whole ci co _ _ _ (hold_tau_g2 _ _ _ _ _ Hi) W2) as C2.
    pose proof (copy_whole ci co _ _ _ (hold_alpha _ _ _ _ _ Hi) W3) as C3.
    set (d2 := encode co (tau_powers_g2 acc)) in *. set (d3 := encode co (alpha_tau_powers_g1 acc)) in *.
    assert (fits (E := E) P co (set_tau_g2 d2 x)) as Hf2.
    { apply fits_tau_g2; [done|]. subst d2. by rewrite encode_length. }
    exists (set_alpha_g1 d3 (set_tau_g2 d2 x)). split; [by apply within_tau_g2|]. split; [by apply within_alpha|].
    split; [apply fits_alpha; [done|]; subst d3; by rewrite encode_length|].
    split_and!; try done. intros _. cbn [set_alpha_g1 set_tau_g2 pt_alpha_g1 pt_tau_g2 glue tau_powers_g2 alpha_tau_powers_g1].
    by rewrite F2, F3.
  - assert (pt_tau_g2 xi = [] ∧ pt_alpha_g1 xi = []) as [-> ->].
    { apply nil_length_inv in L2, L3. pose proof (hold_tau_g2 _ _ _ _ _ Hi) as D2. pose proof (hold_alpha _ _ _ _ _ Hi) as D3.
      rewrite L2 in D2. rewrite L3 in D3. split; apply nil_length_inv; [by rewrite (decodes_length _ _ _ _ D2)|
        by rewrite (decodes_length _ _ _ _ D3)]. }
    assert (∀ (c : on bytes unit) k buffer, c [] = (Ok tt, []) → within (MkRange k 0) c buffer = (Ok tt, buffer)) as Hnone.
    { intros c k buffer Hc. unfold within, view. cbn [r_start r_len]. rewrite take_0, Hc, Nat.add_0_r. cbn [app].
      by rewrite take_drop. }
    exists x. assert (set_tau_g2 (pt_tau_g2 x) x = x) as -> by (by destruct x).
    rewrite !Hnone by apply copy_empty. by split_and!.
Qed.

Lemma aggregate_marlin_chunk x0 i acc ci xi x :
  ps = Marlin → accs !! i = Some acc → holds (pc i) ci CheckNo xi acc → aggregated x0 i x →
  ∃ x', aggregate_chunk E (pc 0) co (N.of_nat i) (join xi) ci (join x) = (Ok tt, join x') ∧
    aggregated x0 (S i) x'.
Proof.
  intros Hs Ha Hi [Hf Hh Hrest W1 _ Hm]. specialize (Hm Hs).
  pose proof (lookup_lt_Some _ _ _ Ha) as Hlt. pose proof (hold_fits _ _ _ _ _ Hi) as Hfi.
  destruct (chunk_fields (E := E) ps size chunk_size batch i) as (_ & _ & Ec & Es & _).
  destruct (chunk_fields (E := E) ps size chunk_size batch 0) as (_ & _ & _ & Es0 & _).
  pose proof (split_at_chunk_marlin _ _ _ _ _ Hr i co (length (join x)) Hlt Hs) as Hsplit.
  rewrite (join_length P co x Hf) in Hsplit at 1. specialize (Hsplit ltac:(lia)). cbv zeta in Hsplit.
  destruct Hsplit as (a & b & Hsplit).
  unfold aggregate_chunk. cbv zeta. rewrite into_chunk. unfold bind at 1, lift at 1.
  rewrite (split_join (pc i) (chunk_regular _ _ _ _ _ Hr i Hlt) ci xi Hfi). unfold bind at 1, lift at 1.
  unfold len. rewrite Hsplit, (eq_trans Es0 Hs). unfold aggregate_marlin. cbv zeta. cbn [sb_tau_g1 sb_tau_g2 sb_alpha_g1].
  rewrite (view_tau_g1 (pc i) ci xi Hfi), (view_tau_g2 (pc i) ci xi Hfi), (view_alpha (pc i) ci xi Hfi).
  destruct (tau_g1_chunk i acc ci xi x Ha Hi Hf W1) as (d1 & R1 & D1 & Z1).
  unfold bind at 1. rewrite R1. pose proof (fits_tau_g1 P co x d1 Hf Z1) as Hf1.
  destruct (marlin_others i acc ci xi (set_tau_g1 d1 x) a b Hs Ha Hi Hf1) as (x' & R2 & R3 & Hf' & A1 & A2 & A3 & A4 & A5).
  assert (i ≠ 0 → join (set_tau_g2 (pt_tau_g2 x') (set_tau_g1 d1 x)) = join (set_tau_g1 d1 x)) as Hsame
    by (intros Hne; by rewrite (A5 Hne)).
  destruct (chunk_fields (E := E) ps size chunk_size batch i) as (_ & _ & _ & _ & Ez & _).
  destruct (size_sums (pc i) (chunk_regular _ _ _ _ _ Hr i Hlt)) as [S2 S3]. rewrite Ez in S3.
  assert (usize_add 2 size = (2 + size)%N) as S2' by (pose proof (rb_size _ _ _ _ _ _ Hr); apply usize_add_exact; bounds_lia).
  rewrite Ez, Ec, (chunk_start i Hlt), S2', S3. clear S2 S2' S3 R1 Hsplit.
  assert (∀ (g : bool) (c : on bytes unit) s s', (g = false → s = s') → c s = (Ok tt, s') →
    (if g then c else ret tt) s = (Ok tt, s')) as Hguard by (intros [] c s s' Hg Hc; [done | by rewrite Hg]).
  exists x'. split.
  - unfold bind at 1. erewrite Hguard; [|intros Hg; symmetry; apply Hsame; intros -> | exact R2]; [|by apply N.ltb_ge in Hg; lia].
    apply Hguard; [|exact R3]. intros Hg. assert (i ≠ 0) as Hne by (intros ->; apply N.ltb_ge in Hg; lia).
    rewrite (Hsame Hne). by rewrite (A5 Hne).
  - split; [done | exact (eq_trans A1 Hh) | exact (eq_trans A2 Hrest) | by rewrite A3 | by rewrite Hs |].
    intros _ _. destruct (decide (i = 0)) as [Hz|Hne]; [by apply A4|]. rewrite (A5 Hne). apply Hm. lia.
Qed.

Lemma aggregated_start x0 : fits (E := E) P co x0 → aggregated x0 0 x0.
Proof.
  intros Hf. destruct glue_lengths as (L1 & L2 & L3 & L4).
  assert (∀ m, off m 0 = 0) as Hz by (intros m; lia). split; try done; rewrite ?Hz.
  - apply written_0. rewrite L1. apply Hf.
  - intros Hs. split_and!; try lia; apply written_0.
    + rewrite L2. apply Hf.
    + rewrite L3. apply Hf.
    + rewrite L4. apply Hf.
  - lia.
Qed.
Lemma aggregated_end x0 x :
  (ps = Marlin → beta_g2 T = prime_subgroup_generator) → aggregated x0 n x → holds P co CheckNo x T.
Proof.
  intros Hbeta [Hf _ _ W1 Hg Hm]. destruct glue_lengths as (L1 & L2 & L3 & L4).
  destruct glue_in_group as (G1 & G2 & G3 & G4 & G5).
  destruct (round_fields _ _ _ _ _ Hr) as (Fs & Fi & Fz & Fg & Fo).
  assert (0 < n) as Hn.
  { destruct Hr as [_ _ _ _ _ _ Hall]. pose proof (powers_le _ _ _ _ _ Hr). unfold total_size in *. destruct n; [|lia]. destruct ps; lia. }
  assert (off total n = n_tau_g1 P) as Ho by (unfold n_tau_g1; rewrite Fg; pose proof (all_chunks total); lia).
  rewrite Ho, <-L1 in W1. apply written_all in W1.
  unfold n_tau_g2, n_alpha, n_beta in L2, L3, L4. destruct (p1_proving_system P) eqn:Es.
  - assert (ps = Groth16) as Hps by congruence. destruct (Hg Hps) as (W2 & W3 & W4 & Hb). specialize (Fo eq_refl).
    assert (off (2 ^ size)%N n = N.to_nat (other_chunk_size P)) as Hother
      by (rewrite Fo; pose proof (all_chunks (2 ^ size) (powers_le _ _ _ _ _ Hr)); lia).
    rewrite Hother, <-L2 in W2. rewrite Hother, <-L3 in W3. rewrite Hother, <-L4 in W4.
    apply written_all in W2, W3, W4.
    split; rewrite ?Es, ?W1, ?W2, ?W3, ?W4; try done; try by apply decodes_encoded.
    rewrite (Hb Hn). pose proof (decodes_encoded (C := G2Affine E) co [beta_g2 T]) as Hd.
    cbn [encode fmap list_fmap concat] in Hd. rewrite app_nil_r in Hd. apply Hd. by repeat constructor.
  - assert (ps = Marlin) as Hps by congruence. destruct (Hm Hps Hn) as [M2 M3]. apply nil_length_inv in L4.
    pose proof (fit_beta _ _ _ Hf) as F4. unfold n_beta in F4. rewrite Es in F4. apply nil_length_inv in F4.
    split; rewrite ?Es, ?W1, ?M2, ?M3, ?L4, ?F4; try done; try by apply decodes_encoded.
    + by apply (decodes_encoded (C := G1Affine E) co []).
    + by apply Hbeta.
Qed.

End aggregation.

(** ** All chunks *)

Lemma for_each_imap {S A} (f : N * A → on S unit) (I : nat → S → Prop) (l : list A) st :
  I 0 st →
  (∀ i x st, l !! i = Some x → I i st → ∃ st', f (N.of_nat i, x) st = (Ok tt, st') ∧ I (Datatypes.S i) st') →
  ∃ st', for_each f (imap (λ i x, (N.of_nat i, x)) l) st = (Ok tt, st') ∧ I (length l) st'.
Proof.
  intros H0 Hstep. change (λ (i : nat) (x : A), (N.of_nat i, x)) with (λ (i : nat) (x : A), (N.of_nat (0 + i), x)).
  change (length l) with (0 + length l).
  assert (∀ i x st, l !! i = Some x → I (0 + i) st →
    ∃ st', f (N.of_nat (0 + i), x) st = (Ok tt, st') ∧ I (Datatypes.S (0 + i)) st') as Hstep' by exact Hstep.
  clear Hstep. revert H0 Hstep'. generalize 0 as k. revert st.
  induction l as [|x l IH]; intros st k H0 Hstep.
  { exists st. split; [done|]. by rewrite Nat.add_0_r. }
  destruct (Hstep 0 x st eq_refl) as (st1 & Hf & H1); [by rewrite Nat.add_0_r|].
  rewrite Nat.add_0_r in Hf, H1.
  destruct (IH st1 (Datatypes.S k)) as (st' & Hrun & Hend); [done | |].
  { intros i y st2 Hy Hi. destruct (Hstep (Datatypes.S i) y st2 Hy) as (st3 & Hf3 & H3).
    - by rewrite Nat.add_succ_r.
    - exists st3. by rewrite Nat.add_succ_r in Hf3, H3. }
  exists st'. split; [|simpl; by rewrite Nat.add_succ_r].
  rewrite imap_cons. cbn [for_each]. rewrite Nat.add_0_r. unfold bind. rewrite Hf. rewrite <-Hrun. f_equal.
  apply imap_ext. intros i y _. cbn. f_equal. lia.
Qed.

(** ** Contributing to the chunks *)

Section pieces.
Context {E : PairingEngine}.

(** What the contributions of one key make of the chunks. *)
Definition contributed_chunks (ps : ProvingSystem) (size chunk_size batch : N) (key : PrivateKey E)
    (accs : list (Accumulator E)) : list (Accumulator E) :=
  imap (λ i acc, contributed (chunk_parameters E ps size chunk_size batch (N.of_nat i)) key acc) accs.

(** Exponents that depend on the place only can be applied piece by piece. *)
Lemma scale_pieces {C : AffineCurve (Fr E)} (g : N → Fr E) (chunk_size total : N) (ls : list (list C)) :
  tiled chunk_size total ls →
  concat (imap (λ i l, scale l ((λ j, g (N.of_nat i * chunk_size + N.of_nat j)%N) <$> seq 0 (length l))) ls) =
  scale (concat ls) ((λ j, g (N.of_nat j)) <$> seq 0 (length (concat ls))).
Proof.
  induction ls as [|l ls IH] using rev_ind; intros Ht; [done|].
  assert (tiled chunk_size total ls) as Ht'.
  { intros i l' Hl. apply Ht. by apply lookup_app_l_Some. }
  rewrite imap_app, !concat_app, (IH Ht'). cbn [imap concat]. rewrite Nat.add_0_r, !app_nil_r.
  rewrite length_app, seq_app, fmap_app. unfold scale at 3. rewrite zip_with_app.
  2: { by rewrite length_fmap, length_seq. }
  f_equal. unfold scale. rewrite Nat.add_0_l.
  assert ((ls ++ [l]) !! length ls = Some l) as Hl by (rewrite lookup_app_r, Nat.sub_diag by done; done).
  pose proof (tiled_prefix chunk_size total _ (length ls) Ht) as Hp. rewrite length_app in Hp.
  specialize (Hp ltac:(simpl; lia)). rewrite take_app_length in Hp. specialize (Ht _ _ Hl).
  f_equal. apply list_eq. intros j. destruct (decide (j < length l)) as [Hj|Hj].
  - rewrite !list_lookup_fmap, !lookup_seq_lt by done. simpl. do 2 f_equal. lia.
  - rewrite !lookup_ge_None_2; [done | |]; rewrite length_fmap, length_seq; lia.
Qed.
End pieces.

Section contributing.
Context {E : PairingEngine} `{!EngineLaws E}.
Context (ps : ProvingSystem) (size chunk_size batch : N) (accs : list (Accumulator E)) (key : PrivateKey E).
Notation n := (length accs).
Context (Hr : round_bounds E ps size chunk_size batch n).
Context (Hlens : ∀ i acc, accs !! i = Some acc → chunk_lengths ps size chunk_size batch i acc).
Notation P := (round_parameters E ps size batch).
Notation pc i := (chunk_parameters E ps size chunk_size batch (N.of_nat i)).
Notation total := (total_size ps size).
Notation chunks' := (contributed_chunks ps size chunk_size batch key accs).

Lemma concat_contributed {C : AffineCurve (Fr E)} (f : Accumulator E → list C) (g : N → Fr E) (m : N) :
  tiled chunk_size m (f <$> accs) →
  (∀ i acc, f (contributed (pc i) key acc) =
     scale (f acc) ((λ j, g (N.of_nat i * chunk_size + N.of_nat j)%N) <$> seq 0 (length (f acc)))) →
  concat (f <$> chunks') = scale (concat (f <$> accs)) ((λ j, g (N.of_nat j)) <$> seq 0 (length (concat (f <$> accs)))).
Proof.
  intros Ht Hf. rewrite <-(scale_pieces g chunk_size m _ Ht). unfold contributed_chunks. f_equal.
  rewrite fmap_imap, imap_fmap. apply imap_ext. intros i acc _. apply Hf.
Qed.
(** Sections that only the first chunk has. *)
Lemma first_contributed {C : AffineCurve (Fr E)} (f : Accumulator E → list C) (exps : Phase1Parameters → list (Fr E)) (k : nat) :
  (∀ i acc, accs !! i = Some acc → length (f acc) = if (i =? 0)%nat then k else 0) →
  (∀ i acc, f (contributed (pc i) key acc) = scale (f acc) (exps (pc i))) →
  exps (pc 0) = exps P →
  concat (f <$> chunks') = scale (concat (f <$> accs)) (exps P).
Proof.
  intros Hlen Hf He. unfold contributed_chunks. clear Hr Hlens. destruct accs as [|a l]; [done|].
  rewrite imap_cons, !fmap_cons, !concat_cons, Hf, He. rewrite fmap_imap.
  rewrite (concat_all_empty (f <$> l)), app_nil_r.
  2: { apply Forall_fmap, Forall_lookup. intros i b Hb. apply nil_length_inv. exact (Hlen (S i) b Hb). }
  rewrite concat_all_empty; [by rewrite app_nil_r|]. apply Forall_lookup. intros i b Hb.
  apply list_lookup_imap_Some in Hb as (acc & Ha & ->). unfold compose. cbv beta. rewrite Hf.
  pose proof (Hlen (S i) acc Ha) as Hz. apply nil_length_inv in Hz. by rewrite Hz.
Qed.

Lemma same_exponents : g2_exponents (pc 0) key = g2_exponents P key ∧ alpha_exponents (pc 0) key = alpha_exponents P key.
Proof.
  assert (degree_bound_powers E (pc 0) key = degree_bound_powers E P key) as H.
  { unfold degree_bound_powers, degree_exponent, round_parameters, chunk_parameters, new_parameters.
    by do 2 destruct (chunk_sizes _ _ _ _ _). }
  unfold g2_exponents, alpha_exponents, degree_triples. by rewrite H.
Qed.

Lemma chunk_system i : p1_proving_system (pc i) = ps.
Proof. by destruct (chunk_fields (E := E) ps size chunk_size batch i) as (_ & _ & _ & Es & _). Qed.

(** The power of tau, under a factor, by the place of the element. *)
Definition exponent_at (coeff : option (Fr E)) (j : N) : Fr E :=
  match coeff with Some k => fr_mul (fr_pow (tau key) j) k | None => fr_pow (tau key) j end.
Lemma exponents_by_place (coeff : option (Fr E)) :
  let g := exponent_at coeff in
  (∀ i m, with_coeff coeff (tau_exponents (pc i) key m) =
     (λ j, g (N.of_nat i * chunk_size + N.of_nat j)%N) <$> seq 0 m) ∧
  (∀ m, with_coeff coeff (tau_exponents P key m) = (λ j, g (N.of_nat j)) <$> seq 0 m).
Proof.
  assert (∀ i, chunk_lo (pc i) = N.of_nat i * chunk_size)%N as Hlo.
  { intros i. destruct (chunk_fields (E := E) ps size chunk_size batch i) as (Em & Ei & Ec & _).
    unfold chunk_lo. by rewrite Em, Ei, Ec. }
  assert (chunk_lo P = 0%N) as Hlo0.
  { unfold chunk_lo, round_parameters, new_parameters. by destruct (chunk_sizes _ _ _ _ _). }
  intros g. unfold with_coeff, times_key, tau_exponents. split; [intros i m|intros m]; rewrite ?Hlo, ?Hlo0;
    subst g; destruct coeff; unfold exponent_at; rewrite <-?list_fmap_compose; done.
Qed.
Lemma section_contributed {C : AffineCurve (Fr E)} (f : Accumulator E → list C) coeff (m : N) :
  tiled chunk_size m (f <$> accs) →
  (∀ i acc, f (contributed (pc i) key acc) =
     scale (f acc) (with_coeff coeff (tau_exponents (pc i) key (length (f acc))))) →
  concat (f <$> chunks') =
    scale (concat (f <$> accs)) (with_coeff coeff (tau_exponents P key (length (concat (f <$> accs))))).
Proof.
  intros Ht Hf. destruct (exponents_by_place coeff) as [He He0]. rewrite He0.
  apply (concat_contributed f (exponent_at coeff) m Ht). intros i acc. by rewrite Hf, He.
Qed.
Lemma tau_g1_contributed :
  concat (tau_powers_g1 <$> chunks') =
    scale (concat (tau_powers_g1 <$> accs)) (tau_exponents P key (length (concat (tau_powers_g1 <$> accs)))).
Proof.
  apply (section_contributed tau_powers_g1 None total).
  - exact (tiled_tau_g1 _ _ _ _ _ Hr Hlens).
  - intros i acc. unfold contributed. by destruct (p1_proving_system (pc i)).
Qed.
Lemma beta_g2_contributed :
  beta_g2 (glue chunks') = match p1_proving_system P with Groth16 => mul (beta_g2 (glue accs)) (beta key) | Marlin => beta_g2 (glue accs) end.
Proof.
  assert (0 < n) as Hn.
  { destruct Hr as [_ _ _ _ _ _ Hall]. pose proof (powers_le _ _ _ _ _ Hr). unfold total_size in *.
    destruct n; [|lia]. destruct ps; lia. }
  destruct (round_fields _ _ _ _ _ Hr) as (Fs & _). rewrite Fs.
  pose proof (chunk_system 0) as Es. clear Hr Hlens Fs. unfold contributed_chunks, glue. cbn [beta_g2].
  destruct accs as [|a l]; [simpl in Hn; lia|]. rewrite imap_cons. cbn [head fmap option_fmap option_map default].
  unfold contributed at 1. rewrite Es. by destruct ps.
Qed.

(** One key in all chunks is the key in the whole. *)
Lemma glue_contributed : glue chunks' = contributed P key (glue accs).
Proof.
  destruct (round_fields _ _ _ _ _ Hr) as (Fs & _). destruct same_exponents as [S2 S3].
  pose proof tau_g1_contributed as H1. pose proof beta_g2_contributed as Hb. unfold glue at 1 in Hb. cbn [beta_g2] in Hb.
  pose proof chunk_system as Es. unfold glue at 1. rewrite H1, Hb. unfold contributed at 1. destruct (p1_proving_system P) eqn:Hs.
  - assert (ps = Groth16) as Hps by congruence.
    pose proof (groth16_lengths ps size chunk_size batch accs Hlens) as HL.
    assert (∀ A (f : Accumulator E → list A),
      (∀ i acc, accs !! i = Some acc → length (f acc) = N.to_nat (other_chunk_size (pc i))) →
      tiled chunk_size (2 ^ size) (f <$> accs)) as Htiled by (intros A f Hl; by apply (tiled_other ps size chunk_size batch accs Hr)).
    cbn [glue tau_powers_g1 tau_powers_g2 alpha_tau_powers_g1 beta_tau_powers_g1]. f_equal.
    + apply (section_contributed tau_powers_g2 None (2 ^ size)).
      * apply Htiled. intros i acc Ha. apply (HL i acc Hps Ha).
      * intros i acc. unfold contributed. by rewrite (eq_trans (Es i) Hps).
    + apply (section_contributed alpha_tau_powers_g1 (Some (alpha key)) (2 ^ size)).
      * apply Htiled. intros i acc Ha. apply (HL i acc Hps Ha).
      * intros i acc. unfold contributed. by rewrite (eq_trans (Es i) Hps).
    + apply (section_contributed beta_tau_powers_g1 (Some (beta key)) (2 ^ size)).
      * apply Htiled. intros i acc Ha. apply (HL i acc Hps Ha).
      * intros i acc. unfold contributed. by rewrite (eq_trans (Es i) Hps).
  - assert (ps = Marlin) as Hps by congruence.
    pose proof (marlin_lengths ps size chunk_size batch accs Hlens) as HL.
    cbn [glue tau_powers_g1 tau_powers_g2 alpha_tau_powers_g1 beta_tau_powers_g1]. f_equal.
    + apply (first_contributed tau_powers_g2 (λ p, g2_exponents p key) (N.to_nat size + 2)); [| |done].
      * intros i acc Ha. apply (HL i acc Hps Ha).
      * intros i acc. unfold contributed. by rewrite (eq_trans (Es i) Hps).
    + apply (first_contributed alpha_tau_powers_g1 (λ p, times_key (alpha key) (alpha_exponents p key)) (3 + 3 * N.to_nat size)).
      * intros i acc Ha. apply (HL i acc Hps Ha).
      * intros i acc. unfold contributed. by rewrite (eq_trans (Es i) Hps).
      * by rewrite S3.
    + unfold contributed_chunks. f_equal. rewrite fmap_imap. apply list_eq. intros i.
      rewrite list_lookup_imap, list_lookup_fmap. destruct (accs !! i) as [acc|]; [|done].
      unfold compose. cbn [fmap option_fmap option_map]. f_equal. unfold contributed. by rewrite (eq_trans (Es i) Hps).
Qed.
End contributing.

(** ** The theorems *)

Section theorems.
Context {E : PairingEngine} `{!EngineLaws E}.

(** The files of the chunks: one per accumulator, each of its own compression. *)
Definition chunk_files (check : CheckForCorrectness) (ps : ProvingSystem) (size chunk_size batch : N)
    (inputs : list (bytes * UseCompression)) (accs : list (Accumulator E)) : Prop :=
  length inputs = length accs ∧
  ∀ i input ci acc, inputs !! i = Some (input, ci) → accs !! i = Some acc →
    let p := chunk_parameters E ps size chunk_size batch (N.of_nat i) in
    accumulator_length (E := E) p ci ≤ length input ∧ deserialize_accumulator E p ci check input = Ok acc.

Lemma chunk_files_hold ps size chunk_size batch inputs accs i acc :
  round_bounds E ps size chunk_size batch (length accs) → chunk_files CheckNo ps size chunk_size batch inputs accs →
  accs !! i = Some acc →
  ∃ x ci, inputs !! i = Some (join x, ci) ∧
    holds (chunk_parameters E ps size chunk_size batch (N.of_nat i)) ci CheckNo x acc.
Proof.
  intros Hr [Hlen Hfiles] Ha. pose proof (lookup_lt_Some _ _ _ Ha) as Hi.
  destruct (lookup_lt_is_Some_2 inputs i) as [[input ci] Hin]; [lia|].
  destruct (Hfiles i input ci acc Hin Ha) as [Hl Hd].
  destruct (deserialize_holds_inv _ _ _ _ _ (chunk_regular _ _ _ _ _ Hr i Hi) Hl Hd) as (x & -> & Hx).
  by exists x, ci.
Qed.

(** Aggregation writes the chunks of a round, each from a file of its own
    compression, to their places: the buffer of the round then holds the
    chunks one after the other, section by section, with the hash in front
    untouched. *)
Lemma aggregation_glues (ps : ProvingSystem) (size chunk_size batch : N) (inputs : list (bytes * UseCompression))
    (accs : list (Accumulator E)) (co : UseCompression) (output : bytes)
    (Hr : round_bounds E ps size chunk_size batch (length accs))
    (Hfiles : chunk_files CheckNo ps size chunk_size batch inputs accs)
    (Hgroup : Forall in_group accs)
    (Hout : accumulator_length (E := E) (round_parameters E ps size batch) co ≤ length output) :
  ∃ output', aggregation E inputs co (chunk_parameters E ps size chunk_size batch 0) output = (Ok tt, output') ∧
    deserialize_accumulator E (round_parameters E ps size batch) co CheckNo output' = Ok (glue accs) ∧
    take 64 output' = take 64 output ∧ length output' = length output.
Proof.
  assert (∀ i acc, accs !! i = Some acc → chunk_lengths ps size chunk_size batch i acc) as Hlens.
  { intros i acc Ha. destruct (chunk_files_hold _ _ _ _ _ _ i acc Hr Hfiles Ha) as (x & ci & _ & Hx).
    exact (holds_lengths _ _ _ _ _ Hx). }
  destruct (parts_exist _ co output Hout) as (x0 & -> & Hf).
  pose proof (proj1 Hfiles) as Hlen.
  destruct (for_each_imap (λ '(i, (input, ci)), aggregate_chunk E (chunk_parameters E ps size chunk_size batch 0) co i input ci)
    (λ k st, ∃ x, st = join x ∧ aggregated ps size chunk_size batch accs co x0 k x) inputs (join x0))
    as (st' & Hrun & x & -> & Hx).
  - exists x0. split; [done|]. by apply aggregated_start.
  - intros i [input ci] st Hin (x & -> & Hx). pose proof (lookup_lt_Some _ _ _ Hin) as Hi.
    destruct (lookup_lt_is_Some_2 accs i) as [acc Ha]; [lia|].
    destruct (chunk_files_hold _ _ _ _ _ _ i acc Hr Hfiles Ha) as (xi & ci' & Hin' & Hxi).
    rewrite Hin' in Hin. injection Hin as <- <-.
    assert (∃ x', aggregate_chunk E (chunk_parameters E ps size chunk_size batch (N.of_nat 0)) co (N.of_nat i) (join xi) ci' (join x) =
      (Ok tt, join x') ∧ aggregated ps size chunk_size batch accs co x0 (S i) x') as (x' & Hrun & Hx').
    { destruct ps eqn:Hps; [eapply aggregate_groth16_chunk | eapply aggregate_marlin_chunk]; done. }
    exists (join x'). split; [exact Hrun|]. by exists x'.
  - exists (join x). split; [exact Hrun|]. rewrite Hlen in Hx. pose proof (ag_fits _ _ _ _ _ _ _ _ _ Hx) as Hfx.
    split; [|split].
    + apply deserialize_holds; [exact (round_regular _ _ _ _ _ Hr)|].
      apply (aggregated_end ps size chunk_size batch accs Hr Hlens Hgroup co x0); [|done].
      intros Hs. unfold glue. cbn [beta_g2]. destruct accs as [|acc l]; [done|]. cbn.
      destruct (chunk_files_hold _ _ _ _ _ _ 0 acc Hr Hfiles eq_refl) as (xi & ci & _ & Hxi).
      pose proof (hold_beta_g2 _ _ _ _ _ Hxi) as Hb.
      destruct (chunk_fields (E := E) ps size chunk_size batch 0) as (_ & _ & _ & Es & _).
      by rewrite (eq_trans Es Hs) in Hb.
    + pose proof (fit_hash _ _ _ Hf). pose proof (fit_hash _ _ _ Hfx).
      unfold join. by rewrite !take_app_length', (ag_hash _ _ _ _ _ _ _ _ _ Hx) by lia.
    + by rewrite (join_length _ co x Hfx), (join_length _ co x0 Hf), (ag_rest _ _ _ _ _ _ _ _ _ Hx).
Qed.

Lemma contributed_chunks_in_group ps size chunk_size batch key (accs : list (Accumulator E)) :
  Forall in_group accs → Forall in_group (contributed_chunks ps size chunk_size batch key accs).
Proof.
  intros Hg. apply Forall_lookup. intros i acc Hi. apply list_lookup_imap_Some in Hi as (a & Ha & ->).
  by apply contributed_in_group, (Forall_lookup_1 _ _ _ _ Hg Ha).
Qed.

(** One contributor's computation on every chunk. *)
Definition contribute_chunks `{!Randomness E} (check : CheckForCorrectness) (key : PrivateKey E)
    (ps : ProvingSystem) (size chunk_size batch : N) (inputs buffers : list (bytes * UseCompression))
    : list (setup unit * bytes) :=
  imap (λ i '((input, ci), (buffer, co)),
    computation E input ci co check key (chunk_parameters E ps size chunk_size batch (N.of_nat i)) buffer)
    (zip inputs buffers).

(** C27. Contributing to every chunk with one key - in any order, each chunk
    with its own compressions - and aggregating the results is one
    contribution to the whole accumulator: splitting the ceremony into chunks
    does not change what it computes. *)
Theorem chunked_contributions_aggregate `{!Randomness E} (check : CheckForCorrectness) (key : PrivateKey E)
    (ps : ProvingSystem) (size chunk_size batch : N) (inputs buffers : list (bytes * UseCompression))
    (accs : list (Accumulator E)) (c : UseCompression) (output : bytes)
    (Hr : round_bounds E ps size chunk_size batch (length accs))
    (Hfiles : chunk_files check ps size chunk_size batch inputs accs)
    (Hgroup : Forall in_group accs)
    (Hlen : length buffers = length accs)
    (Hbuffers : ∀ i buffer co, buffers !! i = Some (buffer, co) →
      accumulator_length (E := E) (chunk_parameters E ps size chunk_size batch (N.of_nat i)) co ≤ length buffer)
    (Hout : accumulator_length (E := E) (round_parameters E ps size batch) c ≤ length output) :
  let p := round_parameters E ps size batch in
  let results := contribute_chunks check key ps size chunk_size batch inputs buffers in
  Forall (λ r, fst r = Ok tt) results ∧
  ∃ output',
    aggregation E (zip_with (λ r b, (snd r, snd b)) results buffers) c
      (chunk_parameters E ps size chunk_size batch 0) output = (Ok tt, output') ∧
    deserialize_accumulator E p c CheckNo output' = Ok (contributed p key (glue accs)).
Proof.
  intros p results. destruct Hfiles as [Hlen' Hfiles].
  assert (∀ i r, results !! i = Some r → ∃ acc buffer co, accs !! i = Some acc ∧ buffers !! i = Some (buffer, co) ∧
    fst r = Ok tt ∧ length (snd r) = length buffer ∧
    let q := chunk_parameters E ps size chunk_size batch (N.of_nat i) in
    deserialize_accumulator E q co CheckNo (snd r) = Ok (contributed q key acc)) as Hres.
  { intros i r Hi. apply list_lookup_imap_Some in Hi as ([[input ci] [buffer co]] & Hz & ->).
    apply lookup_zip_Some in Hz as [Hin Hb]. pose proof (lookup_lt_Some _ _ _ Hb) as Hi.
    destruct (lookup_lt_is_Some_2 accs i) as [acc Ha]; [lia|]. destruct (Hfiles i input ci acc Hin Ha) as [Hl Hd].
    destruct (computation_result _ key ci co check input buffer acc (chunk_regular _ _ _ _ _ Hr i ltac:(lia)) Hd Hl
      (Hbuffers i buffer co Hb) (Forall_lookup_1 _ _ _ _ Hgroup Ha)) as (out & -> & Hd' & _ & _ & Hlo).
    by exists acc, buffer, co. }
  split.
  { apply Forall_lookup. intros i r Hi. by destruct (Hres i r Hi) as (? & ? & ? & _ & _ & ? & _). }
  assert (length results = length accs) as Hlr
    by (subst results; unfold contribute_chunks; rewrite length_imap, length_zip_with; lia).
  assert (length (contributed_chunks ps size chunk_size batch key accs) = length accs) as Hlc by apply length_imap.
  destruct (aggregation_glues ps size chunk_size batch (zip_with (λ r b, (snd r, snd b)) results buffers)
    (contributed_chunks ps size chunk_size batch key accs) c output) as (output' & Hrun & Hd & _).
  - by rewrite Hlc.
  - split; [rewrite length_zip_with; lia|]. intros i input ci acc Hi Ha.
    apply lookup_zip_with_Some in Hi as ([o d] & [buffer co] & [= -> ->] & Hi & Hb).
    destruct (Hres i _ Hi) as (a & buffer' & co' & Ha' & Hb' & _ & Hl & Hd).
    rewrite Hb in Hb'. injection Hb' as <- <-. apply list_lookup_imap_Some in Ha as (a' & Ha & ->).
    rewrite Ha' in Ha. injection Ha as <-. cbn [fst snd] in *. split; [|done]. rewrite Hl. by apply Hbuffers.
  - by apply contributed_chunks_in_group.
  - done.
  - exists output'. split; [exact Hrun|]. subst p. rewrite Hd. f_equal. apply glue_contributed; [done|].
    intros i acc Ha. destruct (lookup_lt_is_Some_2 inputs i) as [[input ci] Hin]; [apply lookup_lt_Some in Ha; lia|].
    pose proof (lookup_lt_Some _ _ _ Ha) as Hi. destruct (Hfiles i input ci acc Hin Ha) as [Hl Hda].
    destruct (deserialize_holds_inv _ _ _ _ _ (chunk_regular _ _ _ _ _ Hr i Hi) Hl Hda) as (x & -> & Hx).
    exact (holds_lengths _ _ _ _ _ Hx).
Qed.
End theorems.

(** ** A round of the toy engine *)

#[local] Existing Instance toy_randomness.
#[local] Existing Instance Toy.engine_laws.

(** Two chunks of a Groth16 round of seven powers. *)
Definition toy_chunk (a b : nat) : Accumulator Toy.engine :=
  MkAccumulator (repeat Toy.Z1 a : list (G1Affine Toy.engine)) (repeat Toy.Z1 b : list (G2Affine Toy.engine))
    (repeat Toy.Z1 b : list (G1Affine Toy.engine)) (repeat Toy.Z1 b : list (G1Affine Toy.engine))
    (Toy.Z1 : G2Affine Toy.engine).
Definition toy_chunks : list (Accumulator Toy.engine) := [toy_chunk 4 4; toy_chunk 3 0].
Definition toy_chunk_parameters (i : N) : Phase1Parameters := chunk_parameters Toy.engine Groth16 2 4 3 i.
Definition toy_files : list (bytes * UseCompression) :=
  [(toy_initial CompressionNo (toy_chunk_parameters 0), CompressionNo);
   (toy_initial CompressionYes (toy_chunk_parameters 1), CompressionYes)].
Definition toy_output (c : UseCompression) : bytes := toy_buffer c (round_parameters Toy.engine Groth16 2 3).

Lemma toy_round : round_bounds Toy.engine Groth16 2 4 3 (length toy_chunks).
Proof. split; try done; by intros []. Qed.
Lemma toy_chunk_deserializes check :
  deserialize_accumulator Toy.engine (toy_chunk_parameters 0) CompressionNo check
    (toy_initial CompressionNo (toy_chunk_parameters 0)) = Ok (toy_chunk 4 4) ∧
  deserialize_accumulator Toy.engine (toy_chunk_parameters 1) CompressionYes check
    (toy_initial CompressionYes (toy_chunk_parameters 1)) = Ok (toy_chunk 3 0).
Proof.
  split; destruct check; lazymatch goal with |- _ = ?r => vm_cast_no_check (eq_refl r) end.
Qed.
Lemma toy_chunk_files check : chunk_files check Groth16 2 4 3 toy_files toy_chunks.
Proof.
  destruct (toy_chunk_deserializes check) as [H0 H1]. split; [done|]. intros i input ci acc Hi Ha.
  destruct i as [|[|i]]; [| |done]; apply (inj Some), pair_equal_spec in Hi as [<- <-]; apply (inj Some) in Ha as <-;
    (split; [by apply Nat.leb_le; vm_compute | done]).
Qed.
Lemma toy_chunks_in_group : Forall in_group toy_chunks.
Proof. repeat constructor. Qed.

Lemma aggregation_glues_witness :
  ∃ output', aggregation Toy.engine toy_files CompressionNo (toy_chunk_parameters 0) (toy_output CompressionNo) =
      (Ok tt, output') ∧
    deserialize_accumulator Toy.engine (round_parameters Toy.engine Groth16 2 3) CompressionNo CheckNo output' =
      Ok toy_accumulator.
Proof.
  destruct (aggregation_glues Groth16 2 4 3 toy_files toy_chunks CompressionNo (toy_output CompressionNo))
    as (output' & Hrun & Hd & _).
  - apply toy_round.
  - apply toy_chunk_files.
  - apply toy_chunks_in_group.
  - by vm_compute.
  - exists output'. split; [exact Hrun | exact Hd].
Defined.

Lemma chunked_contributions_aggregate_witness :
  let key := toy_key Toy.Z2 Toy.Z3 Toy.Z4 in
  let buffers := [(toy_buffer CompressionYes (toy_chunk_parameters 0), CompressionYes);
                  (toy_buffer CompressionNo (toy_chunk_parameters 1), CompressionNo)] in
  let results := contribute_chunks CheckFull key Groth16 2 4 3 toy_files buffers in
  ∃ output', aggregation Toy.engine (zip_with (λ r b, (snd r, snd b)) results buffers) CompressionNo
      (toy_chunk_parameters 0) (toy_output CompressionNo) = (Ok tt, output') ∧
    deserialize_accumulator Toy.engine (round_parameters Toy.engine Groth16 2 3) CompressionNo CheckNo output' =
      Ok (contributed (round_parameters Toy.engine Groth16 2 3) key toy_accumulator).
Proof.
  intros key buffers results.
  destruct (chunked_contributions_aggregate CheckFull key Groth16 2 4 3 toy_files buffers toy_chunks CompressionNo
    (toy_output CompressionNo)) as (_ & output' & Hrun & Hd).
  - apply toy_round.
  - apply toy_chunk_files.
  - apply toy_chunks_in_group.
  - done.
  - intros i buffer co Hi. destruct i as [|[|i]]; [| |done]; apply (inj Some), pair_equal_spec in Hi as [<- <-]; by apply Nat.leb_le; vm_compute.
  - by vm_compute.
  - exists output'. split; [exact Hrun | exact Hd].
Defined.
