(* ===== verification/DegreeBounds.v ===== *)
(** * Degree bounds of a Marlin round

    A Marlin accumulator has one element in G2 and three under alpha for every
    degree bound.  Verification of the aggregated round looks for the batch
    that contains the exponent of the bound; the exponent of the first bound
    is the number of powers, one past the last batch. *)

From S2P Require Import Prelude Environment Phase1Parameters Curve Elements MultiExp Buffers Accumulator Phase1 Layout Computation.

(** ** Slices *)

(** The lists agree outside of [lo..hi]. *)
Definition agree {A} (lo hi : nat) (l l' : list A) : Prop :=
  length l = length l' ∧ take lo l = take lo l' ∧ list.drop hi l = list.drop hi l'.

Lemma slice_agree {A} lo hi (l l' : list A) (s e : N) :
  agree lo hi l l' → N.to_nat e ≤ lo ∨ hi ≤ N.to_nat s → slice s e l = slice s e l'.
Proof.
  intros (Hlen & Ht & Hd) Hse. unfold slice, len. rewrite Hlen.
  destruct ((s <=? e)%N && (e <=? N.of_nat (length l'))%N) eqn:Hb; [|done]. apply andb_true_iff in Hb as [Hb _].
  apply N.leb_le in Hb. f_equal. destruct Hse as [Hse|Hse].
  - assert (∀ m : list A, take (N.to_nat (e - s)) (list.drop (N.to_nat s) m) = list.drop (N.to_nat s) (take (N.to_nat e) (take lo m))) as Hm.
    { intros m. rewrite take_take, Nat.min_l by done. rewrite skipn_firstn_comm. f_equal. lia. }
    by rewrite !Hm, Ht.
  - assert (∀ m : list A, list.drop (N.to_nat s) m = list.drop (N.to_nat s - hi) (list.drop hi m)) as Hm.
    { intros m. rewrite drop_drop. f_equal. lia. }
    by rewrite (Hm l), (Hm l'), Hd.
Qed.

Lemma for_each_ext {S A} (f g : A → on S unit) (l : list A) st :
  (∀ x st, x ∈ l → f x st = g x st) → for_each f l st = for_each g l st.
Proof.
  intros H. revert st. induction l as [|x l IH]; intros st; [done|]. cbn [for_each]. unfold bind.
  rewrite (H x st) by (by left). destruct (g x st) as [[[]| |] st']; try done.
  apply IH. intros y st2 Hy. apply H. by right.
Qed.
Lemma bind_ext {S A B} (m m' : on S A) (k k' : A → on S B) st :
  m st = m' st → (∀ a st, k a st = k' a st) → bind m k st = bind m' k' st.
Proof. intros Hm Hk. unfold bind. rewrite Hm. by destruct (m' st) as [[a| |] st']. Qed.

Lemma batch_chain_end p lo hi k bs k' s e : batch_chain p lo hi k bs k' → (s, e) ∈ bs → (e ≤ hi)%N.
Proof.
  induction 1 as [k|k s' e' bs k' Hb Hbs IH]; intros Hin; [by apply not_elem_of_nil in Hin|].
  apply elem_of_cons in Hin as [[= -> ->]|Hin]; [|by apply IH]. destruct Hb as (_ & ? & _). lia.
Qed.

Section degree_bounds.
Context {E : PairingEngine} `{!EngineLaws E, !Randomness E}.
Notation w1 := (width (G1Affine E)).
Notation w2 := (width (G2Affine E)).
Context (p : Phase1Parameters) (Hp : regular E p).
Context (Hmarlin : p1_proving_system p = Marlin) (Hfull : p1_contribution_mode p = Full).

(** The batches end where the powers do. *)
Lemma marlin_end : chunk_hi p = powers_length p.
Proof. pose proof (reg_bounds _ _ Hp) as H. unfold iter_bounds in H. rewrite Hmarlin, Hfull in H. by injection H. Qed.

Lemma first_degree_exponent : (0 < total_size_in_log2 p)%N → degree_exponent p 0 = powers_length p.
Proof.
  intros Hs. pose proof (reg_powers _ _ Hp) as Hl. pose proof (reg_hi _ _ Hp) as Hhi. rewrite marlin_end in Hhi.
  assert (2 ^ 1 ≤ powers_length p)%N by (rewrite Hl; apply N.pow_le_mono_r; lia).
  unfold degree_exponent. change (u64_shl1 0) with 1%N. change (2 ^ 1)%N with 2%N in *.
  rewrite (u64_sub_exact (powers_length p)), u64_sub_exact by bounds_lia. rewrite u64_add_exact by bounds_lia. lia.
Qed.

(** No batch has the first bound. *)
Lemma degree_bounds_in_batch (s e i power : N) :
  (e ≤ chunk_hi p)%N → (i, power) ∈ powers_of_two_in_range p s e → (1 ≤ i < total_size_in_log2 p)%N.
Proof.
  intros He Hi. unfold powers_of_two_in_range in Hi. apply list_elem_of_filter in Hi as [[_ Hlt] Hi].
  apply list_elem_of_fmap in Hi as (j & [= -> ->] & Hj). apply elem_of_u64_range in Hj.
  destruct (N.eq_dec j 0) as [->|]; [|lia]. rewrite first_degree_exponent, <-marlin_end in Hlt by lia. lia.
Qed.

Section frame.
Context (c : UseCompression) (check : CheckForCorrectness) (x : Parts) (d2 d3 : bytes).
Context (Hf : fits (E := E) p c x).
Context (H2 : agree (2 * w2 c) (3 * w2 c) (pt_tau_g2 x) d2) (H3 : agree (3 * w1 c) (6 * w1 c) (pt_alpha_g1 x) d3).
Notation y := (set_alpha_g1 d3 (set_tau_g2 d2 x)).
Notation r := (ranges (E := E) p c).

Lemma frame_fits : fits (E := E) p c y.
Proof.
  apply fits_alpha; [apply fits_tau_g2; [done|]|].
  - destruct H2 as [-> _]. done.
  - destruct H3 as [<- _]. done.
Qed.

Lemma offset_g1 (k : N) : (k < 2 ^ 42)%N → usize_mul k (buffer_size (G1Affine E) c) = N.of_nat (N.to_nat k * w1 c).
Proof. intros Hk. unfold u64_mul. rewrite N.mul_comm. exact (section_size_g1 p Hp c k Hk). Qed.
Lemma offset_g2 (k : N) : (k < 2 ^ 42)%N → usize_mul k (buffer_size (G2Affine E) c) = N.of_nat (N.to_nat k * w2 c).
Proof. intros Hk. unfold u64_mul. rewrite N.mul_comm. exact (section_size_g2 p Hp c k Hk). Qed.

Lemma slice_tau_g2 (s e : N) :
  (e < 2 ^ 42)%N → (s ≤ e)%N → (e ≤ 2 ∨ 3 ≤ s)%N →
  slice (usize_mul s (buffer_size (G2Affine E) c)) (usize_mul e (buffer_size (G2Affine E) c)) (view (sb_tau_g2 r) (join y)) =
  slice (usize_mul s (buffer_size (G2Affine E) c)) (usize_mul e (buffer_size (G2Affine E) c)) (view (sb_tau_g2 r) (join x)).
Proof.
  intros He Hse Hout. rewrite (view_tau_g2 p c y frame_fits), (view_tau_g2 p c x Hf).
  rewrite !offset_g2 by bounds_lia. symmetry. apply (slice_agree (2 * w2 c) (3 * w2 c)); [exact H2|]. rewrite !Nat2N.id. nia.
Qed.
Lemma slice_alpha (s e : N) :
  (e < 2 ^ 42)%N → (s ≤ e)%N → (e ≤ 3 ∨ 6 ≤ s)%N →
  slice (usize_mul s (buffer_size (G1Affine E) c)) (usize_mul e (buffer_size (G1Affine E) c)) (view (sb_alpha_g1 r) (join y)) =
  slice (usize_mul s (buffer_size (G1Affine E) c)) (usize_mul e (buffer_size (G1Affine E) c)) (view (sb_alpha_g1 r) (join x)).
Proof.
  intros He Hse Hout. rewrite (view_alpha p c y frame_fits), (view_alpha p c x Hf).
  rewrite !offset_g1 by bounds_lia. symmetry. apply (slice_agree (3 * w1 c) (6 * w1 c)); [exact H3|]. rewrite !Nat2N.id. nia.
Qed.
Lemma same_tau_g1 : view (sb_tau_g1 r) (join y) = view (sb_tau_g1 r) (join x).
Proof. by rewrite (view_tau_g1 p c y frame_fits), (view_tau_g1 p c x Hf). Qed.

Lemma degree_bound_frame g2_check alpha_0 (i power : N) :
  (1 ≤ i < total_size_in_log2 p)%N →
  verify_degree_bound E c check (join y) r g2_check alpha_0 i power =
  verify_degree_bound E c check (join x) r g2_check alpha_0 i power.
Proof.
  intros Hi. pose proof (reg_size _ _ Hp). unfold verify_degree_bound. cbv zeta. rewrite same_tau_g1.
  assert (usize_mul 3 i = 3 * i)%N as -> by (apply usize_mul_exact; bounds_lia).
  assert (usize_add 2 i = 2 + i)%N as -> by (apply usize_add_exact; bounds_lia).
  assert (usize_add 3 (3 * i) = 3 + 3 * i)%N as -> by (apply usize_add_exact; bounds_lia).
  rewrite !(usize_add_exact (_ + _)) by bounds_lia.
  by rewrite slice_tau_g2, slice_alpha by bounds_lia.
Qed.

Lemma read_initial_frame :
  read_initial_elements E (C := G2Affine E) (view (sb_tau_g2 r) (join y)) c check =
    read_initial_elements E (C := G2Affine E) (view (sb_tau_g2 r) (join x)) c check ∧
  read_initial_elements E (C := G1Affine E) (view (sb_alpha_g1 r) (join y)) c check =
    read_initial_elements E (C := G1Affine E) (view (sb_alpha_g1 r) (join x)) c check.
Proof.
  unfold read_initial_elements, read_initial_elements_with_amount.
  pose proof (slice_tau_g2 0 2) as S2. pose proof (slice_alpha 0 2) as S3. change (usize_mul 0 ?s) with 0%N in S2, S3.
  by rewrite S2, S3 by bounds_lia.
Qed.

Lemma marlin_batch_frame g1_check g2_check alpha_0 (s e : N) rng :
  (e ≤ chunk_hi p)%N →
  verify_ratios_marlin E p c check (join y) r g1_check g2_check alpha_0 s e rng =
  verify_ratios_marlin E p c check (join x) r g1_check g2_check alpha_0 s e rng.
Proof.
  intros He. unfold verify_ratios_marlin. rewrite same_tau_g1. apply bind_ext; [done|]. intros _ rng1.
  apply bind_ext.
  - apply for_each_ext. intros [i power] st Hi. unfold lift. cbn [fst snd].
    by rewrite degree_bound_frame by (by apply (degree_bounds_in_batch s e i power)).
  - intros _ rng2. destruct (s =? 0)%N; [|done]. unfold check_power_ratios, check_power_ratios_g2, read_into.
    by rewrite slice_tau_g2, slice_alpha by bounds_lia.
Qed.
End frame.
End degree_bounds.

(** C28. The element in G2 and the three elements under alpha of the first
    degree bound take no part in the verification of an aggregated Marlin
    round: whatever stands there, the result is the same. *)
Theorem first_degree_bound_unverified {E : PairingEngine} `{!EngineLaws E, !Randomness E}
    (p : Phase1Parameters) c check (x : Parts) (tau_g2 alpha_g1 : bytes) (rng : Rng)
    (Hp : regular E p) (Hmarlin : p1_proving_system p = Marlin) (Hfull : p1_contribution_mode p = Full)
    (Hf : fits (E := E) p c x)
    (Htau : agree (2 * width (G2Affine E) c) (3 * width (G2Affine E) c) (pt_tau_g2 x) tau_g2)
    (Halpha : agree (3 * width (G1Affine E) c) (6 * width (G1Affine E) c) (pt_alpha_g1 x) alpha_g1) :
  phase1_aggregate_verify E (join (set_alpha_g1 alpha_g1 (set_tau_g2 tau_g2 x))) c check p rng =
  phase1_aggregate_verify E (join x) c check p rng.
Proof.
  pose proof (frame_fits p c x _ _ Hf Htau Halpha) as Hfy. set (y := set_alpha_g1 alpha_g1 (set_tau_g2 tau_g2 x)) in *.
  unfold phase1_aggregate_verify. rewrite (split_join p Hp c y Hfy), (split_join p Hp c x Hf).
  destruct (read_initial_frame p Hp c check x _ _ Hf Htau Halpha) as [R2 R3].
  pose proof (same_tau_g1 p c x _ _ Hf Htau Halpha) as R1. fold y in R1, R2, R3.
  unfold bind at 1, lift at 1. unfold bind at 9, lift at 9.
  rewrite R1, R2, R3. repeat (apply bind_ext; [done | intros ? ?]). rewrite Hmarlin.
  pose proof (reg_hi _ _ Hp). pose proof (reg_pos _ _ Hp). pose proof (reg_batch _ _ Hp).
  destruct (iter_chunk_batches p (chunk_lo p) (chunk_hi p) (reg_bounds _ _ Hp) ltac:(bounds_lia) ltac:(bounds_lia))
    as (bs & Hbs & Hrun); [unfold chunk_hi; lia|].
  rewrite !Hrun. apply for_each_ext. intros [s e] st' Hb. cbn [fst snd].
  apply (marlin_batch_frame p Hp Hmarlin Hfull c check x _ _ Hf Htau Halpha). by apply (batch_chain_end p _ _ _ _ _ _ _ Hbs Hb).
Qed.

(** ** A round of the toy engine *)

#[local] Existing Instance toy_randomness.
#[local] Existing Instance Toy.engine_laws.

Definition toy_marlin : Phase1Parameters := toy_parameters Full 0 Marlin.
Definition toy_sections : Parts :=
  MkParts (repeat Byte.x00 64) (encode CompressionNo (repeat Toy.Z1 4 : list (G1Affine Toy.engine)))
    (encode CompressionNo (repeat Toy.Z1 4 : list (G2Affine Toy.engine)))
    (encode CompressionNo (repeat Toy.Z1 9 : list (G1Affine Toy.engine))) [] [] [].
(** The same with other elements for the first degree bound. *)
Definition toy_forged_g2 : bytes :=
  encode CompressionNo ([Toy.Z1; Toy.Z1; Toy.Z3; Toy.Z1] : list (G2Affine Toy.engine)).
Definition toy_forged_alpha : bytes :=
  encode CompressionNo ([Toy.Z1; Toy.Z1; Toy.Z1; Toy.Z4; Toy.Z2; Toy.Z2; Toy.Z1; Toy.Z1; Toy.Z1] : list (G1Affine Toy.engine)).

Lemma first_degree_bound_unverified_witness :
  fst (phase1_aggregate_verify Toy.engine (join toy_sections) CompressionNo CheckFull toy_marlin (toy_rng [])) = Ok tt ∧
  fst (phase1_aggregate_verify Toy.engine (join (set_alpha_g1 toy_forged_alpha (set_tau_g2 toy_forged_g2 toy_sections)))
    CompressionNo CheckFull toy_marlin (toy_rng [])) = Ok tt.
Proof.
  assert (fst (phase1_aggregate_verify Toy.engine (join toy_sections) CompressionNo CheckFull toy_marlin (toy_rng [])) = Ok tt)
    as Hok by (by vm_compute).
  split; [exact Hok|]. refine (eq_trans (f_equal fst _) Hok).
  apply (first_degree_bound_unverified toy_marlin CompressionNo CheckFull toy_sections toy_forged_g2 toy_forged_alpha).
  - by apply toy_regular.
  - done.
  - done.
  - by split; vm_compute.
  - by split_and!; vm_compute.
  - by split_and!; vm_compute.
Defined.
