(* ===== verification/Keypair.v ===== *)
(** * Keys of the second phase

    [phase2/src/keypair.rs]: a contributor's secret delta, the public key that
    proves its knowledge, and the transcript hash that binds a key to all keys
    before it.  A reader is the data still to be read. *)

From S2P Require Import Prelude Environment Phase1Parameters Curve Elements MultiExp.
From Stdlib Require Import Strings.Byte.

(** [snarkvm_algorithms::hash_to_curve] and [hex]. *)
Class HashToCurve (E : PairingEngine) := {
  hex_encode : bytes → string;
  hash_to_curve : string → G2Affine E;
}.
Class HashToCurveLaws (E : PairingEngine) `{!HashToCurve E} : Prop := {
  hash_to_curve_in_subgroup s : in_subgroup (hash_to_curve s);
  hash_to_curve_nonzero s : hash_to_curve s ≠ zero;
}.

(** ** Reading and writing *)

Section io.
Context {F : PrimeField} {C : AffineCurve F}.

(** One element from the front of the reader. *)
Definition next_element (compression : UseCompression) (check : CheckForCorrectness) : on bytes C := λ data,
  (read_element compression check data, list.drop (N.to_nat (buffer_size C compression)) data).

Lemma next_element_ok `{!CurveLaws C} c check (p : C) rest :
  in_subgroup p → passes check p → next_element c check (serialize c p ++ rest) = (Ok p, rest).
Proof.
  intros Hp Hc. unfold next_element. rewrite read_element_ok by done. f_equal.
  rewrite buffer_size_nat. by rewrite drop_app_length' by (by rewrite serialize_width).
Qed.
End io.

(** [Read::read_exact] *)
Definition read_exact (n : nat) : on bytes bytes := λ data,
  if (length data <? n)%nat then (Err IoError, []) else (Ok (take n data), list.drop n data).

Lemma read_exact_ok (data rest : bytes) n : length data = n → read_exact n (data ++ rest) = (Ok data, rest).
Proof.
  intros <-. unfold read_exact. rewrite length_app, (proj2 (Nat.ltb_ge _ _)) by lia.
  by rewrite take_app_length, drop_app_length.
Qed.

(** [n] reads, one after the other. *)
Fixpoint read_many {A} (n : nat) (read : on bytes A) : on bytes (list A) :=
  match n with
  | 0 => ret []
  | S n => let! a := read in let! l := read_many n read in ret (a :: l)
  end.

(** [byteorder]: a [u32], the most significant byte first. *)
Definition byte_of (n : N) : Byte.byte := default x00 (Byte.of_N (n mod 256)).
Definition write_u32 (n : N) : bytes := byte_of <$> [n / 2 ^ 24; n / 2 ^ 16; n / 2 ^ 8; n]%N.
Definition parse_u32 (data : bytes) : N := foldl (λ n b, n * 256 + Byte.to_N b)%N 0%N data.
Definition read_u32 : on bytes N := let! data := read_exact 4 in ret (parse_u32 data).

Lemma byte_of_to_N n : Byte.to_N (byte_of n) = (n mod 256)%N.
Proof.
  unfold byte_of. pose proof (N.mod_lt n 256 ltac:(done)) as Hn.
  destruct (Byte.of_N (n mod 256)) as [b|] eqn:Hb; [cbn; by apply Byte.to_of_N in Hb|].
  apply Byte.of_N_None_iff in Hb. lia.
Qed.
Lemma parse_write_u32 n : (n < 2 ^ 32)%N → parse_u32 (write_u32 n) = n.
Proof.
  intros Hn. unfold parse_u32, write_u32. cbn [fmap list_fmap foldl]. rewrite !byte_of_to_N.
  change (2 ^ 24)%N with (256 * 256 * 256)%N. change (2 ^ 16)%N with (256 * 256)%N. change (2 ^ 8)%N with 256%N.
  rewrite <-!N.Div0.div_div.
  remember (n / 256)%N as q1 eqn:E1. remember (q1 / 256)%N as q2 eqn:E2. remember (q2 / 256)%N as q3 eqn:E3.
  pose proof (N.div_mod n 256 ltac:(done)). pose proof (N.div_mod q1 256 ltac:(done)).
  pose proof (N.div_mod q2 256 ltac:(done)). rewrite <-E1 in *. rewrite <-E2 in *. rewrite <-E3 in *.
  assert (q3 < 256)%N as Hq by (change (2 ^ 32)%N with 4294967296%N in Hn; clear E1 E2 E3; nlia).
  rewrite (N.mod_small q3) by done. lia.
Qed.

(** [as u32] *)
Definition as_u32 (n : N) : N := (n mod 2 ^ 32)%N.

(** ** Keys *)

Record PrivateKey (E : PairingEngine) := MkPrivateKey { delta : Fr E }.
Arguments MkPrivateKey {_}.
Arguments delta {_}.

Record PublicKey (E : PairingEngine) := MkPublicKey {
  delta_after : G1Affine E;
  s : G1Affine E;
  s_delta : G1Affine E;
  r_delta : G2Affine E;
  transcript : bytes;
}.
Arguments MkPublicKey {_}.
Arguments delta_after {_}.
Arguments s {_}.
Arguments s_delta {_}.
Arguments r_delta {_}.
Arguments transcript {_}.

(** [PartialEq] *)
#[global] Instance PublicKey_eq_dec E : EqDecision (PublicKey E).
Proof. solve_decision. Defined.

Record Keypair (E : PairingEngine) := MkKeypair {
  private_key : PrivateKey E;
  public_key : PublicKey E;
}.
Arguments MkKeypair {_}.
Arguments private_key {_}.
Arguments public_key {_}.

Section keys.
Context {E : PairingEngine} `{!Randomness E, !HashToCurve E}.

(** [PublicKey::write]: what is appended to the writer. *)
Definition write (k : PublicKey E) : bytes :=
  serialize CompressionNo (delta_after k) ++ serialize CompressionNo (s k) ++
  serialize CompressionNo (s_delta k) ++ serialize CompressionNo (r_delta k) ++ transcript k.

(** [PublicKey::read] *)
Definition read : on bytes (PublicKey E) :=
  let! delta_after := next_element CompressionNo CheckFull in
  let! s := next_element CompressionNo CheckFull in
  let! s_delta := next_element CompressionNo CheckFull in
  let! r_delta := next_element CompressionNo CheckFull in
  let! transcript := read_exact 64 in
  ret (MkPublicKey delta_after s s_delta r_delta transcript).

(** [PublicKey::size] *)
Definition size : N :=
  (3 * serialized_size (G1Affine E) CompressionNo + serialized_size (G2Affine E) CompressionNo + 64)%N.

(** [PublicKey::hash]; [HashWriter] hashes all that is written to it. *)
Definition hash (k : PublicKey E) : bytes := blake2b (write k).

(** [PublicKey::write_batch] *)
Definition write_batch (pubkeys : list (PublicKey E)) : bytes :=
  write_u32 (as_u32 (len pubkeys)) ++ concat (write <$> pubkeys).

(** [PublicKey::read_batch] *)
Definition read_batch : on bytes (list (PublicKey E)) :=
  let! contributions_len := read_u32 in
  read_many (N.to_nat contributions_len) read.

(** [hash_cs_pubkeys] *)
Definition hash_cs_pubkeys (cs_hash : bytes) (contributions : list (PublicKey E)) (s s_delta : G1Affine E) : bytes :=
  blake2b (cs_hash ++ concat (write <$> contributions) ++ serialize CompressionYes s ++ serialize CompressionYes s_delta).

(** [Keypair::new] *)
Definition keypair_new (delta_g1 : G1Affine E) (cs_hash : bytes) (contributions : list (PublicKey E)) (rng : Rng)
    : Keypair E * Rng :=
  let '(delta, rng) := rand_scalar rng in
  let delta_after := mul delta_g1 delta in
  let '(s, rng) := rand_g1 rng in
  let s_delta := mul s delta in
  let transcript := hash_cs_pubkeys cs_hash contributions s s_delta in
  let r := hash_to_curve (hex_encode transcript) in
  let r_delta := mul r delta in
  (MkKeypair (MkPrivateKey delta) (MkPublicKey delta_after s s_delta r_delta transcript), rng).
End keys.
