(* ===== verification/Groth16Params.v ===== *)
(** * Groth16 parameters

    [setup-utils/src/groth16_utils.rs]: the powers of the first phase in
    coefficient form, from the accumulator and as a file.  The evaluation domain
    and its inverse Fourier transform are parameters. *)

From S2P Require Import Prelude Environment Phase1Parameters Curve Elements MultiExp Keypair.

(** ** Threads *)

Definition is_panic {A} (o : setup A) : bool := match o with Panic => true | _ => false end.

(** [crossbeam::scope]: the threads are joined in order, up to the first
    failure; a panic of a thread is an error, and so is one that the scope
    finds in a thread that was not joined. *)
Fixpoint join_all (threads : list (setup unit)) : setup unit :=
  match threads with
  | [] => Ok tt
  | Ok _ :: threads => join_all threads
  | Panic :: _ => Err CrossBeamError
  | Err e :: threads => if existsb is_panic threads then Err CrossBeamError else Err e
  end.

(** What a thread returns, its value left aside. *)
Definition joined {A} (thread : setup A) : setup unit := try! _ := thread in Ok tt.

(** [split_at]: the two parts; beyond the end it panics. *)
Definition split_at {A} (n : N) (l : list A) : setup (list A * list A) :=
  if (n <=? len l)%N then Ok (take (N.to_nat n) l, list.drop (N.to_nat n) l) else Panic.

(** ** Evaluation domains *)

(** [EvaluationDomain] of [snarkvm_algorithms]. *)
Class Domains (E : PairingEngine) := {
  EvaluationDomain : Type;
  new_domain : N → option EvaluationDomain;
  ifft (C : AffineCurve (Fr E)) : EvaluationDomain → list C → list C;
}.

Record Groth16Params (E : PairingEngine) := MkGroth16Params {
  alpha_g1 : G1Affine E;
  beta_g1 : G1Affine E;
  beta_g2 : G2Affine E;
  coeffs_g1 : list (G1Affine E);
  coeffs_g2 : list (G2Affine E);
  alpha_coeffs_g1 : list (G1Affine E);
  beta_coeffs_g1 : list (G1Affine E);
  h_g1 : list (G1Affine E);
}.
Arguments MkGroth16Params {_}.
Arguments alpha_g1 {_}.
Arguments beta_g1 {_}.
Arguments beta_g2 {_}.
Arguments coeffs_g1 {_}.
Arguments coeffs_g2 {_}.
Arguments alpha_coeffs_g1 {_}.
Arguments beta_coeffs_g1 {_}.
Arguments h_g1 {_}.

Section groth16.
Context {E : PairingEngine}.

Notation G1 := (G1Affine E).
Notation G2 := (G2Affine E).

(** [to_coeffs]; points are the same in both of their forms. *)
Definition to_coeffs `{!Domains E} {C : AffineCurve (Fr E)} (domain : EvaluationDomain) (coeffs : list C) : list C :=
  ifft C domain coeffs.

(** A thread of [Groth16Params::new]. *)
Definition thread_coeffs `{!Domains E} {C : AffineCurve (Fr E)} (domain : EvaluationDomain) (phase2_size : N)
    (powers : list C) : setup (list C) :=
  try! l := slice 0 phase2_size powers in Ok (to_coeffs domain l).

(** [h_query_groth16] *)
Definition h_element {C : AffineCurve (Fr E)} (powers : list C) (degree i : N) : setup C :=
  try! x := index powers (N.to_nat (usize_add i degree)) in
  try! y := index powers (N.to_nat i) in
  Ok (add x (neg y)).
Definition h_query_groth16 {C : AffineCurve (Fr E)} (powers : list C) (degree : N) : setup (list C) :=
  collect (h_element powers degree <$> u64_range 0 (usize_sub degree 1)).

(** [Groth16Params::new] *)
Definition new `{!Domains E} (phase2_size : N) (tau_powers_g1 : list G1) (tau_powers_g2 : list G2)
    (alpha_tau_powers_g1 beta_tau_powers_g1 : list G1) (beta_g2 : G2) : setup (Groth16Params E) :=
  try! domain := match new_domain phase2_size with Some d => Ok d | None => Panic end in
  let coeffs_g1 := thread_coeffs domain phase2_size tau_powers_g1 in
  let coeffs_g2 := thread_coeffs domain phase2_size tau_powers_g2 in
  let alpha_coeffs_g1 := thread_coeffs domain phase2_size alpha_tau_powers_g1 in
  let beta_coeffs_g1 := thread_coeffs domain phase2_size beta_tau_powers_g1 in
  let h_g1 := h_query_groth16 tau_powers_g1 phase2_size in
  try! _ := join_all [joined coeffs_g1; joined coeffs_g2; joined alpha_coeffs_g1; joined beta_coeffs_g1; joined h_g1] in
  try! coeffs_g1 := coeffs_g1 in
  try! coeffs_g2 := coeffs_g2 in
  try! alpha_coeffs_g1 := alpha_coeffs_g1 in
  try! beta_coeffs_g1 := beta_coeffs_g1 in
  try! h_g1 := h_g1 in
  try! alpha_g1 := index alpha_tau_powers_g1 0 in
  try! beta_g1 := index beta_tau_powers_g1 0 in
  Ok (MkGroth16Params alpha_g1 beta_g1 beta_g2 coeffs_g1 coeffs_g2 alpha_coeffs_g1 beta_coeffs_g1 h_g1).

(** [Groth16Params::write]: what is appended to the writer. *)
Definition write_params (p : Groth16Params E) (compression : UseCompression) : bytes :=
  serialize compression (alpha_g1 p) ++ serialize compression (beta_g1 p) ++ serialize compression (beta_g2 p) ++
  encode compression (coeffs_g1 p) ++ encode compression (coeffs_g2 p) ++
  encode compression (alpha_coeffs_g1 p) ++ encode compression (beta_coeffs_g1 p) ++ encode compression (h_g1 p).

(** [split_transcript] *)
Definition split_params (input : bytes) (phase1_size size : N) (compressed : UseCompression)
    : setup (bytes * bytes * bytes * bytes * bytes) :=
  let g1_size := buffer_size G1 compressed in
  let g2_size := buffer_size G2 compressed in
  let unused n := usize_mul (usize_sub phase1_size size) n in
  try! r := split_at (usize_mul g1_size size) input in let '(coeffs_g1, others) := r in
  try! r := split_at (unused g1_size) others in let '(_, others) := r in
  try! r := split_at (usize_mul g2_size size) others in let '(coeffs_g2, others) := r in
  try! r := split_at (unused g2_size) others in let '(_, others) := r in
  try! r := split_at (usize_mul g1_size size) others in let '(alpha_coeffs_g1, others) := r in
  try! r := split_at (unused g1_size) others in let '(_, others) := r in
  try! r := split_at (usize_mul g1_size size) others in let '(beta_coeffs_g1, others) := r in
  try! r := split_at (unused g1_size) others in let '(_, others) := r in
  try! r := split_at (usize_mul g1_size (usize_sub size 1)) others in let '(h_coeffs, _) := r in
  Ok (coeffs_g1, coeffs_g2, alpha_coeffs_g1, beta_coeffs_g1, h_coeffs).

(** The three points at the front. *)
Definition read_constants (compressed : UseCompression) (check : CheckForCorrectness) : on bytes (G1 * G1 * G2) :=
  let! alpha_g1 := next_element (C := G1) compressed check in
  let! beta_g1 := next_element (C := G1) compressed check in
  let! beta_g2 := next_element (C := G2) compressed check in
  ret (alpha_g1, beta_g1, beta_g2).

(** [Groth16Params::read] *)
Definition read_params (reader : bytes) (compressed : UseCompression) (check : CheckForCorrectness)
    (phase1_size num_constraints : N) : setup (Groth16Params E) :=
  let '(o, reader) := read_constants compressed check reader in
  try! constants := o in
  let '(alpha_g1, beta_g1, beta_g2) := constants in
  try! parts := split_params reader phase1_size num_constraints compressed in
  let '(in_coeffs_g1, in_coeffs_g2, in_alpha_coeffs_g1, in_beta_coeffs_g1, in_h_g1) := parts in
  let coeffs_g1 := Elements.read_batch (C := G1) compressed check in_coeffs_g1 in
  let coeffs_g2 := Elements.read_batch (C := G2) compressed check in_coeffs_g2 in
  let alpha_coeffs_g1 := Elements.read_batch (C := G1) compressed check in_alpha_coeffs_g1 in
  let beta_coeffs_g1 := Elements.read_batch (C := G1) compressed check in_beta_coeffs_g1 in
  let h_g1 := Elements.read_batch (C := G1) compressed check in_h_g1 in
  try! _ := join_all [joined coeffs_g1; joined coeffs_g2; joined alpha_coeffs_g1; joined beta_coeffs_g1; joined h_g1] in
  try! coeffs_g1 := coeffs_g1 in
  try! coeffs_g2 := coeffs_g2 in
  try! alpha_coeffs_g1 := alpha_coeffs_g1 in
  try! beta_coeffs_g1 := beta_coeffs_g1 in
  try! h_g1 := h_g1 in
  Ok (MkGroth16Params alpha_g1 beta_g1 beta_g2 coeffs_g1 coeffs_g2 alpha_coeffs_g1 beta_coeffs_g1 h_g1).
End groth16.

(** ** Round trip *)

Section roundtrip.
Context {E : PairingEngine} `{!EngineLaws E}.

Notation G1 := (G1Affine E).
Notation G2 := (G2Affine E).

Lemma split_at_app {A} (l l' : list A) : split_at (len l) (l ++ l') = Ok (l, l').
Proof.
  unfold split_at. rewrite (proj2 (N.leb_le _ _)) by (unfold len; rewrite length_app; lia).
  unfold len. by rewrite Nat2N.id, take_app_length, drop_app_length.
Qed.

Section sections.
Context {C : AffineCurve (Fr E)} `{!CurveLaws C}.
Implicit Types v : list C.

Lemma elements_len c v : len (encode c v) = (len v * buffer_size C c)%N.
Proof. unfold len. rewrite encode_length, buffer_size_width. lia. Qed.

Lemma elements_le c v : (len v ≤ len (encode c v))%N.
Proof.
  rewrite elements_len. pose proof (serialized_size_pos (C := C) c) as Hpos. fold (buffer_size C c) in Hpos. nia.
Qed.
(** The part of a section that is read ... *)
Lemma split_first c v n rest :
  (n ≤ len v)%N → (len (encode c v) < u64_modulus)%N →
  split_at (usize_mul (buffer_size C c) n) (encode c v ++ rest) =
  Ok (encode c (take (N.to_nat n) v), encode c (list.drop (N.to_nat n) v) ++ rest).
Proof.
  intros Hn Hl. rewrite elements_len in Hl.
  assert (len (encode c (take (N.to_nat n) v)) = buffer_size C c * n)%N as L1.
  { rewrite elements_len, N.mul_comm. f_equal. unfold len in *. rewrite length_take. lia. }
  assert (n * buffer_size C c ≤ len v * buffer_size C c)%N by nia.
  rewrite u64_mul_exact, <-L1 by lia. rewrite <-(take_drop (N.to_nat n) v) at 2.
  by rewrite encode_app, <-app_assoc, split_at_app.
Qed.
(** ... and the part that is skipped. *)
Lemma split_unused c v n rest :
  (n ≤ len v)%N → (len (encode c v) < u64_modulus)%N →
  split_at (usize_mul (usize_sub (len v) n) (buffer_size C c)) (encode c (list.drop (N.to_nat n) v) ++ rest) =
  Ok (encode c (list.drop (N.to_nat n) v), rest).
Proof.
  intros Hn Hl. rewrite elements_len in Hl. pose proof (serialized_size_pos (C := C) c) as Hpos.
  fold (buffer_size C c) in Hpos. assert (len v < u64_modulus)%N by nia.
  assert ((len v - n) * buffer_size C c ≤ len v * buffer_size C c)%N by nia.
  assert (len (encode c (list.drop (N.to_nat n) v)) = (len v - n) * buffer_size C c)%N as L2.
  { rewrite elements_len. f_equal. unfold len in *. rewrite length_drop. lia. }
  rewrite u64_sub_exact, u64_mul_exact, <-L2 by lia. apply split_at_app.
Qed.
Lemma read_section c check v n :
  Forall in_subgroup v → Forall (passes check) v → Elements.read_batch c check (encode c (take n v)) = Ok (take n v).
Proof. intros Hv Hc. apply read_batch_decodes, decodes_encode; by apply Forall_take. Qed.
End sections.

(** Parameters for [n] powers that every check accepts. *)
Record fits (check : CheckForCorrectness) (n : N) (p : Groth16Params E) : Prop := {
  ft_alpha : in_subgroup (alpha_g1 p) ∧ passes check (alpha_g1 p);
  ft_beta : in_subgroup (beta_g1 p) ∧ passes check (beta_g1 p);
  ft_beta2 : in_subgroup (beta_g2 p) ∧ passes check (beta_g2 p);
  ft_sub : Forall in_subgroup (coeffs_g1 p) ∧ Forall in_subgroup (coeffs_g2 p) ∧
    Forall in_subgroup (alpha_coeffs_g1 p) ∧ Forall in_subgroup (beta_coeffs_g1 p) ∧ Forall in_subgroup (h_g1 p);
  ft_passes : Forall (passes check) (coeffs_g1 p) ∧ Forall (passes check) (coeffs_g2 p) ∧
    Forall (passes check) (alpha_coeffs_g1 p) ∧ Forall (passes check) (beta_coeffs_g1 p) ∧ Forall (passes check) (h_g1 p);
  ft_lengths : len (coeffs_g1 p) = n ∧ len (coeffs_g2 p) = n ∧ len (alpha_coeffs_g1 p) = n ∧ len (beta_coeffs_g1 p) = n;
  ft_h : (len (h_g1 p) + 1 = n)%N;
}.

(** The first [n] powers. *)
Definition restricted (n : N) (p : Groth16Params E) : Groth16Params E :=
  let first {A} : list A → list A := take (N.to_nat n) in
  MkGroth16Params (alpha_g1 p) (beta_g1 p) (beta_g2 p) (first (coeffs_g1 p)) (first (coeffs_g2 p))
    (first (alpha_coeffs_g1 p)) (first (beta_coeffs_g1 p)) (take (N.to_nat (n - 1)) (h_g1 p)).

Lemma split_params_ok c (v1 va vb vh : list G1) (v2 : list G2) n m :
  (len v1 = m)%N → (len v2 = m)%N → (len va = m)%N → (len vb = m)%N → (len vh + 1 = m)%N → (1 ≤ n ≤ m)%N →
  (len (encode c v1 ++ encode c v2 ++ encode c va ++ encode c vb ++ encode c vh) < u64_modulus)%N →
  split_params (E := E) (encode c v1 ++ encode c v2 ++ encode c va ++ encode c vb ++ encode c vh) m n c =
  Ok (encode c (take (N.to_nat n) v1), encode c (take (N.to_nat n) v2), encode c (take (N.to_nat n) va),
      encode c (take (N.to_nat n) vb), encode c (take (N.to_nat (n - 1)) vh)).
Proof.
  intros L1 L2 La Lb Lh Hn. rewrite !len_app. intros Hs. pose proof (elements_le c v1). unfold split_params. cbv zeta.
  rewrite split_first by lia. cbn [bind_outcome]. rewrite <-L1 at 1. rewrite split_unused by lia. cbn [bind_outcome].
  rewrite split_first by lia. cbn [bind_outcome]. rewrite <-L2 at 1. rewrite split_unused by lia. cbn [bind_outcome].
  rewrite split_first by lia. cbn [bind_outcome]. rewrite <-La at 1. rewrite split_unused by lia. cbn [bind_outcome].
  rewrite split_first by lia. cbn [bind_outcome]. rewrite <-Lb at 1. rewrite split_unused by lia. cbn [bind_outcome].
  rewrite <-(app_nil_r (encode c vh)), u64_sub_exact by (change u64_modulus with 18446744073709551616%N in *; lia).
  by rewrite split_first by lia.
Qed.

(** From a file prepared for [phase1_size] powers, the first [size] of them are
    read back, in either compression, under any check that the points pass. *)
Lemma params_roundtrip p c check phase1_size size :
  fits check phase1_size p → (1 ≤ size ≤ phase1_size)%N → (len (write_params p c) < u64_modulus)%N →
  read_params (write_params p c) c check phase1_size size = Ok (restricted size p).
Proof.
  intros Hp Hsize Hlen. destruct Hp as [[A1 A2] [B1 B2] [C1 C2] (S1 & S2 & S3 & S4 & S5) (P1 & P2 & P3 & P4 & P5) (L1 & L2 & L3 & L4) L5].
  unfold read_params, read_constants, write_params in *. rewrite !len_app in Hlen.
  unfold bind at 1. rewrite next_element_ok by done. unfold bind at 1. rewrite next_element_ok by done.
  unfold bind at 1. rewrite next_element_ok by done. unfold ret. cbn [bind_outcome].
  rewrite split_params_ok by (rewrite ?len_app; done || lia). cbn [bind_outcome].
  rewrite !read_section by done. done.
Qed.
End roundtrip.

(** ** From the accumulator *)

Section coefficients.
Context {E : PairingEngine} `{!EngineLaws E, !Domains E}.

Notation G1 := (G1Affine E).
Notation G2 := (G2Affine E).

Lemma slice_first {A} n (l : list A) : slice 0 n l = if (n <=? len l)%N then Ok (take (N.to_nat n) l) else Panic.
Proof.
  unfold slice. rewrite N.sub_0_r. change (list.drop (N.to_nat 0) l) with l.
  by rewrite (proj2 (N.leb_le 0 n)) by lia.
Qed.

Lemma index_ok {A} (l : list A) i x : index l i = Ok x ↔ l !! i = Some x.
Proof. unfold index. destruct (l !! i); split; congruence. Qed.

Lemma collect_mapped {A B} (f : A → setup B) (P : A → B → Prop) l :
  (∀ a, a ∈ l → ∃ b, f a = Ok b ∧ P a b) → ∃ r, collect (f <$> l) = Ok r ∧ Forall2 P l r.
Proof.
  induction l as [|a l IH]; intros Hf; [exists []; by split; [|constructor]|].
  destruct (Hf a) as (b & Hb & Hp); [left|]. destruct IH as (r & Hr & Hall); [intros x Hx; apply Hf; by right|].
  exists (b :: r). rewrite fmap_cons. cbn [collect]. rewrite Hb. cbn [bind_outcome]. rewrite Hr.
  split; [done|by constructor].
Qed.
Lemma collect_panics {A B} (f : A → setup B) l a :
  a ∈ l → f a = Panic → (∀ x e, f x ≠ Err e) → collect (f <$> l) = Panic.
Proof.
  intros Ha Hp Hf. induction Ha as [a l|a x l _ IH]; rewrite fmap_cons; cbn [collect]; [by rewrite Hp|].
  specialize (Hf x). destruct (f x) as [b|e|]; cbn [bind_outcome]; [|by destruct (Hf e)|done]. by rewrite IH.
Qed.

(** An element of the query. *)
Lemma h_element_ok (powers : list G1) n i :
  (1 ≤ n)%N → (2 * n < u64_modulus)%N → (2 * n ≤ len powers + 1)%N → (i < n - 1)%N →
  ∃ x y, h_element powers n i = Ok (add y (neg x)) ∧
    powers !! N.to_nat i = Some x ∧ powers !! N.to_nat (i + n) = Some y.
Proof.
  intros Hn Hm Hl Hi. unfold h_element. rewrite u64_add_exact by lia. unfold len in Hl.
  destruct (lookup_lt_is_Some_2 powers (N.to_nat i)) as [x Hx]; [lia|].
  destruct (lookup_lt_is_Some_2 powers (N.to_nat (i + n))) as [y Hy]; [lia|].
  exists x, y. rewrite (proj2 (index_ok _ _ y) Hy). cbn [bind_outcome]. by rewrite (proj2 (index_ok _ _ x) Hx).
Qed.

(** Every power is the next half's less the query. *)
Lemma h_query_ok (powers : list G1) n :
  (1 ≤ n)%N → (2 * n < u64_modulus)%N → (2 * n ≤ len powers + 1)%N →
  ∃ h, h_query_groth16 powers n = Ok h ∧ (len h + 1 = n)%N ∧
    ∀ i q x y, h !! i = Some q → powers !! i = Some x → powers !! (i + N.to_nat n) = Some y → add q x = y.
Proof.
  intros Hn Hm Hl. unfold h_query_groth16. rewrite u64_sub_exact by lia.
  destruct (collect_mapped (h_element powers n) (λ i q, ∃ x y, powers !! N.to_nat i = Some x ∧ powers !! N.to_nat (i + n) = Some y ∧
    q = add y (neg x)) (u64_range 0 (n - 1))) as (h & Hh & Hall); [|exists h; split; [exact Hh|split]].
  - intros i Hi%elem_of_u64_range. destruct (h_element_ok powers n i) as (x & y & Hq & Hx & Hy); [lia..|].
    exists (add y (neg x)). split; [done|by exists x, y].
  - apply Forall2_length in Hall. rewrite u64_range_length in Hall. unfold len. lia.
  - intros i q x y Hq Hx Hy. destruct (Forall2_lookup_r _ _ _ _ _ Hall Hq) as (j & Hj & x' & y' & Hx' & Hy' & ->).
    pose proof (lookup_lt_Some _ _ _ Hj) as Hlt. rewrite u64_range_length in Hlt.
    rewrite u64_range_lookup in Hj by done. injection Hj as <-.
    replace (N.to_nat (0 + N.of_nat i)) with i in Hx' by lia.
    replace (N.to_nat (0 + N.of_nat i + n)) with (i + N.to_nat n) in Hy' by lia.
    rewrite Hx in Hx'. rewrite Hy in Hy'. injection Hx' as ->. injection Hy' as ->.
    by rewrite <-add_assoc, (add_comm (neg _)), add_neg, add_zero.
Qed.
Lemma h_query_short (powers : list G1) n :
  (2 ≤ n)%N → (2 * n < u64_modulus)%N → (len powers + 1 < 2 * n)%N → h_query_groth16 powers n = Panic.
Proof.
  intros Hn Hm Hl. unfold h_query_groth16. rewrite u64_sub_exact by lia.
  apply (collect_panics _ _ (n - 2)%N); [apply elem_of_u64_range; lia| |].
  - unfold h_element. rewrite u64_add_exact by lia. unfold index at 1. unfold len in Hl.
    by rewrite lookup_ge_None_2 by lia.
  - intros x e. unfold h_element, index. by destruct (powers !! N.to_nat (usize_add x n)), (powers !! N.to_nat x).
Qed.

(** What [new] relies on: enough powers of each kind. *)
Definition enough_powers (n : N) (tau : list G1) (tau2 : list G2) (alpha beta : list G1) : bool :=
  (2 * n <=? len tau + 1)%N && (n <=? len tau2)%N && (n <=? len alpha)%N && (n <=? len beta)%N.

Lemma new_enough n tau tau2 alpha beta b2 domain :
  new_domain n = Some domain → (2 ≤ n)%N → (2 * n < u64_modulus)%N → enough_powers n tau tau2 alpha beta = true →
  ∃ a b h, alpha !! 0 = Some a ∧ beta !! 0 = Some b ∧ h_query_groth16 tau n = Ok h ∧ (len h + 1 = n)%N ∧
    new n tau tau2 alpha beta b2 =
      Ok (MkGroth16Params a b b2 (ifft _ domain (take (N.to_nat n) tau)) (ifft _ domain (take (N.to_nat n) tau2))
            (ifft _ domain (take (N.to_nat n) alpha)) (ifft _ domain (take (N.to_nat n) beta)) h) ∧
    ∀ i q x y, h !! i = Some q → tau !! i = Some x → tau !! (i + N.to_nat n) = Some y → add q x = y.
Proof.
  unfold enough_powers, new, thread_coeffs. intros Hdomain Hn Hsize. rewrite !andb_true_iff, !N.leb_le.
  intros [[[Ht Ht2] Ha] Hb]. rewrite Hdomain. cbn [bind_outcome]. rewrite !slice_first.
  destruct (h_query_ok tau n) as (h & Hh & Hhl & Hq); [lia..|]. rewrite Hh.
  rewrite !(proj2 (N.leb_le _ _)) by lia. cbn [bind_outcome].
  destruct alpha as [|a alpha], beta as [|b beta]; [unfold len in *; cbn [length] in *; lia..|].
  by exists a, b, h.
Qed.

(** C19. Parameters from the accumulator: with enough powers - twice as many of
    tau in G1 as of the others - they are the coefficients of the first [n]
    powers, alpha and beta, and the query whose elements are the differences
    of powers [n] apart.  With too few there is no panic, as the documentation
    has it, but an error: the panic is that of a thread. *)
Theorem params_from_powers n tau tau2 alpha beta b2 domain
    (Hdomain : new_domain n = Some domain) (Hn : (2 ≤ n)%N) (Hsize : (2 * n < u64_modulus)%N) :
  if enough_powers n tau tau2 alpha beta then
    ∃ a b h, alpha !! 0 = Some a ∧ beta !! 0 = Some b ∧ (len h + 1 = n)%N ∧
      new n tau tau2 alpha beta b2 =
        Ok (MkGroth16Params a b b2 (ifft _ domain (take (N.to_nat n) tau)) (ifft _ domain (take (N.to_nat n) tau2))
              (ifft _ domain (take (N.to_nat n) alpha)) (ifft _ domain (take (N.to_nat n) beta)) h) ∧
      ∀ i q x y, h !! i = Some q → tau !! i = Some x → tau !! (i + N.to_nat n) = Some y → add q x = y
  else new n tau tau2 alpha beta b2 = Err CrossBeamError.
Proof.
  destruct (enough_powers n tau tau2 alpha beta) eqn:He.
  - destruct (new_enough n tau tau2 alpha beta b2 domain) as (a & b & h & Ha & Hb & _ & H); try done. by exists a, b, h.
  - unfold enough_powers in He. unfold new, thread_coeffs. rewrite Hdomain. cbn [bind_outcome]. rewrite !slice_first.
    destruct (N.leb_spec (2 * n) (len tau + 1)) as [Ht|Ht]; cbn [andb] in He.
    + destruct (h_query_ok tau n) as (h & Hh & _); [lia..|]. rewrite Hh.
      by destruct (n <=? len tau)%N, (n <=? len tau2)%N, (n <=? len alpha)%N, (n <=? len beta)%N.
    + rewrite (h_query_short tau n) by lia.
      by destruct (n <=? len tau)%N, (n <=? len tau2)%N, (n <=? len alpha)%N, (n <=? len beta)%N.
Qed.
End coefficients.

(** ** Parameters of the toy engine *)

#[local] Existing Instance Toy.engine_laws.

Definition toy_domains : Domains Toy.engine := {|
  EvaluationDomain := unit;
  new_domain n := if (n <=? 4)%N then Some tt else None;
  ifft _ _ l := reverse l;
|}.
#[local] Existing Instance toy_domains.

Definition toy_g1 (l : list Toy.Z5) : list (G1Affine Toy.engine) := l.
Definition toy_g2 (l : list Toy.Z5) : list (G2Affine Toy.engine) := l.
Definition toy_params : Groth16Params Toy.engine :=
  MkGroth16Params (Toy.Z2 : G1Affine Toy.engine) (Toy.Z3 : G1Affine Toy.engine) (Toy.Z3 : G2Affine Toy.engine)
    (toy_g1 [Toy.Z1; Toy.Z2; Toy.Z4]) (toy_g2 [Toy.Z1; Toy.Z2; Toy.Z4]) (toy_g1 [Toy.Z2; Toy.Z4; Toy.Z3])
    (toy_g1 [Toy.Z3; Toy.Z1; Toy.Z2]) (toy_g1 [Toy.Z1; Toy.Z4]).

Definition toy_new (tau : list Toy.Z5) : setup (Groth16Params Toy.engine) :=
  new 2 (toy_g1 tau) (toy_g2 [Toy.Z1; Toy.Z2]) (toy_g1 [Toy.Z3; Toy.Z1]) (toy_g1 [Toy.Z4; Toy.Z3])
    (Toy.Z4 : G2Affine Toy.engine).
Lemma params_from_powers_witness :
  (∃ p, toy_new [Toy.Z1; Toy.Z2; Toy.Z4] = Ok p ∧ h_g1 p = toy_g1 [Toy.Z3]) ∧
  toy_new [Toy.Z1; Toy.Z2] = Err CrossBeamError.
Proof.
  pose proof (λ tau, params_from_powers (E := Toy.engine) 2 tau (toy_g2 [Toy.Z1; Toy.Z2]) (toy_g1 [Toy.Z3; Toy.Z1])
    (toy_g1 [Toy.Z4; Toy.Z3]) (Toy.Z4 : G2Affine Toy.engine) tt eq_refl ltac:(lia) ltac:(done)) as H.
  split; [|exact (H (toy_g1 [Toy.Z1; Toy.Z2]))].
  destruct (H (toy_g1 [Toy.Z1; Toy.Z2; Toy.Z4])) as (a & b & h & _ & _ & Hh & Hnew & Hq).
  eexists. split; [exact Hnew|]. cbn [h_g1]. destruct h as [|q [|? h]]; [done| |unfold len in Hh; cbn [length] in Hh; lia].
  specialize (Hq 0 q _ _ eq_refl eq_refl eq_refl). by destruct q.
Defined.
