(* ===== verification/Polynomial.v ===== *)
(** * Polynomials of a circuit

    [phase2/src/polynomial.rs]: the polynomials of a circuit in QAP form,
    evaluated at the coefficients of the first phase.  The sums are those of
    parallel folds; addition does not depend on the order. *)

From S2P Require Import Prelude Environment Phase1Parameters Curve Elements Keypair Groth16Params.

(** [Index] of [snarkvm_r1cs]. *)
Inductive Index :=
| Public (i : N)
| Private (i : N).

Section polynomial.
Context {E : PairingEngine}.

Notation row := (list (Fr E * Index)).

(** The position of a variable among the coefficients. *)
Definition coefficient_index (num_inputs : N) (lag : Index) : N :=
  match lag with Public i => i | Private i => usize_add num_inputs i end.

(** [dot_product] *)
Definition dot_product {C : AffineCurve (Fr E)} (input : row) (coeffs : list C) (num_inputs : N) : setup C :=
  foldl (λ sum '(coeff, lag),
    try! sum := sum in
    try! q := index coeffs (N.to_nat (coefficient_index num_inputs lag)) in
    Ok (add sum (mul q coeff))) (Ok zero) input.

(** [dot_product_vec] *)
Definition dot_product_vec {C : AffineCurve (Fr E)} (input : list row) (coeffs : list C) (num_inputs : N)
    : setup (list C) :=
  collect ((λ row, dot_product row coeffs num_inputs) <$> input).

(** [dot_product_ext] *)
Definition dot_product_ext (at_ : list row) (beta_coeffs_g1 : list (G1Affine E)) (bt : list row)
    (alpha_coeffs_g1 : list (G1Affine E)) (ct : list row) (coeffs_g1 : list (G1Affine E)) (num_inputs : N)
    : setup (list (G1Affine E)) :=
  collect ((λ '(at_, (bt, ct)),
    try! x := dot_product at_ beta_coeffs_g1 num_inputs in
    try! y := dot_product bt alpha_coeffs_g1 num_inputs in
    try! z := dot_product ct coeffs_g1 num_inputs in
    Ok (add (add x y) z)) <$> zip at_ (zip bt ct)).

(** [eval] *)
Definition eval (coeffs_g1 : list (G1Affine E)) (coeffs_g2 : list (G2Affine E))
    (alpha_coeffs_g1 beta_coeffs_g1 : list (G1Affine E)) (at_ bt ct : list row) (num_inputs : N)
    : setup (list (G1Affine E) * list (G1Affine E) * list (G2Affine E) * list (G1Affine E) * list (G1Affine E)) :=
  try! a_g1 := dot_product_vec at_ coeffs_g1 num_inputs in
  try! b_g1 := dot_product_vec bt coeffs_g1 num_inputs in
  try! b_g2 := dot_product_vec bt coeffs_g2 num_inputs in
  try! ext := dot_product_ext at_ beta_coeffs_g1 bt alpha_coeffs_g1 ct coeffs_g1 num_inputs in
  try! r := split_at num_inputs ext in
  let '(gamma_abc_g1, l) := r in
  Ok (a_g1, b_g1, b_g2, gamma_abc_g1, l).
End polynomial.

(** ** Sums *)

Section sums.
Context {E : PairingEngine} {C : AffineCurve (Fr E)} `{!CurveLaws C}.

Notation row := (list (Fr E * Index)).
Implicit Types (r : row) (v : list C).

Definition term v n (x : Fr E * Index) : setup C :=
  try! q := index v (N.to_nat (coefficient_index n x.2)) in Ok (mul q x.1).

Lemma dot_product_from v n r (start : setup C) :
  foldl (λ sum '(coeff, lag),
    try! sum := sum in
    try! q := index v (N.to_nat (coefficient_index n lag)) in
    Ok (add sum (mul q coeff))) start r =
  (try! a := start in try! b := dot_product r v n in Ok (add a b)).
Proof.
  unfold dot_product. revert start. induction r as [|[x i] r IH]; intros start; cbn [foldl].
  - destruct start; cbn [bind_outcome]; [by rewrite add_zero | done..].
  - rewrite IH. rewrite (IH (try! sum := Ok zero in _)). cbn [bind_outcome].
    destruct start as [a| |]; cbn [bind_outcome]; [|done..].
    destruct (index v _) as [q| |]; cbn [bind_outcome]; [|done..].
    destruct (foldl _ (Ok zero) r) as [b| |]; cbn [bind_outcome]; [|done..].
    by rewrite (add_comm zero), add_zero, add_assoc.
Qed.
Lemma dot_product_nil v n : dot_product [] v n = Ok zero.
Proof. done. Qed.
Lemma dot_product_cons v n x r :
  dot_product (x :: r) v n = (try! a := term v n x in try! b := dot_product r v n in Ok (add a b)).
Proof.
  destruct x as [x i]. unfold dot_product at 1. cbn [foldl]. rewrite dot_product_from. unfold term. cbn [bind_outcome fst snd].
  destruct (index v _) as [q| |]; cbn [bind_outcome]; [|done..].
  destruct (dot_product r v n); cbn [bind_outcome]; [|done..]. by rewrite (add_comm zero), add_zero.
Qed.
Lemma dot_product_app r r' v n :
  dot_product (r ++ r') v n =
  (try! a := dot_product r v n in try! b := dot_product r' v n in Ok (add a b)).
Proof. unfold dot_product at 1. rewrite foldl_app. apply dot_product_from. Qed.

Lemma term_no_error v n x e : term v n x ≠ Err e.
Proof. unfold term, index. by destruct (v !! _). Qed.
Lemma no_error r v n e : dot_product r v n ≠ Err e.
Proof.
  induction r as [|x r IH]; [done|]. rewrite dot_product_cons. pose proof (term_no_error v n x e).
  destruct (term v n x); cbn [bind_outcome]; [|done..]. by destruct (dot_product r v n).
Qed.

(** Every variable has a coefficient. *)
Definition covered (n m : N) r : Prop := Forall (λ x, (coefficient_index n x.2 < m)%N) r.

Lemma dot_product_covered r v n :
  covered n (len v) r → Forall in_subgroup v → ∃ q, dot_product r v n = Ok q ∧ in_subgroup q.
Proof.
  intros Hr Hv. induction Hr as [|x r Hx _ (b & Hb & Gb)]; [exists zero; split; [done|apply zero_in_subgroup]|].
  rewrite dot_product_cons. unfold term. unfold len in Hx.
  destruct (lookup_lt_is_Some_2 v (N.to_nat (coefficient_index n x.2))) as [q Hq]; [lia|].
  unfold index. rewrite Hq. cbn [bind_outcome]. rewrite Hb. cbn [bind_outcome].
  eexists. split; [done|]. apply add_in_subgroup; [|done]. apply mul_in_subgroup. by eapply (Forall_lookup_1 _ v).
Qed.

(** A dot product may be computed in any number of parts and in any order of
    its terms, as the parallel fold does: two inputs one after the other give
    the sum of their results, a permutation gives the same result, and a
    variable without a coefficient is a panic wherever it stands. *)
Theorem dot_product_any_order r r' v n (Hr : r ≡ₚ r') :
  dot_product r v n = dot_product r' v n ∧
  ∀ l l', r = l ++ l' →
    dot_product r v n = (try! a := dot_product l v n in try! b := dot_product l' v n in Ok (add a b)).
Proof.
  split; [|intros l l' ->; apply dot_product_app].
  induction Hr as [|x r r' _ IH|x y r|r r' r'' _ IH1 _ IH2]; [done| | |by rewrite IH1].
  - by rewrite !dot_product_cons, IH.
  - rewrite !dot_product_cons. pose proof (term_no_error v n x) as Hx. pose proof (term_no_error v n y) as Hy.
    destruct (term v n x) as [a|e|], (term v n y) as [b|e'|]; cbn [bind_outcome]; try done;
      try (by destruct (Hx e)); try (by destruct (Hy e')).
    + destruct (dot_product r v n) as [c| |]; cbn [bind_outcome]; [|done..].
      by rewrite !add_assoc, (add_comm a).
Qed.
End sums.

#[local] Existing Instance Toy.engine_laws.

Lemma dot_product_any_order_witness :
  let x : Fr Toy.engine * Index := (Toy.Z2 : Fr Toy.engine, Private 1) in
  let y : Fr Toy.engine * Index := (Toy.Z3 : Fr Toy.engine, Public 0) in
  let v : list (G1Affine Toy.engine) := [Toy.Z1; Toy.Z3; Toy.Z4] in
  dot_product [x; y] v 1 = dot_product [y; x] v 1 ∧
  dot_product [x; y] v 1 = Ok (Toy.Z1 : G1Affine Toy.engine).
Proof.
  intros x y v. pose proof (dot_product_any_order [x; y] [y; x] v 1 ltac:(constructor)) as [Hp Hs]. split; [exact Hp|].
  rewrite (Hs [x] [y] eq_refl). done.
Defined.
