(* ===== verification/MPCParameters.v ===== *)
(** * The parameters of the second phase

    [phase2/src/parameters.rs] on values: the proving key of a Groth16 circuit
    with the contributions to it, contributing, and the verification of one
    set of parameters against the one before. *)

From S2P Require Import Prelude Environment Phase1Parameters Curve Elements MultiExp Keypair Groth16Params Polynomial.

(** [VerifyingKey] and [ProvingKey] of [snarkvm_algorithms]. *)
Record VerifyingKey (E : PairingEngine) := MkVerifyingKey {
  alpha_g1 : G1Affine E;
  beta_g2 : G2Affine E;
  gamma_g2 : G2Affine E;
  delta_g2 : G2Affine E;
  gamma_abc_g1 : list (G1Affine E);
}.
Arguments MkVerifyingKey {_}.
Arguments alpha_g1 {_}.
Arguments beta_g2 {_}.
Arguments gamma_g2 {_}.
Arguments delta_g2 {_}.
Arguments gamma_abc_g1 {_}.

Record ProvingKey (E : PairingEngine) := MkProvingKey {
  vk : VerifyingKey E;
  beta_g1 : G1Affine E;
  delta_g1 : G1Affine E;
  a_query : list (G1Affine E);
  b_g1_query : list (G1Affine E);
  b_g2_query : list (G2Affine E);
  h_query : list (G1Affine E);
  l_query : list (G1Affine E);
}.
Arguments MkProvingKey {_}.
Arguments vk {_}.
Arguments beta_g1 {_}.
Arguments delta_g1 {_}.
Arguments a_query {_}.
Arguments b_g1_query {_}.
Arguments b_g2_query {_}.
Arguments h_query {_}.
Arguments l_query {_}.

Record MPCParameters (E : PairingEngine) := MkMPCParameters {
  params : ProvingKey E;
  cs_hash : bytes;
  contributions : list (PublicKey E);
}.
Arguments MkMPCParameters {_}.
Arguments params {_}.
Arguments cs_hash {_}.
Arguments contributions {_}.

(** [KeypairAssembly] of [snarkvm_r1cs]: a circuit in QAP form. *)
Record KeypairAssembly (E : PairingEngine) := MkKeypairAssembly {
  num_public_variables : N;
  num_private_variables : N;
  at_ : list (list (Fr E * Index));
  bt : list (list (Fr E * Index));
  ct : list (list (Fr E * Index));
}.
Arguments MkKeypairAssembly {_}.
Arguments num_public_variables {_}.
Arguments num_private_variables {_}.
Arguments at_ {_}.
Arguments bt {_}.
Arguments ct {_}.

(** [CanonicalSerialize] and [CanonicalDeserialize] of the keys and of [u64], of
    [snarkvm_algorithms] and [snarkvm_utilities]. *)
Class KeyFormat (E : PairingEngine) := {
  serialize_vk : VerifyingKey E → bytes;
  deserialize_vk : on bytes (VerifyingKey E);
  serialize_pk : ProvingKey E → bytes;
  deserialize_pk : on bytes (ProvingKey E);
  serialize_u64 : N → bytes;
  deserialize_u64 : on bytes N;
}.

(** ** Checks *)

Definition ensure_same_length {A B} (a : list A) (b : list B) : setup unit :=
  if negb (length a =? length b)%nat then Err (Phase2 Phase2InvalidLength) else Ok tt.

Definition ensure_unchanged {A} `{EqDecision A} (before after : A) (kind : InvariantKind) : setup unit :=
  if negb (bool_decide (before = after)) then Err (Phase2 (BrokenInvariant kind)) else Ok tt.

(** The elements in order, the first difference is the error. *)
Fixpoint all_unchanged {A} `{EqDecision A} (before after : list A) (kind : InvariantKind) : setup unit :=
  match before, after with
  | b :: before, a :: after => try! _ := ensure_unchanged b a kind in all_unchanged before after kind
  | _, _ => Ok tt
  end.
Definition ensure_unchanged_vec {A} `{EqDecision A} (before after : list A) (kind : InvariantKind) : setup unit :=
  if negb (length before =? length after)%nat then Err (Phase2 Phase2InvalidLength)
  else all_unchanged before after kind.

(** [contains_contribution] *)
Definition contains_contribution (contributions : list bytes) (my_contribution : bytes) : bool :=
  existsb (λ c, bool_decide (c = my_contribution)) contributions.

Section mpc.
Context {E : PairingEngine} `{!Randomness E, !HashToCurve E, !KeyFormat E}.

Notation G1 := (G1Affine E).
Notation G2 := (G2Affine E).
Notation g1 := (prime_subgroup_generator : G1).
Notation g2 := (prime_subgroup_generator : G2).

(** [verify_transcript] from the [i]-th contribution on. *)
Fixpoint verify_contributions (cs_hash : bytes) (contributions : list (PublicKey E)) (i : nat) (old_delta : G1)
    (rest : list (PublicKey E)) : setup (list bytes) :=
  match rest with
  | [] => Ok []
  | pubkey :: rest =>
      let hash := hash_cs_pubkeys cs_hash (take i contributions) (s pubkey) (s_delta pubkey) in
      try! _ := ensure_unchanged (transcript pubkey) hash Transcript in
      let r := hash_to_curve (hex_encode hash) in
      try! _ := check_same_ratio (s pubkey, s_delta pubkey) (r, r_delta pubkey) "Incorrect signature of knowledge" in
      try! _ := check_same_ratio (old_delta, delta_after pubkey) (r, r_delta pubkey) "Inconsistent G1 Delta" in
      try! result := verify_contributions cs_hash contributions (S i) (delta_after pubkey) rest in
      Ok (Keypair.hash pubkey :: result)
  end.
Definition verify_transcript (cs_hash : bytes) (contributions : list (PublicKey E)) : setup (list bytes) :=
  verify_contributions cs_hash contributions 0 g1 contributions.

(** [MPCParameters::contribute]; it also takes the generator and gives it
    back.  A zero delta has no inverse. *)
Definition contribute (rng : Rng) : on (MPCParameters E) (bytes * Rng) := λ p,
  let k := params p in
  let '(keypair, rng) := keypair_new (delta_g1 k) (cs_hash p) (contributions p) rng in
  let delta := delta (private_key keypair) in
  match fr_inverse delta with
  | None => (Panic, p)
  | Some delta_inv =>
      (let! l := lift (batch_mul (l_query k) delta_inv) in
       let! h := lift (batch_mul (h_query k) delta_inv) in
       let v := vk k in
       let v := MkVerifyingKey (alpha_g1 v) (beta_g2 v) (gamma_g2 v) (mul (delta_g2 v) delta) (gamma_abc_g1 v) in
       let k := MkProvingKey v (beta_g1 k) (mul (delta_g1 k) delta) (a_query k) (b_g1_query k) (b_g2_query k) h l in
       modify (λ p, MkMPCParameters k (cs_hash p) (contributions p ++ [public_key keypair])) ;;;
       ret (Keypair.hash (public_key keypair), rng)) p
  end.

(** [MPCParameters::verify]; the state is the generator of the random
    combinations. *)
Definition verify (before after : MPCParameters E) : on Rng (list bytes) :=
  let b := params before in
  let a := params after in
  let! pubkey := lift (ok_or (last (contributions after)) (Phase2 NoContributions)) in
  lift (ensure_unchanged (delta_after pubkey) (delta_g1 a) DeltaG1) ;;;
  lift (check_same_ratio (g1, delta_after pubkey) (g2, delta_g2 (vk a)) "Inconsistent G2 Delta") ;;;
  let! kept := lift (slice 0 (len (contributions before)) (contributions after)) in
  lift (ensure_unchanged (contributions before) kept Contributions) ;;;
  lift (ensure_unchanged (cs_hash before) (cs_hash after) CsHash) ;;;
  lift (ensure_same_length (h_query b) (h_query a)) ;;;
  lift (ensure_same_length (l_query b) (l_query a)) ;;;
  lift (ensure_unchanged (alpha_g1 (vk b)) (alpha_g1 (vk a)) AlphaG1Unchanged) ;;;
  lift (ensure_unchanged (beta_g1 b) (beta_g1 a) BetaG1Unchanged) ;;;
  lift (ensure_unchanged (beta_g2 (vk b)) (beta_g2 (vk a)) BetaG2Unchanged) ;;;
  lift (ensure_unchanged (gamma_g2 (vk b)) (gamma_g2 (vk a)) GammaG2) ;;;
  lift (ensure_unchanged_vec (gamma_abc_g1 (vk b)) (gamma_abc_g1 (vk a)) GammaAbcG1) ;;;
  lift (ensure_unchanged_vec (a_query b) (a_query a) AlphaG1Query) ;;;
  lift (ensure_unchanged_vec (b_g1_query b) (b_g1_query a) BetaG1Query) ;;;
  lift (ensure_unchanged_vec (b_g2_query b) (b_g2_query a) BetaG2Query) ;;;
  let! pairs := merge_pairs (h_query b) (h_query a) in
  lift (check_same_ratio pairs (delta_g2 (vk a), delta_g2 (vk b)) "H_query ratio check failed") ;;;
  let! pairs := merge_pairs (l_query b) (l_query a) in
  lift (check_same_ratio pairs (delta_g2 (vk a), delta_g2 (vk b)) "L_query ratio check failed") ;;;
  lift (verify_transcript (cs_hash before) (contributions after)).

(** ** Files and new parameters *)

(** [MPCParameters::write]: what is appended to the writer. *)
Definition mpc_write (p : MPCParameters E) : bytes :=
  serialize_pk (params p) ++ cs_hash p ++ write_batch (contributions p).

(** [MPCParameters::read] *)
Definition mpc_read : on bytes (MPCParameters E) :=
  let! params := deserialize_pk in
  let! cs_hash := read_exact 64 in
  let! contributions := read_batch in
  ret (MkMPCParameters params cs_hash contributions).

(** [hash_params] *)
Definition hash_params (params : ProvingKey E) : bytes := blake2b (serialize_pk params).

(** [MPCParameters::new] *)
Definition mpc_new (assembly : KeypairAssembly E) (p : Groth16Params E) : setup (MPCParameters E) :=
  try! r := eval (coeffs_g1 p) (coeffs_g2 p) (alpha_coeffs_g1 p) (beta_coeffs_g1 p)
              (at_ assembly) (bt assembly) (ct assembly) (num_public_variables assembly) in
  let '(a_g1, b_g1, b_g2, gamma_abc_g1, l) := r in
  if existsb is_zero l then Err SynthesisError
  else
    let vk := MkVerifyingKey (Groth16Params.alpha_g1 p) (Groth16Params.beta_g2 p) g2 g2 gamma_abc_g1 in
    let params := MkProvingKey vk (Groth16Params.beta_g1 p) g1 a_g1 b_g1 b_g2 (h_g1 p) l in
    Ok (MkMPCParameters params (hash_params params) []).
End mpc.

(** ** Circuits *)

(** [KeypairAssembly] as a constraint system of [snarkvm_r1cs], and its
    serialization, which another curve with the same scalars can read. *)
Class Assemblies (A E : PairingEngine) := {
  alloc_input : Fr A → on (KeypairAssembly A) unit;
  enforce : list (Fr A * Index) → list (Fr A * Index) → list (Fr A * Index) → on (KeypairAssembly A) unit;
  serialize_assembly : KeypairAssembly A → setup bytes;
  deserialize_assembly : bytes → setup (KeypairAssembly E);
}.

Section circuits.
Context {A E : PairingEngine} `{!Randomness E, !HashToCurve E, !KeyFormat E, !Assemblies A E}.

(** [circuit_to_qap]; a circuit adds its variables and constraints. *)
Definition circuit_to_qap (circuit : on (KeypairAssembly A) unit) : setup (KeypairAssembly E) :=
  let '(o, assembly) :=
    (expect (alloc_input fr_one) ;;;
     expect circuit ;;;
     let! n := gets num_public_variables in
     for_each (λ i, enforce [(fr_one, Public i)] [] []) (u64_range 0 n))
    (MkKeypairAssembly 0 0 [] [] []) in
  try! _ := o in
  try! serialized := expect' (serialize_assembly assembly) in
  deserialize_assembly serialized.

(** [MPCParameters::new_from_buffer] *)
Definition new_from_buffer (circuit : on (KeypairAssembly A) unit) (transcript : bytes) (compressed : UseCompression)
    (check : CheckForCorrectness) (phase1_size phase2_size : N) : setup (MPCParameters E) :=
  try! assembly := circuit_to_qap circuit in
  try! params := read_params transcript compressed check phase1_size phase2_size in
  mpc_new assembly params.
End circuits.
