(* ===== verification/DeltaContributions.v ===== *)
(** * Contributions of the second phase

    A contribution takes delta to a multiple of itself and the [h] and [l]
    queries to the inverse multiple; the verification accepts it, and whatever
    it accepts is of this form. *)

From S2P Require Import Prelude Environment Phase1Parameters Curve Elements MultiExp Keypair MPCParameters.
From Stdlib Require Import Strings.Byte.

Lemma ensure_unchanged_ok {A} `{EqDecision A} (b a : A) kind u : ensure_unchanged b a kind = Ok u ↔ b = a.
Proof. unfold ensure_unchanged. case_bool_decide; [by destruct u | done]. Qed.
Lemma all_unchanged_ok {A} `{EqDecision A} (b a : list A) kind u :
  length b = length a → all_unchanged b a kind = Ok u ↔ b = a.
Proof.
  revert a. induction b as [|x b IH]; intros [|y a] Hlen; try done; [by destruct u|].
  cbn [all_unchanged]. rewrite bind_outcome_ok. injection Hlen as Hlen. split.
  - intros (v & ->%ensure_unchanged_ok & Hr). by apply IH in Hr as ->.
  - intros [= -> ->]. exists tt. split; [by apply ensure_unchanged_ok | by apply IH].
Qed.
Lemma ensure_unchanged_vec_ok {A} `{EqDecision A} (b a : list A) kind u :
  ensure_unchanged_vec b a kind = Ok u ↔ b = a.
Proof.
  unfold ensure_unchanged_vec. destruct (Nat.eqb_spec (length b) (length a)) as [Hl|Hl]; cbn [negb].
  - by apply all_unchanged_ok.
  - split; [done | by intros ->].
Qed.
Lemma ensure_same_length_ok {A B} (a : list A) (b : list B) u : ensure_same_length a b = Ok u ↔ length a = length b.
Proof.
  unfold ensure_same_length. destruct (Nat.eqb_spec (length a) (length b)); [by destruct u | done].
Qed.

Section delta.
Context {E : PairingEngine} `{!Randomness E, !HashToCurve E}.
Context `{!EngineLaws E, !RandomnessLaws E, !HashToCurveLaws E}.
Implicit Types (p before after : MPCParameters E) (k : PublicKey E).

Notation G1 := (G1Affine E).
Notation G2 := (G2Affine E).
Notation g1 := (prime_subgroup_generator : G1).
Notation g2 := (prime_subgroup_generator : G2).

Lemma check_same_ratio_ok (s t : G1) (a b : G2) err u :
  check_same_ratio (s, t) (a, b) err = Ok u ↔ pairing s b = pairing t a.
Proof. unfold check_same_ratio. cbn [fst snd]. case_bool_decide; [by destruct u | done]. Qed.

(** ** The transcript *)

(** The delta that the next contribution starts from. *)
Definition last_delta (d : G1) (l : list (PublicKey E)) : G1 := default d (delta_after <$> last l).

Lemma last_delta_cons d k l : last_delta d (k :: l) = last_delta (delta_after k) l.
Proof. unfold last_delta. rewrite last_cons. by destruct (last l). Qed.
Lemma last_delta_snoc d k l : last_delta d (l ++ [k]) = delta_after k.
Proof. unfold last_delta. by rewrite last_snoc. Qed.

Lemma verify_contributions_prefix c l l' i d rest :
  i + length rest ≤ length l →
  verify_contributions c (l ++ l') i d rest = verify_contributions c l i d rest.
Proof.
  revert i d. induction rest as [|k rest IH]; intros i d Hi; [done|]. cbn [verify_contributions length] in *.
  rewrite take_app_le by lia. by rewrite IH by lia.
Qed.
Lemma verify_contributions_app c l i d rest rest' :
  verify_contributions c l i d (rest ++ rest') =
  (try! hs := verify_contributions c l i d rest in
   try! hs' := verify_contributions c l (i + length rest) (last_delta d rest) rest' in
   Ok (hs ++ hs')).
Proof.
  revert i d. induction rest as [|k rest IH]; intros i d; cbn [app].
  - cbn [verify_contributions length bind_outcome]. rewrite Nat.add_0_r. change (last_delta d []) with d.
    by destruct (verify_contributions c l i d rest').
  - rewrite last_delta_cons. cbn [verify_contributions length].
    rewrite IH. replace (i + S (length rest)) with (S i + length rest) by lia.
    destruct (ensure_unchanged _ _ _); cbn [bind_outcome]; [|done..].
    destruct (check_same_ratio _ _ "Incorrect signature of knowledge"); cbn [bind_outcome]; [|done..].
    destruct (check_same_ratio _ _ _); cbn [bind_outcome]; [|done..].
    destruct (verify_contributions c l (S i) _ rest); cbn [bind_outcome]; [|done..].
    by destruct (verify_contributions c l (S i + length rest) _ rest').
Qed.

(** A key as [keypair_new] makes it for a secret [x]. *)
Definition honest_key (c : bytes) (l : list (PublicKey E)) (d : G1) (x : Fr E) (s : G1) : PublicKey E :=
  let h := hash_cs_pubkeys c l s (mul s x) in
  MkPublicKey (mul d x) s (mul s x) (mul (hash_to_curve (hex_encode h)) x) h.

Lemma transcript_extended c l x (s : G1) hs :
  in_subgroup s → in_subgroup (last_delta g1 l) → verify_transcript c l = Ok hs →
  let k := honest_key c l (last_delta g1 l) x s in
  verify_transcript c (l ++ [k]) = Ok (hs ++ [Keypair.hash k]).
Proof.
  intros Hs Hd Hl k. unfold verify_transcript in *. rewrite verify_contributions_app.
  rewrite verify_contributions_prefix, Hl by (simpl; lia). cbn [bind_outcome verify_contributions].
  rewrite Nat.add_0_l, take_app_length. cbn [Keypair.s Keypair.s_delta transcript r_delta delta_after honest_key k].
  pose proof hash_to_curve_in_subgroup as Hr.
  rewrite (proj2 (ensure_unchanged_ok _ _ _ tt) eq_refl). cbn [bind_outcome].
  rewrite (proj2 (check_same_ratio_ok s (mul s x) _ _ _ tt)) by (by rewrite pairing_mul). cbn [bind_outcome].
  rewrite (proj2 (check_same_ratio_ok (last_delta g1 l) (mul (last_delta g1 l) x) _ _ _ tt)) by (by rewrite pairing_mul).
  done.
Qed.

(** ** Parameters that fit their transcript *)

Record consistent p : Prop := {
  (* both deltas are the same multiple of their generators *)
  cs_deltas : ∃ d, delta_g1 (params p) = mul g1 d ∧ delta_g2 (vk (params p)) = mul g2 d;
  cs_last : last_delta g1 (contributions p) = delta_g1 (params p);
  cs_transcript : is_ok (verify_transcript (cs_hash p) (contributions p)) = true;
  cs_h : Forall in_subgroup (h_query (params p));
  cs_l : Forall in_subgroup (l_query (params p));
  cs_h_size : (len (h_query (params p)) < 2 ^ 32)%N;
  cs_l_size : (len (l_query (params p)) < 2 ^ 32)%N;
}.

Lemma deltas_paired d : pairing g1 (mul g2 d) = pairing (mul g1 d) g2.
Proof. symmetry. by apply pairing_mul; apply generator_in_subgroup. Qed.

(** The parameters after a contribution of the secret [x]. *)
Definition delta_contributed (x y : Fr E) (k : PublicKey E) p : MPCParameters E :=
  let b := params p in
  let v := vk b in
  MkMPCParameters
    (MkProvingKey (MkVerifyingKey (alpha_g1 v) (beta_g2 v) (gamma_g2 v) (mul (delta_g2 v) x) (gamma_abc_g1 v))
       (beta_g1 b) (mul (delta_g1 b) x) (a_query b) (b_g1_query b) (b_g2_query b)
       ((λ q, mul q y) <$> h_query b) ((λ q, mul q y) <$> l_query b))
    (cs_hash p) (contributions p ++ [k]).

Lemma keypair_new_honest (d : G1) c l rng :
  let x := (rand_scalar rng).1 in
  let s := (rand_g1 (rand_scalar rng).2).1 in
  keypair_new d c l rng = (MkKeypair (MkPrivateKey x) (honest_key c l d x s), (rand_g1 (rand_scalar rng).2).2).
Proof. unfold keypair_new. destruct (rand_scalar rng) as [x rng1]. cbn [fst snd]. by destruct (rand_g1 rng1). Qed.

Lemma contribute_runs rng p :
  let x := (rand_scalar rng).1 in
  let s := (rand_g1 (rand_scalar rng).2).1 in
  let k := honest_key (cs_hash p) (contributions p) (delta_g1 (params p)) x s in
  x ≠ fr_zero →
  ∃ y, fr_inverse x = Some y ∧ fr_mul x y = fr_one ∧
    contribute rng p = (Ok (Keypair.hash k, (rand_g1 (rand_scalar rng).2).2), delta_contributed x y k p).
Proof.
  intros x s k Hx. pose proof (fr_inverse_inverts x) as Hy. unfold contribute. rewrite keypair_new_honest.
  cbn [private_key delta]. fold x. fold s. destruct (fr_inverse x) as [y|]; [|done]. by exists y.
Qed.

(** What the verification compares of the two sets of parameters. *)
Record keeps before after : Prop := {
  kp_key : last_delta (delta_g1 (params after)) (contributions after) = delta_g1 (params after);
  kp_some : contributions after ≠ [];
  kp_deltas : pairing g1 (delta_g2 (vk (params after))) = pairing (delta_g1 (params after)) g2;
  kp_contributions : contributions before `prefix_of` contributions after;
  kp_cs_hash : cs_hash before = cs_hash after;
  kp_h : length (h_query (params before)) = length (h_query (params after));
  kp_l : length (l_query (params before)) = length (l_query (params after));
  kp_alpha_g1 : alpha_g1 (vk (params before)) = alpha_g1 (vk (params after));
  kp_beta_g1 : beta_g1 (params before) = beta_g1 (params after);
  kp_beta_g2 : beta_g2 (vk (params before)) = beta_g2 (vk (params after));
  kp_gamma_g2 : gamma_g2 (vk (params before)) = gamma_g2 (vk (params after));
  kp_gamma_abc : gamma_abc_g1 (vk (params before)) = gamma_abc_g1 (vk (params after));
  kp_a : a_query (params before) = a_query (params after);
  kp_b_g1 : b_g1_query (params before) = b_g1_query (params after);
  kp_b_g2 : b_g2_query (params before) = b_g2_query (params after);
}.

(** The ratio of a combination of the elements of a query. *)
Definition query_checked before after (pairs : G1 * G1) : Prop :=
  pairing pairs.1 (delta_g2 (vk (params before))) = pairing pairs.2 (delta_g2 (vk (params after))).

(** A check that passed, and one that passes. *)
Ltac check_in H :=
  first [apply ensure_unchanged_ok in H | apply ensure_unchanged_vec_ok in H | apply ensure_same_length_ok in H
        | apply check_same_ratio_ok in H].
Ltac check_passes :=
  apply bind_lift_ok; exists tt; split;
  [first [apply ensure_unchanged_ok | apply ensure_unchanged_vec_ok | apply ensure_same_length_ok
         | apply check_same_ratio_ok]; try done|].

Lemma contributions_kept before after :
  slice 0 (len (contributions before)) (contributions after) = Ok (contributions before) ↔
  contributions before `prefix_of` contributions after.
Proof.
  unfold slice. cbn [N.leb N.compare]. rewrite N.sub_0_r, drop_0. unfold len. rewrite Nat2N.id.
  destruct (N.leb_spec (N.of_nat (length (contributions before))) (N.of_nat (length (contributions after)))) as [Hl|Hl].
  - replace (0 <=? N.of_nat (length (contributions before)))%N with true by (symmetry; apply N.leb_le; lia). cbn [andb].
    split.
    + intros [= H]. rewrite <-H at 1. exists (list.drop (length (contributions before)) (contributions after)).
      by rewrite take_drop.
    + intros [l ->]. by rewrite take_app_length.
  - rewrite andb_false_r. split; [done|]. intros [l Hp]. rewrite Hp, length_app in Hl. lia.
Qed.

Lemma verify_ok before after hs rng rng' :
  verify before after rng = (Ok hs, rng') ↔
  keeps before after ∧ verify_transcript (cs_hash before) (contributions after) = Ok hs ∧
  ∃ h l rng1,
    merge_pairs (h_query (params before)) (h_query (params after)) rng = (Ok h, rng1) ∧ query_checked before after h ∧
    merge_pairs (l_query (params before)) (l_query (params after)) rng1 = (Ok l, rng') ∧ query_checked before after l.
Proof.
  unfold verify. cbv zeta. split.
  - intros H. do 16 (apply bind_lift_ok in H as (? & ? & H)).
    apply bind_ok in H as ([h1 h2] & rng1 & Hh & H). apply bind_lift_ok in H as (? & Ch%check_same_ratio_ok & H).
    apply bind_ok in H as ([l1 l2] & rng2 & Hl & H). apply bind_lift_ok in H as (? & Cl%check_same_ratio_ok & H).
    injection H as Ht <-. split; [|split; [done|by exists (h1, h2), (l1, l2), rng1]].
    destruct (last (contributions after)) as [k|] eqn:Hlast; [|done].
    repeat match goal with H : _ = Ok _ |- _ => check_in H end. simplify_eq/=.
    split; try done.
    + unfold last_delta. by rewrite Hlast.
    + by intros Hn; rewrite Hn in Hlast.
    + congruence.
    + apply contributions_kept. congruence.
  - intros ([K1 K2 K3 K4 K5 K6 K7 K8 K9 K10 K11 K12 K13 K14 K15] & Ht & [h1 h2] & [l1 l2] & rng1 & Hh & Ch & Hl & Cl).
    destruct (last (contributions after)) as [k|] eqn:Hlast; [|by apply last_None in Hlast].
    unfold last_delta in K1. rewrite Hlast in K1. cbn in K1.
    apply bind_lift_ok. exists k. split; [done|]. check_passes. check_passes; [by rewrite K1|].
    apply bind_lift_ok. exists (contributions before). split; [by apply contributions_kept|].
    do 12 check_passes. unfold bind at 1. rewrite Hh. check_passes.
    unfold bind at 1. rewrite Hl. check_passes. unfold lift. by rewrite Ht.
Qed.

Lemma merge_pairs_scaled (v : list G1) x y rng :
  Forall in_subgroup v → (len v < 2 ^ 32)%N → fr_mul x y = fr_one →
  ∃ q rng', merge_pairs v ((λ q, mul q y) <$> v) rng = (Ok (q, mul q y), rng') ∧ in_subgroup q.
Proof.
  intros Hv Hs Hxy. destruct (merge_pairs_ok v ((λ q, mul q y) <$> v) rng) as (rs & rng' & _ & H); [by rewrite length_fmap | done |].
  rewrite combination_mul in H. exists (combination rs v), rng'. split; [done|]. by apply combination_in_subgroup.
Qed.
Lemma scaled_back (q : G1) (d : G2) x y :
  in_subgroup q → in_subgroup d → fr_mul x y = fr_one → pairing q d = pairing (mul q y) (mul d x).
Proof.
  intros Hq Hd Hxy. rewrite <-(pairing_mul (mul q y) d x) by (try done; by apply mul_in_subgroup).
  by rewrite mul_mul, (fr_mul_comm y), Hxy, mul_one.
Qed.

Lemma contributed_deltas d x (q : MPCParameters E) :
  delta_g1 (params q) = mul g1 d → delta_g2 (vk (params q)) = mul g2 d →
  mul (delta_g1 (params q)) x = mul g1 (fr_mul d x) ∧ mul (delta_g2 (vk (params q))) x = mul g2 (fr_mul d x).
Proof. intros -> ->. split; apply mul_mul, generator_in_subgroup. Qed.

Lemma contributed_consistent x y (s : G1) p d hs :
  let k := honest_key (cs_hash p) (contributions p) (last_delta g1 (contributions p)) x s in
  delta_g1 (params p) = mul g1 d → delta_g2 (vk (params p)) = mul g2 d →
  last_delta g1 (contributions p) = delta_g1 (params p) →
  Forall in_subgroup (h_query (params p)) → Forall in_subgroup (l_query (params p)) →
  (len (h_query (params p)) < 2 ^ 32)%N → (len (l_query (params p)) < 2 ^ 32)%N →
  verify_transcript (cs_hash p) (contributions p ++ [k]) = Ok hs →
  consistent (delta_contributed x y k p).
Proof.
  intros k D1 D2 Hlast Ch Cl Sh Sl Ht. destruct (contributed_deltas d x p D1 D2).
  split; cbn; unfold len; rewrite ?length_fmap; try done.
  - by exists (fr_mul d x).
  - exact (eq_trans (last_delta_snoc _ k _) (f_equal (λ q, mul q x) Hlast)).
  - exact (f_equal is_ok Ht).
  - apply Forall_fmap. eapply Forall_impl; [exact Ch|]. intros q. apply mul_in_subgroup.
  - apply Forall_fmap. eapply Forall_impl; [exact Cl|]. intros q. apply mul_in_subgroup.
Qed.
Lemma contributed_keeps x y (s : G1) p d :
  let k := honest_key (cs_hash p) (contributions p) (last_delta g1 (contributions p)) x s in
  delta_g1 (params p) = mul g1 d → delta_g2 (vk (params p)) = mul g2 d →
  last_delta g1 (contributions p) = delta_g1 (params p) →
  keeps p (delta_contributed x y k p).
Proof.
  intros k D1 D2 Hlast. destruct (contributed_deltas d x p D1 D2) as [E1 E2].
  split; cbn; rewrite ?length_fmap; try done.
  - exact (eq_trans (last_delta_snoc _ k _) (f_equal (λ q, mul q x) Hlast)).
  - by destruct (contributions p).
  - rewrite E1, E2. apply deltas_paired.
  - by exists [k].
Qed.

(** The result of a contribution, for the key and the inverse of the secret. *)
Lemma contributed_verifies x y (s : G1) p hs :
  let k := honest_key (cs_hash p) (contributions p) (last_delta g1 (contributions p)) x s in
  consistent p → in_subgroup s → fr_mul x y = fr_one → verify_transcript (cs_hash p) (contributions p) = Ok hs →
  consistent (delta_contributed x y k p) ∧
  ∀ thread, ∃ thread', verify p (delta_contributed x y k p) thread = (Ok (hs ++ [Keypair.hash k]), thread').
Proof.
  intros k [(d & D1 & D2) Hlast _ Ch Cl Sh Sl] Hs Hxy Hhs.
  assert (verify_transcript (cs_hash p) (contributions p ++ [k]) = Ok (hs ++ [Keypair.hash k])) as Ht.
  { apply transcript_extended; [done | | done]. rewrite Hlast, D1. apply mul_in_subgroup, generator_in_subgroup. }
  split; [by eapply contributed_consistent|]. intros thread.
  destruct (merge_pairs_scaled (h_query (params p)) x y thread) as (qh & rng1 & Hh & Gh); try done.
  destruct (merge_pairs_scaled (l_query (params p)) x y rng1) as (ql & rng2 & Hl & Gl); try done.
  exists rng2. apply verify_ok. split; [|split; [exact Ht|]].
  - by eapply contributed_keeps.
  - assert (in_subgroup (delta_g2 (vk (params p)))) as G2 by (rewrite D2; apply mul_in_subgroup, generator_in_subgroup).
    exists (qh, mul qh y), (ql, mul ql y), rng1. split_and!; [done| |done|]; by apply scaled_back.
Qed.

(** A contribution to the parameters of the second phase is accepted: for
    parameters that fit their transcript, and any secret but zero, the
    contribution succeeds, the verification of the result against the
    parameters before returns the hashes of all contributions with the new one
    last - whatever its random combinations -, and the result again fits its
    transcript, so the next contributor can go on. *)
Theorem delta_contribution_verifies p (rng : Rng) hs
    (Hp : consistent p) (Hx : (rand_scalar rng).1 ≠ fr_zero)
    (Hhs : verify_transcript (cs_hash p) (contributions p) = Ok hs) :
  ∃ h rng' p', contribute rng p = (Ok (h, rng'), p') ∧ consistent p' ∧
    ∀ thread, ∃ thread', verify p p' thread = (Ok (hs ++ [h]), thread').
Proof.
  destruct (contribute_runs rng p Hx) as (y & _ & Hxy & Hrun). rewrite <-(cs_last _ Hp) in Hrun.
  destruct (contributed_verifies _ y _ p hs Hp (rand_g1_in_subgroup (rand_scalar rng).2) Hxy Hhs).
  by eexists _, _, _.
Qed.

(** ** What the verification accepts *)

Lemma draw_app {A} m n (gen : Rng → A * Rng) rng l rng' :
  draw (m + n) gen rng = (Ok l, rng') →
  ∃ rng1, draw m gen rng = (Ok (take m l), rng1) ∧ draw n gen rng1 = (Ok (list.drop m l), rng').
Proof.
  revert rng l. induction m as [|m IH]; intros rng l H; [by exists rng|].
  cbn [Nat.add draw] in H. destruct (gen rng) as [a rng0] eqn:Ha.
  apply bind_ok in H as (l' & rng2 & H & [= <- <-]). destruct (IH rng0 l' H) as (rng1 & Hm & Hn).
  exists rng1. split; [|exact Hn]. cbn [draw]. rewrite Ha. unfold bind. by rewrite Hm.
Qed.

Lemma unit_vector_length n i : length (unit_vector (E := E) n i) = n.
Proof. unfold unit_vector. by rewrite length_insert, repeat_length. Qed.

(** With the right coefficients the two combinations are any chosen element of
    each query. *)
Lemma picked before after i j :
  full_randomness E →
  (len (h_query (params before)) < 2 ^ 32)%N → (len (l_query (params before)) < 2 ^ 32)%N →
  (∀ thread, is_ok (verify before after thread).1 = true) →
  (∀ q q', h_query (params before) !! i = Some q → h_query (params after) !! i = Some q' →
     query_checked before after (q, q')) ∧
  (∀ q q', l_query (params before) !! j = Some q → l_query (params after) !! j = Some q' →
     query_checked before after (q, q')).
Proof.
  intros Hfull Sh Sl Hall. set (nh := length (h_query (params before))). set (nl := length (l_query (params before))).
  destruct (Hfull (unit_vector nh i ++ unit_vector nl j)) as (rng & rng' & Hdraw).
  rewrite length_app, !unit_vector_length in Hdraw. apply draw_app in Hdraw as (rng1 & D1 & D2).
  rewrite take_app_length' in D1 by (by rewrite unit_vector_length).
  rewrite drop_app_length' in D2 by (by rewrite unit_vector_length).
  specialize (Hall rng). destruct (verify before after rng) as [o rng2] eqn:Hrun. destruct o as [hs| |]; try done.
  apply verify_ok in Hrun as (Hk & _ & h & l & rng3 & Hh & Ch & Hl & Cl).
  destruct (merge_pairs_ok (h_query (params before)) (h_query (params after)) rng (kp_h _ _ Hk) Sh) as (rs & rng4 & D & M).
  fold nh in D. rewrite D1 in D. injection D as <- <-. rewrite Hh in M. injection M as -> ->.
  destruct (merge_pairs_ok (l_query (params before)) (l_query (params after)) rng1 (kp_l _ _ Hk) Sl) as (rs & rng4 & D & M).
  fold nl in D. rewrite D2 in D. injection D as <- <-. rewrite Hl in M. injection M as -> ->.
  split; intros q q' Hq Hq'; pose proof (lookup_lt_Some _ _ _ Hq).
  - by rewrite (combination_unit _ _ _ q), (combination_unit _ _ _ q') in Ch.
  - by rewrite (combination_unit _ _ _ q), (combination_unit _ _ _ q') in Cl.
Qed.

(** Elements that pair with the two deltas alike are multiples by their ratio. *)
Lemma query_scaled before after x (v v' : list G1) :
  in_subgroup (delta_g2 (vk (params before))) → delta_g2 (vk (params before)) ≠ zero →
  delta_g2 (vk (params after)) = mul (delta_g2 (vk (params before))) x →
  Forall in_subgroup v → Forall in_subgroup v' → length v = length v' →
  (∀ i q q', v !! i = Some q → v' !! i = Some q' → query_checked before after (q, q')) →
  v = (λ q, mul q x) <$> v'.
Proof.
  intros Hd Hz Hx Hv Hv' Hlen Hall. apply list_eq. intros i. rewrite list_lookup_fmap.
  destruct (v !! i) as [q|] eqn:Hq.
  - destruct (lookup_lt_is_Some_2 v' i) as [q' Hq']; [rewrite <-Hlen; by eapply lookup_lt_Some|].
    rewrite Hq'. cbn. f_equal. specialize (Hall i q q' Hq Hq'). unfold query_checked in Hall. cbn [fst snd] in Hall.
    rewrite Hx in Hall. pose proof (Forall_lookup_1 _ _ _ _ Hv Hq). pose proof (Forall_lookup_1 _ _ _ _ Hv' Hq').
    rewrite <-pairing_mul in Hall by done. apply pairing_inj in Hall; try done. by apply mul_in_subgroup.
  - apply lookup_ge_None in Hq. by rewrite lookup_ge_None_2 by lia.
Qed.

(** C14. What the verification of the second phase accepts, whatever its random
    combinations, is a contribution: for points of the subgroup, the delta in
    G1 grew by the same factor as the delta in G2, every element of the [h] and
    [l] queries shrank by it, everything else is as it was, and the earlier
    contributions are still there. *)
Theorem verified_delta_contribution before after (x : Fr E)
    (Hrandom : full_randomness E) (Hbefore : consistent before)
    (Hnz : delta_g2 (vk (params before)) ≠ zero)
    (Hx : delta_g2 (vk (params after)) = mul (delta_g2 (vk (params before))) x)
    (Hd : in_subgroup (delta_g1 (params after)))
    (Hh : Forall in_subgroup (h_query (params after))) (Hl : Forall in_subgroup (l_query (params after)))
    (Hall : ∀ thread, is_ok (verify before after thread).1 = true) :
  delta_g1 (params after) = mul (delta_g1 (params before)) x ∧
  h_query (params before) = (λ q, mul q x) <$> h_query (params after) ∧
  l_query (params before) = (λ q, mul q x) <$> l_query (params after) ∧
  keeps before after.
Proof.
  destruct Hbefore as [(d & D1 & D2) _ _ Ch Cl Sh Sl].
  assert (keeps before after) as Hk.
  { destruct (Hrandom []) as (rng & _). specialize (Hall rng). destruct (verify before after rng) as [[hs| |] rng'] eqn:H; try done.
    by apply verify_ok in H as [Hk _]. }
  assert (in_subgroup (delta_g2 (vk (params before)))) as Hg by (rewrite D2; apply mul_in_subgroup, generator_in_subgroup).
  split_and!; [| | |done].
  - pose proof (kp_deltas _ _ Hk) as Hp. rewrite Hx, D2, mul_mul, deltas_paired in Hp by apply generator_in_subgroup.
    rewrite D1, mul_mul by apply generator_in_subgroup. symmetry.
    apply (pairing_inj _ _ g2); try done; [| apply generator_in_subgroup | apply generator_nonzero].
    apply mul_in_subgroup, generator_in_subgroup.
  - apply (query_scaled before after); try done; [apply Hk|]. intros i q q'. by apply (picked before after i 0).
  - apply (query_scaled before after); try done; [apply Hk|]. intros i q q'. by apply (picked before after 0 i).
Qed.

(** C21. A set of parameters that already has a contribution passes the
    verification against itself: that a new contribution was made is checked
    nowhere. *)
Theorem verify_accepts_no_contribution p (Hp : consistent p) (Hsome : contributions p ≠ []) :
  ∀ thread, is_ok (verify p p thread).1 = true.
Proof.
  intros thread. destruct Hp as [(d & D1 & D2) Hlast Ht Ch Cl Sh Sl].
  destruct (verify_transcript (cs_hash p) (contributions p)) as [hs| |] eqn:Hhs; try done.
  destruct (merge_pairs_ok (h_query (params p)) (h_query (params p)) thread eq_refl Sh) as (rs & rng1 & _ & H1).
  destruct (merge_pairs_ok (l_query (params p)) (l_query (params p)) rng1 eq_refl Sl) as (rs' & rng2 & _ & H2).
  assert (verify p p thread = (Ok hs, rng2)) as ->; [|done]. apply verify_ok.
  split; [|split; [done|by eexists _, _, rng1]]. split; try done.
  - revert Hlast. unfold last_delta. destruct (last (contributions p)) eqn:E0; [done|]. by apply last_None in E0.
  - rewrite D1, D2. apply deltas_paired.
Qed.

(** It panics when a contribution is missing. *)
Lemma verify_panics before after thread k :
  last (contributions after) = Some k → delta_after k = delta_g1 (params after) →
  pairing g1 (delta_g2 (vk (params after))) = pairing (delta_g1 (params after)) g2 →
  length (contributions after) < length (contributions before) →
  (verify before after thread).1 = Panic.
Proof.
  intros Hlast Hk Hd Hlen. unfold verify, bind, lift. rewrite Hlast. cbn [ok_or].
  rewrite (proj2 (ensure_unchanged_ok _ _ _ tt) Hk).
  rewrite (proj2 (check_same_ratio_ok _ _ _ _ _ tt)) by (by rewrite Hk).
  assert (len (contributions before) <=? len (contributions after) = false)%N as Hl by (apply N.leb_gt; unfold len; lia).
  unfold slice. by rewrite Hl, andb_false_r.
Qed.
End delta.

(** ** Parameters of the toy engine *)

#[local] Existing Instance toy_randomness.
#[local] Existing Instance toy_randomness_laws.
#[local] Existing Instance Toy.engine_laws.

Definition toy_curve_hash : HashToCurve Toy.engine := {|
  hex_encode _ := EmptyString;
  hash_to_curve _ := (Toy.Z2 : G2Affine Toy.engine);
|}.
#[local] Existing Instance toy_curve_hash.
Lemma toy_curve_hash_laws : HashToCurveLaws Toy.engine.
Proof. by split. Qed.
#[local] Existing Instance toy_curve_hash_laws.

Definition toy_mpc : MPCParameters Toy.engine :=
  MkMPCParameters
    (MkProvingKey
       (MkVerifyingKey (Toy.Z2 : G1Affine Toy.engine) (Toy.Z3 : G2Affine Toy.engine) (Toy.Z1 : G2Affine Toy.engine)
          (Toy.Z1 : G2Affine Toy.engine) ([Toy.Z4] : list (G1Affine Toy.engine)))
       (Toy.Z3 : G1Affine Toy.engine) (Toy.Z1 : G1Affine Toy.engine) ([Toy.Z1; Toy.Z2] : list (G1Affine Toy.engine))
       ([Toy.Z3] : list (G1Affine Toy.engine)) ([Toy.Z3] : list (G2Affine Toy.engine))
       ([Toy.Z1; Toy.Z3] : list (G1Affine Toy.engine)) ([Toy.Z2] : list (G1Affine Toy.engine)))
    (repeat x00 64) [].
Definition toy_seed : Rng (E := Toy.engine) := toy_rng [Toy.Z2; Toy.Z3].
Definition toy_mpc_after : MPCParameters Toy.engine := (contribute toy_seed toy_mpc).2.

Lemma toy_mpc_consistent : consistent toy_mpc.
Proof. split; try done; try by repeat constructor. by exists (Toy.Z1 : Fr Toy.engine). Qed.
Lemma toy_mpc_after_verifies : consistent toy_mpc_after ∧ ∀ thread, is_ok (verify toy_mpc toy_mpc_after thread).1 = true.
Proof.
  destruct (contributed_verifies (Toy.Z2 : Fr Toy.engine) (Toy.Z3 : Fr Toy.engine) (Toy.Z3 : G1Affine Toy.engine) toy_mpc []
    toy_mpc_consistent eq_refl eq_refl eq_refl) as [Hc Hv].
  split; [exact Hc|]. intros thread. destruct (Hv thread) as [thread' H].
  exact (f_equal (λ r, is_ok (fst r)) H).
Qed.

Lemma delta_contribution_verifies_witness :
  ∃ h rng' p', contribute toy_seed toy_mpc = (Ok (h, rng'), p') ∧ consistent p' ∧
    ∀ thread, ∃ thread', verify toy_mpc p' thread = (Ok [h], thread').
Proof. apply (delta_contribution_verifies toy_mpc toy_seed [] toy_mpc_consistent); done. Defined.

Lemma verified_delta_contribution_witness :
  delta_g1 (params toy_mpc_after) = mul (delta_g1 (params toy_mpc)) (Toy.Z2 : Fr Toy.engine) ∧
  h_query (params toy_mpc_after) = ([Toy.Z3; Toy.Z4] : list (G1Affine Toy.engine)).
Proof.
  destruct (verified_delta_contribution toy_mpc toy_mpc_after (Toy.Z2 : Fr Toy.engine) toy_full_randomness
    toy_mpc_consistent) as (Hd & _ & _ & _); try done.
  - by repeat constructor.
  - by repeat constructor.
  - apply toy_mpc_after_verifies.
Defined.

Lemma verify_accepts_no_contribution_witness :
  is_ok (verify toy_mpc_after toy_mpc_after toy_seed).1 = true.
Proof. apply verify_accepts_no_contribution; [apply toy_mpc_after_verifies | done]. Defined.
