(* ===== verification/KeyFiles.v ===== *)
(** * Files of parameters

    The format of the keys as laws, and as one concrete format that has them;
    public keys, batches of them and whole parameters are read as they were
    written. *)

From S2P Require Import Prelude Environment Phase1Parameters Curve Elements MultiExp Keypair Groth16Params MPCParameters DeltaContributions.
From Stdlib Require Import Strings.Byte.

(** ** Elements *)

Section elements.
Context {E : PairingEngine} `{!EngineLaws E}.
Context {C : AffineCurve (Fr E)} `{!CurveLaws C}.
Implicit Types (v : list C).

Lemma read_points v rest : Forall in_subgroup v →
  read_many (length v) (next_element (C := C) CompressionYes CheckNo) (encode CompressionYes v ++ rest) = (Ok v, rest).
Proof.
  induction 1 as [|p v Hp _ IH]; [done|]. cbn [length read_many].
  change (encode CompressionYes (p :: v)) with (serialize CompressionYes p ++ encode CompressionYes v).
  rewrite <-app_assoc. unfold bind at 1. rewrite next_element_ok by done.
  unfold bind. by rewrite IH.
Qed.

Lemma encode_len v : len (encode CompressionYes v) = (len v * serialized_size C CompressionYes)%N.
Proof. unfold len. rewrite encode_length. unfold width. lia. Qed.

End elements.

(** ** The format of the keys *)

Section format.
Context {E : PairingEngine} `{!Randomness E, !HashToCurve E, !KeyFormat E}.
Context `{!EngineLaws E, !RandomnessLaws E, !HashToCurveLaws E}.
Implicit Types (p : MPCParameters E) (k : PublicKey E).

(** A vector: its length and its elements. *)
Definition vec {C : AffineCurve (Fr E)} (v : list C) : bytes := serialize_u64 (len v) ++ encode CompressionYes v.

Record vk_in_group (v : VerifyingKey E) : Prop := {
  vg_alpha_g1 : in_subgroup (alpha_g1 v);
  vg_beta_g2 : in_subgroup (beta_g2 v);
  vg_gamma_g2 : in_subgroup (gamma_g2 v);
  vg_delta_g2 : in_subgroup (delta_g2 v);
  vg_gamma_abc : Forall in_subgroup (gamma_abc_g1 v);
  vg_size : (len (gamma_abc_g1 v) < u64_modulus)%N;
}.
Record pk_in_group (k : ProvingKey E) : Prop := {
  pg_vk : vk_in_group (vk k);
  pg_beta_g1 : in_subgroup (beta_g1 k);
  pg_delta_g1 : in_subgroup (delta_g1 k);
  pg_queries : Forall in_subgroup (a_query k) ∧ Forall in_subgroup (b_g1_query k) ∧ Forall in_subgroup (b_g2_query k) ∧
    Forall in_subgroup (h_query k) ∧ Forall in_subgroup (l_query k);
  pg_sizes : (len (a_query k) < u64_modulus)%N ∧ (len (b_g1_query k) < u64_modulus)%N ∧
    (len (b_g2_query k) < u64_modulus)%N ∧ (len (h_query k) < u64_modulus)%N ∧ (len (l_query k) < u64_modulus)%N;
}.

(** What [chunked_groth16.rs] relies on: keys are what they are made of, one
    after the other, vectors after their lengths. *)
Class KeyFormatLaws : Prop := {
  read_pk (k : ProvingKey E) rest : pk_in_group k → deserialize_pk (serialize_pk k ++ rest) = (Ok k, rest);
  read_vk v rest : vk_in_group v → deserialize_vk (serialize_vk v ++ rest) = (Ok v, rest);
  vk_length v v' :
    length (gamma_abc_g1 v) = length (gamma_abc_g1 v') → length (serialize_vk v) = length (serialize_vk (E := E) v');
  u64_length n : length (serialize_u64 n) = 8;
  read_u64 n rest : (n < u64_modulus)%N → deserialize_u64 (serialize_u64 n ++ rest) = (Ok n, rest);
  pk_layout (k : ProvingKey E) : serialize_pk k =
    serialize_vk (vk k) ++ serialize CompressionYes (beta_g1 k) ++ serialize CompressionYes (delta_g1 k) ++
    vec (a_query k) ++ vec (b_g1_query k) ++ vec (b_g2_query k) ++ vec (h_query k) ++ vec (l_query k);
}.
Context `{!KeyFormatLaws}.

(** ** Public keys *)

Record readable k : Prop := {
  rk_delta_after : in_subgroup (delta_after k) ∧ delta_after k ≠ zero;
  rk_s : in_subgroup (s k) ∧ s k ≠ zero;
  rk_s_delta : in_subgroup (s_delta k) ∧ s_delta k ≠ zero;
  rk_r_delta : in_subgroup (r_delta k) ∧ r_delta k ≠ zero;
  rk_transcript : length (transcript k) = 64;
}.

Lemma read_key k rest : readable k → Keypair.read (write k ++ rest) = (Ok k, rest).
Proof.
  intros [[D1 D2] [S1 S2] [T1 T2] [R1 R2] Hl]. unfold Keypair.read, write. rewrite <-!app_assoc.
  do 4 (unfold bind at 1; rewrite next_element_ok; [|done|by intros _]).
  unfold bind at 1. rewrite read_exact_ok by done. by destruct k.
Qed.
Lemma read_keys ks rest : Forall readable ks → read_many (length ks) Keypair.read (concat (write <$> ks) ++ rest) = (Ok ks, rest).
Proof.
  induction 1 as [|k ks Hk _ IH]; [done|]. cbn [length read_many]. rewrite fmap_cons. cbn [concat].
  rewrite <-app_assoc. unfold bind at 1. rewrite read_key by done. unfold bind. by rewrite IH.
Qed.

Lemma read_write_batch ks rest :
  Forall readable ks → (len ks < 2 ^ 32)%N → read_batch (write_batch ks ++ rest) = (Ok ks, rest).
Proof.
  intros Hks Hl. unfold read_batch, read_u32, write_batch. rewrite <-app_assoc. unfold bind.
  rewrite read_exact_ok by done. unfold ret, as_u32. rewrite N.mod_small, parse_write_u32 by done.
  replace (N.to_nat (len ks)) with (length ks) by (unfold len; lia). by apply read_keys.
Qed.


(** Parameters of the second phase are read as they were written, with all
    contributions, whatever follows them in the file. *)
Theorem mpc_roundtrip p rest
    (Hp : pk_in_group (params p)) (Hc : length (cs_hash p) = 64) (Hk : Forall readable (contributions p))
    (Hn : (len (contributions p) < 2 ^ 32)%N) :
  mpc_read (mpc_write p ++ rest) = (Ok p, rest).
Proof.
  unfold mpc_read, mpc_write. rewrite <-!app_assoc. unfold bind at 1. rewrite read_pk by done.
  unfold bind at 1. rewrite read_exact_ok by done. unfold bind. rewrite read_write_batch by done. by destruct p.
Qed.
End format.
Arguments KeyFormatLaws E {_}.

(** ** A concrete format

    Elements compressed, lengths as eight bytes, the least significant first:
    the laws can hold, in every engine. *)

Fixpoint le_bytes (k : nat) (n : N) : bytes :=
  match k with 0 => [] | S k => byte_of n :: le_bytes k (n / 256) end.
Fixpoint of_le (data : bytes) : N :=
  match data with [] => 0%N | b :: data => (Byte.to_N b + 256 * of_le data)%N end.

Lemma le_bytes_length k n : length (le_bytes k n) = k.
Proof. revert n. induction k as [|k IH]; intros n; [done|]. cbn [le_bytes length]. by rewrite IH. Qed.
Lemma of_le_bytes k n : of_le (le_bytes k n) = (n mod 256 ^ N.of_nat k)%N.
Proof.
  revert n. induction k as [|k IH]; intros n; [by rewrite N.mod_1_r|]. cbn [le_bytes of_le].
  rewrite IH, byte_of_to_N, Nat2N.inj_succ, N.pow_succ_r'. symmetry. apply N.Div0.mod_mul_r.
Qed.

Section plain.
Context {E : PairingEngine}.

Definition plain_vec {C : AffineCurve (Fr E)} (v : list C) : bytes := le_bytes 8 (len v) ++ encode CompressionYes v.
Definition read_plain_u64 : on bytes N := let! data := read_exact 8 in ret (of_le data).
Definition read_plain_vec (C : AffineCurve (Fr E)) : on bytes (list C) :=
  let! n := read_plain_u64 in read_many (N.to_nat n) (next_element CompressionYes CheckNo).
Definition read_plain (C : AffineCurve (Fr E)) : on bytes C := next_element CompressionYes CheckNo.

Definition plain_vk (v : VerifyingKey E) : bytes :=
  serialize CompressionYes (alpha_g1 v) ++ serialize CompressionYes (beta_g2 v) ++
  serialize CompressionYes (gamma_g2 v) ++ serialize CompressionYes (delta_g2 v) ++ plain_vec (gamma_abc_g1 v).
Definition read_plain_vk : on bytes (VerifyingKey E) :=
  let! alpha_g1 := read_plain (G1Affine E) in
  let! beta_g2 := read_plain (G2Affine E) in
  let! gamma_g2 := read_plain (G2Affine E) in
  let! delta_g2 := read_plain (G2Affine E) in
  let! gamma_abc_g1 := read_plain_vec (G1Affine E) in
  ret (MkVerifyingKey alpha_g1 beta_g2 gamma_g2 delta_g2 gamma_abc_g1).

Definition plain_format : KeyFormat E := {|
  serialize_vk := plain_vk;
  deserialize_vk := read_plain_vk;
  serialize_pk k :=
    plain_vk (vk k) ++ serialize CompressionYes (beta_g1 k) ++ serialize CompressionYes (delta_g1 k) ++
    plain_vec (a_query k) ++ plain_vec (b_g1_query k) ++ plain_vec (b_g2_query k) ++ plain_vec (h_query k) ++
    plain_vec (l_query k);
  deserialize_pk :=
    let! vk := read_plain_vk in
    let! beta_g1 := read_plain (G1Affine E) in
    let! delta_g1 := read_plain (G1Affine E) in
    let! a_query := read_plain_vec (G1Affine E) in
    let! b_g1_query := read_plain_vec (G1Affine E) in
    let! b_g2_query := read_plain_vec (G2Affine E) in
    let! h_query := read_plain_vec (G1Affine E) in
    let! l_query := read_plain_vec (G1Affine E) in
    ret (MkProvingKey vk beta_g1 delta_g1 a_query b_g1_query b_g2_query h_query l_query);
  serialize_u64 := le_bytes 8;
  deserialize_u64 := read_plain_u64;
|}.

Context `{!EngineLaws E}.

Lemma plain_u64 n rest : (n < u64_modulus)%N → read_plain_u64 (le_bytes 8 n ++ rest) = (Ok n, rest).
Proof.
  intros Hn. unfold read_plain_u64, bind. rewrite read_exact_ok by apply le_bytes_length.
  unfold ret. by rewrite of_le_bytes, N.mod_small.
Qed.
Lemma plain_vec_read {C : AffineCurve (Fr E)} `{!CurveLaws C} (v : list C) rest :
  Forall in_subgroup v → (len v < u64_modulus)%N → read_plain_vec C (plain_vec v ++ rest) = (Ok v, rest).
Proof.
  intros Hv Hl. unfold read_plain_vec, plain_vec. rewrite <-app_assoc. unfold bind at 1. rewrite plain_u64 by done.
  rewrite to_nat_len. by apply read_points.
Qed.
Lemma plain_read {C : AffineCurve (Fr E)} `{!CurveLaws C} (p : C) rest :
  in_subgroup p → read_plain C (serialize CompressionYes p ++ rest) = (Ok p, rest).
Proof. intros Hp. by apply next_element_ok. Qed.

Lemma plain_vk_read v rest : vk_in_group v → read_plain_vk (plain_vk v ++ rest) = (Ok v, rest).
Proof.
  intros [V1 V2 V3 V4 V5 V6]. unfold read_plain_vk, plain_vk. rewrite <-!app_assoc.
  do 4 (unfold bind at 1; rewrite plain_read by done). unfold bind at 1. rewrite plain_vec_read by done. by destruct v.
Qed.
Lemma plain_format_laws : KeyFormatLaws E (KeyFormat0 := plain_format).
Proof.
  split; cbn [serialize_vk deserialize_vk serialize_pk deserialize_pk serialize_u64 deserialize_u64 plain_format].
  - intros k rest [Hv H1 H2 (Q1 & Q2 & Q3 & Q4 & Q5) (S1 & S2 & S3 & S4 & S5)]. rewrite <-!app_assoc.
    unfold bind at 1. rewrite plain_vk_read by done. do 2 (unfold bind at 1; rewrite plain_read by done).
    do 5 (unfold bind at 1; rewrite plain_vec_read by done). by destruct k.
  - apply plain_vk_read.
  - intros v v' Hl. unfold plain_vk, plain_vec. rewrite !length_app, !serialize_width, !encode_length, !le_bytes_length. lia.
  - intros n. apply le_bytes_length.
  - intros n rest Hn. by apply plain_u64.
  - done.
Qed.
End plain.

(** ** Parameters of the toy engine *)

#[local] Existing Instance toy_randomness.
#[local] Existing Instance toy_randomness_laws.
#[local] Existing Instance Toy.engine_laws.
#[local] Existing Instance toy_curve_hash.
#[local] Existing Instance toy_curve_hash_laws.
Definition toy_format : KeyFormat Toy.engine := plain_format.
#[local] Existing Instance toy_format.
Lemma toy_format_laws : KeyFormatLaws Toy.engine.
Proof. apply plain_format_laws. Qed.

#[local] Existing Instance toy_format_laws.

Lemma toy_readable : Forall readable (contributions toy_mpc_after).
Proof. repeat constructor; done. Qed.

Lemma mpc_roundtrip_witness :
  mpc_read (mpc_write toy_mpc_after ++ [x01; x02]) = (Ok toy_mpc_after, [x01; x02]).
Proof.
  apply mpc_roundtrip; [|done|exact toy_readable|done].
  split; [split| | | |]; try split_and!; try done; repeat constructor; done.
Defined.
