(* ===== verification/NewParameters.v ===== *)
(** * New parameters

    [MPCParameters::new]: when it succeeds, and that the parameters it makes
    are the start of a ceremony: they fit their empty transcript, so every
    contribution to them verifies. *)

From S2P Require Import Prelude Environment Phase1Parameters Curve Elements MultiExp Keypair Groth16Params Polynomial MPCParameters DeltaContributions KeyFiles.
From Stdlib Require Import Strings.Byte.

Section new.
Context {E : PairingEngine} `{!Randomness E, !HashToCurve E, !KeyFormat E}.
Context `{!EngineLaws E, !RandomnessLaws E, !HashToCurveLaws E}.
Implicit Types (a : KeypairAssembly E) (q : Groth16Params E) (p : MPCParameters E).

Notation G1 := (G1Affine E).
Notation G2 := (G2Affine E).
Notation g1 := (prime_subgroup_generator : G1).
Notation g2 := (prime_subgroup_generator : G2).
Notation row := (list (Fr E * Index)).

Lemma collect_total {A B} (f : A → setup B) (P : B → Prop) l :
  (∀ x, x ∈ l → ∃ y, f x = Ok y ∧ P y) → ∃ r, collect (f <$> l) = Ok r ∧ Forall P r ∧ length r = length l.
Proof.
  intros Hf. destruct (collect_mapped f (λ _ y, P y) l Hf) as (r & Hr & Hall). exists r. split_and!; [done| |].
  - apply Forall_forall. intros y Hy. apply list_elem_of_lookup in Hy as (i & Hi).
    by destruct (Forall2_lookup_r _ _ _ _ _ Hall Hi) as (x & _ & Hp).
  - by apply Forall2_length in Hall.
Qed.
Lemma dot_product_vec_covered {C : AffineCurve (Fr E)} `{!CurveLaws C} (l : list row) (v : list C) n :
  Forall (covered n (len v)) l → Forall in_subgroup v →
  ∃ r, dot_product_vec l v n = Ok r ∧ Forall in_subgroup r ∧ length r = length l.
Proof.
  intros Hl Hv. apply collect_total. intros x Hx. apply dot_product_covered; [|done].
  by apply (proj1 (Forall_forall _ _) Hl).
Qed.

(** Coefficients for all variables of the circuit. *)
Record assembly_fits a q : Prop := {
  af_at : Forall (covered (num_public_variables a) (len (coeffs_g1 q))) (at_ a) ∧
    Forall (covered (num_public_variables a) (len (beta_coeffs_g1 q))) (at_ a);
  af_bt : Forall (covered (num_public_variables a) (len (coeffs_g1 q))) (bt a) ∧
    Forall (covered (num_public_variables a) (len (coeffs_g2 q))) (bt a) ∧
    Forall (covered (num_public_variables a) (len (alpha_coeffs_g1 q))) (bt a);
  af_ct : Forall (covered (num_public_variables a) (len (coeffs_g1 q))) (ct a);
  af_public : (num_public_variables a ≤ len (zip (at_ a) (zip (bt a) (ct a))))%N;
}.
Record params_in_group q : Prop := {
  pi_coeffs : Forall in_subgroup (coeffs_g1 q) ∧ Forall in_subgroup (coeffs_g2 q) ∧
    Forall in_subgroup (alpha_coeffs_g1 q) ∧ Forall in_subgroup (beta_coeffs_g1 q);
  pi_h : Forall in_subgroup (h_g1 q);
}.

Lemma dot_product_ext_covered a q :
  assembly_fits a q → params_in_group q →
  ∃ r, dot_product_ext (at_ a) (beta_coeffs_g1 q) (bt a) (alpha_coeffs_g1 q) (ct a) (coeffs_g1 q)
         (num_public_variables a) = Ok r ∧ Forall in_subgroup r ∧ length r = length (zip (at_ a) (zip (bt a) (ct a))).
Proof.
  intros [[A1 A2] (B1 & B2 & B3) C1 _] [(P1 & P2 & P3 & P4) _]. apply collect_total. intros [x [y z]] Hx.
  apply list_elem_of_lookup in Hx as (i & Hi).
  apply lookup_zip_Some in Hi as [Hx Hyz]. apply lookup_zip_Some in Hyz as [Hy Hz].
  destruct (dot_product_covered x (beta_coeffs_g1 q) (num_public_variables a)) as (u & Hu & Gu);
    [by eapply (Forall_lookup_1 _ (at_ a)) | done|].
  destruct (dot_product_covered y (alpha_coeffs_g1 q) (num_public_variables a)) as (v & Hv & Gv);
    [by eapply (Forall_lookup_1 _ (bt a)) | done|].
  destruct (dot_product_covered z (coeffs_g1 q) (num_public_variables a)) as (w & Hw & Gw);
    [by eapply (Forall_lookup_1 _ (ct a)) | done|].
  rewrite Hu. cbn [bind_outcome]. rewrite Hv. cbn [bind_outcome]. rewrite Hw. cbn [bind_outcome].
  eexists. split; [done|]. by repeat apply add_in_subgroup.
Qed.

Lemma eval_covered a q :
  assembly_fits a q → params_in_group q →
  ∃ u v w abc l,
    eval (coeffs_g1 q) (coeffs_g2 q) (alpha_coeffs_g1 q) (beta_coeffs_g1 q) (at_ a) (bt a) (ct a)
      (num_public_variables a) = Ok (u, v, w, abc, l) ∧
    Forall in_subgroup l ∧ length l ≤ length (zip (at_ a) (zip (bt a) (ct a))).
Proof.
  intros Ha Hp. destruct (dot_product_ext_covered a q Ha Hp) as (ext & Hext & Gext & Lext).
  destruct Ha as [[A1 A2] (B1 & B2 & B3) C1 Hn], Hp as [(P1 & P2 & P3 & P4) _].
  destruct (dot_product_vec_covered (at_ a) (coeffs_g1 q) (num_public_variables a)) as (u & Hu & _); [done..|].
  destruct (dot_product_vec_covered (bt a) (coeffs_g1 q) (num_public_variables a)) as (v & Hv & _); [done..|].
  destruct (dot_product_vec_covered (bt a) (coeffs_g2 q) (num_public_variables a)) as (w & Hw & _); [done..|].
  unfold eval. rewrite Hu, Hv, Hw, Hext. cbn [bind_outcome]. unfold split_at.
  assert (num_public_variables a ≤ len ext)%N as Hle by (unfold len in *; by rewrite Lext).
  rewrite (proj2 (N.leb_le _ _) Hle). cbn [bind_outcome]. eexists _, _, _, _, _. split_and!; [done|by apply Forall_drop|].
  rewrite length_drop. lia.
Qed.

(** Fresh parameters fit their empty transcript. *)
Lemma new_consistent a q p :
  mpc_new a q = Ok p → Forall in_subgroup (h_g1 q) → Forall in_subgroup (l_query (params p)) →
  (len (h_g1 q) < 2 ^ 32)%N → (len (l_query (params p)) < 2 ^ 32)%N → consistent p.
Proof.
  intros Hnew Hh. unfold mpc_new in Hnew. apply bind_outcome_ok in Hnew as ([[[[u v] w] abc] l] & _ & Hnew).
  destruct (existsb is_zero l); [done|]. injection Hnew as <-. intros Hl Sh Sl. split; try done.
  exists fr_one. split; symmetry; apply mul_one.
Qed.

(** C15. The parameters of a circuit start a ceremony: with coefficients for all
    of its variables nothing panics; if a private variable is unconstrained,
    making the parameters fails, and otherwise the fresh parameters do not
    verify against themselves, for want of contributions, and any contribution
    whose secret is not zero succeeds and verifies, as the only one. *)
Theorem new_parameters_start_ceremony a q (rng : Rng)
    (Ha : assembly_fits a q) (Hq : params_in_group q)
    (Hh : (len (h_g1 q) < 2 ^ 32)%N) (Hl : (len (zip (at_ a) (zip (bt a) (ct a))) < 2 ^ 32)%N)
    (Hx : (rand_scalar rng).1 ≠ fr_zero) :
  ∃ u v w abc l,
    eval (coeffs_g1 q) (coeffs_g2 q) (alpha_coeffs_g1 q) (beta_coeffs_g1 q) (at_ a) (bt a) (ct a)
      (num_public_variables a) = Ok (u, v, w, abc, l) ∧
    if existsb is_zero l then mpc_new a q = Err SynthesisError
    else ∃ p : MPCParameters E, mpc_new a q = Ok p ∧
      (∀ thread, (verify p p thread).1 = Err (Phase2 NoContributions)) ∧
      ∃ h rng' p', contribute rng p = (Ok (h, rng'), p') ∧
        ∀ thread, ∃ thread', verify p p' thread = (Ok [h], thread').
Proof.
  destruct (eval_covered a q Ha Hq) as (u & v & w & abc & l & Heval & Gl & Ll). exists u, v, w, abc, l.
  split; [done|]. destruct (existsb is_zero l) eqn:Hz.
  - unfold mpc_new. rewrite Heval. cbn [bind_outcome]. by rewrite Hz.
  - assert (∃ p : MPCParameters E, mpc_new a q = Ok p ∧ contributions p = [] ∧ l_query (params p) = l) as (p & Hnew & Hc & Hlq).
    { unfold mpc_new. rewrite Heval. cbn [bind_outcome]. rewrite Hz. by eexists. }
    exists p. split_and!; [done|intros thread; unfold verify, bind, lift; by rewrite Hc|].
    assert (consistent p) as Hcons.
    { eapply new_consistent; [exact Hnew|apply Hq|by rewrite Hlq|done|rewrite Hlq]. unfold len in *. lia. }
    destruct (contribute_runs rng p Hx) as (y & _ & Hxy & Hrun). rewrite <-(cs_last _ Hcons) in Hrun.
    assert (verify_transcript (cs_hash p) (contributions p) = Ok []) as Ht by (by rewrite Hc).
    destruct (contributed_verifies _ y _ p [] Hcons (rand_g1_in_subgroup (rand_scalar rng).2) Hxy Ht) as [_ Hv].
    by eexists _, _, _.
Qed.
End new.

(** ** A circuit for the toy engine *)

#[local] Existing Instance toy_randomness.
#[local] Existing Instance toy_randomness_laws.
#[local] Existing Instance Toy.engine_laws.
#[local] Existing Instance toy_curve_hash.
#[local] Existing Instance toy_curve_hash_laws.
#[local] Existing Instance toy_format.

Definition toy_row (l : list (Toy.Z5 * Index)) : list (Fr Toy.engine * Index) := l.
Definition toy_assembly : KeypairAssembly Toy.engine :=
  MkKeypairAssembly 1 2
    [toy_row [(Toy.Z1, Public 0)]; toy_row [(Toy.Z2, Private 0)]; toy_row [(Toy.Z1, Private 1)]]
    [toy_row []; toy_row [(Toy.Z1, Public 0)]; toy_row [(Toy.Z3, Private 1)]]
    [toy_row []; toy_row []; toy_row [(Toy.Z1, Public 0)]].

Lemma new_parameters_start_ceremony_witness :
  ∃ p, mpc_new toy_assembly toy_params = Ok p ∧
    ∃ h rng' p', contribute toy_seed p = (Ok (h, rng'), p') ∧
      ∀ thread, ∃ thread', verify p p' thread = (Ok [h], thread').
Proof.
  destruct (new_parameters_start_ceremony toy_assembly toy_params toy_seed) as (u & v & w & abc & l & Heval & H);
    [split| | | | |]; try split_and!; try done; try (repeat constructor; done).
  vm_compute in Heval. injection Heval as <- <- <- <- <-. destruct H as (p & Hp & _ & H). by exists p.
Defined.
