(* ===== verification/ChunkedGroth16.v ===== *)
(** * The second phase on serialized parameters

    [phase2/src/chunked_groth16.rs]: contributing to parameters in a buffer,
    in place and in batches, and verifying one buffer against another.  A
    cursor is a buffer and a position; the buffer does not grow.  The format of
    the keys of [snarkvm_algorithms] is a parameter. *)

From S2P Require Import Prelude Environment Phase1Parameters Curve Elements MultiExp Keypair Groth16Params MPCParameters.
From Stdlib Require Import Strings.Byte.

(** ** Cursors *)

Record Cursor := MkCursor { position : N; buffer : bytes }.

(** [std::io::Cursor] as a reader: what is consumed is skipped. *)
Definition reads {A} (m : on bytes A) : on Cursor A := λ c,
  let rest := list.drop (N.to_nat (position c)) (buffer c) in
  let '(o, rest') := m rest in
  (o, MkCursor (position c + len rest - len rest') (buffer c)).

(** [Write::write_all]: what fits is written, and [e] is the error if that is
    not everything. *)
Definition writes (e : SetupError) (data : bytes) : on Cursor unit := λ c,
  let p := N.to_nat (position c) in
  let room := length (buffer c) - p in
  (if (length data <=? room)%nat then Ok tt else Err e,
   MkCursor (position c + N.of_nat (Nat.min room (length data)))
     (take p (buffer c) ++ take room data ++ list.drop (p + length data) (buffer c))).

(** [as i64] *)
Definition as_i64 (n : N) : Z := if (n <? 2 ^ 63)%N then Z.of_N n else (Z.of_N n - 2 ^ 64)%Z.

(** [SeekFrom::Current]: before the start is an error, after the end is not. *)
Definition seek_current (offset : Z) : on Cursor unit := λ c,
  let p := (Z.of_N (position c) + offset)%Z in
  if (0 <=? p)%Z && (p <? 2 ^ 64)%Z then (Ok tt, MkCursor (Z.to_N p) (buffer c)) else (Err IoError, c).
Definition seek_start (p : N) : on Cursor unit := λ c, (Ok tt, MkCursor p (buffer c)).

(** A cursor of its own on a slice. *)
Definition on_slice {A} (m : on Cursor A) : on bytes A := λ data,
  let '(o, c) := m (MkCursor 0 data) in (o, buffer c).

(** ** Batches *)

(** A loop of [iters] full batches and one for the leftovers. *)
Definition in_batches {S} (count batch_size : N) (m : N → on S unit) : on S unit :=
  if (batch_size =? 0)%N then lift Panic
  else
    for_each (λ _, m batch_size) (u64_range 0 (count / batch_size)) ;;;
    if (0 <? count mod batch_size)%N then m (count mod batch_size)%N else ret tt.

Section chunked.
Context {E : PairingEngine} `{!Randomness E, !HashToCurve E, !KeyFormat E}.

Notation G1 := (G1Affine E).
Notation G2 := (G2Affine E).
Notation g1 := (prime_subgroup_generator : G1).
Notation g2 := (prime_subgroup_generator : G2).
Notation size1 := (serialized_size G1 CompressionYes).
Notation size2 := (serialized_size G2 CompressionYes).

(** [C::deserialize]: a compressed point, unchecked. *)
Definition deserialize_point {C : AffineCurve (Fr E)} : on bytes C := next_element CompressionYes CheckNo.

(** [skip_vec] *)
Definition skip_vec (C : AffineCurve (Fr E)) : on Cursor unit :=
  let! length := reads deserialize_u64 in
  let skip_len := usize_mul length (serialized_size C CompressionYes) in
  seek_current (as_i64 skip_len).

(** A point or key, written by its [serialize]. *)
Definition writes_point {C : AffineCurve (Fr E)} (compression : UseCompression) (p : C) : on Cursor unit :=
  writes ZexeSerializationError (serialize compression p).

(** [PublicKey::write] at a cursor. *)
Definition writes_key (k : PublicKey E) : on Cursor unit :=
  writes_point CompressionNo (delta_after k) ;;;
  writes_point CompressionNo (s k) ;;;
  writes_point CompressionNo (s_delta k) ;;;
  writes_point CompressionNo (r_delta k) ;;;
  writes IoError (transcript k).

(** [mul_query] *)
Definition mul_query {C : AffineCurve (Fr E)} (element : Fr E) (num_els : N) : on Cursor unit :=
  let! query := reads (read_many (N.to_nat num_els) (deserialize_point (C := C))) in
  let! query := lift (batch_mul query element) in
  seek_current (- as_i64 (usize_mul num_els (serialized_size C CompressionYes))) ;;;
  for_each (writes_point CompressionYes) query.

(** [chunked_mul_queries] *)
Definition chunked_mul_queries (C : AffineCurve (Fr E)) (query_len : N) (element : Fr E) (batch_size : N)
    : on bytes unit :=
  on_slice (in_batches query_len batch_size (mul_query (C := C) element)).

(** The two threads of [contribute] on what follows the length of the [h]
    query: the query itself, and - after another length - the [l] query. *)
Definition mul_both (h_query_len : N) (delta_inv : Fr E) (batch_size : N) (l_query_len : N) (h l : bytes)
    : setup unit * bytes :=
  let '(oh, h) := chunked_mul_queries G1 h_query_len delta_inv batch_size h in
  let '(ol, l) := slice_mut 8 (len l) (chunked_mul_queries G1 l_query_len delta_inv batch_size) l in
  (join_all [oh; ol], h ++ l).

Definition mul_queries (h_query_len : N) (delta_inv : Fr E) (batch_size : N) : on bytes N := λ remaining,
  match split_at (usize_mul h_query_len size1) remaining with
  | Ok (h, l) =>
      match (deserialize_u64 l).1 with
      | Ok l_query_len =>
          let '(o, remaining) := mul_both h_query_len delta_inv batch_size l_query_len h l in
          (try! _ := o in Ok l_query_len, remaining)
      | Err e => (Err e, remaining)
      | Panic => (Panic, remaining)
      end
  | Err e => (Err e, remaining)
  | Panic => (Panic, remaining)
  end.

(** [&mut buffer[p..]] of a cursor. *)
Definition from_position {A} (p : N) (m : on bytes A) : on Cursor A := λ c,
  let '(o, data) := slice_mut p (len (buffer c)) m (buffer c) in (o, MkCursor (position c) data).

(** [contribute], the reading part: the verifying key, delta in G1, the hash
    and the contributions. *)
Definition read_parameters : on Cursor (VerifyingKey E * G1 * bytes * list (PublicKey E)) :=
  let! vk := reads deserialize_vk in
  seek_current (as_i64 size1) ;;;
  let! delta_g1 := reads (deserialize_point (C := G1)) in
  skip_vec G1 ;;; skip_vec G1 ;;; skip_vec G2 ;;; skip_vec G1 ;;; skip_vec G1 ;;;
  let! cs_hash := reads (read_exact 64) in
  let! contributions := reads read_batch in
  ret (vk, delta_g1, cs_hash, contributions).

(** The keys, from the start of the buffer. *)
Definition write_deltas (vk : VerifyingKey E) (delta_g1 : G1) : on Cursor unit :=
  seek_start 0 ;;;
  writes ZexeSerializationError (serialize_vk vk) ;;;
  seek_current (as_i64 size1) ;;;
  writes_point CompressionYes delta_g1.

(** The queries; the cursor is behind them afterwards. *)
Definition update_queries (delta_inv : Fr E) (batch_size : N) : on Cursor unit :=
  skip_vec G1 ;;; skip_vec G1 ;;; skip_vec G2 ;;;
  let! h_query_len := reads deserialize_u64 in
  let! pos := gets position in
  let! l_query_len := from_position pos (mul_queries h_query_len delta_inv batch_size) in
  seek_start (usize_add (usize_add pos (usize_mul (usize_add l_query_len h_query_len) size1)) 8).

(** The new key behind the [count] contributions so far. *)
Definition append_key (count : N) (public_key : PublicKey E) : on Cursor unit :=
  seek_current 64 ;;;
  writes IoError (write_u32 (as_u32 (count + 1))) ;;;
  seek_current (as_i64 (usize_mul (size (E := E)) count)) ;;;
  writes_key public_key.

(** [contribute]; it also takes the generator and gives it back. *)
Definition contribute_chunked (batch_size : N) (rng : Rng) : on Cursor (bytes * Rng) :=
  let! r := read_parameters in
  let '(vk, delta_g1, cs_hash, contributions) := r in
  let (keypair, rng) := keypair_new delta_g1 cs_hash contributions rng in
  let hash := Keypair.hash (public_key keypair) in
  let delta := delta (private_key keypair) in
  let! delta_inv := lift (match fr_inverse delta with Some y => Ok y | None => Panic end) in
  let delta_g1 := mul delta_g1 delta in
  let vk := MkVerifyingKey (alpha_g1 vk) (beta_g2 vk) (gamma_g2 vk) (mul (delta_g2 vk) delta) (gamma_abc_g1 vk) in
  write_deltas vk delta_g1 ;;;
  update_queries delta_inv batch_size ;;;
  append_key (len contributions) (public_key keypair) ;;;
  ret (hash, rng).

(** [contribute] on a buffer. *)
Definition contribute_buffer (batch_size : N) (rng : Rng) : on bytes (bytes * Rng) :=
  on_slice (contribute_chunked batch_size rng).

(** ** Verification *)

(** [split_transcript] *)
Definition split_vec (C : AffineCurve (Fr E)) (input : bytes) : setup (bytes * bytes) :=
  try! length := fst (deserialize_u64 input) in
  try! rest := slice 8 (len input) input in
  split_at (usize_mul length (serialized_size C CompressionYes)) rest.

Definition split_transcript (input : bytes) : setup (bytes * bytes * bytes * bytes * bytes) :=
  try! r := split_vec G1 input in let '(a_g1, others) := r in
  try! r := split_vec G1 others in let '(b_g1, others) := r in
  try! r := split_vec G2 others in let '(b_g2, others) := r in
  try! r := split_vec G1 others in let '(h_g1, others) := r in
  try! r := split_vec G1 others in let '(l_g1, _) := r in
  Ok (a_g1, b_g1, b_g2, h_g1, l_g1).

(** [read_batch] of two buffers. *)
Definition read_both {C : AffineCurve (Fr E)} (n : N) : on (bytes * bytes) (list C * list C) := λ '(b, a),
  let '(ob, b) := read_many (N.to_nat n) (deserialize_point (C := C)) b in
  match ob with
  | Ok before =>
      let '(oa, a) := read_many (N.to_nat n) (deserialize_point (C := C)) a in
      (try! after := oa in Ok (before, after), (b, a))
  | Err e => (Err e, (b, a))
  | Panic => (Panic, (b, a))
  end.

(** [chunked_ensure_unchanged_vec] *)
Definition chunked_ensure_unchanged_vec (C : AffineCurve (Fr E)) (before after : bytes) (batch_size : N)
    (kind : InvariantKind) : setup unit :=
  let len_before := (len before / serialized_size C CompressionYes)%N in
  let len_after := (len after / serialized_size C CompressionYes)%N in
  try! _ := ensure_unchanged len_before len_after kind in
  fst (in_batches len_before batch_size (λ n,
    let! els := read_both (C := C) n in
    lift (ensure_unchanged_vec (fst els) (snd els) kind)) (before, after)).

(** [chunked_check_ratio]; the generator is that of the thread. *)
Definition chunked_check_ratio (before : bytes) (before_delta_g2 : G2) (after : bytes) (after_delta_g2 : G2)
    (batch_size : N) (err : string) (rng : Rng) : setup unit * Rng :=
  let len_before := (len before / size1)%N in
  let len_after := (len after / size1)%N in
  if negb (len_before =? len_after)%N then (Err (Phase2 Phase2InvalidLength), rng)
  else
    let '(o, (_, rng)) := in_batches len_before batch_size (λ n,
      let! els := zoom fst (λ t s, (t, snd s)) (read_both (C := G1) n) in
      let! pairs := zoom snd (λ t s, (fst s, t)) (merge_pairs (fst els) (snd els)) in
      lift (check_same_ratio pairs (after_delta_g2, before_delta_g2) err)) ((before, after), rng) in
    (o, rng).

(** The start of the parameters: the verifying key, beta and delta in G1. *)
Definition read_header (c : Cursor) : setup (VerifyingKey E * G1) * Cursor :=
  (let! vk := reads deserialize_vk in
   let! beta_g1 := reads (deserialize_point (C := G1)) in
   ret (vk, beta_g1)) c.

(** [verify] after the threads: what follows the queries, from [pos] on. *)
Definition verify_tail (before after : bytes) (pos : N) (vk_after : VerifyingKey E) (delta_g1_after : G1)
    : setup (list bytes) :=
  let '(ob, cb) := reads (read_exact 64) (MkCursor pos before) in
  let '(oa, ca) := reads (read_exact 64) (MkCursor pos after) in
  try! cs_hash_before := ob in
  try! cs_hash_after := oa in
  try! _ := ensure_unchanged cs_hash_before cs_hash_after CsHash in
  try! contributions_before := fst (reads read_batch cb) in
  try! contributions_after := fst (reads read_batch ca) in
  try! kept := slice 0 (len contributions_before) contributions_after in
  try! _ := ensure_unchanged contributions_before kept Contributions in
  try! pubkey := ok_or (last contributions_after) (Phase2 NoContributions) in
  try! _ := ensure_unchanged (delta_after pubkey) delta_g1_after DeltaG1 in
  try! _ := check_same_ratio (g1, delta_after pubkey) (g2, delta_g2 vk_after) "Inconsistent G2 Delta" in
  verify_transcript cs_hash_before contributions_after.

(** The five threads. *)
Definition verify_queries (before after : bytes * bytes * bytes * bytes * bytes) (delta_before delta_after : G2)
    (batch_size : N) (rng : Rng) : setup unit * Rng :=
  let '(before_alpha_g1, before_beta_g1, before_beta_g2, before_h, before_l) := before in
  let '(after_alpha_g1, after_beta_g1, after_beta_g2, after_h, after_l) := after in
  let '(oh, rng) := chunked_check_ratio before_h delta_before after_h delta_after batch_size "H_query ratio check failed" rng in
  let '(ol, rng) := chunked_check_ratio before_l delta_before after_l delta_after batch_size "L_query ratio check failed" rng in
  (join_all [chunked_ensure_unchanged_vec G1 before_alpha_g1 after_alpha_g1 batch_size AlphaG1Query;
             chunked_ensure_unchanged_vec G1 before_beta_g1 after_beta_g1 batch_size BetaG1Query;
             chunked_ensure_unchanged_vec G2 before_beta_g2 after_beta_g2 batch_size BetaG2Query; oh; ol], rng).

(** [verify] *)
Definition verify_chunked (before after : bytes) (batch_size : N) : on Rng (list bytes) :=
  let (ob, cb) := read_header (MkCursor 0 before) in
  let! b := lift ob in
  let (os, cb) := seek_current (as_i64 size1) cb in
  lift os ;;;
  let (oa, ca) := read_header (MkCursor 0 after) in
  let! a := lift oa in
  let (od, ca) := reads (deserialize_point (C := G1)) ca in
  let! delta_g1_after := lift od in
  let (vk_before, beta_g1_before) := b : VerifyingKey E * G1 in
  let (vk_after, beta_g1_after) := a : VerifyingKey E * G1 in
  lift (ensure_unchanged (alpha_g1 vk_before) (alpha_g1 vk_after) AlphaG1Unchanged) ;;;
  lift (ensure_unchanged beta_g1_before beta_g1_after BetaG1Unchanged) ;;;
  lift (ensure_unchanged (beta_g2 vk_before) (beta_g2 vk_after) BetaG2Unchanged) ;;;
  lift (ensure_unchanged (gamma_g2 vk_before) (gamma_g2 vk_after) GammaG2) ;;;
  lift (ensure_unchanged_vec (gamma_abc_g1 vk_before) (gamma_abc_g1 vk_after) GammaAbcG1) ;;;
  let! remaining_before := lift (slice (position cb) (len before) before) in
  let! remaining_after := lift (slice (position ca) (len after) after) in
  let! bs := lift (split_transcript remaining_before) in
  let! as_ := lift (split_transcript remaining_after) in
  let '(before_alpha_g1, before_beta_g1, before_beta_g2, before_h, before_l) := bs in
  let pos := (position ca + 5 * 8 + len before_alpha_g1 + len before_beta_g1 + len before_beta_g2
              + len before_h + len before_l)%N in
  (λ rng, verify_queries bs as_ (delta_g2 vk_before) (delta_g2 vk_after) batch_size rng) ;;;
  lift (verify_tail before after pos vk_after delta_g1_after).
End chunked.
