(* ===== verification/ChunkedContributions.v ===== *)
(** * Contributing in place

    The contribution to serialized parameters is the contribution to the
    parameters: whatever the batch size, the buffer afterwards holds what
    [MPCParameters::write] makes of the result of [MPCParameters::contribute]. *)

From S2P Require Import Prelude Environment Phase1Parameters Curve Elements MultiExp Keypair Groth16Params MPCParameters DeltaContributions KeyFiles ChunkedGroth16.
From Stdlib Require Import Strings.Byte.

(** ** Cursors inside a buffer *)

(** A cursor between two parts of its buffer. *)
Definition between (d r : bytes) : Cursor := MkCursor (len d) (d ++ r).

Lemma between_start c : MkCursor 0 c = between [] c.
Proof. done. Qed.

Lemma reads_between {A} (m : on bytes A) d x r o : m (x ++ r) = (o, r) → reads m (between d (x ++ r)) = (o, between (d ++ x) r).
Proof.
  intros Hm. unfold reads, between. cbn [position buffer]. unfold len. rewrite Nat2N.id, drop_app_length, Hm.
  rewrite app_assoc, !length_app. f_equal. f_equal. lia.
Qed.
Lemma writes_between e data d x r :
  length data = length x → writes e data (between d (x ++ r)) = (Ok tt, between (d ++ data) r).
Proof.
  intros Hl. unfold writes, between. cbn [position buffer]. unfold len. rewrite Nat2N.id, !length_app.
  replace (length d + (length x + length r) - length d) with (length x + length r) by lia.
  rewrite (proj2 (Nat.leb_le _ _)) by lia. f_equal. f_equal.
  - rewrite Nat.min_r by lia. lia.
  - rewrite take_app_length, take_ge by lia. rewrite <-app_assoc. do 2 f_equal.
    rewrite drop_app_ge by lia. replace (length d + length data - length d) with (length x) by lia. apply drop_app_length.
Qed.
Lemma seek_start_between d r d' r' : d ++ r = d' ++ r' → seek_start (len d') (between d r) = (Ok tt, between d' r').
Proof. intros Hd. unfold seek_start, between. cbn [buffer]. by rewrite Hd. Qed.
Lemma seek_start_position d r d' r' n :
  d ++ r = d' ++ r' → n = len d' → seek_start n (between d r) = (Ok tt, between d' r').
Proof. intros Hd ->. by apply seek_start_between. Qed.
Lemma as_i64_small n : (n < 2 ^ 63)%N → as_i64 n = Z.of_N n.
Proof. intros Hn. unfold as_i64. by rewrite (proj2 (N.ltb_lt _ _)). Qed.
Lemma seek_forward d x r : (len d + len x + len r < 2 ^ 63)%N →
  seek_current (as_i64 (len x)) (between d (x ++ r)) = (Ok tt, between (d ++ x) r).
Proof.
  intros Hl. rewrite as_i64_small by lia. unfold seek_current, between. cbn [position buffer].
  change (2 ^ 63)%N with 9223372036854775808%N in *. change (2 ^ 64)%Z with 18446744073709551616%Z.
  rewrite (proj2 (Z.leb_le _ _)), (proj2 (Z.ltb_lt _ _)) by lia. cbn [andb]. rewrite app_assoc, len_app. do 2 f_equal. lia.
Qed.
Lemma seek_back d x r : (len d + len x + len r < 2 ^ 63)%N →
  seek_current (- as_i64 (len x)) (between (d ++ x) r) = (Ok tt, between d (x ++ r)).
Proof.
  intros Hl. rewrite as_i64_small by lia. unfold seek_current, between. cbn [position buffer].
  change (2 ^ 63)%N with 9223372036854775808%N in *. change (2 ^ 64)%Z with 18446744073709551616%Z. rewrite len_app.
  rewrite (proj2 (Z.leb_le _ _)), (proj2 (Z.ltb_lt _ _)) by lia. cbn [andb]. rewrite app_assoc. do 2 f_equal. lia.
Qed.

(** ** Points and vectors *)

Section points.
Context {E : PairingEngine} `{!EngineLaws E}.
Context {C : AffineCurve (Fr E)} `{!CurveLaws C}.
Implicit Types (v : list C).

Definition scaled (x : Fr E) v : list C := (λ q, mul q x) <$> v.

Lemma write_points v v' d rest : length v' = length v →
  for_each (writes_point (E := E) CompressionYes) v' (between d (encode CompressionYes v ++ rest)) =
  (Ok tt, between (d ++ encode CompressionYes v') rest).
Proof.
  revert v d. induction v' as [|q v' IH]; intros [|p v] d Hl; try done.
  - cbn. by rewrite app_nil_r.
  - cbn [for_each]. change (encode CompressionYes (p :: v)) with (serialize CompressionYes p ++ encode CompressionYes v).
    rewrite <-app_assoc. unfold bind at 1, writes_point at 1.
    rewrite writes_between by (by rewrite !serialize_width). rewrite IH by (injection Hl; done).
    change (encode CompressionYes (q :: v')) with (serialize CompressionYes q ++ encode CompressionYes v').
    by rewrite <-app_assoc.
Qed.

Lemma mul_query_between x v d rest :
  Forall in_subgroup v → (len d + len (encode CompressionYes v) + len rest < 2 ^ 63)%N →
  mul_query (E := E) (C := C) x (len v) (between d (encode CompressionYes v ++ rest)) =
  (Ok tt, between (d ++ encode CompressionYes (scaled x v)) rest).
Proof.
  intros Hv Hl. unfold mul_query. replace (N.to_nat (len v)) with (length v) by (unfold len; lia).
  unfold bind at 1. rewrite (reads_between _ _ _ _ _ (read_points v rest Hv)).
  unfold bind at 1, lift, batch_mul. unfold bind at 1.
  rewrite u64_mul_exact, <-encode_len; [|].
  - rewrite seek_back by done. apply write_points. apply length_fmap.
  - rewrite <-encode_len. change u64_modulus with (2 ^ 64)%N.
    change (2 ^ 63)%N with 9223372036854775808%N in *. change (2 ^ 64)%N with 18446744073709551616%N. lia.
Qed.
End points.

Section batches.
Context {E : PairingEngine} `{!EngineLaws E}.
Context {C : AffineCurve (Fr E)} `{!CurveLaws C}.
Implicit Types (v : list C).

Lemma scaled_app (x : Fr E) v v' : scaled x (v ++ v') = scaled x v ++ scaled x v'.
Proof. apply fmap_app. Qed.
Lemma encode_scaled_len (x : Fr E) v : len (encode CompressionYes (scaled x v)) = len (encode CompressionYes v).
Proof. unfold len, scaled. by rewrite !encode_length, length_fmap. Qed.

(** Full batches, one after the other. *)
Lemma full_batches {B} (l : list B) (x : Fr E) b v d rest :
  length v = length l * b → Forall in_subgroup v → (len d + len (encode CompressionYes v) + len rest < 2 ^ 63)%N →
  for_each (λ _, mul_query (E := E) (C := C) x (N.of_nat b)) l (between d (encode CompressionYes v ++ rest)) =
  (Ok tt, between (d ++ encode CompressionYes (scaled x v)) rest).
Proof.
  revert v d. induction l as [|y l IH]; intros v d Hl Hv Hs.
  - destruct v; [|done]. cbn. by rewrite app_nil_r.
  - cbn [for_each length] in *. rewrite <-(take_drop b v) in Hv, Hs |- *. apply Forall_app in Hv as [Hv1 Hv2].
    rewrite encode_app, len_app in Hs. rewrite encode_app, <-app_assoc, scaled_app, encode_app.
    assert (N.of_nat b = len (take b v)) as Hb by (unfold len; rewrite length_take; lia).
    unfold bind. rewrite Hb, mul_query_between; [|done|rewrite len_app; lia]. rewrite <-Hb, IH, <-app_assoc; try done.
    + rewrite length_drop. lia.
    + rewrite len_app, encode_scaled_len. lia.
Qed.

(** A whole query, in batches. *)
Lemma mul_queries_between (x : Fr E) b v d rest :
  (0 < b)%N → Forall in_subgroup v → (len d + len (encode CompressionYes v) + len rest < 2 ^ 63)%N →
  in_batches (len v) b (mul_query (E := E) (C := C) x) (between d (encode CompressionYes v ++ rest)) =
  (Ok tt, between (d ++ encode CompressionYes (scaled x v)) rest).
Proof.
  intros Hb Hv Hs. unfold in_batches. rewrite (proj2 (N.eqb_neq _ _)) by lia.
  pose proof (N.div_mod (len v) b ltac:(lia)) as Hdiv. pose proof (N.mod_lt (len v) b ltac:(lia)) as Hmod.
  set (q := (len v / b)%N) in *. set (r := (len v mod b)%N) in *. set (k := N.to_nat (q * b)).
  assert (k ≤ length v) as Hk by (unfold len in Hdiv; lia).
  assert (len (list.drop k v) = r) as Hr by (unfold len in *; rewrite length_drop; lia).
  assert (v = take k v ++ list.drop k v) as Hsplit by (by rewrite take_drop).
  assert (encode CompressionYes v = encode CompressionYes (take k v) ++ encode CompressionYes (list.drop k v)) as He
    by (by rewrite <-encode_app, take_drop).
  assert (scaled x v = scaled x (take k v) ++ scaled x (list.drop k v)) as Hsc by (by rewrite <-scaled_app, take_drop).
  rewrite Hsplit in Hv. apply Forall_app in Hv as [Hv1 Hv2]. rewrite He, len_app in Hs.
  rewrite He, Hsc, encode_app, <-app_assoc. unfold bind at 1.
  pose proof (full_batches (u64_range 0 q) x (N.to_nat b) (take k v) d (encode CompressionYes (list.drop k v) ++ rest)) as F.
  rewrite N2Nat.id in F. rewrite F; try done.
  - destruct (N.ltb_spec 0 r) as [Hpos|Hzero].
    + rewrite <-Hr, mul_query_between, <-app_assoc; [done|done|]. rewrite len_app, encode_scaled_len. lia.
    + assert (list.drop k v = []) as -> by (apply length_zero_iff_nil; unfold len in Hr; lia).
      cbn. by rewrite !app_nil_r.
  - rewrite length_take, u64_range_length. subst k. lia.
  - rewrite len_app. lia.
Qed.

Lemma chunked_mul_queries_ok (x : Fr E) b v rest :
  (0 < b)%N → Forall in_subgroup v → (len (encode CompressionYes v) + len rest < 2 ^ 63)%N →
  chunked_mul_queries (E := E) C (len v) x b (encode CompressionYes v ++ rest) =
  (Ok tt, encode CompressionYes (scaled x v) ++ rest).
Proof.
  intros Hb Hv Hs. unfold chunked_mul_queries, on_slice. rewrite between_start.
  by rewrite (mul_queries_between x b v [] rest Hb Hv).
Qed.
End batches.

(** Lengths of concatenations, below 2^63. *)
Ltac lengths := rewrite ?len_app, ?len_nil in *; change (2 ^ 63)%N with 9223372036854775808%N in *; lia.

Section format.
Context {E : PairingEngine} `{!Randomness E, !HashToCurve E, !KeyFormat E}.
Context `{!EngineLaws E, !RandomnessLaws E, !HashToCurveLaws E, !KeyFormatLaws E}.
Implicit Types (p : MPCParameters E) (k : PublicKey E).

(** ** The buffer, part by part *)

Lemma vec_length {C : AffineCurve (Fr E)} `{!CurveLaws C} (v : list C) :
  len (vec v) = (8 + len (encode CompressionYes v))%N.
Proof. unfold vec. rewrite len_app. f_equal. unfold len. by rewrite u64_length. Qed.
Lemma skip_vec_between {C : AffineCurve (Fr E)} `{!CurveLaws C} (v : list C) d rest :
  (len v < u64_modulus)%N → (len d + len (vec v) + len rest < 2 ^ 63)%N →
  skip_vec C (between d (vec v ++ rest)) = (Ok tt, between (d ++ vec v) rest).
Proof.
  intros Hv Hs. rewrite vec_length in Hs. unfold skip_vec, vec. rewrite <-app_assoc. unfold bind.
  rewrite (reads_between _ _ _ _ _ (read_u64 (len v) _ Hv)).
  assert (len (serialize_u64 (E := E) (len v)) = 8%N) as H8 by (unfold len; by rewrite u64_length).
  rewrite u64_mul_exact, <-encode_len.
  - rewrite seek_forward, <-app_assoc; [done|]. rewrite len_app, H8. lia.
  - rewrite <-encode_len. change u64_modulus with 18446744073709551616%N.
    change (2 ^ 63)%N with 9223372036854775808%N in Hs. lia.
Qed.
Lemma reads_point {C : AffineCurve (Fr E)} `{!CurveLaws C} (q : C) d rest : in_subgroup q →
  reads (deserialize_point (E := E) (C := C)) (between d (serialize CompressionYes q ++ rest)) =
  (Ok q, between (d ++ serialize CompressionYes q) rest).
Proof. intros Hq. apply reads_between. by apply next_element_ok. Qed.
Lemma writes_point_between {C : AffineCurve (Fr E)} `{!CurveLaws C} c (q q' : C) d rest :
  writes_point (E := E) c q (between d (serialize c q' ++ rest)) = (Ok tt, between (d ++ serialize c q) rest).
Proof. apply writes_between. by rewrite !serialize_width. Qed.
Lemma skip_point {C : AffineCurve (Fr E)} `{!CurveLaws C} (q : C) d rest :
  (len d + len (serialize CompressionYes q) + len rest < 2 ^ 63)%N →
  seek_current (as_i64 (serialized_size C CompressionYes)) (between d (serialize CompressionYes q ++ rest)) =
  (Ok tt, between (d ++ serialize CompressionYes q) rest).
Proof.
  intros Hs. assert (serialized_size C CompressionYes = len (serialize CompressionYes q)) as ->
    by (unfold len; rewrite serialize_width; unfold width; lia).
  by apply seek_forward.
Qed.

(** The new key goes to the room behind the old ones. *)
Lemma write_length k : length (transcript k) = 64 → len (write k) = size (E := E).
Proof.
  intros Ht. unfold write, size, len. rewrite !length_app, !serialize_length, Ht. lia.
Qed.
Lemma writes_key_between k d room rest : length (transcript k) = 64 → len room = size (E := E) →
  writes_key k (between d (room ++ rest)) = (Ok tt, between (d ++ write k) rest).
Proof.
  intros Ht Hr. pose proof (serialize_width (C := G1Affine E) CompressionNo) as W1.
  pose proof (serialize_width (C := G2Affine E) CompressionNo) as W2.
  set (w := width (G1Affine E) CompressionNo) in *. set (w' := width (G2Affine E) CompressionNo) in *.
  assert (length room = w + (w + (w + (w' + 64)))) as Hl by (unfold size, len, w, w', width in *; lia).
  rewrite <-(take_drop w room). set (r1 := list.drop w room). rewrite <-(take_drop w r1). set (r2 := list.drop w r1).
  rewrite <-(take_drop w r2). set (r3 := list.drop w r2). rewrite <-(take_drop w' r3). set (r4 := list.drop w' r3).
  assert (length r1 = w + (w + (w' + 64)) ∧ length r2 = w + (w' + 64) ∧ length r3 = w' + 64 ∧ length r4 = 64)
    as (L1 & L2 & L3 & L4) by (unfold r4, r3, r2, r1; rewrite !length_drop; lia).
  unfold writes_key, writes_point, bind. rewrite <-!app_assoc.
  do 4 (rewrite writes_between; [|rewrite ?W1, ?W2, length_take; lia]). rewrite writes_between by lia.
  unfold write. by rewrite <-!app_assoc.
Qed.

(** ** The whole buffer *)


Lemma slice_mut_tail {A B} (d r r' : list A) (m : on (list A) B) o :
  m r = (o, r') → slice_mut (len d) (len (d ++ r)) m (d ++ r) = (o, d ++ r').
Proof.
  intros Hm. unfold len. rewrite (slice_mut_ok _ _ m (d ++ r) o r').
  - rewrite take_app_length, drop_ge, app_nil_r by lia. done.
  - rewrite length_app. lia.
  - rewrite length_app, drop_app_length, take_ge by lia. exact Hm.
Qed.
Lemma from_position_between {A} (m : on bytes A) d r o r' :
  m r = (o, r') → from_position (len d) m (between d r) = (o, between d r').
Proof. intros Hm. unfold from_position, between. cbn [position buffer]. by rewrite (slice_mut_tail d r r' m o). Qed.

(** Both queries, from behind the length of the first. *)
Lemma mul_queries_ok y b (h l : list (G1Affine E)) rest :
  (0 < b)%N → Forall in_subgroup h → Forall in_subgroup l →
  (len (encode CompressionYes h) + len (vec l) + len rest < 2 ^ 63)%N →
  mul_queries (len h) y b (encode CompressionYes h ++ vec l ++ rest) =
  (Ok (len l), encode CompressionYes (scaled y h) ++ vec (scaled y l) ++ rest).
Proof.
  intros Hb Hh Hl Hs. rewrite vec_length in Hs. unfold mul_queries.
  change (2 ^ 63)%N with 9223372036854775808%N in *.
  assert (len h * serialized_size (G1Affine E) CompressionYes = len (encode CompressionYes h))%N as Eh
    by (by rewrite encode_len).
  rewrite u64_mul_exact, Eh by (rewrite Eh; change u64_modulus with 18446744073709551616%N; lia).
  unfold split_at. rewrite (proj2 (N.leb_le _ _)) by (rewrite len_app; lia).
  rewrite to_nat_len, take_app_length, drop_app_length. unfold vec at 1. rewrite <-app_assoc.
  assert (len l < u64_modulus)%N as Hlen.
  { rewrite encode_len in Hs. rewrite encode_len in Hs. pose proof (serialized_size_pos (C := G1Affine E) CompressionYes).
    change u64_modulus with 18446744073709551616%N. nia. }
  rewrite read_u64 by done. cbn [fst]. unfold mul_both.
  rewrite <-(app_nil_r (encode CompressionYes h)), chunked_mul_queries_ok; [|done|done|change (len []) with 0%N; lia].
  assert (len (serialize_u64 (E := E) (len l)) = 8%N) as L8 by (unfold len; by rewrite u64_length).
  unfold vec. rewrite <-!app_assoc, <-L8.
  erewrite slice_mut_tail by (apply chunked_mul_queries_ok; [done|done|lia]).
  rewrite app_nil_r. cbn [join_all bind_outcome].
  replace (len (scaled y l)) with (len l) by (unfold len, scaled; by rewrite length_fmap). done.
Qed.

(** Parameters as [MPCParameters::write] writes and [contribute] reads them. *)
Record writable p : Prop := {
  wr_vk : vk_in_group (vk (params p));
  wr_delta_g1 : in_subgroup (delta_g1 (params p));
  wr_h : Forall in_subgroup (h_query (params p));
  wr_l : Forall in_subgroup (l_query (params p));
  wr_cs_hash : length (cs_hash p) = 64;
  wr_contributions : Forall readable (contributions p);
  wr_count : (len (contributions p) + 1 < 2 ^ 32)%N;
}.

Lemma vec_bound {C : AffineCurve (Fr E)} `{!CurveLaws C} (v : list C) :
  (len (vec v) < 2 ^ 63)%N → (len v < u64_modulus)%N.
Proof.
  rewrite vec_length, encode_len. pose proof (serialized_size_pos (C := C) CompressionYes).
  change u64_modulus with 18446744073709551616%N. change (2 ^ 63)%N with 9223372036854775808%N. nia.
Qed.

Lemma vec_scaled {C : AffineCurve (Fr E)} `{!CurveLaws C} y (v : list C) :
  vec (scaled y v) = serialize_u64 (len v) ++ encode CompressionYes (scaled y v).
Proof. unfold vec, scaled, len. by rewrite length_fmap. Qed.
Lemma vec_scaled_len {C : AffineCurve (Fr E)} `{!CurveLaws C} y (v : list C) : len (vec (scaled y v)) = len (vec v).
Proof. by rewrite vec_scaled, len_app, encode_scaled_len, <-len_app. Qed.
Lemma serialize_len {C : AffineCurve (Fr E)} `{!CurveLaws C} (q q' : C) :
  len (serialize CompressionYes q) = len (serialize CompressionYes q').
Proof. unfold len. by rewrite !serialize_width. Qed.

(** The parts of a file, in order. *)
Definition file V beta_g1 delta_g1 a b_g1 b_g2 h l cs_hash count keys : bytes :=
  V ++ beta_g1 ++ delta_g1 ++ a ++ b_g1 ++ b_g2 ++ h ++ l ++ cs_hash ++ count ++ keys.

Lemma mpc_layout p tail :
  let k := params p in
  mpc_write p ++ tail =
  file (serialize_vk (vk k)) (serialize CompressionYes (beta_g1 k)) (serialize CompressionYes (delta_g1 k))
    (vec (a_query k)) (vec (b_g1_query k)) (vec (b_g2_query k)) (vec (h_query k)) (vec (l_query k)) (cs_hash p)
    (write_u32 (as_u32 (len (contributions p)))) (concat (write <$> contributions p) ++ tail).
Proof. intros k. unfold mpc_write, write_batch, file. subst k. by rewrite pk_layout, <-!app_assoc. Qed.

Lemma read_parameters_ok p tail :
  writable p → (len (mpc_write p ++ tail) < 2 ^ 63)%N →
  read_parameters (MkCursor 0 (mpc_write p ++ tail)) =
  (Ok (vk (params p), delta_g1 (params p), cs_hash p, contributions p), between (mpc_write p) tail).
Proof.
  intros Hp. rewrite mpc_layout, between_start. unfold file. intros Hl. unfold read_parameters.
  erewrite run_bind by (apply reads_between, read_vk, Hp).
  erewrite run_bind by (apply skip_point; lengths).
  erewrite run_bind by (apply reads_point, Hp).
  erewrite run_bind by (apply skip_vec_between; [apply vec_bound; lengths | lengths]).
  erewrite run_bind by (apply skip_vec_between; [apply vec_bound; lengths | lengths]).
  erewrite run_bind by (apply skip_vec_between; [apply vec_bound; lengths | lengths]).
  erewrite run_bind by (apply skip_vec_between; [apply vec_bound; lengths | lengths]).
  erewrite run_bind by (apply skip_vec_between; [apply vec_bound; lengths | lengths]).
  erewrite run_bind by (apply reads_between, read_exact_ok, Hp).
  rewrite (app_assoc (write_u32 _)).
  erewrite run_bind; [|apply reads_between, read_write_batch; [apply Hp|pose proof (wr_count _ Hp); lia]].
  unfold ret. do 2 f_equal. unfold mpc_write, write_batch. rewrite pk_layout. by rewrite <-!app_assoc.
Qed.


Lemma write_deltas_ok (v v' : VerifyingKey E) (b1 d1 d1' : G1Affine E) d0 r0 r :
  length (gamma_abc_g1 v) = length (gamma_abc_g1 v') →
  d0 ++ r0 = serialize_vk v ++ serialize CompressionYes b1 ++ serialize CompressionYes d1 ++ r →
  (len (d0 ++ r0) < 2 ^ 63)%N →
  write_deltas v' d1' (between d0 r0) =
  (Ok tt, between (serialize_vk v' ++ serialize CompressionYes b1 ++ serialize CompressionYes d1') r).
Proof.
  intros Hv Heq Hl. rewrite Heq in Hl. pose proof (vk_length _ _ Hv) as Hvl. unfold write_deltas.
  assert (len (serialize_vk v) = len (serialize_vk v')) as Hvl' by (unfold len; by rewrite Hvl).
  change 0%N with (len ([] : bytes)). erewrite run_bind_tt by (apply seek_start_between; exact Heq).
  erewrite run_bind_tt by (by apply writes_between).
  erewrite run_bind_tt by (apply skip_point; lengths).
  rewrite writes_point_between. by rewrite <-!app_assoc.
Qed.

(** The position behind both queries is computed without overflow. *)
Lemma behind_queries (n h l w : N) :
  (0 < w)%N → (n + (h * w + (8 + l * w)) < u64_modulus)%N →
  usize_add (usize_add n (usize_mul (usize_add l h) w)) 8 = (n + (h * w + (8 + l * w)))%N.
Proof.
  intros Hw Hs. assert ((l + h) * w = h * w + l * w)%N as Hm by lia. assert (l + h <= (l + h) * w)%N as Hle by nia.
  rewrite (u64_add_exact l h) by lia. rewrite (u64_mul_exact (l + h) w) by lia.
  rewrite (u64_add_exact n) by lia. rewrite u64_add_exact by lia. lia.
Qed.

Lemma update_queries_ok y b (a b1 h l : list (G1Affine E)) (b2 : list (G2Affine E)) d r :
  (0 < b)%N → Forall in_subgroup h → Forall in_subgroup l →
  (len (d ++ vec a ++ vec b1 ++ vec b2 ++ vec h ++ vec l ++ r) < 2 ^ 63)%N →
  update_queries y b (between d (vec a ++ vec b1 ++ vec b2 ++ vec h ++ vec l ++ r)) =
  (Ok tt, between (d ++ vec a ++ vec b1 ++ vec b2 ++ vec (scaled y h) ++ vec (scaled y l)) r).
Proof.
  intros Hb Hh Hl Hs. unfold update_queries.
  erewrite run_bind_tt by (apply skip_vec_between; [apply vec_bound; lengths | lengths]).
  erewrite run_bind_tt by (apply skip_vec_between; [apply vec_bound; lengths | lengths]).
  erewrite run_bind_tt by (apply skip_vec_between; [apply vec_bound; lengths | lengths]).
  set (d' := (((d ++ vec a) ++ vec b1) ++ vec b2)).
  assert (len d' + len (vec h) + len (vec l) + len r < 2 ^ 63)%N as Hs' by (subst d'; lengths).
  pose proof (vec_length h) as Lh. pose proof (vec_length l) as Ll. pose proof (u64_length (len h)) as L8.
  assert (vec h = serialize_u64 (len h) ++ encode CompressionYes h) as -> by done. rewrite <-app_assoc.
  erewrite run_bind by (apply reads_between, read_u64, vec_bound; lengths).
  erewrite run_bind by done.
  change (position (between (d' ++ serialize_u64 (len h)) (encode CompressionYes h ++ vec l ++ r)))
    with (len (d' ++ serialize_u64 (len h))).
  erewrite run_bind by (apply from_position_between, mul_queries_ok; [done..|lengths]).
  assert (len (serialize_u64 (E := E) (len h)) = 8%N) as L8' by (unfold len at 1; by rewrite L8).
  pose proof (encode_len h) as Eh. pose proof (encode_len l) as El.
  pose proof (encode_scaled_len y h) as Sh. pose proof (encode_scaled_len y l) as Sl.
  assert (d' ++ vec (scaled y h) ++ vec (scaled y l) =
          (d' ++ serialize_u64 (len h)) ++ encode CompressionYes (scaled y h) ++ vec (scaled y l)) as Hd'
    by (rewrite (vec_scaled y h); by rewrite <-!app_assoc).
  rewrite (seek_start_position _ _ (d' ++ vec (scaled y h) ++ vec (scaled y l)) r).
  - do 2 f_equal. subst d'. by rewrite <-!app_assoc.
  - rewrite Hd'. by rewrite <-!app_assoc.
  - pose proof (vec_length (scaled y l)) as Lsl. rewrite Hd', !len_app, L8', Lsl, Sh, Sl, Eh, El.
    apply behind_queries; [apply serialized_size_pos|].
    change u64_modulus with 18446744073709551616%N. lengths.
Qed.

Lemma keys_length ks : Forall (λ k, length (transcript k) = 64) ks →
  len (concat (write <$> ks)) = (size (E := E) * len ks)%N.
Proof.
  induction 1 as [|k ks Hk _ IH]; [by rewrite N.mul_0_r|]. rewrite fmap_cons. cbn [concat].
  rewrite len_app, write_length, IH by done. unfold len. cbn [length]. lia.
Qed.
Lemma write_u32_length n : length (write_u32 n) = 4.
Proof. done. Qed.

Lemma append_key_ok (c : bytes) ks k d room r n :
  length c = 64 → length (transcript k) = 64 → len room = size (E := E) → Forall (λ k, length (transcript k) = 64) ks →
  (len (d ++ c ++ write_u32 n ++ concat (write <$> ks) ++ room ++ r) < 2 ^ 63)%N →
  append_key (len ks) k (between d (c ++ write_u32 n ++ concat (write <$> ks) ++ room ++ r)) =
  (Ok tt, between (d ++ c ++ write_batch (ks ++ [k])) r).
Proof.
  intros Hc Hk Hroom Hks Hl. pose proof (keys_length ks Hks) as Lks. unfold append_key.
  assert (64%Z = as_i64 (len c)) as -> by (unfold len; by rewrite Hc).
  erewrite run_bind_tt by (apply seek_forward; lengths).
  erewrite run_bind_tt by (by apply writes_between).
  rewrite u64_mul_exact, <-Lks by (rewrite <-Lks; change u64_modulus with 18446744073709551616%N; lengths).
  erewrite run_bind_tt; [|apply seek_forward].
  - rewrite writes_key_between by done. do 2 f_equal. unfold write_batch. rewrite fmap_app, concat_app.
    replace (len (ks ++ [k])) with (len ks + 1)%N by (by rewrite len_app). cbn. by rewrite app_nil_r, <-!app_assoc.
  - assert (∀ n, len (write_u32 n) = 4%N) as L4 by done. rewrite ?len_app, ?L4 in *. lengths.
Qed.

Lemma rk_transcripts p : writable p → Forall (λ k, length (transcript k) = 64) (contributions p).
Proof. intros Hp. eapply Forall_impl; [apply Hp|]. by intros k []. Qed.

(** Contributing in place is contributing: for any batch size, the buffer of the
    written parameters - with room for one more key behind them - holds the
    written result of [MPCParameters::contribute] afterwards, whatever follows
    is untouched, and both return the same hash and leave the generator alike.
    Nothing overflows below 2^63 bytes. *)
Lemma contribute_in_place p (rng : Rng) batch_size (room rest : bytes)
    (Hp : writable p) (Hbatch : (0 < batch_size)%N) (Hroom : len room = size (E := E))
    (Hsize : (len (mpc_write p ++ room ++ rest) < 2 ^ 63)%N) (Hx : (rand_scalar rng).1 ≠ fr_zero) :
  ∃ h rng' p', contribute rng p = (Ok (h, rng'), p') ∧
    contribute_buffer batch_size rng (mpc_write p ++ room ++ rest) = (Ok (h, rng'), mpc_write p' ++ rest).
Proof.
  destruct (contribute_runs rng p Hx) as (y & Hy & _ & Hrun). eexists _, _, _. split; [exact Hrun|].
  unfold contribute_buffer, on_slice, contribute_chunked.
  rewrite (run_bind _ _ _ _ _ (read_parameters_ok p (room ++ rest) Hp Hsize)), keypair_new_honest.
  cbn [private_key public_key delta]. rewrite Hy, run_lift.
  set (k := honest_key _ _ _ _ _).
  pose proof (rk_transcripts p Hp) as Ht.
  erewrite run_bind_tt; [|eapply write_deltas_ok; [|apply mpc_layout|exact Hsize]; reflexivity].
  rewrite mpc_layout in Hsize. unfold file in Hsize.
  set (v' := MkVerifyingKey _ _ _ _ _).
  assert (len (serialize_vk v') = len (serialize_vk (vk (params p)))) as Lv by (unfold len; by rewrite (vk_length v' (vk (params p)))).
  pose proof (serialize_len (mul (delta_g1 (params p)) (rand_scalar rng).1) (delta_g1 (params p))) as Ld.
  pose proof (vec_scaled_len y (h_query (params p))) as Lh. pose proof (vec_scaled_len y (l_query (params p))) as Ll.
  erewrite run_bind_tt; [|apply update_queries_ok; [done|apply Hp|apply Hp|lengths]].
  erewrite run_bind_tt; [|apply append_key_ok; [apply Hp|apply blake2b_length|done|done|lengths]].
  unfold ret, between. cbn [buffer]. f_equal. unfold mpc_write. rewrite pk_layout, <-!app_assoc. done.
Qed.
End format.
