(* ===== verification/ChunkedVerification.v ===== *)
(** * Verifying in batches

    The verification of serialized parameters, for any batch size, accepts
    exactly what [MPCParameters::verify] accepts. *)

From S2P Require Import Prelude Environment Phase1Parameters Curve Elements MultiExp Keypair Groth16Params MPCParameters DeltaContributions KeyFiles ChunkedGroth16 ChunkedContributions.
From Stdlib Require Import Strings.Byte.

(** ** Batches *)

Section pieces.
Context {A : Type}.
Implicit Types v : list A.

Fixpoint full_pieces (n b : nat) v : list (list A) :=
  match n with 0 => [] | S n => take b v :: full_pieces n b (list.drop b v) end.
Definition pieces (b : N) v : list (list A) :=
  let q := N.to_nat (len v / b) in
  full_pieces q (N.to_nat b) v ++
  (if (0 <? len v mod b)%N then [list.drop (q * N.to_nat b) v] else []).

Lemma full_pieces_concat n b v : concat (full_pieces n b v) = take (n * b) v.
Proof.
  revert v. induction n as [|n IH]; intros v; [done|]. cbn [full_pieces concat]. rewrite IH.
  replace (S n * b) with (b + n * b) by lia. by rewrite take_take_drop.
Qed.
Lemma full_pieces_take n b v : full_pieces n b (take (n * b) v) = full_pieces n b v.
Proof.
  revert v. induction n as [|n IH]; intros v; [done|]. cbn [full_pieces].
  rewrite take_take, Nat.min_l by lia. f_equal. rewrite <-(IH (list.drop b v)). f_equal.
  replace (S n * b) with (b + n * b) by lia. by rewrite <-take_drop_commute.
Qed.
Lemma full_length v b : N.to_nat (len v / b * b) ≤ length v.
Proof.
  destruct (N.eq_dec b 0) as [->|Hb]; [rewrite N.mul_0_r; cbn; lia|].
  pose proof (N.Div0.mul_div_le (len v) b) as H. revert H. rewrite (N.mul_comm b).
  generalize (len v / b * b)%N. unfold len. lia.
Qed.
Lemma leftover_length v b :
  (0 < b)%N → len (list.drop (N.to_nat (len v / b) * N.to_nat b) v) = (len v mod b)%N.
Proof.
  intros Hb. pose proof (N.div_mod (len v) b ltac:(lia)) as H. rewrite <-N2Nat.inj_mul, (N.mul_comm _ b).
  revert H. generalize (b * (len v / b))%N (len v mod b)%N. unfold len. intros m r Hm. rewrite length_drop. lia.
Qed.
Lemma pieces_concat b v : (0 < b)%N → concat (pieces b v) = v.
Proof.
  intros Hb. pose proof (leftover_length v b Hb) as Hl. unfold pieces. rewrite concat_app, full_pieces_concat.
  destruct (N.ltb_spec 0 (len v mod b)) as [Hr|Hr]; cbn [concat].
  - by rewrite app_nil_r, take_drop.
  - rewrite app_nil_r. apply take_ge. apply N.le_0_r in Hr. rewrite Hr in Hl. revert Hl.
    unfold len at 1. rewrite length_drop. lia.
Qed.
Lemma full_pieces_same n b v v' :
  length v = length v' → Forall2 (λ x y, length x = length y) (full_pieces n b v) (full_pieces n b v').
Proof.
  revert v v'. induction n as [|n IH]; intros v v' Hl; [constructor|]. constructor.
  - rewrite !length_take. lia.
  - apply IH. rewrite !length_drop. lia.
Qed.
Lemma pieces_same b v v' :
  length v = length v' → Forall2 (λ x y, length x = length y) (pieces b v) (pieces b v').
Proof.
  intros Hl. unfold pieces. replace (len v') with (len v) by (unfold len; by rewrite Hl). apply Forall2_app.
  - by apply full_pieces_same.
  - destruct (0 <? _)%N; constructor; [|done]. rewrite !length_drop. lia.
Qed.
End pieces.

Section batches.
Context {E : PairingEngine} `{!EngineLaws E}.
Context {C : AffineCurve (Fr E)} `{!CurveLaws C}.
Implicit Types v x y : list C.

Lemma read_both_ok x y d d' :
  Forall in_subgroup x → Forall in_subgroup y → length x = length y →
  read_both (E := E) (len x) (encode CompressionYes x ++ d, encode CompressionYes y ++ d') = (Ok (x, y), (d, d')).
Proof.
  intros Hx Hy Hl. unfold read_both, deserialize_point. rewrite to_nat_len, read_points by done.
  rewrite Hl, read_points by done. done.
Qed.

Lemma for_each_app {T B} (g : B → on T unit) l l' t :
  for_each g (l ++ l') t = (for_each g l ;;; for_each g l') t.
Proof.
  revert t. induction l as [|z l IH]; intros t; [done|]. cbn [app for_each]. rewrite bind_assoc.
  change (bind (g z) (λ _, for_each g (l ++ l')) t = bind (g z) (λ _, for_each g l ;;; for_each g l') t).
  unfold bind at 1 2. destruct (g z t) as [[[]|e|] t']; [apply IH|done..].
Qed.

(** What a pass in batches does: [f] on the pieces, one after the other. *)
Context {S R : Type} (state : bytes → bytes → R → S) (m : N → on S unit) (f : list C → list C → on R unit).

Definition per_piece : list (list C * list C) → on R unit := for_each (λ xy, f xy.1 xy.2).
Definition batchwise : Prop := ∀ x y d d' r,
  Forall in_subgroup x → Forall in_subgroup y → length x = length y →
  m (len x) (state (encode CompressionYes x ++ d) (encode CompressionYes y ++ d') r) =
  ((f x y r).1, state d d' (f x y r).2).

Definition follows (res : setup unit * S) (o : setup unit * R) d d' : Prop :=
  ∃ e e', res = (o.1, state e e' o.2) ∧ (o.1 = Ok tt → e = d ∧ e' = d').

Lemma full_pieces_run {B} (l : list B) b v v' d d' r :
  batchwise → Forall in_subgroup v → Forall in_subgroup v' → length v = length l * b → length v' = length l * b →
  follows (for_each (λ _, m (N.of_nat b)) l (state (encode CompressionYes v ++ d) (encode CompressionYes v' ++ d') r))
    (per_piece (zip (full_pieces (length l) b v) (full_pieces (length l) b v')) r) d d'.
Proof.
  intros Hm. revert v v' r. induction l as [|z l IH]; intros v v' r Hv Hv' Hl Hl'.
  - destruct v, v'; try done. by exists d, d'.
  - cbn [for_each length full_pieces] in *. unfold per_piece. cbn [zip zip_with for_each].
    rewrite <-(take_drop b v) in Hv |- * at 1. rewrite <-(take_drop b v') in Hv' |- * at 1.
    apply Forall_app in Hv as [Hv1 Hv2], Hv' as [Hv1' Hv2']. rewrite !encode_app, <-!app_assoc.
    assert (N.of_nat b = len (take b v)) as Hb by (unfold len; rewrite length_take; lia).
    cbn [fst snd]. unfold bind. rewrite Hb at 1. rewrite Hm by (try done; rewrite !length_take; lia).
    destruct (f (take b v) (take b v') r) as [[[]|e|] r'] eqn:Hf; cbn [fst snd].
    + apply IH; [done|done|rewrite length_drop; lia..].
    + by eexists _, _.
    + by eexists _, _.
Qed.

Lemma pieces_run b v v' r :
  batchwise → (0 < b)%N → Forall in_subgroup v → Forall in_subgroup v' → length v = length v' →
  ∃ e e', in_batches (len v) b m (state (encode CompressionYes v) (encode CompressionYes v') r) =
    ((per_piece (zip (pieces b v) (pieces b v')) r).1, state e e' (per_piece (zip (pieces b v) (pieces b v')) r).2).
Proof.
  intros Hm Hb Hv Hv' Hl. unfold in_batches. rewrite (proj2 (N.eqb_neq _ _)) by lia. unfold pieces.
  assert (len v' = len v) as -> by (unfold len; by rewrite Hl).
  pose proof (leftover_length v b Hb) as Hr. pose proof (N.div_mod (len v) b ltac:(lia)) as Hdiv.
  set (q := (len v / b)%N) in *. set (k := N.to_nat q * N.to_nat b) in *.
  assert (k ≤ length v) as Hk by (subst k; rewrite <-N2Nat.inj_mul; apply full_length).
  assert (Forall2 (λ x y : list C, length x = length y) (full_pieces (N.to_nat q) (N.to_nat b) v)
    (full_pieces (N.to_nat q) (N.to_nat b) v')) as Hsame by by apply full_pieces_same.
  rewrite zip_with_app by (by eapply Forall2_length). unfold per_piece at 1 2. rewrite for_each_app.
  assert (encode CompressionYes v = encode CompressionYes (take k v) ++ encode CompressionYes (list.drop k v)) as ->
    by (by rewrite <-encode_app, take_drop).
  assert (encode CompressionYes v' = encode CompressionYes (take k v') ++ encode CompressionYes (list.drop k v')) as ->
    by (by rewrite <-encode_app, take_drop).
  pose proof (full_pieces_run (u64_range 0 q) (N.to_nat b) (take k v) (take k v') (encode CompressionYes (list.drop k v))
    (encode CompressionYes (list.drop k v')) r Hm) as F.
  rewrite N2Nat.id, u64_range_length, N.sub_0_r in F. unfold k in F. rewrite !full_pieces_take in F. fold k in F.
  rewrite <-(take_drop k v) in Hv. rewrite <-(take_drop k v') in Hv'.
  apply Forall_app in Hv as [Hv1 Hv2], Hv' as [Hv1' Hv2'].
  destruct F as (e & e' & HF & Hok); [done|done|rewrite length_take; lia|rewrite length_take; lia|].
  unfold bind. rewrite HF. fold per_piece.
  destruct (per_piece (zip (full_pieces _ _ v) _) r) as [[[]|e0|] r'] eqn:Hfull; cbn [fst snd] in *;
    [|by exists e, e'|by exists e, e'].
  destruct (Hok eq_refl) as [-> ->]. destruct (N.ltb_spec 0 (len v mod b)) as [Hpos|Hzero].
  - unfold per_piece. cbn [zip zip_with for_each fst snd]. unfold bind.
    rewrite <-Hr, <-(app_nil_r (encode _ (list.drop k v))), <-(app_nil_r (encode _ (list.drop k v'))), Hm; [|done|done|].
    + exists [], []. by destruct (f _ _ r') as [[[]|?|] r''].
    + by rewrite !length_drop, Hl.
  - by eexists _, _.
Qed.
End batches.

(** ** Unchanged vectors *)

Section unchanged.
Context {A : Type} `{EqDecision A}.

Definition unchanged (v v' : list A) kind : setup unit :=
  if bool_decide (v = v') then Ok tt else Err (Phase2 (BrokenInvariant kind)).

Lemma ensure_unchanged_vec_same (v v' : list A) kind :
  length v = length v' → ensure_unchanged_vec v v' kind = unchanged v v' kind.
Proof.
  intros Hl. unfold ensure_unchanged_vec. rewrite Hl, Nat.eqb_refl. cbn [negb]. unfold unchanged. revert v' Hl.
  induction v as [|x v IH]; intros [|y v'] Hl; try done. cbn [all_unchanged]. unfold ensure_unchanged at 1.
  destruct (bool_decide_reflect (x = y)) as [->|Hxy]; cbn [negb bind_outcome].
  - rewrite IH by (injection Hl; done). destruct (bool_decide_reflect (v = v')) as [->|Hv].
    + by rewrite bool_decide_eq_true_2.
    + rewrite bool_decide_eq_false_2; [done|congruence].
  - rewrite bool_decide_eq_false_2; [done|congruence].
Qed.
Lemma unchanged_pieces ps ps' kind :
  Forall2 (λ x y : list A, length x = length y) ps ps' →
  (for_each (λ xy, lift (ensure_unchanged_vec xy.1 xy.2 kind)) (zip ps ps') tt).1 = unchanged (concat ps) (concat ps') kind.
Proof.
  induction 1 as [|x y ps ps' Hxy _ IH]; [done|]. cbn [zip zip_with for_each concat fst snd].
  rewrite ensure_unchanged_vec_same by done. unfold unchanged in *. unfold bind, lift at 1.
  destruct (bool_decide_reflect (x = y)) as [->|Hne].
  - rewrite IH. destruct (bool_decide_reflect (concat ps = concat ps')) as [->|Hc].
    + by rewrite bool_decide_eq_true_2.
    + rewrite bool_decide_eq_false_2; [done|]. by intros ?%app_inv_head.
  - rewrite bool_decide_eq_false_2; [done|]. intros [? ?]%app_inj_1; done.
Qed.
End unchanged.

Section chunks.
Context {E : PairingEngine} `{!EngineLaws E}.

Lemma count_elements {C : AffineCurve (Fr E)} `{!CurveLaws C} (v : list C) :
  (len (encode CompressionYes v) / serialized_size C CompressionYes = len v)%N.
Proof.
  rewrite encode_len. apply N.div_mul. pose proof (serialized_size_pos (C := C) CompressionYes). lia.
Qed.

(** Comparing in batches is comparing. *)
Lemma chunked_unchanged {C : AffineCurve (Fr E)} `{!CurveLaws C} (v v' : list C) b kind :
  (0 < b)%N → Forall in_subgroup v → Forall in_subgroup v' →
  chunked_ensure_unchanged_vec C (encode CompressionYes v) (encode CompressionYes v') b kind = unchanged v v' kind.
Proof.
  intros Hb Hv Hv'. unfold chunked_ensure_unchanged_vec. rewrite !count_elements. unfold ensure_unchanged at 1.
  destruct (bool_decide_reflect (len v = len v')) as [Hl|Hl]; cbn [negb bind_outcome].
  - assert (length v = length v') as Hl' by (unfold len in Hl; lia).
    destruct (pieces_run (λ d d' (_ : unit), (d, d')) (λ n, let! els := read_both (C := C) n in
      lift (ensure_unchanged_vec (fst els) (snd els) kind)) (λ x y, lift (ensure_unchanged_vec x y kind)) b v v' tt)
      as (e & e' & Hrun); [|done..|].
    + intros x y d d' r Hx Hy Hxy. unfold bind. by rewrite read_both_ok.
    + rewrite Hrun. cbn [fst]. unfold per_piece. rewrite unchanged_pieces by by apply pieces_same.
      by rewrite !pieces_concat.
  - unfold unchanged. rewrite bool_decide_eq_false_2; [done|]. by intros ->.
Qed.
End chunks.

(** ** Ratios *)

Section ratios.
Context {E : PairingEngine} `{!Randomness E, !EngineLaws E, !RandomnessLaws E}.

Notation G1 := (G1Affine E).
Notation G2 := (G2Affine E).
Context (db da : G2) (err : string).
Implicit Types v : list G1.

(** The check of one batch. *)
Definition check_batch (x y : list G1) : on Rng unit :=
  let! pairs := merge_pairs x y in lift (check_same_ratio pairs (da, db) err).

Lemma chunked_ratio v v' b rng :
  (0 < b)%N → Forall in_subgroup v → Forall in_subgroup v' → length v = length v' →
  chunked_check_ratio (encode CompressionYes v) db (encode CompressionYes v') da b err rng =
  per_piece check_batch (zip (pieces b v) (pieces b v')) rng.
Proof.
  intros Hb Hv Hv' Hl. unfold chunked_check_ratio. rewrite !count_elements.
  replace (len v') with (len v) by (unfold len; by rewrite Hl). rewrite N.eqb_refl. cbn [negb].
  edestruct (pieces_run (λ d d' r, ((d, d'), r)) (λ n, let! els := zoom fst (λ t s, (t, snd s)) (read_both (C := G1) n) in
      let! pairs := zoom snd (λ t s, (fst s, t)) (merge_pairs (fst els) (snd els)) in
      lift (check_same_ratio pairs (da, db) err)) check_batch b v v' rng) as (e & e' & Hrun); [|done..|].
  - intros x y d d' r Hx Hy Hxy. unfold bind at 1, zoom at 1. cbn [fst snd]. rewrite read_both_ok by done.
    cbn [fst snd]. unfold check_batch, bind, zoom. cbn [fst snd]. by destruct (merge_pairs x y r) as [[p| |] r'].
  - rewrite Hrun. by destruct (per_piece _ _ _).
Qed.

Lemma check_batch_ok x y rng u rng' :
  length x = length y → (len x < 2 ^ 32)%N →
  check_batch x y rng = (Ok u, rng') ↔
  ∃ rs, draw (length x) rand_scalar rng = (Ok rs, rng') ∧ pairing (combination rs x) db = pairing (combination rs y) da.
Proof.
  intros Hl Hs. destruct (merge_pairs_ok x y rng Hl Hs) as (rs & rng1 & Hd & Hm). unfold check_batch, bind, lift.
  rewrite Hm. split.
  - intros [= Hc <-]. exists rs. split; [done|]. by apply check_same_ratio_ok in Hc.
  - intros (rs' & Hd' & Hp). rewrite Hd in Hd'. injection Hd' as <- <-. f_equal. by apply check_same_ratio_ok.
Qed.

(** Scaled vectors pass, whatever the randomness. *)
Lemma scaled_pieces x ps ps' rng :
  da = mul db x → in_subgroup db → Forall2 (λ p q : list G1, length p = length q) ps ps' →
  concat ps = scaled x (concat ps') → Forall in_subgroup (concat ps') → (len (concat ps) < 2 ^ 32)%N →
  ∃ rng', per_piece check_batch (zip ps ps') rng = (Ok tt, rng').
Proof.
  intros Hda Hdb Hall. revert rng. induction Hall as [|p q ps ps' Hpq _ IH]; intros rng Hsc Hsub Hs; [by exists rng|].
  cbn [concat] in *. rewrite scaled_app in Hsc. apply app_inj_1 in Hsc as [Hp Hc]; [|unfold scaled; by rewrite length_fmap].
  apply Forall_app in Hsub as [Hq Hsub]. rewrite len_app in Hs.
  destruct (draw_ok (length p) rand_scalar rng) as (rs & rng1 & Hd & _).
  destruct (IH rng1) as (rng2 & Hr); [done|done|lia|]. exists rng2.
  unfold per_piece in *. cbn [zip zip_with for_each fst snd]. unfold bind at 1.
  rewrite (proj2 (check_batch_ok p q rng tt rng1 Hpq ltac:(lia))); [done|]. exists rs. split; [done|].
  rewrite Hp, Hda. unfold scaled. rewrite combination_mul. apply pairing_mul; [|done].
  by apply combination_in_subgroup.
Qed.

Lemma unit_vector_app n m i :
  unit_vector (E := E) (n + m) i = if (i <? n)%nat then unit_vector n i ++ repeat fr_zero m
                                   else repeat fr_zero n ++ unit_vector m (i - n).
Proof.
  unfold unit_vector. rewrite repeat_app. destruct (Nat.ltb_spec i n).
  - by rewrite insert_app_l by (by rewrite repeat_length).
  - by rewrite insert_app_r_alt, repeat_length by (rewrite repeat_length; lia).
Qed.

(** With the right coefficients, whatever passes checks a chosen element. *)
Lemma picked_pieces ps ps' rng rs rng1 rng2 :
  Forall2 (λ p q : list G1, length p = length q) ps ps' → (len (concat ps) < 2 ^ 32)%N →
  draw (length (concat ps)) rand_scalar rng = (Ok rs, rng1) →
  per_piece check_batch (zip ps ps') rng = (Ok tt, rng2) →
  rng1 = rng2 ∧ ∀ i q q', concat ps !! i = Some q → concat ps' !! i = Some q' →
    rs = unit_vector (length (concat ps)) i → pairing q db = pairing q' da.
Proof.
  intros Hall. revert rng rs. induction Hall as [|x y ps ps' Hxy _ IH]; intros rng rs Hs Hd Hrun.
  - cbn in Hd, Hrun. injection Hd as <- <-. injection Hrun as <-. done.
  - cbn [concat] in *. rewrite len_app in Hs. rewrite length_app in Hd. apply draw_app in Hd as (rng0 & D1 & D2).
    unfold per_piece in *. cbn [zip zip_with for_each fst snd] in Hrun. apply bind_ok in Hrun as ([] & rng3 & Hc & Hrun).
    apply check_batch_ok in Hc as (rs' & D1' & Hp); [|done|lia]. rewrite D1 in D1'. injection D1' as <- <-.
    destruct (IH rng0 _ ltac:(lia) D2 Hrun) as [-> Hpick]. split; [done|]. intros i q q' Hq Hq' Hu.
    rewrite length_app, unit_vector_app in Hu. destruct (Nat.ltb_spec i (length x)) as [Hi|Hi].
    + rewrite lookup_app_l in Hq by done. rewrite lookup_app_l in Hq' by lia.
      rewrite Hu, take_app_length' in Hp by (by rewrite unit_vector_length).
      by rewrite (combination_unit _ _ _ q), (combination_unit _ _ _ q') in Hp.
    + rewrite lookup_app_r in Hq by done. rewrite lookup_app_r in Hq' by lia. rewrite <-Hxy in Hq'.
      apply (Hpick _ _ _ Hq Hq'). rewrite Hu. by rewrite drop_app_length' by (by rewrite repeat_length).
Qed.
End ratios.

(** ** Whole files *)

Section files.
Context {E : PairingEngine} `{!Randomness E, !HashToCurve E, !KeyFormat E}.
Context `{!EngineLaws E, !RandomnessLaws E, !HashToCurveLaws E, !KeyFormatLaws E}.
Implicit Types (p before after : MPCParameters E) (r : bytes).

Notation G1 := (G1Affine E).
Notation G2 := (G2Affine E).
Notation g1 := (prime_subgroup_generator : G1).
Notation g2 := (prime_subgroup_generator : G2).

(** The written parameters, with something behind them, as a file. *)
Record in_file p r : Prop := {
  if_writable : writable p;
  if_keys : pk_in_group (params p);
  if_size : (len (mpc_write p ++ r) < 2 ^ 63)%N;
}.

Definition front p : bytes :=
  serialize_vk (vk (params p)) ++ serialize CompressionYes (beta_g1 (params p)).
Definition queries p : bytes :=
  vec (a_query (params p)) ++ vec (b_g1_query (params p)) ++ vec (b_g2_query (params p)) ++
  vec (h_query (params p)) ++ vec (l_query (params p)).
Definition back p r : bytes := cs_hash p ++ write_batch (contributions p) ++ r.

Lemma file_parts p r :
  mpc_write p ++ r = front p ++ serialize CompressionYes (delta_g1 (params p)) ++ queries p ++ back p r.
Proof. unfold mpc_write, front, queries, back. rewrite pk_layout. by rewrite <-!app_assoc. Qed.

Lemma read_header_ok p r : in_file p r →
  read_header (MkCursor 0 (mpc_write p ++ r)) =
  (Ok (vk (params p), beta_g1 (params p)),
   between (front p) (serialize CompressionYes (delta_g1 (params p)) ++ queries p ++ back p r)).
Proof.
  intros [Hw Hk _]. rewrite file_parts, between_start. unfold front. rewrite <-!app_assoc. unfold read_header.
  erewrite run_bind by (apply reads_between, read_vk, Hw).
  erewrite run_bind by (apply reads_point, Hk). done.
Qed.

Lemma split_vec_ok {C : AffineCurve (Fr E)} `{!CurveLaws C} (v : list C) rest :
  (len (vec v ++ rest) < 2 ^ 63)%N → split_vec C (vec v ++ rest) = Ok (encode CompressionYes v, rest).
Proof.
  intros Hs. assert (len v < u64_modulus)%N as Hv by (apply vec_bound; lengths). rewrite len_app, vec_length in Hs.
  unfold split_vec, vec. rewrite <-app_assoc, read_u64 by done. cbn [fst bind_outcome].
  pose proof (u64_length (len v)) as L8.
  change 8%N with (N.of_nat 8). set (e := encode CompressionYes v ++ rest).
  change (len (serialize_u64 (len v) ++ e)) with (N.of_nat (length (serialize_u64 (len v) ++ e))).
  rewrite slice_ok by (rewrite length_app; lia). cbn [bind_outcome].
  rewrite drop_app_length', take_ge by (try done; rewrite length_app; lia).
  rewrite u64_mul_exact, <-encode_len; [apply split_at_app|].
  rewrite <-encode_len. change u64_modulus with 18446744073709551616%N.
  change (2 ^ 63)%N with 9223372036854775808%N in Hs. lia.
Qed.
Lemma split_transcript_ok p r : in_file p r →
  split_transcript (queries p ++ back p r) =
  Ok (encode CompressionYes (a_query (params p)), encode CompressionYes (b_g1_query (params p)),
      encode CompressionYes (b_g2_query (params p)), encode CompressionYes (h_query (params p)),
      encode CompressionYes (l_query (params p))).
Proof.
  intros [_ _ Hs]. rewrite file_parts in Hs. unfold queries in *. rewrite <-!app_assoc in *. unfold split_transcript.
  do 5 (rewrite split_vec_ok by lengths; cbn [bind_outcome]). done.
Qed.

Lemma last_delta_last (d : G1) l k : last l = Some k → last_delta d l = delta_after k.
Proof. intros Hl. unfold last_delta. by rewrite Hl. Qed.

Lemma read_back d p r : in_file p r →
  reads (read_exact 64) (MkCursor (len d) (d ++ back p r)) =
    (Ok (cs_hash p), between (d ++ cs_hash p) (write_batch (contributions p) ++ r)) ∧
  (reads read_batch (between (d ++ cs_hash p) (write_batch (contributions p) ++ r))).1 = Ok (contributions p).
Proof.
  intros [Hw _ _]. split.
  - apply (reads_between _ d (cs_hash p) _ _), read_exact_ok, Hw.
  - rewrite (reads_between _ _ _ _ _ (read_write_batch (contributions p) r (wr_contributions _ Hw)
      ltac:(pose proof (wr_count _ Hw); lia))). done.
Qed.

Lemma verify_tail_ok d d' p p' r r' vk' (dg1 : G1) hs :
  in_file p r → in_file p' r' → len d = len d' →
  verify_tail (d ++ back p r) (d' ++ back p' r') (len d') vk' dg1 = Ok hs ↔
  cs_hash p = cs_hash p' ∧ contributions p `prefix_of` contributions p' ∧ contributions p' ≠ [] ∧
  last_delta dg1 (contributions p') = dg1 ∧ pairing g1 (delta_g2 vk') = pairing dg1 g2 ∧
  verify_transcript (cs_hash p) (contributions p') = Ok hs.
Proof.
  intros Hp Hp' Hd. destruct (read_back d p r Hp) as [Hb Hb'], (read_back d' p' r' Hp') as [Ha Ha'].
  unfold verify_tail. rewrite <-Hd at 1. rewrite Hb, Ha. cbn [bind_outcome]. rewrite Hb', Ha'. cbn [bind_outcome].
  split.
  - rewrite bind_outcome_ok. intros (u1 & Hc%ensure_unchanged_ok & H).
    apply bind_outcome_ok in H as (kept & Hs & H). apply bind_outcome_ok in H as (u2 & <-%ensure_unchanged_ok & H).
    apply bind_outcome_ok in H as (k & Hk & H). apply ok_or_ok in Hk.
    apply bind_outcome_ok in H as (u3 & <-%ensure_unchanged_ok & H).
    apply bind_outcome_ok in H as (u4 & Hr%check_same_ratio_ok & H).
    split_and!; try done; [by apply contributions_kept| |by apply last_delta_last].
    intros Hn. by rewrite Hn in Hk.
  - intros (Hc & Hs & Hn & Hl & Hr & Ht). rewrite (proj2 (ensure_unchanged_ok _ _ _ tt) Hc). cbn [bind_outcome].
    rewrite (proj2 (contributions_kept _ _) Hs). cbn [bind_outcome].
    rewrite (proj2 (ensure_unchanged_ok _ _ _ tt) eq_refl). cbn [bind_outcome].
    destruct (last (contributions p')) as [k|] eqn:Hk; [|by apply last_None in Hk]. cbn [ok_or bind_outcome].
    rewrite (last_delta_last _ _ _ Hk) in Hl.
    rewrite (proj2 (ensure_unchanged_ok _ _ _ tt) Hl). cbn [bind_outcome].
    rewrite (proj2 (check_same_ratio_ok _ _ _ _ _ tt)) by (by rewrite Hl). done.
Qed.

Lemma join_all_ok (l : list (setup unit)) u : join_all l = Ok u ↔ Forall (λ o, o = Ok tt) l.
Proof.
  destruct u. induction l as [|o l IH]; [split; [constructor|done]|]. cbn [join_all]. rewrite Forall_cons.
  destruct o as [[]|e|]; [|destruct (existsb is_panic l)|]; naive_solver.
Qed.
Lemma unchanged_ok {A} `{EqDecision A} (v v' : list A) kind : unchanged v v' kind = Ok tt ↔ v = v'.
Proof. unfold unchanged. by case_bool_decide. Qed.
Lemma slice_rest {A} (d r : list A) : slice (len d) (len (d ++ r)) (d ++ r) = Ok r.
Proof.
  unfold len. rewrite slice_ok by (rewrite length_app; lia).
  by rewrite drop_app_length, take_ge by (rewrite length_app; lia).
Qed.

(** The ratio check of a query. *)
Definition query_passes before after b (v v' : list G1) err rng rng' : Prop :=
  length v = length v' ∧
  per_piece (check_batch (delta_g2 (vk (params before))) (delta_g2 (vk (params after))) err)
    (zip (pieces b v) (pieces b v')) rng = (Ok tt, rng').

Lemma ratio_passes before after b (v v' : list G1) err rng rng' :
  (0 < b)%N → Forall in_subgroup v → Forall in_subgroup v' →
  chunked_check_ratio (encode CompressionYes v) (delta_g2 (vk (params before))) (encode CompressionYes v')
    (delta_g2 (vk (params after))) b err rng = (Ok tt, rng') ↔ query_passes before after b v v' err rng rng'.
Proof.
  intros Hb Hv Hv'. unfold query_passes. destruct (decide (length v = length v')) as [Hl|Hl].
  - rewrite chunked_ratio by done. naive_solver.
  - unfold chunked_check_ratio. rewrite !count_elements.
    rewrite (proj2 (N.eqb_neq _ _)) by (unfold len; lia). cbn [negb]. naive_solver.
Qed.

Definition encoded p : bytes * bytes * bytes * bytes * bytes :=
  (encode CompressionYes (a_query (params p)), encode CompressionYes (b_g1_query (params p)),
   encode CompressionYes (b_g2_query (params p)), encode CompressionYes (h_query (params p)),
   encode CompressionYes (l_query (params p))).

Lemma verify_queries_ok before after b rng rng' :
  (0 < b)%N → pk_in_group (params before) → pk_in_group (params after) →
  verify_queries (encoded before) (encoded after) (delta_g2 (vk (params before))) (delta_g2 (vk (params after))) b rng =
    (Ok tt, rng') ↔
  a_query (params before) = a_query (params after) ∧ b_g1_query (params before) = b_g1_query (params after) ∧
  b_g2_query (params before) = b_g2_query (params after) ∧
  ∃ rng1, query_passes before after b (h_query (params before)) (h_query (params after)) "H_query ratio check failed" rng rng1 ∧
    query_passes before after b (l_query (params before)) (l_query (params after)) "L_query ratio check failed" rng1 rng'.
Proof.
  intros Hb [_ _ _ (A1 & A2 & A3 & A4 & A5) _] [_ _ _ (B1 & B2 & B3 & B4 & B5) _]. unfold verify_queries, encoded.
  rewrite !chunked_unchanged by done.
  destruct (chunked_check_ratio (encode _ (h_query (params before))) _ _ _ _ _ rng) as [oh rng1] eqn:Hh.
  destruct (chunked_check_ratio (encode _ (l_query (params before))) _ _ _ _ _ rng1) as [ol rng2] eqn:Hl. split.
  - intros [Hj ->]%pair_equal_spec. apply join_all_ok in Hj. rewrite !Forall_cons in Hj.
    destruct Hj as (->%unchanged_ok & ->%unchanged_ok & ->%unchanged_ok & -> & -> & _).
    split_and!; [done..|]. exists rng1. split; by apply ratio_passes.
  - intros (-> & -> & -> & rng3 & H1%ratio_passes & H2%ratio_passes); try done.
    rewrite Hh in H1. injection H1 as -> ->. rewrite Hl in H2. injection H2 as -> ->. f_equal.
    apply join_all_ok. rewrite !Forall_cons. split_and!; try done; by apply unchanged_ok.
Qed.

Definition delta_end p : bytes := front p ++ serialize CompressionYes (delta_g1 (params p)).
Lemma file_end p r : mpc_write p ++ r = delta_end p ++ queries p ++ back p r.
Proof. unfold delta_end. by rewrite file_parts, <-!app_assoc. Qed.

Lemma bind_any {T A B} (m : on T A) (k : A → on T B) b t t' :
  bind m k t = (Ok b, t') ↔ ∃ a t1, m t = (Ok a, t1) ∧ k a t1 = (Ok b, t').
Proof.
  split; [apply bind_ok|]. intros (a & t1 & Hm & Hk). unfold bind. by rewrite Hm.
Qed.

(** The checks of the verification, up to where it reads the rest. *)
Lemma verify_chunked_steps before after r r' b rng hs rng' :
  in_file before r → in_file after r' →
  let vb := vk (params before) in
  let va := vk (params after) in
  let pos := (len (delta_end after) + 5 * 8 + len (encode CompressionYes (a_query (params before))) +
    len (encode CompressionYes (b_g1_query (params before))) + len (encode CompressionYes (b_g2_query (params before))) +
    len (encode CompressionYes (h_query (params before))) + len (encode CompressionYes (l_query (params before))))%N in
  verify_chunked (mpc_write before ++ r) (mpc_write after ++ r') b rng = (Ok hs, rng') ↔
  alpha_g1 vb = alpha_g1 va ∧ beta_g1 (params before) = beta_g1 (params after) ∧ beta_g2 vb = beta_g2 va ∧
  gamma_g2 vb = gamma_g2 va ∧ gamma_abc_g1 vb = gamma_abc_g1 va ∧
  verify_queries (encoded before) (encoded after) (delta_g2 vb) (delta_g2 va) b rng = (Ok tt, rng') ∧
  verify_tail (mpc_write before ++ r) (mpc_write after ++ r') pos va (delta_g1 (params after)) = Ok hs.
Proof.
  intros Hb Ha vb va pos. unfold verify_chunked. rewrite (read_header_ok _ _ Hb).
  rewrite skip_point by (pose proof (if_size _ _ Hb) as Hs; rewrite file_parts in Hs; lengths).
  rewrite (read_header_ok _ _ Ha), reads_point by apply Ha. fold (delta_end before) (delta_end after).
  rewrite !run_lift. unfold between at 1 2. cbn [position buffer]. rewrite !file_end, !slice_rest.
  fold vb va. split.
  - intros H. apply bind_lift_ok in H as (? & ?%ensure_unchanged_ok & H). apply bind_lift_ok in H as (? & ?%ensure_unchanged_ok & H).
    apply bind_lift_ok in H as (? & ?%ensure_unchanged_ok & H). apply bind_lift_ok in H as (? & ?%ensure_unchanged_ok & H).
    apply bind_lift_ok in H as (? & ?%ensure_unchanged_vec_ok & H). rewrite !run_lift in H.
    rewrite !split_transcript_ok in H by done. rewrite !run_lift in H. cbv beta iota in H.
    apply bind_ok in H as ([] & rng1 & Hq & H). unfold lift in H. injection H as Ht <-. done.
  - intros (H1 & H2 & H3 & H4 & H5 & Hq & Ht). do 4 (apply bind_lift_ok; exists tt; split; [by apply ensure_unchanged_ok|]).
    apply bind_lift_ok; exists tt; split; [by apply ensure_unchanged_vec_ok|]. rewrite !run_lift.
    rewrite !split_transcript_ok by done. rewrite !run_lift. cbv beta iota.
    apply bind_any. exists tt, rng'. split; [exact Hq|]. unfold lift. by rewrite <-Ht.
Qed.

Lemma queries_len p : len (queries p) = (5 * 8 + len (encode CompressionYes (a_query (params p))) +
    len (encode CompressionYes (b_g1_query (params p))) + len (encode CompressionYes (b_g2_query (params p))) +
    len (encode CompressionYes (h_query (params p))) + len (encode CompressionYes (l_query (params p))))%N.
Proof. unfold queries. rewrite !len_app, !vec_length. lia. Qed.
Lemma delta_end_len before after :
  gamma_abc_g1 (vk (params before)) = gamma_abc_g1 (vk (params after)) → len (delta_end before) = len (delta_end after).
Proof.
  intros Hg. unfold delta_end, front. rewrite !len_app.
  rewrite (serialize_len (beta_g1 (params before)) (beta_g1 (params after))).
  rewrite (serialize_len (delta_g1 (params before)) (delta_g1 (params after))).
  do 2 f_equal. unfold len. by rewrite (vk_length (vk (params before)) (vk (params after))) by (by rewrite Hg).
Qed.
Lemma encode_same {C : AffineCurve (Fr E)} `{!CurveLaws C} (v v' : list C) :
  length v = length v' → len (encode CompressionYes v) = len (encode CompressionYes v').
Proof. intros Hl. rewrite !encode_len. unfold len. by rewrite Hl. Qed.

Lemma file_tail_ok before after r r' pos hs :
  in_file before r → in_file after r' →
  gamma_abc_g1 (vk (params before)) = gamma_abc_g1 (vk (params after)) →
  a_query (params before) = a_query (params after) → b_g1_query (params before) = b_g1_query (params after) →
  b_g2_query (params before) = b_g2_query (params after) →
  length (h_query (params before)) = length (h_query (params after)) →
  length (l_query (params before)) = length (l_query (params after)) →
  pos = (len (delta_end after) + 5 * 8 + len (encode CompressionYes (a_query (params before))) +
    len (encode CompressionYes (b_g1_query (params before))) + len (encode CompressionYes (b_g2_query (params before))) +
    len (encode CompressionYes (h_query (params before))) + len (encode CompressionYes (l_query (params before))))%N →
  verify_tail (mpc_write before ++ r) (mpc_write after ++ r') pos (vk (params after)) (delta_g1 (params after)) = Ok hs ↔
  cs_hash before = cs_hash after ∧ contributions before `prefix_of` contributions after ∧ contributions after ≠ [] ∧
  last_delta (delta_g1 (params after)) (contributions after) = delta_g1 (params after) ∧
  pairing g1 (delta_g2 (vk (params after))) = pairing (delta_g1 (params after)) g2 ∧
  verify_transcript (cs_hash before) (contributions after) = Ok hs.
Proof.
  intros Hin Hin' Hg Ha Hb1 Hb2 Hh Hl Hpos.
  assert (len (delta_end before ++ queries before) = pos ∧ len (delta_end after ++ queries after) = pos) as [L L'].
  { rewrite Hpos, !len_app, !queries_len, (delta_end_len before after Hg), <-Ha, <-Hb1, <-Hb2.
    rewrite (encode_same (h_query (params before)) _ Hh), (encode_same (l_query (params before)) _ Hl). lia. }
  rewrite <-L', !file_end, !app_assoc. apply verify_tail_ok; [done|done|congruence].
Qed.

Lemma verify_chunked_ok before after r r' b rng hs rng' :
  (0 < b)%N → in_file before r → in_file after r' →
  verify_chunked (mpc_write before ++ r) (mpc_write after ++ r') b rng = (Ok hs, rng') ↔
  keeps before after ∧ verify_transcript (cs_hash before) (contributions after) = Ok hs ∧
  ∃ rng1, query_passes before after b (h_query (params before)) (h_query (params after)) "H_query ratio check failed" rng rng1 ∧
    query_passes before after b (l_query (params before)) (l_query (params after)) "L_query ratio check failed" rng1 rng'.
Proof.
  intros Hb Hin Hin'. rewrite verify_chunked_steps, verify_queries_ok by (done || apply Hin || apply Hin'). split.
  - intros (H1 & H2 & H3 & H4 & H5 & (H6 & H7 & H8 & rng1 & Hh & Hl) & Ht).
    apply file_tail_ok in Ht as (T1 & T2 & T3 & T4 & T5 & T6); [|done..|apply Hh|apply Hl|done].
    split; [|split; [done|by exists rng1]]. split; try done; [apply Hh|apply Hl].
  - intros ([K1 K2 K3 K4 K5 K6 K7 K8 K9 K10 K11 K12 K13 K14 K15] & Ht & rng1 & Hh & Hl). split_and!; try done.
    + by exists rng1.
    + by apply file_tail_ok.
Qed.

(** ** Agreement *)

(** What both verifications accept, whatever the randomness, when delta in G2
    grew by [x]. *)
Record accepted before after (x : Fr E) hs : Prop := {
  ac_keeps : keeps before after;
  ac_transcript : verify_transcript (cs_hash before) (contributions after) = Ok hs;
  ac_h : h_query (params before) = scaled x (h_query (params after));
  ac_l : l_query (params before) = scaled x (l_query (params after));
}.

Context before after (x : Fr E) (Hrandom : full_randomness E) (Hbefore : consistent before).
Context (Hnz : delta_g2 (vk (params before)) ≠ zero).
Context (Hx : delta_g2 (vk (params after)) = mul (delta_g2 (vk (params before))) x).
Context (Hh : Forall in_subgroup (h_query (params after))) (Hl : Forall in_subgroup (l_query (params after))).

Lemma before_delta : in_subgroup (delta_g2 (vk (params before))).
Proof.
  destruct (cs_deltas _ Hbefore) as (d & _ & ->). apply mul_in_subgroup, generator_in_subgroup.
Qed.

Lemma scaled_checked (v : list G1) rs :
  Forall in_subgroup v → query_checked before after (combination rs (scaled x v), combination rs v).
Proof.
  intros Hv. unfold query_checked, scaled. cbn [fst snd]. rewrite combination_mul, Hx.
  apply pairing_mul; [by apply combination_in_subgroup | apply before_delta].
Qed.

Lemma verify_accepts hs :
  (∀ thread, ∃ thread', verify before after thread = (Ok hs, thread')) ↔ accepted before after x hs.
Proof.
  pose proof before_delta as Hd. split.
  - intros Hall. assert (∀ thread, is_ok (verify before after thread).1 = true) as Hok.
    { intros thread. by destruct (Hall thread) as (thread' & ->). }
    destruct (Hrandom []) as (rng & _). destruct (Hall rng) as (rng' & [Hk [Ht _]]%verify_ok).
    split; [done|done| |].
    + apply (query_scaled before after); try done; [apply Hbefore|apply Hk|]. intros i q q'.
      by apply (picked before after i 0 Hrandom (cs_h_size _ Hbefore) (cs_l_size _ Hbefore) Hok).
    + apply (query_scaled before after); try done; [apply Hbefore|apply Hk|]. intros i q q'.
      by apply (picked before after 0 i Hrandom (cs_h_size _ Hbefore) (cs_l_size _ Hbefore) Hok).
  - intros [Hk Ht Sh Sl] thread.
    destruct (merge_pairs_ok (h_query (params before)) (h_query (params after)) thread (kp_h _ _ Hk) (cs_h_size _ Hbefore))
      as (rs & rng1 & _ & M1).
    destruct (merge_pairs_ok (l_query (params before)) (l_query (params after)) rng1 (kp_l _ _ Hk) (cs_l_size _ Hbefore))
      as (rs' & rng2 & _ & M2).
    exists rng2. apply verify_ok. split; [done|split; [done|]]. eexists _, _, rng1. split_and!; [exact M1| |exact M2|].
    + rewrite Sh. by apply scaled_checked.
    + rewrite Sl. by apply scaled_checked.
Qed.

Lemma query_accepted b (v v' : list G1) err rng :
  (0 < b)%N → v = scaled x v' → Forall in_subgroup v' → (len v < 2 ^ 32)%N →
  ∃ rng', query_passes before after b v v' err rng rng'.
Proof.
  intros Hb Hv Hv' Hs. assert (length v = length v') as Hlen by (rewrite Hv; apply length_fmap).
  destruct (scaled_pieces (delta_g2 (vk (params before))) (delta_g2 (vk (params after))) err x (pieces b v) (pieces b v') rng)
    as (rng' & H); rewrite ?pieces_concat; try done; [apply before_delta|by apply pieces_same|].
  by exists rng'.
Qed.

(** With the right coefficients the batches check any element of each query. *)
Lemma picked_queries b i j (h h' l l' : list G1) err err' :
  (0 < b)%N → (len h < 2 ^ 32)%N → (len l < 2 ^ 32)%N →
  (∀ rng, ∃ rng1 rng', query_passes before after b h h' err rng rng1 ∧ query_passes before after b l l' err' rng1 rng') →
  (∀ q q', h !! i = Some q → h' !! i = Some q' → query_checked before after (q, q')) ∧
  (∀ q q', l !! j = Some q → l' !! j = Some q' → query_checked before after (q, q')).
Proof.
  intros Hb Sh Sl Hall. destruct (Hrandom (unit_vector (length h) i ++ unit_vector (length l) j)) as (rng & rng' & Hdraw).
  rewrite length_app, !unit_vector_length in Hdraw. apply draw_app in Hdraw as (rng1 & D1 & D2).
  rewrite take_app_length' in D1 by (by rewrite unit_vector_length).
  rewrite drop_app_length' in D2 by (by rewrite unit_vector_length).
  destruct (Hall rng) as (rng2 & rng3 & [Lh Ph] & [Ll Pl]).
  rewrite <-(pieces_concat b h Hb) in D1, Sh at 1. rewrite <-(pieces_concat b l Hb) in D2, Sl at 1.
  destruct (picked_pieces _ _ _ _ _ _ _ _ _ (pieces_same b h h' Lh) Sh D1 Ph) as [-> Gh].
  destruct (picked_pieces _ _ _ _ _ _ _ _ _ (pieces_same b l l' Ll) Sl D2 Pl) as [-> Gl].
  rewrite !pieces_concat in Gh, Gl by done. split; intros q q' Hq Hq'; [by eapply Gh | by eapply Gl].
Qed.

Lemma accepted_chunked b r r' hs :
  (0 < b)%N → in_file before r → in_file after r' → accepted before after x hs →
  ∀ thread, ∃ thread', verify_chunked (mpc_write before ++ r) (mpc_write after ++ r') b thread = (Ok hs, thread').
Proof.
  intros Hb Hin Hin'. pose proof before_delta as Hd.
  intros [Hk Ht Sh Sl] thread.
  destruct (query_accepted b _ _ "H_query ratio check failed" thread Hb Sh Hh (cs_h_size _ Hbefore)) as (rng1 & H1).
  destruct (query_accepted b _ _ "L_query ratio check failed" rng1 Hb Sl Hl (cs_l_size _ Hbefore)) as (rng2 & H2).
  exists rng2. apply verify_chunked_ok; [done..|]. split; [done|split; [done|by exists rng1]].
Qed.
Lemma chunked_accepts b r r' hs :
  (0 < b)%N → in_file before r → in_file after r' →
  (∀ thread, ∃ thread', verify_chunked (mpc_write before ++ r) (mpc_write after ++ r') b thread = (Ok hs, thread')) ↔
  accepted before after x hs.
Proof.
  intros Hb Hin Hin'. pose proof before_delta as Hd. split.
  - intros Hall. destruct (Hrandom []) as (rng & _). destruct (Hall rng) as (rng' & [Hk [Ht _]]%verify_chunked_ok); [|done..].
    assert (∀ i j, (∀ q q', h_query (params before) !! i = Some q → h_query (params after) !! i = Some q' →
        query_checked before after (q, q')) ∧
      (∀ q q', l_query (params before) !! j = Some q → l_query (params after) !! j = Some q' →
        query_checked before after (q, q'))) as Hpick.
    { intros i j. eapply (picked_queries b i j); [done|apply Hbefore|apply Hbefore|]. intros thread.
      destruct (Hall thread) as (thread' & (_ & _ & rng1 & H1 & H2)%verify_chunked_ok); [|done..]. by exists rng1, thread'. }
    split; [done|done| |]; apply (query_scaled before after); try done; try apply Hbefore; try apply Hk.
    + intros i. apply (Hpick i 0).
    + intros i. apply (Hpick 0 i).
  - intros Hacc. by apply accepted_chunked.
Qed.

(** C13. The two verifications of the second phase agree: for parameters that fit
    their transcript, written to files with anything behind them, the
    verification in batches - for any batch size - accepts another file
    whatever its random combinations, with the hashes [hs], exactly when
    [MPCParameters::verify] accepts the parameters of that file with these
    hashes whatever its own. *)
Theorem chunked_verification_agrees b r r' hs
    (Hb : (0 < b)%N) (Hin : in_file before r) (Hin' : in_file after r') :
  (∀ thread, ∃ thread', verify_chunked (mpc_write before ++ r) (mpc_write after ++ r') b thread = (Ok hs, thread')) ↔
  (∀ thread, ∃ thread', verify before after thread = (Ok hs, thread')).
Proof. by rewrite chunked_accepts, verify_accepts. Qed.
End files.

(** ** Files of the toy engine *)

#[local] Existing Instance toy_randomness.
#[local] Existing Instance toy_randomness_laws.
#[local] Existing Instance Toy.engine_laws.
#[local] Existing Instance toy_curve_hash.
#[local] Existing Instance toy_curve_hash_laws.
#[local] Existing Instance toy_format.
#[local] Existing Instance toy_format_laws.

Lemma toy_before_file : in_file toy_mpc [x05].
Proof. split; [split|split|done]; try split; try split_and!; try done; repeat constructor; done. Qed.
Lemma toy_after_file : in_file toy_mpc_after [].
Proof. split; [split|split|done]; try split; try split_and!; try done; repeat constructor; done. Qed.

Lemma chunked_verification_agrees_witness :
  ∃ h, ∀ thread, ∃ thread',
    verify_chunked (mpc_write toy_mpc ++ [x05]) (mpc_write toy_mpc_after ++ []) 2 thread = (Ok [h], thread').
Proof.
  destruct (contributed_verifies (Toy.Z2 : Fr Toy.engine) (Toy.Z3 : Fr Toy.engine) (Toy.Z3 : G1Affine Toy.engine) toy_mpc []
    toy_mpc_consistent eq_refl eq_refl eq_refl) as [_ Hv].
  eexists. eapply (proj2 (chunked_verification_agrees toy_mpc toy_mpc_after (Toy.Z2 : Fr Toy.engine) toy_full_randomness
    toy_mpc_consistent ltac:(done) ltac:(done) ltac:(by repeat constructor) ltac:(by repeat constructor) 2 [x05] [] _
    ltac:(done) toy_before_file toy_after_file)).
  exact Hv.
Defined.
