(* ===== verification/SetupPrograms.v ===== *)
(** * The programs of the second phase

    [setup2/src/cli] and [phase1-cli/src/bin/prepare_phase2.rs]: from the
    response of the first phase to the parameters of a circuit, contributions
    to a file in place, and the verification of one file against another.  A
    file is its bytes; the circuit is given by its size and its assembly. *)

From S2P Require Import Prelude Environment Phase1Parameters Curve Elements MultiExp Buffers Accumulator Phase1 Keypair Groth16Params Polynomial MPCParameters DeltaContributions KeyFiles ChunkedGroth16 ChunkedContributions ChunkedVerification.
From Stdlib Require Import Strings.Byte.

(** ** Sizes *)

(** [usize::leading_zeros], [log_2] and [2usize.pow]. *)
Definition leading_zeros (x : N) : N := (64 - N.size x)%N.
Definition log_2 (x : N) : setup N :=
  if (x =? 0)%N then Panic else Ok (usize_sub (usize_sub 64 (leading_zeros x)) 1).
Definition usize_pow2 (n : N) : N := (2 ^ n mod u64_modulus)%N.

(** [ConstraintCounter] of [snarkvm_r1cs]. *)
Record ConstraintCounter := MkConstraintCounter {
  counter_public : N;
  counter_private : N;
  counter_constraints : N;
}.

(** [ceremony_size] *)
Definition ceremony_size (counter : ConstraintCounter) : setup N :=
  let phase2_size := N.max (counter_constraints counter)
    (usize_add (usize_add (counter_private counter) (counter_public counter)) 1) in
  try! power := log_2 phase2_size in
  Ok (if (phase2_size <? usize_pow2 power)%N then usize_pow2 (power + 1) else phase2_size).

Section programs.
Context {E : PairingEngine} `{!Randomness E, !HashToCurve E, !KeyFormat E, !Domains E}.

(** [prepare_phase2]: the new file. *)
Definition prepare_phase2 (ps : ProvingSystem) (power batch phase2_size : N) (response : bytes) : setup bytes :=
  let parameters := new_parameters Full 0 0 (curve_parameters_new E) ps power batch in
  try! acc := expect' (deserialize_accumulator E parameters CompressionYes CheckFull response) in
  try! groth16_params := expect' (Groth16Params.new (usize_pow2 phase2_size) (tau_powers_g1 acc) (tau_powers_g2 acc)
    (alpha_tau_powers_g1 acc) (beta_tau_powers_g1 acc) (Accumulator.beta_g2 acc)) in
  Ok (write_params groth16_params CompressionNo).

(** [generate_params]: the new file; [counter] is what the circuit counts. *)
Definition generate_params `{!Assemblies A E} (phase1_transcript : bytes) (phase1_size : N) (counter : ConstraintCounter)
    (circuit : on (KeypairAssembly A) unit) : setup bytes :=
  try! phase2_size := ceremony_size counter in
  try! keypair := circuit_to_qap circuit in
  try! phase1 := read_params phase1_transcript CompressionNo CheckNo (usize_pow2 phase1_size) phase2_size in
  try! mpc := mpc_new keypair phase1 in
  Ok (mpc_write mpc).

(** [contribute]: the file grows by a key, filled with zeros, and is changed in
    place. *)
Definition contribute_file (batch : N) (rng : Rng) : on bytes unit := λ file,
  (let! _ := contribute_buffer batch rng in ret tt) (file ++ repeat x00 (N.to_nat (Keypair.size (E := E)))).

(** [verify] *)
Definition verify_files (before after : bytes) (batch : N) : on Rng unit :=
  let! _ := verify_chunked before after batch in ret tt.
End programs.

(** ** The size of a ceremony *)

Lemma size_bound x : (x < u64_modulus)%N → (N.size x ≤ 64)%N.
Proof.
  intros Hx. destruct (N.eq_dec x 0) as [->|H0]; [done|]. rewrite N.size_log2 by done. apply N.le_succ_l.
  apply N.log2_lt_pow2; [lia|]. exact Hx.
Qed.
Lemma log_2_log2 x : (0 < x < u64_modulus)%N → log_2 x = Ok (N.log2 x).
Proof.
  intros Hx. pose proof (size_bound x ltac:(lia)) as Hs. unfold log_2, leading_zeros.
  rewrite (proj2 (N.eqb_neq _ _)) by lia. rewrite N.size_log2 in * by lia.
  assert (64 < u64_modulus)%N as H64 by done. rewrite u64_sub_exact, u64_sub_exact by (rewrite ?u64_sub_exact; lia).
  f_equal. lia.
Qed.

(** The size of a ceremony is never rounded up to a power of two: the power
    is the logarithm rounded down, so the size is never below it, and the
    result is the plain number of constraints or variables. *)
Theorem ceremony_size_not_rounded counter
    (Hsize : (counter_constraints counter < u64_modulus)%N)
    (Hvars : (counter_private counter + counter_public counter + 1 < u64_modulus)%N) :
  ceremony_size counter =
    Ok (N.max (counter_constraints counter) (counter_private counter + counter_public counter + 1)).
Proof.
  unfold ceremony_size. rewrite !u64_add_exact by (rewrite ?u64_add_exact; lia). set (x := N.max _ _).
  assert (0 < x < u64_modulus)%N as Hx by lia. rewrite log_2_log2 by done. cbn [bind_outcome]. unfold usize_pow2.
  pose proof (N.log2_spec x ltac:(lia)) as [Hle _].
  rewrite N.mod_small by lia. by rewrite (proj2 (N.ltb_ge _ _)).
Qed.
Lemma ceremony_size_not_rounded_witness : ceremony_size (MkConstraintCounter 2 4 5) = Ok 7%N.
Proof. apply (ceremony_size_not_rounded (MkConstraintCounter 2 4 5)); done. Defined.

(** ** A contribution to a file *)

Section contribution.
Context {E : PairingEngine} `{!Randomness E, !HashToCurve E, !KeyFormat E}.
Context `{!EngineLaws E, !RandomnessLaws E, !HashToCurveLaws E, !KeyFormatLaws E}.
Implicit Types (p : MPCParameters E).

Notation G1 := (G1Affine E).
Notation G2 := (G2Affine E).

Lemma honest_key_readable c l (d : G1) x (s : G1) :
  in_subgroup d → in_subgroup s → d ≠ zero → s ≠ zero → x ≠ fr_zero → readable (honest_key c l d x s).
Proof.
  intros Hd Hs Dz Sz Hx. pose proof (hash_to_curve_in_subgroup (hex_encode (hash_cs_pubkeys c l s (mul s x)))).
  pose proof (hash_to_curve_nonzero (hex_encode (hash_cs_pubkeys c l s (mul s x)))).
  split; cbn; try split; try done; try (by apply mul_in_subgroup); try (by apply mul_nonzero).
  apply blake2b_length.
Qed.

(** The parameters after a contribution are written like those before. *)
Lemma contributed_writable x y k p :
  writable p → (len (contributions p) + 2 < 2 ^ 32)%N → readable k → writable (delta_contributed x y k p).
Proof.
  intros [[V1 V2 V3 V4 V5 V6] H1 H2 H3 H4 H5 H6] Hn Hk.
  assert (∀ v : list G1, Forall in_subgroup v → Forall in_subgroup (scaled y v)) as Hs.
  { intros v Hv. apply Forall_fmap. eapply Forall_impl; [exact Hv|]. intros q. apply mul_in_subgroup. }
  split; cbn; try done; try (by apply Hs); try (by apply mul_in_subgroup).
  - split; try done. by apply mul_in_subgroup.
  - apply Forall_app. by split; [|constructor].
  - rewrite len_app. cbn [len length]. unfold len at 2. cbn. lia.
Qed.
Lemma contributed_keys x y k p : pk_in_group (params p) → pk_in_group (params (delta_contributed x y k p)).
Proof.
  intros [[V1 V2 V3 V4 V5 V6] H1 H2 (Q1 & Q2 & Q3 & Q4 & Q5) (S1 & S2 & S3 & S4 & S5)].
  assert (∀ v : list G1, Forall in_subgroup v → Forall in_subgroup (scaled y v)) as Hs.
  { intros v Hv. apply Forall_fmap. eapply Forall_impl; [exact Hv|]. intros q. apply mul_in_subgroup. }
  split; cbn; try split; cbn; try split_and!; unfold len in *; rewrite ?length_fmap; try done; try (by apply mul_in_subgroup);
    by apply Hs.
Qed.
Lemma contributed_length x y k p : Forall readable (contributions p) → readable k →
  len (mpc_write (delta_contributed x y k p)) = (len (mpc_write p) + Keypair.size (E := E))%N.
Proof.
  intros Hks Hk. unfold mpc_write. rewrite !pk_layout. unfold delta_contributed, write_batch.
  cbn [params vk beta_g1 delta_g1 a_query b_g1_query b_g2_query h_query l_query cs_hash contributions].
  rewrite !len_app, fmap_app, concat_app, len_app.
  assert (∀ n, len (write_u32 n) = 4%N) as L4 by done. rewrite !L4.
  rewrite (serialize_len (mul (delta_g1 (params p)) x) (delta_g1 (params p))).
  change ((λ q, mul q y) <$> h_query (params p)) with (scaled y (h_query (params p))).
  change ((λ q, mul q y) <$> l_query (params p)) with (scaled y (l_query (params p))).
  rewrite !vec_scaled_len. cbn [fmap list_fmap concat]. rewrite app_nil_r, write_length by apply Hk.
  set (v' := MkVerifyingKey _ _ _ _ _).
  assert (len (serialize_vk v') = len (serialize_vk (vk (params p)))) as -> by (unfold len; by rewrite (vk_length v' (vk (params p)))).
  lia.
Qed.

Lemma scaled_inverse x y (v : list G1) :
  Forall in_subgroup v → fr_mul x y = fr_one → v = scaled x (scaled y v).
Proof.
  intros Hv Hxy. unfold scaled. rewrite <-list_fmap_compose. rewrite <-(list_fmap_id v) at 1.
  apply Forall_fmap_ext_1. eapply Forall_impl; [exact Hv|]. intros q Hq. unfold compose. cbn.
  by rewrite mul_mul, fr_mul_comm, Hxy, mul_one.
Qed.

Lemma contributed_accepted x y (s : G1) p hs :
  let k := honest_key (cs_hash p) (contributions p) (last_delta prime_subgroup_generator (contributions p)) x s in
  consistent p → in_subgroup s → fr_mul x y = fr_one → verify_transcript (cs_hash p) (contributions p) = Ok hs →
  accepted p (delta_contributed x y k p) x (hs ++ [Keypair.hash k]).
Proof.
  intros k [(d & D1 & D2) Hlast _ Ch Cl _ _] Hs Hxy Hhs. split.
  - by eapply contributed_keeps.
  - apply transcript_extended; [done| |done]. rewrite Hlast, D1. apply mul_in_subgroup, generator_in_subgroup.
  - by apply scaled_inverse.
  - by apply scaled_inverse.
Qed.

(** C12. A contribution of the second phase, file to file: for a file of
    parameters that fit their transcript and a secret that is not zero, the
    program - for any batch size - leaves in the file exactly what
    [MPCParameters::write] makes of the result of [MPCParameters::contribute],
    and the verification of the file against a copy of the one before, in
    batches of any other size and whatever its random combinations, accepts it;
    the new file is again one to contribute to. *)
Theorem file_contribution_verifies p (rng : Rng) batch batch'
    (Hp : consistent p) (Hf : in_file p (repeat x00 (N.to_nat (Keypair.size (E := E)))))
    (Hn : (len (contributions p) + 2 < 2 ^ 32)%N) (Hb : (0 < batch)%N) (Hb' : (0 < batch')%N)
    (Hx : (rand_scalar rng).1 ≠ fr_zero) (Hs : (rand_g1 (rand_scalar rng).2).1 ≠ zero)
    (Hd : delta_g1 (params p) ≠ zero) :
  ∃ h rng' p', contribute rng p = (Ok (h, rng'), p') ∧
    contribute_file batch rng (mpc_write p) = (Ok tt, mpc_write p') ∧ consistent p' ∧ in_file p' [] ∧
    ∀ thread, ∃ thread', verify_files (mpc_write p) (mpc_write p') batch' thread = (Ok tt, thread').
Proof.
  set (room := repeat x00 (N.to_nat Keypair.size)) in *. pose proof (if_size _ _ Hf) as Hsize.
  assert (len room = Keypair.size (E := E)) as Hroom by (unfold room, len; rewrite repeat_length; lia).
  destruct (contribute_in_place p rng batch room []) as (h & rng1 & p1 & Hrun1 & Hfile);
    [apply Hf|done|done|by rewrite app_nil_r|done|].
  destruct (contribute_runs rng p Hx) as (y & _ & Hxy & Hrun). rewrite Hrun in Hrun1. injection Hrun1 as <- <- <-.
  pose proof (rand_g1_in_subgroup (rand_scalar rng).2) as Hsub.
  destruct (verify_transcript (cs_hash p) (contributions p)) as [hs| |] eqn:Ht;
    [|by pose proof (cs_transcript _ Hp) as Hok; rewrite Ht in Hok..].
  assert (readable (honest_key (cs_hash p) (contributions p) (delta_g1 (params p)) (rand_scalar rng).1
    (rand_g1 (rand_scalar rng).2).1)) as Hk.
  { apply honest_key_readable; try done. apply Hf. }
  rewrite <-(cs_last _ Hp) in *.
  destruct (contributed_verifies _ y _ p hs Hp Hsub Hxy Ht) as [Hcons _].
  pose proof (contributed_accepted _ y _ p hs Hp Hsub Hxy Ht) as Hacc.
  set (k := honest_key _ _ _ _ _) in *. set (p' := delta_contributed _ y k p) in *.
  assert (in_file p' []) as Hf'.
  { split; [apply contributed_writable; try done; apply Hf|apply contributed_keys, Hf|].
    rewrite app_nil_r. unfold p'. rewrite contributed_length, <-Hroom, <-len_app; [done|apply Hf|done]. }
  eexists _, _, p'. split_and!; [exact Hrun| |done|done|].
  - unfold contribute_file. fold room. rewrite app_nil_r in Hfile. unfold bind. rewrite Hfile. by rewrite app_nil_r.
  - intros thread. assert (in_file p []) as Hf0.
    { split; [apply Hf|apply Hf|]. revert Hsize. rewrite !len_app, len_nil. lia. }
    destruct (accepted_chunked p p' (rand_scalar rng).1 Hp eq_refl (wr_h _ (if_writable _ _ Hf')) (wr_l _ (if_writable _ _ Hf'))
      batch' [] [] _ Hb' Hf0 Hf' Hacc thread) as (thread' & Hv).
    exists thread'. unfold verify_files, bind. rewrite !app_nil_r in Hv. by rewrite Hv.
Qed.
End contribution.

(** ** The file between the phases *)

(** Inverse transforms, of domains that are powers of two, keep the number of
    elements and their subgroup. *)
Class DomainsLaws (E : PairingEngine) `{!Domains E} : Prop := {
  ifft_length (C : AffineCurve (Fr E)) k d (l : list C) :
    new_domain (2 ^ k) = Some d → len l = (2 ^ k)%N → len (ifft C d l) = len l;
  ifft_in_subgroup (C : AffineCurve (Fr E)) d (l : list C) :
    CurveLaws C → Forall in_subgroup l → Forall in_subgroup (ifft C d l);
}.

Section prepared.
Context {E : PairingEngine} `{!EngineLaws E, !Domains E, !DomainsLaws E}.
Implicit Types (acc : Accumulator E) (g : Groth16Params E).

Record accumulator_in_group acc : Prop := {
  ag_tau : Forall in_subgroup (tau_powers_g1 acc) ∧ Forall in_subgroup (tau_powers_g2 acc);
  ag_alpha : Forall in_subgroup (alpha_tau_powers_g1 acc);
  ag_beta : Forall in_subgroup (beta_tau_powers_g1 acc) ∧ in_subgroup (Accumulator.beta_g2 acc);
}.

Lemma h_query_in_group (powers : list (G1Affine E)) n h :
  Forall in_subgroup powers → h_query_groth16 powers n = Ok h → Forall in_subgroup h.
Proof.
  intros Hp Hh%collect_ok%Forall2_fmap_l. induction Hh as [|i q l h Hq _ IH]; constructor; [|done].
  unfold h_element in Hq. apply bind_outcome_ok in Hq as (x & Hx & Hq). apply bind_outcome_ok in Hq as (y & Hy & Hq).
  apply index_ok in Hx, Hy. injection Hq as <-. pose proof (Forall_lookup_1 _ _ _ _ Hp Hx) as Gx.
  pose proof (Forall_lookup_1 _ _ _ _ Hp Hy) as Gy. apply add_in_subgroup; [done|]. by apply neg_in_subgroup.
Qed.

Lemma new_fits k acc g :
  (1 ≤ k)%N → (2 * 2 ^ k < u64_modulus)%N → is_Some (new_domain (2 ^ k)) → accumulator_in_group acc →
  enough_powers (2 ^ k) (tau_powers_g1 acc) (tau_powers_g2 acc) (alpha_tau_powers_g1 acc) (beta_tau_powers_g1 acc) = true →
  Groth16Params.new (2 ^ k) (tau_powers_g1 acc) (tau_powers_g2 acc) (alpha_tau_powers_g1 acc) (beta_tau_powers_g1 acc)
    (Accumulator.beta_g2 acc) = Ok g → fits CheckNo (2 ^ k) g.
Proof.
  intros Hk Hs [d Hd] [[A1 A2] A3 [A4 A5]] He Hg.
  assert (2 ≤ 2 ^ k)%N as H2 by (change 2%N with (2 ^ 1)%N at 1; apply N.pow_le_mono_r; lia).
  destruct (new_enough (2 ^ k) _ _ _ _ (Accumulator.beta_g2 acc) d Hd H2 Hs He) as (a & b & h & Ha & Hb & Hh & Hhl & Hnew & _).
  rewrite Hg in Hnew. injection Hnew as ->. unfold enough_powers in He. rewrite !andb_true_iff, !N.leb_le in He.
  destruct He as [[[E1 E2] E3] E4].
  assert (∀ (C : AffineCurve (Fr E)) (l : list C), (2 ^ k ≤ len l)%N → len (take (N.to_nat (2 ^ k)) l) = (2 ^ k)%N) as Hlen.
  { intros C l Hl. unfold len in *. rewrite length_take. lia. }
  assert (∀ (C : AffineCurve (Fr E)) (l : list C), Forall (passes CheckNo) l) as Hno
    by (intros C l; apply Forall_true; by intros p).
  assert (∀ (C : AffineCurve (Fr E)) (l : list C), (2 ^ k ≤ len l)%N →
    len (ifft C d (take (N.to_nat (2 ^ k)) l)) = (2 ^ k)%N) as Hifft.
  { intros C l Hl. rewrite (ifft_length C k); auto. }
  assert (∀ (C : AffineCurve (Fr E)) (l : list C), CurveLaws C → Forall in_subgroup l →
    Forall in_subgroup (ifft C d (take (N.to_nat (2 ^ k)) l))) as Hsub.
  { intros C l HC Hl. apply ifft_in_subgroup; [done|by apply Forall_take]. }
  split; cbn; try (split_and!; auto; fail).
  - split; [by apply (Forall_lookup_1 _ _ _ _ A3 Ha)|by intros ?].
  - split; [by apply (Forall_lookup_1 _ _ _ _ A4 Hb)|by intros ?].
  - split; [exact A5|by intros ?].
  - pose proof (h_query_in_group _ _ _ A1 Hh). split_and!; try done; by apply Hsub; [apply _|].
  - split_and!; apply Hifft; try done. lia.
  - done.
Qed.

(** The bytes of the file that is written. *)
Definition prepared_length (k : N) : N :=
  ((2 + 4 * 2 ^ k) * buffer_size (G1Affine E) CompressionNo + (1 + 2 ^ k) * buffer_size (G2Affine E) CompressionNo)%N.

Lemma prepared_len k g : fits CheckNo (2 ^ k) g → (len (write_params g CompressionNo) ≤ prepared_length k)%N.
Proof.
  intros [_ _ _ _ _ (L1 & L2 & L3 & L4) L5]. unfold write_params, prepared_length. rewrite !len_app, !elements_len.
  assert (∀ (C : AffineCurve (Fr E)) (HC : CurveLaws C) (p : C), len (serialize CompressionNo p) = buffer_size C CompressionNo) as Hs.
  { intros C HC p. unfold len. rewrite serialize_width, <-buffer_size_width. done. }
  rewrite !Hs by apply _. rewrite L1, L2, L3, L4. nia.
Qed.

(** C20. The file between the phases: from a response of the first phase that
    decodes to points of the subgroup, with twice [2^k] powers of tau and [2^k]
    of the others, the preparation writes a file from which the parameters for
    a circuit of any size up to [2^k] are read: alpha, beta and the first
    coefficients of each kind of those that were prepared. *)
Theorem prepared_file_is_read ps power batch k response acc size
    (Hk : (1 ≤ k < 63)%N) (Hdomain : is_Some (new_domain (2 ^ k)))
    (Hacc : deserialize_accumulator E (new_parameters Full 0 0 (curve_parameters_new E) ps power batch)
              CompressionYes CheckFull response = Ok acc)
    (Hgroup : accumulator_in_group acc)
    (Henough : enough_powers (2 ^ k) (tau_powers_g1 acc) (tau_powers_g2 acc) (alpha_tau_powers_g1 acc)
                 (beta_tau_powers_g1 acc) = true)
    (Hlen : (prepared_length k < u64_modulus)%N) (Hsize : (1 ≤ size ≤ 2 ^ k)%N) :
  ∃ file g, prepare_phase2 ps power batch k response = Ok file ∧
    Groth16Params.new (2 ^ k) (tau_powers_g1 acc) (tau_powers_g2 acc) (alpha_tau_powers_g1 acc) (beta_tau_powers_g1 acc)
      (Accumulator.beta_g2 acc) = Ok g ∧
    read_params file CompressionNo CheckNo (usize_pow2 k) size = Ok (restricted size g).
Proof.
  assert (2 * 2 ^ k < u64_modulus)%N as H2.
  { rewrite <-N.pow_succ_r'. change u64_modulus with (2 ^ 64)%N. apply N.pow_lt_mono_r; lia. }
  assert (usize_pow2 k = 2 ^ k)%N as Hpow by (unfold usize_pow2; apply N.mod_small; lia).
  assert (2 ≤ 2 ^ k)%N as Hk2 by (change 2%N with (2 ^ 1)%N at 1; apply N.pow_le_mono_r; lia).
  destruct Hdomain as [d Hd].
  destruct (new_enough (2 ^ k) _ _ _ _ (Accumulator.beta_g2 acc) d Hd Hk2 H2 Henough) as (a & b & h & _ & _ & _ & _ & Hnew & _).
  pose proof (new_fits k acc _ ltac:(lia) H2 (ex_intro _ d Hd) Hgroup Henough Hnew) as Hfits.
  eexists _, _. split_and!; [|exact Hnew|].
  - unfold prepare_phase2. rewrite Hacc. cbn [expect' bind_outcome]. rewrite Hpow, Hnew. done.
  - rewrite Hpow. apply params_roundtrip; [done|done|]. pose proof (prepared_len k _ Hfits). lia.
Qed.
End prepared.

(** ** Files of the toy engine *)

#[local] Existing Instance toy_randomness.
#[local] Existing Instance toy_randomness_laws.
#[local] Existing Instance Toy.engine_laws.
#[local] Existing Instance toy_curve_hash.
#[local] Existing Instance toy_curve_hash_laws.
#[local] Existing Instance toy_format.
#[local] Existing Instance toy_format_laws.
#[local] Existing Instance toy_domains.

Lemma toy_domains_laws : DomainsLaws Toy.engine.
Proof.
  split.
  - intros C k d l _ _. cbn. unfold len. by rewrite length_reverse.
  - intros C d l _ Hl. cbn. by apply Forall_reverse.
Qed.

Lemma file_contribution_verifies_witness :
  ∃ p', contribute_file 2 toy_seed (mpc_write toy_mpc) = (Ok tt, mpc_write p') ∧
    ∀ thread, ∃ thread', verify_files (mpc_write toy_mpc) (mpc_write p') 3 thread = (Ok tt, thread').
Proof.
  assert (in_file toy_mpc (repeat x00 (N.to_nat (Keypair.size (E := Toy.engine))))) as Hf.
  { split; [exact (if_writable _ _ toy_before_file)|exact (if_keys _ _ toy_before_file)|by vm_compute]. }
  destruct (file_contribution_verifies toy_mpc toy_seed 2 3 toy_mpc_consistent Hf ltac:(by vm_compute) ltac:(done) ltac:(done)
    ltac:(done) ltac:(done) ltac:(done)) as (h & rng' & p' & _ & H1 & _ & _ & H2).
  exists p'. exact (conj H1 H2).
Defined.

Definition toy_response : bytes :=
  let p := new_parameters Full 0 0 (curve_parameters_new Toy.engine) Groth16 2 3 in
  (phase1_initialize Toy.engine CompressionYes p (repeat x00 (N.to_nat (get_length p CompressionYes)))).2.

#[local] Existing Instance toy_domains_laws.

Definition toy_prepared : Accumulator Toy.engine :=
  Accumulator.MkAccumulator (toy_g1 (repeat Toy.Z1 7)) (toy_g2 (repeat Toy.Z1 4)) (toy_g1 (repeat Toy.Z1 4))
    (toy_g1 (repeat Toy.Z1 4)) (Toy.Z1 : G2Affine Toy.engine).
Lemma toy_response_decodes :
  deserialize_accumulator Toy.engine (new_parameters Full 0 0 (curve_parameters_new Toy.engine) Groth16 2 3)
    CompressionYes CheckFull toy_response = Ok toy_prepared.
Proof. vm_cast_no_check (eq_refl (Ok toy_prepared : setup (Accumulator Toy.engine))). Qed.
Lemma toy_prepared_in_group : accumulator_in_group toy_prepared.
Proof. split; try split; by repeat constructor. Qed.

Lemma prepared_file_is_read_witness :
  ∃ file g, prepare_phase2 (E := Toy.engine) Groth16 2 3 2 toy_response = Ok file ∧
    read_params (E := Toy.engine) file CompressionNo CheckNo 4 3 = Ok (restricted 3 g).
Proof.
  destruct (prepared_file_is_read (E := Toy.engine) Groth16 2 3 2 toy_response toy_prepared 3 ltac:(lia)
    (ex_intro _ tt eq_refl) toy_response_decodes toy_prepared_in_group eq_refl ltac:(by vm_compute) ltac:(lia))
    as (file & g & H1 & _ & H2).
  exists file, g. exact (conj H1 H2).
Defined.
