(* ===== verification/Contribution.v ===== *)
(** * Contributions

    [phase1-coordinator/src/objects/contribution.rs]: one entry of a chunk's
    transcript, contributed by a contributor and then verified by a verifier. *)

From S2P Require Import Prelude Task Participant Errors.
(** [LocatorPath] of [storage/storage.rs] wraps a string. *)
Definition LocatorPath := string.

Record Contribution := MkContribution {
  contributor_id : option Participant;
  contributed_locator : option LocatorPath;
  contributed_signature_locator : option LocatorPath;
  verifier_id : option Participant;
  verified_locator : option LocatorPath;
  verified_signature_locator : option LocatorPath;
  verified : bool;
}.

Definition new_contributor_contribution (p : Participant) (loc sig : LocatorPath)
    : outcome CoordinatorError Contribution :=
  if negb (is_contributor p) then Err ExpectedContributor
  else Ok (MkContribution (Some p) (Some loc) (Some sig) None None None false).

Definition new_verifier_contribution (id : N) (p : Participant) (loc sig : LocatorPath)
    : outcome CoordinatorError Contribution :=
  if negb (is_verifier p) then Err ExpectedVerifier
  else if negb (id =? 0)%N then Err ContributionIdIsNonzero
  else Ok (MkContribution None None None (Some p) (Some loc) (Some sig) true).

Definition assign_verifier (p : Participant) (loc sig : LocatorPath)
    : M CoordinatorError Contribution unit :=
  bail_if (λ _, negb (is_verifier p)) with ExpectedVerifier ;;;
  bail_if (λ c, is_some (verifier_id c)) with ContributionAlreadyAssignedVerifier ;;;
  bail_if (λ c, is_some (verified_locator c)) with ContributionAlreadyAssignedVerifiedLocator ;;;
  bail_if verified with ContributionAlreadyVerified ;;;
  modify (λ c, MkContribution (contributor_id c) (contributed_locator c)
    (contributed_signature_locator c) (Some p) (Some loc) (Some sig) (verified c)).

Definition set_verified (p : Participant) : M CoordinatorError Contribution unit :=
  bail_if (λ _, negb (is_verifier p)) with ExpectedVerifier ;;;
  bail_if (λ c, is_none (verifier_id c)) with ContributionMissingVerifier ;;;
  bail_if (λ c, negb (bool_decide (verifier_id c = Some p))) with UnauthorizedChunkVerifier ;;;
  bail_if (λ c, is_none (verified_locator c)) with ContributionMissingVerifiedLocator ;;;
  bail_if verified with ContributionAlreadyVerified ;;;
  modify (λ c, MkContribution (contributor_id c) (contributed_locator c)
    (contributed_signature_locator c) (verifier_id c) (verified_locator c)
    (verified_signature_locator c) true).

Definition get_locators (c : Contribution) : list LocatorPath :=
  omap id [contributed_locator c; contributed_signature_locator c;
           verified_locator c; verified_signature_locator c].

(** ** Well-formedness *)

(** A contribution is the initial one (made and verified by a verifier), is
    awaiting verification, or has been verified. *)
Inductive contribution_wf : Contribution → Prop :=
| wf_initial v loc sig :
    is_verifier v = true →
    contribution_wf (MkContribution None None None (Some v) (Some loc) (Some sig) true)
| wf_pending p loc sig :
    is_contributor p = true →
    contribution_wf (MkContribution (Some p) (Some loc) (Some sig) None None None false)
| wf_verified p loc sig v vloc vsig :
    is_contributor p = true → is_verifier v = true →
    contribution_wf
      (MkContribution (Some p) (Some loc) (Some sig) (Some v) (Some vloc) (Some vsig) true).

Lemma new_contributor_contribution_wf p loc sig c :
  new_contributor_contribution p loc sig = Ok c → contribution_wf c ∧ verified c = false ∧ contributor_id c = Some p.
Proof.
  unfold new_contributor_contribution. destruct (is_contributor p) eqn:E; [|done].
  intros [= <-]. by repeat constructor.
Qed.

Lemma new_verifier_contribution_wf id p loc sig c :
  new_verifier_contribution id p loc sig = Ok c → contribution_wf c ∧ verified c = true ∧ contributor_id c = None.
Proof.
  unfold new_verifier_contribution. destruct (is_verifier p) eqn:E; [|done].
  destruct (id =? 0)%N; [|done]. intros [= <-]. by repeat constructor.
Qed.

(** Verification in two calls, as [Chunk::verify_contribution] makes them. *)
Lemma verify_pending c v loc sig :
  contribution_wf c → verified c = false → is_verifier v = true →
  ∃ c1 c2, assign_verifier v loc sig c = (Ok tt, c1) ∧ verified c1 = false ∧
    set_verified v c1 = (Ok tt, c2) ∧
    contribution_wf c2 ∧ verified c2 = true ∧ contributor_id c2 = contributor_id c.
Proof.
  intros Hwf Hc Hv. inversion Hwf; subst; try done.
  unfold assign_verifier, set_verified, check. rewrite Hv. simpl.
  eexists _, _. repeat split; [|by constructor..].
  simpl. by rewrite bool_decide_eq_true_2.
Qed.

Lemma assign_verifier_inv v loc sig c r c' :
  assign_verifier v loc sig c = (Ok r, c') →
  verified c = false ∧ is_verifier v = true ∧ verifier_id c = None ∧
  c' = MkContribution (contributor_id c) (contributed_locator c)
         (contributed_signature_locator c) (Some v) (Some loc) (Some sig) (verified c).
Proof.
  unfold assign_verifier. rewrite !check_ok. unfold modify. intros (? & ? & ? & ? & ?).
  simplify_eq. guards_to_props. done.
Qed.
