(* ===== verification/Locator.v ===== *)
(** * Locators and their paths

    [Locator] of [phase1-coordinator/src/storage/storage.rs], and
    [DiskResolver] of [storage/disk.rs], which maps a locator to the path of
    its file below a base directory and back.  The first section models the
    part of [std::path::Path] the resolver uses (Unix). *)

From S2P Require Import Prelude Text Errors Contribution.
From Stdlib Require Import Ascii.

(** ** Paths *)

Inductive Component := RootDir | CurDir | ParentDir | Normal (name : string).

#[export] Instance Component_eq_dec : EqDecision Component.
Proof. solve_decision. Defined.

(** A piece between slashes is a component unless it is empty or a [.] that
    is not the first piece of the path. *)
Definition component (first : bool) (piece : string) : option Component :=
  if bool_decide (piece = ""%string) then None
  else if bool_decide (piece = "."%string) then if first then Some CurDir else None
  else if bool_decide (piece = ".."%string) then Some ParentDir
  else Some (Normal piece).

Definition body (pieces : list string) : list Component := omap (component false) pieces.

Definition has_root (s : string) : bool :=
  match s with String c _ => Ascii.eqb c "/" | EmptyString => false end.

(** [Path::components] *)
Definition components (s : string) : list Component :=
  match split "/" s with
  | [] => []
  | first :: rest =>
      (if has_root s then [RootDir] else option_list (component true first)) ++ body rest
  end.

(** [Path::starts_with] compares whole components. *)
Definition path_starts_with (s base : string) : bool :=
  bool_decide (components base `prefix_of` components s).

(** The pieces left when the first [n] components are consumed. *)
Fixpoint skip_components (n : nat) (pieces : list string) : list string :=
  match n, pieces with
  | S m, p :: rest => skip_components (if is_some (component false p) then m else n) rest
  | _, _ => pieces
  end.

(** The text of the components left: pieces that are no component are trimmed
    from both ends. *)
Fixpoint trim_left (pieces : list string) : list string :=
  match pieces with
  | p :: rest => if is_some (component false p) then pieces else trim_left rest
  | [] => []
  end.
Definition trim (pieces : list string) : list string := reverse (trim_left (reverse (trim_left pieces))).

(** [Path::strip_prefix] for a [base] with at least one component. *)
Definition path_strip_prefix (s base : string) : option string :=
  if path_starts_with s base then
    match split "/" s with
    | [] => None
    | first :: rest =>
        let consumed := length (if has_root s then [RootDir] else option_list (component true first)) in
        Some (String.concat "/" (trim (skip_components (length (components base) - consumed) rest)))
    end
  else None.

(** ** Locators *)

Record ContributionLocator := MkContributionLocator {
  cl_round_height : N; cl_chunk_id : N; cl_contribution_id : N; cl_is_verified : bool }.
Record ContributionSignatureLocator := MkContributionSignatureLocator {
  csl_round_height : N; csl_chunk_id : N; csl_contribution_id : N; csl_is_verified : bool }.

#[export] Instance ContributionLocator_eq_dec : EqDecision ContributionLocator.
Proof. solve_decision. Defined.
#[export] Instance ContributionSignatureLocator_eq_dec : EqDecision ContributionSignatureLocator.
Proof. solve_decision. Defined.

Inductive Locator :=
| LCoordinatorState
| LRoundHeight
| LRoundState (round_height : N)
| LRoundFile (round_height : N)
| LContributionFile (l : ContributionLocator)
| LContributionFileSignature (l : ContributionSignatureLocator).

#[export] Instance Locator_eq_dec : EqDecision Locator.
Proof. solve_decision. Defined.

(** ** [DiskResolver] *)

Definition round_directory (base : string) (height : N) : string :=
  base +:+ "/" +:+ "round_" +:+ u64_to_string height.

Definition chunk_directory (base : string) (height chunk : N) : string :=
  round_directory base height +:+ "/" +:+ "chunk_" +:+ u64_to_string chunk.

Definition contribution_path (base : string) (height chunk contribution : N) (extension : string) : string :=
  chunk_directory base height chunk +:+ "/" +:+ "contribution_" +:+ u64_to_string contribution
    +:+ "." +:+ extension.

Definition to_path (base : string) (l : Locator) : LocatorPath :=
  match l with
  | LCoordinatorState => base +:+ "/" +:+ "coordinator.json"
  | LRoundHeight => base +:+ "/" +:+ "round_height"
  | LRoundState h => round_directory base h +:+ "/" +:+ "state.json"
  | LRoundFile h =>
      round_directory base h +:+ "/" +:+ "round_" +:+ u64_to_string h +:+ "." +:+ "verified"
  | LContributionFile l =>
      contribution_path base (cl_round_height l) (cl_chunk_id l) (cl_contribution_id l)
        (if cl_is_verified l then "verified" else "unverified")
  | LContributionFileSignature l =>
      contribution_path base (csl_round_height l) (csl_chunk_id l) (csl_contribution_id l)
        (if csl_is_verified l then "verified.signature" else "unverified.signature")
  end.

Definition format_incorrect {A} : outcome CoordinatorError A := Err StorageLocatorFormatIncorrect.

(** [u64::from_str(s)?] *)
Definition parse_u64 (s : string) : outcome CoordinatorError N := ok_or (u64_from_str s) Integer.

(** A directory name: the prefix, then a number in its canonical form.  The
    continuation runs when the name has the prefix and the form. *)
Definition numbered_directory (prefix name : string) (k : N → outcome CoordinatorError Locator)
    : outcome CoordinatorError Locator :=
  match strip_prefix prefix name with
  | None => format_incorrect
  | Some digits =>
      try! n := parse_u64 digits in
      if bool_decide (name = prefix +:+ u64_to_string n) then k n else format_incorrect
  end.

Definition parse_contribution (height chunk : N) (name : string) : outcome CoordinatorError Locator :=
  match strip_prefix "contribution_" name with
  | None => format_incorrect
  | Some rest =>
      match splitn2 "." rest with
      | None => format_incorrect
      | Some (id, extension) =>
          try! contribution := parse_u64 id in
          if bool_decide (extension = "unverified.signature"%string) then
            Ok (LContributionFileSignature (MkContributionSignatureLocator height chunk contribution false))
          else if bool_decide (extension = "verified.signature"%string) then
            Ok (LContributionFileSignature (MkContributionSignatureLocator height chunk contribution true))
          else if bool_decide (extension = "unverified"%string) then
            Ok (LContributionFile (MkContributionLocator height chunk contribution false))
          else if bool_decide (extension = "verified"%string) then
            Ok (LContributionFile (MkContributionLocator height chunk contribution true))
          else format_incorrect
      end
  end.

(** What follows the base directory. *)
Definition parse_key (key : string) : outcome CoordinatorError Locator :=
  if bool_decide (key = "coordinator.json"%string) then Ok LCoordinatorState
  else if bool_decide (key = "round_height"%string) then Ok LRoundHeight
  else match splitn2 "/" key with
  | None => format_incorrect
  | Some (round, remainder) =>
      numbered_directory "round_" round (λ height,
        if bool_decide (remainder = "state.json"%string) then Ok (LRoundState height)
        else if bool_decide (remainder = "round_" +:+ u64_to_string height +:+ "." +:+ "verified")
        then Ok (LRoundFile height)
        else match splitn2 "/" remainder with
        | None => format_incorrect
        | Some (chunk, path) =>
            numbered_directory "chunk_" chunk (λ chunk_id, parse_contribution height chunk_id path)
        end)
  end.

Definition to_locator (base : string) (path : LocatorPath) : outcome CoordinatorError Locator :=
  let path := match strip_prefix "./" path with Some _ => path | None => "./" +:+ path end in
  if negb (path_starts_with path base) then format_incorrect
  else
    try! key := ok_or (path_strip_prefix path (base +:+ "/")) StorageLocatorFormatIncorrect in
    parse_key key.

(** ** Paths below a base directory *)

Lemma append_app_cons a c b : a +:+ String c "" +:+ b = a +:+ String c b.
Proof. done. Qed.

Lemma body_app l l' : body (l ++ l') = body l ++ body l'.
Proof. apply omap_app. Qed.

Lemma trim_left_skip l l' :
  trim_left (skip_components (length (body l)) (l ++ l')) = trim_left l'.
Proof.
  induction l as [|p l IH]; [by destruct l'|]. cbn [body omap list_omap app].
  destruct (component false p) as [x|] eqn:Hp.
  - cbn [length skip_components]. by rewrite Hp.
  - change (omap (component false) l) with (body l).
    destruct (length (body l)) as [|n] eqn:Hn; cbn [skip_components app].
    + cbn [trim_left]. rewrite Hp. rewrite <-IH. by destruct (l ++ l').
    + rewrite Hp. apply IH.
Qed.

(** A relative path in normal form: it starts and ends with a component. *)
Definition clean (pieces : list string) : Prop :=
  trim_left pieces = pieces ∧ trim_left (reverse pieces) = reverse pieces.

Lemma trim_skip l l' :
  clean l' → trim (skip_components (length (body l)) (l ++ l')) = l'.
Proof. intros [Hl Hr]. unfold trim. rewrite trim_left_skip, Hl, Hr. apply reverse_involutive. Qed.

Lemma has_root_app base k : base ≠ ""%string → has_root (base +:+ k) = has_root base.
Proof. by destruct base. Qed.

Definition head_component (base piece : string) : list Component :=
  if has_root base then [RootDir] else option_list (component true piece).

Lemma components_app base f r key :
  base ≠ ""%string → split "/" base = f :: r →
  components (base +:+ String "/" key) = head_component base f ++ body r ++ body (split "/" key).
Proof.
  intros Hb Hs. unfold components. rewrite split_app, Hs. cbn [app].
  by rewrite has_root_app, body_app by done.
Qed.

Lemma components_slash base f r :
  base ≠ ""%string → split "/" base = f :: r →
  components (base +:+ "/") = head_component base f ++ body r.
Proof.
  intros Hb Hs. rewrite (components_app base f r) by done. change (body (split "/" "")) with (@nil Component).
  by rewrite app_nil_r.
Qed.

Lemma path_strip_base base key :
  base ≠ ""%string → clean (split "/" key) →
  path_starts_with (base +:+ String "/" key) base = true ∧
  path_strip_prefix (base +:+ String "/" key) (base +:+ "/") = Some key.
Proof.
  intros Hb Hk. destruct (split "/" base) as [|f r] eqn:Hs; [by apply split_nonempty in Hs|].
  assert (components base = head_component base f ++ body r) as Hcb.
  { unfold components, head_component. by rewrite Hs. }
  assert (∀ s, path_starts_with (base +:+ String "/" key) s = true ↔
    components s `prefix_of` head_component base f ++ body r ++ body (split "/" key)) as Hpre.
  { intros s. unfold path_starts_with. rewrite bool_decide_eq_true. by erewrite components_app. }
  split.
  - apply Hpre. rewrite Hcb, app_assoc. by apply prefix_app_r.
  - unfold path_strip_prefix.
    assert (path_starts_with (base +:+ String "/" key) (base +:+ "/") = true) as ->.
    { apply Hpre. erewrite components_slash by done. rewrite app_assoc. by apply prefix_app_r. }
    rewrite split_app, Hs. cbn [app]. rewrite has_root_app by done.
    erewrite components_slash by done. fold (head_component base f). rewrite length_app.
    replace (length (head_component base f) + length (body r) - length (head_component base f))
      with (length (body r)) by lia.
    rewrite trim_skip by done. f_equal. apply concat_split.
Qed.

(** ** The key of a locator *)

Definition key (l : Locator) : string :=
  match l with
  | LCoordinatorState => "coordinator.json"
  | LRoundHeight => "round_height"
  | LRoundState h => ("round_" +:+ u64_to_string h) +:+ String "/" "state.json"
  | LRoundFile h =>
      ("round_" +:+ u64_to_string h) +:+ String "/" (("round_" +:+ u64_to_string h) +:+ String "." "verified")
  | LContributionFile l =>
      ("round_" +:+ u64_to_string (cl_round_height l)) +:+ String "/"
      (("chunk_" +:+ u64_to_string (cl_chunk_id l)) +:+ String "/"
       (("contribution_" +:+ u64_to_string (cl_contribution_id l)) +:+ String "."
          (if cl_is_verified l then "verified" else "unverified")))
  | LContributionFileSignature l =>
      ("round_" +:+ u64_to_string (csl_round_height l)) +:+ String "/"
      (("chunk_" +:+ u64_to_string (csl_chunk_id l)) +:+ String "/"
       (("contribution_" +:+ u64_to_string (csl_contribution_id l)) +:+ String "."
          (if csl_is_verified l then "verified.signature" else "unverified.signature")))
  end.

Lemma to_path_key base l : to_path base l = base +:+ String "/" (key l).
Proof.
  destruct l; unfold to_path, key, contribution_path, chunk_directory, round_directory;
    rewrite ?append_assoc; done.
Qed.

(** The numbers of a locator are [u64]s. *)
Definition locator_in_range (l : Locator) : Prop :=
  match l with
  | LCoordinatorState | LRoundHeight => True
  | LRoundState h | LRoundFile h => (h < u64_modulus)%N
  | LContributionFile l =>
      (cl_round_height l < u64_modulus)%N ∧ (cl_chunk_id l < u64_modulus)%N ∧
      (cl_contribution_id l < u64_modulus)%N
  | LContributionFileSignature l =>
      (csl_round_height l < u64_modulus)%N ∧ (csl_chunk_id l < u64_modulus)%N ∧
      (csl_contribution_id l < u64_modulus)%N
  end.

#[export] Instance locator_in_range_dec l : Decision (locator_in_range l).
Proof. destruct l; simpl; apply _. Defined.

Lemma prefixed_no_char c p n :
  has_char c p = false → is_digit c = false → has_char c (p +:+ u64_to_string n) = false.
Proof. intros Hp Hd. rewrite has_char_app, Hp. by rewrite u64_to_string_no_char. Qed.

Lemma numbered_directory_canonical p n k :
  (n < u64_modulus)%N → numbered_directory p (p +:+ u64_to_string n) k = k n.
Proof.
  intros Hn. unfold numbered_directory, parse_u64. rewrite strip_prefix_app, u64_from_to_string by done.
  simpl. by rewrite bool_decide_eq_true_2.
Qed.

Lemma parse_contribution_canonical h c n (e : string) :
  (n < u64_modulus)%N →
  parse_contribution h c (("contribution_" +:+ u64_to_string n) +:+ String "." e) =
  if bool_decide (e = "unverified.signature"%string) then
    Ok (LContributionFileSignature (MkContributionSignatureLocator h c n false))
  else if bool_decide (e = "verified.signature"%string) then
    Ok (LContributionFileSignature (MkContributionSignatureLocator h c n true))
  else if bool_decide (e = "unverified"%string) then
    Ok (LContributionFile (MkContributionLocator h c n false))
  else if bool_decide (e = "verified"%string) then
    Ok (LContributionFile (MkContributionLocator h c n true))
  else format_incorrect.
Proof.
  intros Hn. unfold parse_contribution. rewrite append_assoc, strip_prefix_app.
  rewrite splitn2_app by (by apply u64_to_string_no_char).
  unfold parse_u64. by rewrite u64_from_to_string.
Qed.

Lemma parse_key_round h r :
  (h < u64_modulus)%N →
  parse_key (("round_" +:+ u64_to_string h) +:+ String "/" r) =
  if bool_decide (r = "state.json"%string) then Ok (LRoundState h)
  else if bool_decide (r = "round_" +:+ u64_to_string h +:+ "." +:+ "verified") then Ok (LRoundFile h)
  else match splitn2 "/" r with
  | None => format_incorrect
  | Some (chunk, path) => numbered_directory "chunk_" chunk (λ c, parse_contribution h c path)
  end.
Proof.
  intros Hh. unfold parse_key.
  rewrite !bool_decide_eq_false_2 by (by eapply has_char_neq; [apply has_char_sep|]).
  rewrite splitn2_app by (by apply prefixed_no_char).
  by rewrite numbered_directory_canonical.
Qed.

Lemma parse_key_contribution h c n (e : string) :
  (h < u64_modulus)%N → (c < u64_modulus)%N → (n < u64_modulus)%N →
  parse_key (("round_" +:+ u64_to_string h) +:+ String "/"
    (("chunk_" +:+ u64_to_string c) +:+ String "/" (("contribution_" +:+ u64_to_string n) +:+ String "." e)))
  = parse_contribution h c (("contribution_" +:+ u64_to_string n) +:+ String "." e).
Proof.
  intros Hh Hc Hn. rewrite parse_key_round by done.
  rewrite !bool_decide_eq_false_2.
  3: by eapply has_char_neq; [apply has_char_sep|].
  2: { eapply has_char_neq; [apply has_char_sep|]. rewrite has_char_app. simpl.
       rewrite has_char_app, u64_to_string_no_char; done. }
  rewrite splitn2_app by (by apply prefixed_no_char).
  by rewrite numbered_directory_canonical.
Qed.

Lemma parse_key_of l : locator_in_range l → parse_key (key l) = Ok l.
Proof.
  destruct l as [| |h|h|[h c n v]|[h c n v]]; simpl; intros Hr; try done.
  - by rewrite parse_key_round.
  - rewrite parse_key_round by done.
    rewrite bool_decide_eq_false_2 by (rewrite append_assoc; cbv [String.append]; congruence).
    rewrite append_assoc. by rewrite bool_decide_eq_true_2.
  - destruct Hr as (? & ? & ?). rewrite parse_key_contribution, parse_contribution_canonical by done.
    by destruct v.
  - destruct Hr as (? & ? & ?). rewrite parse_key_contribution, parse_contribution_canonical by done.
    by destruct v.
Qed.

Lemma append_inj_l (a b b' : string) : a +:+ b = a +:+ b' → b = b'.
Proof. induction a as [|x a IH]; [done|]. rewrite !append_cons. intros [= ?]. auto. Qed.

Lemma sep_inj c a a' b b' :
  has_char c a = false → has_char c a' = false →
  a +:+ String c b = a' +:+ String c b' → a = a' ∧ b = b'.
Proof.
  intros Ha Ha' Heq. apply (splitn2_app c a b) in Ha. apply (splitn2_app c a' b') in Ha'.
  rewrite Heq, Ha' in Ha. by injection Ha.
Qed.

Lemma numbered_inj p c n n' b b' :
  has_char c p = false → is_digit c = false →
  (p +:+ u64_to_string n) +:+ String c b = (p +:+ u64_to_string n') +:+ String c b' → n = n' ∧ b = b'.
Proof.
  intros Hp Hc [Heq ?]%sep_inj; [|by apply prefixed_no_char..].
  by apply append_inj_l, u64_to_string_inj in Heq.
Qed.

Lemma no_separator c a b s : has_char c s = false → a +:+ String c b ≠ s.
Proof. intros Hs <-. by rewrite has_char_sep in Hs. Qed.

(** Compare two keys piece by piece. *)
Ltac compare_keys Heq :=
  repeat match type of Heq with
  | _ +:+ String _ _ = _ +:+ String _ _ =>
      let H := fresh in apply numbered_inj in Heq as [H Heq]; [|done..]; subst
  | _ = _ +:+ String _ _ => by apply eq_sym, no_separator in Heq
  | _ +:+ String _ _ = _ => by apply no_separator in Heq
  | (if ?v then _ else _) = (if ?v' then _ else _) => by destruct v, v'
  end.

(** No two locators share a file. *)
Lemma key_inj l l' : key l = key l' → l = l'.
Proof.
  destruct l as [| |h|h|[h c n v]|[h c n v]], l' as [| |h'|h'|[h' c' n' v']|[h' c' n' v']];
    cbn [key cl_round_height cl_chunk_id cl_contribution_id cl_is_verified
         csl_round_height csl_chunk_id csl_contribution_id csl_is_verified]; intros Heq;
    try done; compare_keys Heq; try done.
Qed.

Lemma to_path_inj base l l' : to_path base l = to_path base l' → l = l'.
Proof. rewrite !to_path_key. intros Heq%append_inj_l. injection Heq. apply key_inj. Qed.

Lemma component_name s :
  s ≠ ""%string → s ≠ "."%string → is_some (component false s) = true.
Proof. intros. unfold component. rewrite !bool_decide_eq_false_2 by done. by case_bool_decide. Qed.

Lemma clean_names pieces :
  pieces ≠ [] → Forall (λ s, s ≠ ""%string ∧ s ≠ "."%string) pieces → clean pieces.
Proof.
  assert (∀ l, Forall (λ s, s ≠ ""%string ∧ s ≠ "."%string) l → trim_left l = l) as Ht.
  { intros l Hl. destruct Hl as [|s l [??] _]; [done|]. simpl. by rewrite component_name. }
  intros _ Hall. split; [by apply Ht|]. apply Ht. by apply Forall_reverse.
Qed.

Lemma split_named p n r :
  has_char "/" p = false → 
  split "/" ((p +:+ u64_to_string n) +:+ String "/" r) = (p +:+ u64_to_string n) :: split "/" r.
Proof.
  intros. rewrite split_app, split_piece; [done|]. by apply prefixed_no_char.
Qed.

Lemma clean_key l : clean (split "/" (key l)).
Proof.
  apply clean_names; [apply split_nonempty|].
  assert (∀ p n e, has_char "/" p = false → has_char "/" e = false →
    split "/" ((p +:+ u64_to_string n) +:+ String "." e) = [(p +:+ u64_to_string n) +:+ String "." e]) as Hfile.
  { intros p n e Hp He. apply split_piece. rewrite has_char_app, prefixed_no_char by done. by simpl. }
  destruct l as [| |h|h|[h c n v]|[h c n v]]; cbn [key];
    rewrite ?split_named by done; rewrite ?Hfile by (done || by destruct v);
    repeat constructor; rewrite ?append_assoc; cbv [String.append]; congruence.
Qed.

(** ** Base directories *)

(** [.], or a path that starts with [./]: what the [TODO] in [to_locator]
    calls a relative path. *)
Definition relative_base (base : string) : bool := is_some (strip_prefix "./" (base +:+ "/")).


Lemma relative_path base k :
  is_some (strip_prefix "./" (base +:+ String "/" k)) = relative_base base.
Proof.
  unfold relative_base.
  destruct base as [|a [|b base]]; [done| |]; rewrite !append_cons; cbn [strip_prefix].
  - by destruct (Ascii.eqb "." a).
  - destruct (Ascii.eqb "." a); [|done]. by destruct (Ascii.eqb "/" b).
Qed.

(** Below another base nothing is found: the path is taken as relative, the
    base is not. *)
Lemma other_base_head base :
  base ≠ ""%string → relative_base base = false →
  ∃ c cs, components base = c :: cs ∧ c ≠ CurDir.
Proof.
  intros Hb Hr. unfold components. destruct (has_root base) eqn:Hroot.
  { rewrite split_unfold. destruct (split_once "/" base) as [l [r|]]; eauto. }
  assert (∀ l, l ≠ ""%string → l ≠ "."%string → ∃ c, component true l = Some c ∧ c ≠ CurDir) as Hc.
  { intros l ??. unfold component. rewrite !bool_decide_eq_false_2 by done. case_bool_decide; eauto. }
  rewrite split_unfold. destruct (split_once "/" base) as [l [r|]] eqn:E.
  - apply split_once_Some in E as [-> _].
    destruct (Hc l) as (c & -> & ?); [by intros -> | by intros -> | cbn; eauto].
  - apply split_once_None in E as [-> _].
    destruct (Hc l) as (c & -> & ?); [done | by intros -> | cbn; eauto].
Qed.

Lemma components_dot s : components ("./" +:+ s) = CurDir :: body (split "/" s).
Proof.
  change ("./" +:+ s) with ("." +:+ String "/" s). unfold components. rewrite split_app. done.
Qed.

(** ** Which paths belong to a round *)

Definition round_of (l : Locator) : option N :=
  match l with
  | LCoordinatorState | LRoundHeight => None
  | LRoundState h | LRoundFile h => Some h
  | LContributionFile l => Some (cl_round_height l)
  | LContributionFileSignature l => Some (csl_round_height l)
  end.

Definition is_round_state (l : Locator) : bool :=
  match l with LRoundState _ => true | _ => false end.

(** The files of contribution 0 are the initial challenges of the chunks. *)
Definition is_initial_contribution (l : Locator) : bool :=
  match l with
  | LContributionFile l => (cl_contribution_id l =? 0)%N
  | LContributionFileSignature l => (csl_contribution_id l =? 0)%N
  | _ => false
  end.

Lemma round_name_inj h h' : "round_" +:+ u64_to_string h = "round_" +:+ u64_to_string h' → h = h'.
Proof. intros Heq%append_inj_l. by apply u64_to_string_inj. Qed.

Lemma below_round_directory b h l :
  is_some (strip_prefix (round_directory b h +:+ "/") (to_path b l)) = bool_decide (round_of l = Some h).
Proof.
  rewrite to_path_key. unfold round_directory. rewrite append_assoc, strip_prefix_app_both.
  change (String "/" (key l)) with ("/" +:+ key l). rewrite append_assoc, strip_prefix_app_both.
  assert (has_char "/" ("round_" +:+ u64_to_string h) = false) as Hh by (by apply prefixed_no_char).
  assert (∀ h' r, is_some (strip_prefix (("round_" +:+ u64_to_string h) +:+ "/")
      (("round_" +:+ u64_to_string h') +:+ String "/" r)) = bool_decide (Some h' = Some h)) as Hd.
  { intros h' r. rewrite strip_prefix_sep by (done || by apply prefixed_no_char).
    apply bool_decide_ext. split; [by intros ->%round_name_inj | by intros [= ->]]. }
  destruct l as [| |h'|h'|l|l]; cbn [key round_of]; try by apply Hd.
  - done.
  - rewrite bool_decide_eq_false_2 by done. apply is_some_false.
    destruct (strip_prefix _ _) as [r|] eqn:E; [|done]. apply strip_prefix_Some in E.
    apply (f_equal (has_char "/")) in E. rewrite !has_char_app in E.
    rewrite u64_to_string_no_char in E by done. simpl in E. discriminate.
Qed.

(** The base directory does not look like a file name the clearing skips. *)
Definition plain_base (b : string) : Prop :=
  contains_str "contribution_0" b = false ∧ contains_str "state.json" b = false.

Lemma contribution_name_contains n e :
  has_char "c" e = false →
  contains_str "contribution_0" (("contribution_" +:+ u64_to_string n) +:+ String "." e) = (n =? 0)%N.
Proof.
  intros He. rewrite append_assoc.
  change "contribution_0"%string with ("contribution_" +:+ "0").
  assert (∀ p s, contains_str p (String "c" s) =
    is_some (strip_prefix p (String "c" s)) || contains_str p s) as Hun by done.
  change ("contribution_" +:+ u64_to_string n +:+ String "." e)
    with (String "c" ("ontribution_" +:+ u64_to_string n +:+ String "." e)).
  rewrite Hun, (contains_str_no_char "c") by
    (done || by rewrite !has_char_app, u64_to_string_no_char; simpl).
  change (String "c" ("ontribution_" +:+ ?s)) with ("contribution_" +:+ s).
  by rewrite strip_prefix_app_both, u64_to_string_leading_zero, orb_false_r.
Qed.

Lemma numbered_no_t p n s :
  has_char "t" p = false → contains_str "contribution_0" ((p +:+ u64_to_string n) +:+ String "/" s)
    = contains_str "contribution_0" s.
Proof.
  intros Hp. rewrite contains_str_sep by done.
  by rewrite (contains_str_no_char "t") by (done || by apply prefixed_no_char).
Qed.
Lemma numbered_no_j p n s :
  has_char "j" p = false → contains_str "state.json" ((p +:+ u64_to_string n) +:+ String "/" s)
    = contains_str "state.json" s.
Proof.
  intros Hp. rewrite contains_str_sep by done.
  by rewrite (contains_str_no_char "j") by (done || by apply prefixed_no_char).
Qed.

Lemma path_contains_initial b l :
  plain_base b → contains_str "contribution_0" (to_path b l) = is_initial_contribution l.
Proof.
  intros [Hb _]. rewrite to_path_key, contains_str_sep, Hb by done. cbn [orb].
  destruct l as [| |h|h|l|l]; cbn [key is_initial_contribution]; try done;
    rewrite ?numbered_no_t by done; try done.
  - rewrite (contains_str_no_char "t"); [done..|]. rewrite has_char_app, prefixed_no_char; done.
  - apply contribution_name_contains. by destruct (cl_is_verified l).
  - apply contribution_name_contains. by destruct (csl_is_verified l).
Qed.

Lemma path_contains_state b l :
  plain_base b → contains_str "state.json" (to_path b l) = is_round_state l.
Proof.
  intros [_ Hb]. rewrite to_path_key, contains_str_sep, Hb by done. cbn [orb].
  destruct l as [| |h|h|l|l]; cbn [key is_round_state]; try done;
    rewrite ?numbered_no_j by done; try done.
  - rewrite (contains_str_no_char "j"); [done..|]. rewrite has_char_app, prefixed_no_char; done.
  - rewrite (contains_str_no_char "j"); [done..|]. rewrite has_char_app, prefixed_no_char by done.
    by destruct (cl_is_verified l).
  - rewrite (contains_str_no_char "j"); [done..|]. rewrite has_char_app, prefixed_no_char by done.
    by destruct (csl_is_verified l).
Qed.

Lemma resolve_path base l :
  locator_in_range l →
  to_locator base (to_path base l) = if relative_base base then Ok l else format_incorrect.
Proof.
  intros Hl. rewrite to_path_key. unfold to_locator.
  pose proof (relative_path base (key l)) as Hs.
  destruct (relative_base base) eqn:Hr.
  - apply is_some_true in Hs as [r ->].
    destruct (path_strip_base base (key l)) as [-> ->]; [by intros -> | apply clean_key|].
    simpl. by apply parse_key_of.
  - apply is_some_false in Hs as ->.
    destruct (decide (base = ""%string)) as [->|Hb]; [by vm_compute|].
    destruct (other_base_head base) as (c & cs & Hc & Hne); [done..|].
    unfold path_starts_with. rewrite components_dot, Hc, bool_decide_eq_false_2; [done|].
    by intros [? [= ? _]].
Qed.

(** C35. Distinct locators have distinct paths below a base directory, and the
    resolver maps the path of a locator back to the locator when the base is
    [.] or starts with [./]; below any other base it refuses every path it
    made itself. *)
Theorem to_locator_to_path base l :
  locator_in_range l →
  to_locator base (to_path base l) = (if relative_base base then Ok l else format_incorrect) ∧
  (∀ l', to_path base l' = to_path base l → l' = l).
Proof. intros Hl. split; [by apply resolve_path|]. intros l'. apply to_path_inj. Qed.

Lemma to_locator_to_path_witness :
  let l := LContributionFile (MkContributionLocator 3 14 2 false) in
  to_path "./transcript/testing" l = "./transcript/testing/round_3/chunk_14/contribution_2.unverified"%string ∧
  to_locator "./transcript/testing" (to_path "./transcript/testing" l) = Ok l ∧
  to_locator "/var/transcript" (to_path "/var/transcript" l) = Err StorageLocatorFormatIncorrect.
Proof.
  intros l. split; [by vm_compute|]. split.
  - rewrite (proj1 (to_locator_to_path "./transcript/testing" l ltac:(vm_compute; auto))). by vm_compute.
  - rewrite (proj1 (to_locator_to_path "/var/transcript" l ltac:(vm_compute; auto))). by vm_compute.
Defined.
