(* ===== verification/Chunk.v ===== *)
(** * Chunks

    [phase1-coordinator/src/objects/chunk.rs]: the lock and the transcript of
    contributions of one chunk within a round. *)

From S2P Require Import Prelude Task Participant Errors Contribution.
Record Chunk := MkChunk {
  ck_chunk_id : N;
  lock_holder : option Participant;
  contributions : gmap N Contribution;
}.

Definition chunk_new (id : N) (p : Participant) (loc sig : LocatorPath)
    : outcome CoordinatorError Chunk :=
  if is_verifier p then
    try! c := new_verifier_contribution 0 p loc sig in
    Ok (MkChunk id None {[0%N := c]})
  else Err ExpectedVerifier.

Definition is_locked (c : Chunk) : bool := is_some (lock_holder c).
Definition is_unlocked (c : Chunk) : bool := negb (is_locked c).
Definition is_locked_by (c : Chunk) (p : Participant) : bool :=
  if is_unlocked c then false
  else match lock_holder c with
       | Some holder => bool_decide (holder = p)
       | None => false
       end.

Definition contributions_len (c : Chunk) : N := N.of_nat (size (contributions c)).

(** [(self.contributions.len() - 1) as u64] *)
Definition current_contribution_id (c : Chunk) : N := u64_sub (contributions_len c) 1.

Definition get_contribution (c : Chunk) (id : N) : outcome CoordinatorError Contribution :=
  match contributions c !! id with
  | Some k => Ok k
  | None => Err ContributionMissing
  end.
Definition current_contribution (c : Chunk) : outcome CoordinatorError Contribution :=
  get_contribution c (current_contribution_id c).

Definition only_contributions_complete (c : Chunk) (expected : N) : bool :=
  (contributions_len c =? expected)%N.

Definition number_verified (c : Chunk) : N :=
  N.of_nat (size (filter (λ kc, verified kc.2 = true) (contributions c))).

Definition is_complete (c : Chunk) (expected : N) : bool :=
  if is_locked c then false
  else only_contributions_complete c expected && (number_verified c =? expected)%N.

Definition is_next_contribution_id (c : Chunk) (next expected : N) : bool :=
  if negb (u64_add (current_contribution_id c) 1 =? next)%N then false
  else if only_contributions_complete c expected then false
  else if is_complete c expected then false
  else true.

Definition next_contribution_id (c : Chunk) (expected : N) : outcome CoordinatorError N :=
  try! current := current_contribution c in
  if negb (verified current) then Err ContributionMissingVerification
  else if negb (only_contributions_complete c expected)
  then Ok (u64_add (current_contribution_id c) 1)
  else Err ContributionsComplete.

Definition set_lock_holder (holder : option Participant) (c : Chunk) : Chunk :=
  MkChunk (ck_chunk_id c) holder (contributions c).
Definition set_contributions (m : gmap N Contribution) (c : Chunk) : Chunk :=
  MkChunk (ck_chunk_id c) (lock_holder c) m.

Definition set_lock_holder_unsafe := set_lock_holder.

Definition remove_contribution_unsafe (id : N) (c : Chunk) : Chunk :=
  set_contributions (delete id (contributions c)) c.

(** Has the participant contributed to the chunk? *)
Definition has_contributed (c : Chunk) (p : Participant) : bool :=
  negb (map_is_empty (filter (λ kc, contributor_id kc.2 = Some p) (contributions c))).

Definition acquire_lock (p : Participant) (expected : N) : M CoordinatorError Chunk unit :=
  bail_if is_locked with ChunkLockAlreadyAcquired ;;;
  bail_if (λ c, is_complete c expected) with ChunkAlreadyComplete ;;;
  (λ c,
    (* contributors: returns true when the reconnection case applies *)
    let contributor_part : outcome CoordinatorError bool :=
      if is_contributor p then
        if has_contributed c p then Err ContributorAlreadyContributed
        else
          try! contribution := current_contribution c in
          if is_locked_by c p && bool_decide (contributor_id contribution = Some p)
             && is_none (contributed_locator contribution) && negb (verified contribution)
          then Ok true
          else
            try! current := current_contribution c in
            if negb (verified current) then Err ChunkMissingVerification else Ok false
      else Ok false in
    match contributor_part with
    | Ok true => (Ok tt, c)
    | Ok false =>
        let verifier_part : outcome CoordinatorError unit :=
          if is_verifier p then
            try! current := current_contribution c in
            if verified current then Err ChunkAlreadyVerified else Ok tt
          else Ok tt in
        match verifier_part with
        | Ok _ => (Ok tt, set_lock_holder (Some p) c)
        | Err e => (Err e, c)
        | Panic => (Panic, c)
        end
    | Err e => (Err e, c)
    | Panic => (Panic, c)
    end).

Definition add_contribution (id : N) (p : Participant) (loc sig : LocatorPath)
    : M CoordinatorError Chunk unit :=
  bail_if (λ _, negb (is_contributor p)) with ExpectedContributor ;;;
  bail_if (λ c, negb (is_locked_by c p)) with ChunkNotLockedOrByWrongParticipant ;;;
  let! k := lift (new_contributor_contribution p loc sig) in
  modify (λ c, set_contributions (<[id := k]> (contributions c)) c) ;;;
  modify (set_lock_holder None).

(** The contribution is updated in place, so an error leaves it in the state
    the failing call reached. *)
Definition verify_contribution (id : N) (p : Participant) (loc sig : LocatorPath)
    : M CoordinatorError Chunk unit :=
  bail_if (λ _, negb (is_verifier p)) with ExpectedVerifier ;;;
  (λ c,
    match contributions c !! id with
    | None => (Err ContributionMissing, c)
    | Some k0 =>
        let in_place (m : M CoordinatorError Contribution unit) : M CoordinatorError Chunk unit :=
          zoom (λ c, default k0 (contributions c !! id))
               (λ k c, set_contributions (<[id := k]> (contributions c)) c) m in
        (in_place (assign_verifier p loc sig) ;;;
         in_place (bail_if verified with ContributionAlreadyVerified ;;; ret tt) ;;;
         in_place (set_verified p) ;;;
         modify (set_lock_holder None)) c
    end).

(** Removal of a contribution and all that follow it, as
    [Round::remove_chunk_contributions_unsafe] loops. *)
Definition remove_contributions_from (id : N) (c : Chunk) : Chunk :=
  foldl (λ c i, remove_contribution_unsafe i c) c (u64_range id (contributions_len c)).

(** What [Round::reset] does to each chunk. *)
Definition reset_chunk (c : Chunk) : Chunk :=
  let c := set_lock_holder_unsafe None c in
  foldl (λ c id, if negb (id =? 0)%N then remove_contribution_unsafe id c else c)
        c (map_to_list (contributions c)).*1.

(** A contributor and a verifier take a chunk of a one-contributor round from
    its creation to completion. *)
Definition lifecycle : outcome CoordinatorError Chunk :=
  try! c := chunk_new 7 (Verifier "v") "c0" "s0" in
  let p := Contributor "p" in
  let '(r, c) := (acquire_lock p 2 ;;;
                  let! k := (λ c, (next_contribution_id c 2, c)) in
                  add_contribution k p "c1" "s1" ;;;
                  verify_contribution k (Verifier "v") "c2" "s2") c in
  try! _ := r in Ok c.
Example lifecycle_completes :
  match lifecycle with Ok c => is_complete c 2 && negb (is_locked c) | _ => false end = true.
Proof. vm_compute. reflexivity. Qed.

(** ** Contiguous transcripts *)

(** The keys of the map are [0 .. n]. *)
Definition contiguous {A} (m : gmap N A) (n : N) : Prop := ∀ i, is_Some (m !! i) ↔ (i < n)%N.

Lemma contiguous_size {A} (m : gmap N A) n : contiguous m n → N.of_nat (size m) = n.
Proof.
  intros Hm. rewrite <-size_dom.
  assert (dom m = list_to_set (u64_range 0 n)) as ->.
  { apply set_eq. intros i. pose proof (Hm i) as Hi.
    rewrite elem_of_dom, Hi, elem_of_list_to_set, elem_of_u64_range. lia. }
  rewrite size_list_to_set by apply u64_range_NoDup. rewrite u64_range_length. lia.
Qed.

Lemma contiguous_insert {A} (m : gmap N A) n a : contiguous m n → contiguous (<[n := a]> m) (n + 1).
Proof.
  intros Hm i. pose proof (Hm i) as Hi. destruct (decide (i = n)) as [->|].
  - rewrite lookup_insert_eq. split; [lia | eauto].
  - rewrite lookup_insert_ne, Hi by done. lia.
Qed.

Lemma contiguous_update {A} (m : gmap N A) n i a :
  contiguous m n → (i < n)%N → contiguous (<[i := a]> m) n.
Proof.
  intros Hm Hi j. pose proof (Hm j) as Hj. destruct (decide (j = i)) as [->|].
  - rewrite lookup_insert_eq. naive_solver.
  - by rewrite lookup_insert_ne by done.
Qed.

Lemma remove_list_lookup (l : list N) c i :
  contributions (foldl (λ c i, remove_contribution_unsafe i c) c l) !! i =
    if decide (i ∈ l) then None else contributions c !! i.
Proof.
  revert c. induction l as [|x l IH]; intros c; cbn [foldl].
  - by rewrite decide_False by apply not_elem_of_nil.
  - rewrite IH. cbn [contributions remove_contribution_unsafe set_contributions].
    destruct (decide (i ∈ l)).
    + by rewrite decide_True by (by constructor).
    + destruct (decide (i = x)) as [->|].
      * rewrite lookup_delete_eq. by rewrite decide_True by constructor.
      * rewrite lookup_delete_ne by done. by rewrite decide_False by (rewrite elem_of_cons; naive_solver).
Qed.

Lemma remove_contributions_from_lookup id c i :
  contributions (remove_contributions_from id c) !! i =
    if decide (id ≤ i < contributions_len c)%N then None else contributions c !! i.
Proof.
  unfold remove_contributions_from. rewrite remove_list_lookup.
  apply decide_ext, elem_of_u64_range.
Qed.

Lemma foldl_frame {A B C} (f : A → B → A) (g : A → C) l a :
  (∀ a b, g (f a b) = g a) → g (foldl f a l) = g a.
Proof. intros Hf. revert a. induction l as [|b l IH]; intros a; simpl; [done|]. by rewrite IH. Qed.

Lemma remove_contributions_from_frame id c :
  lock_holder (remove_contributions_from id c) = lock_holder c ∧
  ck_chunk_id (remove_contributions_from id c) = ck_chunk_id c.
Proof. by split; apply foldl_frame. Qed.

Lemma reset_chunk_lookup c i :
  contributions (reset_chunk c) !! i = if (i =? 0)%N then contributions c !! i else None.
Proof.
  unfold reset_chunk. set (c0 := set_lock_holder_unsafe None c).
  assert (∀ l c', contributions (foldl (λ c id, if negb (id =? 0)%N
     then remove_contribution_unsafe id c else c) c' l) !! i =
     if decide (i ∈ l ∧ i ≠ 0%N) then None else contributions c' !! i) as Hfold.
  { induction l as [|x l IH]; intros c'; cbn [foldl].
    - rewrite decide_False; [done|]. by intros [?%not_elem_of_nil _].
    - rewrite IH. destruct (N.eqb_spec x 0) as [->|Hx];
        cbn [negb contributions remove_contribution_unsafe set_contributions].
      + repeat case_decide; set_solver.
      + destruct (decide (i = x)) as [->|].
        * rewrite lookup_delete_eq. repeat case_decide; set_solver.
        * rewrite lookup_delete_ne by done. repeat case_decide; set_solver. }
  rewrite Hfold. change (contributions c0) with (contributions c).
  destruct (N.eqb_spec i 0) as [->|Hi]; [rewrite decide_False; [done | by intros [_ []]]|].
  destruct (contributions c !! i) as [k|] eqn:E; [|by destruct (decide _)].
  rewrite decide_True; [done|]. split; [|done].
  apply list_elem_of_fmap. exists (i, k). split; [done|]. by apply elem_of_map_to_list.
Qed.

Lemma reset_chunk_lock c : lock_holder (reset_chunk c) = None.
Proof.
  unfold reset_chunk. rewrite (foldl_frame _ lock_holder); [done|].
  intros a b. by destruct (negb (b =? 0)%N).
Qed.

(** ** Invariant of a chunk *)

(** A transcript of [n] contributions: numbered [0 .. n - 1], the first one by
    the initial verifier and every other one by a contributor of its own, all
    but the last verified. *)
Record transcript_wf (m : gmap N Contribution) (n : N) : Prop := {
  transcript_contiguous : contiguous m n;
  transcript_nonempty : (0 < n)%N;
  transcript_entries : ∀ i k, m !! i = Some k →
    contribution_wf k ∧ (contributor_id k = None ↔ i = 0%N);
  transcript_verified : ∀ i k, m !! i = Some k → (i + 1 < n)%N → verified k = true;
  transcript_distinct : ∀ i j ki kj p, m !! i = Some ki → m !! j = Some kj →
    contributor_id ki = Some p → contributor_id kj = Some p → i = j;
}.

(** A contributor holds the lock only while it may extend the transcript. *)
Definition lock_wf (holder : option Participant) (m : gmap N Contribution) (n : N) : Prop :=
  ∀ p, holder = Some p → is_contributor p = true →
    (∀ k, m !! (n - 1)%N = Some k → verified k = true) ∧
    (∀ i k, m !! i = Some k → contributor_id k ≠ Some p).

Definition chunk_wf (expected : N) (c : Chunk) : Prop :=
  ∃ n, transcript_wf (contributions c) n ∧ (n ≤ expected)%N ∧
       lock_wf (lock_holder c) (contributions c) n.

Lemma transcript_len c n : transcript_wf (contributions c) n → contributions_len c = n.
Proof. intros Hm. by apply contiguous_size, transcript_contiguous. Qed.

Lemma transcript_current_id c n expected :
  transcript_wf (contributions c) n → (n ≤ expected)%N → (expected < u64_modulus)%N →
  current_contribution_id c = (n - 1)%N.
Proof.
  intros Hm ??. unfold current_contribution_id. rewrite (transcript_len c n Hm).
  pose proof (transcript_nonempty _ _ Hm). apply u64_sub_exact; lia.
Qed.

Lemma transcript_lookup m n i : transcript_wf m n → (i < n)%N → ∃ k, m !! i = Some k.
Proof. intros Hm Hi. by apply (transcript_contiguous _ _ Hm) in Hi as [k ?]; eauto. Qed.

Lemma transcript_lookup_lt m n i k : transcript_wf m n → m !! i = Some k → (i < n)%N.
Proof. intros Hm Hi. apply (transcript_contiguous _ _ Hm). eauto. Qed.

Lemma transcript_restrict m m' n n' :
  transcript_wf m n → (0 < n' ≤ n)%N →
  (∀ i, m' !! i = if (i <? n')%N then m !! i else None) →
  transcript_wf m' n' ∧
  ((n' < n)%N → ∀ i k, m' !! i = Some k → verified k = true) ∧
  (∀ i k, m' !! i = Some k → m !! i = Some k).
Proof.
  intros Hm [Hpos Hle] Hm'.
  assert (∀ i k, m' !! i = Some k → m !! i = Some k ∧ (i < n')%N) as Hin.
  { intros i k. rewrite Hm'. destruct (N.ltb_spec i n'); naive_solver. }
  split; [split|].
  - intros i. rewrite Hm'. destruct (N.ltb_spec i n').
    + pose proof (transcript_contiguous _ _ Hm i) as ->. lia.
    + split; [by intros [] | lia].
  - done.
  - intros i k [? _]%Hin. by eapply transcript_entries.
  - intros i k [? ?]%Hin ?. eapply transcript_verified; [done..|]. lia.
  - intros i j ki kj p [? _]%Hin [? _]%Hin. by eapply transcript_distinct.
  - split; [|naive_solver]. intros ? i k [? ?]%Hin. eapply transcript_verified; [done..|]. lia.
Qed.

Lemma has_contributed_false c p :
  has_contributed c p = false ↔
  ∀ i k, contributions c !! i = Some k → contributor_id k ≠ Some p.
Proof.
  unfold has_contributed. rewrite negb_false_iff, map_is_empty_true, map_empty_filter. done.
Qed.

Lemma chunk_new_wf id v loc sig c :
  chunk_new id v loc sig = Ok c → chunk_wf 1 c ∧ lock_holder c = None ∧ ck_chunk_id c = id.
Proof.
  unfold chunk_new. destruct (is_verifier v); [|done].
  rewrite bind_outcome_ok. intros (k & (? & ? & ?)%new_verifier_contribution_wf & [= <-]).
  split; [|done]. exists 1%N. split; [|split; [done|]].
  - split; simpl.
    + intros i. rewrite lookup_singleton_is_Some. lia.
    + done.
    + intros i k' [<- <-]%lookup_singleton_Some. by split.
    + intros i k' [<- <-]%lookup_singleton_Some. lia.
    + intros i j ki kj p [<- <-]%lookup_singleton_Some [<- <-]%lookup_singleton_Some. congruence.
  - by intros p.
Qed.

Lemma transcript_push m n k p :
  transcript_wf m n → (∀ i k, m !! i = Some k → verified k = true) →
  contribution_wf k → contributor_id k = Some p →
  (∀ i k, m !! i = Some k → contributor_id k ≠ Some p) →
  transcript_wf (<[n := k]> m) (n + 1).
Proof.
  intros Hm Hver Hk Hp Hfresh. pose proof (transcript_nonempty _ _ Hm). split.
  - by apply contiguous_insert, transcript_contiguous.
  - lia.
  - intros i k' [[<- <-]|[? Hi]]%lookup_insert_Some; [|by eapply transcript_entries].
    split; [done|]. rewrite Hp. split; [done | lia].
  - intros i k' [[<- <-]|[? Hi]]%lookup_insert_Some; [lia|]. intros _. by eapply Hver.
  - intros i j ki kj q [[<- <-]|[? Hi]]%lookup_insert_Some [[<- <-]|[? Hj]]%lookup_insert_Some ??.
    + done.
    + simplify_eq. by destruct (Hfresh _ _ Hj).
    + simplify_eq. by destruct (Hfresh _ _ Hi).
    + by eapply transcript_distinct.
Qed.

Lemma transcript_verify_last m n k k' :
  transcript_wf m n → m !! (n - 1)%N = Some k →
  contribution_wf k' → contributor_id k' = contributor_id k →
  transcript_wf (<[(n - 1)%N := k']> m) n.
Proof.
  intros Hm Hk Hk' Hid. pose proof (transcript_nonempty _ _ Hm). split.
  - apply contiguous_update; [by apply transcript_contiguous | lia].
  - done.
  - intros i k0 [[<- <-]|[? Hi]]%lookup_insert_Some; [|by eapply transcript_entries].
    split; [done|]. rewrite Hid. by eapply transcript_entries.
  - intros i k0 [[<- <-]|[? Hi]]%lookup_insert_Some; [lia|]. by eapply transcript_verified.
  - intros i j ki kj q [[<- <-]|[? Hi]]%lookup_insert_Some [[<- <-]|[? Hj]]%lookup_insert_Some;
      rewrite ?Hid; by eapply transcript_distinct.
Qed.

(** ** What a successful call did *)

Lemma acquire_lock_inv p expected c r c' :
  acquire_lock p expected c = (Ok r, c') →
  lock_holder c = None ∧ is_complete c expected = false ∧ c' = set_lock_holder (Some p) c ∧
  (is_contributor p = true → has_contributed c p = false ∧
     ∃ k, current_contribution c = Ok k ∧ verified k = true).
Proof.
  unfold acquire_lock. rewrite !check_ok. intros (Hl & Hc & Ha).
  assert (is_locked_by c p = false) as Hby.
  { unfold is_locked_by, is_unlocked. by rewrite Hl. }
  apply is_some_false in Hl. rewrite Hby in Ha.
  unfold is_verifier in Ha. destruct (is_contributor p); simpl in Ha.
  - destruct (has_contributed c p); [done|].
    destruct (current_contribution c) as [k| |] eqn:Ek; simpl in Ha; try done.
    destruct (verified k) eqn:Ev; simpl in Ha; [|done]. simplify_eq. naive_solver.
  - destruct (current_contribution c) as [k| |]; simpl in Ha; try done.
    destruct (verified k); simpl in Ha; [done|]. by simplify_eq.
Qed.

Lemma add_contribution_inv id p loc sig c r c' :
  add_contribution id p loc sig c = (Ok r, c') →
  lock_holder c = Some p ∧ is_contributor p = true ∧
  c' = MkChunk (ck_chunk_id c) None
         (<[id := MkContribution (Some p) (Some loc) (Some sig) None None None false]> (contributions c)).
Proof.
  unfold add_contribution. rewrite !check_ok. intros (Hp & Hl & Ha).
  apply negb_false_iff in Hp, Hl. unfold new_contributor_contribution in Ha. rewrite Hp in Ha.
  unfold is_locked_by in Hl. destruct (is_unlocked c); [done|].
  destruct (lock_holder c) as [h|]; [|done]. apply bool_decide_eq_true in Hl as ->.
  by injection Ha as <- <-.
Qed.

Lemma verify_contribution_inv id v loc sig c r c' :
  verify_contribution id v loc sig c = (Ok r, c') →
  is_verifier v = true ∧ ∃ k, contributions c !! id = Some k ∧ verified k = false ∧
    verifier_id k = None ∧
    c' = MkChunk (ck_chunk_id c) None
      (<[id := MkContribution (contributor_id k) (contributed_locator k)
         (contributed_signature_locator k) (Some v) (Some loc) (Some sig) true]> (contributions c)).
Proof.
  unfold verify_contribution. rewrite check_ok. intros [Hv Hc].
  apply negb_false_iff in Hv. split; [done|].
  destruct (contributions c !! id) as [k|] eqn:Ek; [|done]. exists k.
  rewrite bind_ok in Hc. destruct Hc as ([] & c1 & H1 & Hc).
  unfold zoom in H1. rewrite Ek in H1. simpl in H1.
  destruct (assign_verifier v loc sig k) as [[[]|e|] k1] eqn:Ea; try done.
  apply assign_verifier_inv in Ea as (Hver & _ & Hid & ->). simplify_eq.
  rewrite bind_ok in Hc. destruct Hc as ([] & c2 & H2 & Hc).
  unfold zoom, check in H2. simpl in H2. rewrite lookup_insert_eq in H2. simpl in H2.
  rewrite Hver in H2. simpl in H2. simplify_eq.
  unfold set_contributions in Hc; simpl in Hc. rewrite insert_insert_eq in Hc.
  rewrite bind_ok in Hc. destruct Hc as ([] & c3 & H3 & Hc).
  unfold zoom, set_verified, check in H3. simpl in H3. rewrite lookup_insert_eq in H3. simpl in H3.
  rewrite Hv, bool_decide_eq_true_2 in H3 by done. simpl in H3. simplify_eq.
  unfold set_contributions in Hc; simpl in Hc. rewrite insert_insert_eq in Hc.
  injection Hc as <- <-. by rewrite Hver.
Qed.

Lemma next_contribution_id_inv c expected id n :
  transcript_wf (contributions c) n → (n ≤ expected)%N → (expected < u64_modulus)%N →
  next_contribution_id c expected = Ok id →
  id = n ∧ (n < expected)%N ∧ ∃ k, contributions c !! (n - 1)%N = Some k ∧ verified k = true.
Proof.
  intros Hm Hle Hexp. unfold next_contribution_id, current_contribution, get_contribution.
  rewrite (transcript_current_id c n expected) by done.
  destruct (transcript_lookup _ n (n - 1) Hm) as [k Hk].
  { pose proof (transcript_nonempty _ _ Hm). lia. }
  rewrite Hk. simpl. destruct (verified k) eqn:Hv; [|done]. simpl.
  unfold only_contributions_complete. rewrite (transcript_len c n Hm).
  destruct (N.eqb_spec n expected); [done|]. intros [= <-].
  pose proof (transcript_nonempty _ _ Hm). rewrite u64_add_exact by lia.
  split; [lia|]. split; [lia|]. eauto.
Qed.

Lemma transcript_all_verified m n :
  transcript_wf m n → (∃ k, m !! (n - 1)%N = Some k ∧ verified k = true) →
  ∀ i k, m !! i = Some k → verified k = true.
Proof.
  intros Hm (kl & Hl & Hv) i k Hi. pose proof (transcript_lookup_lt _ _ _ _ Hm Hi).
  destruct (decide (i = n - 1)%N) as [->|]; [congruence|].
  eapply transcript_verified; [done..|]. lia.
Qed.

(** ** The protocol of a chunk

    The calls the coordinator makes on a chunk of a round that expects
    [expected] contributions, in the way it makes them: a contribution goes in
    under [next_contribution_id], a verification under
    [current_contribution_id]; drops cut the transcript after some
    contribution and release locks; resets return to contribution 0. *)

Inductive chunk_step (expected : N) : Chunk → Chunk → Prop :=
| step_acquire p c c' :
    acquire_lock p expected c = (Ok tt, c') → chunk_step expected c c'
| step_contribute id p loc sig c c' :
    next_contribution_id c expected = Ok id →
    add_contribution id p loc sig c = (Ok tt, c') → chunk_step expected c c'
| step_verify v loc sig c c' :
    verify_contribution (current_contribution_id c) v loc sig c = (Ok tt, c') →
    chunk_step expected c c'
| step_unlock c :
    chunk_step expected c (set_lock_holder_unsafe None c)
| step_drop id c :
    (1 ≤ id)%N → chunk_step expected c (remove_contributions_from id c)
| step_reset c :
    chunk_step expected c (reset_chunk c).

Section chunk_protocol.
Context (expected : N) (Hexp : (expected < u64_modulus)%N).

Lemma acquire_wf p c c' :
  chunk_wf expected c → acquire_lock p expected c = (Ok tt, c') → chunk_wf expected c'.
Proof.
  intros (n & Hm & Hle & Hl) (Hnone & Hcomp & -> & Hc)%acquire_lock_inv.
  exists n. split; [done|]. split; [done|]. intros q [= <-] Hq.
  destruct (Hc Hq) as (Hfresh & k & Hk & Hv). split; [|by apply has_contributed_false].
  unfold current_contribution, get_contribution in Hk.
  rewrite (transcript_current_id c n expected) in Hk by done. simpl. intros k' Hk'.
  rewrite Hk' in Hk. by simplify_eq.
Qed.

Lemma contribute_wf id p loc sig c c' :
  chunk_wf expected c → next_contribution_id c expected = Ok id →
  add_contribution id p loc sig c = (Ok tt, c') → chunk_wf expected c'.
Proof.
  intros (n & Hm & Hle & Hl) Hnext (Hlock & Hp & ->)%add_contribution_inv.
  destruct (next_contribution_id_inv c expected id n) as (-> & Hlt & Hlast); [done..|].
  exists (n + 1)%N. split; [|split; [lia | by intros q]]. simpl.
  apply (transcript_push _ _ _ p); [done | by eapply transcript_all_verified | by constructor | done|].
  by apply Hl.
Qed.

Lemma verify_wf v loc sig c c' :
  chunk_wf expected c →
  verify_contribution (current_contribution_id c) v loc sig c = (Ok tt, c') → chunk_wf expected c'.
Proof.
  intros (n & Hm & Hle & Hl) (Hv & k & Hk & Hver & Hid & ->)%verify_contribution_inv.
  rewrite (transcript_current_id c n expected) in * by done.
  exists n. split; [|split; [done | by intros q]]. simpl.
  eapply transcript_verify_last; [done..| |done].
  pose proof (proj1 (transcript_entries _ _ Hm _ _ Hk)) as Hwf.
  inversion Hwf; subst; simpl in *; try done. by constructor.
Qed.

(** Cutting a transcript leaves a verified one. *)
Lemma cut_wf c c' n' :
  chunk_wf expected c → (0 < n')%N →
  (∀ i, contributions c' !! i = if (i <? n')%N then contributions c !! i else None) →
  lock_holder c' = lock_holder c ∨ lock_holder c' = None → chunk_wf expected c'.
Proof.
  intros (n & Hm & Hle & Hl) Hn' Hc' Hlock.
  pose proof (transcript_nonempty _ _ Hm).
  destruct (transcript_restrict _ (contributions c') n (N.min n' n) Hm) as (Hm' & Hver & Hin); [lia|..].
  { intros i. rewrite Hc'. destruct (N.ltb_spec i n'), (N.ltb_spec i (N.min n' n)); try lia; try done.
    destruct (contributions c !! i) eqn:E; [|done]. apply (transcript_lookup_lt _ _ _ _ Hm) in E. lia. }
  exists (N.min n' n). split; [done|]. split; [lia|].
  intros p Hp Hcon. destruct Hlock as [Hlock|Hlock]; rewrite Hlock in Hp; [|done].
  destruct (Hl p Hp Hcon) as [Hlast Hfresh]. split.
  - intros k Hk. destruct (decide (n ≤ n')%N) as [?|?]; [|by eapply Hver; [lia|]].
    apply Hlast. replace (N.min n' n) with n in Hk by lia. by apply Hin.
  - intros i k Hi. by eapply Hfresh, Hin.
Qed.

Lemma chunk_step_wf c c' : chunk_wf expected c → chunk_step expected c c' → chunk_wf expected c'.
Proof.
  intros Hc Hstep. destruct Hstep as [p c c' H|id p loc sig c c' Hn H|v loc sig c c' H|c|id c Hid|c].
  - by eapply acquire_wf.
  - by eapply contribute_wf.
  - by eapply verify_wf.
  - destruct Hc as (n & Hm & Hle & Hl). exists n. split; [done|]. split; [done|]. by intros p.
  - destruct (remove_contributions_from_frame id c) as [Hl _].
    apply (cut_wf c _ id); [done | lia | | by left]. intros i.
    rewrite remove_contributions_from_lookup. destruct (N.ltb_spec i id).
    + by rewrite decide_False by lia.
    + case_decide; [done|]. destruct Hc as (n & Hm & Hle & _).
      destruct (contributions c !! i) eqn:E; [|done].
      apply (transcript_lookup_lt _ _ _ _ Hm) in E. rewrite (transcript_len c n Hm) in *. lia.
  - apply (cut_wf c _ 1); [done | lia | | right; apply reset_chunk_lock].
    intros i. rewrite reset_chunk_lookup. destruct (N.eqb_spec i 0), (N.ltb_spec i 1); lia || done.
Qed.

Lemma chunk_reachable_wf c c' :
  chunk_wf expected c → rtc (chunk_step expected) c c' → chunk_wf expected c'.
Proof. intros Hc Hr. induction Hr; eauto using chunk_step_wf. Qed.
End chunk_protocol.

Lemma chunk_wf_weaken e e' c : (e ≤ e')%N → chunk_wf e c → chunk_wf e' c.
Proof. intros ? (n & ? & ? & ?). exists n. split; [done|]. split; [lia | done]. Qed.

Lemma number_verified_all c :
  number_verified c = contributions_len c ↔
  ∀ i k, contributions c !! i = Some k → verified k = true.
Proof.
  unfold number_verified, contributions_len. split.
  - intros Hs%Nat2N.inj i k Hk.
    assert (filter (λ kc, verified kc.2 = true) (contributions c) = contributions c) as Hf.
    { apply map_subseteq_size_eq; [apply map_filter_subseteq | lia]. }
    rewrite <-Hf in Hk. by apply map_lookup_filter_Some in Hk as [_ ?].
  - intros Hall. do 2 f_equal. apply map_filter_id. intros i k Hk. by eapply Hall.
Qed.

Lemma is_complete_wf c expected n :
  transcript_wf (contributions c) n →
  is_complete c expected = true ↔
    lock_holder c = None ∧ n = expected ∧ ∀ i k, contributions c !! i = Some k → verified k = true.
Proof.
  intros Hm. unfold is_complete, is_locked, only_contributions_complete.
  rewrite <-number_verified_all, (transcript_len c n Hm).
  destruct (lock_holder c); simpl; [naive_solver|].
  rewrite andb_true_iff, !N.eqb_eq. naive_solver.
Qed.

Definition contributor_at (c : Chunk) (i : N) : Participant :=
  default (Contributor "") (contributions c !! i ≫= contributor_id).

(** ** Properties *)

(** C36. Whatever sequence of locks, contributions, verifications, drops and
    resets the coordinator applies to a fresh chunk, its transcript stays
    numbered without gaps, only its last entry may be unverified, no
    contributor appears in it twice, and a contributor holds the lock only
    when it may extend the transcript. *)
Theorem chunk_protocol_invariant id v loc sig expected c c' :
  (1 ≤ expected < u64_modulus)%N →
  chunk_new id v loc sig = Ok c → rtc (chunk_step expected) c c' → chunk_wf expected c'.
Proof.
  intros [Hone Hexp] (Hc & _)%chunk_new_wf Hr.
  eapply chunk_reachable_wf; [done| |done]. by eapply chunk_wf_weaken.
Qed.

Definition chunk_v : Chunk :=
  MkChunk 7 None {[0%N := MkContribution None None None (Some (Verifier "v")) (Some "c") (Some "s") true]}.

Lemma chunk_protocol_invariant_witness :
  chunk_wf 2 (set_lock_holder (Some (Contributor "p")) chunk_v).
Proof.
  apply (chunk_protocol_invariant 7 (Verifier "v") "c" "s" 2 chunk_v); [split; done | reflexivity |].
  apply rtc_once, (step_acquire 2 (Contributor "p")). vm_compute. reflexivity.
Defined.

(** A chunk that the protocol brought to completion holds the expected
    number of verified contributions, and they come from pairwise distinct
    contributors. *)
Theorem completed_chunk_contributors id v loc sig expected c c' :
  (1 ≤ expected < u64_modulus)%N →
  chunk_new id v loc sig = Ok c → rtc (chunk_step expected) c c' →
  is_complete c' expected = true →
  let contributors := contributor_at c' <$> u64_range 1 expected in
  NoDup contributors ∧ length contributors = N.to_nat (expected - 1) ∧
  ∀ i, (1 ≤ i < expected)%N →
    ∃ k, contributions c' !! i = Some k ∧ verified k = true ∧
         contributor_id k = Some (contributor_at c' i) ∧ is_contributor (contributor_at c' i) = true.
Proof.
  intros [Hone Hexp] (Hc & _)%chunk_new_wf Hr Hdone contributors.
  assert (chunk_wf expected c') as (n & Hm & Hle & _).
  { eapply chunk_reachable_wf; [done| |done]. by eapply chunk_wf_weaken. }
  apply (is_complete_wf _ _ _ Hm) in Hdone as (_ & -> & Hver).
  assert (∀ i, (1 ≤ i < expected)%N → ∃ k, contributions c' !! i = Some k ∧ verified k = true ∧
    contributor_id k = Some (contributor_at c' i) ∧ is_contributor (contributor_at c' i) = true) as Hat.
  { intros i Hi. destruct (transcript_lookup _ _ i Hm ltac:(lia)) as [k Hk].
    exists k. split; [done|]. split; [by eapply Hver|]. unfold contributor_at. rewrite Hk. simpl.
    destruct (transcript_entries _ _ Hm _ _ Hk) as [Hwf Hid].
    inversion Hwf; subst; simpl in *; try done. destruct Hid as [Hid _]. specialize (Hid eq_refl). lia. }
  split; [|split; [|done]].
  - apply NoDup_fmap_2_strong; [|apply u64_range_NoDup].
    intros i j Hi%elem_of_u64_range Hj%elem_of_u64_range Heq.
    destruct (Hat i Hi) as (ki & Hki & _ & Hpi & _), (Hat j Hj) as (kj & Hkj & _ & Hpj & _).
    rewrite Heq in Hpi. by eapply transcript_distinct.
  - unfold contributors. by rewrite length_fmap, u64_range_length.
Qed.

Definition chunk_locked : Chunk := set_lock_holder (Some (Contributor "p")) chunk_v.
Definition chunk_contributed : Chunk :=
  (add_contribution 1 (Contributor "p") "c1" "s1" chunk_locked).2.
Definition chunk_verified : Chunk :=
  (verify_contribution 1 (Verifier "v") "c2" "s2" chunk_contributed).2.

Lemma completed_chunk_contributors_witness :
  NoDup (contributor_at chunk_verified <$> u64_range 1 2).
Proof.
  apply (completed_chunk_contributors 7 (Verifier "v") "c" "s" 2 chunk_v chunk_verified).
  - split; done.
  - reflexivity.
  - eapply rtc_l; [apply (step_acquire 2 (Contributor "p")); vm_compute; reflexivity|].
    eapply rtc_l; [eapply (step_contribute 2 1 (Contributor "p") "c1" "s1"); vm_compute; reflexivity|].
    eapply rtc_l; [eapply (step_verify 2 (Verifier "v") "c2" "s2"); vm_compute; reflexivity|].
    apply rtc_refl.
  - vm_compute. reflexivity.
Defined.

Lemma acquire_lock_succeeds p expected c k :
  lock_holder c = None → is_complete c expected = false → is_contributor p = true →
  has_contributed c p = false → current_contribution c = Ok k → verified k = true →
  acquire_lock p expected c = (Ok tt, set_lock_holder (Some p) c).
Proof.
  intros Hl Hc Hp Hf Hk Hv. unfold acquire_lock, check, is_locked.
  rewrite Hl, Hc, Hp, Hf, Hk. simpl. rewrite Hv. simpl. rewrite andb_false_r.
  unfold is_verifier. by rewrite Hp.
Qed.

Lemma verify_contribution_succeeds v loc sig c id k :
  contributions c !! id = Some k → contribution_wf k → verified k = false → is_verifier v = true →
  ∃ c', verify_contribution id v loc sig c = (Ok tt, c').
Proof.
  intros Hk Hwf Hver Hv. destruct (verify_pending k v loc sig) as (k1 & k2 & H1 & Hv1 & H2 & _); [done..|].
  unfold verify_contribution, check. rewrite Hv, Hk. simpl.
  unfold bind, zoom, check. simpl. rewrite Hk. simpl. rewrite H1. simpl.
  rewrite lookup_insert_eq. simpl. rewrite Hv1. simpl.
  rewrite lookup_insert_eq. simpl. rewrite H2. simpl. by eexists.
Qed.

(** A chunk never gets stuck: when it is unlocked and not complete, either
    its last contribution waits for verification and any verifier's call
    succeeds, or any contributor new to the chunk can take the lock, is given
    the next id, and its contribution is accepted. *)
Lemma chunk_progress expected c :
  (expected < u64_modulus)%N → chunk_wf expected c →
  lock_holder c = None → is_complete c expected = false →
  (∀ v loc sig, is_verifier v = true →
     ∃ c', verify_contribution (current_contribution_id c) v loc sig c = (Ok tt, c')) ∨
  (∀ p loc sig, is_contributor p = true → has_contributed c p = false →
     ∃ c1 c2, acquire_lock p expected c = (Ok tt, c1) ∧
       next_contribution_id c1 expected = Ok (contributions_len c) ∧
       add_contribution (contributions_len c) p loc sig c1 = (Ok tt, c2) ∧
       contributions_len c2 = (contributions_len c + 1)%N).
Proof.
  intros Hexp (n & Hm & Hle & Hl) Hnone Hcomp.
  pose proof (transcript_nonempty _ _ Hm). pose proof (transcript_len c n Hm) as Hlen.
  destruct (transcript_lookup _ n (n - 1) Hm) as [k Hk]; [lia|].
  pose proof (transcript_current_id c n expected Hm Hle Hexp) as Hid.
  destruct (verified k) eqn:Hv.
  - right. intros p loc sig Hp Hf.
    pose proof (transcript_all_verified _ _ Hm ltac:(eauto)) as Hall.
    assert (n ≠ expected) as Hne.
    { intros ->. assert (is_complete c expected = true) as Ht; [|congruence].
      by apply (is_complete_wf _ _ _ Hm). }
    eexists _, _. split; [|split; [|split]].
    + apply (acquire_lock_succeeds _ _ _ k); try done.
      unfold current_contribution, get_contribution. by rewrite Hid, Hk.
    + unfold next_contribution_id, current_contribution, get_contribution, only_contributions_complete.
      change (current_contribution_id (set_lock_holder (Some p) c)) with (current_contribution_id c).
      change (contributions_len (set_lock_holder (Some p) c)) with (contributions_len c).
      simpl. rewrite Hid, Hk, Hlen. simpl. rewrite Hv. simpl.
      rewrite (proj2 (N.eqb_neq _ _)) by done. simpl. rewrite u64_add_exact by lia. f_equal. lia.
    + unfold add_contribution, check, is_locked_by, is_unlocked, is_locked, bind, lift,
        new_contributor_contribution. simpl. rewrite Hp, bool_decide_eq_true_2 by done. reflexivity.
    + apply contiguous_size. simpl. rewrite Hlen. by apply contiguous_insert, transcript_contiguous.
  - left. intros v loc sig Hver. rewrite Hid.
    eapply verify_contribution_succeeds; [done| |done..]. by eapply transcript_entries.
Qed.

(** The lock is exclusive and not re-entrant: while somebody holds it,
    every attempt to acquire it fails and changes nothing, also the holder's
    own.  The reconnection case described inside [acquire_lock] (the current
    lock holder is let through) can therefore never be taken. *)
Lemma acquire_lock_exclusive p expected c :
  is_locked c = true → acquire_lock p expected c = (Err ChunkLockAlreadyAcquired, c).
Proof. intros Hl. unfold acquire_lock, check. by rewrite Hl. Qed.
