(* ===== verification/Round.v ===== *)
(** * Rounds

    [phase1-coordinator/src/objects/round.rs]: the participants and the chunks
    of one round, without the operations that touch the storage (those are in
    [RoundStorage]). *)

From S2P Require Import Prelude Text Task Participant Errors Environment Contribution Locator Chunk.

(** Instants are nanoseconds. *)
Record Round := MkRound {
  rd_version : N;
  rd_height : N;
  rd_started_at : option Z;
  rd_finished_at : option Z;
  contributor_ids : list Participant;
  verifier_ids : list Participant;
  chunks : list Chunk;
}.

Definition rd_set_finished_at (t : option Z) (r : Round) : Round :=
  MkRound (rd_version r) (rd_height r) (rd_started_at r) t (contributor_ids r) (verifier_ids r) (chunks r).
Definition set_contributor_ids (ps : list Participant) (r : Round) : Round :=
  MkRound (rd_version r) (rd_height r) (rd_started_at r) (rd_finished_at r) ps (verifier_ids r) (chunks r).
Definition set_verifier_ids (ps : list Participant) (r : Round) : Round :=
  MkRound (rd_version r) (rd_height r) (rd_started_at r) (rd_finished_at r) (contributor_ids r) ps (chunks r).
Definition set_chunks (cs : list Chunk) (r : Round) : Round :=
  MkRound (rd_version r) (rd_height r) (rd_started_at r) (rd_finished_at r) (contributor_ids r) (verifier_ids r) cs.

Definition has_unique_elements (ps : list Participant) : bool := bool_decide (NoDup ps).

(** ** Creation *)

Definition initial_chunk (base : string) (height : N) (verifier : Participant) (chunk_id : N)
    : outcome CoordinatorError Chunk :=
  chunk_new chunk_id verifier
    (to_path base (LContributionFile (MkContributionLocator height chunk_id 0 true)))
    (to_path base (LContributionFileSignature (MkContributionSignatureLocator height chunk_id 0 true))).

(** [Round::new]; the storage only resolves paths below its base directory. *)
Definition round_new (env : Environment) (base : string) (height : N) (started : Z)
    (contributors : list Participant) : outcome CoordinatorError Round :=
  if (number_of_chunks env =? 0)%N then Err NumberOfChunksInvalid else
  try! verifier := ok_or (head (coordinator_verifiers env)) VerifierMissing in
  if negb (has_unique_elements contributors) then Err RoundContributorsNotUnique
  else if negb (forallb is_contributor contributors) then Err ExpectedContributor
  else if negb (height =? 0)%N && is_nil contributors then Err RoundContributorsMissing
  else
    try! cs := collect (initial_chunk base height verifier <$> u64_range 0 (number_of_chunks env)) in
    Ok (MkRound (software_version env) height (Some started) None contributors [] cs).

(** ** Queries *)

Definition round_number_of_contributors (r : Round) : N := N.of_nat (length (contributor_ids r)).

Definition round_is_contributor (r : Round) (p : Participant) : bool :=
  match p with
  | Contributor _ => contains (contributor_ids r) p
  | Verifier _ => false
  end.

(** The chunk at the index, whose own identity must agree. *)
Definition round_chunk (r : Round) (id : N) : outcome CoordinatorError Chunk :=
  match chunks r !! N.to_nat id with
  | None => Err ChunkMissing
  | Some c => if (ck_chunk_id c =? id)%N then Ok c else Err ChunkIdMismatch
  end.

Definition expected_number_of_contributions (r : Round) : N := u64_add (round_number_of_contributors r) 1.

Definition is_chunk_locked_by (r : Round) (id : N) (p : Participant) : bool :=
  match round_chunk r id with Ok c => is_locked_by c p | _ => false end.

Definition number_of_locks_held (r : Round) (p : Participant) : outcome CoordinatorError nat :=
  match p with
  | Contributor _ =>
      if negb (round_is_contributor r p) then Err UnauthorizedChunkContributor
      else Ok (length (filter (λ c, is_locked_by c p = true) (chunks r)))
  | Verifier _ => Err ExpectedContributor
  end.

Definition round_is_complete (r : Round) : bool :=
  if (0 <? length (filter (λ c, is_locked c = true) (chunks r)))%nat then false
  else forallb (λ c, is_complete c (expected_number_of_contributions r)) (chunks r).

(** ** Updates *)

(** [self.chunk_mut(id)?] followed by a method of the chunk. *)
Definition with_chunk {A} (id : N) (m : M CoordinatorError Chunk A) : M CoordinatorError Round A := λ r,
  match round_chunk r id with
  | Ok c => let '(o, c') := m c in (o, set_chunks (<[N.to_nat id := c']> (chunks r)) r)
  | Err e => (Err e, r)
  | Panic => (Panic, r)
  end.

Definition try_finish (now : Z) (r : Round) : Round :=
  if round_is_complete r && is_none (rd_finished_at r) then rd_set_finished_at (Some now) r else r.

Definition round_verify_contribution (chunk_id contribution_id : N) (p : Participant)
    (loc sig : LocatorPath) (now : Z) : M CoordinatorError Round unit :=
  with_chunk chunk_id (verify_contribution contribution_id p loc sig) ;;;
  modify (try_finish now).

Definition round_add_replacement (p : Participant) : M CoordinatorError Round unit :=
  bail_if (λ _, negb (is_contributor p)) with ExpectedContributor ;;;
  modify (λ r, set_contributor_ids (contributor_ids r ++ [p]) r).

(** [Round::reset]: the round the returned storage action writes. *)
Definition round_reset (remove : list Participant) (r : Round) : Round :=
  let r := set_chunks (reset_chunk <$> chunks r) r in
  let r := set_contributor_ids (filter (λ p, contains remove p = false) (contributor_ids r)) r in
  set_verifier_ids (filter (λ p, contains remove p = false) (verifier_ids r)) r.

(** ** Well-formed rounds *)

(** Chunk [i] of [n] has identity [i] and follows the chunk protocol. *)
Record round_wf (n : nat) (r : Round) : Prop := {
  round_chunks_len : length (chunks r) = n;
  round_chunk_ids : ∀ i c, chunks r !! i = Some c → ck_chunk_id c = N.of_nat i;
  round_chunks_wf : ∀ i c, chunks r !! i = Some c → chunk_wf (expected_number_of_contributions r) c;
  round_contributors_unique : NoDup (contributor_ids r);
  round_contributors_contribute : Forall (λ p, is_contributor p = true) (contributor_ids r);
}.

Lemma round_chunk_lookup n r id c :
  round_wf n r → round_chunk r id = Ok c ↔ chunks r !! N.to_nat id = Some c.
Proof.
  intros Hr. unfold round_chunk. destruct (chunks r !! N.to_nat id) as [c'|] eqn:E; [|done].
  pose proof (round_chunk_ids _ _ Hr _ _ E) as Hid. rewrite N2Nat.id in Hid.
  rewrite Hid, N.eqb_refl. naive_solver.
Qed.

Lemma round_chunk_total n r id :
  round_wf n r → (id < N.of_nat n)%N → ∃ c, round_chunk r id = Ok c.
Proof.
  intros Hr Hid. destruct (lookup_lt_is_Some_2 (chunks r) (N.to_nat id)) as [c Hc].
  { rewrite (round_chunks_len _ _ Hr). lia. }
  exists c. by apply (round_chunk_lookup n).
Qed.

Lemma with_chunk_ok {A} id (m : M CoordinatorError Chunk A) r c :
  round_chunk r id = Ok c →
  with_chunk id m r = ((m c).1, set_chunks (<[N.to_nat id := (m c).2]> (chunks r)) r).
Proof. intros Hc. unfold with_chunk. rewrite Hc. by destruct (m c). Qed.

(** A chunk update that keeps the identity and the protocol keeps the round. *)
Lemma round_wf_update n r id c c' :
  round_wf n r → round_chunk r id = Ok c → ck_chunk_id c' = ck_chunk_id c →
  chunk_wf (expected_number_of_contributions r) c' →
  round_wf n (set_chunks (<[N.to_nat id := c']> (chunks r)) r).
Proof.
  intros Hr Hc%(round_chunk_lookup n) Hid Hwf; [|done].
  destruct Hr as [Hlen Hids Hcs Hu Hp]. split; simpl; try done.
  - by rewrite length_insert.
  - intros i d Hd. apply list_lookup_insert_Some in Hd as [(<- & -> & _)|[_ Hd]]; [|eauto].
    rewrite Hid. eauto.
  - intros i d Hd. apply list_lookup_insert_Some in Hd as [(<- & -> & _)|[_ Hd]]; [done|].
    by apply (Hcs i).
Qed.

Lemma with_chunk_wf {A} n id (m : M CoordinatorError Chunk A) r :
  round_wf n r →
  (∀ c, round_chunk r id = Ok c → ck_chunk_id (m c).2 = ck_chunk_id c ∧
        chunk_wf (expected_number_of_contributions r) (m c).2) →
  round_wf n (with_chunk id m r).2.
Proof.
  intros Hr Hm. destruct (round_chunk r id) as [c|e|] eqn:Hc; unfold with_chunk; rewrite Hc; try done.
  destruct (m c) as [o c'] eqn:E. simpl. destruct (Hm c eq_refl) as [? ?]. rewrite E in *.
  by eapply round_wf_update.
Qed.
