(* ===== verification/Board.v ===== *)
(** * The board: what a round promises

    An abstract specification of a round.  Each chunk is a cell: who may write
    to it, who has contributed so far, and whether the last contribution waits
    for a verifier.  The chunks of a round implement the cells; [Refinement]
    shows that the coordinator's calls do nothing to the round that the board
    does not allow. *)

From S2P Require Import Prelude Task Participant Errors Contribution Locator Chunk Round.

Record Cell := MkCell {
  holder : option Participant;
  authors : list Participant;
  awaiting : bool;
}.

Notation Board := (list Cell).

Inductive BoardEvent :=
| Locked (chunk : nat) (p : Participant)
| Contributed (chunk : nat) (p : Participant)
| Verified (chunk : nat)
| Released (chunk : nat).

(** A cell is locked by a member that has not contributed to it yet, while
    nothing waits for a verifier and a contribution is missing; its holder
    appends itself to the authors, which takes the lock away and makes a
    verifier the next to move. *)
Inductive board_step (members : list Participant) : BoardEvent → Board → Board → Prop :=
| board_lock b c p au :
    b !! c = Some (MkCell None au false) →
    p ∈ members → p ∉ au → length au < length members →
    board_step members (Locked c p) b (<[c := MkCell (Some p) au false]> b)
| board_contribute b c p au :
    b !! c = Some (MkCell (Some p) au false) →
    board_step members (Contributed c p) b (<[c := MkCell None (au ++ [p]) true]> b)
| board_verify b c au :
    b !! c = Some (MkCell None au true) →
    board_step members (Verified c) b (<[c := MkCell None au false]> b)
| board_release b c ho au w :
    b !! c = Some (MkCell ho au w) →
    board_step members (Released c) b (<[c := MkCell None au w]> b).

Definition board_moves (members : list Participant) : Board → Board → Prop :=
  rtc (λ b b', ∃ e, board_step members e b b').

(** ** The cell of a chunk *)

Definition cell_of (c : Chunk) : Cell := {|
  holder := lock_holder c;
  authors := contributor_at c <$> u64_range 1 (contributions_len c);
  awaiting := match current_contribution c with Ok k => negb (verified k) | _ => false end;
|}.

Definition board (r : Round) : Board := cell_of <$> chunks r.

Section cells.
Context (expected : N) (Hexp : (expected < u64_modulus)%N).

Lemma current_contribution_wf c n k :
  transcript_wf (contributions c) n → (n ≤ expected)%N →
  current_contribution c = Ok k ↔ contributions c !! (n - 1)%N = Some k.
Proof using Hexp.
  intros Hm Hle. unfold current_contribution, get_contribution.
  rewrite (transcript_current_id c n expected) by done. case_match; naive_solver.
Qed.

Lemma elem_of_authors c n i k p :
  transcript_wf (contributions c) n → contributions c !! i = Some k → contributor_id k = Some p →
  p ∈ authors (cell_of c).
Proof.
  intros Hm Hi Hp. apply list_elem_of_fmap. exists i. unfold contributor_at. rewrite Hi. simpl. rewrite Hp.
  split; [done|]. apply elem_of_u64_range. rewrite (transcript_len c n Hm).
  split; [|by eapply transcript_lookup_lt].
  destruct (decide (i = 0)%N) as [->|]; [|lia].
  apply (transcript_entries _ _ Hm) in Hi as [_ [_ H0]]. rewrite H0 in Hp by done. done.
Qed.

Lemma authors_length c n :
  transcript_wf (contributions c) n → length (authors (cell_of c)) = N.to_nat (n - 1).
Proof. intros Hm. simpl. by rewrite length_fmap, u64_range_length, (transcript_len c n Hm). Qed.

(** Two chunks with the same entries up to the verifier have the same authors. *)
Lemma authors_ext c c' :
  contributions_len c' = contributions_len c →
  (∀ i, (i < contributions_len c)%N → contributor_at c' i = contributor_at c i) →
  authors (cell_of c') = authors (cell_of c).
Proof.
  intros Hl Hc. simpl. rewrite Hl. apply list_fmap_ext. intros i x Hx.
  apply list_elem_of_lookup_2, elem_of_u64_range in Hx. apply Hc. lia.
Qed.

Lemma acquire_cell p c c' :
  chunk_wf expected c → is_contributor p = true → acquire_lock p expected c = (Ok tt, c') →
  ∃ au, cell_of c = MkCell None au false ∧ cell_of c' = MkCell (Some p) au false ∧
    p ∉ au ∧ length au < N.to_nat (expected - 1).
Proof using Hexp.
  intros (n & Hm & Hle & Hl) Hp (Hnone & Hcomp & -> & Hc)%acquire_lock_inv.
  destruct (Hc Hp) as (Hfresh & k & Hk & Hv). exists (authors (cell_of c)).
  assert (∀ x, awaiting (cell_of (set_lock_holder x c)) = false) as Hw.
  { intros x. cbn [awaiting cell_of]. change (current_contribution (set_lock_holder x c)) with (current_contribution c).
    by rewrite Hk, Hv. }
  split; [|split; [|split]].
  - unfold cell_of in *. cbn in *. by rewrite Hnone, Hk, Hv.
  - unfold cell_of in *. cbn in *.
    change (current_contribution (set_lock_holder (Some p) c)) with (current_contribution c).
    by rewrite Hk, Hv.
  - rewrite has_contributed_false in Hfresh. intros (i & Hi & Hr%elem_of_u64_range)%list_elem_of_fmap.
    rewrite (transcript_len c n Hm) in Hr. destruct (transcript_lookup _ n i Hm) as [ki Hki]; [lia|].
    apply (Hfresh i ki Hki). unfold contributor_at in Hi. rewrite Hki in Hi. simpl in Hi.
    destruct (transcript_entries _ _ Hm _ _ Hki) as [Hwf H0].
    destruct (contributor_id ki) eqn:E; [by subst|]. assert (i = 0%N) by (by apply H0). lia.
  - rewrite (authors_length c n Hm). pose proof (transcript_nonempty _ _ Hm).
    assert (n ≠ expected); [|lia]. intros ->.
    assert (is_complete c expected = true) as Ht; [|congruence].
    apply (is_complete_wf _ _ _ Hm). split_and!; [done..|].
    eapply transcript_all_verified; [done|]. exists k. split; [|done]. by apply (current_contribution_wf c expected).
Qed.

Lemma contribute_cell id p loc sig c c' :
  chunk_wf expected c → next_contribution_id c expected = Ok id →
  add_contribution id p loc sig c = (Ok tt, c') →
  ∃ au, cell_of c = MkCell (Some p) au false ∧ cell_of c' = MkCell None (au ++ [p]) true.
Proof using Hexp.
  intros Hwf Hn Ha. assert (chunk_wf expected c') as (n' & Hm' & Hle' & _) by by eapply contribute_wf.
  destruct Hwf as (n & Hm & Hle & Hl). apply add_contribution_inv in Ha as (Hh & Hp & ->).
  apply (next_contribution_id_inv _ _ _ n) in Hn as (-> & Hlt & k & Hk & Hv); [|done..].
  pose proof (transcript_nonempty _ _ Hm). pose proof (transcript_contiguous _ _ Hm) as Hcont.
  exists (authors (cell_of c)). apply (current_contribution_wf c n) in Hk; [|done..]. split.
  { unfold cell_of. cbn. by rewrite Hh, Hk, Hv. }
  simpl in Hm'. set (c' := MkChunk _ _ _).
  assert (n' = n + 1)%N as ->.
  { pose proof (contiguous_size _ _ (transcript_contiguous _ _ Hm')) as <-.
    by apply contiguous_size, contiguous_insert. }
  pose proof (transcript_len c n Hm) as Hlen. pose proof (transcript_len c' (n + 1) Hm') as Hlen'.
  unfold cell_of. cbn [lock_holder]. f_equal.
  - simpl. rewrite Hlen, Hlen'.
    replace n with (1 + N.of_nat (N.to_nat (n - 1)))%N by lia.
    replace (1 + N.of_nat (N.to_nat (n - 1)) + 1)%N with (1 + N.of_nat (S (N.to_nat (n - 1))))%N by lia.
    rewrite u64_range_snoc, fmap_app. f_equal.
    + apply list_fmap_ext. intros i x Hx. apply list_elem_of_lookup_2, elem_of_u64_range in Hx.
      unfold contributor_at. simpl. by rewrite lookup_insert_ne by lia.
    + replace (1 + N.of_nat (N.to_nat (n - 1)))%N with n by lia. simpl. f_equal.
      unfold contributor_at. simpl. by rewrite lookup_insert_eq.
  - assert (current_contribution c' = Ok (MkContribution (Some p) (Some loc) (Some sig) None None None false)) as ->.
    { apply (current_contribution_wf c' (n + 1)); [done|lia|].
      replace (n + 1 - 1)%N with n by lia. simpl. by rewrite lookup_insert_eq. }
    done.
Qed.

Lemma verify_cell v loc sig c c' :
  chunk_wf expected c →
  verify_contribution (current_contribution_id c) v loc sig c = (Ok tt, c') →
  lock_holder c = None ∨ (∀ p, lock_holder c = Some p → is_contributor p = true) →
  ∃ au, cell_of c = MkCell None au true ∧ cell_of c' = MkCell None au false.
Proof using Hexp.
  intros Hwf Hv Hc. assert (chunk_wf expected c') as (n' & Hm' & Hle' & _) by by eapply verify_wf.
  destruct Hwf as (n & Hm & Hle & Hl).
  apply verify_contribution_inv in Hv as (Hv & k & Hk & Hver & _ & ->).
  pose proof (transcript_nonempty _ _ Hm).
  assert (lock_holder c = None) as Hnone.
  { destruct Hc as [Hc|Hc]; [done|]. destruct (lock_holder c) as [p|] eqn:E; [|done].
    destruct (Hl p eq_refl (Hc p eq_refl)) as [Hlast _].
    rewrite (transcript_current_id c n expected) in Hk by done. rewrite (Hlast k Hk) in Hver. done. }
  exists (authors (cell_of c)). split.
  - unfold cell_of. cbn. rewrite Hnone. unfold current_contribution, get_contribution. by rewrite Hk, Hver.
  - simpl in Hm'. rewrite (transcript_current_id c n expected) in * by done. set (c' := MkChunk _ _ _).
    assert (contributions_len c' = n) as Hlen'.
    { apply contiguous_size. simpl. apply contiguous_update; [by apply transcript_contiguous | lia]. }
    unfold cell_of at 1. cbn [lock_holder]. f_equal.
    + change (authors (cell_of c') = authors (cell_of c)). pose proof (transcript_len c n Hm) as Hlen.
      apply authors_ext; [by rewrite Hlen|]. intros i _. unfold contributor_at. simpl.
      destruct (decide (i = n - 1)%N) as [->|].
      * by rewrite lookup_insert_eq, Hk.
      * by rewrite lookup_insert_ne by done.
    + assert (n' = n) as ->.
      { rewrite <-Hlen'. symmetry. by apply contiguous_size, transcript_contiguous. }
      assert (current_contribution c' = Ok (MkContribution (contributor_id k) (contributed_locator k)
        (contributed_signature_locator k) (Some v) (Some loc) (Some sig) true)) as ->; [|done].
      apply (current_contribution_wf c' n); [done..|]. simpl. by rewrite lookup_insert_eq.
Qed.

Lemma release_cell x c ho au w :
  cell_of c = MkCell ho au w → cell_of (set_lock_holder_unsafe x c) = MkCell x au w.
Proof. unfold cell_of. by intros [= _ <- <-]. Qed.
End cells.

(** ** Progress of a board *)

Definition productive (e : BoardEvent) : bool := match e with Released _ => false | _ => true end.

(** What is left to do on a cell, with [m] members: three events for each
    missing contribution. *)
Definition cell_work (m : nat) (x : Cell) : nat :=
  3 * (m - length (authors x)) + (if awaiting x then 1 else 0) - (if holder x then 1 else 0).

(** Everybody has contributed, and the last contribution is verified. *)
Definition cell_done (m : nat) (x : Cell) : Prop :=
  length (authors x) = m ∧ awaiting x = false ∧ holder x = None.

Definition board_work (m : nat) (b : Board) : nat := foldr (λ x acc, cell_work m x + acc) 0 b.

Lemma board_work_insert m b c x x' :
  b !! c = Some x → board_work m (<[c := x']> b) + cell_work m x = board_work m b + cell_work m x'.
Proof.
  revert c. induction b as [|y b IH]; intros [|c] Hc; simpl in *; try done.
  - injection Hc as ->. lia.
  - specialize (IH c Hc). unfold board_work in *. lia.
Qed.

(** Every productive event does one unit of the work. *)
Lemma productive_step_work members e b b' :
  board_step members e b b' → productive e = true →
  (∀ c x, b !! c = Some x → length (authors x) < length members ∨ holder x = None) →
  board_work (length members) b = S (board_work (length members) b').
Proof.
  intros Hstep He Hroom. destruct Hstep as [b c p au Hc _ _ Hlen|b c p au Hc|b c au Hc|b c ho au w Hc]; [..|done].
  - pose proof (board_work_insert (length members) b c _ (MkCell (Some p) au false) Hc) as Hw.
    unfold cell_work in Hw; simpl in Hw. lia.
  - destruct (Hroom _ _ Hc) as [Hlen|]; [|done]. simpl in Hlen.
    pose proof (board_work_insert (length members) b c _ (MkCell None (au ++ [p]) true) Hc) as Hw.
    unfold cell_work in Hw; simpl in Hw. rewrite length_app in Hw; simpl in Hw. lia.
  - pose proof (board_work_insert (length members) b c _ (MkCell None au false) Hc) as Hw.
    unfold cell_work in Hw; simpl in Hw. lia.
Qed.

(** No more authors than members, and room for one under every lock. *)
Definition board_room (m : nat) (b : Board) : Prop :=
  ∀ c x, b !! c = Some x → length (authors x) ≤ m ∧ (holder x ≠ None → length (authors x) < m).

Lemma board_room_step members e b b' :
  board_step members e b b' → board_room (length members) b → board_room (length members) b'.
Proof.
  intros Hstep Hroom. destruct Hstep as [b c p au Hc _ _ Hlen|b c p au Hc|b c au Hc|b c ho au w Hc];
    intros c' x [(<- & <- & _)|[_ Hx]]%list_lookup_insert_Some; try (by eapply Hroom); simpl.
  - split; [lia | done].
  - destruct (Hroom _ _ Hc) as [_ Hl]. rewrite length_app. simpl in *. specialize (Hl ltac:(done)). split; [lia | done].
  - destruct (Hroom _ _ Hc) as [Hl _]. by split.
  - destruct (Hroom _ _ Hc) as [Hl _]. by split.
Qed.

Definition productive_step (members : list Participant) (b b' : Board) : Prop :=
  ∃ e, board_step members e b b' ∧ productive e = true.

Lemma productive_steps_work members k b b' :
  board_room (length members) b → nsteps (productive_step members) k b b' →
  board_work (length members) b = k + board_work (length members) b' ∧ board_room (length members) b'.
Proof.
  intros Hroom Hsteps. induction Hsteps as [b|k b b1 b' (e & He & Hp) _ IH]; [done|].
  destruct IH as [IH ?]; [by eapply board_room_step|]. split; [|done].
  assert (∀ c x, b !! c = Some x → length (authors x) < length members ∨ holder x = None) as Hr.
  { intros c x Hx. destruct (holder x) eqn:Hh; [left | by right]. eapply Hroom; [done|]. congruence. }
  rewrite (productive_step_work _ _ _ _ He Hp Hr). lia.
Qed.

Lemma some_work m b : board_work m b ≠ 0 → ∃ c x, b !! c = Some x ∧ cell_work m x ≠ 0.
Proof.
  induction b as [|y b IH]; [done|]. cbn [board_work foldr]. intros Hw.
  destruct (decide (cell_work m y = 0)) as [Hy|Hy]; [|by exists 0, y].
  destruct IH as (c & x & Hx & Hc); [unfold board_work; lia|]. by exists (S c), x.
Qed.

(** A board is complete when no work is left. *)
Lemma cell_work_zero m x :
  length (authors x) ≤ m ∧ (holder x ≠ None → length (authors x) < m) →
  cell_work m x = 0 ↔ cell_done m x.
Proof.
  unfold cell_work, cell_done. destruct (holder x) as [p|].
  - intros [_ Hl]. specialize (Hl ltac:(done)). split; [destruct (awaiting x); lia | by intros (_ & _ & ?)].
  - intros [Hle _]. destruct (awaiting x); split; [lia | by intros (_ & ? & _) | by intros; split_and!; [lia|..] | lia].
Qed.

Lemma no_work_left m b :
  board_room m b → board_work m b = 0 ↔ ∀ c x, b !! c = Some x → cell_done m x.
Proof.
  intros Hroom. split.
  - intros Hw c x Hx. apply cell_work_zero; [by eapply Hroom|]. clear Hroom. unfold board_work in Hw.
    revert c Hx. induction b as [|y b IH]; intros [|c] Hx; try done; cbn [foldr] in Hw.
    + injection Hx as ->. lia.
    + by eapply (IH ltac:(lia)).
  - intros Hall. destruct (decide (board_work m b = 0)) as [|(c & x & Hx & Hc)%some_work]; [done|].
    exfalso. apply Hc, cell_work_zero; [by eapply Hroom | by eapply Hall].
Qed.

(** While work is left, an event is possible. *)
Lemma board_progress members b c x :
  NoDup members → b !! c = Some x → board_room (length members) b → NoDup (authors x) →
  (awaiting x = true → holder x = None) → cell_work (length members) x ≠ 0 →
  ∃ b', productive_step members b b'.
Proof.
  intros Hnd Hc Hroom Hau Hwait Hw. destruct x as [[p|] au w]; simpl in *.
  - destruct w; [by specialize (Hwait eq_refl)|]. eexists. exists (Contributed c p).
    split; [by apply board_contribute | done].
  - destruct w; [eexists; exists (Verified c); split; [by apply board_verify | done]|].
    unfold cell_work in Hw; simpl in Hw.
    assert (¬ members ⊆ au) as Hsub.
    { intros Hsub. assert (length members ≤ length au); [|lia].
      apply submseteq_length, NoDup_submseteq; [done | set_solver]. }
    assert (∃ p, p ∈ members ∧ p ∉ au) as (p & Hp & Hfresh).
    { destruct (decide (Exists (λ p, p ∉ au) members)) as [He|He].
      - apply Exists_exists in He as (p & ? & ?). eauto.
      - exfalso. apply Hsub. intros p Hp. destruct (decide (p ∈ au)); [done|].
        exfalso. apply He, Exists_exists. eauto. }
    eexists. exists (Locked c p). split; [|done]. apply board_lock; [done..|]. lia.
Qed.

(** ** Locks that are given up *)

(** Somebody held the cell, and holds it no more without having contributed. *)
Definition lock_given_up (x y : Cell) : nat :=
  match holder x, holder y with
  | Some _, None => if (length (authors y) =? length (authors x))%nat then 1 else 0
  | _, _ => 0
  end.

Fixpoint locks_given_up (b b' : Board) : nat :=
  match b, b' with
  | x :: b, y :: b' => lock_given_up x y + locks_given_up b b'
  | _, _ => 0
  end.

(** What events do to a cell: authors only come, and a verification is only
    awaited after a new one. *)
Definition cell_moved (x y : Cell) : Prop :=
  length (authors x) ≤ length (authors y) ∧
  (length (authors x) = length (authors y) → awaiting y = true → awaiting x = true).

#[export] Instance cell_moved_refl : Reflexive cell_moved.
Proof. by intros x. Qed.
#[export] Instance cell_moved_trans : Transitive cell_moved.
Proof. intros x y z [H1 H2] [H3 H4]. split; [lia|]. intros Heq Hz. apply H2, H4; [lia..|done]. Qed.

Lemma board_moves_cells members b b' : board_moves members b b' → Forall2 cell_moved b b'.
Proof.
  assert (∀ c x y (b0 : Board), b0 !! c = Some x → cell_moved x y → Forall2 cell_moved b0 (<[c := y]> b0)) as Hins.
  { intros c x y b0 Hc Hxy. apply Forall2_same_length_lookup_2; [by rewrite length_insert|].
    intros i x' y' Hx' [(<- & <- & _)|[_ Hy']]%list_lookup_insert_Some; by simplify_eq. }
  induction 1 as [b|b b1 b' [e Hstep] _ IH]; [reflexivity|]. etrans; [|exact IH].
  destruct Hstep as [b c p au Hc _ _ _|b c p au Hc|b c au Hc|b c ho au w Hc];
    (eapply Hins; [exact Hc|]); unfold cell_moved; simpl; rewrite ?length_app; simpl; split; (lia || done).
Qed.

(** Whatever happens, work only comes back by giving up a lock. *)
Lemma cell_moved_work m x y :
  cell_moved x y → length (authors y) ≤ m → (holder x ≠ None → length (authors x) < m) →
  cell_work m y ≤ cell_work m x + lock_given_up x y.
Proof.
  intros [Hle Haw] Hm Hx. unfold cell_work, lock_given_up.
  destruct (decide (length (authors x) = length (authors y))) as [Heq|Hne].
  - rewrite <-Heq, Nat.eqb_refl. specialize (Haw Heq).
    assert ((if awaiting y then 1 else 0) ≤ (if awaiting x then 1 else 0))
      by (destruct (awaiting y); [by rewrite Haw|lia]).
    destruct (holder x); [specialize (Hx ltac:(done))|]; destruct (holder y); lia.
  - destruct (awaiting x), (awaiting y), (holder x), (holder y); lia.
Qed.

Lemma board_moves_room members b b' :
  board_moves members b b' → board_room (length members) b → board_room (length members) b'.
Proof. induction 1 as [|b b1 b' [e He] _ IH]; [done|]. intros Hb. by eapply IH, board_room_step. Qed.

Lemma board_moves_work members b b' :
  board_moves members b b' → board_room (length members) b →
  board_work (length members) b' ≤ board_work (length members) b + locks_given_up b b'.
Proof.
  intros Hmoves Hroom. pose proof (board_moves_room _ _ _ Hmoves Hroom) as Hroom'.
  apply board_moves_cells in Hmoves. unfold board_room in *.
  induction Hmoves as [|x y b b' Hxy _ IH]; [done|]. cbn [board_work foldr locks_given_up].
  pose proof (cell_moved_work (length members) x y Hxy) as Hcell.
  specialize (Hcell (proj1 (Hroom' 0 y eq_refl)) (proj2 (Hroom 0 x eq_refl))).
  unfold board_work in *. cut (foldr (λ x acc, cell_work (length members) x + acc) 0 b'
    ≤ foldr (λ x acc, cell_work (length members) x + acc) 0 b + locks_given_up b b'); [lia|].
  apply IH; intros c z Hz; [by apply (Hroom (S c))|by apply (Hroom' (S c))].
Qed.
