(* ===== verification/ParticipantInfo.v ===== *)
(** * Participants of a round

    [ChunkLock] and [ParticipantInfo] of
    [phase1-coordinator/src/coordinator_state.rs]: the tasks and locks of one
    participant, and the methods that move a task from assigned to pending to
    completed (or back, or to disposal).

    Instants are nanoseconds.  A method reads its [TimeSource] as the argument
    [now]: one reading per operation, as with [MockTimeSource]. *)

From S2P Require Import Prelude Task Participant Errors.
Record ChunkLock := MkChunkLock { lock_chunk_id : N; lock_time : Z }.

Definition chunk_lock_new (c : N) (now : Z) : ChunkLock := MkChunkLock c now.

Record ParticipantInfo := MkParticipantInfo {
  pi_id : Participant;
  round_height : N;
  reliability : N;
  bucket_id : N;
  first_seen : Z;
  last_seen : Z;
  started_at : option Z;
  finished_at : option Z;
  dropped_at : option Z;
  locked_chunks : gmap N ChunkLock;
  assigned_tasks : list Task;
  pending_tasks : list Task;
  completed_tasks : list Task;
  disposing_tasks : list Task;
  disposed_tasks : list Task;
}.

(** [PartialEq] compares the printed identities. *)
Definition participant_info_eqb (p q : ParticipantInfo) : bool :=
  bool_decide (participant_to_string (pi_id p) = participant_to_string (pi_id q)).

(** Field assignments. *)
Definition set_reliability (v : N) (p : ParticipantInfo) : ParticipantInfo :=
  MkParticipantInfo (pi_id p) (round_height p) v (bucket_id p) (first_seen p) (last_seen p) (started_at p) (finished_at p) (dropped_at p) (locked_chunks p) (assigned_tasks p) (pending_tasks p) (completed_tasks p) (disposing_tasks p) (disposed_tasks p).
Definition set_last_seen (v : Z) (p : ParticipantInfo) : ParticipantInfo :=
  MkParticipantInfo (pi_id p) (round_height p) (reliability p) (bucket_id p) (first_seen p) v (started_at p) (finished_at p) (dropped_at p) (locked_chunks p) (assigned_tasks p) (pending_tasks p) (completed_tasks p) (disposing_tasks p) (disposed_tasks p).
Definition set_started_at (v : option Z) (p : ParticipantInfo) : ParticipantInfo :=
  MkParticipantInfo (pi_id p) (round_height p) (reliability p) (bucket_id p) (first_seen p) (last_seen p) v (finished_at p) (dropped_at p) (locked_chunks p) (assigned_tasks p) (pending_tasks p) (completed_tasks p) (disposing_tasks p) (disposed_tasks p).
Definition set_finished_at (v : option Z) (p : ParticipantInfo) : ParticipantInfo :=
  MkParticipantInfo (pi_id p) (round_height p) (reliability p) (bucket_id p) (first_seen p) (last_seen p) (started_at p) v (dropped_at p) (locked_chunks p) (assigned_tasks p) (pending_tasks p) (completed_tasks p) (disposing_tasks p) (disposed_tasks p).
Definition set_dropped_at (v : option Z) (p : ParticipantInfo) : ParticipantInfo :=
  MkParticipantInfo (pi_id p) (round_height p) (reliability p) (bucket_id p) (first_seen p) (last_seen p) (started_at p) (finished_at p) v (locked_chunks p) (assigned_tasks p) (pending_tasks p) (completed_tasks p) (disposing_tasks p) (disposed_tasks p).
Definition set_locked_chunks (v : gmap N ChunkLock) (p : ParticipantInfo) : ParticipantInfo :=
  MkParticipantInfo (pi_id p) (round_height p) (reliability p) (bucket_id p) (first_seen p) (last_seen p) (started_at p) (finished_at p) (dropped_at p) v (assigned_tasks p) (pending_tasks p) (completed_tasks p) (disposing_tasks p) (disposed_tasks p).
Definition set_assigned_tasks (v : list Task) (p : ParticipantInfo) : ParticipantInfo :=
  MkParticipantInfo (pi_id p) (round_height p) (reliability p) (bucket_id p) (first_seen p) (last_seen p) (started_at p) (finished_at p) (dropped_at p) (locked_chunks p) v (pending_tasks p) (completed_tasks p) (disposing_tasks p) (disposed_tasks p).
Definition set_pending_tasks (v : list Task) (p : ParticipantInfo) : ParticipantInfo :=
  MkParticipantInfo (pi_id p) (round_height p) (reliability p) (bucket_id p) (first_seen p) (last_seen p) (started_at p) (finished_at p) (dropped_at p) (locked_chunks p) (assigned_tasks p) v (completed_tasks p) (disposing_tasks p) (disposed_tasks p).
Definition set_completed_tasks (v : list Task) (p : ParticipantInfo) : ParticipantInfo :=
  MkParticipantInfo (pi_id p) (round_height p) (reliability p) (bucket_id p) (first_seen p) (last_seen p) (started_at p) (finished_at p) (dropped_at p) (locked_chunks p) (assigned_tasks p) (pending_tasks p) v (disposing_tasks p) (disposed_tasks p).
Definition set_disposing_tasks (v : list Task) (p : ParticipantInfo) : ParticipantInfo :=
  MkParticipantInfo (pi_id p) (round_height p) (reliability p) (bucket_id p) (first_seen p) (last_seen p) (started_at p) (finished_at p) (dropped_at p) (locked_chunks p) (assigned_tasks p) (pending_tasks p) (completed_tasks p) v (disposed_tasks p).
Definition set_disposed_tasks (v : list Task) (p : ParticipantInfo) : ParticipantInfo :=
  MkParticipantInfo (pi_id p) (round_height p) (reliability p) (bucket_id p) (first_seen p) (last_seen p) (started_at p) (finished_at p) (dropped_at p) (locked_chunks p) (assigned_tasks p) (pending_tasks p) (completed_tasks p) (disposing_tasks p) v.

Definition participant_info_new (p : Participant) (height rel bucket : N) (now : Z) : ParticipantInfo :=
  MkParticipantInfo p height rel bucket now now None None None ∅ [] [] [] [] [].

(** The tasks of a list on a given chunk. *)
Definition on_chunk (c : N) (l : list Task) : list Task := filter (λ t, task_contains t c = true) l.

Definition pi_is_contributor (p : ParticipantInfo) : bool := is_contributor (pi_id p).

Definition is_finished (p : ParticipantInfo) : bool :=
  if is_none (started_at p) then false
  else if is_some (dropped_at p) then false
  else if negb (map_is_empty (locked_chunks p)) then false
  else if negb (is_nil (assigned_tasks p)) then false
  else if negb (is_nil (pending_tasks p)) then false
  else if negb (is_nil (disposing_tasks p)) then false
  else if pi_is_contributor p && is_nil (completed_tasks p) then false
  else is_some (finished_at p).

Definition is_dropped (p : ParticipantInfo) : bool :=
  if is_finished p then false else is_some (dropped_at p).

Definition clear_tasks (p : ParticipantInfo) : ParticipantInfo :=
  set_disposed_tasks [] (set_disposing_tasks [] (set_completed_tasks []
    (set_assigned_tasks [] (set_pending_tasks [] p)))).
Definition clear_locks (p : ParticipantInfo) : ParticipantInfo := set_locked_chunks ∅ p.
Definition clear_round_times (p : ParticipantInfo) : ParticipantInfo :=
  set_finished_at None (set_dropped_at None (set_started_at None p)).

(** The methods of a participant borrow its record mutably. *)
Notation method := (M CoordinatorError ParticipantInfo).

Definition start (tasks : list Task) (now : Z) : method unit :=
  bail_if (λ p, (round_height p =? 0)%N) with ParticipantRoundHeightInvalid ;;;
  bail_if (λ p, is_some (started_at p) || is_some (dropped_at p) || is_some (finished_at p))
    with ParticipantAlreadyStarted ;;;
  bail_if (λ p, negb (map_is_empty (locked_chunks p))) with ParticipantAlreadyHasLockedChunks ;;;
  bail_if (λ p, negb (is_nil (assigned_tasks p))) with ParticipantHasAssignedTasks ;;;
  bail_if (λ p, negb (is_nil (pending_tasks p))) with ParticipantHasRemainingTasks ;;;
  bail_if (λ p, negb (is_nil (completed_tasks p))) with ParticipantAlreadyStarted ;;;
  bail_if (λ p, negb (is_nil (disposing_tasks p))) with ParticipantAlreadyStarted ;;;
  bail_if (λ p, negb (is_nil (disposed_tasks p))) with ParticipantAlreadyStarted ;;;
  modify (set_last_seen now) ;;;
  modify (set_started_at (Some now)) ;;;
  modify (set_assigned_tasks tasks).

Definition restart_tasks (tasks : list Task) (now : Z) : method unit :=
  modify clear_tasks ;;;
  modify clear_locks ;;;
  modify clear_round_times ;;;
  start tasks now.

(** The three checks most methods begin with. *)
Definition while_active {A} (k : method A) : method A :=
  bail_if (λ p, is_none (started_at p)) with ParticipantHasNotStarted ;;;
  bail_if (λ p, is_some (dropped_at p)) with ParticipantWasDropped ;;;
  bail_if (λ p, is_some (finished_at p)) with ParticipantAlreadyFinished ;;;
  k.

Definition push_front_task (t : Task) (now : Z) : method unit :=
  while_active (
  bail_if (λ p, pi_is_contributor p && contains_key (chunk_id t) (locked_chunks p))
    with ParticipantAlreadyWorkingOnChunk (chunk_id t) ;;;
  bail_if (λ p, contains (assigned_tasks p) t) with ParticipantAlreadyAddedChunk ;;;
  bail_if (λ p, contains (pending_tasks p) t)
    with ParticipantAlreadyWorkingOnChunk (chunk_id t) ;;;
  bail_if (λ p, contains (completed_tasks p) t)
    with ParticipantAlreadyFinishedChunk (chunk_id t) ;;;
  modify (set_last_seen now) ;;;
  modify (λ p, set_assigned_tasks (t :: assigned_tasks p) p)).

Definition pop_task (now : Z) : method Task :=
  while_active (
  bail_if (λ p, is_nil (assigned_tasks p)) with ParticipantHasNoRemainingTasks ;;;
  modify (set_last_seen now) ;;;
  (λ p, match assigned_tasks p with
        | t :: rest =>
            (Ok t, set_pending_tasks (pending_tasks p ++ [t]) (set_assigned_tasks rest p))
        | [] => (Err ParticipantHasNoRemainingTasks, p)
        end)).

(** A contributor works on a chunk it has popped and not completed yet. *)
Definition while_working_on {A} (c : N) (k : method A) : method A :=
  bail_if (λ p, pi_is_contributor p && (length (on_chunk c (pending_tasks p)) =? 0)%nat)
    with ParticipantUnauthorizedForChunkId c ;;;
  bail_if (λ p, pi_is_contributor p && (0 <? length (on_chunk c (completed_tasks p)))%nat)
    with ParticipantAlreadyFinishedChunk c ;;;
  k.

Definition acquired_lock (c : N) (now : Z) : method unit :=
  while_active (
  bail_if (λ p, contains_key c (locked_chunks p)) with ParticipantAlreadyHasLockedChunk ;;;
  while_working_on c (
  modify (set_last_seen now) ;;;
  modify (λ p, set_locked_chunks (<[c := chunk_lock_new c now]> (locked_chunks p)) p))).

Definition remove_task (t : Task) (l : list Task) : list Task := filter (λ t', t' ≠ t) l.

Definition rollback_locked_task (t : Task) (now : Z) : method unit :=
  while_active (
  bail_if (λ p, negb (contains_key (chunk_id t) (locked_chunks p)))
    with ChunkNotLockedOrByWrongParticipant ;;;
  while_working_on (chunk_id t) (
  modify (set_last_seen now) ;;;
  modify (λ p, set_locked_chunks (delete (chunk_id t) (locked_chunks p)) p) ;;;
  modify (λ p, set_pending_tasks (remove_task t (pending_tasks p)) p) ;;;
  push_front_task t now)).

Definition rollback_pending_task (t : Task) (now : Z) : method unit :=
  while_active (
  bail_if (λ p, contains_key (chunk_id t) (locked_chunks p)) with ParticipantAlreadyHasLockedChunk ;;;
  while_working_on (chunk_id t) (
  modify (set_last_seen now) ;;;
  modify (λ p, set_pending_tasks (remove_task t (pending_tasks p)) p) ;;;
  push_front_task t now)).

Definition completed_task (t : Task) (now : Z) : method unit :=
  while_active (
  bail_if (λ p, negb (contains_key (chunk_id t) (locked_chunks p))) with ParticipantDidntLockChunkId ;;;
  bail_if (λ p, contains (assigned_tasks p) t) with ParticipantStillHasTaskAsAssigned ;;;
  bail_if (λ p, negb (contains (pending_tasks p) t)) with ParticipantMissingPendingTask t ;;;
  bail_if (λ p, contains (completed_tasks p) t) with ParticipantAlreadyFinishedTask t ;;;
  bail_if (λ p, pi_is_contributor p && (0 <? length (on_chunk (chunk_id t) (completed_tasks p)))%nat)
    with ParticipantAlreadyFinishedChunk (chunk_id t) ;;;
  modify (set_last_seen now) ;;;
  modify (λ p, set_locked_chunks (delete (chunk_id t) (locked_chunks p)) p) ;;;
  modify (λ p, set_pending_tasks (remove_task t (pending_tasks p)) p) ;;;
  modify (λ p, set_completed_tasks (completed_tasks p ++ [t]) p)).

Definition dispose_task (c k : N) (now : Z) : method unit :=
  let t := MkTask c k in
  while_active (
  bail_if (λ p, negb (contains_key c (locked_chunks p))) with ParticipantDidntLockChunkId ;;;
  bail_if (λ p, negb (contains (disposing_tasks p) t)) with ParticipantMissingDisposingTask ;;;
  modify (set_last_seen now) ;;;
  modify (λ p, set_locked_chunks (delete c (locked_chunks p)) p) ;;;
  modify (λ p, set_disposing_tasks (remove_task t (disposing_tasks p)) p) ;;;
  modify (λ p, set_disposed_tasks (disposed_tasks p ++ [t]) p)).

Definition drop (now : Z) : method unit :=
  bail_if (λ p, is_some (dropped_at p)) with ParticipantAlreadyDropped ;;;
  bail_if (λ p, is_some (finished_at p)) with ParticipantAlreadyFinished ;;;
  modify (set_dropped_at (Some now)).

Definition finish (now : Z) : method unit :=
  while_active (
  bail_if (λ p, negb (map_is_empty (locked_chunks p))) with ParticipantStillHasLocks ;;;
  bail_if (λ p, negb (is_nil (assigned_tasks p))) with ParticipantHasRemainingTasks ;;;
  bail_if (λ p, negb (is_nil (pending_tasks p))) with ParticipantHasRemainingTasks ;;;
  bail_if (λ p, pi_is_contributor p && is_nil (completed_tasks p)) with ParticipantDidNotDoWork ;;;
  bail_if (λ p, negb (is_nil (disposing_tasks p))) with ParticipantHasRemainingTasks ;;;
  modify (set_last_seen now) ;;;
  modify (set_finished_at (Some now))).

(** Deprecated, unused in the crate. *)
Definition reset (now : Z) (p : ParticipantInfo) : ParticipantInfo :=
  participant_info_new (pi_id p) (round_height p) (reliability p) 0 now.

(** ** What a successful call did *)

Ltac method_inv H :=
  unfold while_active, while_working_on in H;
  repeat (rewrite check_ok in H; let Hg := fresh "Hguard" in destruct H as [Hg H]);
  cbv [bind modify] in H; guards_to_props.

Definition active (p : ParticipantInfo) : Prop :=
  (∃ s, started_at p = Some s) ∧ dropped_at p = None ∧ finished_at p = None.

Lemma start_inv tasks now p r p' :
  start tasks now p = (Ok r, p') →
  p' = set_assigned_tasks tasks (set_started_at (Some now) (set_last_seen now p)) ∧
  (round_height p ≠ 0%N ∧ started_at p = None ∧ dropped_at p = None ∧ finished_at p = None ∧
   locked_chunks p = ∅ ∧ assigned_tasks p = [] ∧ pending_tasks p = [] ∧ completed_tasks p = [] ∧
   disposing_tasks p = [] ∧ disposed_tasks p = []).
Proof.
  unfold start. intros H. method_inv H. simplify_eq. naive_solver.
Qed.

Lemma pop_task_inv now p t p' :
  pop_task now p = (Ok t, p') →
  active p ∧ ∃ rest, assigned_tasks p = t :: rest ∧
    p' = set_pending_tasks (pending_tasks p ++ [t]) (set_assigned_tasks rest (set_last_seen now p)).
Proof.
  unfold pop_task. intros H. method_inv H. simpl in H.
  destruct (assigned_tasks p) as [|t' rest] eqn:E; simplify_eq. split; [done|]. eauto.
Qed.

Lemma push_front_task_inv t now p r p' :
  push_front_task t now p = (Ok r, p') →
  active p ∧ p' = set_assigned_tasks (t :: assigned_tasks p) (set_last_seen now p).
Proof. unfold push_front_task. intros H. method_inv H. by simplify_eq/=. Qed.

Lemma acquired_lock_inv c now p r p' :
  acquired_lock c now p = (Ok r, p') →
  active p ∧ locked_chunks p !! c = None ∧
  (pi_is_contributor p = true → on_chunk c (pending_tasks p) ≠ [] ∧ on_chunk c (completed_tasks p) = []) ∧
  p' = set_locked_chunks (<[c := chunk_lock_new c now]> (locked_chunks p)) (set_last_seen now p).
Proof.
  unfold acquired_lock. intros H. method_inv H. simplify_eq/=. split; [done|]. split; [done|].
  split; [|done]. intros Hc. split.
  - intros E. rewrite E in *. simpl in *. intuition congruence.
  - apply nil_length_inv. intuition (congruence || lia).
Qed.

Lemma completed_task_inv t now p r p' :
  completed_task t now p = (Ok r, p') →
  active p ∧ t ∈ pending_tasks p ∧ t ∉ assigned_tasks p ∧ t ∉ completed_tasks p ∧
  (∃ l, locked_chunks p !! chunk_id t = Some l) ∧
  p' = set_completed_tasks (completed_tasks p ++ [t])
         (set_pending_tasks (remove_task t (pending_tasks p))
           (set_locked_chunks (delete (chunk_id t) (locked_chunks p)) (set_last_seen now p))).
Proof.
  unfold completed_task, contains. intros H. method_inv H. simplify_eq/=. by repeat split.
Qed.

Lemma rollback_pending_task_inv t now p r p' :
  rollback_pending_task t now p = (Ok r, p') →
  active p ∧ locked_chunks p !! chunk_id t = None ∧
  p' = set_assigned_tasks (t :: assigned_tasks p)
         (set_pending_tasks (remove_task t (pending_tasks p)) (set_last_seen now p)).
Proof.
  unfold rollback_pending_task. intros H. method_inv H.
  apply push_front_task_inv in H as [? ->]. done.
Qed.

Lemma rollback_locked_task_inv t now p r p' :
  rollback_locked_task t now p = (Ok r, p') →
  active p ∧ (∃ l, locked_chunks p !! chunk_id t = Some l) ∧
  p' = set_assigned_tasks (t :: assigned_tasks p)
         (set_pending_tasks (remove_task t (pending_tasks p))
           (set_locked_chunks (delete (chunk_id t) (locked_chunks p)) (set_last_seen now p))).
Proof.
  unfold rollback_locked_task. intros H. method_inv H.
  apply push_front_task_inv in H as [? ->]. done.
Qed.

Lemma finish_inv now p r p' :
  finish now p = (Ok r, p') →
  active p ∧ locked_chunks p = ∅ ∧ assigned_tasks p = [] ∧ pending_tasks p = [] ∧
  disposing_tasks p = [] ∧ (pi_is_contributor p = true → completed_tasks p ≠ []) ∧
  p' = set_finished_at (Some now) (set_last_seen now p).
Proof.
  unfold finish. intros H. method_inv H. simplify_eq.
  repeat split; try done. intuition congruence.
Qed.

Lemma finish_is_finished now p r p' : finish now p = (Ok r, p') → is_finished p' = true.
Proof.
  intros ([[st Hst] [Hd _]] & Hl & Ha & Hp & Hdis & Hc & ->)%finish_inv.
  unfold is_finished. simpl. rewrite Hst, Hd, Hl, Ha, Hp, Hdis.
  replace (pi_is_contributor _) with (pi_is_contributor p) by done.
  destruct (pi_is_contributor p); [|done]. by destruct (completed_tasks p); [destruct Hc|].
Qed.

Lemma drop_inv now p r p' :
  drop now p = (Ok r, p') →
  dropped_at p = None ∧ finished_at p = None ∧ p' = set_dropped_at (Some now) p.
Proof. unfold drop. intros H. method_inv H. by simplify_eq. Qed.

(** ** Conservation of tasks *)

Lemma elem_of_remove_task t t' l : t' ∈ remove_task t l ↔ t' ≠ t ∧ t' ∈ l.
Proof. unfold remove_task. by rewrite list_elem_of_filter. Qed.

Lemma remove_task_not_in t l : t ∉ l → remove_task t l = l.
Proof.
  unfold remove_task. induction l as [|x l IH]; [done|].
  intros [Hx Hl]%not_elem_of_cons. rewrite filter_cons_True by done. by rewrite IH.
Qed.

Lemma remove_task_perm t l : NoDup l → t ∈ l → l ≡ₚ t :: remove_task t l.
Proof.
  unfold remove_task. induction 1 as [|x l Hx Hl IH]; [by intros ?%not_elem_of_nil|].
  intros [->|Ht]%elem_of_cons.
  - rewrite filter_cons_False by naive_solver. fold (remove_task x l). by rewrite remove_task_not_in.
  - rewrite filter_cons_True by (intros ->; done). rewrite Permutation_swap. by rewrite <-IH.
Qed.

(** The tasks of a round a participant is responsible for. *)
Definition all_tasks (p : ParticipantInfo) : list Task :=
  assigned_tasks p ++ pending_tasks p ++ completed_tasks p.

(** A contributor has at most one task per chunk, and holds a lock only on the
    chunk of a pending task. *)
Record participant_wf (p : ParticipantInfo) : Prop := {
  wf_contributor : pi_is_contributor p = true;
  wf_one_task_per_chunk : NoDup (chunk_id <$> all_tasks p);
  wf_locks : ∀ c l, locked_chunks p !! c = Some l →
    lock_chunk_id l = c ∧ ∃ t, t ∈ pending_tasks p ∧ chunk_id t = c;
}.

(** The moves of a contributor through a round, as the coordinator makes them:
    only a task that was popped is rolled back. *)
Inductive participant_step : ParticipantInfo → ParticipantInfo → Prop :=
| step_pop now t p p' : pop_task now p = (Ok t, p') → participant_step p p'
| step_lock c now p p' : acquired_lock c now p = (Ok tt, p') → participant_step p p'
| step_complete t now p p' : completed_task t now p = (Ok tt, p') → participant_step p p'
| step_rollback_pending t now p p' :
    t ∈ pending_tasks p → rollback_pending_task t now p = (Ok tt, p') → participant_step p p'
| step_rollback_locked t now p p' :
    t ∈ pending_tasks p → rollback_locked_task t now p = (Ok tt, p') → participant_step p p'
| step_finish now p p' : finish now p = (Ok tt, p') → participant_step p p'
| step_participant_drop now p p' : drop now p = (Ok tt, p') → participant_step p p'.

Lemma participant_wf_NoDup p : participant_wf p → NoDup (all_tasks p).
Proof. intros Hp. by eapply NoDup_fmap_1, wf_one_task_per_chunk. Qed.

Lemma participant_wf_pending_NoDup p : participant_wf p → NoDup (pending_tasks p).
Proof.
  intros Hp%participant_wf_NoDup. unfold all_tasks in Hp. rewrite !NoDup_app in Hp. naive_solver.
Qed.

Lemma participant_wf_pending_inj p t t' :
  participant_wf p → t ∈ pending_tasks p → t' ∈ pending_tasks p → chunk_id t = chunk_id t' → t = t'.
Proof.
  intros Hp Ht Ht' Heq. apply list_elem_of_lookup in Ht as [i Hi], Ht' as [j Hj].
  pose proof (wf_one_task_per_chunk p Hp) as Hnd. unfold all_tasks in Hnd.
  rewrite !fmap_app, !NoDup_app in Hnd. destruct Hnd as (_ & _ & Hnd & _).
  assert (i = j) as ->; [|congruence].
  eapply (NoDup_lookup _ i j (chunk_id t)); [done|..]; rewrite list_lookup_fmap.
  - by rewrite Hi.
  - by rewrite Hj, Heq.
Qed.

Lemma participant_wf_perm p p' :
  participant_wf p → pi_id p' = pi_id p → all_tasks p' ≡ₚ all_tasks p →
  (∀ c l, locked_chunks p' !! c = Some l →
    lock_chunk_id l = c ∧ ∃ t, t ∈ pending_tasks p' ∧ chunk_id t = c) →
  participant_wf p'.
Proof.
  intros Hp Hid Hperm Hl. split; [|by rewrite Hperm; apply wf_one_task_per_chunk | done].
  unfold pi_is_contributor. rewrite Hid. by apply wf_contributor.
Qed.

Lemma wf_locks_delete p t c l :
  participant_wf p → t ∈ pending_tasks p →
  delete (chunk_id t) (locked_chunks p) !! c = Some l →
  lock_chunk_id l = c ∧ ∃ t', t' ∈ remove_task t (pending_tasks p) ∧ chunk_id t' = c.
Proof.
  intros Hp Ht [Hne Hc]%lookup_delete_Some. destruct (wf_locks p Hp c l Hc) as (? & t' & Ht' & <-).
  split; [done|]. exists t'. split; [|done]. apply elem_of_remove_task. split; [|done]. by intros ->.
Qed.

Lemma rollback_perm p t a b c :
  a ++ b ++ c ≡ₚ all_tasks p → NoDup b → t ∈ b →
  (t :: a) ++ remove_task t b ++ c ≡ₚ all_tasks p.
Proof.
  intros <- Hb Ht. rewrite (remove_task_perm t b Hb Ht) at 2.
  simpl. by rewrite Permutation_middle.
Qed.

Lemma participant_step_preserves p p' :
  participant_wf p → participant_step p p' →
  participant_wf p' ∧ all_tasks p' ≡ₚ all_tasks p ∧ pi_id p' = pi_id p.
Proof.
  intros Hp Hstep. pose proof (participant_wf_pending_NoDup p Hp) as Hnd.
  assert (∀ p'', pi_id p'' = pi_id p → all_tasks p'' ≡ₚ all_tasks p →
    (∀ c l, locked_chunks p'' !! c = Some l →
      lock_chunk_id l = c ∧ ∃ t, t ∈ pending_tasks p'' ∧ chunk_id t = c) →
    participant_wf p'' ∧ all_tasks p'' ≡ₚ all_tasks p ∧ pi_id p'' = pi_id p) as Hwf.
  { intros. split; [by apply (participant_wf_perm p) | done]. }
  destruct Hstep as [now t p p' H|c now p p' H|t now p p' H|t now p p' Ht H|t now p p' Ht H
                    |now p p' H|now p p' H].
  - apply pop_task_inv in H as (_ & rest & Ha & ->). apply Hwf; [done|..].
    + unfold all_tasks; simpl. rewrite Ha, <-!app_assoc. simpl. by rewrite <-!Permutation_middle.
    + simpl. intros c l (? & t' & ? & ?)%(wf_locks p Hp). split; [done|]. exists t'. set_solver.
  - apply acquired_lock_inv in H as (_ & Hc & Hpend & ->). apply Hwf; [done..|].
    simpl. intros c' l [[<- <-]|[? Hl]]%lookup_insert_Some; [|by apply (wf_locks p Hp)].
    split; [done|]. destruct (Hpend (wf_contributor p Hp)) as [Hne _].
    destruct (on_chunk c (pending_tasks p)) as [|t l'] eqn:E; [done|].
    exists t. assert (t ∈ on_chunk c (pending_tasks p)) as Hin by (rewrite E; constructor).
    unfold on_chunk in Hin. apply list_elem_of_filter in Hin as [Heq Hin]. split; [done|].
    by apply N.eqb_eq.
  - apply completed_task_inv in H as (_ & Ht & _ & _ & _ & ->). apply Hwf; [done|..].
    + unfold all_tasks; simpl. rewrite (remove_task_perm t _ Hnd Ht) at 2.
      rewrite (app_assoc _ (completed_tasks p)), <-Permutation_cons_append. done.
    + simpl. intros. by apply wf_locks_delete.
  - apply rollback_pending_task_inv in H as (_ & Hl & ->). apply Hwf; [done|..].
    + unfold all_tasks; simpl. by apply (rollback_perm p).
    + simpl. intros c l Hc. destruct (wf_locks p Hp c l Hc) as (? & t' & ? & <-).
      split; [done|]. exists t'. rewrite elem_of_remove_task. split; [|done]. split; [|done].
      intros ->. congruence.
  - apply rollback_locked_task_inv in H as (_ & Hl & ->). apply Hwf; [done|..].
    + unfold all_tasks; simpl. by apply (rollback_perm p).
    + simpl. intros. by apply wf_locks_delete.
  - apply finish_inv in H as (_ & _ & _ & _ & _ & _ & ->). apply Hwf; [done..|]. apply (wf_locks p Hp).
  - apply drop_inv in H as (_ & _ & ->). apply Hwf; [done..|]. apply (wf_locks p Hp).
Qed.

Lemma participant_reachable p p' :
  participant_wf p → rtc participant_step p p' →
  participant_wf p' ∧ all_tasks p' ≡ₚ all_tasks p ∧ pi_id p' = pi_id p.
Proof.
  intros Hp Hr. induction Hr as [p|p p1 p2 Hs Hr IH]; [done|].
  destruct (participant_step_preserves p p1 Hp Hs) as (Hp1 & Hperm & Hid).
  destruct (IH Hp1) as (? & Hperm2 & Hid2). split; [done|]. by rewrite Hperm2, Hid2.
Qed.

(** A contributor that starts with one task per chunk is well formed. *)
Lemma start_participant_wf tasks now p r p' :
  pi_is_contributor p = true → NoDup (chunk_id <$> tasks) → start tasks now p = (Ok r, p') →
  participant_wf p' ∧ all_tasks p' = tasks ∧ active p' ∧ pi_id p' = pi_id p.
Proof.
  intros Hc Hnd (-> & Hheight & Hs & Hd & Hf & Hl & Ha & Hpend & Hcomp & _)%start_inv.
  assert (all_tasks (set_assigned_tasks tasks (set_started_at (Some now) (set_last_seen now p))) = tasks)
    as Hall by (unfold all_tasks; simpl; by rewrite Hpend, Hcomp, !app_nil_r).
  split; [split|split; [done|]]; try done.
  - by rewrite Hall.
  - simpl. rewrite Hl. by intros c l ?%lookup_empty_Some.
  - split; [|done]. unfold active; simpl. naive_solver.
Qed.

(** The error the first failing activity check gives. *)
Definition activity_error (p : ParticipantInfo) : option CoordinatorError :=
  if is_none (started_at p) then Some ParticipantHasNotStarted
  else if is_some (dropped_at p) then Some ParticipantWasDropped
  else if is_some (finished_at p) then Some ParticipantAlreadyFinished
  else None.

Lemma while_active_error {A} (k : method A) p e :
  activity_error p = Some e → while_active k p = (Err e, p).
Proof.
  unfold activity_error, while_active, check. repeat case_match; naive_solver.
Qed.

(** Running a task through pop, lock and completion. *)
Definition process_task (now : Z) : method Task :=
  let! t := pop_task now in
  acquired_lock (chunk_id t) now ;;;
  completed_task t now ;;;
  ret t.

Fixpoint process_tasks (n : nat) (now : Z) : method (list Task) :=
  match n with
  | O => ret []
  | S n => let! t := process_task now in let! ts := process_tasks n now in ret (t :: ts)
  end.

Lemma on_chunk_nil c l : c ∉ chunk_id <$> l → on_chunk c l = [].
Proof.
  unfold on_chunk. induction l as [|t l IH]; simpl; [done|].
  intros [Hne Hl]%not_elem_of_cons. rewrite filter_cons_False; [by apply IH|].
  unfold task_contains. rewrite N.eqb_eq. congruence.
Qed.

Lemma while_active_ok {A} (k : method A) p : active p → while_active k p = k p.
Proof. intros ([s Hs] & Hd & Hf). unfold while_active, check. by rewrite Hs, Hd, Hf. Qed.

Lemma pop_task_ok now p t rest :
  active p → assigned_tasks p = t :: rest →
  pop_task now p =
    (Ok t, set_pending_tasks (pending_tasks p ++ [t]) (set_assigned_tasks rest (set_last_seen now p))).
Proof.
  intros Hact Ha. unfold pop_task. rewrite while_active_ok by done.
  unfold check, bind, modify. simpl. by rewrite Ha.
Qed.

Lemma acquired_lock_ok c now p :
  active p → locked_chunks p !! c = None →
  on_chunk c (pending_tasks p) ≠ [] → on_chunk c (completed_tasks p) = [] →
  acquired_lock c now p =
    (Ok tt, set_locked_chunks (<[c := chunk_lock_new c now]> (locked_chunks p)) (set_last_seen now p)).
Proof.
  intros Hact Hl Hpend Hcomp. unfold acquired_lock. rewrite while_active_ok by done.
  unfold while_working_on, check, contains_key. rewrite Hl, Hcomp.
  destruct (on_chunk c (pending_tasks p)); [done|]. simpl. by rewrite !andb_false_r.
Qed.

Lemma on_chunk_nil_notin t l : on_chunk (chunk_id t) l = [] → t ∉ l.
Proof.
  intros Hl Hin. assert (t ∈ on_chunk (chunk_id t) l) as Ht; [|rewrite Hl in Ht; by apply not_elem_of_nil in Ht].
  unfold on_chunk. rewrite list_elem_of_filter. split; [apply N.eqb_refl | done].
Qed.

Lemma completed_task_ok t now p l :
  active p → locked_chunks p !! chunk_id t = Some l → t ∉ assigned_tasks p → t ∈ pending_tasks p →
  on_chunk (chunk_id t) (completed_tasks p) = [] →
  completed_task t now p =
    (Ok tt, set_completed_tasks (completed_tasks p ++ [t])
       (set_pending_tasks (remove_task t (pending_tasks p))
         (set_locked_chunks (delete (chunk_id t) (locked_chunks p)) (set_last_seen now p)))).
Proof.
  intros Hact Hl Ha Hp Hc. unfold completed_task. rewrite while_active_ok by done.
  unfold check, contains_key, contains. rewrite Hl, Hc.
  rewrite (bool_decide_eq_false_2 (t ∈ assigned_tasks p)), (bool_decide_eq_true_2 (t ∈ pending_tasks p)),
    (bool_decide_eq_false_2 (t ∈ completed_tasks p)) by auto using on_chunk_nil_notin.
  simpl. by rewrite !andb_false_r.
Qed.

Lemma on_chunk_elem t l : t ∈ l → on_chunk (chunk_id t) l ≠ [].
Proof. intros Hin Hn. by apply (on_chunk_nil_notin t l). Qed.

Lemma process_task_ok now p t rest :
  participant_wf p → active p → locked_chunks p = ∅ → pending_tasks p = [] →
  assigned_tasks p = t :: rest →
  ∃ p', process_task now p = (Ok t, p') ∧ rtc participant_step p p' ∧
    active p' ∧ locked_chunks p' = ∅ ∧ pending_tasks p' = [] ∧ assigned_tasks p' = rest ∧
    completed_tasks p' = completed_tasks p ++ [t] ∧ disposing_tasks p' = disposing_tasks p.
Proof.
  intros Hp Hact Hl Hpend Ha.
  pose proof (wf_one_task_per_chunk p Hp) as Hnd. unfold all_tasks in Hnd.
  rewrite Ha, Hpend in Hnd. simpl in Hnd. apply NoDup_cons in Hnd as [Hnot _].
  rewrite fmap_app, not_elem_of_app in Hnot. destruct Hnot as [Hnr Hnc].
  apply on_chunk_nil in Hnr, Hnc.
  pose proof (pop_task_ok now p t rest Hact Ha) as H1. rewrite Hpend in H1. simpl in H1.
  set (p1 := set_pending_tasks _ _) in H1.
  eassert (acquired_lock (chunk_id t) now p1 = (Ok tt, _)) as H2.
  { apply acquired_lock_ok; simpl; [done | by rewrite Hl | | done].
    by apply on_chunk_elem, list_elem_of_singleton. }
  set (p2 := set_locked_chunks _ _) in H2.
  eassert (completed_task t now p2 = (Ok tt, _)) as H3.
  { eapply completed_task_ok; simpl; [done | by rewrite lookup_insert_eq | | | done].
    - by apply on_chunk_nil_notin.
    - by apply list_elem_of_singleton. }
  eexists. split; [unfold process_task, bind; rewrite H1, H2, H3; reflexivity|].
  split.
  { eapply rtc_l; [by eapply step_pop|]. eapply rtc_l; [by eapply step_lock|].
    eapply rtc_once. by eapply step_complete. }
  split; [done|]. simpl. rewrite Hl, delete_insert_id by done. split; [done|].
  unfold remove_task. rewrite filter_cons_False, filter_nil by naive_solver. done.
Qed.

Lemma process_tasks_ok now tasks p :
  participant_wf p → active p → locked_chunks p = ∅ → pending_tasks p = [] →
  assigned_tasks p = tasks →
  ∃ p', process_tasks (length tasks) now p = (Ok tasks, p') ∧ rtc participant_step p p' ∧
    active p' ∧ locked_chunks p' = ∅ ∧ pending_tasks p' = [] ∧ assigned_tasks p' = [] ∧
    completed_tasks p' = completed_tasks p ++ tasks ∧ disposing_tasks p' = disposing_tasks p.
Proof.
  revert p. induction tasks as [|t tasks IH]; intros p Hp Hact Hl Hpend Ha.
  - exists p. rewrite app_nil_r. split; [done|]. split; [apply rtc_refl|]. done.
  - destruct (process_task_ok now p t tasks) as (p1 & Hrun1 & Hr1 & ? & ? & ? & ? & Hc1 & Hd1); [done..|].
    destruct (IH p1) as (p2 & Hrun2 & Hr2 & ? & ? & ? & ? & Hc2 & Hd2); [|done..|].
    { by eapply participant_reachable. }
    exists p2. simpl. unfold bind. rewrite Hrun1, Hrun2. split; [done|].
    split; [by etrans|]. repeat (split; [done|]).
    rewrite Hc2, Hc1, Hd2, <-app_assoc. done.
Qed.

(** ** Properties *)

(** No task is lost or duplicated while a contributor works: through any
    sequence of pops, locks, completions, rollbacks, drops and finishes, the
    assigned, pending and completed tasks together stay the tasks it was given,
    at most one per chunk, and every lock it holds is on the chunk of one of
    its pending tasks. *)
Theorem participant_tasks_conserved tasks now p0 p p' :
  pi_is_contributor p0 = true → NoDup (chunk_id <$> tasks) →
  start tasks now p0 = (Ok tt, p) → rtc participant_step p p' →
  all_tasks p' ≡ₚ tasks ∧ participant_wf p'.
Proof.
  intros Hc Hnd (Hp & Hall & _)%start_participant_wf Hr; [|done..].
  destruct (participant_reachable p p' Hp Hr) as (? & Hperm & _). split; [|done].
  by rewrite Hperm, Hall.
Qed.

Definition p_new : ParticipantInfo := participant_info_new (Contributor "p") 1 10 0 100.
Definition p_tasks : list Task := [MkTask 0 1; MkTask 1 2].
Definition p_started : ParticipantInfo := (start p_tasks 100 p_new).2.

Lemma participant_tasks_conserved_witness :
  all_tasks (pop_task 105 p_started).2 ≡ₚ p_tasks ∧ participant_wf (pop_task 105 p_started).2.
Proof.
  apply (participant_tasks_conserved p_tasks 100 p_new p_started).
  - reflexivity.
  - apply (bool_decide_unpack _). vm_compute. exact I.
  - reflexivity.
  - apply rtc_once. eapply (step_pop 105 (MkTask 0 1)). reflexivity.
Defined.

(** A contributor that pops, locks and completes the tasks of its list in
    order runs through all of them without an error and can then finish the
    round, with exactly these tasks completed, in order. *)
Theorem participant_runs_to_completion tasks now p0 :
  pi_is_contributor p0 = true → NoDup (chunk_id <$> tasks) → tasks ≠ [] →
  (∃ p, start tasks now p0 = (Ok tt, p)) →
  ∃ p', (start tasks now ;;; process_tasks (length tasks) now ;;; finish now) p0 = (Ok tt, p') ∧
    completed_tasks p' = tasks ∧ is_finished p' = true.
Proof.
  intros Hc Hnd Hne [p Hs].
  pose proof (start_inv _ _ _ _ _ Hs) as (-> & _ & _ & _ & _ & Hl & _ & Hpend & Hcomp & Hdis & _).
  destruct (start_participant_wf _ _ _ _ _ Hc Hnd Hs) as (Hp & _ & Hact & Hid).
  destruct (process_tasks_ok now tasks _ Hp Hact) as (p1 & H1 & Hr & Hact1 & Hl1 & Hp1 & Ha1 & Hc1 & Hd1);
    [done..|].
  simpl in Hc1, Hd1. rewrite Hcomp in Hc1. simpl in Hc1. rewrite Hdis in Hd1.
  assert (finish now p1 = (Ok tt, set_finished_at (Some now) (set_last_seen now p1))) as H2.
  { unfold finish. rewrite while_active_ok by done. unfold check.
    rewrite Hl1, Ha1, Hp1, Hd1, Hc1. simpl. destruct tasks; [done|]. by rewrite andb_false_r. }
  exists (set_finished_at (Some now) (set_last_seen now p1)).
  split; [unfold bind at 1; rewrite Hs; unfold bind; by rewrite H1, H2|]. split; [done|].
  destruct Hact1 as ([s1 Hs1] & Hd & _).
  unfold is_finished. simpl. rewrite Hs1, Hd, Hl1, Ha1, Hp1, Hd1, Hc1. simpl.
  destruct tasks; [done|]. by rewrite andb_false_r.
Qed.

Lemma participant_runs_to_completion_witness :
  ∃ p', (start p_tasks 100 ;;; process_tasks 2 100 ;;; finish 100) p_new = (Ok tt, p') ∧
    completed_tasks p' = p_tasks ∧ is_finished p' = true.
Proof.
  apply (participant_runs_to_completion p_tasks 100 p_new).
  - reflexivity.
  - apply (bool_decide_unpack _). vm_compute. exact I.
  - done.
  - by eexists.
Defined.

(** Dropped and finished are terminal, and being started is required:
    outside of an active round every operation on a participant's tasks and
    locks reports the reason and changes nothing. *)
Lemma inactive_participant_is_frozen p e t c k now :
  activity_error p = Some e →
  pop_task now p = (Err e, p) ∧
  push_front_task t now p = (Err e, p) ∧
  acquired_lock c now p = (Err e, p) ∧
  rollback_locked_task t now p = (Err e, p) ∧
  rollback_pending_task t now p = (Err e, p) ∧
  completed_task t now p = (Err e, p) ∧
  dispose_task c k now p = (Err e, p) ∧
  finish now p = (Err e, p).
Proof. intros He. repeat split; by apply while_active_error. Qed.

(** Rolling a popped task back undoes the pop: from the state after
    [pop_task], [rollback_pending_task] restores the task lists. *)
Lemma rollback_undoes_pop now now' p t p1 :
  participant_wf p → (∀ l, locked_chunks p !! chunk_id t ≠ Some l) → pop_task now p = (Ok t, p1) →
  rollback_pending_task t now' p1 = (Ok tt, set_last_seen now' p).
Proof.
  intros Hp Hl Hpop. pose proof (pop_task_inv _ _ _ _ Hpop) as (Hact & rest & Ha & Heq).
  assert (participant_wf p1) as Hp1 by (eapply (participant_reachable p), rtc_once; eauto using step_pop).
  pose proof (wf_one_task_per_chunk p1 Hp1) as Hnd.
  assert (t ∈ pending_tasks p1) as Ht by (rewrite Heq; simpl; set_solver).
  pose proof (participant_wf_NoDup p1 Hp1) as Hnd1. unfold all_tasks in Hnd1, Hnd.
  rewrite !NoDup_app in Hnd1. rewrite !fmap_app, !NoDup_app in Hnd.
  destruct Hnd as (_ & Hdisj & _ & Hdisj2 & _).
  assert (chunk_id t ∉ chunk_id <$> completed_tasks p1) as Hcomp.
  { apply Hdisj2, list_elem_of_fmap. eauto. }
  assert (t ∉ pending_tasks p) as Htp.
  { pose proof (participant_wf_pending_NoDup p1 Hp1) as Hpn. rewrite Heq in Hpn. simpl in Hpn.
    apply NoDup_app in Hpn as (_ & Hpn & _). intros ?. eapply Hpn; [done|]. by apply list_elem_of_singleton. }
  unfold rollback_pending_task. rewrite while_active_ok by by rewrite Heq.
  unfold check, contains_key, while_working_on, check.
  rewrite (on_chunk_nil _ _ Hcomp).
  destruct (on_chunk (chunk_id t) (pending_tasks p1)) eqn:E; [by apply on_chunk_elem in E|].
  rewrite Heq. simpl. destruct (locked_chunks p !! chunk_id t) as [lk|] eqn:El; [by destruct (Hl lk)|].
  simpl. rewrite !andb_false_r. unfold bind, modify. unfold push_front_task.
  rewrite while_active_ok by done. unfold check, contains_key, contains. simpl.
  rewrite El. simpl. rewrite andb_false_r.
  assert (remove_task t (pending_tasks p ++ [t]) = pending_tasks p) as ->.
  { unfold remove_task. rewrite filter_app, filter_cons_False, filter_nil, app_nil_r by naive_solver.
    by apply remove_task_not_in. }
  subst p1. simpl in *.
  rewrite !bool_decide_eq_false_2; [destruct p; simpl in *; by subst| | |].
  - intros ?. apply Hcomp, list_elem_of_fmap. eauto.
  - done.
  - intros Hin. destruct Hnd1 as (_ & Hx & _). eapply Hx; [done|]. set_solver.
Qed.
