(* ===== verification/RoundMetrics.v ===== *)
(** * Metrics of a round

    [RoundMetrics] of [phase1-coordinator/src/coordinator_state.rs], and the
    arithmetic of its averages. *)

From S2P Require Import Prelude Task Participant.
(** What the state uses of the [time] crate: [OffsetDateTime::unix_timestamp]
    and [Duration::seconds].  Instants and durations are nanoseconds. *)
Class TimeApi := {
  unix_timestamp : Z → Z;
  duration_seconds : Z → Z;
}.

(** Seconds, rounded down. *)
Definition time_api : TimeApi := {|
  unix_timestamp t := (t / 1000000000)%Z;
  duration_seconds s := (s * 1000000000)%Z;
|}.

(** The start and the end of a task, in seconds. *)
Definition TaskTimer := gmap Task (Z * option Z).

Record RoundMetrics := MkRoundMetrics {
  number_of_contributors : N;
  number_of_verifiers : N;
  is_round_aggregated : bool;
  task_timer : gmap Participant TaskTimer;
  seconds_per_task : gmap Participant N;
  contributor_average_per_task : option N;
  verifier_average_per_task : option N;
  started_aggregation_at : option Z;
  finished_aggregation_at : option Z;
  estimated_finish_time : option N;
  estimated_aggregation_time : option N;
  estimated_wait_time : option N;
  next_round_after : option Z;
}.

Definition round_metrics_default : RoundMetrics :=
  MkRoundMetrics 0 0 false ∅ ∅ None None None None None None None None.

(** Field assignments. *)
Definition set_is_round_aggregated (v : bool) (m : RoundMetrics) : RoundMetrics :=
  MkRoundMetrics (number_of_contributors m) (number_of_verifiers m) v (task_timer m) (seconds_per_task m) (contributor_average_per_task m) (verifier_average_per_task m) (started_aggregation_at m) (finished_aggregation_at m) (estimated_finish_time m) (estimated_aggregation_time m) (estimated_wait_time m) (next_round_after m).
Definition set_task_timer (v : gmap Participant TaskTimer) (m : RoundMetrics) : RoundMetrics :=
  MkRoundMetrics (number_of_contributors m) (number_of_verifiers m) (is_round_aggregated m) v (seconds_per_task m) (contributor_average_per_task m) (verifier_average_per_task m) (started_aggregation_at m) (finished_aggregation_at m) (estimated_finish_time m) (estimated_aggregation_time m) (estimated_wait_time m) (next_round_after m).
Definition set_seconds_per_task (v : gmap Participant N) (m : RoundMetrics) : RoundMetrics :=
  MkRoundMetrics (number_of_contributors m) (number_of_verifiers m) (is_round_aggregated m) (task_timer m) v (contributor_average_per_task m) (verifier_average_per_task m) (started_aggregation_at m) (finished_aggregation_at m) (estimated_finish_time m) (estimated_aggregation_time m) (estimated_wait_time m) (next_round_after m).
Definition set_contributor_average_per_task (v : option N) (m : RoundMetrics) : RoundMetrics :=
  MkRoundMetrics (number_of_contributors m) (number_of_verifiers m) (is_round_aggregated m) (task_timer m) (seconds_per_task m) v (verifier_average_per_task m) (started_aggregation_at m) (finished_aggregation_at m) (estimated_finish_time m) (estimated_aggregation_time m) (estimated_wait_time m) (next_round_after m).
Definition set_verifier_average_per_task (v : option N) (m : RoundMetrics) : RoundMetrics :=
  MkRoundMetrics (number_of_contributors m) (number_of_verifiers m) (is_round_aggregated m) (task_timer m) (seconds_per_task m) (contributor_average_per_task m) v (started_aggregation_at m) (finished_aggregation_at m) (estimated_finish_time m) (estimated_aggregation_time m) (estimated_wait_time m) (next_round_after m).
Definition set_started_aggregation_at (v : option Z) (m : RoundMetrics) : RoundMetrics :=
  MkRoundMetrics (number_of_contributors m) (number_of_verifiers m) (is_round_aggregated m) (task_timer m) (seconds_per_task m) (contributor_average_per_task m) (verifier_average_per_task m) v (finished_aggregation_at m) (estimated_finish_time m) (estimated_aggregation_time m) (estimated_wait_time m) (next_round_after m).
Definition set_finished_aggregation_at (v : option Z) (m : RoundMetrics) : RoundMetrics :=
  MkRoundMetrics (number_of_contributors m) (number_of_verifiers m) (is_round_aggregated m) (task_timer m) (seconds_per_task m) (contributor_average_per_task m) (verifier_average_per_task m) (started_aggregation_at m) v (estimated_finish_time m) (estimated_aggregation_time m) (estimated_wait_time m) (next_round_after m).
Definition set_estimated_finish_time (v : option N) (m : RoundMetrics) : RoundMetrics :=
  MkRoundMetrics (number_of_contributors m) (number_of_verifiers m) (is_round_aggregated m) (task_timer m) (seconds_per_task m) (contributor_average_per_task m) (verifier_average_per_task m) (started_aggregation_at m) (finished_aggregation_at m) v (estimated_aggregation_time m) (estimated_wait_time m) (next_round_after m).
Definition set_estimated_aggregation_time (v : option N) (m : RoundMetrics) : RoundMetrics :=
  MkRoundMetrics (number_of_contributors m) (number_of_verifiers m) (is_round_aggregated m) (task_timer m) (seconds_per_task m) (contributor_average_per_task m) (verifier_average_per_task m) (started_aggregation_at m) (finished_aggregation_at m) (estimated_finish_time m) v (estimated_wait_time m) (next_round_after m).
Definition set_estimated_wait_time (v : option N) (m : RoundMetrics) : RoundMetrics :=
  MkRoundMetrics (number_of_contributors m) (number_of_verifiers m) (is_round_aggregated m) (task_timer m) (seconds_per_task m) (contributor_average_per_task m) (verifier_average_per_task m) (started_aggregation_at m) (finished_aggregation_at m) (estimated_finish_time m) (estimated_aggregation_time m) v (next_round_after m).
Definition set_next_round_after (v : option Z) (m : RoundMetrics) : RoundMetrics :=
  MkRoundMetrics (number_of_contributors m) (number_of_verifiers m) (is_round_aggregated m) (task_timer m) (seconds_per_task m) (contributor_average_per_task m) (verifier_average_per_task m) (started_aggregation_at m) (finished_aggregation_at m) (estimated_finish_time m) (estimated_aggregation_time m) (estimated_wait_time m) v.

(** ** Timers *)

Definition start_timer `{TimeApi} (p : Participant) (t : Task) (now : Z) (m : RoundMetrics) : RoundMetrics :=
  let updated_tasks := default ∅ (task_timer m !! p) in
  set_task_timer (<[p := <[t := (unix_timestamp now, None)]> updated_tasks]> (task_timer m)) m.

Definition stop_timer `{TimeApi} (p : Participant) (t : Task) (now : Z) (m : RoundMetrics) : RoundMetrics :=
  match task_timer m !! p with
  | None => m
  | Some tasks =>
      match tasks !! t with
      | None => m
      | Some (s, e) =>
          let e' := match e with None => Some (unix_timestamp now) | Some _ => e end in
          set_task_timer (<[p := <[t := (s, e')]> tasks]> (task_timer m)) m
      end
  end.

(** ** Averages *)

Section averages.
Context `{HashOrder}.

(** Durations of the finished tasks, in seconds. *)
Definition timed_tasks (tasks : TaskTimer) : list N :=
  omap (λ '(_, (s, e)),
    match e with
    | Some e => if (s <? e)%Z then Some (Z.to_N (e - s)) else None
    | None => None
    end) (hash_iter tasks).

Definition u64_sum (l : list N) : N := foldl u64_add 0%N l.

Definition average_seconds (tasks : TaskTimer) : option N :=
  let timed := timed_tasks tasks in
  if (0 <? length timed)%nat
  then Some (u64_sum timed / N.of_nat (length timed))%N
  else None.

Record Averages := MkAverages {
  cumulative_contributor_averages : N;
  cumulative_verifier_averages : N;
  number_of_contributor_averages : N;
  number_of_verifier_averages : N;
}.

(** One participant of the loop over [task_timer]. *)
Definition average_step (acc : RoundMetrics * Averages) (entry : Participant * TaskTimer)
    : RoundMetrics * Averages :=
  let '(m, a) := acc in
  let '(p, tasks) := entry in
  match average_seconds tasks with
  | None => (m, a)
  | Some average =>
      let m := set_seconds_per_task (<[p := average]> (seconds_per_task m)) m in
      match p with
      | Contributor _ =>
          (m, MkAverages (u64_add (cumulative_contributor_averages a) average)
                (cumulative_verifier_averages a)
                (u64_add (number_of_contributor_averages a) 1) (number_of_verifier_averages a))
      | Verifier _ =>
          (m, MkAverages (cumulative_contributor_averages a)
                (u64_add (cumulative_verifier_averages a) average)
                (number_of_contributor_averages a) (u64_add (number_of_verifier_averages a) 1))
      end
  end.

(** The averages per contributor and verifier task, recorded in the metrics
    when there is any timed task, and returned (0 otherwise). *)
Definition update_averages (m : RoundMetrics) : RoundMetrics * N * N :=
  let '(m, a) := foldl average_step (m, MkAverages 0 0 0 0) (hash_iter (task_timer m)) in
  let '(m, contributor_average) :=
    if (0 <? number_of_contributor_averages a)%N then
      let average := (cumulative_contributor_averages a / number_of_contributor_averages a)%N in
      (set_contributor_average_per_task (Some average) m, average)
    else (m, 0%N) in
  let '(m, verifier_average) :=
    if (0 <? number_of_verifier_averages a)%N then
      let average := (cumulative_verifier_averages a / number_of_verifier_averages a)%N in
      (set_verifier_average_per_task (Some average) m, average)
    else (m, 0%N) in
  (m, contributor_average, verifier_average).
End averages.
