(* ===== verification/CoordinatorState.v ===== *)
(** * The state of the coordinator

    [CoordinatorState] of [phase1-coordinator/src/coordinator_state.rs]: its
    record, its queries, and the operations on the queue, on the tasks and
    locks of the participants of the current round, on the pending
    verifications and on the round metrics.  The transitions between rounds are
    in RoundTransition.v, dropping and banning in DropParticipant.v.

    A method reads its [TimeSource] as the argument [now]: one reading per
    operation, as with [MockTimeSource].  Logging is left out. *)

From S2P Require Import Prelude Task Participant Errors Environment ParticipantInfo RoundMetrics.
Inductive CoordinatorStatus := Initializing | Initialized | Precommit | Commit | Rollback.

#[export] Instance CoordinatorStatus_eq_dec : EqDecision CoordinatorStatus.
Proof. solve_decision. Defined.

(** [std::net::IpAddr], used as a key only. *)
Inductive IpAddr := V4 (address : N) | V6 (address : N).

#[export] Instance IpAddr_eq_dec : EqDecision IpAddr.
Proof. solve_decision. Defined.
#[export] Instance IpAddr_countable : Countable IpAddr.
Proof.
  refine (inj_countable' (λ p, match p with V4 a => (true, a) | V6 a => (false, a) end)
    (λ x : bool * N, if x.1 then V4 x.2 else V6 x.2) _); by intros [].
Defined.

(** The reliability score, the assigned round, the time last seen and the time
    of joining of a participant in the queue. *)
Record QueueEntry := MkQueueEntry {
  q_reliability : N;
  q_round : option N;
  q_last_seen : Z;
  q_joined : Z;
}.

Record CoordinatorState := MkCoordinatorState {
  environment : Environment;
  status : CoordinatorStatus;
  queue : gmap Participant QueueEntry;
  next : gmap Participant ParticipantInfo;
  current_metrics : option RoundMetrics;
  current_round_height : option N;
  current_contributors : gmap Participant ParticipantInfo;
  contributor_ips : gmap IpAddr (gset Participant);
  current_verifiers : gmap Participant ParticipantInfo;
  pending_verification : gmap Task Participant;
  finished_contributors : gmap N (gmap Participant ParticipantInfo);
  finished_verifiers : gmap N (gmap Participant ParticipantInfo);
  dropped : list ParticipantInfo;
  banned : gset Participant;
  manual_lock : bool;
}.

(** Field assignments. *)
Definition set_status (v : CoordinatorStatus) (s : CoordinatorState) : CoordinatorState :=
  MkCoordinatorState (environment s) v (queue s) (next s) (current_metrics s) (current_round_height s) (current_contributors s) (contributor_ips s) (current_verifiers s) (pending_verification s) (finished_contributors s) (finished_verifiers s) (dropped s) (banned s) (manual_lock s).
Definition set_queue (v : gmap Participant QueueEntry) (s : CoordinatorState) : CoordinatorState :=
  MkCoordinatorState (environment s) (status s) v (next s) (current_metrics s) (current_round_height s) (current_contributors s) (contributor_ips s) (current_verifiers s) (pending_verification s) (finished_contributors s) (finished_verifiers s) (dropped s) (banned s) (manual_lock s).
Definition set_next (v : gmap Participant ParticipantInfo) (s : CoordinatorState) : CoordinatorState :=
  MkCoordinatorState (environment s) (status s) (queue s) v (current_metrics s) (current_round_height s) (current_contributors s) (contributor_ips s) (current_verifiers s) (pending_verification s) (finished_contributors s) (finished_verifiers s) (dropped s) (banned s) (manual_lock s).
Definition set_current_metrics (v : option RoundMetrics) (s : CoordinatorState) : CoordinatorState :=
  MkCoordinatorState (environment s) (status s) (queue s) (next s) v (current_round_height s) (current_contributors s) (contributor_ips s) (current_verifiers s) (pending_verification s) (finished_contributors s) (finished_verifiers s) (dropped s) (banned s) (manual_lock s).
Definition set_current_round_height (v : option N) (s : CoordinatorState) : CoordinatorState :=
  MkCoordinatorState (environment s) (status s) (queue s) (next s) (current_metrics s) v (current_contributors s) (contributor_ips s) (current_verifiers s) (pending_verification s) (finished_contributors s) (finished_verifiers s) (dropped s) (banned s) (manual_lock s).
Definition set_current_contributors (v : gmap Participant ParticipantInfo) (s : CoordinatorState) : CoordinatorState :=
  MkCoordinatorState (environment s) (status s) (queue s) (next s) (current_metrics s) (current_round_height s) v (contributor_ips s) (current_verifiers s) (pending_verification s) (finished_contributors s) (finished_verifiers s) (dropped s) (banned s) (manual_lock s).
Definition set_contributor_ips (v : gmap IpAddr (gset Participant)) (s : CoordinatorState) : CoordinatorState :=
  MkCoordinatorState (environment s) (status s) (queue s) (next s) (current_metrics s) (current_round_height s) (current_contributors s) v (current_verifiers s) (pending_verification s) (finished_contributors s) (finished_verifiers s) (dropped s) (banned s) (manual_lock s).
Definition set_current_verifiers (v : gmap Participant ParticipantInfo) (s : CoordinatorState) : CoordinatorState :=
  MkCoordinatorState (environment s) (status s) (queue s) (next s) (current_metrics s) (current_round_height s) (current_contributors s) (contributor_ips s) v (pending_verification s) (finished_contributors s) (finished_verifiers s) (dropped s) (banned s) (manual_lock s).
Definition set_pending_verification (v : gmap Task Participant) (s : CoordinatorState) : CoordinatorState :=
  MkCoordinatorState (environment s) (status s) (queue s) (next s) (current_metrics s) (current_round_height s) (current_contributors s) (contributor_ips s) (current_verifiers s) v (finished_contributors s) (finished_verifiers s) (dropped s) (banned s) (manual_lock s).
Definition set_finished_contributors (v : gmap N (gmap Participant ParticipantInfo)) (s : CoordinatorState) : CoordinatorState :=
  MkCoordinatorState (environment s) (status s) (queue s) (next s) (current_metrics s) (current_round_height s) (current_contributors s) (contributor_ips s) (current_verifiers s) (pending_verification s) v (finished_verifiers s) (dropped s) (banned s) (manual_lock s).
Definition set_finished_verifiers (v : gmap N (gmap Participant ParticipantInfo)) (s : CoordinatorState) : CoordinatorState :=
  MkCoordinatorState (environment s) (status s) (queue s) (next s) (current_metrics s) (current_round_height s) (current_contributors s) (contributor_ips s) (current_verifiers s) (pending_verification s) (finished_contributors s) v (dropped s) (banned s) (manual_lock s).
Definition set_dropped (v : list ParticipantInfo) (s : CoordinatorState) : CoordinatorState :=
  MkCoordinatorState (environment s) (status s) (queue s) (next s) (current_metrics s) (current_round_height s) (current_contributors s) (contributor_ips s) (current_verifiers s) (pending_verification s) (finished_contributors s) (finished_verifiers s) v (banned s) (manual_lock s).
Definition set_banned (v : gset Participant) (s : CoordinatorState) : CoordinatorState :=
  MkCoordinatorState (environment s) (status s) (queue s) (next s) (current_metrics s) (current_round_height s) (current_contributors s) (contributor_ips s) (current_verifiers s) (pending_verification s) (finished_contributors s) (finished_verifiers s) (dropped s) v (manual_lock s).
Definition set_manual_lock (v : bool) (s : CoordinatorState) : CoordinatorState :=
  MkCoordinatorState (environment s) (status s) (queue s) (next s) (current_metrics s) (current_round_height s) (current_contributors s) (contributor_ips s) (current_verifiers s) (pending_verification s) (finished_contributors s) (finished_verifiers s) (dropped s) (banned s) v.

Definition coordinator_state_new (env : Environment) : CoordinatorState :=
  MkCoordinatorState env Initializing ∅ ∅ None None ∅ ∅ ∅ ∅ ∅ ∅ [] ∅ false.

(** The methods of the coordinator state borrow it mutably. *)
Notation state_method := (M CoordinatorError CoordinatorState).

(** Both orders of [Instant]s and heights default to zero when unset. *)
Definition current_round_height_or_zero (s : CoordinatorState) : N :=
  default 0%N (current_round_height s).

(** The participants that finished the given round. *)
Definition finished_contributors_of (h : N) (s : CoordinatorState) : gmap Participant ParticipantInfo :=
  default ∅ (finished_contributors s !! h).

(** ** Queries *)

Definition is_duplicate_ip (ip : IpAddr) (s : CoordinatorState) : bool :=
  contains_key ip (contributor_ips s).

Definition is_banned_participant (p : Participant) (s : CoordinatorState) : bool :=
  bool_decide (p ∈ banned s).

Definition is_queue_contributor (p : Participant) (s : CoordinatorState) : bool :=
  is_contributor p && contains_key p (queue s).

Definition is_authorized_contributor (p : Participant) (s : CoordinatorState) : bool :=
  is_contributor p && negb (is_banned_participant p s).

Definition is_current_contributor (p : Participant) (s : CoordinatorState) : bool :=
  is_authorized_contributor p s && contains_key p (current_contributors s).

(** [self.dropped_participants().contains(info)] holds of the [info] that was
    found in the same list. *)
Definition is_dropped_participant (p : Participant) (s : CoordinatorState)
    : outcome CoordinatorError bool :=
  match list_find (λ i, pi_id i = p) (dropped s) with
  | None => Err ParticipantMissing
  | Some (_, i) => Ok (existsb (λ j, participant_info_eqb j i) (dropped s))
  end.

Definition is_finished_contributor (p : Participant) (s : CoordinatorState) : bool :=
  is_contributor p && contains_key p (finished_contributors_of (current_round_height_or_zero s) s).

Definition is_coordinator_contributor (p : Participant) (s : CoordinatorState) : bool :=
  is_contributor p && contains (coordinator_contributors (environment s)) p.

Definition is_coordinator_verifier (p : Participant) (s : CoordinatorState) : bool :=
  is_verifier p && contains (coordinator_verifiers (environment s)) p.

Definition number_of_queue_contributors (s : CoordinatorState) : nat :=
  size (filter (λ kv, is_contributor kv.1 = true) (queue s)).

Definition queue_contributor_info (p : Participant) (s : CoordinatorState) : option QueueEntry :=
  queue s !! p.

Definition queue_contributors `{HashOrder} (s : CoordinatorState) : list (Participant * QueueEntry) :=
  filter (λ kv, is_contributor kv.1 = true) (hash_iter (queue s)).

Definition current_participant_info (p : Participant) (s : CoordinatorState) : option ParticipantInfo :=
  match p with
  | Contributor _ => current_contributors s !! p
  | Verifier _ => current_verifiers s !! p
  end.

Definition is_current_round_finished (s : CoordinatorState) : bool :=
  map_is_empty (pending_verification s) && map_is_empty (current_contributors s).

Definition is_current_round_aggregating (s : CoordinatorState) : bool :=
  match current_metrics s with
  | Some m => negb (is_round_aggregated m) && is_some (started_aggregation_at m)
              && is_none (finished_aggregation_at m)
  | None => false
  end.

Definition is_current_round_aggregated (s : CoordinatorState) : bool :=
  match current_metrics s with
  | Some m => is_round_aggregated m && is_some (started_aggregation_at m)
              && is_some (finished_aggregation_at m)
  | None => false
  end.

(** ** The queue *)

Definition zero_queue_reliability (p : Participant) (s : CoordinatorState) : CoordinatorState :=
  match queue s !! p with
  | Some e => set_queue (<[p := MkQueueEntry 0 (q_round e) (q_last_seen e) (q_joined e)]> (queue s)) s
  | None => s
  end.
Definition zero_current_reliability (p : Participant) (s : CoordinatorState) : CoordinatorState :=
  match current_contributors s !! p with
  | Some i => set_current_contributors (<[p := set_reliability 0 i]> (current_contributors s)) s
  | None => s
  end.
Definition zero_next_reliability (p : Participant) (s : CoordinatorState) : CoordinatorState :=
  match next s !! p with
  | Some i => set_next (<[p := set_reliability 0 i]> (next s)) s
  | None => s
  end.

(** One participant of the loop of [zero_duplicate_ips]. *)
Definition zero_reliability (s : CoordinatorState) (p : Participant) : CoordinatorState :=
  zero_next_reliability p (zero_current_reliability p (zero_queue_reliability p s)).

(** The result does not depend on the order of the set. *)
Definition zero_duplicate_ips (ip : IpAddr) (s : CoordinatorState) : CoordinatorState :=
  match contributor_ips s !! ip with
  | Some participants => foldl zero_reliability s (elements participants)
  | None => s
  end.

Definition add_to_queue (participant : Participant) (participant_ip : option IpAddr)
    (reliability_score : N) (now : Z) : state_method unit :=
  bail_if is_banned_participant participant with ParticipantBanned ;;;
  bail_if (λ s, contains_key participant (queue s)) with ParticipantAlreadyAdded ;;;
  bail_if (λ s, contains_key participant (next s)) with ParticipantAlreadyAdded ;;;
  bail_if (λ s, is_contributor participant && negb (is_authorized_contributor participant s))
    with ParticipantUnauthorized ;;;
  bail_if (λ s, is_contributor participant
                && negb (allow_current_contributors_in_queue (environment s))
                && contains_key participant (current_contributors s))
    with ParticipantInCurrentRoundCannotJoinQueue ;;;
  bail_if (λ _, is_verifier participant) with ExpectedContributor ;;;
  let! zeroing := gets (λ s, negb (disable_reliability_zeroing (environment s))) in
  let! score :=
    match participant_ip with
    | Some ip =>
        if zeroing then
          let! duplicate := gets (is_duplicate_ip ip) in
          (if duplicate then modify (zero_duplicate_ips ip) else ret tt) ;;;
          modify (λ s,
            let participants := default ∅ (contributor_ips s !! ip) in
            set_contributor_ips (<[ip := {[participant]} ∪ participants]> (contributor_ips s)) s) ;;;
          ret (if duplicate then 0%N else reliability_score)
        else ret reliability_score
    | None => ret reliability_score
    end in
  modify (λ s, set_queue (<[participant := MkQueueEntry score None now now]> (queue s)) s).

Definition remove_from_queue (participant : Participant) : state_method unit :=
  bail_if (λ s, contains_key participant (next s)) with ParticipantAlreadyPrecommitted ;;;
  bail_if (λ s, negb (contains_key participant (queue s))) with ParticipantMissing ;;;
  modify (λ s, set_queue (delete participant (queue s)) s).

(** ** Tasks of the participants of the round *)

(** [self.current_contributors.get_mut(p)] followed by a method of the value. *)
Definition with_contributor {A} (p : Participant) (m : method A) : state_method A := λ s,
  match current_contributors s !! p with
  | Some info =>
      let '(o, info') := m info in
      (o, set_current_contributors (<[p := info']> (current_contributors s)) s)
  | None => (Err (ParticipantNotFound p), s)
  end.
Definition with_verifier {A} (p : Participant) (m : method A) : state_method A := λ s,
  match current_verifiers s !! p with
  | Some info =>
      let '(o, info') := m info in
      (o, set_current_verifiers (<[p := info']> (current_verifiers s)) s)
  | None => (Err (ParticipantNotFound p), s)
  end.

(** [self.current_participant_info_mut(p)] followed by a method of the value. *)
Definition with_participant {A} (p : Participant) (m : method A) : state_method A :=
  match p with
  | Contributor _ => with_contributor p m
  | Verifier _ => with_verifier p m
  end.

Definition chunk_id_invalid (c : N) (s : CoordinatorState) : bool :=
  (number_of_chunks (environment s) <? c)%N.

Definition start_task_timer `{TimeApi} (p : Participant) (t : Task) (now : Z) (s : CoordinatorState)
    : CoordinatorState :=
  match current_metrics s with
  | Some m => set_current_metrics (Some (start_timer p t now m)) s
  | None => s
  end.

Definition stop_task_timer `{TimeApi} (p : Participant) (t : Task) (now : Z) (s : CoordinatorState)
    : CoordinatorState :=
  match current_metrics s with
  | Some m => set_current_metrics (Some (stop_timer p t now m)) s
  | None => s
  end.

Definition fetch_task `{TimeApi} (participant : Participant) (now : Z) : state_method Task :=
  match participant with
  | Verifier _ => fail ExpectedContributor
  | Contributor _ =>
      let! limit := gets (λ s, contributor_lock_chunk_limit (environment s)) in
      let! task := with_contributor participant (
        bail_if (λ i, negb (size (locked_chunks i) <? limit)%nat) with ParticipantHasLockedMaximumChunks ;;;
        pop_task now) in
      modify (start_task_timer participant task now) ;;;
      ret task
  end.

Definition acquired_lock (participant : Participant) (c : N) (now : Z) : state_method unit :=
  bail_if chunk_id_invalid c with ChunkIdInvalid ;;;
  match participant with
  | Contributor _ => with_contributor participant (ParticipantInfo.acquired_lock c now)
  | Verifier _ => fail ExpectedContributor
  end.

Definition rollback_pending_task (participant : Participant) (t : Task) (now : Z) : state_method unit :=
  bail_if chunk_id_invalid (chunk_id t) with ChunkIdInvalid ;;;
  with_participant participant (ParticipantInfo.rollback_pending_task t now).

Definition rollback_locked_task (participant : Participant) (t : Task) (now : Z) : state_method unit :=
  bail_if chunk_id_invalid (chunk_id t) with ChunkIdInvalid ;;;
  with_participant participant (ParticipantInfo.rollback_locked_task t now).

(** The task on a locked chunk in one of the task lists of a participant. *)
Definition lookup_task (get_tasks : ParticipantInfo → list Task) (participant : Participant) (c : N)
    (s : CoordinatorState) : outcome CoordinatorError (option Task) :=
  if chunk_id_invalid c s then Err ChunkIdInvalid else
  try! info := ok_or (current_participant_info participant s) (ParticipantNotFound participant) in
  if contains_key c (locked_chunks info) then
    match on_chunk c (get_tasks info) with
    | [] => Ok None
    | [t] => Ok (Some t)
    | _ => Err ParticipantLockedChunkWithManyContributions
    end
  else Err ParticipantDidntLockChunkId.

Definition lookup_pending_task := lookup_task pending_tasks.
Definition lookup_disposing_task := lookup_task disposing_tasks.

Definition disposed_task (participant : Participant) (t : Task) (now : Z) : state_method unit :=
  bail_if chunk_id_invalid (chunk_id t) with ChunkIdInvalid ;;;
  with_participant participant (dispose_task (chunk_id t) (contribution_id t) now).

Definition add_pending_verification (t : Task) : state_method unit :=
  bail_if chunk_id_invalid (chunk_id t) with ChunkIdInvalid ;;;
  bail_if (λ s, contains_key t (pending_verification s)) with ChunkIdAlreadyAdded ;;;
  let! first := gets (λ s, head (coordinator_verifiers (environment s))) in
  let! verifier := lift (ok_or first VerifierMissing) in
  modify (λ s, set_pending_verification (<[t := verifier]> (pending_verification s)) s).

Definition remove_pending_verification (t : Task) : state_method unit :=
  bail_if chunk_id_invalid (chunk_id t) with ChunkIdInvalid ;;;
  bail_if (λ s, negb (contains_key t (pending_verification s))) with ChunkIdMissing ;;;
  modify (λ s, set_pending_verification (delete t (pending_verification s)) s).

Definition completed_task `{TimeApi} (participant : Participant) (t : Task) (now : Z) : state_method unit :=
  bail_if chunk_id_invalid (chunk_id t) with ChunkIdInvalid ;;;
  match participant with
  | Contributor _ =>
      with_contributor participant (ParticipantInfo.completed_task t now) ;;;
      modify (stop_task_timer participant t now) ;;;
      add_pending_verification t
  | Verifier _ => remove_pending_verification t
  end.

(** ** Aggregation and metrics *)

(** The [?] on [Some(metrics) => metrics] followed by statements on the metrics. *)
Definition with_metrics {A} (m : M CoordinatorError RoundMetrics A) : state_method A := λ s,
  match current_metrics s with
  | Some r => let '(o, r') := m r in (o, set_current_metrics (Some r') s)
  | None => (Err CoordinatorStateNotInitialized, s)
  end.

Definition already_aggregated (m : RoundMetrics) : bool :=
  is_round_aggregated m || is_some (finished_aggregation_at m).

Definition aggregating_current_round (now : Z) : state_method unit :=
  with_metrics (
  bail_if (λ m, is_some (started_aggregation_at m)) with RoundAggregationFailed ;;;
  bail_if already_aggregated with RoundAlreadyAggregated ;;;
  modify (set_started_aggregation_at (Some now))).

(** [x as i64] for a [u64]. *)
Definition u64_as_i64 (x : N) : Z :=
  if (x <? 9223372036854775808)%N then Z.of_N x else (Z.of_N x - 18446744073709551616)%Z.

Definition update_next_round_after `{TimeApi} (now : Z) (s : CoordinatorState) : CoordinatorState :=
  match current_metrics s with
  | Some m =>
      let wait := duration_seconds (u64_as_i64 (queue_wait_time (environment s))) in
      set_current_metrics (Some (set_next_round_after (Some (now + wait)%Z) m)) s
  | None => s
  end.

Definition aggregated_current_round `{TimeApi} (now : Z) : state_method unit :=
  with_metrics (
  bail_if (λ m, is_none (started_aggregation_at m)) with RoundAggregationFailed ;;;
  bail_if already_aggregated with RoundAlreadyAggregated ;;;
  modify (set_is_round_aggregated true) ;;;
  modify (set_finished_aggregation_at (Some now))) ;;;
  modify (λ s,
    match current_metrics s with
    | Some m => if is_none (next_round_after m) then update_next_round_after now s else s
    | None => s
    end).

Definition rollback_aggregating_current_round : state_method unit :=
  with_metrics (
  bail_if already_aggregated with RoundAlreadyAggregated ;;;
  modify (set_started_aggregation_at None)).

(** The seconds the current contributors still need, from their averages. *)
Definition seconds_remaining `{HashOrder} (m : RoundMetrics) (contributor_average : N)
    (contributors : gmap Participant ParticipantInfo) : N :=
  u64_sum ((λ '(p, info),
    let seconds := default contributor_average (seconds_per_task m !! p) in
    u64_mul seconds (N.of_nat (length (pending_tasks info) + length (assigned_tasks info))))
    <$> hash_iter contributors).

Definition estimate_remaining `{HashOrder} (contributor_average verifier_average : N)
    (s : CoordinatorState) (m : RoundMetrics) : RoundMetrics :=
  let left := N.of_nat (size (current_contributors s)) in
  if (0 <? left)%N then
    let cumulative_seconds := seconds_remaining m contributor_average (current_contributors s) in
    let estimated_time_remaining :=
      match proving_system (parameters (environment s)) with
      | Groth16 => ((cumulative_seconds / left) / 2)%N
      | Marlin => (cumulative_seconds / left)%N
      end in
    let estimated_aggregation :=
      u64_mul (u64_add contributor_average verifier_average) (number_of_chunks (environment s)) in
    let estimated_queue_time := queue_wait_time (environment s) in
    set_estimated_wait_time
      (Some (u64_add (u64_add estimated_time_remaining estimated_aggregation) estimated_queue_time))
      (set_estimated_aggregation_time (Some estimated_aggregation)
        (set_estimated_finish_time (Some estimated_time_remaining) m))
  else m.

Definition update_round_metrics `{HashOrder} (s : CoordinatorState) : CoordinatorState :=
  if is_current_round_finished s then s
  else match current_metrics s with
  | Some m =>
      let '(m, contributor_average, verifier_average) := update_averages m in
      set_current_metrics (Some (estimate_remaining contributor_average verifier_average s m)) s
  | None => s
  end.

(** ** Heartbeat, manual lock *)

Definition touch (now : Z) (p : Participant) (m : gmap Participant ParticipantInfo)
    : gmap Participant ParticipantInfo := alter (set_last_seen now) p m.

(** Of the finished rounds, only the first one the table yields is searched. *)
Definition heartbeat `{HashOrder} (participant : Participant) (now : Z) : state_method unit := λ s,
  match queue s !! participant with
  | Some e =>
      (Ok tt, set_queue (<[participant := MkQueueEntry (q_reliability e) (q_round e) now (q_joined e)]> (queue s)) s)
  | None =>
      if contains_key participant (current_contributors s) then
        (Ok tt, set_current_contributors (touch now participant (current_contributors s)) s)
      else
        match hash_iter (finished_contributors s) with
        | (h, finished) :: _ =>
            if contains_key participant finished then
              (Ok tt, set_finished_contributors
                        (<[h := touch now participant finished]> (finished_contributors s)) s)
            else (Err (ParticipantNotFound participant), s)
        | [] => (Err (ParticipantNotFound participant), s)
        end
  end.

Definition is_manual_lock_enabled (s : CoordinatorState) : bool := manual_lock s.
Definition enable_manual_lock (s : CoordinatorState) : CoordinatorState := set_manual_lock true s.
Definition disable_manual_lock (s : CoordinatorState) : CoordinatorState := set_manual_lock false s.

(** ** Shared reliability *)

Definition zero_entry (e : QueueEntry) : QueueEntry := MkQueueEntry 0 (q_round e) (q_last_seen e) (q_joined e).

Lemma zero_reliability_alter s p :
  zero_reliability s p =
    set_queue (alter zero_entry p (queue s))
      (set_current_contributors (alter (set_reliability 0) p (current_contributors s))
        (set_next (alter (set_reliability 0) p (next s)) s)).
Proof.
  assert (∀ {A} (f : A → A) (m : gmap Participant A),
    alter f p m = match m !! p with Some a => <[p := f a]> m | None => m end) as Halter.
  { intros A f m. apply map_eq. intros q. destruct (m !! p) as [a|] eqn:Hp.
    - destruct (decide (p = q)) as [->|]; [by rewrite lookup_alter_eq, lookup_insert_eq, Hp|].
      by rewrite lookup_alter_ne, lookup_insert_ne.
    - destruct (decide (p = q)) as [->|]; [by rewrite lookup_alter_eq, Hp|]. by rewrite lookup_alter_ne. }
  unfold zero_reliability, zero_queue_reliability, zero_current_reliability, zero_next_reliability.
  rewrite !Halter. destruct s; simpl. repeat (case_match; simpl in *); by simplify_eq/=.
Qed.

(** Over a set of participants. *)
Lemma zero_reliability_foldl s l :
  let zq := λ q e, if decide (q ∈ l) then zero_entry e else e in
  let zi := λ q (i : ParticipantInfo), if decide (q ∈ l) then set_reliability 0 i else i in
  foldl zero_reliability s l =
    set_queue (map_imap (λ q e, Some (zq q e)) (queue s))
      (set_current_contributors (map_imap (λ q i, Some (zi q i)) (current_contributors s))
        (set_next (map_imap (λ q i, Some (zi q i)) (next s)) s)).
Proof.
  assert (∀ {A} (f : A → A) (l : list Participant) (m : gmap Participant A), (∀ a, f (f a) = f a) →
    foldl (λ m p, alter f p m) m l = map_imap (λ q a, Some (if decide (q ∈ l) then f a else a)) m) as Hfold.
  { clear. intros A f l m Hf. revert m. induction l as [|p l IH]; intros m; cbn [foldl].
    - apply map_eq. intros q. rewrite map_lookup_imap. by destruct (m !! q).
    - rewrite IH. apply map_eq. intros q. rewrite !map_lookup_imap. destruct (decide (p = q)) as [->|Hne].
      + rewrite lookup_alter_eq. destruct (m !! q); simpl; [|done]. rewrite (decide_True (P := q ∈ q :: l)) by by left.
        by case_decide; rewrite ?Hf.
      + rewrite lookup_alter_ne by done. destruct (m !! q); simpl; [|done]. f_equal. apply decide_ext. rewrite elem_of_cons. naive_solver. }
  cbv beta zeta. rewrite <-(Hfold _ zero_entry), <-!(Hfold _ (set_reliability 0)) by done. revert s. induction l as [|p l IH]; intros s; [by destruct s|].
  cbn [foldl]. rewrite IH, zero_reliability_alter. by destruct s.
Qed.

(** ** Properties *)

(** [add_to_queue] admits exactly the contributors that are neither banned,
    waiting, staged nor (unless allowed) in the current round; it files them as
    unassigned and just seen, and everything else but reliability scores and
    the address table stays. *)
Theorem add_to_queue_admission p ip rel now s :
  let admissible := is_contributor p = true ∧ p ∉ banned s ∧ queue s !! p = None ∧ next s !! p = None ∧
    (allow_current_contributors_in_queue (environment s) = true ∨ current_contributors s !! p = None) in
  (admissible → ∃ s' rel', add_to_queue p ip rel now s = (Ok tt, s') ∧
     queue s' !! p = Some (MkQueueEntry rel' None now now) ∧ (rel' = rel ∨ rel' = 0%N) ∧
     (∀ q, q ≠ p → (λ e, (q_round e, q_joined e)) <$> queue s' !! q = (λ e, (q_round e, q_joined e)) <$> queue s !! q) ∧
     all_tasks <$> current_contributors s' = all_tasks <$> current_contributors s) ∧
  (¬ admissible → ∃ e, add_to_queue p ip rel now s = (Err e, s)).
Proof.
  intros admissible.
  assert (∀ l, (λ e, (q_round e, q_joined e)) <$> queue (foldl zero_reliability s l) =
                 (λ e, (q_round e, q_joined e)) <$> queue s ∧
               all_tasks <$> current_contributors (foldl zero_reliability s l) =
                 all_tasks <$> current_contributors s) as Hzero.
  { intros l. rewrite zero_reliability_foldl. simpl. split; apply map_eq; intros q;
      rewrite !lookup_fmap, map_lookup_imap; destruct (_ !! q); simpl; [|done| |done]; by case_decide. }
  split.
  - intros (Hc & Hb & Hq & Hn & Hcur). unfold add_to_queue, check.
    unfold is_banned_participant, is_authorized_contributor, is_banned_participant.
    rewrite bool_decide_eq_false_2 by done. unfold contains_key. rewrite Hq, Hn, Hc. simpl.
    assert (negb (allow_current_contributors_in_queue (environment s)) && is_some (current_contributors s !! p) = false)
      as -> by (destruct Hcur as [->| ->]; [done | apply andb_false_r]).
    unfold is_verifier. rewrite Hc. unfold bind at 1, gets. simpl.
    destruct ip as [ip|]; [destruct (disable_reliability_zeroing (environment s)); simpl|];
      try (eexists _, _; split; [reflexivity|]; simpl; rewrite lookup_insert_eq;
           split; [done|]; split; [by left|]; split; [|done]; intros; by rewrite lookup_insert_ne).
    unfold bind, gets, modify, ret. destruct (is_duplicate_ip ip s) eqn:Hdup; simpl.
    + unfold zero_duplicate_ips. destruct (contributor_ips s !! ip) as [ps|]; simpl.
      * destruct (Hzero (elements ps)) as [Hz1 Hz2]. eexists _, _. split; [reflexivity|]. simpl.
        rewrite lookup_insert_eq. split; [done|]. split; [by right|]. split; [|done].
        intros q Hne. rewrite lookup_insert_ne by done. by rewrite <-!lookup_fmap, Hz1.
      * eexists _, _. split; [reflexivity|]. simpl. rewrite lookup_insert_eq.
        split; [done|]. split; [by right|]. split; [|done]. intros; by rewrite lookup_insert_ne.
    + eexists _, _. split; [reflexivity|]. simpl. rewrite lookup_insert_eq.
      split; [done|]. split; [by left|]. split; [|done]. intros; by rewrite lookup_insert_ne.
  - intros Hnot. unfold add_to_queue, check. unfold is_banned_participant.
    destruct (bool_decide_reflect (p ∈ banned s)) as [|Hb]; [by eexists|].
    destruct (contains_key p (queue s)) eqn:Hq; [by eexists|].
    destruct (contains_key p (next s)) eqn:Hn; [by eexists|].
    destruct (is_contributor p && _) eqn:Ha; [by eexists|].
    destruct (is_contributor p && _ && _) eqn:Hcur; [by eexists|].
    unfold is_verifier. destruct (is_contributor p) eqn:Hc; [|by eexists]. simpl.
    destruct Hnot. split; [done|]. guards_to_props. split; [done|]. split; [done|]. split; [done|].
    simpl in Hcur. guards_to_props. naive_solver.
Qed.

(** The reliability score of everybody who shares an address drops to zero:
    after a contributor joins with an address in use, neither it nor any other
    participant of the address has a score in the queue, the staging area or
    the current round. *)
Lemma duplicate_ip_zeroes_reliability p ip ps rel now s s' :
  disable_reliability_zeroing (environment s) = false → contributor_ips s !! ip = Some ps →
  add_to_queue p (Some ip) rel now s = (Ok tt, s') →
  contributor_ips s' !! ip = Some ({[p]} ∪ ps) ∧
  (∀ q e, q = p ∨ q ∈ ps → queue s' !! q = Some e → q_reliability e = 0%N) ∧
  (∀ q i, q ∈ ps → current_contributors s' !! q = Some i → reliability i = 0%N) ∧
  (∀ q i, q ∈ ps → next s' !! q = Some i → reliability i = 0%N).
Proof.
  intros Hd Hip Hrun. unfold add_to_queue in Hrun.
  repeat (rewrite check_ok in Hrun; destruct Hrun as [_ Hrun]).
  unfold bind, gets, modify, ret in Hrun. rewrite Hd in Hrun. simpl in Hrun.
  assert (is_duplicate_ip ip s = true) as Hdup by (apply contains_key_true; eauto).
  rewrite Hdup in Hrun. unfold zero_duplicate_ips in Hrun. rewrite Hip, zero_reliability_foldl in Hrun.
  simpl in Hrun. rewrite Hip in Hrun. simplify_eq/=.
  split; [by rewrite lookup_insert_eq|]. split; [|split].
  - intros q e Hq. destruct (decide (p = q)) as [<-|Hne]; [rewrite lookup_insert_eq; by intros [= <-]|].
    rewrite lookup_insert_ne, map_lookup_imap by done. destruct Hq as [->|Hq]; [done|].
    destruct (queue s !! q); simpl; [|done]. rewrite decide_True by by apply elem_of_elements. by intros [= <-].
  - intros q i Hq. rewrite map_lookup_imap. destruct (current_contributors s !! q); simpl; [|done].
    rewrite decide_True by by apply elem_of_elements. by intros [= <-].
  - intros q i Hq. rewrite map_lookup_imap. destruct (next s !! q); simpl; [|done].
    rewrite decide_True by by apply elem_of_elements. by intros [= <-].
Qed.

(** Contributing and verifying are two halves of one round trip through
    the set of pending verifications: a contributor that completes a task moves
    it from its pending to its completed tasks and files it for the first
    coordinator verifier, the round cannot finish while it is filed, and
    verifying it, by any verifier, leaves the pending set as it was. *)
Lemma contribution_awaits_verification `{TimeApi} c t now now' v s s' :
  completed_task (Contributor c) t now s = (Ok tt, s') →
  (∃ vf, head (coordinator_verifiers (environment s)) = Some vf ∧
     pending_verification s' = <[t := vf]> (pending_verification s)) ∧
  pending_verification s !! t = None ∧
  (∃ i i', current_contributors s !! Contributor c = Some i ∧
     current_contributors s' !! Contributor c = Some i' ∧
     t ∈ pending_tasks i ∧ t ∈ completed_tasks i' ∧ t ∉ pending_tasks i') ∧
  is_current_round_finished s' = false ∧
  (∃ s2, completed_task (Verifier v) t now' s' = (Ok tt, s2) ∧
     s2 = set_pending_verification (pending_verification s) s').
Proof.
  intros Hrun. unfold completed_task in Hrun. apply check_ok in Hrun as [Hch Hrun].
  apply bind_ok in Hrun as ([] & s1 & Hp & Hrun). unfold with_contributor in Hp.
  destruct (current_contributors s !! Contributor c) as [i|] eqn:Hi; [|done].
  destruct (ParticipantInfo.completed_task t now i) as [o i'] eqn:Hc. simplify_eq.
  unfold bind at 1, modify in Hrun. set (s2 := stop_task_timer _ _ _ _) in Hrun.
  assert (pending_verification s2 = pending_verification s ∧ environment s2 = environment s ∧
    current_contributors s2 = <[Contributor c := i']> (current_contributors s)) as (Hpv & Henv & Hcc)
    by (unfold s2, stop_task_timer; by case_match).
  unfold add_pending_verification in Hrun.
  apply check_ok in Hrun as [_ Hrun]. apply check_ok in Hrun as [Hnot Hrun].
  unfold bind, gets, lift, modify in Hrun. rewrite Henv in Hrun. rewrite Hpv in Hnot.
  destruct (head (coordinator_verifiers (environment s))) as [vf|] eqn:Hv; simplify_eq/=.
  apply contains_key_false in Hnot. rewrite ?Hcc.
  apply completed_task_inv in Hc as (_ & Ht & _ & _ & _ & ->).
  split; [exists vf; split; [done|]; simpl; by rewrite Hpv|]. split; [done|]. split; [|split].
  - eexists _, _. split; [done|]. split; [apply lookup_insert_eq|]. split; [done|]. simpl.
    rewrite elem_of_remove_task. set_solver.
  - unfold is_current_round_finished. simpl. rewrite Hpv.
    rewrite (proj2 (map_is_empty_false _)); [done|]. apply insert_non_empty.
  - eexists. split; [|reflexivity]. unfold completed_task, remove_pending_verification, check.
    unfold chunk_id_invalid in *. simpl. rewrite Henv, Hch, Hpv. unfold contains_key. rewrite lookup_insert_eq. simpl.
    unfold modify. simpl. by rewrite delete_insert_id.
Qed.

(** The aggregation indicator of a round goes from idle to aggregating to
    aggregated: starting twice is refused, rolling back before the end returns
    to idle, finishing without starting is refused, and once aggregated the
    round can be neither started, rolled back nor finished again and the start
    of the next round is scheduled. *)
Lemma aggregation_lifecycle `{TimeApi} now now' m s :
  current_metrics s = Some m → started_aggregation_at m = None → finished_aggregation_at m = None →
  is_round_aggregated m = false →
  ∃ s1 s2, aggregating_current_round now s = (Ok tt, s1) ∧ is_current_round_aggregating s1 = true ∧
    aggregated_current_round now s = (Err RoundAggregationFailed, s) ∧
    aggregating_current_round now' s1 = (Err RoundAggregationFailed, s1) ∧
    rollback_aggregating_current_round s1 = (Ok tt, s) ∧
    aggregated_current_round now' s1 = (Ok tt, s2) ∧ is_current_round_aggregated s2 = true ∧
    (∃ m', current_metrics s2 = Some m' ∧ is_Some (next_round_after m')) ∧
    aggregating_current_round now s2 = (Err RoundAggregationFailed, s2) ∧
    rollback_aggregating_current_round s2 = (Err RoundAlreadyAggregated, s2) ∧
    aggregated_current_round now s2 = (Err RoundAlreadyAggregated, s2).
Proof.
  intros Hm Hs Hf Ha. destruct (next_round_after m) eqn:Hn; destruct s, m; simpl in *; subst.
  all: eexists _, _; unfold aggregating_current_round, aggregated_current_round, rollback_aggregating_current_round,
    with_metrics, bind, check, modify, already_aggregated, update_next_round_after; simpl.
  all: do 6 (split; [reflexivity|]); simpl; split_and!; try reflexivity; eauto.
Qed.

(** The heartbeat of a finished contributor can get lost: of two rounds
    with a finished contributor each, whichever the table yields second is not
    searched, and the coordinator answers that it does not know that
    participant. *)
Theorem heartbeat_misses_a_finished_contributor `{HashOrder} p q i j h k now s :
  h ≠ k → p ≠ q → finished_contributors s = {[ h := {[ p := i ]}; k := {[ q := j ]} ]} →
  queue s !! p = None → queue s !! q = None →
  current_contributors s !! p = None → current_contributors s !! q = None →
  heartbeat p now s = (Err (ParticipantNotFound p), s) ∨ heartbeat q now s = (Err (ParticipantNotFound q), s).
Proof.
  intros Hhk Hpq Hf Hp Hq Hcp Hcq. unfold heartbeat. rewrite Hp, Hq. unfold contains_key at 1 3.
  rewrite Hcp, Hcq. simpl. destruct (hash_iter (finished_contributors s)) as [|[r f] l] eqn:Hl; [by left|].
  assert ((r, f) ∈ hash_iter (finished_contributors s)) as Hr by (rewrite Hl; by left).
  apply elem_of_hash_iter in Hr. rewrite Hf in Hr.
  apply lookup_insert_Some in Hr as [[<- <-]|[_ [<- <-]%lookup_singleton_Some]].
  - right. unfold contains_key. by rewrite lookup_singleton_ne by done.
  - left. unfold contains_key. by rewrite lookup_singleton_ne by done.
Qed.

(** ** Witnesses *)

#[local] Existing Instance trie_order.
#[local] Existing Instance time_api.

Definition carol : Participant := Contributor "carol".
Definition dave : Participant := Contributor "dave".
Definition ex_new : CoordinatorState := coordinator_state_new testing_environment.

Lemma add_to_queue_admission_witness :
  (∃ s' rel', add_to_queue carol None 10 5 ex_new = (Ok tt, s') ∧
     queue s' !! carol = Some (MkQueueEntry rel' None 5 5)) ∧
  (∃ e, add_to_queue (Verifier "v") None 10 5 ex_new = (Err e, ex_new)).
Proof.
  split.
  - destruct (proj1 (add_to_queue_admission carol None 10 5 ex_new)) as (s' & rel' & Hrun & Hq & _).
    + split; [done|]. split; [apply not_elem_of_empty|]. split; [done|]. split; [done|]. by left.
    + exists s', rel'. split; [exact Hrun | exact Hq].
  - apply (proj2 (add_to_queue_admission (Verifier "v") None 10 5 ex_new)). by intros [? _].
Defined.

(** Carol already joined from the address. *)
Definition ex_shared : CoordinatorState := (add_to_queue carol (Some (V4 7)) 10 5 ex_new).2.

(** Carol works on the first of three chunks. *)
Definition carol_info : ParticipantInfo :=
  MkParticipantInfo carol 1 10 0 5 5 (Some 5%Z) None None {[ 0%N := chunk_lock_new 0 5 ]}
    [MkTask 1 1; MkTask 2 1] [MkTask 0 1] [] [] [].
Definition ex_finished : CoordinatorState :=
  set_finished_contributors {[ 1%N := {[ carol := carol_info ]}; 2%N := {[ dave := carol_info ]} ]} ex_new.

Lemma heartbeat_misses_a_finished_contributor_witness :
  heartbeat carol 6 ex_finished = (Err (ParticipantNotFound carol), ex_finished) ∨
  heartbeat dave 6 ex_finished = (Err (ParticipantNotFound dave), ex_finished).
Proof.
  by apply (heartbeat_misses_a_finished_contributor carol dave carol_info carol_info 1 2 6 ex_finished).
Defined.
