(* ===== verification/RoundTransition.v ===== *)
(** * Transitions between rounds

    The operations of [CoordinatorState] that assign the queue to rounds, move
    the coordinator from one round to the next ([precommit_next_round],
    [commit_next_round], [rollback_next_round]), reset the current round, and
    collect the contributors that finished it. *)

From S2P Require Import Prelude Task Participant Errors Environment ParticipantInfo RoundMetrics CoordinatorState.
(** Action on the storage that goes with a reset of the round. *)
Record ResetCurrentRoundStorageAction := MkResetAction {
  remove_participants : list Participant;
  rollback : bool;
}.

Definition initialize (height : N) (s : CoordinatorState) : CoordinatorState :=
  let s := if is_none (current_round_height s) then set_current_round_height (Some height) s else s in
  let s := if is_none (current_metrics s)
           then set_current_metrics (Some round_metrics_default) s else s in
  let s := if contains_key height (finished_contributors s) then s
           else set_finished_contributors (<[height := ∅]> (finished_contributors s)) s in
  let s := if contains_key height (finished_verifiers s) then s
           else set_finished_verifiers (<[height := ∅]> (finished_verifiers s)) s in
  set_status Initialized s.

(** A participant put back into the queue keeps its reliability and round. *)
Definition requeued (now : Z) (i : ParticipantInfo) : QueueEntry :=
  MkQueueEntry (reliability i) (Some (round_height i)) now now.

(** ** Dealing the tasks of a round *)

Definition initialize_tasks' (bucket chunks contributors : N) : outcome CoordinatorError (list Task) :=
  map_err from_task_error (initialize_tasks bucket chunks contributors).

(** ** The queue *)

(** The comparison [a.3.cmp(&b.3)]: earlier joined first. *)
Definition joined_le (a b : Participant * QueueEntry) : bool :=
  (q_joined a.2 <=? q_joined b.2)%Z.

(** The contributors of the queue, by the time they joined. *)
Definition queued_by_joined `{HashOrder} (s : CoordinatorState) : list (Participant * QueueEntry) :=
  filter (λ kv, is_contributor kv.1 && negb (is_banned_participant kv.1 s) = true)
    (sort_by joined_le (hash_iter (queue s))).

(** The [index]-th contributor is in the [index / maximum]-th slice. *)
Definition assign_round (next_round : N) (maximum : nat) (index : nat)
    (kv : Participant * QueueEntry) : Participant * QueueEntry :=
  let e := kv.2 in
  (kv.1, MkQueueEntry (q_reliability e) (Some (u64_add next_round (N.of_nat (index / maximum))))
           (q_last_seen e) (q_joined e)).

Definition update_queue `{HashOrder} : state_method unit := λ s,
  match current_round_height s with
  | None => (Err RoundHeightNotSet, s)
  | Some height =>
      let next_round := u64_add height 1 in
      let maximum := maximum_contributors_per_round (environment s) in
      (* [chunks] panics on a zero size *)
      if (maximum =? 0)%nat then (Panic, s)
      else
        (Ok tt, set_queue (hash_map_from_iter (imap (assign_round next_round maximum) (queued_by_joined s))) s)
  end.

(** ** The next round *)

(** The contributors of the queue assigned to the given round. *)
Definition assigned_to `{HashOrder} (round : N) (s : CoordinatorState) : list (Participant * QueueEntry) :=
  filter (λ kv, is_contributor kv.1 && (default 0 (q_round kv.2) =? round)%N = true)
    (hash_iter (queue s)).

Definition permitted_number_of_contributors (n : nat) (s : CoordinatorState) : bool :=
  (minimum_contributors_per_round (environment s) <=? n)%nat &&
  (n <=? maximum_contributors_per_round (environment s))%nat.

(** [next_round_after] is set, and not reached yet. *)
Definition queue_wait_time_incomplete (now : Z) (s : CoordinatorState) : bool :=
  match current_metrics s with
  | Some m => match next_round_after m with Some t => (now <? t)%Z | None => false end
  | None => false
  end.

Definition queue_wait_time_unset (s : CoordinatorState) : bool :=
  match current_metrics s with Some m => is_none (next_round_after m) | None => false end.

(** The current round is a ceremony round that was not aggregated. *)
Definition round_not_aggregated (s : CoordinatorState) : bool :=
  (0 <? current_round_height_or_zero s)%N && negb (is_current_round_aggregated s).

Definition is_precommit_next_round_ready `{HashOrder} (now : Z) (s : CoordinatorState) : bool :=
  if bool_decide (status s = Initializing) || bool_decide (status s = Precommit) then false
  else if map_is_empty (queue s) then false
  else if is_none (current_round_height s) then false
  else if round_not_aggregated s then false
  else if queue_wait_time_incomplete now s || queue_wait_time_unset s then false
  else
    let next_round_height := u64_add (current_round_height_or_zero s) 1 in
    permitted_number_of_contributors (length (assigned_to next_round_height s)) s.

(** Most reliable first: [b.1.0.cmp(&a.1.0)]. *)
Definition reliability_ge (a b : Participant * QueueEntry) : bool :=
  (q_reliability b.2 <=? q_reliability a.2)%N.

(** The body of the loop of [precommit_next_round]: the participant info of the
    [index]-th contributor. *)
Definition precommit_contributor (height current_height chunks contributors : N) (now : Z)
    (index : nat) (kv : Participant * QueueEntry)
    : outcome CoordinatorError (Participant * ParticipantInfo) :=
  let bucket := N.of_nat index in
  let next_round := default 0%N (q_round kv.2) in
  try! tasks := initialize_tasks' bucket chunks contributors in
  if negb (next_round =? height)%N && negb (next_round =? u64_add current_height 1)%N
  then Err RoundHeightMismatch else
  try! info := run_on (start tasks now)
    (participant_info_new kv.1 height (q_reliability kv.2) bucket now) in
  if is_nil (assigned_tasks info) then Err ParticipantNotReady else Ok (kv.1, info).

Definition precommit_next_round `{HashOrder} (next_round_height : N) (now : Z)
    : state_method (list Participant) :=
  bail_if (λ s, bool_decide (status s = Initializing)) with CoordinatorStateNotInitialized ;;;
  bail_if (λ s, bool_decide (status s = Precommit)) with NextRoundAlreadyInPrecommit ;;;
  bail_if (λ s, match current_round_height s with
                | Some h => negb (next_round_height =? u64_add h 1)%N
                | None => false end) with RoundHeightMismatch ;;;
  bail_if (λ s, is_none (current_round_height s)) with RoundHeightNotSet ;;;
  bail_if (λ s, map_is_empty (queue s)) with QueueIsEmpty ;;;
  bail_if (λ s, negb (map_is_empty (next s))) with NextRoundShouldBeEmpty ;;;
  bail_if (λ s, negb (is_current_round_finished s)) with RoundNotComplete ;;;
  bail_if round_not_aggregated with RoundNotAggregated ;;;
  bail_if queue_wait_time_incomplete now with QueueWaitTimeIncomplete ;;;
  let! contributors := gets (assigned_to next_round_height) in
  bail_if (λ s, existsb (λ kv, is_banned_participant kv.1 s) contributors) with ParticipantUnauthorized ;;;
  bail_if (λ s, negb (permitted_number_of_contributors (length contributors) s))
    with RoundNumberOfContributorsUnauthorized ;;;
  let contributors := sort_by reliability_ge contributors in
  let! chunks := gets (λ s, number_of_chunks (environment s)) in
  let! current_height := gets current_round_height_or_zero in
  let! infos := lift (collect (imap
    (precommit_contributor next_round_height current_height chunks (N.of_nat (length contributors)) now)
    contributors)) in
  modify (λ s, set_queue (foldl (λ q p, delete p q) (queue s) contributors.*1) s) ;;;
  modify (set_next (hash_map_from_iter infos)) ;;;
  modify (set_status Precommit) ;;;
  ret contributors.*1.

Definition contributors_in (m : gmap Participant ParticipantInfo) : gmap Participant ParticipantInfo :=
  filter (λ kv, is_contributor kv.1 = true) m.
Definition verifiers_in (m : gmap Participant ParticipantInfo) : gmap Participant ParticipantInfo :=
  filter (λ kv, is_verifier kv.1 = true) m.

(** The loop of [commit_next_round] inserts the participants of [next] into the
    current ones, contributors and verifiers apart: a union that prefers [next]. *)
Definition commit_next_round (s : CoordinatorState) : CoordinatorState :=
  if negb (bool_decide (status s = Precommit)) then s
  else match current_round_height s with
  | None => s
  | Some height =>
      let next_round_height := u64_add height 1 in
      let s := set_current_round_height (Some next_round_height) s in
      let s := set_status Commit s in
      let contributors := contributors_in (next s) in
      let verifiers := verifiers_in (next s) in
      let s := set_current_contributors (contributors ∪ current_contributors s) s in
      let s := set_current_verifiers (verifiers ∪ current_verifiers s) s in
      let s := set_current_metrics (Some (MkRoundMetrics (N.of_nat (size contributors))
                 (N.of_nat (size verifiers)) false ∅ ∅ None None None None None None None None)) s in
      let s := set_finished_contributors (<[next_round_height := ∅]> (finished_contributors s)) s in
      let s := set_finished_verifiers (<[next_round_height := ∅]> (finished_verifiers s)) s in
      set_next ∅ s
  end.

Definition rollback_next_round (now : Z) (s : CoordinatorState) : CoordinatorState :=
  if negb (bool_decide (status s = Precommit)) then s
  else
    let s := set_status Rollback s in
    let s := set_queue ((requeued now <$> next s) ∪ queue s) s in
    set_next ∅ s.

(** ** Finishing the round *)

(** The [filter] closure: whether the contributor stays, and the info it
    finishes with. *)
Definition keeps_contributing (now : Z) (i : ParticipantInfo) : bool :=
  if is_finished i then false else negb (is_ok (run_on (finish now) i)).
Definition newly_finished (now : Z) (i : ParticipantInfo) : option ParticipantInfo :=
  if is_finished i then None else ok_value (run_on (finish now) i).

Definition update_current_contributors (now : Z) : state_method unit := λ s,
  match current_round_height s with
  | None => (Err RoundHeightNotSet, s)
  | Some height =>
      let before := current_contributors s in
      let staying := filter (λ kv, keeps_contributing now kv.2 = true) before in
      let finished := omap (newly_finished now) before in
      let s := set_current_contributors staying s in
      if negb (size before =? size staying + size finished)%nat
      then (Err RoundUpdateCorruptedStateOfContributors, s)
      else match finished_contributors s !! height with
      | None => (Err RoundCommitFailedOrCorrupted, s)
      | Some contributors =>
          (Ok tt, set_finished_contributors (<[height := finished ∪ contributors]> (finished_contributors s)) s)
      end
  end.

(** ** Resetting the round *)

Definition restart_contributor (chunks contributors : N) (now : Z) (index : nat)
    (kv : Participant * ParticipantInfo) : outcome CoordinatorError (Participant * ParticipantInfo) :=
  try! tasks := initialize_tasks' (N.of_nat index) chunks contributors in
  try! info := run_on (restart_tasks tasks now) kv.2 in
  Ok (kv.1, info).

(** The contributors of the current round, finished ones included. *)
Definition round_contributors `{HashOrder} (height : N) (s : CoordinatorState)
    : list (Participant * ParticipantInfo) :=
  hash_iter (current_contributors s) ++ hash_iter (finished_contributors_of height s).

Definition restart_contributors `{HashOrder} (height : N) (now : Z) (s : CoordinatorState)
    : outcome CoordinatorError (gmap Participant ParticipantInfo) :=
  let l := round_contributors height s in
  try! r := collect (imap (restart_contributor (number_of_chunks (environment s)) (N.of_nat (length l)) now) l) in
  Ok (hash_map_from_iter r).

(** The state after a roll back to the end of the previous round. *)
Definition rolled_back `{TimeApi} (height : N) (now : Z)
    (restarted : gmap Participant ParticipantInfo) (s : CoordinatorState) : CoordinatorState :=
  let previous := u64_sub height 1 in
  let metrics := set_finished_aggregation_at (Some now) (set_started_aggregation_at (Some now)
                   (set_is_round_aggregated true round_metrics_default)) in
  let requeue := (requeued now <$> next s) ∪ (requeued now <$> restarted) in
  let s := set_banned (banned s)
             (set_queue (requeue ∪ queue s)
               (set_current_round_height (Some previous)
                 (set_current_metrics (Some metrics) (coordinator_state_new (environment s))))) in
  update_next_round_after now (initialize previous s).

(** The state after a reset for the remaining contributors. *)
Definition restarted_round `{HashOrder} (height : N)
    (restarted : gmap Participant ParticipantInfo) (s : CoordinatorState) : CoordinatorState :=
  let s := set_dropped (dropped s) (set_banned (banned s) (set_queue (queue s)
             (set_current_contributors restarted (coordinator_state_new (environment s))))) in
  update_round_metrics (initialize height s).

Definition reset_current_round `{HashOrder, TimeApi} (force_rollback : bool) (now : Z)
    : state_method ResetCurrentRoundStorageAction :=
  let! height := gets current_round_height in
  let! height := lift (ok_or height RoundDoesNotExist) in
  bail_if (λ _, (height =? 0)%N) with RoundHeightIsZero ;;;
  let! contributors := gets (round_contributors height) in
  let! restarted := gets (restart_contributors height now) in
  let! restarted := lift restarted in
  if force_rollback || (length contributors =? 0)%nat then
    modify (rolled_back height now restarted) ;;;
    ret (MkResetAction contributors.*1 true)
  else
    modify (restarted_round height restarted) ;;;
    ret (MkResetAction [] false).

(** ** The deal of a round

    [m] chunks are dealt to [n] participants when every participant holds the
    tasks of its own bucket, and every bucket is taken. *)

Definition in_grid (m n : N) (t : Task) : Prop :=
  (chunk_id t < m)%N ∧ (1 ≤ contribution_id t ≤ n)%N.

Record dealt_round (m n : N) (bucket : Participant → ParticipantInfo → N)
    (ps : gmap Participant ParticipantInfo) : Prop := {
  dealt_tasks p i : ps !! p = Some i →
    (bucket p i < n)%N ∧ all_tasks i ≡ₚ deal_list (bucket p i) m n;
  dealt_once p i p' i' : ps !! p = Some i → ps !! p' = Some i' → bucket p i = bucket p' i' → p = p';
  dealt_all b : (b < n)%N → ∃ p i, ps !! p = Some i ∧ bucket p i = b;
}.

(** Every cell of the grid is the task of exactly one participant. *)
Definition covers_grid (m n : N) (ps : gmap Participant ParticipantInfo) : Prop :=
  (∀ p i t, ps !! p = Some i → t ∈ all_tasks i → in_grid m n t) ∧
  (∀ t, in_grid m n t → exists! p, ∃ i, ps !! p = Some i ∧ t ∈ all_tasks i).

Lemma dealt_round_covers m n bucket ps :
  (n ≤ m)%N → dealt_round m n bucket ps → covers_grid m n ps.
Proof.
  intros Hnm Hd. split.
  - intros p i t [Hb Ht]%(dealt_tasks _ _ _ _ Hd) Hin. rewrite Ht in Hin.
    apply elem_of_deal_list in Hin as [Hc Heq]; [|done..]. split; [done|].
    rewrite Heq. by apply contribution_of_range.
  - intros t [Hc Hk]. destruct (contribution_of_surj n (m / n) (chunk_id t) _ Hk) as (b & Hb & Heq).
    destruct (dealt_all _ _ _ _ Hd b Hb) as (p & i & Hp & Hbk). exists p. split.
    + exists i. split; [done|]. destruct (dealt_tasks _ _ _ _ Hd p i Hp) as [_ ->]. rewrite Hbk.
      by apply elem_of_deal_list.
    + intros p' (i' & Hp' & Ht). destruct (dealt_tasks _ _ _ _ Hd p' i' Hp') as [Hb' Hl]. rewrite Hl in Ht.
      apply elem_of_deal_list in Ht as [_ Heq']; [|done..].
      eapply (dealt_once _ _ _ _ Hd); [done..|]. rewrite Hbk.
      by apply (contribution_of_inj b (bucket p' i') n (m / n) (chunk_id t)); try congruence.
Qed.

(** Handing out the buckets by position in a list of distinct participants. *)
Lemma dealt_by_position m n (l : list Participant) (infos : list (Participant * ParticipantInfo)) bucket :
  N.of_nat (length l) = n → NoDup l → infos.*1 = l →
  (∀ k p i, infos !! k = Some (p, i) →
    bucket p i = N.of_nat k ∧ all_tasks i ≡ₚ deal_list (N.of_nat k) m n) →
  dealt_round m n bucket (hash_map_from_iter infos).
Proof.
  intros Hn Hnd Hl Hi. rewrite <-Hl in Hnd.
  assert (∀ p i, hash_map_from_iter infos !! p = Some i ↔ ∃ k, infos !! k = Some (p, i)) as Hm.
  { intros p i. rewrite hash_map_from_iter_Some by done. apply list_elem_of_lookup. }
  assert (∀ k p i, infos !! k = Some (p, i) → k < length l) as Hlt.
  { intros k p i Hk. rewrite <-Hl, length_fmap. by eapply lookup_lt_Some. }
  split.
  - intros p i (k & Hk)%Hm. destruct (Hi k p i Hk) as [-> ->]. split; [|done].
    apply Hlt in Hk. lia.
  - intros p i p' i' (k & Hk)%Hm (k' & Hk')%Hm. destruct (Hi k p i Hk) as [-> _], (Hi k' p' i' Hk') as [-> _].
    intros ?%Nat2N.inj. by simplify_eq.
  - intros b Hb. destruct (lookup_lt_is_Some_2 infos (N.to_nat b)) as [[p i] Hk].
    { rewrite <-(length_fmap fst), Hl. lia. }
    exists p, i. split; [apply Hm; eauto|]. destruct (Hi _ _ _ Hk) as [-> _]. apply N2Nat.id.
Qed.

(** What [start] makes of a new participant. *)
Definition started_info (p : Participant) (height rel bucket : N) (tasks : list Task) (now : Z)
    : ParticipantInfo :=
  MkParticipantInfo p height rel bucket now now (Some now) None None ∅ tasks [] [] [] [].

Lemma start_new p height rel bucket tasks now :
  height ≠ 0%N →
  run_on (start tasks now) (participant_info_new p height rel bucket now) =
    Ok (started_info p height rel bucket tasks now).
Proof.
  intros Hh. unfold run_on, start, check, participant_info_new. simpl.
  by rewrite (proj2 (N.eqb_neq _ _) Hh).
Qed.
Lemma start_new_inv p height rel bucket tasks now i :
  run_on (start tasks now) (participant_info_new p height rel bucket now) = Ok i →
  i = started_info p height rel bucket tasks now ∧ height ≠ 0%N.
Proof. intros ([] & H)%run_on_ok. apply start_inv in H as [-> (? & _)]. done. Qed.

Lemma deal_list_nonempty b m n : m ≠ 0%N → is_nil (deal_list b m n) = false.
Proof.
  intros Hm. apply is_nil_false. intros H. pose proof (deal_list_length b m n) as Hl.
  rewrite H in Hl. simpl in Hl. lia.
Qed.

Lemma initialize_tasks'_inv b m n tasks :
  n ≠ 0%N → (2 * m < u64_modulus)%N → initialize_tasks' b m n = Ok tasks →
  (b < n)%N ∧ (n ≤ m)%N ∧ tasks = deal_list b m n.
Proof. unfold initialize_tasks'. intros ? ? H%map_err_ok. by apply initialize_tasks_Ok. Qed.
Lemma initialize_tasks'_deal b m n :
  (b < n)%N → (n ≤ m)%N → (2 * m < u64_modulus)%N → initialize_tasks' b m n = Ok (deal_list b m n).
Proof. intros. unfold initialize_tasks'. by rewrite initialize_tasks_deal. Qed.

(** The participant info of the [index]-th contributor of the next round. *)
Definition precommit_info (height chunks contributors : N) (now : Z) (index : nat)
    (kv : Participant * QueueEntry) : ParticipantInfo :=
  started_info kv.1 height (q_reliability kv.2) (N.of_nat index)
    (deal_list (N.of_nat index) chunks contributors) now.

Lemma precommit_contributor_inv height cur m n now k kv r :
  n ≠ 0%N → (2 * m < u64_modulus)%N →
  precommit_contributor height cur m n now k kv = Ok r →
  r = (kv.1, precommit_info height m n now k kv) ∧ (N.of_nat k < n ≤ m)%N.
Proof.
  intros Hn Hm. unfold precommit_contributor. intros (tasks & Ht & H)%bind_outcome_ok.
  apply initialize_tasks'_inv in Ht as (? & ? & ->); [|done..].
  destruct (_ && _); [done|]. apply bind_outcome_ok in H as (i & [-> ?]%start_new_inv & Hi).
  by destruct (is_nil _); simplify_eq.
Qed.

Lemma precommit_contributor_ok height cur m n now k kv :
  (N.of_nat k < n ≤ m)%N → (2 * m < u64_modulus)%N → height ≠ 0%N → default 0%N (q_round kv.2) = height →
  precommit_contributor height cur m n now k kv = Ok (kv.1, precommit_info height m n now k kv).
Proof.
  intros [Hk Hn] Hm Hh Hr. unfold precommit_contributor. rewrite initialize_tasks'_deal by done. simpl.
  rewrite Hr, N.eqb_refl. simpl. rewrite start_new by done. simpl. by rewrite deal_list_nonempty by lia.
Qed.

Section precommit.
Context `{HO : HashOrder}.

(** The contributors of the next round, most reliable first. *)
Definition next_round_contributors (height : N) (s : CoordinatorState) : list (Participant * QueueEntry) :=
  sort_by reliability_ge (assigned_to height s).

Lemma elem_of_next_round_contributors height s p e :
  (p, e) ∈ next_round_contributors height s ↔
    queue s !! p = Some e ∧ is_contributor p = true ∧ default 0%N (q_round e) = height.
Proof.
  unfold next_round_contributors. rewrite sort_by_perm. unfold assigned_to.
  rewrite list_elem_of_filter, elem_of_hash_iter. simpl.
  rewrite andb_true_iff, N.eqb_eq. naive_solver.
Qed.

Lemma next_round_contributors_NoDup height s : NoDup (next_round_contributors height s).*1.
Proof.
  unfold next_round_contributors. rewrite sort_by_perm. unfold assigned_to.
  by apply NoDup_fmap_fst_filter, hash_iter_NoDup.
Qed.

Lemma next_round_contributors_length height s :
  length (next_round_contributors height s) = length (assigned_to height s).
Proof. apply sort_by_length. Qed.

(** The state a successful precommit leaves. *)
Definition precommitted (height : N) (infos : list (Participant * ParticipantInfo))
    (s : CoordinatorState) : CoordinatorState :=
  set_status Precommit (set_next (hash_map_from_iter infos)
    (set_queue (foldl (λ q p, delete p q) (queue s) (next_round_contributors height s).*1) s)).

Definition precommit_infos (height m : N) (now : Z) (s : CoordinatorState)
    : list (Participant * ParticipantInfo) :=
  let l := next_round_contributors height s in
  imap (λ k kv, (kv.1, precommit_info height m (N.of_nat (length l)) now k kv)) l.

Lemma precommit_infos_fst height m now s :
  (precommit_infos height m now s).*1 = (next_round_contributors height s).*1.
Proof.
  unfold precommit_infos. apply list_eq. intros k.
  rewrite !list_lookup_fmap, list_lookup_imap. by destruct (_ !! k).
Qed.

Lemma precommit_infos_lookup height m now s k p i :
  precommit_infos height m now s !! k = Some (p, i) ↔
    ∃ e, next_round_contributors height s !! k = Some (p, e) ∧
      i = precommit_info height m (N.of_nat (length (next_round_contributors height s))) now k (p, e).
Proof.
  unfold precommit_infos. rewrite list_lookup_imap.
  destruct (_ !! k) as [[p' e]|]; simpl; naive_solver.
Qed.

Definition ready_to_precommit (height : N) (now : Z) (s : CoordinatorState) : Prop :=
  status s ≠ Initializing ∧ status s ≠ Precommit ∧
  (∃ h, current_round_height s = Some h ∧ height = u64_add h 1) ∧
  next s = ∅ ∧ is_current_round_finished s = true ∧ round_not_aggregated s = false ∧
  queue_wait_time_incomplete now s = false ∧
  (∀ p e, (p, e) ∈ next_round_contributors height s → p ∉ banned s) ∧
  permitted_number_of_contributors (length (next_round_contributors height s)) s = true.

Lemma precommit_guards height now s ps s' :
  precommit_next_round height now s = (Ok ps, s') →
  queue s ≠ ∅ ∧ ready_to_precommit height now s ∧
  ∃ cur infos,
    collect (imap (precommit_contributor height cur (number_of_chunks (environment s))
      (N.of_nat (length (next_round_contributors height s))) now) (next_round_contributors height s)) = Ok infos ∧
    ps = (next_round_contributors height s).*1 ∧ s' = precommitted height infos s.
Proof.
  intros Hrun. unfold precommit_next_round in Hrun.
  repeat (rewrite check_ok in Hrun; let Hg := fresh "Hguard" in destruct Hrun as [Hg Hrun]).
  unfold gets, bind at 1 in Hrun.
  repeat (rewrite check_ok in Hrun; let Hg := fresh "Hguard" in destruct Hrun as [Hg Hrun]).
  unfold bind, lift, modify, ret in Hrun.
  fold (next_round_contributors height s) in Hrun.
  destruct (collect _) as [infos|e|] eqn:Hc; simplify_eq.
  guards_to_props.
  destruct (current_round_height s) as [h|] eqn:Hh; [|naive_solver].
  guards_to_props. split; [done|]. split; [|eauto 10].
  unfold ready_to_precommit. rewrite next_round_contributors_length.
  repeat split; try done.
  - exists h. split; [done|]. by destruct (N.eqb_spec height (u64_add h 1)).
  - intros p e Hp. unfold next_round_contributors in Hp. rewrite sort_by_perm in Hp.
    match goal with Hb : existsb _ _ = false |- _ => rewrite existsb_false in Hb; specialize (Hb _ Hp) end.
    by apply bool_decide_eq_false in Hguard8.
Qed.
End precommit.

Section precommit_facts.
Context `{HO : HashOrder}.

(** A precommit deals the whole grid to the contributors it selects. *)
Lemma precommit_inv height now s ps s' :
  (0 < minimum_contributors_per_round (environment s))%nat →
  (2 * number_of_chunks (environment s) < u64_modulus)%N →
  precommit_next_round height now s = (Ok ps, s') →
  let m := number_of_chunks (environment s) in
  ready_to_precommit height now s ∧
  (0 < N.of_nat (length ps) ≤ m)%N ∧
  ps = (next_round_contributors height s).*1 ∧
  s' = precommitted height (precommit_infos height m now s) s.
Proof.
  intros Hmin Hm (Hq & Hready & cur & infos & Hc & -> & ->)%precommit_guards m.
  rewrite length_fmap.
  pose proof Hready as (_ & _ & _ & _ & _ & _ & _ & _ & Hperm).
  unfold permitted_number_of_contributors in Hperm. guards_to_props. destruct Hperm as [Hge Hle].
  set (l := next_round_contributors height s) in *.
  assert (N.of_nat (length l) ≠ 0%N) as Hn0 by lia.
  pose proof (collect_imap_inv _ _ _ Hc) as (Hlen & Hfw & Hbw).
  assert (infos = precommit_infos height m now s) as ->.
  { apply list_eq. intros k. unfold precommit_infos. fold l. rewrite list_lookup_imap.
    destruct (l !! k) as [kv|] eqn:Hk; simpl.
    - destruct (Hfw k kv Hk) as (y & Hy & Hf').
      apply precommit_contributor_inv in Hf' as [-> _]; [|done..]. done.
    - apply lookup_ge_None in Hk. apply lookup_ge_None. lia. }
  split; [done|]. split; [|done].
  destruct (lookup_lt_is_Some_2 l (length l - 1)) as [kv Hk]; [lia|].
  destruct (Hfw _ kv Hk) as (y & _ & Hf').
  apply precommit_contributor_inv in Hf' as [_ ?]; [lia|done..].
Qed.

Lemma precommitted_dealt height m now s :
  let n := N.of_nat (length (next_round_contributors height s)) in
  dealt_round m n (λ _ i, bucket_id i) (hash_map_from_iter (precommit_infos height m now s)).
Proof.
  intros n. eapply (dealt_by_position m n (next_round_contributors height s).*1).
  - by rewrite length_fmap.
  - apply next_round_contributors_NoDup.
  - apply precommit_infos_fst.
  - intros k p i (e & He & ->)%precommit_infos_lookup. simpl. split; [done|].
    unfold all_tasks. simpl. by rewrite app_nil_r.
Qed.

Lemma precommitted_next height m now s p :
  is_Some (hash_map_from_iter (precommit_infos height m now s) !! p) ↔
    p ∈ (next_round_contributors height s).*1.
Proof.
  assert (NoDup (precommit_infos height m now s).*1) as Hnd
    by (rewrite precommit_infos_fst; apply next_round_contributors_NoDup).
  rewrite <-(precommit_infos_fst height m now s), list_elem_of_fmap. split.
  - intros [i Hi]. apply hash_map_from_iter_Some in Hi; [|done]. by exists (p, i).
  - intros ([p' i] & -> & Hi). exists i. by apply hash_map_from_iter_Some.
Qed.

Lemma precommitted_queue height infos s p :
  queue (precommitted height infos s) !! p =
    if decide (p ∈ (next_round_contributors height s).*1) then None else queue s !! p.
Proof. apply foldl_delete_lookup. Qed.

Lemma precommit_succeeds height now s :
  queue s ≠ ∅ → ready_to_precommit height now s →
  (2 * number_of_chunks (environment s) < u64_modulus)%N → height ≠ 0%N →
  (N.of_nat (length (next_round_contributors height s)) ≤ number_of_chunks (environment s))%N →
  precommit_next_round height now s =
    (Ok (next_round_contributors height s).*1,
     precommitted height (precommit_infos height (number_of_chunks (environment s)) now s) s).
Proof.
  intros Hq (Hs1 & Hs2 & (h & Hh & ->) & Hn & Hf & Ha & Hw & Hb & Hperm) Hm Hh0 Hchunks.
  unfold precommit_next_round, check, gets, bind, lift, modify, ret.
  rewrite !bool_decide_eq_false_2 by done. rewrite Hh, N.eqb_refl. simpl.
  rewrite (proj2 (map_is_empty_false _) Hq), (proj2 (map_is_empty_true _) Hn), Hf, Ha, Hw. simpl.
  rewrite next_round_contributors_length in Hperm. rewrite Hperm. simpl.
  rewrite (proj2 (existsb_false _ _)).
  2:{ intros [p e] Hp. apply bool_decide_eq_false. apply (Hb p e).
      unfold next_round_contributors. by rewrite sort_by_perm. }
  fold (next_round_contributors (u64_add h 1) s).
  rewrite (collect_imap_ok _ (λ k kv, (kv.1, precommit_info (u64_add h 1) (number_of_chunks (environment s))
    (N.of_nat (length (next_round_contributors (u64_add h 1) s))) now k kv))); [done|].
  intros k [p e] Hk. apply precommit_contributor_ok; [|done..|].
  - split; [|done]. apply lookup_lt_Some in Hk. lia.
  - apply list_elem_of_lookup_2, elem_of_next_round_contributors in Hk. naive_solver.
Qed.
End precommit_facts.

(** ** Properties *)

(** C37. A successful precommit selects exactly the contributors of the queue
    assigned to the next round, most reliable first, moves them from the queue
    to the staging area, and deals them the whole (chunk, contribution) grid:
    each cell becomes the task of exactly one of them. *)
Theorem precommit_deals_the_grid `{HashOrder} height now s ps s' :
  (0 < minimum_contributors_per_round (environment s))%nat →
  (2 * number_of_chunks (environment s) < u64_modulus)%N →
  precommit_next_round height now s = (Ok ps, s') →
  status s' = Precommit ∧
  (∀ p, p ∈ ps ↔ ∃ e, queue s !! p = Some e ∧ is_contributor p = true ∧ default 0%N (q_round e) = height) ∧
  (∀ i j p q e e', i < j → ps !! i = Some p → ps !! j = Some q →
     queue s !! p = Some e → queue s !! q = Some e' → (q_reliability e' ≤ q_reliability e)%N) ∧
  (∀ p, queue s' !! p = if decide (p ∈ ps) then None else queue s !! p) ∧
  (∀ p, is_Some (next s' !! p) ↔ p ∈ ps) ∧
  covers_grid (number_of_chunks (environment s)) (N.of_nat (length ps)) (next s').
Proof.
  intros Hmin Hm (Hready & Hn & -> & ->)%precommit_inv; [|done..].
  split; [done|]. split; [|split; [|split; [|split]]].
  - intros p. rewrite list_elem_of_fmap. setoid_rewrite <-elem_of_next_round_contributors. split.
    + intros ([p' e] & -> & He). eauto.
    + intros (e & He). by exists (p, e).
  - intros i j p q e e' Hij Hp Hq He He'. rewrite list_lookup_fmap in Hp, Hq.
    destruct (_ !! i) as [[p1 e1]|] eqn:H1; simplify_eq/=.
    destruct (_ !! j) as [[q1 e2]|] eqn:H2; simplify_eq/=.
    pose proof (list_elem_of_lookup_2 _ _ _ H1) as H1'. pose proof (list_elem_of_lookup_2 _ _ _ H2) as H2'.
    apply elem_of_next_round_contributors in H1' as (? & _), H2' as (? & _). simplify_eq.
    assert (StronglySorted (λ x y, reliability_ge x y = true) (next_round_contributors height s)) as Hsort.
    { apply sort_by_sorted; unfold reliability_ge; intros; rewrite N.leb_le in *; rewrite ?N.leb_gt in *; lia. }
    pose proof (StronglySorted_lookup _ _ i j _ _ Hsort Hij H1 H2) as Hr.
    unfold reliability_ge in Hr. simpl in Hr. by apply N.leb_le in Hr.
  - intros p. apply precommitted_queue.
  - intros p. apply precommitted_next.
  - rewrite length_fmap in *. eapply dealt_round_covers; [by apply Hn|]. apply precommitted_dealt.
Qed.

(** The coordinator's readiness check is sound: when it says the next round
    is ready, the current round is finished, nothing is staged, and the
    contributors assigned to the next round are not banned and no more than the
    chunks, the precommit succeeds, with a permitted number of contributors. *)
Theorem ready_precommit_succeeds `{HashOrder} now s :
  let height := (current_round_height_or_zero s + 1)%N in
  is_precommit_next_round_ready now s = true →
  is_current_round_finished s = true → next s = ∅ →
  (height < u64_modulus)%N →
  (∀ p e, queue s !! p = Some e → default 0%N (q_round e) = height → p ∉ banned s) →
  (N.of_nat (maximum_contributors_per_round (environment s)) ≤ number_of_chunks (environment s))%N →
  (2 * number_of_chunks (environment s) < u64_modulus)%N →
  ∃ ps s', precommit_next_round height now s = (Ok ps, s') ∧
    minimum_contributors_per_round (environment s) ≤ length ps ≤ maximum_contributors_per_round (environment s).
Proof.
  intros height Hready Hf Hn Hh Hb Hmax Hm.
  unfold is_precommit_next_round_ready in Hready.
  destruct (_ || _) eqn:H1 in Hready; [done|].
  destruct (map_is_empty (queue s)) eqn:H2; [done|].
  destruct (is_none (current_round_height s)) eqn:H3; [done|].
  destruct (round_not_aggregated s) eqn:H4; [done|].
  destruct (_ || _) eqn:H5 in Hready; [done|].
  guards_to_props. destruct H1 as [H1 H1']. destruct H3 as [h H3]. destruct H5 as [H5 _].
  assert (u64_add (current_round_height_or_zero s) 1 = height) as Heq by by apply u64_add_exact.
  rewrite Heq in Hready.
  pose proof Hready as Hperm. unfold permitted_number_of_contributors in Hperm. guards_to_props.
  eexists _, _. split; [apply precommit_succeeds|].
  - done.
  - split; [done|]. split; [done|]. split.
    { exists h. split; [done|]. rewrite <-Heq. by unfold current_round_height_or_zero; rewrite H3. }
    do 4 (split; [done|]). split; [|by rewrite next_round_contributors_length].
    intros p e (? & ? & ?)%elem_of_next_round_contributors. by eapply Hb.
  - done.
  - subst height. lia.
  - rewrite next_round_contributors_length. lia.
  - rewrite length_fmap, next_round_contributors_length. lia.
Qed.

Lemma filter_all {A} (P : Participant * A → Prop) `{∀ x, Decision (P x)} (m : gmap Participant A) :
  (∀ p a, m !! p = Some a → P (p, a)) → filter P m = m.
Proof. intros Hall. apply map_filter_id. done. Qed.

Lemma is_current_round_finished_true s :
  is_current_round_finished s = true ↔ pending_verification s = ∅ ∧ current_contributors s = ∅.
Proof. unfold is_current_round_finished. by rewrite andb_true_iff, !map_is_empty_true. Qed.

(** The contributors staged by a precommit are contributors. *)
Lemma precommitted_contributors `{HashOrder} height m now s p i :
  hash_map_from_iter (precommit_infos height m now s) !! p = Some i → is_contributor p = true.
Proof.
  intros Hp. assert (is_Some (hash_map_from_iter (precommit_infos height m now s) !! p)) as Hs by eauto.
  apply precommitted_next in Hs. apply list_elem_of_fmap in Hs as ([p' e] & -> & He).
  apply elem_of_next_round_contributors in He. naive_solver.
Qed.

Lemma precommitted_size `{HashOrder} height m now s :
  size (hash_map_from_iter (precommit_infos height m now s)) = length (next_round_contributors height s).
Proof.
  assert (NoDup (precommit_infos height m now s).*1) as Hnd
    by (rewrite precommit_infos_fst; apply next_round_contributors_NoDup).
  rewrite hash_map_from_iter_to_map, map_size_list_to_map by done.
  rewrite <-(length_fmap fst), precommit_infos_fst. apply length_fmap.
Qed.

(** Precommit followed by commit starts the next round: the height advances
    by one, the current contributors are the selected ones with the whole grid
    dealt to them, the metrics count them, and the round is neither finished
    nor aggregated. *)
Theorem precommit_commit_starts_round `{HashOrder} height now s ps s1 :
  (0 < minimum_contributors_per_round (environment s))%nat →
  (2 * number_of_chunks (environment s) < u64_modulus)%N →
  precommit_next_round height now s = (Ok ps, s1) →
  let s2 := commit_next_round s1 in
  status s2 = Commit ∧ current_round_height s2 = Some height ∧ next s2 = ∅ ∧
  queue s2 = queue s1 ∧
  covers_grid (number_of_chunks (environment s)) (N.of_nat (length ps)) (current_contributors s2) ∧
  (∀ p, is_Some (current_contributors s2 !! p) ↔ p ∈ ps) ∧
  number_of_contributors <$> current_metrics s2 = Some (N.of_nat (length ps)) ∧
  finished_contributors s2 !! height = Some ∅ ∧
  is_current_round_finished s2 = false ∧ is_current_round_aggregated s2 = false.
Proof.
  intros Hmin Hm (Hready & Hn & -> & ->)%precommit_inv s2; [|done..].
  destruct Hready as (_ & _ & (h & Hh & ->) & _ & [Hpv Hcur]%is_current_round_finished_true & _).
  set (nx := hash_map_from_iter (precommit_infos (u64_add h 1) (number_of_chunks (environment s)) now s)).
  assert (contributors_in nx = nx) as Hc
    by (apply filter_all; intros; by eapply precommitted_contributors).
  assert (current_contributors s2 = nx) as Hcc.
  { unfold s2, commit_next_round. rewrite bool_decide_eq_true_2 by done. simpl. rewrite Hh. simpl.
    fold nx. by rewrite Hc, Hcur, (right_id_L ∅ (∪)). }
  assert (covers_grid (number_of_chunks (environment s))
    (N.of_nat (length (next_round_contributors (u64_add h 1) s).*1)) nx) as Hcov.
  { rewrite length_fmap in *. eapply dealt_round_covers; [by apply Hn|]. apply precommitted_dealt. }
  assert (nx ≠ ∅) as Hne.
  { intros Hnx. pose proof (precommitted_size (u64_add h 1) (number_of_chunks (environment s)) now s) as Hsz.
    fold nx in Hsz. rewrite Hnx, map_size_empty in Hsz. rewrite length_fmap in Hn. lia. }
  split; [|split; [|split; [|split; [|split; [|split; [|split; [|split; [|split]]]]]]]].
  1-4: unfold s2, commit_next_round; simpl; by rewrite Hh.
  - by rewrite Hcc.
  - intros p. rewrite Hcc. apply precommitted_next.
  - unfold s2, commit_next_round. simpl. rewrite Hh. simpl. fold nx.
    by rewrite Hc, length_fmap, <-(precommitted_size _ (number_of_chunks (environment s)) now).
  - unfold s2, commit_next_round. simpl. rewrite Hh. simpl. apply lookup_insert_eq.
  - unfold is_current_round_finished. rewrite Hcc.
    rewrite (proj2 (map_is_empty_false _) Hne). apply andb_false_r.
  - unfold s2, commit_next_round. simpl. by rewrite Hh.
Qed.

(** Precommit followed by a rollback undoes the precommit up to the clock:
    everybody is in the queue again with the same reliability and the same
    assigned round, and no other part of the state changed but the status. *)
Theorem precommit_rollback_restores_queue `{HashOrder} height now now' s ps s1 :
  (0 < minimum_contributors_per_round (environment s))%nat →
  (2 * number_of_chunks (environment s) < u64_modulus)%N → height ≠ 0%N →
  precommit_next_round height now s = (Ok ps, s1) →
  let s2 := rollback_next_round now' s1 in
  (λ e, (q_reliability e, q_round e)) <$> queue s2 = (λ e, (q_reliability e, q_round e)) <$> queue s ∧
  s2 = set_status Rollback (set_queue (queue s2) s).
Proof.
  intros Hmin Hm Hh (Hready & Hn & -> & ->)%precommit_inv s2; [|done..].
  destruct Hready as (_ & _ & _ & Hnext & _).
  set (m := number_of_chunks (environment s)) in *.
  split.
  - apply map_eq. intros p. rewrite !lookup_fmap.
    unfold s2, rollback_next_round. simpl. rewrite lookup_union, lookup_fmap, foldl_delete_lookup.
    destruct (hash_map_from_iter (precommit_infos height m now s) !! p) as [i|] eqn:Hi.
    + pose proof (ex_intro _ i Hi : is_Some _) as Hs. apply precommitted_next in Hs.
      rewrite decide_True by done. simpl.
      apply hash_map_from_iter_Some in Hi;
        [|rewrite precommit_infos_fst; apply next_round_contributors_NoDup].
      apply list_elem_of_lookup in Hi as (k & (e & He & ->)%precommit_infos_lookup).
      apply list_elem_of_lookup_2, elem_of_next_round_contributors in He as (-> & _ & Hr). simpl.
      destruct (q_round e); simplify_eq/=; done.
    + rewrite decide_False; [by destruct (queue s !! p)|].
      intros Hs. apply (precommitted_next height m now) in Hs. rewrite Hi in Hs. by destruct Hs.
  - unfold s2, rollback_next_round. simpl. destruct s; simpl in *. by subst.
Qed.

(** [update_queue] is first come, first served: the authorized contributors
    of the queue, in the order they joined, fill the coming rounds slice by
    slice, each round but the last with exactly the maximum number of
    contributors.  Nobody else stays in the queue, and the rest of an entry is
    kept. *)
Theorem update_queue_fifo `{HashOrder} s h :
  let maximum := maximum_contributors_per_round (environment s) in
  current_round_height s = Some h → maximum ≠ 0%nat →
  (h + 1 + N.of_nat (size (queue s)) < u64_modulus)%N →
  ∃ s' order, update_queue s = (Ok tt, s') ∧ NoDup order ∧
    (∀ p, p ∈ order ↔ is_Some (queue s !! p) ∧ is_contributor p = true ∧ p ∉ banned s) ∧
    (∀ i j p q e e', i < j → order !! i = Some p → order !! j = Some q →
       queue s !! p = Some e → queue s !! q = Some e' → (q_joined e ≤ q_joined e')%Z) ∧
    (∀ p, is_Some (queue s' !! p) ↔ p ∈ order) ∧
    (∀ i p, order !! i = Some p → ∃ e, queue s !! p = Some e ∧
       queue s' !! p = Some (MkQueueEntry (q_reliability e) (Some (h + 1 + N.of_nat (i / maximum))%N)
                              (q_last_seen e) (q_joined e))).
Proof.
  intros maximum Hh Hmax Hfit. unfold update_queue. rewrite Hh.
  fold maximum. rewrite (proj2 (Nat.eqb_neq _ _) Hmax).
  set (l := queued_by_joined s). set (l' := imap (assign_round (u64_add h 1) maximum) l).
  assert (∀ p e, (p, e) ∈ l ↔ queue s !! p = Some e ∧ is_contributor p = true ∧ p ∉ banned s) as Hl.
  { intros p e. unfold l, queued_by_joined. rewrite list_elem_of_filter, sort_by_perm, elem_of_hash_iter. simpl.
    rewrite andb_true_iff, negb_true_iff. unfold is_banned_participant. rewrite bool_decide_eq_false. tauto. }
  assert (NoDup l.*1) as Hnd.
  { unfold l, queued_by_joined. apply NoDup_fmap_fst_filter. rewrite sort_by_perm. apply hash_iter_NoDup. }
  assert (l'.*1 = l.*1) as Hfst.
  { apply list_eq. intros k. unfold l'. rewrite !list_lookup_fmap, list_lookup_imap. by destruct (l !! k). }
  assert (length l ≤ size (queue s)) as Hlen.
  { transitivity (length (sort_by joined_le (hash_iter (queue s)))); [apply length_filter|].
    by rewrite sort_by_length, hash_iter_length. }
  eexists _, l.*1. split; [done|]. split; [done|]. split; [|split; [|split]].
  - intros p. rewrite list_elem_of_fmap. split.
    + intros ([p' e] & -> & (? & ? & ?)%Hl). eauto.
    + intros ([e He] & ? & ?). exists (p, e). split; [done|]. by apply Hl.
  - intros i j p q e e' Hij Hp Hq He He'. rewrite list_lookup_fmap in Hp, Hq.
    destruct (l !! i) as [[p1 e1]|] eqn:H1; simplify_eq/=. destruct (l !! j) as [[q1 e2]|] eqn:H2; simplify_eq/=.
    pose proof (list_elem_of_lookup_2 _ _ _ H1) as (? & _)%Hl.
    pose proof (list_elem_of_lookup_2 _ _ _ H2) as (? & _)%Hl. simplify_eq.
    assert (StronglySorted (λ x y, joined_le x y = true) l) as Hsort.
    { unfold l, queued_by_joined. apply StronglySorted_filter, sort_by_sorted;
        unfold joined_le; intros; rewrite Z.leb_le in *; rewrite ?Z.leb_gt in *; lia. }
    pose proof (StronglySorted_lookup _ _ i j _ _ Hsort Hij H1 H2) as Hr. by apply Z.leb_le in Hr.
  - intros p. simpl. rewrite <-Hfst, list_elem_of_fmap. split.
    + intros [e He]. apply hash_map_from_iter_Some in He; [|by rewrite Hfst]. by exists (p, e).
    + intros ([p' e] & -> & He). exists e. apply hash_map_from_iter_Some; [by rewrite Hfst | done].
  - intros i p Hp. rewrite list_lookup_fmap in Hp. destruct (l !! i) as [[p' e]|] eqn:Hi; simplify_eq/=.
    pose proof (list_elem_of_lookup_2 _ _ _ Hi) as (Hq & _)%Hl. exists e. split; [done|].
    apply hash_map_from_iter_Some; [by rewrite Hfst|]. apply list_elem_of_lookup. exists i.
    unfold l'. rewrite list_lookup_imap, Hi. simpl. unfold assign_round. simpl.
    apply lookup_lt_Some in Hi. pose proof (Nat.Div0.div_le_upper_bound i maximum i ltac:(nia)).
    rewrite !u64_add_exact by (rewrite ?u64_add_exact by lia; lia). done.
Qed.

(** [update_current_contributors] loses nobody: a contributor that can
    finish leaves the round with its finished info recorded under the current
    height, everybody else stays unchanged, and earlier finishers are kept. *)
Lemma update_current_contributors_partition now s h finished :
  current_round_height s = Some h → finished_contributors s !! h = Some finished →
  (∀ p i, current_contributors s !! p = Some i → finished_at i = None) →
  ∃ s', update_current_contributors now s = (Ok tt, s') ∧
    (∀ p i, current_contributors s !! p = Some i →
       match finish now i with
       | (Ok _, i') => current_contributors s' !! p = None ∧
                       finished_contributors_of h s' !! p = Some i' ∧ is_finished i' = true
       | _ => current_contributors s' !! p = Some i ∧ finished_contributors_of h s' !! p = finished !! p
       end) ∧
    (∀ p, current_contributors s !! p = None →
       current_contributors s' !! p = None ∧ finished_contributors_of h s' !! p = finished !! p).
Proof.
  intros Hh Hf Hnone.
  assert (∀ p i, current_contributors s !! p = Some i → is_finished i = false) as Hnf.
  { intros p i Hi. unfold is_finished. rewrite (Hnone p i Hi). by repeat case_match. }
  unfold update_current_contributors. rewrite Hh. cbn [set_current_contributors].
  set (cur := current_contributors s) in *.
  set (staying := filter (λ kv, keeps_contributing now kv.2 = true) cur).
  set (fin := omap (newly_finished now) cur).
  assert (∀ p i, cur !! p = Some i → keeps_contributing now i = is_none (newly_finished now i)) as Hk.
  { intros p i Hi. unfold keeps_contributing, newly_finished. rewrite (Hnf p i Hi). by destruct (run_on _ _). }
  assert (size cur = size staying + size fin) as Hsize.
  { rewrite <-(size_dom fin). assert (dom fin = dom (filter (λ kv, ¬ keeps_contributing now kv.2 = true) cur)) as ->.
    { apply set_eq. intros p. rewrite !elem_of_dom. unfold fin.
      rewrite lookup_omap, map_filter_lookup_decide. destruct (cur !! p) as [i|] eqn:Hi; simpl; [|done].
      rewrite (Hk p i Hi). by destruct (newly_finished now i). }
    rewrite size_dom, <-map_size_disj_union
      by apply (map_disjoint_filter_complement (λ kv, keeps_contributing now kv.2 = true)).
    unfold staying. by rewrite (map_filter_union_complement (λ kv, keeps_contributing now kv.2 = true) cur). }
  rewrite (proj2 (Nat.eqb_eq _ _) Hsize). simpl. rewrite Hf. eexists. split; [done|].
  unfold finished_contributors_of. simpl. rewrite lookup_insert_eq. simpl.
  split.
  - intros p i Hi. pose proof (Hk p i Hi) as Hkp. unfold newly_finished, run_on in Hkp.
    rewrite (Hnf p i Hi) in Hkp.
    assert (fin !! p = ok_value (run_on (finish now) i)) as Hfin
      by (unfold fin; rewrite lookup_omap, Hi; simpl; unfold newly_finished; by rewrite (Hnf p i Hi)).
    unfold run_on in Hfin. unfold staying. rewrite map_filter_lookup_decide, Hi. simpl.
    destruct (finish now i) as [[u|e|] i'] eqn:Hfi; simpl in *; rewrite lookup_union, Hfin, Hkp; simpl.
    + split; [done|]. split; [by destruct (finished !! p)|].
      by apply finish_is_finished in Hfi.
    + split; [done|]. by rewrite (left_id_L None union).
    + split; [done|]. by rewrite (left_id_L None union).
  - intros p Hp. unfold staying. rewrite map_filter_lookup_decide, Hp. simpl. split; [done|].
    rewrite lookup_union. unfold fin. rewrite lookup_omap, Hp. simpl. by rewrite (left_id_L None union).
Qed.

(** ** Reset *)

Definition restarted_info (tasks : list Task) (now : Z) (i : ParticipantInfo) : ParticipantInfo :=
  set_assigned_tasks tasks (set_started_at (Some now) (set_last_seen now
    (clear_round_times (clear_locks (clear_tasks i))))).

Lemma restart_tasks_ok tasks now i :
  round_height i ≠ 0%N → run_on (restart_tasks tasks now) i = Ok (restarted_info tasks now i).
Proof.
  intros Hh. unfold run_on, restart_tasks, bind, modify, start, check. simpl.
  by rewrite (proj2 (N.eqb_neq _ _) Hh).
Qed.

Lemma update_round_metrics_frame `{HashOrder} s : ∃ m, update_round_metrics s = set_current_metrics m s.
Proof.
  unfold update_round_metrics. destruct (is_current_round_finished s); [exists (current_metrics s); by destruct s|].
  destruct (current_metrics s) eqn:Hm; [|exists None; by destruct s; simpl in *; subst].
  destruct (update_averages _) as [[m ?] ?]. by eexists.
Qed.

Lemma initialize_fresh h s :
  current_round_height s = None → current_metrics s = None →
  finished_contributors s = ∅ → finished_verifiers s = ∅ →
  initialize h s =
    set_status Initialized (set_finished_verifiers (<[h:=∅]> ∅) (set_finished_contributors (<[h:=∅]> ∅)
      (set_current_metrics (Some round_metrics_default) (set_current_round_height (Some h) s)))).
Proof.
  destruct s; simpl; intros -> -> -> ->. unfold initialize, contains_key. simpl.
  rewrite lookup_empty. simpl. by rewrite lookup_empty.
Qed.

(** With the height and the metrics set, only the finished maps and the status
    change. *)
Lemma initialize_frame h s :
  current_round_height s ≠ None → current_metrics s ≠ None →
  ∃ fc fv, initialize h s = set_status Initialized (set_finished_verifiers fv (set_finished_contributors fc s)).
Proof.
  destruct s as [? ? ? ? [m|] [h'|] ? ? ? ? fc fv ? ? ?]; simpl; [|done..]. intros _ _.
  exists (if contains_key h fc then fc else <[h := ∅]> fc), (if contains_key h fv then fv else <[h := ∅]> fv).
  unfold initialize. simpl. destruct (contains_key h fc); simpl; by destruct (contains_key h fv).
Qed.

Section reset.
Context `{HO : HashOrder}.

Lemma round_contributors_NoDup h s :
  current_contributors s ##ₘ finished_contributors_of h s → NoDup (round_contributors h s).*1.
Proof.
  intros Hd. unfold round_contributors. rewrite fmap_app, NoDup_app.
  split; [apply hash_iter_NoDup|]. split; [|apply hash_iter_NoDup].
  intros p ([p1 i1] & -> & H1)%list_elem_of_fmap ([p2 i2] & Heq & H2)%list_elem_of_fmap. simpl in Heq. subst.
  apply elem_of_hash_iter in H1, H2. by eapply map_disjoint_spec.
Qed.

Lemma elem_of_round_contributors h s p i :
  (p, i) ∈ round_contributors h s ↔
    current_contributors s !! p = Some i ∨ finished_contributors_of h s !! p = Some i.
Proof. unfold round_contributors. by rewrite elem_of_app, !elem_of_hash_iter. Qed.

Definition restarted_infos (h m : N) (now : Z) (s : CoordinatorState) : list (Participant * ParticipantInfo) :=
  let l := round_contributors h s in
  imap (λ k kv, (kv.1, restarted_info (deal_list (N.of_nat k) m (N.of_nat (length l))) now kv.2)) l.

Lemma restarted_infos_fst h m now s :
  (restarted_infos h m now s).*1 = (round_contributors h s).*1.
Proof.
  unfold restarted_infos. apply list_eq. intros k.
  rewrite !list_lookup_fmap, list_lookup_imap. by destruct (_ !! k).
Qed.

Lemma restart_contributors_ok h now s :
  let m := number_of_chunks (environment s) in
  (∀ p i, (p, i) ∈ round_contributors h s → round_height i ≠ 0%N) →
  (N.of_nat (length (round_contributors h s)) ≤ m)%N → (2 * m < u64_modulus)%N →
  restart_contributors h now s = Ok (hash_map_from_iter (restarted_infos h m now s)).
Proof.
  intros m Hh Hn Hm. unfold restart_contributors.
  erewrite collect_imap_ok; [reflexivity|]. intros k [p i] Hk. unfold restart_contributor.
  pose proof (lookup_lt_Some _ _ _ Hk). rewrite initialize_tasks'_deal by (done || lia). simpl.
  rewrite restart_tasks_ok by by eapply Hh, list_elem_of_lookup_2. done.
Qed.

(** The bucket a participant restarts in: its position in the list. *)
Definition restart_bucket (h : N) (s : CoordinatorState) (p : Participant) : N :=
  N.of_nat (default 0 (fst <$> list_find (p =.) (round_contributors h s).*1)).

Lemma restarted_dealt h m now s :
  NoDup (round_contributors h s).*1 →
  dealt_round m (N.of_nat (length (round_contributors h s))) (λ p _, restart_bucket h s p)
    (hash_map_from_iter (restarted_infos h m now s)).
Proof.
  intros Hnd. eapply (dealt_by_position m _ (round_contributors h s).*1).
  - by rewrite length_fmap.
  - done.
  - apply restarted_infos_fst.
  - intros k p i Hk. unfold restarted_infos in Hk. rewrite list_lookup_imap in Hk.
    destruct (round_contributors h s !! k) as [[p' j]|] eqn:Hj; simplify_eq/=. split.
    + unfold restart_bucket. assert ((round_contributors h s).*1 !! k = Some p) as Hp
        by by rewrite list_lookup_fmap, Hj.
      assert (list_find (p =.) (round_contributors h s).*1 = Some (k, p)) as ->; [|done].
      apply list_find_Some. split; [done|]. split; [done|]. intros j' y Hy Hlt <-.
      pose proof (NoDup_lookup _ _ _ _ Hnd Hy Hp). lia.
    + unfold all_tasks. simpl. by rewrite app_nil_r.
Qed.

Lemma restarted_dom h m now s p :
  NoDup (round_contributors h s).*1 →
  is_Some (hash_map_from_iter (restarted_infos h m now s) !! p) ↔ p ∈ (round_contributors h s).*1.
Proof.
  intros Hnd. rewrite <-(restarted_infos_fst h m now s), list_elem_of_fmap.
  assert (NoDup (restarted_infos h m now s).*1) by by rewrite restarted_infos_fst.
  split.
  - intros [i Hi]. exists (p, i). split; [done|]. by apply hash_map_from_iter_Some.
  - intros ([p' i] & -> & Hi). exists i. by apply hash_map_from_iter_Some.
Qed.

Lemma restarted_lookup h m now s p i :
  NoDup (round_contributors h s).*1 →
  hash_map_from_iter (restarted_infos h m now s) !! p = Some i →
  ∃ j tasks, (p, j) ∈ round_contributors h s ∧ i = restarted_info tasks now j.
Proof.
  intros Hnd Hi. apply hash_map_from_iter_Some in Hi; [|by rewrite restarted_infos_fst].
  apply list_elem_of_lookup in Hi as (k & Hk). unfold restarted_infos in Hk. rewrite list_lookup_imap in Hk.
  destruct (_ !! k) as [[p' j]|] eqn:Hj; simplify_eq/=. eapply list_elem_of_lookup_2 in Hj. eauto.
Qed.
End reset.

(** The contributors of a round that can be reset. *)
Record resettable `{HashOrder} (h : N) (s : CoordinatorState) : Prop := {
  reset_height : current_round_height s = Some h ∧ h ≠ 0%N;
  reset_disjoint : current_contributors s ##ₘ finished_contributors_of h s;
  reset_heights p i : (p, i) ∈ round_contributors h s → round_height i ≠ 0%N;
  reset_enough : (N.of_nat (length (round_contributors h s)) ≤ number_of_chunks (environment s))%N;
  reset_fits : (2 * number_of_chunks (environment s) < u64_modulus)%N;
}.

Lemma reset_current_round_run `{HashOrder, TimeApi} h force now s :
  resettable h s →
  let restarted := hash_map_from_iter (restarted_infos h (number_of_chunks (environment s)) now s) in
  reset_current_round force now s =
    if force || (length (round_contributors h s) =? 0)%nat
    then (Ok (MkResetAction (round_contributors h s).*1 true), rolled_back h now restarted s)
    else (Ok (MkResetAction [] false), restarted_round h restarted s).
Proof.
  intros [[Hh Hz] Hd Hhs Hn Hm] restarted. unfold reset_current_round, gets, lift, bind, check. rewrite Hh. simpl.
  rewrite (proj2 (N.eqb_neq _ _) Hz), restart_contributors_ok by done. simpl.
  by destruct (force || _).
Qed.

(** Resetting a round that still has contributors keeps them all, finished
    ones included, and deals the whole grid to them afresh: nobody holds a
    lock, a pending or a completed task, nothing awaits verification, and the
    height, the queue, the bans and the drops are untouched. *)
Theorem reset_redeals_the_grid `{HashOrder, TimeApi} h now s :
  resettable h s → round_contributors h s ≠ [] →
  ∃ s', reset_current_round false now s = (Ok (MkResetAction [] false), s') ∧
    covers_grid (number_of_chunks (environment s)) (N.of_nat (length (round_contributors h s)))
      (current_contributors s') ∧
    (∀ p, is_Some (current_contributors s' !! p) ↔
       is_Some (current_contributors s !! p) ∨ is_Some (finished_contributors_of h s !! p)) ∧
    (∀ p i, current_contributors s' !! p = Some i →
       locked_chunks i = ∅ ∧ pending_tasks i = [] ∧ completed_tasks i = [] ∧ disposing_tasks i = [] ∧ active i) ∧
    pending_verification s' = ∅ ∧ finished_contributors_of h s' = ∅ ∧ current_round_height s' = Some h ∧
    queue s' = queue s ∧ banned s' = banned s ∧ CoordinatorState.dropped s' = CoordinatorState.dropped s.
Proof.
  intros Hr Hne. pose proof Hr as [[Hh Hz] Hd Hhs Hn Hm].
  pose proof (round_contributors_NoDup h s Hd) as Hnd.
  pose proof (reset_current_round_run h false now s Hr) as Hrun. simpl in Hrun.
  destruct (Nat.eqb_spec (length (round_contributors h s)) 0) as [Hl|_];
    [by apply nil_length_inv in Hl|].
  set (r := hash_map_from_iter _) in Hrun.
  eexists. split; [exact Hrun|]. unfold restarted_round.
  match goal with |- context [update_round_metrics ?x] => destruct (update_round_metrics_frame x) as [mt ->] end.
  rewrite initialize_fresh by done. unfold finished_contributors_of. simpl. rewrite lookup_insert_eq. simpl.
  split; [|split; [|split; [|done]]].
  - eapply dealt_round_covers; [done|]. by apply restarted_dealt.
  - intros p. unfold r. rewrite restarted_dom by done. rewrite list_elem_of_fmap. split.
    + intros ([p' i] & -> & [Hi|Hi]%elem_of_round_contributors); eauto.
    + intros [[i Hi]|[i Hi]]; exists (p, i); (split; [done|]); apply elem_of_round_contributors; eauto.
  - intros p i (j & tasks & _ & ->)%restarted_lookup; [|done].
    unfold active. simpl. split_and!; eauto.
Qed.

(** Forcing a reset rolls back to the end of the previous round: everybody
    of the round and of the staging area is in the queue with the reliability
    and the round it had, the height is one less, and the two conditions the
    code logs an error about do hold: the round is finished and aggregated. *)
Theorem forced_reset_rolls_back `{HashOrder, TimeApi} h now s :
  resettable h s → (h < u64_modulus)%N →
  ∃ s', reset_current_round true now s = (Ok (MkResetAction (round_contributors h s).*1 true), s') ∧
    status s' = Initialized ∧ current_round_height s' = Some (h - 1)%N ∧
    current_contributors s' = ∅ ∧ next s' = ∅ ∧ banned s' = banned s ∧
    is_current_round_finished s' = true ∧ is_current_round_aggregated s' = true ∧
    (∀ p i, next s !! p = Some i → queue s' !! p = Some (requeued now i)) ∧
    (∀ p i, next s !! p = None → (p, i) ∈ round_contributors h s → queue s' !! p = Some (requeued now i)) ∧
    (∀ p, next s !! p = None → p ∉ (round_contributors h s).*1 → queue s' !! p = queue s !! p).
Proof.
  intros Hr Hfit. pose proof Hr as [[Hh Hz] Hd _ _ _].
  pose proof (round_contributors_NoDup h s Hd) as Hnd.
  pose proof (reset_current_round_run h true now s Hr) as Hrun. simpl in Hrun.
  set (r := hash_map_from_iter _) in Hrun.
  eexists. split; [exact Hrun|]. unfold rolled_back. rewrite u64_sub_exact by lia.
  match goal with |- context [initialize ?k ?x] =>
    destruct (initialize_frame k x) as (fc & fv & ->); [done..|] end.
  do 7 (split; [done|]). simpl.
  assert (∀ p i, (p, i) ∈ round_contributors h s → ∃ j, r !! p = Some j ∧ requeued now j = requeued now i) as Hback.
  { intros p i Hp. destruct (proj2 (restarted_dom h (number_of_chunks (environment s)) now s p Hnd)) as [j Hj].
    { apply list_elem_of_fmap. by exists (p, i). }
    exists j. split; [done|]. apply restarted_lookup in Hj as (i' & tasks & Hi' & ->); [|done].
    assert (i' = i) as -> by (by eapply NoDup_fst_inj). done. }
  split; [|split].
  - intros p i Hp. by rewrite !lookup_union, !lookup_fmap, Hp; simpl; rewrite !union_Some_l.
  - intros p i Hp (j & Hj & <-)%Hback. rewrite !lookup_union, !lookup_fmap, Hp, Hj. simpl.
    by rewrite (left_id_L None union), union_Some_l.
  - intros p Hp Hnot. rewrite !lookup_union, !lookup_fmap, Hp.
    destruct (r !! p) eqn:Hj; simpl; [|by rewrite !(left_id_L None union)].
    destruct Hnot. apply (restarted_dom h (number_of_chunks (environment s)) now s p Hnd). by eexists.
Qed.

(** ** A round with two contributors *)

#[local] Existing Instance trie_order.
#[local] Existing Instance time_api.

Definition alice : Participant := Contributor "alice".
Definition bob : Participant := Contributor "bob".

Definition ex_env : Environment := set_maximum_contributors_per_round 3 testing_environment.

(** Round 0 is over and both contributors wait for round 1. *)
Definition ex_waiting : CoordinatorState :=
  set_queue {[ alice := MkQueueEntry 7 (Some 1%N) 0 1; bob := MkQueueEntry 10 (Some 1%N) 0 2 ]}
    (set_current_metrics (Some (set_next_round_after (Some 0%Z) round_metrics_default))
      (initialize 0 (coordinator_state_new ex_env))).
Definition ex_precommitted : CoordinatorState := (precommit_next_round 1 50 ex_waiting).2.
Definition ex_running : CoordinatorState := commit_next_round ex_precommitted.

Example ex_precommit_order : (precommit_next_round 1 50 ex_waiting).1 = Ok [bob; alice].
Proof. vm_compute. reflexivity. Qed.
Example ex_tasks_of_alice :
  assigned_tasks <$> (current_contributors ex_running !! alice) = Some [MkTask 1 1; MkTask 2 1; MkTask 0 2].
Proof. vm_compute. reflexivity. Qed.

Lemma precommit_deals_the_grid_witness : covers_grid 3 2 (next ex_precommitted).
Proof.
  apply (precommit_deals_the_grid 1 50 ex_waiting [bob; alice] ex_precommitted).
  - vm_compute. lia.
  - vm_compute. reflexivity.
  - vm_compute. reflexivity.
Defined.

Lemma ready_precommit_succeeds_witness :
  ∃ ps s', precommit_next_round 1 50 ex_waiting = (Ok ps, s') ∧ 1 ≤ length ps ≤ 3.
Proof.
  apply (ready_precommit_succeeds 50 ex_waiting).
  - vm_compute. reflexivity.
  - vm_compute. reflexivity.
  - reflexivity.
  - vm_compute. reflexivity.
  - intros p e _ _. apply not_elem_of_empty.
  - vm_compute. discriminate.
  - vm_compute. reflexivity.
Defined.

Lemma precommit_commit_starts_round_witness :
  is_current_round_finished ex_running = false ∧ covers_grid 3 2 (current_contributors ex_running).
Proof.
  destruct (precommit_commit_starts_round 1 50 ex_waiting [bob; alice] ex_precommitted)
    as (_ & _ & _ & _ & Hcov & _ & _ & _ & Hf & _).
  - vm_compute. lia.
  - vm_compute. reflexivity.
  - vm_compute. reflexivity.
  - split; [exact Hf | exact Hcov].
Defined.

Lemma precommit_rollback_restores_queue_witness :
  (λ e, (q_reliability e, q_round e)) <$> queue (rollback_next_round 60 ex_precommitted) =
  (λ e, (q_reliability e, q_round e)) <$> queue ex_waiting.
Proof.
  apply (precommit_rollback_restores_queue 1 50 60 ex_waiting [bob; alice] ex_precommitted).
  - vm_compute. lia.
  - vm_compute. reflexivity.
  - discriminate.
  - vm_compute. reflexivity.
Defined.

Lemma update_queue_fifo_witness :
  ∃ s' order, update_queue ex_waiting = (Ok tt, s') ∧ NoDup order ∧ ∀ p, is_Some (queue s' !! p) ↔ p ∈ order.
Proof.
  destruct (update_queue_fifo ex_waiting 0) as (s' & order & Hrun & Hnd & _ & _ & Hdom & _).
  - reflexivity.
  - discriminate.
  - vm_compute. reflexivity.
  - by exists s', order.
Defined.

Lemma ex_running_resettable : resettable 1 ex_running.
Proof.
  split.
  - by vm_compute.
  - apply (bool_decide_unpack _). vm_compute. exact I.
  - assert (Forall (λ kv, round_height kv.2 ≠ 0%N) (round_contributors 1 ex_running)) as Hall
      by (apply (bool_decide_unpack _); vm_compute; exact I).
    rewrite Forall_forall in Hall. intros p i Hi. apply (Hall _ Hi).
  - by vm_compute.
  - by vm_compute.
Qed.

Lemma reset_redeals_the_grid_witness :
  ∃ s', reset_current_round false 80 ex_running = (Ok (MkResetAction [] false), s') ∧
    covers_grid 3 2 (current_contributors s').
Proof.
  destruct (reset_redeals_the_grid 1 80 ex_running) as (s' & Hrun & Hcov & _).
  - apply ex_running_resettable.
  - by vm_compute.
  - exists s'. split; [exact Hrun | exact Hcov].
Defined.

Lemma forced_reset_rolls_back_witness :
  ∃ s', reset_current_round true 80 ex_running = (Ok (MkResetAction (round_contributors 1 ex_running).*1 true), s') ∧
    current_round_height s' = Some 0%N.
Proof.
  destruct (forced_reset_rolls_back 1 80 ex_running) as (s' & Hrun & _ & Hh & _).
  - apply ex_running_resettable.
  - vm_compute. reflexivity.
  - exists s'. split; [exact Hrun | exact Hh].
Defined.
