(* ===== verification/DropParticipant.v ===== *)
(** * Dropping and banning participants

    [drop_participant] of [CoordinatorState] with its two storage actions, the
    timeouts that trigger it, and the ban list. *)

From S2P Require Import Prelude Task Participant Errors Environment ParticipantInfo RoundMetrics CoordinatorState RoundTransition.
(** ** Actions on the storage *)

Record ReplaceContributorStorageAction := MkReplaceAction {
  dropped_contributor : Participant;
  replaced_bucket_id : N;
  replaced_locked_chunks : list N;
  replaced_tasks : list Task;
  replacement_contributor : Participant;
}.

Inductive CeremonyStorageAction :=
| ResetCurrentRound (action : ResetCurrentRoundStorageAction)
| ReplaceContributor (action : ReplaceContributorStorageAction).

Inductive DropParticipant :=
| DropCurrent (participant : Participant) (storage_action : CeremonyStorageAction)
| DropQueue (participant : Participant).

(** ** From the queue and the precommit *)

(** The loop over the addresses of the participant. *)
Definition forget_ip (p : Participant) (ips : gmap IpAddr (gset Participant))
    (entry : IpAddr * gset Participant) : gmap IpAddr (gset Participant) :=
  let '(ip, participants) := entry in
  if (size participants =? 1)%nat then delete ip ips
  else alter (λ ps, ps ∖ {[p]}) ip ips.

Definition forget_ips `{HashOrder} (p : Participant) (s : CoordinatorState) : CoordinatorState :=
  let ips := filter (λ entry, p ∈ entry.2) (hash_iter (contributor_ips s)) in
  set_contributor_ips (foldl (forget_ip p) (contributor_ips s) ips) s.

Definition in_queue_or_next (p : Participant) (s : CoordinatorState) : bool :=
  contains_key p (queue s) || contains_key p (next s).

Definition drop_from_queue `{HashOrder} (p : Participant) (now : Z) (s : CoordinatorState)
    : CoordinatorState :=
  let s := set_queue (delete p (queue s)) s in
  let s := if contains_key p (next s)
           then rollback_next_round now (set_next (delete p (next s)) s) else s in
  forget_ips p s.

(** ** From the current round *)

(** Whether the task builds on the dropped contribution to its chunk. *)
Definition builds_on (tasks_by_chunk : gmap N N) (t : Task) : bool :=
  match tasks_by_chunk !! chunk_id t with
  | Some dropped_contribution => (dropped_contribution <? contribution_id t)%N
  | None => false
  end.

(** The task lists of a contributor after the drop: pending tasks on a chunk of
    the dropped contributor are disposing, completed tasks that build on its
    work are disposed. *)
Definition dispose_affected (tasks_by_chunk : gmap N N) (i : ParticipantInfo) : ParticipantInfo :=
  let '(disposing, pending) :=
    partition_by (λ t, contains_key (chunk_id t) tasks_by_chunk) (pending_tasks i) in
  let i := set_pending_tasks pending (set_disposing_tasks disposing i) in
  let '(disposed, completed) := partition_by (builds_on tasks_by_chunk) (completed_tasks i) in
  set_disposed_tasks (disposed_tasks i ++ disposed) (set_completed_tasks completed i).

(** The chunks that are not assigned again. *)
Definition excluded_chunks (i : ParticipantInfo) : gset N :=
  list_to_set (chunk_id <$> completed_tasks i) ∪ list_to_set (chunk_id <$> pending_tasks i).

Definition reassign_tasks (tasks : list Task) (i : ParticipantInfo) : ParticipantInfo :=
  set_assigned_tasks (filter (λ t, chunk_id t ∉ excluded_chunks i) tasks) i.

(** The loop over [current_contributors.values_mut()], which also collects the
    disposed tasks.  An error leaves the contributors visited so far updated,
    and the task lists of the current one but its assigned tasks. *)
Definition reassign_contributor (chunks contributors : N) (tasks_by_chunk : gmap N N)
    (entry : Participant * ParticipantInfo)
    : M CoordinatorError (CoordinatorState * gset Task) unit :=
  let '(p, i) := entry in
  let i := dispose_affected tasks_by_chunk i in
  modify (λ '(s, disposed),
    (set_current_contributors (<[p := i]> (current_contributors s)) s,
     disposed ∪ list_to_set (disposed_tasks i))) ;;;
  let! tasks := lift (initialize_tasks' (bucket_id i) chunks contributors) in
  modify (λ '(s, disposed),
    (set_current_contributors (<[p := reassign_tasks tasks i]> (current_contributors s)) s, disposed)).

(** The body of the loop over [current_verifiers.values_mut()]. *)
Definition dispose_of_verifier (all_disposed : gset Task) (i : ParticipantInfo) : ParticipantInfo :=
  let '(disposing, pending) :=
    partition_by (λ t, bool_decide (t ∈ all_disposed)) (pending_tasks i) in
  let i := set_disposing_tasks disposing (set_pending_tasks pending i) in
  let '(disposed, completed) :=
    partition_by (λ t, bool_decide (t ∈ all_disposed)) (completed_tasks i) in
  set_disposed_tasks (disposed_tasks i ++ disposed) (set_completed_tasks completed i).

(** The load of a coordinator contributor. *)
Definition load (s : CoordinatorState) (p : Participant) : nat :=
  match current_contributors s !! p with
  | Some i => length (pending_tasks i) + length (assigned_tasks i)
  | None => 0
  end.

Definition metrics_contributors (s : CoordinatorState) : outcome CoordinatorError N :=
  ok_or (number_of_contributors <$> current_metrics s) CoordinatorStateNotInitialized.

Definition add_replacement_contributor_unsafe (bucket : N) (now : Z) : state_method Participant :=
  let! candidate := gets (λ s, min_by_key (load s) (coordinator_contributors (environment s))) in
  let! contributor := lift (ok_or candidate CoordinatorContributorMissing) in
  let! contributors := gets metrics_contributors in
  let! contributors := lift contributors in
  let! chunks := gets (λ s, number_of_chunks (environment s)) in
  let! tasks := lift (initialize_tasks' bucket chunks contributors) in
  let! height := gets current_round_height_or_zero in
  let! info := lift (run_on (start tasks now) (participant_info_new contributor height 10 bucket now)) in
  modify (λ s, set_current_contributors (<[contributor := info]> (current_contributors s)) s) ;;;
  ret contributor.

(** The loops over the remaining contributors and the verifiers, for a dropped
    contributor with the given completed tasks. *)
Definition reassign_after_drop `{HashOrder} (tasks : list Task) : state_method unit :=
  let! contributors := gets metrics_contributors in
  let! contributors := lift contributors in
  let! chunks := gets (λ s, number_of_chunks (environment s)) in
  let tasks_by_chunk := hash_map_from_iter (to_tuple <$> tasks) in
  (λ s,
    let '(o, (s', disposed)) :=
      for_each (reassign_contributor chunks contributors tasks_by_chunk)
        (hash_iter (current_contributors s)) (s, list_to_set tasks) in
    match o with
    | Ok _ => (Ok tt, set_current_verifiers (dispose_of_verifier disposed <$> current_verifiers s') s')
    | Err e => (Err e, s')
    | Panic => (Panic, s')
    end).

(** [participant_info.drop] on the copy that goes to the list of dropped
    participants. *)
Definition drop_current_contributor `{HashOrder} (participant : Participant) (info : ParticipantInfo)
    (now : Z) : state_method CeremonyStorageAction :=
  let tasks := completed_tasks info in
  let! dropped_info := lift (run_on (drop now) info) in
  reassign_after_drop tasks ;;;
  modify (λ s, set_current_contributors (delete participant (current_contributors s)) s) ;;;
  modify (λ s, set_dropped (dropped s ++ [dropped_info]) s) ;;;
  let! none_available := gets (λ s, is_nil (coordinator_contributors (environment s))) in
  if none_available then ret (ResetCurrentRound (MkResetAction [participant] false))
  else
    let! replacement := add_replacement_contributor_unsafe (bucket_id info) now in
    ret (ReplaceContributor (MkReplaceAction participant (bucket_id info)
           (hash_iter (locked_chunks info)).*1 tasks replacement)).

(** A reset adds what [reset_current_round] asks for. *)
Definition finish_storage_action `{HashOrder, TimeApi} (action : CeremonyStorageAction) (now : Z)
    : state_method CeremonyStorageAction :=
  match action with
  | ResetCurrentRound reset =>
      let! extra := reset_current_round false now in
      let participants := foldl (λ ps p, if contains ps p then ps else ps ++ [p])
                            (remove_participants reset) (remove_participants extra) in
      ret (ResetCurrentRound (MkResetAction participants (rollback reset || rollback extra)))
  | action => ret action
  end.

Definition drop_participant `{HashOrder, TimeApi} (participant : Participant) (now : Z)
    : state_method DropParticipant :=
  bail_if (λ s, bool_decide (status s = Initializing)) with CoordinatorStateNotInitialized ;;;
  let! waiting := gets (in_queue_or_next participant) in
  if waiting then modify (drop_from_queue participant now) ;;; ret (DropQueue participant)
  else
    let! info := gets (current_participant_info participant) in
    let! info := lift (ok_or info (ParticipantNotFound participant)) in
    bail_if (λ _, is_dropped info) with ParticipantAlreadyDropped ;;;
    bail_if (λ _, is_finished info) with ParticipantAlreadyFinished ;;;
    bail_if (λ _, is_verifier participant) with ExpectedContributor ;;;
    let! action := drop_current_contributor participant info now in
    let! action := finish_storage_action action now in
    ret (DropCurrent participant action).

(** ** Banning *)

Definition ban_participant `{HashOrder, TimeApi} (participant : Participant) (now : Z)
    : state_method DropParticipant :=
  bail_if is_banned_participant participant with ParticipantAlreadyBanned ;;;
  let! data := drop_participant participant now in
  match data with
  | DropCurrent _ _ =>
      modify (λ s, set_banned ({[participant]} ∪ banned s) s) ;;;
      ret data
  | DropQueue _ => fail JustificationInvalid
  end.

Definition unban_participant (participant : Participant) (s : CoordinatorState) : CoordinatorState :=
  set_banned (filter (λ p, p ≠ participant) (banned s)) s.

(** How many times a participant was dropped. *)
Definition drop_count (p : Participant) (s : CoordinatorState) : nat :=
  length (filter (λ i, pi_id i = p) (dropped s)).

Definition ban_if_exceeded (s : CoordinatorState) (i : ParticipantInfo) : CoordinatorState :=
  if is_banned_participant (pi_id i) s then s
  else if (participant_ban_threshold (environment s) <? drop_count (pi_id i) s)%nat
  then set_banned ({[pi_id i]} ∪ banned s) s
  else s.

Definition update_banned_participants (s : CoordinatorState) : CoordinatorState :=
  foldl ban_if_exceeded s (dropped s).

(** ** Timeouts *)

Definition drop_if `{HashOrder, TimeApi} (timed_out : Participant * ParticipantInfo → CoordinatorState → bool)
    (now : Z) (entry : Participant * ParticipantInfo) : state_method (option DropParticipant) :=
  let! out := gets (timed_out entry) in
  if out then let! d := drop_participant entry.1 now in ret (Some d) else ret None.

Definition not_seen (now : Z) (entry : Participant * ParticipantInfo) (s : CoordinatorState) : bool :=
  (contributor_seen_timeout (environment s) <? now - last_seen entry.2)%Z &&
  negb (is_coordinator_contributor entry.1 s).

Definition exceeded_chunks `{HashOrder} (now : Z) (i : ParticipantInfo) (s : CoordinatorState)
    : list (N * ChunkLock) :=
  filter (λ kv, (participant_lock_timeout (environment s) < now - lock_time kv.2)%Z)
    (hash_iter (locked_chunks i)).

Definition lock_exceeded `{HashOrder} (now : Z) (entry : Participant * ParticipantInfo)
    (s : CoordinatorState) : bool :=
  negb (is_coordinator_contributor entry.1 s) && negb (is_nil (exceeded_chunks now entry.2 s)).

Definition update_contributor_seen_drops `{HashOrder, TimeApi} (now : Z)
    : state_method (list DropParticipant) :=
  let! contributors := gets (λ s, hash_iter (current_contributors s)) in
  collect_map (drop_if (not_seen now) now) contributors.

Definition update_participant_lock_drops `{HashOrder, TimeApi} (now : Z)
    : state_method (list DropParticipant) :=
  let! contributors := gets (λ s, hash_iter (current_contributors s)) in
  let! verifiers := gets (λ s, hash_iter (current_verifiers s)) in
  collect_map (drop_if (lock_exceeded now) now) (contributors ++ verifiers).

Definition update_dropped_participants `{HashOrder, TimeApi} (now : Z)
    : state_method (list DropParticipant) :=
  let! seen := update_contributor_seen_drops now in
  let! locks := update_participant_lock_drops now in
  ret (seen ++ locks).

Definition drop_queued_if_not_seen `{HashOrder, TimeApi} (now : Z) (entry : Participant * QueueEntry)
    : state_method unit :=
  let! timeout := gets (λ s, queue_seen_timeout (environment s)) in
  if (timeout <? now - q_last_seen entry.2)%Z
  then drop_participant entry.1 now ;;; ret tt
  else ret tt.

Definition update_dropped_queued_participants `{HashOrder, TimeApi} (now : Z) : state_method unit :=
  let! queued := gets (λ s, hash_iter (queue s)) in
  for_each (drop_queued_if_not_seen now) queued.

(** ** Reassigning the tasks of one contributor *)

(** A contributor that is left after a drop. *)
Definition reassigned (tasks_by_chunk : gmap N N) (m n : N) (i : ParticipantInfo) : ParticipantInfo :=
  reassign_tasks (deal_list (bucket_id i) m n) (dispose_affected tasks_by_chunk i).

Lemma NoDup_chunks_inj (l : list Task) t t' :
  NoDup (chunk_id <$> l) → t ∈ l → t' ∈ l → chunk_id t = chunk_id t' → t = t'.
Proof.
  intros Hnd Ht Ht' Heq. apply (NoDup_fst_inj ((λ t, (chunk_id t, t)) <$> l) (chunk_id t)).
  - by rewrite <-list_fmap_compose.
  - apply list_elem_of_fmap. eauto.
  - rewrite Heq. apply list_elem_of_fmap. eauto.
Qed.

(** Tasks kept from a list with one task per chunk, and the rest of the list on
    the other chunks, make up the list again. *)
Lemma refill_perm (l kept : list Task) (X : gset N) :
  NoDup (chunk_id <$> l) → NoDup kept → (∀ t, t ∈ kept → t ∈ l) →
  (∀ c, c ∈ X ↔ c ∈ chunk_id <$> kept) →
  filter (λ t, chunk_id t ∉ X) l ++ kept ≡ₚ l.
Proof.
  intros Hnd Hk Hsub HX. pose proof (NoDup_fmap_1 _ _ Hnd) as Hl.
  apply NoDup_Permutation; [|done|].
  - apply NoDup_app. split; [by apply NoDup_filter|]. split; [|done].
    intros t [Hn _]%list_elem_of_filter Ht. apply Hn, HX, list_elem_of_fmap. eauto.
  - intros t. rewrite elem_of_app, list_elem_of_filter. split; [naive_solver|].
    intros Ht. destruct (decide (chunk_id t ∈ X)) as [Hin|]; [|by left]. right.
    apply HX, list_elem_of_fmap in Hin as (t' & Heq & Ht').
    by rewrite (NoDup_chunks_inj l t t') by auto.
Qed.

Lemma reassigned_lists tbc m n i :
  let i' := reassigned tbc m n i in
  pending_tasks i' = filter (λ t, contains_key (chunk_id t) tbc = false) (pending_tasks i) ∧
  disposing_tasks i' = filter (λ t, contains_key (chunk_id t) tbc = true) (pending_tasks i) ∧
  completed_tasks i' = filter (λ t, builds_on tbc t = false) (completed_tasks i) ∧
  disposed_tasks i' = disposed_tasks i ++ filter (λ t, builds_on tbc t = true) (completed_tasks i) ∧
  assigned_tasks i' = filter (λ t, chunk_id t ∉ excluded_chunks i') (deal_list (bucket_id i) m n).
Proof. done. Qed.

Lemma reassigned_deal tbc m n i :
  (bucket_id i < n)%N → (n ≤ m)%N → all_tasks i ≡ₚ deal_list (bucket_id i) m n →
  all_tasks (reassigned tbc m n i) ≡ₚ deal_list (bucket_id i) m n.
Proof.
  intros Hb Hn Hall. destruct (reassigned_lists tbc m n i) as (Hp & _ & Hc & _ & Ha).
  unfold all_tasks at 1. rewrite Ha. apply refill_perm.
  - rewrite deal_list_chunks by done. apply u64_range_NoDup.
  - rewrite Hp, Hc. pose proof (deal_list_NoDup _ _ _ Hb Hn) as Hnd. rewrite <-Hall in Hnd.
    unfold all_tasks in Hnd. apply NoDup_app in Hnd as (_ & _ & Hnd).
    apply NoDup_app in Hnd as (? & Hd & ?). apply NoDup_app. split; [by apply NoDup_filter|].
    split; [|by apply NoDup_filter].
    intros t [_ H1]%list_elem_of_filter [_ H2]%list_elem_of_filter. by eapply Hd.
  - intros t. rewrite Hp, Hc, elem_of_app, !list_elem_of_filter, <-Hall. unfold all_tasks.
    rewrite !elem_of_app. tauto.
  - intros c. unfold excluded_chunks. rewrite elem_of_union, !elem_of_list_to_set, fmap_app, elem_of_app. tauto.
Qed.

(** ** The loop over the contributors *)

Lemma reassign_loop_fold m n tbc l s d :
  NoDup l.*1 → (∀ p i, (p, i) ∈ l → (bucket_id i < n)%N) → (n ≤ m)%N → (2 * m < u64_modulus)%N →
  ∃ d', for_each (reassign_contributor m n tbc) l (s, d) =
    (Ok tt, (set_current_contributors
      (foldl (λ (c : gmap Participant ParticipantInfo) kv, <[kv.1 := kv.2]> c) (current_contributors s)
        (prod_map id (reassigned tbc m n) <$> l)) s, d')).
Proof.
  intros Hnd Hb Hn Hm. revert s d Hnd Hb. induction l as [|[p i] l IH]; intros s d Hnd Hb.
  - exists d. by destruct s.
  - apply NoDup_cons in Hnd as [_ Hnd]. cbn [for_each]. unfold bind at 1.
    unfold reassign_contributor, bind, modify, lift.
    change (bucket_id (dispose_affected tbc i)) with (bucket_id i).
    rewrite initialize_tasks'_deal by (try done; eapply Hb; by left).
    destruct (IH (set_current_contributors (<[p := reassigned tbc m n i]> (current_contributors s)) s)
      (d ∪ list_to_set (disposed_tasks (dispose_affected tbc i)))) as (d' & Hd'); [done|..].
    { intros q j Hq. eapply Hb. by right. }
    exists d'. simpl in *. rewrite insert_insert_eq. fold (reassigned tbc m n i). exact Hd'.
Qed.

Lemma reassign_loop `{HO : HashOrder} m n tbc s d :
  map_Forall (λ _ i, (bucket_id i < n)%N) (current_contributors s) → (n ≤ m)%N → (2 * m < u64_modulus)%N →
  ∃ d', for_each (reassign_contributor m n tbc) (hash_iter (current_contributors s)) (s, d) =
    (Ok tt, (set_current_contributors (reassigned tbc m n <$> current_contributors s) s, d')).
Proof.
  intros Hb Hn Hm. edestruct reassign_loop_fold as (d' & ->); [|..|done|done|].
  - apply hash_iter_NoDup.
  - intros p i Hi%elem_of_hash_iter. by apply (Hb p).
  - exists d'. do 4 f_equal. rewrite foldl_insert_to_map.
    + rewrite list_to_map_fmap, hash_iter_to_map. apply map_eq. intros p. rewrite lookup_union, !lookup_fmap.
      by destruct (current_contributors s !! p).
    + rewrite <-list_fmap_compose. unfold compose. simpl. apply hash_iter_NoDup.
Qed.

(** ** The whole drop *)

(** The state once the dropped contributor is gone, with the verifiers [v]. *)
Definition after_drop (p : Participant) (info : ParticipantInfo) (m n : N) (now : Z)
    (v : gmap Participant ParticipantInfo) (s : CoordinatorState) : CoordinatorState :=
  let tbc := hash_map_from_iter (to_tuple <$> completed_tasks info) in
  set_dropped (CoordinatorState.dropped s ++ [set_dropped_at (Some now) info])
    (set_current_contributors (delete p (reassigned tbc m n <$> current_contributors s))
      (set_current_verifiers v s)).

Lemma set_current_commute v c s :
  set_current_contributors c (set_current_verifiers v s) = set_current_verifiers v (set_current_contributors c s).
Proof. done. Qed.

(** A contributor of a running round that may be dropped: the metrics count
    [n] contributors, and the buckets of the current ones are within them. *)
Record droppable (p : Participant) (info : ParticipantInfo) (n : N) (s : CoordinatorState) : Prop := {
  drop_initialized : status s ≠ Initializing;
  drop_not_waiting : queue s !! p = None ∧ next s !! p = None;
  drop_contributor : is_contributor p = true;
  drop_current : current_contributors s !! p = Some info;
  drop_active : dropped_at info = None ∧ finished_at info = None;
  drop_count_n : metrics_contributors s = Ok n;
  drop_buckets : map_Forall (λ _ i, (bucket_id i < n)%N) (current_contributors s);
  drop_enough : (n ≤ number_of_chunks (environment s))%N;
  drop_fits : (2 * number_of_chunks (environment s) < u64_modulus)%N;
}.

Section drop.
Context `{HO : HashOrder, TA : TimeApi}.

Lemma drop_ok now i :
  dropped_at i = None → finished_at i = None → run_on (drop now) i = Ok (set_dropped_at (Some now) i).
Proof. intros Hd Hf. unfold run_on, drop, check. by rewrite Hd, Hf. Qed.

Lemma drop_participant_run p info n now s :
  droppable p info n s →
  ∃ v, drop_participant p now s =
    (let! action := (λ s,
       (if is_nil (coordinator_contributors (environment s))
        then ret (ResetCurrentRound (MkResetAction [p] false))
        else
          let! replacement := add_replacement_contributor_unsafe (bucket_id info) now in
          ret (ReplaceContributor (MkReplaceAction p (bucket_id info)
            (hash_iter (locked_chunks info)).*1 (completed_tasks info) replacement))) s) in
     let! action := finish_storage_action action now in
     ret (DropCurrent p action)) (after_drop p info (number_of_chunks (environment s)) n now v s).
Proof.
  intros [Hs [Hq Hnx] Hc Hcur [Hd Hf] Hn Hb Hnm Hm].
  assert (is_finished info = false) as Hfin by (unfold is_finished; rewrite Hf; by repeat case_match).
  assert (is_dropped info = false) as Hdr by (unfold is_dropped; by rewrite Hfin, Hd).
  destruct (reassign_loop (number_of_chunks (environment s)) n
    (hash_map_from_iter (to_tuple <$> completed_tasks info)) s (list_to_set (completed_tasks info)))
    as (d & Hloop); [done..|].
  exists (dispose_of_verifier d <$> current_verifiers s).
  unfold drop_participant, check, gets, bind at 1. rewrite bool_decide_eq_false_2 by done.
  unfold in_queue_or_next, contains_key. rewrite Hq, Hnx. simpl.
  unfold bind at 1. destruct p as [id|id]; [|done]. simpl. rewrite Hcur.
  unfold bind at 1, lift. simpl. rewrite Hdr, Hfin.
  unfold drop_current_contributor, reassign_after_drop. rewrite !bind_assoc.
  unfold bind at 1, lift. rewrite drop_ok by done. rewrite !bind_assoc.
  unfold bind at 1, gets. rewrite bind_assoc. unfold bind at 1. rewrite Hn. unfold bind at 1.
  unfold bind at 1. rewrite Hloop.
  unfold after_drop. unfold bind, modify. simpl.
  by destruct (is_nil _).
Qed.

Lemma candidate_Some s : coordinator_contributors (environment s) ≠ [] →
  ∃ r, min_by_key (load s) (coordinator_contributors (environment s)) = Some r ∧
    r ∈ coordinator_contributors (environment s) ∧
    ∀ q, q ∈ coordinator_contributors (environment s) → load s r ≤ load s q.
Proof.
  intros Hne. destruct (coordinator_contributors (environment s)) as [|q l] eqn:Hl; [done|].
  eexists. split; [done|]. by apply (min_by_key_Some (load s) (q :: l)).
Qed.

Lemma add_replacement_run b n now s h :
  coordinator_contributors (environment s) ≠ [] → metrics_contributors s = Ok n →
  (b < n ≤ number_of_chunks (environment s))%N → (2 * number_of_chunks (environment s) < u64_modulus)%N →
  current_round_height s = Some h → h ≠ 0%N →
  ∃ r, r ∈ coordinator_contributors (environment s) ∧
    (∀ q, q ∈ coordinator_contributors (environment s) → load s r ≤ load s q) ∧
    add_replacement_contributor_unsafe b now s =
      (Ok r, set_current_contributors
        (<[r := started_info r h 10 b (deal_list b (number_of_chunks (environment s)) n) now]>
          (current_contributors s)) s).
Proof.
  intros Hne Hn [Hb Hnm] Hm Hh Hh0. destruct (candidate_Some s Hne) as (r & Hr & Hin & Hmin).
  exists r. split; [done|]. split; [done|].
  unfold add_replacement_contributor_unsafe, bind, gets, lift, modify. rewrite Hr, Hn. simpl.
  rewrite initialize_tasks'_deal by done.
  unfold current_round_height_or_zero. rewrite Hh. simpl. by rewrite start_new.
Qed.
End drop.

(** Everybody of the round: the current contributors and the finished ones. *)
Definition round_members (h : N) (s : CoordinatorState) : gmap Participant ParticipantInfo :=
  current_contributors s ∪ finished_contributors_of h s.

Lemma round_members_lookup h s p i :
  current_contributors s ##ₘ finished_contributors_of h s →
  round_members h s !! p = Some i ↔
    current_contributors s !! p = Some i ∨ finished_contributors_of h s !! p = Some i.
Proof. intros. unfold round_members. by apply lookup_union_Some. Qed.

(** How the members change when [r] takes the place of [p]: [r] gets the bucket
    and the whole deal of [p], whatever it was before, and the others keep
    theirs. *)
Record takes_over (m n : N) (p r : Participant) (info : ParticipantInfo)
    (ps ps' : gmap Participant ParticipantInfo) : Prop := {
  over_replacement : ∃ i, ps' !! r = Some i ∧ bucket_id i = bucket_id info ∧
    all_tasks i ≡ₚ deal_list (bucket_id info) m n;
  over_others : ∀ q, q ≠ p → q ≠ r → match ps !! q with
    | Some i => ∃ i', ps' !! q = Some i' ∧ bucket_id i' = bucket_id i ∧ all_tasks i' ≡ₚ deal_list (bucket_id i) m n
    | None => ps' !! q = None end;
  over_dropped : r ≠ p → ps' !! p = None;
}.

(** Replacing one member by a newcomer with the same bucket and a full deal,
    and keeping the bucket and the deal of the others, keeps the round dealt. *)
Lemma dealt_round_replace m n (ps ps' : gmap Participant ParticipantInfo) p r info :
  dealt_round m n (λ _ i, bucket_id i) ps → ps !! p = Some info →
  takes_over m n p r info ps ps' → (ps !! r = None ∨ r = p) →
  dealt_round m n (λ _ i, bucket_id i) ps'.
Proof.
  intros Hd Hp [(info' & Hr' & Hb & Ht) Hq Hpn] Hr.
  assert (∀ q i', ps' !! q = Some i' →
    (∃ q0 i, ps !! q0 = Some i ∧ bucket_id i' = bucket_id i ∧ all_tasks i' ≡ₚ deal_list (bucket_id i) m n ∧
      (q = r ∧ q0 = p ∨ q ≠ r ∧ q0 = q ∧ q ≠ p))) as Hback.
  { intros q i' Hi'. destruct (decide (q = r)) as [->|Hnr].
    - simplify_eq. exists p, info. naive_solver.
    - destruct (decide (q = p)) as [->|Hnp]; [rewrite Hpn in Hi' by done; done|].
      specialize (Hq q Hnp Hnr). destruct (ps !! q) as [i|] eqn:Hi; [|congruence].
      destruct Hq as (? & ? & ? & ?); simplify_eq. exists q, i. naive_solver. }
  split.
  - intros q i' (q0 & i & Hi & -> & Hl & _)%Hback. split; [|done].
    by apply (dealt_tasks _ _ _ _ Hd q0 i).
  - intros q1 i1 q2 i2 (p1 & j1 & Hj1 & -> & _ & H1)%Hback (p2 & j2 & Hj2 & -> & _ & H2)%Hback Heq.
    pose proof (dealt_once _ _ _ _ Hd _ _ _ _ Hj1 Hj2 Heq) as ->.
    destruct H1 as [[-> ->]|(? & -> & ?)], H2 as [[-> ?]|(? & ? & ?)]; naive_solver.
  - intros b Hbn. destruct (dealt_all _ _ _ _ Hd b Hbn) as (q & i & Hi & <-).
    destruct (decide (q = p)) as [->|Hnp]; [simplify_eq; by exists r, info'|].
    destruct (decide (q = r)) as [->|Hnr]; [destruct Hr; congruence|].
    specialize (Hq q Hnp Hnr). rewrite Hi in Hq. destruct Hq as (i' & ? & ? & _). eauto.
Qed.

(** If [r] was a member already, its own bucket is nobody's any more. *)
Lemma take_over_loses_bucket m n (ps ps' : gmap Participant ParticipantInfo) p r info info_r :
  (n ≤ m)%N → dealt_round m n (λ _ i, bucket_id i) ps → ps !! p = Some info →
  takes_over m n p r info ps ps' → r ≠ p → ps !! r = Some info_r → ¬ covers_grid m n ps'.
Proof.
  intros Hnm Hd Hp [(info' & Hr' & Hb & Ht) Hq Hpn] Hrp Hr [_ Hcov].
  destruct (dealt_tasks _ _ _ _ Hd r info_r Hr) as [Hbr _], (dealt_tasks _ _ _ _ Hd p info Hp) as [Hbp _].
  set (t := MkTask 0 (contribution_of (bucket_id info_r) n (m / n) 0)).
  destruct (Hcov t) as (q & (i & Hi & Hin) & _).
  { split; [simpl; lia|]. by apply contribution_of_range. }
  assert (∀ b, (b < n)%N → t ∈ deal_list b m n → b = bucket_id info_r) as Hbucket.
  { intros b Hbn [_ Heq]%elem_of_deal_list; [|done..]. symmetry.
    by apply (contribution_of_inj (bucket_id info_r) b n (m / n) 0). }
  destruct (decide (q = r)) as [->|Hqr].
  - simplify_eq. rewrite Ht in Hin. apply Hrp. symmetry.
    eapply (dealt_once _ _ _ _ Hd); [done..|]. by apply Hbucket.
  - destruct (decide (q = p)) as [->|Hqp]; [by rewrite Hpn in Hi|].
    specialize (Hq q Hqp Hqr). destruct (ps !! q) as [j|] eqn:Hj; [|congruence].
    destruct Hq as (? & ? & _ & Hl). simplify_eq. rewrite Hl in Hin.
    apply Hqr. eapply (dealt_once _ _ _ _ Hd); [done..|]. apply Hbucket; [|done].
    by apply (dealt_tasks _ _ _ _ Hd q j).
Qed.

(** Dropping a contributor when a replacement is at hand. *)
Lemma drop_with_replacement `{HashOrder, TimeApi} p info n h now s :
  let m := number_of_chunks (environment s) in
  droppable p info n s → coordinator_contributors (environment s) ≠ [] →
  current_round_height s = Some h → h ≠ 0%N →
  current_contributors s ##ₘ finished_contributors_of h s →
  dealt_round m n (λ _ i, bucket_id i) (round_members h s) →
  ∃ r s', drop_participant p now s =
      (Ok (DropCurrent p (ReplaceContributor (MkReplaceAction p (bucket_id info)
         (hash_iter (locked_chunks info)).*1 (completed_tasks info) r))), s') ∧
    r ∈ coordinator_contributors (environment s) ∧
    takes_over m n p r info (round_members h s) (round_members h s') ∧
    (∀ q i, current_contributors s !! q = Some i → q ≠ p → q ≠ r →
       ∃ i', current_contributors s' !! q = Some i' ∧
         (∀ t d, t ∈ completed_tasks i' → d ∈ completed_tasks info →
            chunk_id t = chunk_id d → (contribution_id t ≤ contribution_id d)%N) ∧
         (∀ t, t ∈ pending_tasks i' → chunk_id t ∉ chunk_id <$> completed_tasks info)) ∧
    CoordinatorState.dropped s' = CoordinatorState.dropped s ++ [set_dropped_at (Some now) info].
Proof.
  intros m Hdrop Hne Hh Hh0 Hdisj Hdeal.
  pose proof Hdrop as [_ _ _ Hcur _ Hn Hb Hnm Hm]. fold m in Hnm, Hm.
  destruct (drop_participant_run p info n now s Hdrop) as (v & ->). fold m.
  set (tbc := hash_map_from_iter (to_tuple <$> completed_tasks info)).
  set (s1 := after_drop p info m n now v s).
  change (environment s1) with (environment s).
  destruct (add_replacement_run (bucket_id info) n now s1 h) as (r & Hr & _ & Hadd); [done|done|split; [by apply (Hb p)|done]|done|done|done|].
  unfold bind at 1 2. destruct (is_nil _) eqn:Hnil; [by apply is_nil_true in Hnil|].
  unfold bind at 1. change (environment s1) with (environment s) in *. rewrite Hadd.
  eexists r, _. split; [reflexivity|]. split; [done|].
  assert (all_tasks info ≡ₚ deal_list (bucket_id info) m n) as Hinfo.
  { apply (dealt_tasks _ _ _ _ Hdeal p). apply round_members_lookup; [done|by left]. }
  assert (∀ q i, current_contributors s !! q = Some i → all_tasks i ≡ₚ deal_list (bucket_id i) m n) as Hcd.
  { intros q i Hi. apply (dealt_tasks _ _ _ _ Hdeal q). apply round_members_lookup; [done|by left]. }
  split; [|split].
  - split.
    + eexists. split; [unfold round_members; simpl; rewrite lookup_union, lookup_insert_eq; apply union_Some_l|].
      split; [done|]. unfold all_tasks. simpl. by rewrite app_nil_r.
    + intros q Hqp Hqr. unfold round_members, finished_contributors_of. simpl.
      rewrite !lookup_union, lookup_insert_ne, lookup_delete_ne, lookup_fmap by done.
      destruct (current_contributors s !! q) as [i|] eqn:Hi; simpl.
      * rewrite !union_Some_l. eexists. split; [done|]. split; [done|].
        apply reassigned_deal; [by apply (Hb q)|done|by apply (Hcd q)].
      * rewrite !(left_id_L None union). destruct (default ∅ (finished_contributors s !! h) !! q) as [i|] eqn:Hi'; [|done].
        eexists. split; [done|]. split; [done|]. apply (dealt_tasks _ _ _ _ Hdeal q).
        apply round_members_lookup; [done|by right].
    + intros Hrp. unfold round_members, finished_contributors_of. simpl.
      rewrite lookup_union, lookup_insert_ne, lookup_delete_eq by done. rewrite (left_id_L None union).
      by eapply map_disjoint_Some_r.
  - intros q i Hi Hqp Hqr. simpl. rewrite lookup_insert_ne, lookup_delete_ne, lookup_fmap, Hi by done.
    exists (reassigned tbc m n i). split; [done|].
    assert (NoDup (chunk_id <$> completed_tasks info)) as Hnd.
    { pose proof (deal_list_chunks (bucket_id info) m n ltac:(by apply (Hb p)) Hnm) as Hdc.
      rewrite <-Hinfo in Hdc. pose proof (u64_range_NoDup 0 m) as Hu. rewrite <-Hdc in Hu.
      unfold all_tasks in Hu. rewrite !fmap_app in Hu. apply NoDup_app in Hu as (_ & _ & Hu).
      by apply NoDup_app in Hu as (_ & _ & Hu). }
    assert (∀ d, d ∈ completed_tasks info → tbc !! chunk_id d = Some (contribution_id d)) as Htbc.
    { intros d Hd. apply hash_map_from_iter_Some.
      - by rewrite <-list_fmap_compose.
      - apply list_elem_of_fmap. eauto. }
    destruct (reassigned_lists tbc m n i) as (-> & _ & -> & _). split.
    + intros t d [Ht _]%list_elem_of_filter Hd Heq. unfold builds_on in Ht. rewrite Heq, (Htbc d Hd) in Ht.
      by apply N.ltb_ge.
    + intros t [Ht _]%list_elem_of_filter (d & Heq & Hd)%list_elem_of_fmap.
      rewrite Heq in Ht. unfold contains_key in Ht. by rewrite (Htbc d Hd) in Ht.
  - done.
Qed.

(** ** Properties *)


Lemma after_drop_resettable `{HashOrder} p info m n now v h s :
  resettable h s → current_contributors s !! p = Some info →
  resettable h (after_drop p info m n now v s) ∧
  length (round_contributors h s) = S (length (round_contributors h (after_drop p info m n now v s))) ∧
  (∀ q, q ∈ (round_contributors h (after_drop p info m n now v s)).*1 ↔
        q ≠ p ∧ q ∈ (round_contributors h s).*1).
Proof.
  intros [[Hh Hz] Hd Hhs Hn Hm] Hp. rewrite map_disjoint_spec in Hd. set (s1 := after_drop p info m n now v s).
  set (tbc := hash_map_from_iter (to_tuple <$> completed_tasks info)).
  assert (current_contributors s1 = delete p (reassigned tbc m n <$> current_contributors s)) as Hcur by done.
  assert (length (round_contributors h s) = S (length (round_contributors h s1))) as Hlen.
  { unfold round_contributors. rewrite !length_app, !hash_iter_length, Hcur.
    change (finished_contributors_of h s1) with (finished_contributors_of h s).
    rewrite map_size_delete, lookup_fmap, Hp, map_size_fmap. simpl.
    assert (size (current_contributors s) ≠ 0) by (apply (map_size_ne_0_lookup_2 _ p); eauto). lia. }
  assert (∀ q i', current_contributors s1 !! q = Some i' →
    q ≠ p ∧ ∃ i, current_contributors s !! q = Some i ∧ i' = reassigned tbc m n i) as Hback.
  { intros q i'. rewrite Hcur, lookup_delete_Some, lookup_fmap_Some. naive_solver. }
  split; [split|split; [done|]].
  - done.
  - apply map_disjoint_spec. intros q i' j (_ & i & Hi & _)%Hback Hj. by eapply Hd.
  - intros q i' [(_ & i & Hi & ->)%Hback|Hi]%elem_of_round_contributors.
    + apply (Hhs q i). apply elem_of_round_contributors. by left.
    + apply (Hhs q i'). apply elem_of_round_contributors. by right.
  - change (environment s1) with (environment s). lia.
  - done.
  - intros q. rewrite !list_elem_of_fmap. split.
    + intros ([q' i'] & -> & [Hi|Hi]%elem_of_round_contributors); simpl.
      * apply Hback in Hi as (Hne & i & Hi & _). split; [done|]. exists (q', i). split; [done|].
        apply elem_of_round_contributors. by left.
      * split; [intros ->; exact (Hd _ _ _ Hp Hi)|]. exists (q', i'). split; [done|].
        apply elem_of_round_contributors. by right.
    + intros (Hne & [q' i] & -> & [Hi|Hi]%elem_of_round_contributors).
      * exists (q', reassigned tbc m n i). split; [done|]. apply elem_of_round_contributors. left.
        rewrite Hcur, lookup_delete_ne, lookup_fmap by done. by rewrite Hi.
      * exists (q', i). split; [done|]. apply elem_of_round_contributors. by right.
Qed.

(** Dropping a contributor when no replacement is configured restarts the
    round for the others with the whole grid dealt to them afresh; if nobody
    is left, it rolls back to the end of the previous round instead. *)
Theorem drop_without_replacement_restarts `{HashOrder, TimeApi} p info n h now s :
  let m := number_of_chunks (environment s) in
  let left := length (round_contributors h s) - 1 in
  droppable p info n s → resettable h s → coordinator_contributors (environment s) = [] →
  (h < u64_modulus)%N →
  ∃ s', drop_participant p now s =
      (Ok (DropCurrent p (ResetCurrentRound (MkResetAction [p] (left =? 0)))), s') ∧
    (if (left =? 0)%nat
     then current_round_height s' = Some (h - 1)%N ∧ current_contributors s' = ∅ ∧
          is_current_round_finished s' = true ∧ is_current_round_aggregated s' = true
     else current_round_height s' = Some h ∧ covers_grid m (N.of_nat left) (current_contributors s') ∧
          ∀ q, is_Some (current_contributors s' !! q) ↔ q ≠ p ∧ q ∈ (round_contributors h s).*1).
Proof.
  intros m left Hdrop Hreset Hnil Hfit.
  destruct (drop_participant_run p info n now s Hdrop) as (v & ->). fold m.
  set (s1 := after_drop p info m n now v s).
  destruct (after_drop_resettable p info m n now v h s) as (Hres & Hlen & Hdom);
    [done | apply Hdrop|]. fold s1 in Hres, Hlen, Hdom.
  assert (length (round_contributors h s1) = left) as Hleft by (subst left; lia).
  unfold bind at 1. cbv beta. change (environment s1) with (environment s). rewrite Hnil. cbn [is_nil].
  unfold ret at 1, finish_storage_action, bind, ret.
  rewrite (reset_current_round_run h false now s1 Hres), Hleft. simpl.
  pose proof Hres as [[Hh Hz] Hd Hhs Hn Hm].
  pose proof (round_contributors_NoDup h s1 Hd) as Hnd.
  destruct (Nat.eqb_spec left 0) as [Hl0|Hl0].
  - assert (round_contributors h s1 = []) as -> by (apply nil_length_inv; lia).
    simpl. eexists. split; [reflexivity|].
    unfold rolled_back. rewrite u64_sub_exact by done || lia.
    match goal with |- context [initialize ?k ?x] =>
      destruct (initialize_frame k x) as (fc & fv & ->); [done..|] end.
    done.
  - simpl. eexists. split; [reflexivity|]. unfold restarted_round.
    match goal with |- context [update_round_metrics ?x] => destruct (update_round_metrics_frame x) as [mt ->] end.
    rewrite initialize_fresh by done. simpl. split; [done|]. split.
    + rewrite <-Hleft. eapply dealt_round_covers; [done|]. by apply restarted_dealt.
    + intros q. rewrite restarted_dom by done. apply Hdom.
Qed.

(** Banning a contributor of the round takes effect: it is on the list, it
    cannot join the queue again, and only unbanning lifts that. *)
Lemma ban_participant_excludes `{HashOrder, TimeApi} p now s d s' :
  ban_participant p now s = (Ok d, s') →
  p ∉ banned s ∧ banned s' = {[p]} ∪ banned (drop_participant p now s).2 ∧
  (∀ ip rel now', add_to_queue p ip rel now' s' = (Err ParticipantBanned, s')) ∧
  (∀ now', ban_participant p now' s' = (Err ParticipantAlreadyBanned, s')) ∧
  p ∉ banned (unban_participant p s').
Proof.
  intros Hrun. unfold ban_participant in Hrun. apply check_ok in Hrun as [Hb Hrun].
  apply bool_decide_eq_false in Hb.
  apply bind_ok in Hrun as (d' & s1 & Hd & Hrun). destruct d' as [q act|q]; [|done].
  unfold bind, modify, ret in Hrun. simplify_eq/=. rewrite Hd. simpl.
  assert (is_banned_participant p (set_banned ({[p]} ∪ banned s1) s1) = true) as Hban
    by (apply bool_decide_eq_true; set_solver).
  split; [done|]. split; [done|]. split; [|split].
  - intros ip rel now'. unfold add_to_queue, check. by rewrite Hban.
  - intros now'. unfold ban_participant, check. by rewrite Hban.
  - simpl. set_solver.
Qed.

(** Banning somebody who waits in the queue or the staging area does not
    ban: it is dropped from there, the call reports an invalid justification,
    and a contributor that waits while it contributes keeps contributing. *)
Theorem ban_of_waiting_participant_fails `{HashOrder, TimeApi} p now s :
  status s ≠ Initializing → p ∉ banned s → in_queue_or_next p s = true →
  ∃ s', ban_participant p now s = (Err JustificationInvalid, s') ∧
    p ∉ banned s' ∧ current_contributors s' = current_contributors s ∧
    queue s' !! p = None ∧ next s' !! p = None.
Proof.
  intros Hs Hb Hw. exists (drop_from_queue p now s). split; [|split; [|split]].
  - unfold ban_participant, drop_participant, check, bind, gets, modify, ret, fail.
    unfold is_banned_participant. rewrite !bool_decide_eq_false_2 by done. by rewrite Hw.
  - unfold drop_from_queue, rollback_next_round, forget_ips. repeat case_match; done.
  - unfold drop_from_queue, rollback_next_round, forget_ips. repeat case_match; done.
  - unfold drop_from_queue, rollback_next_round, forget_ips, contains_key. simpl.
    destruct (next s !! p) as [i|] eqn:Hn; simpl.
    + case_match; simpl; rewrite ?lookup_delete_eq; [done|].
      rewrite lookup_union, lookup_fmap, !lookup_delete_eq. by split; [|apply lookup_empty].
    + rewrite lookup_delete_eq. done.
Qed.

(** ** The ban list *)

Lemma ban_fold_spec s l :
  let s' := foldl ban_if_exceeded s l in
  s' = set_banned (banned s') s ∧
  ∀ p, p ∈ banned s' ↔ p ∈ banned s ∨
    (p ∈ pi_id <$> l) ∧ participant_ban_threshold (environment s) < drop_count p s.
Proof.
  revert s. induction l as [|i l IH]; intros s s'.
  - split; [by destruct s|]. intros p. simpl. split; [by left|]. intros [?|[[]%not_elem_of_nil _]]; done.
  - assert (∃ b, ban_if_exceeded s i = set_banned b s ∧
      ∀ p, p ∈ b ↔ p ∈ banned s ∨ p = pi_id i ∧ participant_ban_threshold (environment s) < drop_count p s)
      as (b & Hb & Hp).
    { unfold ban_if_exceeded, is_banned_participant. case_bool_decide as Hin.
      - exists (banned s). split; [by destruct s|]. naive_solver.
      - destruct (Nat.ltb_spec (participant_ban_threshold (environment s)) (drop_count (pi_id i) s)).
        + eexists. split; [done|]. intros p. rewrite elem_of_union, elem_of_singleton. naive_solver.
        + exists (banned s). split; [by destruct s|]. intros p. split; [by left|].
          intros [?|[-> ?]]; [done|lia]. }
    subst s'. simpl. rewrite Hb. destruct (IH (set_banned b s)) as [Heq Hset]. split.
    + rewrite Heq at 1. by destruct s.
    + intros p. rewrite Hset. simpl. rewrite Hp, elem_of_cons.
      change (drop_count p (set_banned b s)) with (drop_count p s). naive_solver.
Qed.

Lemma drop_count_pos p s : 0 < drop_count p s ↔ p ∈ pi_id <$> CoordinatorState.dropped s.
Proof.
  unfold drop_count. rewrite list_elem_of_fmap. split.
  - intros Hlt. destruct (filter _ _) as [|i l] eqn:Hf; [simpl in Hlt; lia|].
    assert (i ∈ filter (λ i, pi_id i = p) (CoordinatorState.dropped s)) as Hi by (rewrite Hf; by left).
    apply list_elem_of_filter in Hi as [<- ?]. eauto.
  - intros (i & -> & Hi). assert (i ∈ filter (λ j, pi_id j = pi_id i) (CoordinatorState.dropped s)) as Hf
      by by apply list_elem_of_filter.
    destruct (filter _ _); [by apply not_elem_of_nil in Hf | simpl; lia].
Qed.

(** [update_banned_participants] adds exactly the participants dropped more
    often than the threshold, whatever the order of the list, and changes
    nothing else. *)
Lemma update_banned_participants_threshold s :
  let s' := update_banned_participants s in
  s' = set_banned (banned s') s ∧
  ∀ p, p ∈ banned s' ↔ p ∈ banned s ∨ participant_ban_threshold (environment s) < drop_count p s.
Proof.
  intros s'. destruct (ban_fold_spec s (CoordinatorState.dropped s)) as [Heq Hp]. split; [done|].
  intros p. unfold s', update_banned_participants. rewrite Hp, <-drop_count_pos. intuition lia.
Qed.

(** ** Addresses *)

Lemma forget_ip_lookup p ips ip ps ip' :
  forget_ip p ips (ip, ps) !! ip' =
    if decide (ip = ip') then (if (size ps =? 1)%nat then None else (λ x, x ∖ {[p]}) <$> ips !! ip')
    else ips !! ip'.
Proof.
  unfold forget_ip. case_match; case_decide as Hip; subst;
    by rewrite ?lookup_delete_eq, ?lookup_delete_ne, ?lookup_alter_eq, ?lookup_alter_ne.
Qed.

Lemma forget_ip_foldl p l ips ip :
  NoDup l.*1 → (∀ k ps, (k, ps) ∈ l → ips !! k = Some ps) →
  foldl (forget_ip p) ips l !! ip =
    if decide (ip ∈ l.*1)
    then ps ← ips !! ip; if (size ps =? 1)%nat then None else Some (ps ∖ {[p]})
    else ips !! ip.
Proof.
  revert ips. induction l as [|[k ps] l IH]; intros ips Hnd Hl; cbn [foldl].
  - case_decide as Hk; [by apply not_elem_of_nil in Hk | done].
  - apply NoDup_cons in Hnd as [Hk Hnd]. rewrite IH; [|done|].
    + rewrite forget_ip_lookup. destruct (decide (k = ip)) as [->|Hne].
      * rewrite decide_False by done. rewrite (decide_True (P := ip ∈ _)) by by left.
        rewrite (Hl ip ps) by by left. simpl. by case_match.
      * apply decide_ext. simpl. rewrite elem_of_cons. naive_solver.
    + intros k' ps' Hin. rewrite forget_ip_lookup, decide_False; [by apply Hl; right|].
      intros ->. apply Hk. apply list_elem_of_fmap. by exists (k', ps').
Qed.

(** Dropping a waiting participant removes it from the queue, the staging
    area and every address, drops the addresses that nobody else uses, keeps
    the other addresses, and puts the others of a broken precommit back into
    the queue. *)
Lemma drop_from_queue_forgets `{HashOrder, TimeApi} p now s :
  status s ≠ Initializing → in_queue_or_next p s = true → (next s ≠ ∅ → status s = Precommit) →
  (∀ ip ps, contributor_ips s !! ip = Some ps → ps ≠ ∅) →
  ∃ s', drop_participant p now s = (Ok (DropQueue p), s') ∧
    queue s' !! p = None ∧ next s' !! p = None ∧
    (∀ ip, contributor_ips s' !! ip =
       (ps ← contributor_ips s !! ip; if decide (ps ∖ {[p]} = ∅) then None else Some (ps ∖ {[p]}))) ∧
    (∀ q, q ≠ p → queue s' !! q =
       match next s !! p, next s !! q with
       | Some _, Some i => Some (requeued now i)
       | _, _ => queue s !! q
       end) ∧
    (is_Some (next s !! p) → next s' = ∅ ∧ status s' = Rollback).
Proof.
  intros Hs Hw Hpre Hips. exists (drop_from_queue p now s).
  split; [unfold drop_participant, check, bind, gets, modify, ret; rewrite bool_decide_eq_false_2 by done;
          by rewrite Hw|].
  assert (∀ ip ps, contributor_ips s !! ip = Some ps → p ∈ ps → (size ps =? 1)%nat = bool_decide (ps ∖ {[p]} = ∅))
    as Hsize.
  { intros ip ps _ Hin. destruct (bool_decide_reflect (ps ∖ {[p]} = ∅)) as [He|He].
    - rewrite (difference_singleton_empty p ps Hin He). by rewrite size_singleton.
    - apply Nat.eqb_neq. intros [x Hx]%size_1_elem_of. apply He. clear -Hx Hin. set_solver. }
  set (s1 := set_queue (delete p (queue s)) s).
  assert (∃ s2, drop_from_queue p now s = forget_ips p s2 ∧ contributor_ips s2 = contributor_ips s ∧
    queue s2 !! p = None ∧ next s2 !! p = None ∧
    (∀ q, q ≠ p → queue s2 !! q =
       match next s !! p, next s !! q with Some _, Some i => Some (requeued now i) | _, _ => queue s !! q end) ∧
    (is_Some (next s !! p) → next s2 = ∅ ∧ status s2 = Rollback)) as (s2 & -> & Hip2 & Hq & Hn & Hq' & Hn').
  { eexists. split; [reflexivity|]. unfold contains_key. simpl.
    destruct (next s !! p) as [i|] eqn:Hi; simpl.
    - unfold rollback_next_round. simpl. rewrite bool_decide_eq_true_2; [|apply Hpre; intros He; by rewrite He in Hi].
      simpl. split; [done|]. split; [by rewrite lookup_union, lookup_fmap, !lookup_delete_eq|].
      split; [apply lookup_empty|]. split; [|done].
      intros q Hne. rewrite lookup_union, lookup_fmap, !lookup_delete_ne by done.
      by destruct (next s !! q), (queue s !! q).
    - split; [done|]. split; [apply lookup_delete_eq|]. split; [done|]. split; [|by intros []].
      intros q Hne. by rewrite lookup_delete_ne by done. }
  split; [done|]. split; [done|]. split; [|done].
  intros ip. unfold forget_ips. simpl. rewrite Hip2.
  set (l := filter (λ entry, p ∈ entry.2) (hash_iter (contributor_ips s))).
  assert (∀ k ps, (k, ps) ∈ l ↔ contributor_ips s !! k = Some ps ∧ p ∈ ps) as Hl.
  { intros k ps. unfold l. rewrite list_elem_of_filter, elem_of_hash_iter. naive_solver. }
  rewrite forget_ip_foldl; [|by apply NoDup_fmap_fst_filter, hash_iter_NoDup | intros k ps [? _]%Hl; done].
  destruct (contributor_ips s !! ip) as [ps|] eqn:Hip; simpl; [|by case_decide].
  destruct (decide (p ∈ ps)) as [Hin|Hnin].
  - rewrite decide_True; [|apply list_elem_of_fmap; exists (ip, ps); split; [done|]; by apply Hl].
    rewrite (Hsize ip ps Hip Hin).
    destruct (bool_decide_reflect (ps ∖ {[p]} = ∅)); [by rewrite decide_True | by rewrite decide_False].
  - rewrite decide_False.
    + assert (ps ∖ {[p]} = ps) as -> by (clear -Hnin; set_solver). by rewrite decide_False by by eapply Hips.
    + intros ([k ps'] & -> & [Hk Hp]%Hl)%list_elem_of_fmap. simpl in *. by simplify_eq.
Qed.

(** ** A round with two contributors *)

#[local] Existing Instance trie_order.
#[local] Existing Instance time_api.

(** The running round with other settings. *)
Definition with_environment (e : Environment) (s : CoordinatorState) : CoordinatorState :=
  MkCoordinatorState e (CoordinatorState.status s) (CoordinatorState.queue s) (CoordinatorState.next s) (CoordinatorState.current_metrics s) (CoordinatorState.current_round_height s) (CoordinatorState.current_contributors s) (CoordinatorState.contributor_ips s) (CoordinatorState.current_verifiers s) (CoordinatorState.pending_verification s) (CoordinatorState.finished_contributors s) (CoordinatorState.finished_verifiers s) (CoordinatorState.dropped s) (CoordinatorState.banned s) (CoordinatorState.manual_lock s).

Lemma resettable_with_environment h e s :
  number_of_chunks e = number_of_chunks (environment s) → resettable h s → resettable h (with_environment e s).
Proof. intros He [Hh Hd Hhs Hn Hm]. split; try done; simpl; by rewrite He. Qed.

Definition replacement : Participant := Contributor "testing-coordinator-contributor".
Definition ex_alone : CoordinatorState := with_environment (set_coordinator_contributors [] ex_env) ex_running.
Definition bob_info : ParticipantInfo := started_info bob 1 10 0 (deal_list 0 3 2) 50.

Lemma bob_droppable s :
  s = ex_running ∨ s = ex_alone → droppable bob bob_info 2 s.
Proof.
  intros [-> | ->]; split; try by vm_compute.
  all: apply (bool_decide_unpack _); vm_compute; exact I.
Qed.

Lemma ex_running_dealt : dealt_round 3 2 (λ _ i, bucket_id i) (round_members 1 ex_running).
Proof.
  assert (round_members 1 ex_running = hash_map_from_iter (precommit_infos 1 3 50 ex_waiting)) as ->
    by (vm_compute; reflexivity).
  replace 2%N with (N.of_nat (length (next_round_contributors 1 ex_waiting))) by (vm_compute; reflexivity).
  apply (precommitted_dealt 1 3 50 ex_waiting).
Qed.


Lemma drop_without_replacement_restarts_witness :
  ∃ s', drop_participant bob 60 ex_alone =
      (Ok (DropCurrent bob (ResetCurrentRound (MkResetAction [bob] false))), s') ∧
    covers_grid 3 1 (current_contributors s').
Proof.
  destruct (drop_without_replacement_restarts bob bob_info 2 1 60 ex_alone) as (s' & Hrun & Hs).
  - apply bob_droppable. by right.
  - apply resettable_with_environment; [by vm_compute | apply ex_running_resettable].
  - by vm_compute.
  - vm_compute. reflexivity.
  - assert (length (round_contributors 1 ex_alone) = 2) as Hl by by vm_compute.
    assert (number_of_chunks (environment ex_alone) = 3%N) as Hm by by vm_compute.
    rewrite Hl in Hrun, Hs. rewrite Hm in Hs.
    exists s'. split; [exact Hrun|]. destruct Hs as (_ & Hcov & _). exact Hcov.
Defined.

Lemma ban_of_waiting_participant_fails_witness :
  ∃ s', ban_participant alice 60 ex_waiting = (Err JustificationInvalid, s') ∧ alice ∉ banned s'.
Proof.
  destruct (ban_of_waiting_participant_fails alice 60 ex_waiting) as (s' & Hrun & Hb & _).
  - by vm_compute.
  - apply not_elem_of_empty.
  - vm_compute. reflexivity.
  - exists s'. split; [exact Hrun | exact Hb].
Defined.

