(* ===== verification/CoordinatorInvariant.v ===== *)
(** * Invariants of the coordinator state

    The operations of [CoordinatorState] as a step relation, and the properties
    of every state they can reach: errors included, since a failing method
    leaves the assignments it made behind. *)

From S2P Require Import Prelude Task Participant Errors Environment ParticipantInfo RoundMetrics CoordinatorState RoundTransition DropParticipant.
(** ** Steps *)

Section steps.
Context `{HO : HashOrder, TA : TimeApi}.

Inductive state_step : CoordinatorState → CoordinatorState → Prop :=
| step_initialize h s : status s = Initializing → state_step s (initialize h s)
| step_add_to_queue p ip rel now s : state_step s (add_to_queue p ip rel now s).2
| step_remove_from_queue p s : state_step s (remove_from_queue p s).2
| step_fetch_task p now s : state_step s (fetch_task p now s).2
| step_acquired_lock p c now s : state_step s (CoordinatorState.acquired_lock p c now s).2
| step_rollback_pending p t now s : state_step s (CoordinatorState.rollback_pending_task p t now s).2
| step_rollback_locked p t now s : state_step s (CoordinatorState.rollback_locked_task p t now s).2
| step_disposed p t now s : state_step s (disposed_task p t now s).2
| step_completed p t now s : state_step s (CoordinatorState.completed_task p t now s).2
| step_aggregating now s : state_step s (aggregating_current_round now s).2
| step_aggregated now s : state_step s (aggregated_current_round now s).2
| step_rollback_aggregating s : state_step s (rollback_aggregating_current_round s).2
| step_drop p now s : state_step s (drop_participant p now s).2
| step_ban p now s : state_step s (ban_participant p now s).2
| step_unban p s : state_step s (unban_participant p s)
| step_update_queue s : state_step s (update_queue s).2
| step_update_current now s : state_step s (update_current_contributors now s).2
| step_update_dropped now s : state_step s (update_dropped_participants now s).2
| step_update_dropped_queued now s : state_step s (update_dropped_queued_participants now s).2
| step_update_banned s : state_step s (update_banned_participants s)
| step_update_metrics s : state_step s (update_round_metrics s)
| step_precommit h now s : state_step s (precommit_next_round h now s).2
| step_commit s : state_step s (commit_next_round s)
| step_rollback_next now s : state_step s (rollback_next_round now s)
| step_reset force now s : state_step s (reset_current_round force now s).2
| step_heartbeat p now s : state_step s (heartbeat p now s).2
| step_enable_lock s : state_step s (enable_manual_lock s)
| step_disable_lock s : state_step s (disable_manual_lock s).
End steps.

(** ** The invariant *)

Definition filed (p : Participant) (i : ParticipantInfo) : Prop := is_contributor p = true ∧ pi_id i = p.

Record state_wf (s : CoordinatorState) : Prop := {
  wf_environment : Forall (λ p, is_contributor p = true) (coordinator_contributors (environment s));
  wf_queue : map_Forall (λ p _, is_contributor p = true) (queue s);
  wf_next : map_Forall filed (next s);
  wf_current : map_Forall filed (current_contributors s);
  wf_finished : map_Forall (λ _ f, map_Forall filed f) (finished_contributors s);
  wf_no_verifiers : current_verifiers s = ∅;
  wf_waiting_once : ∀ p, is_Some (queue s !! p) → next s !! p = None;
  wf_staged : next s ≠ ∅ → status s = Precommit;
  wf_started : status s ≠ Initializing → ∃ h, current_round_height s = Some h ∧
    is_Some (current_metrics s) ∧ is_Some (finished_contributors s !! h);
  wf_unstarted : status s = Initializing → current_round_height s = None;
}.

Lemma state_wf_new env :
  Forall (λ p, is_contributor p = true) (coordinator_contributors env) → state_wf (coordinator_state_new env).
Proof.
  intros He. split; simpl; try done; try apply map_Forall_empty.
Qed.

(** ** Methods of a participant keep its identity *)

Definition keeps_id {A} (m : method A) : Prop := ∀ p, preserves (λ i, pi_id i = p) m.

Lemma keeps_id_while_active {A} (k : method A) p :
  preserves (λ i, pi_id i = p) k → preserves (λ i, pi_id i = p) (while_active k).
Proof. intros. unfold while_active. by preserve_tac. Qed.
Lemma keeps_id_while_working_on {A} c (k : method A) p :
  preserves (λ i, pi_id i = p) k → preserves (λ i, pi_id i = p) (while_working_on c k).
Proof. intros. unfold while_working_on. by preserve_tac. Qed.
#[export] Hint Resolve keeps_id_while_active keeps_id_while_working_on : preserve.

Ltac keeps_id_tac :=
  intros p; repeat (apply keeps_id_while_active || apply keeps_id_while_working_on || preserve_step); try done.

Lemma keeps_id_start tasks now : keeps_id (start tasks now).
Proof. unfold start. keeps_id_tac. Qed.
Lemma keeps_id_restart_tasks tasks now : keeps_id (restart_tasks tasks now).
Proof. unfold restart_tasks. keeps_id_tac. by apply keeps_id_start. Qed.
Lemma keeps_id_push_front_task t now : keeps_id (push_front_task t now).
Proof. unfold push_front_task. keeps_id_tac. Qed.
Lemma keeps_id_pop_task now : keeps_id (pop_task now).
Proof. unfold pop_task. keeps_id_tac. intros i Hi. by destruct (assigned_tasks i). Qed.
Lemma keeps_id_acquired_lock c now : keeps_id (ParticipantInfo.acquired_lock c now).
Proof. unfold ParticipantInfo.acquired_lock. keeps_id_tac. Qed.
Lemma keeps_id_rollback_pending t now : keeps_id (ParticipantInfo.rollback_pending_task t now).
Proof. unfold ParticipantInfo.rollback_pending_task. keeps_id_tac; by apply keeps_id_push_front_task. Qed.
Lemma keeps_id_rollback_locked t now : keeps_id (ParticipantInfo.rollback_locked_task t now).
Proof. unfold ParticipantInfo.rollback_locked_task. keeps_id_tac; by apply keeps_id_push_front_task. Qed.
Lemma keeps_id_completed_task t now : keeps_id (ParticipantInfo.completed_task t now).
Proof. unfold ParticipantInfo.completed_task. keeps_id_tac. Qed.
Lemma keeps_id_dispose_task c k now : keeps_id (dispose_task c k now).
Proof. unfold dispose_task. keeps_id_tac. Qed.
Lemma keeps_id_finish now : keeps_id (finish now).
Proof. unfold finish. keeps_id_tac. Qed.
#[export] Hint Resolve keeps_id_start keeps_id_restart_tasks keeps_id_pop_task keeps_id_acquired_lock
  keeps_id_rollback_pending keeps_id_rollback_locked keeps_id_completed_task keeps_id_dispose_task
  keeps_id_finish : preserve.

Lemma run_on_id {A} (m : method A) i i' : keeps_id m → run_on m i = Ok i' → pi_id i' = pi_id i.
Proof. intros Hm [a Ha]%run_on_ok. specialize (Hm (pi_id i) i eq_refl). by rewrite Ha in Hm. Qed.

(** ** Assignments that keep the invariant *)

Ltac wf_frame := match goal with H : state_wf ?s |- _ => destruct H; split; simpl; try done end.

Lemma wf_set_current c s : state_wf s → map_Forall filed c → state_wf (set_current_contributors c s).
Proof. intros Hs Hc. wf_frame. Qed.
Lemma wf_set_metrics m s : state_wf s → state_wf (set_current_metrics (Some m) s).
Proof.
  intros Hs. wf_frame. intros Hi. destruct (wf_started0 Hi) as (h & ? & _ & ?). by exists h.
Qed.
Lemma wf_set_pending v s : state_wf s → state_wf (set_pending_verification v s).
Proof. intros Hs. wf_frame. Qed.
Lemma wf_set_ips v s : state_wf s → state_wf (set_contributor_ips v s).
Proof. intros Hs. wf_frame. Qed.
Lemma wf_set_banned v s : state_wf s → state_wf (set_banned v s).
Proof. intros Hs. wf_frame. Qed.
Lemma wf_set_dropped v s : state_wf s → state_wf (set_dropped v s).
Proof. intros Hs. wf_frame. Qed.
Lemma wf_set_lock v s : state_wf s → state_wf (set_manual_lock v s).
Proof. intros Hs. wf_frame. Qed.
Lemma wf_set_no_verifiers s : state_wf s → state_wf (set_current_verifiers ∅ s).
Proof. intros Hs. wf_frame. Qed.
Lemma wf_set_queue q s :
  state_wf s → (∀ p, is_Some (q !! p) → is_contributor p = true ∧ next s !! p = None) → state_wf (set_queue q s).
Proof.
  intros Hs Hq. wf_frame.
  - intros p e Hp. apply (Hq p). eauto.
  - intros p Hp. by apply Hq.
Qed.
Lemma wf_set_finished h f s :
  state_wf s → map_Forall filed f → state_wf (set_finished_contributors (<[h := f]> (finished_contributors s)) s).
Proof.
  intros Hs Hf. wf_frame.
  - by apply map_Forall_insert_2.
  - intros Hi. destruct (wf_started0 Hi) as (k & ? & ? & Hk). exists k. split; [done|]. split; [done|].
    rewrite lookup_insert_is_Some'. by right.
Qed.
#[export] Hint Resolve wf_set_current wf_set_metrics wf_set_pending wf_set_ips wf_set_banned wf_set_dropped
  wf_set_lock : preserve.

Lemma filed_insert p i (c : gmap Participant ParticipantInfo) : map_Forall filed c → filed p i → map_Forall filed (<[p := i]> c).
Proof. intros. by apply map_Forall_insert_2. Qed.

Lemma filed_reliability p i : filed p i → filed p (set_reliability 0 i).
Proof. done. Qed.

Lemma wf_with_contributor {A} p (m : method A) : keeps_id m → preserves state_wf (with_contributor p m).
Proof.
  intros Hm s Hs. unfold with_contributor. destruct (current_contributors s !! p) as [i|] eqn:Hi; [|done].
  pose proof (wf_current s Hs p i Hi) as [Hc Hid]. specialize (Hm p i Hid).
  destruct (m i) as [o i']. simpl in *. apply wf_set_current; [done|]. apply filed_insert; [apply Hs|done].
Qed.

Lemma wf_with_verifier {A} p (m : method A) : preserves state_wf (with_verifier p m).
Proof.
  intros s Hs. unfold with_verifier. by rewrite (wf_no_verifiers s Hs), lookup_empty.
Qed.
#[export] Hint Resolve wf_with_contributor wf_with_verifier : preserve.

Lemma wf_with_participant {A} p (m : method A) : keeps_id m → preserves state_wf (with_participant p m).
Proof. intros. unfold with_participant. destruct p; eauto with preserve. Qed.
#[export] Hint Resolve wf_with_participant : preserve.

Lemma wf_with_metrics {A} (m : M CoordinatorError RoundMetrics A) : preserves state_wf (with_metrics m).
Proof.
  intros s Hs. unfold with_metrics. destruct (current_metrics s) as [r|]; [|done].
  destruct (m r) as [o r']. simpl. by apply wf_set_metrics.
Qed.
#[export] Hint Resolve wf_with_metrics : preserve.

(** ** Operations on the queue, the tasks and the metrics *)

Section operations.
Context `{HO : HashOrder, TA : TimeApi}.

Lemma wf_zero_reliability s p : state_wf s → state_wf (zero_reliability s p).
Proof.
  intros Hs. rewrite zero_reliability_alter. wf_frame.
  - intros q e. rewrite lookup_alter_Some. intros [(<- & e' & He & _)|[_ He]]; exact (wf_queue0 _ _ He).
  - intros q i. rewrite lookup_alter_Some. intros [(<- & e' & He & ->)|[_ He]]; exact (wf_next0 _ _ He).
  - intros q i. rewrite lookup_alter_Some. intros [(<- & e' & He & ->)|[_ He]]; exact (wf_current0 _ _ He).
  - intros q. rewrite lookup_alter_is_Some. intros Hq%wf_waiting_once0.
    rewrite eq_None_not_Some, lookup_alter_is_Some, <-eq_None_not_Some. done.
  - intros Hn. apply wf_staged0. intros He. apply Hn. rewrite He. apply alter_empty.
Qed.

Lemma wf_zero_duplicate_ips ip s : state_wf s → state_wf (zero_duplicate_ips ip s).
Proof.
  intros Hs. unfold zero_duplicate_ips. destruct (contributor_ips s !! ip) as [ps|]; [|done].
  generalize (elements ps). intros l. revert s Hs. induction l as [|p l IH]; intros s Hs; simpl; [done|].
  by apply IH, wf_zero_reliability.
Qed.

Lemma zero_duplicate_ips_next ip s p : next (zero_duplicate_ips ip s) !! p = None ↔ next s !! p = None.
Proof.
  unfold zero_duplicate_ips. destruct (contributor_ips s !! ip) as [ps|]; [|done].
  rewrite zero_reliability_foldl. simpl. rewrite map_lookup_imap. by destruct (next s !! p).
Qed.

Lemma wf_add_to_queue p ip rel now : preserves state_wf (add_to_queue p ip rel now).
Proof.
  intros s Hs. unfold add_to_queue, check.
  destruct (is_banned_participant p s); [done|]. destruct (contains_key p (queue s)); [done|].
  destruct (contains_key p (next s)) eqn:Hn; [done|]. apply contains_key_false in Hn.
  destruct (is_contributor p && _); [done|]. destruct (is_contributor p && _ && _); [done|].
  unfold is_verifier. destruct (is_contributor p) eqn:Hc; [simpl|done].
  assert (∀ s score, state_wf s → next s !! p = None →
    state_wf (set_queue (<[p := MkQueueEntry score None now now]> (queue s)) s)) as Hadd.
  { clear -Hc. intros s score Hs Hn. apply wf_set_queue; [done|]. intros q [e He].
    apply lookup_insert_Some in He as [[<- _]|[_ He]]; [done|].
    split; [by eapply (wf_queue s Hs)|]. apply (wf_waiting_once s Hs). eauto. }
  unfold bind, gets, modify, ret. destruct ip as [ip|]; [|by apply Hadd].
  destruct (negb _); [|by apply Hadd].
  destruct (is_duplicate_ip ip s); simpl.
  - apply (Hadd (set_contributor_ips _ (zero_duplicate_ips ip s)));
      [by apply wf_set_ips, wf_zero_duplicate_ips | by apply zero_duplicate_ips_next].
  - apply (Hadd (set_contributor_ips _ s)); [by apply wf_set_ips | done].
Qed.

Lemma wf_queue_delete p s : state_wf s → state_wf (set_queue (delete p (queue s)) s).
Proof.
  intros Hs. apply wf_set_queue; [done|]. intros q [e [_ He]%lookup_delete_Some].
  split; [by eapply (wf_queue s Hs)|]. apply (wf_waiting_once s Hs). eauto.
Qed.

Lemma wf_remove_from_queue p : preserves state_wf (remove_from_queue p).
Proof. unfold remove_from_queue. preserve_tac. by apply wf_queue_delete. Qed.

Lemma wf_start_task_timer p t now s : state_wf s → state_wf (start_task_timer p t now s).
Proof. intros. unfold start_task_timer. case_match; [by apply wf_set_metrics|done]. Qed.
Lemma wf_stop_task_timer p t now s : state_wf s → state_wf (stop_task_timer p t now s).
Proof. intros. unfold stop_task_timer. case_match; [by apply wf_set_metrics|done]. Qed.

Lemma wf_fetch_task p now : preserves state_wf (fetch_task p now).
Proof.
  unfold fetch_task. destruct p; preserve_tac.
  - apply wf_with_contributor. intros p. preserve_tac. by apply keeps_id_pop_task.
  - by apply wf_start_task_timer.
Qed.
Lemma wf_acquired_lock p c now : preserves state_wf (CoordinatorState.acquired_lock p c now).
Proof. unfold CoordinatorState.acquired_lock. preserve_tac. Qed.
Lemma wf_rollback_pending p t now : preserves state_wf (CoordinatorState.rollback_pending_task p t now).
Proof. unfold CoordinatorState.rollback_pending_task. preserve_tac. Qed.
Lemma wf_rollback_locked p t now : preserves state_wf (CoordinatorState.rollback_locked_task p t now).
Proof. unfold CoordinatorState.rollback_locked_task. preserve_tac. Qed.
Lemma wf_disposed_task p t now : preserves state_wf (disposed_task p t now).
Proof. unfold disposed_task. preserve_tac. Qed.
Lemma wf_completed_task p t now : preserves state_wf (CoordinatorState.completed_task p t now).
Proof.
  unfold CoordinatorState.completed_task, add_pending_verification, remove_pending_verification.
  preserve_tac; by apply wf_stop_task_timer || apply wf_set_pending.
Qed.
Lemma wf_aggregating now : preserves state_wf (aggregating_current_round now).
Proof. apply wf_with_metrics. Qed.
Lemma wf_update_next_round_after now s : state_wf s → state_wf (update_next_round_after now s).
Proof. intros. unfold update_next_round_after. case_match; [by apply wf_set_metrics|done]. Qed.
Lemma wf_aggregated now : preserves state_wf (aggregated_current_round now).
Proof.
  unfold aggregated_current_round. preserve_tac.
  case_match; [|done]. case_match; [by apply wf_update_next_round_after|done].
Qed.
Lemma wf_rollback_aggregating : preserves state_wf rollback_aggregating_current_round.
Proof. apply wf_with_metrics. Qed.
Lemma wf_update_round_metrics s : state_wf s → state_wf (update_round_metrics s).
Proof.
  intros. unfold update_round_metrics. destruct (is_current_round_finished s); [done|].
  destruct (current_metrics s); [|done]. destruct (update_averages _) as [[m ?] ?]. by apply wf_set_metrics.
Qed.

Lemma wf_heartbeat p now : preserves state_wf (heartbeat p now).
Proof.
  intros s Hs. unfold heartbeat. destruct (queue s !! p) as [e|] eqn:He.
  - simpl. apply wf_set_queue; [done|]. intros q [e' He']. apply lookup_insert_Some in He' as [[<- _]|[_ He']].
    + split; [by eapply (wf_queue s Hs)|]. apply (wf_waiting_once s Hs). eauto.
    + split; [by eapply (wf_queue s Hs)|]. apply (wf_waiting_once s Hs). eauto.
  - assert (∀ c : gmap Participant ParticipantInfo, map_Forall filed c → map_Forall filed (touch now p c)) as Htouch.
    { intros c Hc q i. unfold touch. rewrite lookup_alter_Some.
      intros [(<- & i' & Hi & ->)|[_ Hi]]; by apply Hc in Hi. }
    destruct (contains_key p (current_contributors s)); simpl.
    + apply wf_set_current; [done|]. apply Htouch, Hs.
    + destruct (hash_iter (finished_contributors s)) as [|[h f] l] eqn:Hl; [done|].
      assert ((h, f) ∈ hash_iter (finished_contributors s)) as Hin by (rewrite Hl; by left).
      apply elem_of_hash_iter in Hin. destruct (contains_key p f); simpl; [|done].
      apply wf_set_finished; [done|]. apply Htouch. by eapply (wf_finished s Hs).
Qed.
End operations.

(** ** Transitions between rounds *)

Section transitions.
Context `{HO : HashOrder, TA : TimeApi}.

Lemma initialize_form h s :
  current_round_height s = None →
  ∃ m fc fv, initialize h s = set_status Initialized (set_finished_verifiers fv
      (set_finished_contributors fc (set_current_metrics (Some m) (set_current_round_height (Some h) s)))) ∧
    is_Some (fc !! h) ∧ (fc = finished_contributors s ∨ fc = <[h := ∅]> (finished_contributors s)).
Proof.
  intros Hh.
  exists (default round_metrics_default (current_metrics s)),
    (if contains_key h (finished_contributors s) then finished_contributors s
     else <[h := ∅]> (finished_contributors s)),
    (if contains_key h (finished_verifiers s) then finished_verifiers s else <[h := ∅]> (finished_verifiers s)).
  split; [|destruct (contains_key h (finished_contributors s)) eqn:Hk].
  - destruct s as [? ? ? ? cm crh ? ? ? ? fc fv ? ? ?]; simpl in *; subst. unfold initialize. simpl.
    destruct cm, (contains_key h fc) eqn:Hfc; simpl; rewrite ?Hfc; simpl; by destruct (contains_key h fv).
  - apply contains_key_true in Hk as [f Hf]. split; [by eexists|by left].
  - rewrite lookup_insert_eq. split; [by eexists|by right].
Qed.

Lemma wf_initialize h s : state_wf s → status s = Initializing → state_wf (initialize h s).
Proof.
  intros Hs Hi. destruct (initialize_form h s (wf_unstarted s Hs Hi)) as (m & fc & fv & -> & Hfc & Hcase).
  destruct Hs as [He Hq Hn Hc Hf Hv Hw Hst _ _]. split; simpl; try done.
  - destruct Hcase as [->| ->]; [done|]. apply map_Forall_insert_2; [apply map_Forall_empty|done].
  - intros Hne. specialize (Hst Hne). congruence.
  - intros _. exists h. split_and!; eauto.
Qed.

Lemma precommit_contributor_id h cur m n now k kv p i :
  precommit_contributor h cur m n now k kv = Ok (p, i) → p = kv.1 ∧ pi_id i = p.
Proof.
  unfold precommit_contributor. intros (tasks & _ & Hr)%bind_outcome_ok. destruct (_ && _); [done|].
  apply bind_outcome_ok in Hr as (i' & [-> _]%start_new_inv & Hr). by destruct (is_nil _); simplify_eq/=.
Qed.

Lemma precommit_failure h now s o s' :
  precommit_next_round h now s = (o, s') → is_ok o = false → s' = s.
Proof.
  unfold precommit_next_round, check, bind, gets, lift, modify, ret. intros Hrun Ho.
  repeat (case_match; simplify_eq/=); done.
Qed.

Lemma wf_precommit h now : preserves state_wf (precommit_next_round h now).
Proof.
  intros s Hs. destruct (precommit_next_round h now s) as [o s'] eqn:Hrun. simpl.
  destruct (is_ok o) eqn:Ho; [|by rewrite (precommit_failure _ _ _ _ _ Hrun Ho)].
  destruct o as [ps| |]; [|done..]. apply precommit_guards in Hrun as (_ & Hr & cur & infos & Hc & -> & ->).
  apply collect_imap_inv in Hc as (_ & _ & Hback). clear Ho.
  assert (∀ p i, hash_map_from_iter infos !! p = Some i →
    filed p i ∧ p ∈ (next_round_contributors h s).*1) as Hnext.
  { intros p i (k & Hk)%hash_map_from_iter_elem%list_elem_of_lookup.
    destruct (Hback k _ Hk) as ([q e] & Hq & [-> Hid]%precommit_contributor_id).
    apply list_elem_of_lookup_2 in Hq. split; [split; [|done]|].
    - by apply elem_of_next_round_contributors in Hq as (_ & ? & _).
    - apply list_elem_of_fmap. by exists (q, e). }
  destruct Hr as (Hi & _ & (h0 & Hh & _) & _). destruct Hs as [He Hq _ Hc Hf Hv Hw _ Hst _].
  split; simpl; try done.
  - intros p e. rewrite foldl_delete_lookup. case_decide; [done|]. apply Hq.
  - intros p i Hp. by apply Hnext.
  - intros p. rewrite foldl_delete_lookup. case_decide as Hin; [by intros []|]. intros _.
    destruct (_ !! p) as [i|] eqn:Hp; [|done]. by apply Hnext in Hp as [_ ?].
  - intros _. by apply Hst.
Qed.

Lemma wf_commit s : state_wf s → state_wf (commit_next_round s).
Proof.
  intros Hs. unfold commit_next_round. case_bool_decide as Hp; simpl; [|done].
  destruct (current_round_height s) as [h|] eqn:Hh; simpl; [|done].
  assert (verifiers_in (next s) = ∅) as ->.
  { apply map_empty. intros p. apply map_lookup_filter_None. right. intros i Hi.
    destruct (wf_next s Hs p i Hi) as [Hc _]. unfold is_verifier. simpl. by rewrite Hc. }
  destruct Hs as [He Hq Hn Hc Hf Hv Hw Hst _ _]. split; simpl; try done.
  - apply map_Forall_union_2; [|done]. intros p i [Hi _]%map_lookup_filter_Some. by apply Hn.
  - apply map_Forall_insert_2; [apply map_Forall_empty|done].
  - by rewrite Hv.
  - intros _. exists (u64_add h 1). rewrite lookup_insert_eq. split_and!; eauto.
Qed.

Lemma wf_rollback_next now s : state_wf s → state_wf (rollback_next_round now s).
Proof.
  intros Hs. unfold rollback_next_round. case_bool_decide as Hp; simpl; [|done].
  destruct Hs as [He Hq Hn Hc Hf Hv Hw _ Hst _]. split; simpl; try done.
  - apply map_Forall_union_2; [|done]. intros p e. rewrite lookup_fmap_Some. intros (i & _ & Hi).
    by apply Hn in Hi as [? _].
  - intros _. apply Hst. by rewrite Hp.
Qed.

Lemma wf_update_queue : preserves state_wf update_queue.
Proof.
  intros s Hs. unfold update_queue. destruct (current_round_height s); [|done]. case_match; [done|]. simpl.
  apply wf_set_queue; [done|]. intros p [e (k & Hk)%hash_map_from_iter_elem%list_elem_of_lookup].
  rewrite list_lookup_imap in Hk. unfold assign_round in Hk. destruct (queued_by_joined s !! k) as [[q e']|] eqn:Hq; simplify_eq/=.
  apply list_elem_of_lookup_2 in Hq. unfold queued_by_joined in Hq.
  apply list_elem_of_filter in Hq as [_ Hq]. rewrite sort_by_perm, elem_of_hash_iter in Hq.
  split; [exact (wf_queue s Hs _ _ Hq)|]. apply (wf_waiting_once s Hs). eauto.
Qed.

Lemma wf_update_current_contributors now : preserves state_wf (update_current_contributors now).
Proof.
  intros s Hs. unfold update_current_contributors. destruct (current_round_height s) as [h|]; [|done].
  cbn [set_current_contributors CoordinatorState.finished_contributors].
  set (staying := filter _ _). set (fin := omap _ _).
  assert (state_wf (set_current_contributors staying s)) as Hs1.
  { apply wf_set_current; [done|]. intros p i [Hi _]%map_lookup_filter_Some. by apply (wf_current s Hs). }
  destruct (negb _); [done|]. destruct (finished_contributors s !! h) as [f|] eqn:Hf; [|done]. simpl.
  apply (wf_set_finished h (fin ∪ f) _ Hs1). apply map_Forall_union_2; [|by eapply (wf_finished s Hs)].
  intros p i. unfold fin. rewrite lookup_omap_Some. intros (j & Hj & Hp). unfold newly_finished in Hj.
  destruct (is_finished j); [done|]. destruct (run_on (finish now) j) as [j'|e|] eqn:Hr; simplify_eq/=.
  destruct (wf_current s Hs p j Hp) as [? <-]. split; [done|]. by apply (run_on_id (finish now)); eauto with preserve.
Qed.

Lemma restart_contributors_filed h now s r :
  state_wf s → restart_contributors h now s = Ok r → map_Forall filed r.
Proof.
  intros Hs. unfold restart_contributors. intros (l & Hc & [= <-])%bind_outcome_ok.
  apply collect_imap_inv in Hc as (_ & _ & Hback).
  intros p i (k & Hk)%hash_map_from_iter_elem%list_elem_of_lookup.
  destruct (Hback k _ Hk) as ([q j] & Hq & Hr). unfold restart_contributor in Hr.
  apply bind_outcome_ok in Hr as (tasks & _ & Hr). apply bind_outcome_ok in Hr as (i' & Hi' & [= <- <-]).
  apply run_on_id in Hi'; [|apply keeps_id_restart_tasks]. simpl in *.
  apply list_elem_of_lookup_2, elem_of_round_contributors in Hq.
  assert (filed q j) as [? <-]; [|done]. destruct Hq as [Hq|Hq]; [by apply (wf_current s Hs)|].
  unfold finished_contributors_of in Hq. destruct (finished_contributors s !! h) as [f|] eqn:Hf; simpl in Hq.
  - by eapply (wf_finished s Hs).
  - by apply lookup_empty_Some in Hq.
Qed.

Lemma wf_rolled_back h now r s : state_wf s → map_Forall filed r → state_wf (rolled_back h now r s).
Proof.
  intros Hs Hr. unfold rolled_back. apply wf_update_next_round_after.
  assert (∀ q, (∀ p, is_Some (q !! p) → is_contributor p = true) →
    state_wf (initialize (u64_sub h 1) (set_banned (banned s) (set_queue q
      (set_current_round_height (Some (u64_sub h 1)) (set_current_metrics
        (Some (set_finished_aggregation_at (Some now) (set_started_aggregation_at (Some now)
          (set_is_round_aggregated true round_metrics_default))))
        (coordinator_state_new (environment s)))))))) as Hwf.
  { intros q Hq. unfold initialize, contains_key. simpl. rewrite lookup_empty. simpl.
    rewrite lookup_empty. simpl. split; simpl; try done; try apply map_Forall_empty.
    - apply Hs.
    - intros p e Hp. apply Hq. eauto.
    - intros h' f [[<- <-]|[_ ?%lookup_empty_Some]]%lookup_insert_Some; [apply map_Forall_empty|done].
    - intros _. exists (u64_sub h 1). rewrite lookup_insert_eq. split_and!; eauto. }
  apply Hwf. intros p. rewrite !lookup_union_is_Some, !lookup_fmap, !fmap_is_Some.
  intros [[[i Hi]|[i Hi]]|[e He]]; [by apply (wf_next s Hs) in Hi as [? _] | by apply Hr in Hi as [? _]
    | exact (wf_queue s Hs _ _ He)].
Qed.

Lemma wf_restarted_round h r s : state_wf s → map_Forall filed r → state_wf (restarted_round h r s).
Proof.
  intros Hs Hr. unfold restarted_round. apply wf_update_round_metrics. rewrite initialize_fresh by done.
  split; simpl; try done; try apply map_Forall_empty.
  - apply Hs.
  - apply Hs.
  - intros h' f [[<- <-]|[_ ?%lookup_empty_Some]]%lookup_insert_Some; [apply map_Forall_empty|done].
  - intros _. exists h. rewrite lookup_insert_eq. split_and!; eauto.
Qed.

Lemma wf_reset force now : preserves state_wf (reset_current_round force now).
Proof.
  intros s Hs. unfold reset_current_round, bind at 1, gets. cbn. unfold bind, lift, check, modify, ret.
  destruct (current_round_height s) as [h|]; simpl; [|done]. case_match; [done|].
  destruct (restart_contributors h now s) as [r| |] eqn:Hr; [|done..].
  apply restart_contributors_filed in Hr; [|done].
  destruct (force || _); simpl; [by apply wf_rolled_back | by apply wf_restarted_round].
Qed.
End transitions.

(** ** Dropping and banning *)

Section dropping.
Context `{HO : HashOrder, TA : TimeApi}.

Lemma wf_drop_from_queue p now s : state_wf s → state_wf (drop_from_queue p now s).
Proof.
  intros Hs. unfold drop_from_queue, forget_ips. apply wf_set_ips. apply (wf_queue_delete p) in Hs.
  set (s1 := set_queue _ s) in *. case_match; [|done]. apply wf_rollback_next.
  destruct Hs as [He Hq Hn Hc Hf Hv Hw Hst Hi Hu]. split; cbn [next set_next]; try done.
  - intros q i [_ Hi']%lookup_delete_Some. by apply Hn.
  - intros q Hq'. apply lookup_delete_None. right. by apply Hw.
  - intros Hne. apply Hst. intros He'. apply Hne. change (next s) with (next s1). rewrite He'. apply delete_empty.
Qed.

Lemma wf_reassign_contributor m n tbc p i :
  filed p i → preserves (λ x : CoordinatorState * gset Task, state_wf x.1) (reassign_contributor m n tbc (p, i)).
Proof.
  intros Hf. unfold reassign_contributor. preserve_tac.
  all: match goal with x : CoordinatorState * gset Task |- _ => destruct x as [s d] end; simpl in *.
  all: apply wf_set_current; [done|]; apply filed_insert; [by apply wf_current|done].
Qed.

Lemma wf_reassign_after_drop tasks : preserves state_wf (reassign_after_drop tasks).
Proof.
  unfold reassign_after_drop. preserve_tac. intros s Hs.
  match goal with |- context [for_each ?f ?l ?x] =>
    pose proof (preserves_for_each (λ y : CoordinatorState * gset Task, state_wf y.1) f l) as Hloop;
    specialize (Hloop ltac:(intros [p i] Hpi%elem_of_hash_iter; apply wf_reassign_contributor; by apply (wf_current s Hs)) x Hs);
    destruct (for_each f l x) as [o [s' d]] end.
  simpl in Hloop. destruct o; [|done..]. simpl.
  pose proof (wf_no_verifiers s' Hloop) as Hv. rewrite Hv, fmap_empty. by apply wf_set_no_verifiers.
Qed.

Lemma wf_add_replacement b now : preserves state_wf (add_replacement_contributor_unsafe b now).
Proof.
  intros s Hs. unfold add_replacement_contributor_unsafe, bind, gets, lift, modify, ret.
  destruct (min_by_key _ _) as [r|] eqn:Hr; simpl; [|done].
  destruct (metrics_contributors s); [|done..].
  destruct (initialize_tasks' _ _ _) as [tasks| |]; [|done..].
  destruct (run_on _ _) as [i| |] eqn:Hi; [|done..]. simpl.
  apply start_new_inv in Hi as [-> _]. apply wf_set_current; [done|].
  apply filed_insert; [apply Hs|]. split; [|done]. apply min_by_key_Some in Hr as [Hr _].
  pose proof (wf_environment s Hs) as He. rewrite Forall_forall in He. by apply He.
Qed.

Lemma wf_drop_current_contributor p i now : preserves state_wf (drop_current_contributor p i now).
Proof.
  unfold drop_current_contributor. preserve_tac.
  - apply wf_reassign_after_drop.
  - apply wf_set_current; [done|]. intros q j [_ Hj]%lookup_delete_Some. by eapply wf_current.
  - apply wf_add_replacement.
Qed.

Lemma wf_finish_storage_action a now : preserves state_wf (finish_storage_action a now).
Proof. unfold finish_storage_action. preserve_tac. apply wf_reset. Qed.

Lemma wf_drop_participant p now : preserves state_wf (drop_participant p now).
Proof.
  unfold drop_participant. preserve_tac.
  - by apply wf_drop_from_queue.
  - apply wf_drop_current_contributor.
  - apply wf_finish_storage_action.
Qed.

Lemma wf_ban_participant p now : preserves state_wf (ban_participant p now).
Proof. unfold ban_participant. preserve_tac. apply wf_drop_participant. Qed.

Lemma wf_drop_if f now e : preserves state_wf (drop_if f now e).
Proof. unfold drop_if. preserve_tac. apply wf_drop_participant. Qed.

Lemma wf_update_dropped now : preserves state_wf (update_dropped_participants now).
Proof.
  unfold update_dropped_participants, update_contributor_seen_drops, update_participant_lock_drops.
  preserve_tac; apply preserves_collect_map; intros; apply wf_drop_if.
Qed.

Lemma wf_update_dropped_queued now : preserves state_wf (update_dropped_queued_participants now).
Proof.
  unfold update_dropped_queued_participants. preserve_tac. apply preserves_for_each. intros e _.
  unfold drop_queued_if_not_seen. preserve_tac. apply wf_drop_participant.
Qed.

Lemma wf_update_banned s : state_wf s → state_wf (update_banned_participants s).
Proof.
  intros Hs. destruct (ban_fold_spec s (CoordinatorState.dropped s)) as [Heq _].
  unfold update_banned_participants. rewrite Heq. by apply wf_set_banned.
Qed.

Lemma state_step_wf s s' : state_step s s' → state_wf s → state_wf s'.
Proof.
  intros Hstep Hs. destruct Hstep.
  - by apply wf_initialize.
  - by apply wf_add_to_queue.
  - by apply wf_remove_from_queue.
  - by apply wf_fetch_task.
  - by apply wf_acquired_lock.
  - by apply wf_rollback_pending.
  - by apply wf_rollback_locked.
  - by apply wf_disposed_task.
  - by apply wf_completed_task.
  - by apply wf_aggregating.
  - by apply wf_aggregated.
  - by apply wf_rollback_aggregating.
  - by apply wf_drop_participant.
  - by apply wf_ban_participant.
  - by apply wf_set_banned.
  - by apply wf_update_queue.
  - by apply wf_update_current_contributors.
  - by apply wf_update_dropped.
  - by apply wf_update_dropped_queued.
  - by apply wf_update_banned.
  - by apply wf_update_round_metrics.
  - by apply wf_precommit.
  - by apply wf_commit.
  - by apply wf_rollback_next.
  - by apply wf_reset.
  - by apply wf_heartbeat.
  - by apply wf_set_lock.
  - by apply wf_set_lock.
Qed.

Lemma reachable_wf env s :
  Forall (λ p, is_contributor p = true) (coordinator_contributors env) →
  rtc state_step (coordinator_state_new env) s → state_wf s.
Proof.
  intros He. apply state_wf_new in He. generalize dependent (coordinator_state_new env).
  intros s0 Hs0 Hr. induction Hr; [done|]. eauto using state_step_wf.
Qed.
End dropping.

(** ** Properties *)

(** C39. In every state the coordinator can reach, through any sequence of
    operations, failing ones included: only contributors wait, are staged,
    contribute or have finished, each filed under its own identity; nobody is
    queued and staged at once; a round is staged only between a precommit and
    its commit or rollback; and an initialized coordinator has a height,
    metrics and a table of finished contributors for it. *)
Theorem reachable_states_are_well_formed `{HashOrder, TimeApi} env s :
  Forall (λ p, is_contributor p = true) (coordinator_contributors env) →
  rtc state_step (coordinator_state_new env) s → state_wf s.
Proof. apply reachable_wf. Qed.

(** Verifiers take no part in the assignment of a round: no reachable state
    lists a current verifier, so dropping or banning a verifier, or looking up
    one of its tasks, always fails and changes nothing, and the coordinator
    never reports that the update of its contributors lost its round. *)
Theorem verifiers_are_never_assigned `{HashOrder, TimeApi} env s v now c :
  Forall (λ p, is_contributor p = true) (coordinator_contributors env) →
  rtc state_step (coordinator_state_new env) s → status s ≠ Initializing →
  (c ≤ number_of_chunks (environment s))%N →
  current_verifiers s = ∅ ∧
  drop_participant (Verifier v) now s = (Err (ParticipantNotFound (Verifier v)), s) ∧
  lookup_pending_task (Verifier v) c s = Err (ParticipantNotFound (Verifier v)) ∧
  (update_current_contributors now s).1 ≠ Err RoundCommitFailedOrCorrupted.
Proof.
  intros He Hr Hi Hc. pose proof (reachable_wf env s He Hr) as Hs.
  pose proof (wf_no_verifiers s Hs) as Hv. split; [done|]. split; [|split].
  - unfold drop_participant, check, bind, gets, lift. rewrite bool_decide_eq_false_2 by done.
    assert (in_queue_or_next (Verifier v) s = false) as ->.
    { unfold in_queue_or_next, contains_key. destruct (queue s !! Verifier v) as [e|] eqn:Hq;
        [by pose proof (wf_queue s Hs _ _ Hq)|].
      destruct (next s !! Verifier v) as [i|] eqn:Hn; [by destruct (wf_next s Hs _ _ Hn)|done]. }
    simpl. by rewrite Hv, lookup_empty.
  - unfold lookup_pending_task, lookup_task, chunk_id_invalid. rewrite (proj2 (N.ltb_ge _ _) Hc).
    simpl. by rewrite Hv, lookup_empty.
  - destruct (wf_started s Hs Hi) as (h & Hh & _ & [f Hf]). unfold update_current_contributors. rewrite Hh.
    simpl. rewrite Hf. by case_match.
Qed.

(** ** The round height *)

Section height.
Context `{HO : HashOrder, TA : TimeApi} (h : N).
Context (Hfit : (h < u64_modulus)%N).

Definition height_at_most (s : CoordinatorState) : Prop :=
  ∃ k, current_round_height s = Some k ∧ (k ≤ h)%N.

Lemma ham_frame s s' :
  height_at_most s → current_round_height s' = current_round_height s → height_at_most s'.
Proof. intros (k & Hk & ?) Heq. exists k. by rewrite Heq. Qed.

Lemma ham_with_contributor {A} p (m : method A) : preserves height_at_most (with_contributor p m).
Proof. intros s Hs. unfold with_contributor. destruct (_ !! p); [|done]. by destruct (m _). Qed.
Lemma ham_with_verifier {A} p (m : method A) : preserves height_at_most (with_verifier p m).
Proof. intros s Hs. unfold with_verifier. destruct (_ !! p); [|done]. by destruct (m _). Qed.
Lemma ham_with_participant {A} p (m : method A) : preserves height_at_most (with_participant p m).
Proof. destruct p; [apply ham_with_contributor | apply ham_with_verifier]. Qed.
Lemma ham_with_metrics {A} (m : M CoordinatorError RoundMetrics A) : preserves height_at_most (with_metrics m).
Proof. intros s Hs. unfold with_metrics. destruct (current_metrics s); [|done]. by destruct (m _). Qed.
#[local] Hint Resolve ham_with_contributor ham_with_verifier ham_with_participant ham_with_metrics : preserve.

Ltac ham_done := intros; (eapply ham_frame; [eassumption|]); try done.

Lemma ham_add_to_queue p ip rel now : preserves height_at_most (add_to_queue p ip rel now).
Proof.
  unfold add_to_queue. preserve_tac; try done. unfold zero_duplicate_ips. case_match; [|done].
  ham_done. by rewrite zero_reliability_foldl.
Qed.

Lemma ham_update_next_round_after now s :
  height_at_most s → height_at_most (update_next_round_after now s).
Proof. intros. unfold update_next_round_after. by case_match. Qed.

Lemma ham_update_round_metrics s : height_at_most s → height_at_most (update_round_metrics s).
Proof. ham_done. by destruct (update_round_metrics_frame s) as [m ->]. Qed.

Lemma ham_reset force now : preserves height_at_most (reset_current_round force now).
Proof.
  intros s (k & Hk & Hle). unfold reset_current_round, bind, gets, lift, check, modify, ret. rewrite Hk. cbn.
  case_match eqn:Hz; [by exists k|]. apply N.eqb_neq in Hz.
  destruct (restart_contributors k now s) as [r| |]; simpl; [|by exists k..].
  destruct (force || _); simpl.
  - unfold rolled_back. apply ham_update_next_round_after. exists (k - 1)%N.
    rewrite u64_sub_exact by lia.
    match goal with |- context [initialize ?k ?x] =>
      destruct (initialize_frame k x) as (fc & fv & ->); [done..|] end. split; [done|lia].
  - unfold restarted_round. apply ham_update_round_metrics. rewrite initialize_fresh by done. by exists k.
Qed.

Lemma ham_drop_from_queue p now s : height_at_most s → height_at_most (drop_from_queue p now s).
Proof.
  ham_done. unfold drop_from_queue, rollback_next_round, forget_ips. by repeat case_match.
Qed.

Lemma ham_reassign m n tbc e :
  preserves (λ x : CoordinatorState * gset Task, height_at_most x.1) (reassign_contributor m n tbc e).
Proof.
  destruct e as [p i]. unfold reassign_contributor. preserve_tac.
  all: match goal with x : CoordinatorState * gset Task |- _ => by destruct x as [s d] end.
Qed.

Lemma ham_drop_current p i now : preserves height_at_most (drop_current_contributor p i now).
Proof.
  unfold drop_current_contributor, reassign_after_drop, add_replacement_contributor_unsafe.
  preserve_tac; try done. intros s Hs.
  match goal with |- context [for_each ?f ?l ?x] =>
    pose proof (preserves_for_each (λ y : CoordinatorState * gset Task, height_at_most y.1) f l
      (λ e _, ham_reassign _ _ _ e) x Hs) as Hloop; destruct (for_each f l x) as [o [s' d]] end.
  by destruct o.
Qed.

Lemma ham_drop p now : preserves height_at_most (drop_participant p now).
Proof.
  unfold drop_participant, finish_storage_action. preserve_tac.
  - by apply ham_drop_from_queue.
  - apply ham_drop_current.
  - apply ham_reset.
Qed.

Lemma ham_drop_if f now e : preserves height_at_most (drop_if f now e).
Proof. unfold drop_if. preserve_tac. apply ham_drop. Qed.

Ltac by_method :=
  left; lazymatch goal with
  | Hs : height_at_most ?s |- height_at_most (?m ?s).2 =>
      cut (preserves height_at_most m); [intros Hm; by apply Hm|]
  end.

Lemma state_step_height s s' :
  state_step s s' → status s ≠ Initializing → current_round_height s = Some h →
  height_at_most s' ∨
  s' = commit_next_round s ∧ status s = Precommit ∧ current_round_height s' = Some (u64_add h 1).
Proof.
  intros Hstep Hi Hh. assert (height_at_most s) as Hs by by exists h.
  destruct Hstep; try (left; done).
  - left. by apply ham_add_to_queue.
  - by_method.
    unfold remove_from_queue. by preserve_tac.
  - by_method. unfold fetch_task.
    preserve_tac. unfold start_task_timer. by case_match.
  - by_method.
    unfold CoordinatorState.acquired_lock. by preserve_tac.
  - by_method.
    unfold CoordinatorState.rollback_pending_task. by preserve_tac.
  - by_method.
    unfold CoordinatorState.rollback_locked_task. by preserve_tac.
  - by_method.
    unfold disposed_task. by preserve_tac.
  - by_method.
    unfold CoordinatorState.completed_task, add_pending_verification, remove_pending_verification.
    preserve_tac; try done. unfold stop_task_timer. by case_match.
  - left. by apply ham_with_metrics.
  - by_method.
    unfold aggregated_current_round. preserve_tac. repeat case_match; try done.
    by apply ham_update_next_round_after.
  - left. by apply ham_with_metrics.
  - left. by apply ham_drop.
  - by_method.
    unfold ban_participant. preserve_tac; done || apply ham_drop.
  - left. unfold update_queue. rewrite Hh. by case_match.
  - left. unfold update_current_contributors. rewrite Hh. simpl. case_match; [done|].
    by destruct (finished_contributors s !! h).
  - by_method.
    unfold update_dropped_participants, update_contributor_seen_drops, update_participant_lock_drops.
    preserve_tac; apply preserves_collect_map; intros; apply ham_drop_if.
  - by_method.
    unfold update_dropped_queued_participants. preserve_tac. apply preserves_for_each. intros e _.
    unfold drop_queued_if_not_seen. preserve_tac. apply ham_drop.
  - left. destruct (ban_fold_spec s (CoordinatorState.dropped s)) as [Heq _].
    unfold update_banned_participants. by rewrite Heq.
  - left. by apply ham_update_round_metrics.
  - left. destruct (precommit_next_round _ now s) as [o s'] eqn:Hrun. simpl.
    destruct (is_ok o) eqn:Ho; [|by rewrite (precommit_failure _ _ _ _ _ Hrun Ho)].
    destruct o as [ps| |]; [|done..]. by apply precommit_guards in Hrun as (_ & _ & cur & infos & _ & _ & ->).
  - unfold commit_next_round. case_bool_decide as Hp; simpl; [|by left]. rewrite Hh. right. done.
  - left. unfold rollback_next_round. by case_match.
  - left. by apply ham_reset.
  - left. unfold heartbeat. repeat case_match; done.
Qed.
End height.

(** The height of an initialized coordinator advances by commits of a
    precommit only, one round at a time; every other operation, resets and
    drops with their roll backs included, leaves it or lowers it. *)
Theorem only_commits_advance `{HashOrder, TimeApi} s s' h :
  state_step s s' → status s ≠ Initializing → current_round_height s = Some h → (h + 1 < u64_modulus)%N →
  (∃ k, current_round_height s' = Some k ∧ (k ≤ h)%N) ∨
  (s' = commit_next_round s ∧ status s = Precommit ∧ current_round_height s' = Some (h + 1)%N).
Proof.
  intros Hstep Hi Hh Hfit. destruct (state_step_height h ltac:(lia) s s' Hstep Hi Hh) as [?|(? & ? & Hc)]; [by left|].
  right. rewrite u64_add_exact in Hc by lia. done.
Qed.

(** ** Witnesses *)

#[local] Existing Instance trie_order.
#[local] Existing Instance time_api.

Lemma ex_joined_reachable :
  rtc state_step (coordinator_state_new testing_environment) (initialize 0 ex_shared).
Proof.
  eapply rtc_l; [apply (step_add_to_queue carol (Some (V4 7)) 10 5)|].
  apply rtc_once. apply (step_initialize 0 ex_shared). by vm_compute.
Qed.

Lemma coordinator_contributors_ok :
  Forall (λ p, is_contributor p = true) (coordinator_contributors testing_environment).
Proof. by repeat constructor. Qed.

Lemma reachable_states_are_well_formed_witness : state_wf (initialize 0 ex_shared).
Proof.
  apply (reachable_states_are_well_formed testing_environment).
  - apply coordinator_contributors_ok.
  - apply ex_joined_reachable.
Defined.

Lemma verifiers_are_never_assigned_witness :
  drop_participant (Verifier "v") 9 (initialize 0 ex_shared) =
    (Err (ParticipantNotFound (Verifier "v")), initialize 0 ex_shared).
Proof.
  apply (verifiers_are_never_assigned testing_environment (initialize 0 ex_shared) "v" 9 0).
  - apply coordinator_contributors_ok.
  - apply ex_joined_reachable.
  - by vm_compute.
  - by vm_compute.
Defined.

Lemma only_commits_advance_witness :
  (∃ k, current_round_height (commit_next_round ex_precommitted) = Some k ∧ (k ≤ 0)%N) ∨
  (commit_next_round ex_precommitted = commit_next_round ex_precommitted ∧ status ex_precommitted = Precommit ∧
   current_round_height (commit_next_round ex_precommitted) = Some 1%N).
Proof.
  apply (only_commits_advance ex_precommitted (commit_next_round ex_precommitted) 0).
  - apply step_commit.
  - by vm_compute.
  - by vm_compute.
  - by vm_compute.
Defined.
