(* ===== verification/RoundInvariant.v ===== *)
(** * The deal of a running round

    What the contributors of a round do between its start and its end, as steps
    of the coordinator state, and the invariant of these steps: the grid of
    (chunk, contribution) cells stays dealt, each cell to exactly one member of
    the round, until a contributor is replaced by a member of the round. *)

From S2P Require Import Prelude Task Participant Errors Environment ParticipantInfo RoundMetrics CoordinatorState RoundTransition DropParticipant.
(** ** One participant *)

(** What the deal depends on. *)
Definition same_deal (i i' : ParticipantInfo) : Prop :=
  bucket_id i' = bucket_id i ∧ all_tasks i' ≡ₚ all_tasks i.

#[export] Instance same_deal_refl : Reflexive same_deal.
Proof. by intros i. Qed.
#[export] Instance same_deal_trans : Transitive same_deal.
Proof. intros i j k [Hb Ht] [Hb' Ht']. split; [congruence|]. by rewrite Ht', Ht. Qed.

Lemma pop_task_same_deal now i t i' : pop_task now i = (Ok t, i') → same_deal i i'.
Proof.
  intros (_ & rest & Ha & ->)%pop_task_inv. split; [done|]. unfold all_tasks; simpl.
  rewrite Ha, <-!app_assoc. simpl. by rewrite <-!Permutation_middle.
Qed.
Lemma acquired_lock_same_deal c now i r i' : ParticipantInfo.acquired_lock c now i = (Ok r, i') → same_deal i i'.
Proof. by intros (_ & _ & _ & ->)%acquired_lock_inv. Qed.
Lemma completed_task_same_deal t now i r i' :
  NoDup (pending_tasks i) → ParticipantInfo.completed_task t now i = (Ok r, i') → same_deal i i'.
Proof.
  intros Hnd (_ & Ht & _ & _ & _ & ->)%completed_task_inv. split; [done|]. unfold all_tasks; simpl.
  rewrite (remove_task_perm t _ Hnd Ht) at 2. by rewrite (app_assoc _ (completed_tasks i)), <-Permutation_cons_append.
Qed.
Lemma rollback_pending_same_deal t now i r i' :
  NoDup (pending_tasks i) → t ∈ pending_tasks i →
  ParticipantInfo.rollback_pending_task t now i = (Ok r, i') → same_deal i i'.
Proof.
  intros Hnd Ht (_ & _ & ->)%rollback_pending_task_inv. split; [done|]. unfold all_tasks; simpl. by apply (rollback_perm i).
Qed.
Lemma rollback_locked_same_deal t now i r i' :
  NoDup (pending_tasks i) → t ∈ pending_tasks i →
  ParticipantInfo.rollback_locked_task t now i = (Ok r, i') → same_deal i i'.
Proof.
  intros Hnd Ht (_ & _ & ->)%rollback_locked_task_inv. split; [done|]. unfold all_tasks; simpl. by apply (rollback_perm i).
Qed.
Lemma dispose_task_same_deal c k now i r i' : dispose_task c k now i = (Ok r, i') → same_deal i i'.
Proof. unfold dispose_task. intros H. method_inv H. by simplify_eq. Qed.
Lemma finish_same_deal now i r i' : finish now i = (Ok r, i') → same_deal i i'.
Proof. by intros (_ & _ & _ & _ & _ & _ & ->)%finish_inv. Qed.

(** ** The members of the round *)

(** Same members, same deal. *)
Definition same_deals (ps ps' : gmap Participant ParticipantInfo) : Prop :=
  ∀ p, match ps !! p, ps' !! p with
       | Some i, Some i' => same_deal i i'
       | None, None => True
       | _, _ => False
       end.

Lemma dealt_round_same m n ps ps' :
  same_deals ps ps' → dealt_round m n (λ _ i, bucket_id i) ps → dealt_round m n (λ _ i, bucket_id i) ps'.
Proof.
  intros Hsame Hd.
  assert (∀ p i', ps' !! p = Some i' → ∃ i, ps !! p = Some i ∧ same_deal i i') as Hback.
  { intros p i' Hp. specialize (Hsame p). rewrite Hp in Hsame. destruct (ps !! p); [eauto|done]. }
  assert (∀ p i, ps !! p = Some i → ∃ i', ps' !! p = Some i' ∧ same_deal i i') as Hforth.
  { intros p i Hp. specialize (Hsame p). rewrite Hp in Hsame. destruct (ps' !! p); [eauto|done]. }
  split.
  - intros p i' (i & Hi & -> & ->)%Hback. by apply (dealt_tasks _ _ _ _ Hd p).
  - intros p i' q j' (i & Hi & -> & _)%Hback (j & Hj & -> & _)%Hback. by apply (dealt_once _ _ _ _ Hd).
  - intros b Hb. destruct (dealt_all _ _ _ _ Hd b Hb) as (p & i & Hp & <-).
    destruct (Hforth p i Hp) as (i' & Hi' & Hbk & _). by exists p, i'.
Qed.

Record round_inv (h n : N) (s : CoordinatorState) : Prop := {
  ri_height : current_round_height s = Some h ∧ h ≠ 0%N;
  ri_metrics : metrics_contributors s = Ok n;
  ri_enough : (n ≤ number_of_chunks (environment s))%N;
  ri_fits : (2 * number_of_chunks (environment s) < u64_modulus)%N;
  ri_table : is_Some (finished_contributors s !! h);
  ri_disjoint : current_contributors s ##ₘ finished_contributors_of h s;
  ri_dealt : dealt_round (number_of_chunks (environment s)) n (λ _ i, bucket_id i) (round_members h s);
}.

Lemma ri_current h n s p i :
  round_inv h n s → current_contributors s !! p = Some i →
  (bucket_id i < n)%N ∧ all_tasks i ≡ₚ deal_list (bucket_id i) (number_of_chunks (environment s)) n.
Proof.
  intros Hs Hi. apply (dealt_tasks _ _ _ _ (ri_dealt _ _ _ Hs) p). apply round_members_lookup; [apply Hs|by left].
Qed.

Lemma ri_pending_NoDup h n s p i :
  round_inv h n s → current_contributors s !! p = Some i → NoDup (pending_tasks i).
Proof.
  intros Hs Hi. destruct (ri_current h n s p i Hs Hi) as [Hb Hall].
  pose proof (deal_list_NoDup (bucket_id i) (number_of_chunks (environment s)) n Hb (ri_enough _ _ _ Hs)) as Hnd.
  rewrite <-Hall in Hnd. unfold all_tasks in Hnd. rewrite !NoDup_app in Hnd. naive_solver.
Qed.

(** The invariant only looks at some fields. *)
Lemma round_inv_frame h n s s' :
  round_inv h n s →
  environment s' = environment s → current_round_height s' = current_round_height s →
  metrics_contributors s' = metrics_contributors s → current_contributors s' = current_contributors s →
  finished_contributors s' = finished_contributors s → round_inv h n s'.
Proof.
  intros [Hh Hn Hm Hf Ht Hd Hdeal] E1 E2 E3 E4 E5.
  split; unfold round_members, finished_contributors_of in *; by rewrite ?E1, ?E2, ?E3, ?E4, ?E5.
Qed.

Lemma round_inv_update h n s p i i' :
  round_inv h n s → current_contributors s !! p = Some i → same_deal i i' →
  round_inv h n (set_current_contributors (<[p := i']> (current_contributors s)) s).
Proof.
  intros Hs Hi Hsame. destruct Hs as [Hh Hn Hm Hf Ht Hd Hdeal]. split; try done.
  - simpl. rewrite map_disjoint_insert_l. split; [|done]. by eapply map_disjoint_Some_l.
  - eapply dealt_round_same; [|exact Hdeal]. intros q. unfold round_members, finished_contributors_of in *. simpl.
    rewrite !lookup_union. destruct (decide (p = q)) as [<-|Hne].
    + rewrite lookup_insert_eq, Hi, !union_Some_l. done.
    + rewrite lookup_insert_ne by done. by case_match.
Qed.

Lemma with_contributor_inv {A} p (m : method A) s a s' :
  with_contributor p m s = (Ok a, s') →
  ∃ i i', current_contributors s !! p = Some i ∧ m i = (Ok a, i') ∧
    s' = set_current_contributors (<[p := i']> (current_contributors s)) s.
Proof.
  unfold with_contributor. destruct (current_contributors s !! p) as [i|]; [|done].
  destruct (m i) as [o i'] eqn:Hm. intros [= -> <-]. eauto.
Qed.

(** ** Metrics *)

Lemma number_of_contributors_timer `{TimeApi} p t now m :
  number_of_contributors (start_timer p t now m) = number_of_contributors m ∧
  number_of_contributors (stop_timer p t now m) = number_of_contributors m.
Proof. split; [done|]. unfold stop_timer. repeat case_match; done. Qed.

Lemma number_of_contributors_averages `{HashOrder} m m' a b :
  update_averages m = (m', a, b) → number_of_contributors m' = number_of_contributors m.
Proof.
  unfold update_averages.
  assert (∀ l acc, number_of_contributors (foldl average_step acc l).1 = number_of_contributors acc.1) as Hfold.
  { intros l. induction l as [|[p t] l IH]; intros [m1 a1]; simpl; [done|]. rewrite IH. unfold average_step.
    by repeat case_match. }
  specialize (Hfold (hash_iter (task_timer m)) (m, MkAverages 0 0 0 0)).
  destruct (foldl _ _ _) as [m1 a1]. simpl in Hfold. intros Heq. repeat case_match; simplify_eq/=; done.
Qed.

Lemma number_of_contributors_update `{HashOrder} s :
  metrics_contributors (update_round_metrics s) = metrics_contributors s.
Proof.
  unfold update_round_metrics. destruct (is_current_round_finished s); [done|].
  destruct (current_metrics s) as [m|] eqn:Hm; [|done].
  destruct (update_averages m) as [[m' a] b] eqn:Ha. unfold metrics_contributors. simpl. rewrite Hm. simpl.
  unfold estimate_remaining. by case_match; simpl; rewrite (number_of_contributors_averages _ _ _ _ Ha).
Qed.

(** ** Finishing *)

Section finishing.
Context (now : Z) (cur : gmap Participant ParticipantInfo).
Let staying := filter (λ kv, keeps_contributing now kv.2 = true) cur.
Let fin := omap (newly_finished now) cur.

Lemma newly_finished_same_deal i i' : newly_finished now i = Some i' → same_deal i i'.
Proof.
  unfold newly_finished. destruct (is_finished i); [done|].
  destruct (run_on (finish now) i) eqn:Hr; simpl; [|done..]. intros [= ->].
  apply run_on_ok in Hr as [[] Hf]. by eapply finish_same_deal.
Qed.

Lemma keeps_not_finished i : keeps_contributing now i = true → newly_finished now i = None.
Proof.
  unfold keeps_contributing, newly_finished. destruct (is_finished i); [done|]. by destruct (run_on _ _).
Qed.

(** With matching sizes nobody gets lost. *)
Lemma leaving_finished p i :
  size cur = size staying + size fin → cur !! p = Some i → staying !! p = None → ∃ i', fin !! p = Some i'.
Proof.
  intros Hsize Hi Hp.
  set (leaving := filter (λ kv, ¬ keeps_contributing now kv.2 = true) cur).
  assert (dom fin ⊆ dom leaving) as Hsub.
  { intros q. rewrite !elem_of_dom. unfold fin, leaving. rewrite lookup_omap, map_filter_lookup_decide.
    intros [i' Hi']. destruct (cur !! q) as [j|]; simpl in *; [|done]. case_decide as Hk; [by eexists|].
    by rewrite (keeps_not_finished _ Hk) in Hi'. }
  assert (size (dom fin) = size (dom leaving)) as Heq.
  { rewrite !size_dom. assert (size cur = size staying + size leaving); [|lia].
    unfold staying, leaving. rewrite <-map_size_disj_union
      by apply (map_disjoint_filter_complement (λ kv, keeps_contributing now kv.2 = true)).
    by rewrite (map_filter_union_complement (λ kv, keeps_contributing now kv.2 = true) cur). }
  assert (p ∈ dom leaving) as Hl.
  { apply elem_of_dom. exists i. apply map_lookup_filter_Some. split; [done|]. intros Hk.
    assert (staying !! p = Some i); [|congruence]. by apply map_lookup_filter_Some. }
  apply elem_of_dom. rewrite (set_subseteq_size_eq (dom fin) (dom leaving)); [done|done|lia].
Qed.

Lemma finishing_same_deals f :
  size cur = size staying + size fin → cur ##ₘ f →
  same_deals (cur ∪ f) (staying ∪ (fin ∪ f)) ∧ staying ##ₘ (fin ∪ f).
Proof.
  intros Hsize Hd. rewrite map_disjoint_spec in Hd. split.
  - intros p. rewrite !lookup_union. destruct (cur !! p) as [i|] eqn:Hi.
    + destruct (staying !! p) as [j|] eqn:Hst.
      * unfold staying in Hst. apply map_lookup_filter_Some in Hst as [Hj _]. rewrite !union_Some_l. by simplify_eq.
      * destruct (leaving_finished p i Hsize Hi Hst) as [i' Hi'].
        rewrite Hi', (left_id_L None union), !union_Some_l.
        unfold fin in Hi'. rewrite lookup_omap, Hi in Hi'. by apply newly_finished_same_deal.
    + assert (staying !! p = None) as -> by (apply map_lookup_filter_None; by left).
      assert (fin !! p = None) as -> by (unfold fin; by rewrite lookup_omap, Hi).
      rewrite !(left_id_L None union). by case_match.
  - rewrite map_disjoint_spec. intros p i j Hi Hj.
    apply map_lookup_filter_Some in Hi as [Hi Hk]. simpl in Hk.
    apply lookup_union_Some_raw in Hj as [Hj|[_ Hj]]; [|by eapply Hd].
    unfold fin in Hj. rewrite lookup_omap, Hi in Hj. simpl in Hj. by rewrite (keeps_not_finished _ Hk) in Hj.
Qed.
End finishing.

(** ** Steps of a running round *)

Section rounds.
Context `{HO : HashOrder, TA : TimeApi}.

(** Nothing in [drop_participant] makes sure of this: with one coordinator
    contributor, the second drop of a round finds it engaged. *)
Definition free_replacement (h : N) (s : CoordinatorState) (p : Participant)
    (a : ReplaceContributorStorageAction) : Prop :=
  round_members h s !! replacement_contributor a = None ∨ replacement_contributor a = p.

(** The calls on the state of a running round. A rollback is of a task that is
    pending, and a drop is one whose replacement is free; what any other drop
    does is the other half of [drop_covers_iff]. *)
Inductive round_step : CoordinatorState → CoordinatorState → Prop :=
| rs_fetch p now t s s' : fetch_task p now s = (Ok t, s') → round_step s s'
| rs_lock p c now s s' : CoordinatorState.acquired_lock p c now s = (Ok tt, s') → round_step s s'
| rs_rollback_pending p t now s s' :
    (∀ i, current_contributors s !! p = Some i → t ∈ pending_tasks i) →
    CoordinatorState.rollback_pending_task p t now s = (Ok tt, s') → round_step s s'
| rs_rollback_locked p t now s s' :
    (∀ i, current_contributors s !! p = Some i → t ∈ pending_tasks i) →
    CoordinatorState.rollback_locked_task p t now s = (Ok tt, s') → round_step s s'
| rs_completed p t now s s' : CoordinatorState.completed_task p t now s = (Ok tt, s') → round_step s s'
| rs_disposed p t now s s' : disposed_task p t now s = (Ok tt, s') → round_step s s'
| rs_finish now s s' : update_current_contributors now s = (Ok tt, s') → round_step s s'
| rs_metrics s : round_step s (update_round_metrics s)
| rs_update_queue s s' : update_queue s = (Ok tt, s') → round_step s s'
| rs_drop p now a s s' :
    drop_participant p now s = (Ok (DropCurrent p (ReplaceContributor a)), s') →
    (∀ h, current_round_height s = Some h → free_replacement h s p a) → round_step s s'.

Lemma drop_current_droppable h n p now q act s s' :
  round_inv h n s → drop_participant p now s = (Ok (DropCurrent q act), s') →
  ∃ info, droppable p info n s.
Proof.
  intros Hs Hrun. unfold drop_participant in Hrun. apply check_ok in Hrun as [Hi Hrun].
  apply bool_decide_eq_false in Hi.
  apply bind_ok in Hrun as (w & s1 & Hg & Hrun). unfold gets in Hg. simplify_eq.
  destruct (in_queue_or_next p s1) eqn:Hw; [unfold bind, modify, ret in Hrun; by simplify_eq|].
  unfold in_queue_or_next in Hw. guards_to_props. destruct Hw as [Hq Hn].
  apply bind_ok in Hrun as (o & s2 & Hg & Hrun). unfold gets in Hg. simplify_eq.
  apply bind_ok in Hrun as (info & s3 & Hg & Hrun). unfold lift in Hg.
  assert (ok_or (current_participant_info p s2) (ParticipantNotFound p) = (Ok info : outcome _ _) ∧ s3 = s2)
    as [Hinfo ->] by (by simplify_eq).
  apply ok_or_ok in Hinfo. repeat (apply check_ok in Hrun as [? Hrun]).
  apply bind_ok in Hrun as (act' & s4 & Hdrop & _). unfold drop_current_contributor in Hdrop.
  apply bind_ok in Hdrop as (di & s5 & Hd & _). unfold lift in Hd.
  assert (run_on (drop now) info = Ok di) as Hd' by by simplify_eq.
  apply run_on_ok in Hd' as ([] & (Hda & Hfa & _)%drop_inv).
  unfold is_verifier in *. guards_to_props. destruct p as [id|id]; [|done]. simpl in Hinfo.
  exists info. split; try done; try apply Hs.
  intros r i Hr. by apply (ri_current h n s2 r i Hs).
Qed.

(** A drop in a running round, in full. *)
Lemma drop_takes_over h n p now a s s' :
  round_inv h n s → drop_participant p now s = (Ok (DropCurrent p (ReplaceContributor a)), s') →
  ∃ info, current_contributors s !! p = Some info ∧
    takes_over (number_of_chunks (environment s)) n p (replacement_contributor a) info
      (round_members h s) (round_members h s') ∧
    ∃ v i, s' = set_current_contributors (<[replacement_contributor a := i]>
        (current_contributors (after_drop p info (number_of_chunks (environment s)) n now v s)))
      (after_drop p info (number_of_chunks (environment s)) n now v s).
Proof.
  intros Hs Hrun. destruct (drop_current_droppable _ _ _ _ _ _ _ _ Hs Hrun) as [info Hdrop].
  pose proof Hs as [[Hh Hz] Hn Hm Hf Ht Hd Hdeal].
  destruct (drop_participant_run p info n now s Hdrop) as (v & Heq). rewrite Heq in Hrun.
  destruct (coordinator_contributors (environment s)) as [|c cs] eqn:Hcc.
  { exfalso. revert Hrun. unfold bind at 1. cbv beta.
    change (environment (after_drop _ _ _ _ _ _ _)) with (environment s). rewrite Hcc. cbn [is_nil].
    unfold ret at 1, finish_storage_action. rewrite bind_assoc. unfold bind at 1.
    destruct (reset_current_round _ _ _) as [[x| |] ?]; unfold bind, ret; intros; simplify_eq. }
  assert (coordinator_contributors (environment s) ≠ []) as Hne by (by rewrite Hcc).
  pose proof Hdrop as [_ _ _ Hcur _ _ Hb _ _].
  destruct (add_replacement_run (bucket_id info) n now
    (after_drop p info (number_of_chunks (environment s)) n now v s) h) as (r & Hr & _ & Hadd);
    [done|done|split; [by apply (Hb p)|done]|done|done|done|].
  destruct (drop_with_replacement p info n h now s Hdrop Hne Hh Hz Hd Hdeal) as (r' & s2 & Hrun2 & _ & Hover & _ & _).
  rewrite Heq, Hrun in Hrun2. simplify_eq/=. exists info. split; [done|]. split; [done|].
  revert Hrun. unfold bind at 1. cbv beta.
  change (environment (after_drop _ _ _ _ _ _ _)) with (environment s). rewrite Hcc. cbn [is_nil].
  unfold bind at 1. change (environment (after_drop _ _ _ _ _ _ _)) with (environment s) in Hadd. rewrite Hadd.
  unfold finish_storage_action, bind, ret. intros. simplify_eq/=. by eexists v, _.
Qed.

Lemma round_step_drop h n p now a s s' :
  round_inv h n s → drop_participant p now s = (Ok (DropCurrent p (ReplaceContributor a)), s') →
  free_replacement h s p a → round_inv h n s'.
Proof.
  intros Hs Hrun Hfree. pose proof Hs as [[Hh Hz] Hn Hm Hf Ht Hd Hdeal].
  destruct (drop_takes_over _ _ _ _ _ _ _ Hs Hrun) as (info & Hcur & Hover & v & i & ->).
  assert (dealt_round (number_of_chunks (environment s)) n (λ _ i, bucket_id i) (round_members h
    (set_current_contributors (<[replacement_contributor a := i]>
        (current_contributors (after_drop p info (number_of_chunks (environment s)) n now v s)))
      (after_drop p info (number_of_chunks (environment s)) n now v s)))) as Hdeal'.
  { eapply dealt_round_replace; [exact Hdeal| |done|exact Hfree]. apply round_members_lookup; [done|by left]. }
  split; try done. unfold finished_contributors_of in *. simpl.
  rewrite map_disjoint_insert_l. split.
  - destruct Hfree as [Hnone|Heq].
    + unfold round_members in Hnone. by apply lookup_union_None in Hnone as [_ ?].
    + rewrite Heq. by eapply map_disjoint_Some_l.
  - rewrite map_disjoint_spec in *. intros q j k [_ Hi]%lookup_delete_Some Hj.
    rewrite lookup_fmap_Some in Hi. destruct Hi as (i0 & _ & Hi0). by eapply Hd.
Qed.

(** A drop keeps the round dealt exactly when the replacement is free. *)
Lemma drop_covers_iff h n p now a s s' :
  round_inv h n s → drop_participant p now s = (Ok (DropCurrent p (ReplaceContributor a)), s') →
  covers_grid (number_of_chunks (environment s')) n (round_members h s') ↔ free_replacement h s p a.
Proof.
  intros Hs Hrun. split.
  - intros Hcov. pose proof Hs as [_ _ Hm _ _ Hd Hdeal].
    destruct (drop_takes_over _ _ _ _ _ _ _ Hs Hrun) as (info & Hcur & Hover & v & i & ->).
    destruct (round_members h s !! replacement_contributor a) as [info_r|] eqn:Hr; [|by left].
    destruct (decide (replacement_contributor a = p)) as [|Hne]; [by right|]. exfalso. revert Hcov.
    eapply (take_over_loses_bucket _ _ (round_members h s)); [exact Hm|exact Hdeal| |exact Hover|done..].
    apply round_members_lookup; [done|by left].
  - intros Hfree. assert (round_inv h n s') as Hs' by by eapply round_step_drop.
    eapply dealt_round_covers; apply Hs'.
Qed.
End rounds.

Section preservation.
Context `{HO : HashOrder, TA : TimeApi}.

Lemma round_inv_timer h n p t now s :
  round_inv h n s → round_inv h n (start_task_timer p t now s) ∧ round_inv h n (stop_task_timer p t now s).
Proof.
  intros Hs. split; (eapply round_inv_frame; [exact Hs|..]);
    unfold start_task_timer, stop_task_timer, metrics_contributors; destruct (current_metrics s) as [m|] eqn:Hm; try done;
    simpl; rewrite ?Hm; simpl; try done. by rewrite (proj2 (number_of_contributors_timer p t now m)).
Qed.

Lemma round_inv_with {A} h n p (m : method A) s a s' :
  round_inv h n s → with_contributor p m s = (Ok a, s') →
  (∀ i i', current_contributors s !! p = Some i → m i = (Ok a, i') → same_deal i i') →
  round_inv h n s'.
Proof.
  intros Hs (i & i' & Hi & Hm & ->)%with_contributor_inv Hsame. eapply round_inv_update; eauto.
Qed.

Lemma with_verifier_frame {A} h n p (m : method A) s a s' :
  round_inv h n s → with_verifier p m s = (Ok a, s') → round_inv h n s'.
Proof.
  intros Hs. unfold with_verifier. destruct (_ !! p); [|done]. destruct (m _) as [o i']. intros [= _ <-].
  by eapply round_inv_frame.
Qed.

Lemma round_inv_pending h n v s : round_inv h n s → round_inv h n (set_pending_verification v s).
Proof. intros. by eapply round_inv_frame. Qed.

Lemma round_inv_completed h n p t now s s' :
  round_inv h n s → CoordinatorState.completed_task p t now s = (Ok tt, s') → round_inv h n s'.
Proof.
  intros Hs Hrun. unfold CoordinatorState.completed_task in Hrun. apply check_ok in Hrun as [_ Hrun].
  destruct p as [c|v].
  - apply bind_ok in Hrun as ([] & s1 & H1 & Hrun). unfold bind at 1, modify in Hrun.
    assert (round_inv h n s1) as Hs1.
    { eapply round_inv_with; [exact Hs|exact H1|]. intros i i' Hi Hm.
      eapply completed_task_same_deal; [by eapply ri_pending_NoDup|done]. }
    apply (round_inv_timer _ _ (Contributor c) t now) in Hs1 as [_ Hs2].
    unfold add_pending_verification in Hrun. repeat (apply check_ok in Hrun as [_ Hrun]).
    unfold bind, gets, lift, modify in Hrun. destruct (ok_or _ _); simplify_eq. by apply round_inv_pending.
  - unfold remove_pending_verification in Hrun. repeat (apply check_ok in Hrun as [_ Hrun]).
    unfold modify in Hrun. simplify_eq. by apply round_inv_pending.
Qed.

Lemma round_inv_finish h n now s s' :
  round_inv h n s → update_current_contributors now s = (Ok tt, s') → round_inv h n s'.
Proof.
  intros Hs Hrun. pose proof Hs as [[Hh Hz] Hn Hm Hf [f Ht] Hd Hdeal].
  unfold update_current_contributors in Hrun. rewrite Hh in Hrun. simpl in Hrun. rewrite Ht in Hrun.
  destruct (negb _) eqn:Hsize; [done|]. apply negb_false_iff, Nat.eqb_eq in Hsize. simplify_eq.
  assert (finished_contributors_of h s = f) as Hff by (unfold finished_contributors_of; by rewrite Ht).
  rewrite Hff in Hd. destruct (finishing_same_deals now (current_contributors s) f Hsize Hd) as [Hsame Hdisj].
  split; try done.
  - simpl. rewrite lookup_insert_eq. by eexists.
  - unfold finished_contributors_of. simpl. rewrite lookup_insert_eq. exact Hdisj.
  - eapply dealt_round_same; [|exact Hdeal]. unfold round_members. rewrite Hff.
    unfold finished_contributors_of. simpl. rewrite lookup_insert_eq. exact Hsame.
Qed.

Lemma round_inv_step h n s s' : round_step s s' → round_inv h n s → round_inv h n s'.
Proof.
  intros Hstep Hs.
  destruct Hstep as [p now t s s' Hrun|p c now s s' Hrun|p t now s s' Ht Hrun|p t now s s' Ht Hrun
    |p t now s s' Hrun|p t now s s' Hrun|now s s' Hrun|s|s s' Hrun|p now a s s' Hrun Hfresh].
  - unfold fetch_task in Hrun. destruct p as [c|]; [|done].
    apply bind_ok in Hrun as (limit & s1 & Hg & Hrun). unfold gets in Hg. simplify_eq.
    apply bind_ok in Hrun as (t' & s2 & Hw & Hrun). unfold bind, modify, ret in Hrun. simplify_eq.
    apply round_inv_timer. eapply round_inv_with; [exact Hs|exact Hw|].
    intros i i' _ Hm. apply check_ok in Hm as [_ Hm]. by eapply pop_task_same_deal.
  - unfold CoordinatorState.acquired_lock in Hrun. apply check_ok in Hrun as [_ Hrun].
    destruct p; [|done]. eapply round_inv_with; [exact Hs|exact Hrun|].
    intros i i' _ Hm. by eapply acquired_lock_same_deal.
  - unfold CoordinatorState.rollback_pending_task in Hrun. apply check_ok in Hrun as [_ Hrun].
    destruct p; simpl in Hrun; [|by eapply with_verifier_frame].
    eapply round_inv_with; [exact Hs|exact Hrun|].
    intros i i' Hi Hm. eapply rollback_pending_same_deal; [by eapply ri_pending_NoDup|by apply Ht|done].
  - unfold CoordinatorState.rollback_locked_task in Hrun. apply check_ok in Hrun as [_ Hrun].
    destruct p; simpl in Hrun; [|by eapply with_verifier_frame].
    eapply round_inv_with; [exact Hs|exact Hrun|].
    intros i i' Hi Hm. eapply rollback_locked_same_deal; [by eapply ri_pending_NoDup|by apply Ht|done].
  - by eapply round_inv_completed.
  - unfold disposed_task in Hrun. apply check_ok in Hrun as [_ Hrun].
    destruct p; simpl in Hrun; [|by eapply with_verifier_frame].
    eapply round_inv_with; [exact Hs|exact Hrun|]. intros i i' _ Hm. by eapply dispose_task_same_deal.
  - by eapply round_inv_finish.
  - eapply round_inv_frame; [exact Hs|..]; try (by destruct (update_round_metrics_frame s) as [m ->]).
    apply number_of_contributors_update.
  - unfold update_queue in Hrun. destruct (current_round_height s); [|done].
    case_match; simplify_eq. by eapply round_inv_frame.
  - eapply round_step_drop; [exact Hs|exact Hrun|]. apply (Hfresh h), Hs.
Qed.

Lemma round_inv_steps h n s s' : rtc round_step s s' → round_inv h n s → round_inv h n s'.
Proof. induction 1; eauto using round_inv_step. Qed.

(** A precommit and a commit start a round. *)
Lemma round_inv_start h now s ps s1 :
  (0 < minimum_contributors_per_round (environment s))%nat →
  (2 * number_of_chunks (environment s) < u64_modulus)%N → h ≠ 0%N →
  precommit_next_round h now s = (Ok ps, s1) →
  round_inv h (N.of_nat (length ps)) (commit_next_round s1).
Proof.
  intros Hmin Hm Hz (Hready & Hn & -> & ->)%precommit_inv; [|done..].
  destruct Hready as (_ & _ & (k & Hk & ->) & _ & [Hpv Hcur]%is_current_round_finished_true & _).
  rewrite length_fmap in *.
  set (m := number_of_chunks (environment s)) in *.
  set (nx := hash_map_from_iter (precommit_infos (u64_add k 1) m now s)).
  assert (contributors_in nx = nx) as Hc
    by (apply filter_all; intros; by eapply precommitted_contributors).
  assert (∀ s2, s2 = commit_next_round (precommitted (u64_add k 1) (precommit_infos (u64_add k 1) m now s) s) →
    current_contributors s2 = nx ∧ current_round_height s2 = Some (u64_add k 1) ∧
    metrics_contributors s2 = Ok (N.of_nat (size nx)) ∧ environment s2 = environment s ∧
    finished_contributors s2 !! (u64_add k 1) = Some ∅) as Hs2.
  { intros s2 ->. unfold commit_next_round. rewrite bool_decide_eq_true_2 by done. simpl. rewrite Hk. simpl.
    fold nx. rewrite Hc, Hcur, (right_id_L ∅ (∪)), lookup_insert_eq. done. }
  destruct (Hs2 _ eq_refl) as (H1 & H2 & H3 & H4 & H5). clear Hs2.
  set (s2 := commit_next_round _) in *.
  assert (finished_contributors_of (u64_add k 1) s2 = ∅) as Hf by (unfold finished_contributors_of; by rewrite H5).
  split.
  - done.
  - rewrite H3. unfold nx. by rewrite precommitted_size.
  - rewrite H4. apply Hn.
  - by rewrite H4.
  - rewrite H5. by eexists.
  - rewrite Hf. apply map_disjoint_empty_r.
  - unfold round_members. rewrite Hf, H1, H4, (right_id_L ∅ (∪)). apply precommitted_dealt.
Qed.
End preservation.

(** ** Properties *)

(** C1. From its start on a round stays dealt: after a precommit and a commit,
    through any sequence of fetching and locking tasks, of rolling back tasks
    that are pending, of completing, verifying and disposing of tasks, of
    contributors finishing, and of dropping contributors whose replacement is
    not a member of the round, every cell of the (chunk, contribution) grid is
    the task of exactly one member of the round, and members hold no other
    tasks. In whatever state these calls lead to, the next drop that replaces a
    contributor keeps the grid covered exactly when its replacement is not a
    member of the round yet: one that is already engaged is given the bucket of
    the dropped contributor in place of its own, which is then nobody's. *)
Theorem running_round_stays_dealt `{HashOrder, TimeApi} h now s ps s1 s' :
  (0 < minimum_contributors_per_round (environment s))%nat →
  (2 * number_of_chunks (environment s) < u64_modulus)%N → h ≠ 0%N →
  precommit_next_round h now s = (Ok ps, s1) →
  rtc round_step (commit_next_round s1) s' →
  let dealt s := covers_grid (number_of_chunks (environment s)) (N.of_nat (length ps)) (round_members h s) in
  dealt s' ∧ current_round_height s' = Some h ∧
  ∀ p now' a s'', drop_participant p now' s' = (Ok (DropCurrent p (ReplaceContributor a)), s'') →
    dealt s'' ↔ free_replacement h s' p a.
Proof.
  intros Hmin Hm Hz Hpre Hsteps dealt.
  pose proof (round_inv_steps _ _ _ _ Hsteps (round_inv_start h now s ps s1 Hmin Hm Hz Hpre)) as Hs.
  split; [|split; [apply Hs|]].
  - eapply dealt_round_covers; apply Hs.
  - intros p now' a s'' Hrun. by apply (drop_covers_iff _ _ _ _ _ _ _ Hs Hrun).
Qed.

(** ** Witnesses *)

#[local] Existing Instance trie_order.
#[local] Existing Instance time_api.

(** Bob fetches his first task, Alice is dropped and replaced, then Bob. *)
Definition ex_fetched : CoordinatorState := (fetch_task bob 60 ex_running).2.
Definition ex_replaced : CoordinatorState := (drop_participant alice 70 ex_fetched).2.
Definition ex_replaced_twice : CoordinatorState := (drop_participant bob 80 ex_replaced).2.

Lemma ex_replaced_reachable : rtc round_step ex_running ex_replaced.
Proof.
  eapply rtc_l.
  - apply (rs_fetch bob 60 (MkTask 0 1) ex_running ex_fetched). vm_compute. reflexivity.
  - apply rtc_once.
    apply (rs_drop alice 70 (MkReplaceAction alice 1 [] [] replacement) ex_fetched ex_replaced).
    + vm_compute. reflexivity.
    + intros h Hh. assert (Some h = Some 1%N) as [= ->] by (rewrite <-Hh; vm_compute; reflexivity).
      left. vm_compute. reflexivity.
Qed.

(** The only coordinator contributor is engaged by then. *)
Lemma ex_replacement_engaged :
  ¬ free_replacement 1 ex_replaced bob (MkReplaceAction bob 0 [] [] replacement).
Proof. intros [H|H]; vm_compute in H; discriminate. Qed.

Lemma running_round_stays_dealt_witness :
  covers_grid 3 2 (round_members 1 ex_replaced) ∧ ¬ covers_grid 3 2 (round_members 1 ex_replaced_twice).
Proof.
  assert (number_of_chunks (environment ex_replaced) = 3%N) as <- by (vm_compute; reflexivity).
  destruct (running_round_stays_dealt 1 50 ex_waiting [bob; alice] ex_precommitted ex_replaced)
    as (Hdealt & _ & Hdrop).
  - vm_compute. lia.
  - vm_compute. reflexivity.
  - discriminate.
  - vm_compute. reflexivity.
  - apply ex_replaced_reachable.
  - split; [exact Hdealt|]. intros Hcov. apply ex_replacement_engaged.
    apply (Hdrop bob 80%Z (MkReplaceAction bob 0 [] [] replacement) ex_replaced_twice); [|exact Hcov].
    vm_compute. reflexivity.
Defined.
