(* ===== verification/Serde.v ===== *)
(** * What is written to the storage

    The files hold bytes.  The JSON of an object is what [serde_json] makes of
    it, which is not code of the repository: class [Serde] states what the
    storage uses of it.  The second part builds an instance, so that the
    models can be evaluated. *)

From S2P Require Import Prelude Text Task Participant Errors Environment Contribution Chunk Round ParticipantInfo RoundMetrics CoordinatorState.
From Stdlib Require Import Ascii Strings.Byte.



(** [objects/contribution_file_signature.rs] *)
Record ContributionState := MkContributionState {
  challenge_hash : string;
  response_hash : string;
  next_challenge_hash : option string;
}.
Record ContributionFileSignature := MkContributionFileSignature {
  cfs_signature : string;
  cfs_state : ContributionState;
}.

(** The participants a round mentions. *)
Definition chunk_participants (c : Chunk) : list Participant :=
  option_list (lock_holder c) ++
  ((map_to_list (contributions c)).*2 ≫= λ k, option_list (contributor_id k) ++ option_list (verifier_id k)).
Definition round_participants (r : Round) : list Participant :=
  contributor_ids r ++ verifier_ids r ++ (chunks r ≫= chunk_participants).

(** The JSON of a participant can be read back when its identity has no dot. *)
Definition readable (p : Participant) : Prop :=
  match p with Contributor id | Verifier id => has_char "."%char id = false end.
Definition round_readable (r : Round) : Prop := ∀ p, p ∈ round_participants r → readable p.

(** Instants are written as seconds. *)
Definition whole_seconds `{TimeApi} (t : Z) : Z := (unix_timestamp t * 1000000000)%Z.
Definition stored_round `{TimeApi} (r : Round) : Round :=
  MkRound (rd_version r) (rd_height r) (whole_seconds <$> rd_started_at r) (whole_seconds <$> rd_finished_at r)
    (contributor_ids r) (verifier_ids r) (chunks r).

(** What the storage uses of [serde_json].  A struct is written field by field
    and read back as it was, up to the fields with serializers of their own:
    participants and instants. *)
Class Serde `{TimeApi} := {
  state_to_vec : CoordinatorState → bytes;
  state_from_slice : bytes → option CoordinatorState;
  height_to_vec : N → bytes;
  height_from_slice : bytes → option N;
  round_to_vec : Round → bytes;
  round_from_slice : bytes → option Round;
  signature_to_vec : ContributionFileSignature → bytes;
  signature_from_slice : bytes → option ContributionFileSignature;
  height_from_to h : (h < u64_modulus)%N → height_from_slice (height_to_vec h) = Some h;
  round_from_to r : round_readable r → round_from_slice (round_to_vec r) = Some (stored_round r);
  signature_from_to s : signature_from_slice (signature_to_vec s) = Some s;
}.

(** ** An instance

    Values are written as self-delimiting sequences of bytes. *)

Class Codec (A : Type) := {
  enc : A → bytes;
  dec : bytes → option (A * bytes);
  dec_enc a r : dec (enc a ++ r) = Some (a, r);
}.
#[global] Hint Mode Codec ! : typeclass_instances.

Definition read_all {A} `{Codec A} (data : bytes) : option A :=
  match dec data with Some (a, []) => Some a | _ => None end.
Lemma read_all_enc {A} `{Codec A} (a : A) : read_all (enc a) = Some a.
Proof. unfold read_all. rewrite <-(app_nil_r (enc a)). by rewrite dec_enc. Qed.

Definition iso_codec {A B} `{Codec A} (f : B → A) (g : A → B) (Hgf : ∀ b, g (f b) = b) : Codec B.
Proof.
  refine {| enc b := enc (f b); dec data := prod_map g id <$> dec data |}.
  intros b r. rewrite dec_enc. simpl. by rewrite Hgf.
Defined.

#[export] Instance byte_codec : Codec Byte.byte.
Proof. by refine {| enc b := [b]; dec data := match data with b :: r => Some (b, r) | [] => None end |}. Defined.

#[export] Instance bool_codec : Codec bool.
Proof.
  refine {| enc b := [if b : bool then x01 else x00];
            dec data := match data with b :: r => Some (bool_decide (b = x01), r) | [] => None end |}.
  by intros [] r.
Defined.

#[export] Instance pair_codec {A B} `{Codec A, Codec B} : Codec (A * B).
Proof.
  refine {| enc ab := enc ab.1 ++ enc ab.2;
            dec data := '(a, data) ← dec data; '(b, data) ← dec data; Some ((a, b), data) |}.
  intros [a b] r. simpl. rewrite <-app_assoc, dec_enc. simpl. by rewrite dec_enc.
Defined.

#[export] Instance option_codec {A} `{Codec A} : Codec (option A).
Proof.
  refine {| enc o := match o with Some a => x01 :: enc a | None => [x00] end;
            dec data := match data with
                        | x01 :: data => '(a, data) ← dec data; Some (Some a, data)
                        | _ :: data => Some (None, data)
                        | [] => None
                        end |}.
  intros [a|] r; [|done]. simpl. by rewrite dec_enc.
Defined.

Fixpoint dec_list {A} `{Codec A} (fuel : nat) (data : bytes) : option (list A * bytes) :=
  match fuel, data with
  | S fuel, x01 :: data => '(a, data) ← dec data; '(l, data) ← dec_list fuel data; Some (a :: l, data)
  | S _, _ :: data => Some ([], data)
  | _, _ => None
  end.
Definition enc_list {A} `{Codec A} (l : list A) : bytes := foldr (λ a data, x01 :: enc a ++ data) [x00] l.

Lemma dec_enc_list {A} `{Codec A} (l : list A) r fuel :
  length l < fuel → dec_list fuel (enc_list l ++ r) = Some (l, r).
Proof.
  revert fuel. induction l as [|a l IH]; intros [|fuel] Hf; simpl in *; try lia; [done|].
  rewrite <-app_assoc, dec_enc. simpl. by rewrite IH by lia.
Qed.

#[export] Instance list_codec {A} `{Codec A} : Codec (list A).
Proof.
  refine {| enc := enc_list; dec data := dec_list (length data) data |}.
  intros l r. apply dec_enc_list. rewrite length_app.
  enough (length l < length (enc_list l)) by lia.
  induction l as [|a l IH]; simpl; [lia|]. rewrite length_app. lia.
Defined.

Fixpoint positive_to_bits (p : positive) : list bool :=
  match p with xH => [] | xO p => false :: positive_to_bits p | xI p => true :: positive_to_bits p end.
Fixpoint bits_to_positive (l : list bool) : positive :=
  match l with [] => xH | false :: l => xO (bits_to_positive l) | true :: l => xI (bits_to_positive l) end.
Lemma bits_positive p : bits_to_positive (positive_to_bits p) = p.
Proof. by induction p; simpl; f_equal. Qed.

#[export] Instance N_codec : Codec N.
Proof.
  refine (iso_codec (λ n, match n with
                          | N0 => None
                          | Npos p => Some (positive_to_bits p) end)
                    (λ o, match o with None => N0 | Some l => Npos (bits_to_positive l) end) _).
  intros [|p]; [done|]. by rewrite bits_positive.
Defined.
#[export] Instance Z_codec : Codec Z.
Proof.
  refine (iso_codec (λ z, (bool_decide (z < 0)%Z, Z.abs_N z))
                    (λ p, if p.1 : bool then (- Z.of_N p.2)%Z else Z.of_N p.2) _).
  intros z. simpl. case_bool_decide; lia.
Defined.
#[export] Instance ascii_codec : Codec ascii := iso_codec byte_of_ascii ascii_of_byte ascii_of_byte_of_ascii.
#[export] Instance string_codec : Codec string :=
  iso_codec String.list_ascii_of_string String.string_of_list_ascii String.string_of_list_ascii_of_string.

#[export] Instance participant_codec : Codec Participant.
Proof.
  refine (iso_codec (λ p, match p with Contributor s => (true, s) | Verifier s => (false, s) end)
                    (λ p, if p.1 : bool then Contributor p.2 else Verifier p.2) _).
  by intros [].
Defined.
#[export] Instance contribution_codec : Codec Contribution.
Proof.
  refine (iso_codec (λ k, (contributor_id k, contributed_locator k, contributed_signature_locator k,
                           verifier_id k, verified_locator k, verified_signature_locator k, verified k))
                    (λ '(a, b, c, d, e, f, g), MkContribution a b c d e f g) _).
  by intros [].
Defined.
#[export] Instance gmap_codec {A} `{Codec A} : Codec (gmap N A).
Proof. refine (iso_codec map_to_list list_to_map _). intros. apply list_to_map_to_list. Defined.
#[export] Instance chunk_codec : Codec Chunk.
Proof.
  refine (iso_codec (λ c, (ck_chunk_id c, lock_holder c, contributions c))
                    (λ '(a, b, c), MkChunk a b c) _).
  by intros [].
Defined.
#[export] Instance round_codec : Codec Round.
Proof.
  refine (iso_codec (λ r, (rd_version r, rd_height r, rd_started_at r, rd_finished_at r,
                           contributor_ids r, verifier_ids r, chunks r))
                    (λ '(a, b, c, d, e, f, g), MkRound a b c d e f g) _).
  by intros [].
Defined.
#[export] Instance signature_codec : Codec ContributionFileSignature.
Proof.
  refine (iso_codec (λ s, (cfs_signature s, challenge_hash (cfs_state s), response_hash (cfs_state s),
                           next_challenge_hash (cfs_state s)))
                    (λ '(a, b, c, d), MkContributionFileSignature a (MkContributionState b c d)) _).
  by intros [? []].
Defined.

(** A signature is followed by blanks up to the size of its file. *)
Definition padded (size : nat) (data : bytes) : bytes := data ++ repeat x00 (size - length data).

Definition signature_bytes (s : ContributionFileSignature) : bytes :=
  padded (if is_some (next_challenge_hash (cfs_state s)) then 628 else 471) (enc s).

Definition plain_serde `{TimeApi} : Serde.
Proof.
  refine {|
    state_to_vec _ := [x00];
    state_from_slice _ := None;
    height_to_vec := enc;
    height_from_slice := read_all;
    round_to_vec r := enc (stored_round r);
    round_from_slice := read_all;
    signature_to_vec := signature_bytes;
    signature_from_slice data := fst <$> dec data;
  |}.
  - intros h _. apply read_all_enc.
  - intros r _. apply read_all_enc.
  - intros s. unfold signature_bytes, padded. by rewrite dec_enc.
Defined.
