(* ===== verification/Storage.v ===== *)
(** * The storage of the ceremony

    [Object] of [phase1-coordinator/src/storage/storage.rs] and [Disk] of
    [storage/disk.rs].  The file system is a map from paths to contents and a
    set of directories; a call on it fails only where the code's own checks or
    a missing parent directory make it fail.  Files hold bytes: the JSON of an
    object is what [serde_json] makes of it, an instance of [Serde]. *)

From S2P Require Import Prelude Text Task Participant Errors Environment Phase1Parameters Contribution Locator Chunk Round ParticipantInfo RoundMetrics CoordinatorState Serde.
From Stdlib Require Import Ascii Strings.Byte.

(** ** Objects *)

Inductive Object :=
| OCoordinatorState (s : CoordinatorState)
| ORoundHeight (h : N)
| ORoundState (r : Round)
| ORoundFile (data : bytes)
| OContributionFile (data : bytes)
| OContributionFileSignature (s : ContributionFileSignature).

Section disk.
Context `{TA : TimeApi, SE : !Serde, CS : CurveSizes}.

Definition object_to_bytes (o : Object) : bytes :=
  match o with
  | OCoordinatorState s => state_to_vec s
  | ORoundHeight h => height_to_vec h
  | ORoundState r => round_to_vec r
  | ORoundFile data | OContributionFile data => data
  | OContributionFileSignature s => signature_to_vec s
  end.
Definition object_size (o : Object) : N := N.of_nat (length (object_to_bytes o)).

(** ** Disk *)

Record Disk := MkDisk {
  disk_environment : Environment;
  base : string;
  files : gmap LocatorPath bytes;
  directories : gset string;
}.

Definition set_files (m : gmap LocatorPath bytes) (d : Disk) : Disk :=
  MkDisk (disk_environment d) (base d) m (directories d).
Definition set_directories (m : gset string) (d : Disk) : Disk :=
  MkDisk (disk_environment d) (base d) (files d) m.

Definition path_of (d : Disk) (l : Locator) : LocatorPath := to_path (base d) l.

(** The directory that must exist for the file of a locator to be created. *)
Definition parent_directory (b : string) (l : Locator) : string :=
  match l with
  | LCoordinatorState | LRoundHeight => b
  | LRoundState h | LRoundFile h => round_directory b h
  | LContributionFile l => chunk_directory b (cl_round_height l) (cl_chunk_id l)
  | LContributionFileSignature l => chunk_directory b (csl_round_height l) (csl_chunk_id l)
  end.

Definition disk_exists (d : Disk) (l : Locator) : bool := contains_key (path_of d l) (files d).

(** [DiskResolver::chunk_directory_init] *)
Definition chunk_directory_init (h c : N) (d : Disk) : Disk :=
  set_directories ({[chunk_directory (base d) h c]} ∪ ({[round_directory (base d) h]} ∪ directories d)) d.

Definition zeros (n : N) : bytes := repeat x00 (N.to_nat n).

Definition initialize_file (l : Locator) (size : N) : M CoordinatorError Disk unit :=
  bail_if (λ d, disk_exists d l) with StorageLocatorAlreadyExists ;;;
  modify (λ d, match l with
               | LContributionFile cl => chunk_directory_init (cl_round_height cl) (cl_chunk_id cl) d
               | _ => d
               end) ;;;
  (* create_new *)
  bail_if (λ d, negb (bool_decide (parent_directory (base d) l ∈ directories d))) with IOError ;;;
  modify (λ d, set_files (<[path_of d l := zeros size]> (files d)) d).

Definition update (l : Locator) (o : Object) : M CoordinatorError Disk unit :=
  bail_if (λ d, negb (disk_exists d l)) with StorageLocatorMissing ;;;
  modify (λ d, set_files (<[path_of d l := object_to_bytes o]> (files d)) d).

Definition insert_object (l : Locator) (o : Object) : M CoordinatorError Disk unit :=
  bail_if (λ d, disk_exists d l) with StorageLocatorAlreadyExists ;;;
  initialize_file l (object_size o) ;;;
  update l o.

(** The size check shared by [get], [reader] and [writer]. *)
Definition expected_size (d : Disk) (l : Locator) : option (N * CoordinatorError) :=
  match l with
  | LRoundFile _ => Some (round_file_size (disk_environment d), RoundFileSizeMismatch)
  | LContributionFile cl =>
      Some (contribution_file_size (disk_environment d) (cl_chunk_id cl) (cl_is_verified cl),
            ContributionFileSizeMismatch)
  | _ => None
  end.
Definition check_size (d : Disk) (l : Locator) (data : bytes) : outcome CoordinatorError unit :=
  match expected_size d l with
  | Some (n, e) => if (N.of_nat (length data) =? n)%N then Ok tt else Err e
  | None => Ok tt
  end.

Definition get (l : Locator) (d : Disk) : outcome CoordinatorError Object :=
  try! data := ok_or (files d !! path_of d l) StorageLocatorMissing in
  match l with
  | LCoordinatorState => try! s := ok_or (state_from_slice data) JsonError in Ok (OCoordinatorState s)
  | LRoundHeight => try! h := ok_or (height_from_slice data) JsonError in Ok (ORoundHeight h)
  | LRoundState _ => try! r := ok_or (round_from_slice data) JsonError in Ok (ORoundState r)
  | LRoundFile _ =>
      if is_nil data then Err RoundFileSizeMismatch
      else try! _ := check_size d l data in Ok (ORoundFile data)
  | LContributionFile _ =>
      if is_nil data then Err ContributionFileSizeMismatch
      else try! _ := check_size d l data in Ok (OContributionFile data)
  | LContributionFileSignature cl =>
      if is_nil data || negb (contribution_file_signature_size (csl_is_verified cl) =? N.of_nat (length data))%N
      then Err ContributionSignatureFileSizeMismatch
      else try! s := ok_or (signature_from_slice data) JsonError in Ok (OContributionFileSignature s)
  end.

Definition copy (source destination : Locator) : M CoordinatorError Disk unit :=
  bail_if (λ d, negb (disk_exists d source)) with StorageLocatorMissing ;;;
  bail_if (λ d, disk_exists d destination) with StorageLocatorAlreadyExists ;;;
  let! object := gets (get source) in
  let! object := lift object in
  initialize_file destination (object_size object) ;;;
  update destination object.

Definition remove (l : Locator) : M CoordinatorError Disk unit :=
  bail_if (λ d, negb (disk_exists d l)) with StorageLocatorMissing ;;;
  modify (λ d, set_files (delete (path_of d l) (files d)) d).

Definition size_of (l : Locator) (d : Disk) : outcome CoordinatorError N :=
  try! data := ok_or (files d !! path_of d l) StorageLocatorMissing in
  Ok (N.of_nat (length data)).

Definition reader (l : Locator) (d : Disk) : outcome CoordinatorError bytes :=
  try! data := ok_or (files d !! path_of d l) StorageLocatorMissing in
  try! _ := check_size d l data in
  Ok data.

(** [writer] maps the file into memory: the holder may change its bytes, not
    its length.  An empty file cannot be mapped. *)
Definition writer (l : Locator) (d : Disk) : outcome CoordinatorError bytes :=
  try! data := ok_or (files d !! path_of d l) StorageLocatorMissing in
  if is_nil data then Err IOError else
  try! _ := check_size d l data in
  Ok data.
Definition write_mapped (l : Locator) (data : bytes) (d : Disk) : Disk :=
  match files d !! path_of d l with
  | Some old => set_files (<[path_of d l := take (length old) (data ++ list.drop (length data) old)]> (files d)) d
  | None => d
  end.

(** ** Clearing the files of a round *)

Definition clear_entry (delete_initial_contribution : bool) (d : Disk) (path : LocatorPath) : Disk :=
  if (negb delete_initial_contribution && contains_str "contribution_0" path)
     || contains_str "state.json" path
  then d
  else match to_locator (base d) path with
       | Ok l => (remove l d).2
       | _ => d
       end.

(** The files below a directory, in the order [read_dir] yields them. *)
Definition files_below `{HashOrder} (directory : string) (d : Disk) : list LocatorPath :=
  filter (λ path, is_some (strip_prefix (directory +:+ "/") path) = true) (hash_iter (files d)).*1.

Definition clear_dir_files `{HashOrder} (directory : string) (delete_initial_contribution : bool)
    (d : Disk) : Disk :=
  foldl (clear_entry delete_initial_contribution) d (files_below directory d).

Definition clear_round_files `{HashOrder} (height : N) (d : Disk) : Disk :=
  let d := clear_dir_files (round_directory (base d) (u64_add height 1)) true d in
  clear_dir_files (round_directory (base d) height) false d.

(** ** Actions *)

Inductive LocatorOrPath := APath (p : LocatorPath) | ALocator (l : Locator).

Definition try_into_locator (d : Disk) (lp : LocatorOrPath) : outcome CoordinatorError Locator :=
  match lp with APath p => to_locator (base d) p | ALocator l => Ok l end.
Definition try_into_path (d : Disk) (lp : LocatorOrPath) : outcome CoordinatorError LocatorPath :=
  match lp with APath p => Ok p | ALocator l => Ok (path_of d l) end.

Inductive StorageAction :=
| Remove (lp : LocatorOrPath)
| Update (l : Locator) (o : Object)
| ClearRoundFiles (height : N).

(** [Disk::process] returns an [anyhow] error, which the coordinator's [?]
    turns into [CoordinatorError::Error]. *)
Definition process `{HashOrder} (a : StorageAction) : M CoordinatorError Disk unit := λ d,
  let '(o, d') :=
    match a with
    | Remove lp =>
        (let! l := gets (λ d, try_into_locator d lp) in let! l := lift l in remove l) d
    | Update l o => update l o d
    | ClearRoundFiles h => (Ok tt, clear_round_files h d)
    end in
  (map_err (λ _, Error) o, d').

(** [Disk::load], on what the file system already holds. *)
Definition disk_load (env : Environment) (existing : gmap LocatorPath bytes) (dirs : gset string)
    : outcome CoordinatorError unit * Disk :=
  let b := local_base_directory env in
  let d := MkDisk env b existing ({[b]} ∪ dirs) in
  if negb (disk_exists d LCoordinatorState)
  then insert_object LCoordinatorState (OCoordinatorState (coordinator_state_new env)) d
  else (Ok tt, d).

(** ** What is in the storage *)

(** Every file is that of a locator, in a directory that exists. *)
Definition disk_wf (d : Disk) : Prop :=
  ∀ p data, files d !! p = Some data →
    ∃ l, locator_in_range l ∧ p = path_of d l ∧ parent_directory (base d) l ∈ directories d.

Definition stored (d : Disk) (l : Locator) : option bytes := files d !! path_of d l.

Lemma path_of_base d d' l : base d' = base d → path_of d l = path_of d' l.
Proof. unfold path_of. congruence. Qed.

Lemma disk_exists_stored d l : disk_exists d l = is_some (stored d l).
Proof. done. Qed.

Lemma stored_insert d l l' data :
  stored (set_files (<[path_of d l := data]> (files d)) d) l' =
  if decide (l' = l) then Some data else stored d l'.
Proof.
  unfold stored, path_of. cbn [files base set_files]. destruct (decide (l' = l)) as [->|Hne].
  - by rewrite lookup_insert_eq.
  - rewrite lookup_insert_ne; [done|]. intros Heq. by apply to_path_inj in Heq as ->.
Qed.

Lemma stored_delete d l l' :
  stored (set_files (delete (path_of d l) (files d)) d) l' = if decide (l' = l) then None else stored d l'.
Proof.
  unfold stored, path_of. cbn [files base set_files]. destruct (decide (l' = l)) as [->|Hne].
  - by rewrite lookup_delete_eq.
  - rewrite lookup_delete_ne; [done|]. intros Heq. by apply to_path_inj in Heq as ->.
Qed.

(** ** Clearing a round *)

Definition clear_skips (delete_initial : bool) (path : LocatorPath) : bool :=
  (negb delete_initial && contains_str "contribution_0" path) || contains_str "state.json" path.

Lemma clear_entry_lookup delete_initial d l q :
  relative_base (base d) = true → locator_in_range l →
  files (clear_entry delete_initial d (path_of d l)) !! q =
    (if decide (q = path_of d l ∧ clear_skips delete_initial q = false) then None else files d !! q).
Proof.
  intros Hb Hl. unfold clear_entry. fold (clear_skips delete_initial (path_of d l)).
  destruct (clear_skips delete_initial (path_of d l)) eqn:Hskip.
  { rewrite decide_False; [done|]. intros [-> ?]. congruence. }
  unfold path_of at 1. rewrite resolve_path, Hb by done.
  unfold remove, check. destruct (negb (disk_exists d l)) eqn:He.
  - cbn [snd]. case_decide as Hq; [|done]. destruct Hq as [-> _].
    apply negb_true_iff in He. by apply is_some_false in He.
  - cbn [snd modify files set_files]. case_decide as Hq.
    + destruct Hq as [-> _]. by rewrite lookup_delete_eq.
    + rewrite lookup_delete_ne; [done|]. intros <-. by apply Hq.
Qed.

Lemma clear_entry_frame delete_initial d p :
  base (clear_entry delete_initial d p) = base d ∧
  disk_environment (clear_entry delete_initial d p) = disk_environment d ∧
  directories (clear_entry delete_initial d p) = directories d.
Proof.
  unfold clear_entry. case_match; [done|]. destruct (to_locator _ _) as [l| |]; [|done..].
  unfold remove, check. by case_match.
Qed.

Lemma clear_fold_lookup delete_initial ps d q :
  relative_base (base d) = true →
  Forall (λ p, ∃ l, locator_in_range l ∧ p = path_of d l) ps →
  files (foldl (clear_entry delete_initial) d ps) !! q =
    (if decide (q ∈ ps ∧ clear_skips delete_initial q = false) then None else files d !! q).
Proof.
  intros Hb Hps. revert d Hb Hps. induction ps as [|p ps IH]; intros d Hb Hps; cbn [foldl].
  { rewrite decide_False; [done|]. by intros [?%not_elem_of_nil _]. }
  apply Forall_cons in Hps as [(l & Hl & ->) Hps].
  destruct (clear_entry_frame delete_initial d (path_of d l)) as (Hbase & _ & _).
  rewrite IH; [|by rewrite Hbase|].
  - rewrite clear_entry_lookup by done. repeat case_decide; set_solver.
  - eapply Forall_impl; [exact Hps|]. intros p (l' & ? & ->). exists l'. split; [done|].
    by apply path_of_base.
Qed.

Lemma clear_fold_frame delete_initial ps d :
  base (foldl (clear_entry delete_initial) d ps) = base d ∧
  disk_environment (foldl (clear_entry delete_initial) d ps) = disk_environment d ∧
  directories (foldl (clear_entry delete_initial) d ps) = directories d.
Proof. split_and!; apply foldl_frame; intros; apply clear_entry_frame. Qed.

Lemma clear_dir_files_stored `{HashOrder} h delete_initial d l :
  disk_wf d → relative_base (base d) = true → plain_base (base d) → locator_in_range l →
  stored (clear_dir_files (round_directory (base d) h) delete_initial d) l =
    if bool_decide (round_of l = Some h) && negb (is_round_state l)
       && (delete_initial || negb (is_initial_contribution l))
    then None else stored d l.
Proof.
  intros Hwf Hb Hp Hl. unfold clear_dir_files.
  destruct (clear_fold_frame delete_initial (files_below (round_directory (base d) h) d) d) as (Hbase & _ & _).
  unfold stored, path_of. rewrite Hbase. fold (path_of d l).
  rewrite clear_fold_lookup; [|done|].
  - unfold clear_skips, path_of. rewrite path_contains_initial, path_contains_state by done.
    fold (path_of d l).
    assert (path_of d l ∈ files_below (round_directory (base d) h) d ↔
      is_Some (files d !! path_of d l) ∧ round_of l = Some h) as Hin.
    { unfold files_below. rewrite list_elem_of_filter. unfold path_of at 1.
      rewrite below_round_directory, bool_decide_eq_true, list_elem_of_fmap. split.
      - intros [? ([p data] & -> & Hd%elem_of_hash_iter)]. simpl in *. rewrite Hd. split; [by eexists | done].
      - intros [[data Hd] ?]. split; [done|]. exists (path_of d l, data). split; [done|]. by apply elem_of_hash_iter. }
    case_decide as Hc.
    + destruct Hc as [(_ & Hr)%Hin Hs]. rewrite bool_decide_eq_true_2 by done.
      by destruct delete_initial, (is_initial_contribution l), (is_round_state l).
    + destruct (files d !! path_of d l) as [data|] eqn:E; [|by case_match].
      case_bool_decide as Hr; [|done]. cbn [andb].
      destruct delete_initial, (is_initial_contribution l), (is_round_state l); try done;
        exfalso; apply Hc; (split; [apply Hin; eauto | done]).
  - apply Forall_forall. intros p Hp'. unfold files_below in Hp'.
    apply list_elem_of_filter in Hp' as [_ Hp']. apply list_elem_of_fmap in Hp' as ([p' data] & -> & Hd).
    apply elem_of_hash_iter in Hd. destruct (Hwf _ _ Hd) as (l' & ? & -> & _). eauto.
Qed.

(** A disk with fewer files is well-formed. *)
Lemma disk_wf_sub d d' :
  disk_wf d → base d' = base d → directories d ⊆ directories d' →
  (∀ p data, files d' !! p = Some data → is_Some (files d !! p)) → disk_wf d'.
Proof.
  intros Hwf Hb Hdir Hsub p data Hp. destruct (Hsub _ _ Hp) as [data' Hd].
  destruct (Hwf _ _ Hd) as (l & ? & -> & ?). exists l. unfold path_of. rewrite Hb. set_solver.
Qed.

Lemma clear_dir_files_wf `{HashOrder} h delete_initial d :
  disk_wf d → relative_base (base d) = true →
  disk_wf (clear_dir_files (round_directory (base d) h) delete_initial d).
Proof.
  intros Hwf Hb. unfold clear_dir_files.
  destruct (clear_fold_frame delete_initial (files_below (round_directory (base d) h) d) d) as (Hbase & _ & Hdir).
  apply (disk_wf_sub d); [done..|by rewrite Hdir|]. intros p data.
  rewrite clear_fold_lookup; [case_decide; eauto; done | done |].
  apply Forall_forall. intros p' Hp'. unfold files_below in Hp'.
  apply list_elem_of_filter in Hp' as [_ Hp']. apply list_elem_of_fmap in Hp' as ([p'' data'] & -> & Hd).
  apply elem_of_hash_iter in Hd. destruct (Hwf _ _ Hd) as (l' & ? & -> & _). eauto.
Qed.

(** The files [clear_round_files] removes: everything of the next round but
    its state, and of the round itself everything but its state and the
    initial challenges. *)
Definition cleared (h : N) (l : Locator) : bool :=
  negb (is_round_state l) &&
  (bool_decide (round_of l = Some (u64_add h 1))
   || bool_decide (round_of l = Some h) && negb (is_initial_contribution l)).

Lemma clear_round_lookup `{HashOrder} h d l :
  disk_wf d → relative_base (base d) = true → plain_base (base d) → locator_in_range l →
  stored (clear_round_files h d) l = if cleared h l then None else stored d l.
Proof.
  intros Hwf Hb Hp Hl. unfold clear_round_files, cleared.
  set (d1 := clear_dir_files (round_directory (base d) (u64_add h 1)) true d).
  assert (base d1 = base d) as Hd1 by apply clear_fold_frame.
  rewrite clear_dir_files_stored; [| |by rewrite Hd1..|done].
  2: by apply clear_dir_files_wf.
  subst d1. rewrite clear_dir_files_stored by done. cbn [orb].
  repeat case_bool_decide; destruct (is_round_state l), (is_initial_contribution l); done.
Qed.

(** Clearing a round removes its contributions and the challenges of the
    next round, and keeps its initial challenges and every other file. *)
Theorem clear_round_files_stored `{HashOrder} h d l :
  disk_wf d → relative_base (base d) = true → plain_base (base d) → locator_in_range l →
  stored (clear_round_files h d) l = if cleared h l then None else stored d l.
Proof. apply clear_round_lookup. Qed.

(** ** Storing and loading *)

Lemma update_ok l o d r d' :
  update l o d = (Ok r, d') ↔ r = tt ∧ is_some (stored d l) = true ∧
    d' = set_files (<[path_of d l := object_to_bytes o]> (files d)) d.
Proof.
  unfold update. rewrite check_ok, negb_false_iff, disk_exists_stored. unfold modify.
  destruct r. naive_solver.
Qed.

Lemma initialize_file_ok l n d r d' :
  initialize_file l n d = (Ok r, d') →
  stored d l = None ∧ base d' = base d ∧ disk_environment d' = disk_environment d ∧
  directories d ⊆ directories d' ∧ parent_directory (base d) l ∈ directories d' ∧
  files d' = <[path_of d l := zeros n]> (files d).
Proof.
  unfold initialize_file. rewrite check_ok, disk_exists_stored, is_some_false. intros [Hn H].
  apply bind_ok in H as ([] & d1 & [= <-] & H). apply check_ok in H as [Hp H].
  apply negb_false_iff, bool_decide_eq_true in Hp. injection H as _ <-.
  split; [done|]. destruct l; simpl in *; set_solver.
Qed.

Lemma disk_wf_insert d d' l data :
  disk_wf d → locator_in_range l → base d' = base d → directories d ⊆ directories d' →
  parent_directory (base d) l ∈ directories d' → files d' = <[path_of d l := data]> (files d) → disk_wf d'.
Proof.
  intros Hwf Hl Hb Hdir Hpar Hf p x. rewrite Hf. intros [[<- _]|[_ Hp]]%lookup_insert_Some.
  - exists l. rewrite Hb. by rewrite (path_of_base d d').
  - destruct (Hwf _ _ Hp) as (l' & ? & -> & ?). exists l'. rewrite Hb, (path_of_base d d') by done. set_solver.
Qed.

Lemma update_wf l o d r d' :
  disk_wf d → update l o d = (Ok r, d') → disk_wf d'.
Proof.
  intros Hwf (_ & [data Hd]%is_some_true & ->)%update_ok.
  destruct (Hwf _ _ Hd) as (l' & ? & Hp & ?). apply to_path_inj in Hp as <-.
  by eapply (disk_wf_insert d).
Qed.

Lemma initialize_file_wf l n d r d' :
  disk_wf d → locator_in_range l → initialize_file l n d = (Ok r, d') → disk_wf d'.
Proof. intros ?? (? & ? & ? & ? & ? & ?)%initialize_file_ok. by eapply (disk_wf_insert d). Qed.

Lemma remove_ok l d r d' :
  remove l d = (Ok r, d') ↔ r = tt ∧ is_some (stored d l) = true ∧
    d' = set_files (delete (path_of d l) (files d)) d.
Proof.
  unfold remove. rewrite check_ok, negb_false_iff, disk_exists_stored. unfold modify.
  destruct r. naive_solver.
Qed.

Lemma remove_wf l d r d' : disk_wf d → remove l d = (Ok r, d') → disk_wf d'.
Proof.
  intros Hwf (_ & _ & ->)%remove_ok. apply (disk_wf_sub d); [done..|]. intros p x. simpl.
  intros [_ ?]%lookup_delete_Some. eauto.
Qed.

(** Writing an object at a locator and reading it back: what [get] returns. *)
Inductive reads_back (d : Disk) : Locator → Object → Object → Prop :=
| reads_height h : (h < u64_modulus)%N → reads_back d LRoundHeight (ORoundHeight h) (ORoundHeight h)
| reads_round h r : round_readable r →
    reads_back d (LRoundState h) (ORoundState r) (ORoundState (stored_round r))
| reads_contribution cl data : data ≠ [] →
    check_size d (LContributionFile cl) data = Ok tt →
    reads_back d (LContributionFile cl) (OContributionFile data) (OContributionFile data)
| reads_round_file h data : data ≠ [] → check_size d (LRoundFile h) data = Ok tt →
    reads_back d (LRoundFile h) (ORoundFile data) (ORoundFile data)
| reads_signature cl s : signature_to_vec s ≠ [] →
    contribution_file_signature_size (csl_is_verified cl) = N.of_nat (length (signature_to_vec s)) →
    reads_back d (LContributionFileSignature cl) (OContributionFileSignature s) (OContributionFileSignature s).

Lemma get_stored d l data o o' :
  stored d l = Some data → data = object_to_bytes o → reads_back d l o o' → get l d = Ok o'.
Proof.
  unfold stored, get. intros -> -> Hr. cbn [ok_or bind_outcome].
  destruct Hr as [h Hh|h r Hr|cl data Hne Hsz|h data Hne Hsz|cl s Hne Hsz]; cbn [object_to_bytes].
  - by rewrite height_from_to.
  - by rewrite round_from_to.
  - apply is_nil_false in Hne as ->. by rewrite Hsz.
  - apply is_nil_false in Hne as ->. by rewrite Hsz.
  - apply is_nil_false in Hne as ->. rewrite Hsz, N.eqb_refl. simpl. by rewrite signature_from_to.
Qed.

Lemma get_frame d d' l :
  base d' = base d → disk_environment d' = disk_environment d → stored d' l = stored d l →
  get l d' = get l d.
Proof.
  unfold stored. intros Hb He Hs. unfold get. rewrite Hs.
  destruct (files d !! path_of d l); [|done]. cbn [ok_or bind_outcome].
  destruct l; try done; unfold check_size, expected_size; by rewrite He.
Qed.

(** An object written with [update] is what [get] returns afterwards, up
    to what its serializers keep, and no other locator is affected. *)
Theorem update_then_get l o o' d d' :
  update l o d = (Ok tt, d') → reads_back d l o o' →
  get l d' = Ok o' ∧
  (∀ l', l' ≠ l → get l' d' = get l' d) ∧
  (disk_wf d → disk_wf d').
Proof.
  intros Hu Hr. split_and!.
  - apply update_ok in Hu as (_ & _ & ->). eapply get_stored; [|reflexivity|].
    + rewrite stored_insert. by rewrite decide_True.
    + destruct Hr; by constructor.
  - intros l' Hne. apply update_ok in Hu as (_ & _ & ->). apply get_frame; [done..|].
    rewrite stored_insert. by rewrite decide_False.
  - intros. by eapply update_wf.
Qed.
End disk.

(** ** A small storage *)

#[local] Existing Instance trie_order.
#[local] Existing Instance time_api.
#[local] Existing Instance plain_serde.
#[local] Existing Instance snarkvm_sizes.

Definition empty_disk : Disk :=
  let b := local_base_directory testing_environment in
  MkDisk testing_environment b ∅ {[b]}.

Definition response_locator : Locator := LContributionFile (MkContributionLocator 1 2 1 false).
Definition challenge_locator (h : N) : Locator := LContributionFile (MkContributionLocator h 2 0 true).

Definition sample_disk : Disk :=
  ((insert_object LRoundHeight (ORoundHeight 1) ;;;
    initialize_file (challenge_locator 1) 3 ;;;
    initialize_file response_locator 4 ;;;
    initialize_file (challenge_locator 2) 5) empty_disk).2.

(** The well-formedness of a given disk can be evaluated. *)
Definition file_wf (d : Disk) (p : LocatorPath) : bool :=
  match to_locator (base d) p with
  | Ok l => bool_decide (locator_in_range l ∧ p = path_of d l ∧ parent_directory (base d) l ∈ directories d)
  | _ => false
  end.
Lemma disk_wf_check d : forallb (file_wf d) (map_to_list (files d)).*1 = true → disk_wf d.
Proof.
  rewrite forallb_forall. intros Hall p data Hp%elem_of_map_to_list.
  assert (file_wf d p = true) as Hf.
  { apply Hall, list_elem_of_In, list_elem_of_fmap. by exists (p, data). }
  unfold file_wf in Hf. destruct (to_locator (base d) p) as [l| |]; [|done..].
  apply bool_decide_eq_true in Hf as (? & ? & ?). by exists l.
Qed.

Lemma clear_round_files_stored_witness :
  stored sample_disk response_locator = Some (zeros 4) ∧
  stored (clear_round_files 1 sample_disk) response_locator = None ∧
  stored (clear_round_files 1 sample_disk) (challenge_locator 1) = Some (zeros 3) ∧
  stored (clear_round_files 1 sample_disk) (challenge_locator 2) = None.
Proof.
  assert (disk_wf sample_disk) as Hwf by (apply disk_wf_check; by vm_compute).
  split; [by vm_compute|].
  split_and!; rewrite clear_round_files_stored; try (exact Hwf || (split; by vm_compute) || by vm_compute).
Defined.

Lemma update_then_get_witness :
  let d' := (update LRoundHeight (ORoundHeight 7) sample_disk).2 in
  get LRoundHeight d' = Ok (ORoundHeight 7) ∧ get LRoundHeight sample_disk = Ok (ORoundHeight 1).
Proof.
  intros d'. split; [|by vm_compute].
  apply (update_then_get LRoundHeight (ORoundHeight 7) (ORoundHeight 7) sample_disk d').
  - by vm_compute.
  - constructor. vm_compute. reflexivity.
Defined.
