(* ===== verification/RoundStorage.v ===== *)
(** * Rounds and their files

    The operations of [phase1-coordinator/src/objects/round.rs] that also read
    or change the storage.  Their state is the round together with the disk:
    an error leaves both as they were when it occurred. *)

From S2P Require Import Prelude Text Task Participant Errors Environment Phase1Parameters Contribution Locator Chunk Round ParticipantInfo RoundMetrics CoordinatorState Serde Storage.

Record LockedLocators := MkLockedLocators {
  previous_contribution : ContributionLocator;
  current_contribution_loc : ContributionLocator;
  next_contribution : ContributionLocator;
  next_contribution_file_signature : ContributionSignatureLocator;
}.

Section round_storage.
Context `{TA : TimeApi, SE : !Serde, CS : CurveSizes}.

Notation RD := (Round * Disk)%type.
Notation action A := (M CoordinatorError RD A).

Definition on_round {A} (m : M CoordinatorError Round A) : action A :=
  zoom fst (λ r rd, (r, rd.2)) m.
Definition on_disk {A} (m : M CoordinatorError Disk A) : action A :=
  zoom snd (λ d rd, (rd.1, d)) m.

(** ** Locators *)

Definition current_contribution_locator (chunk_id : N) (is_verified : bool) (rd : RD)
    : outcome CoordinatorError ContributionLocator :=
  let '(r, d) := rd in
  try! chunk := round_chunk r chunk_id in
  let current := current_contribution_id chunk in
  let locator := MkContributionLocator (rd_height r) chunk_id current is_verified in
  if negb (disk_exists d (LContributionFile locator)) then Err ContributionLocatorMissing else
  try! contribution := get_contribution chunk current in
  if verified contribution then Err ContributionAlreadyVerified else Ok locator.

(** What [next_contribution_locator] and its variant for signatures check
    before they look at the storage. *)
Definition next_verified_id (chunk_id : N) (r : Round) : outcome CoordinatorError N :=
  try! chunk := round_chunk r chunk_id in
  try! id := next_contribution_id chunk (expected_number_of_contributions r) in
  try! current := current_contribution chunk in
  if negb (verified current) then Err ContributionMissingVerification else Ok id.

Definition next_contribution_locator (chunk_id : N) (rd : RD)
    : outcome CoordinatorError ContributionLocator :=
  let '(r, d) := rd in
  try! id := next_verified_id chunk_id r in
  let locator := MkContributionLocator (rd_height r) chunk_id id false in
  if disk_exists d (LContributionFile locator) then Err ContributionLocatorAlreadyExists else Ok locator.

Definition next_contribution_file_signature_locator (chunk_id : N) (rd : RD)
    : outcome CoordinatorError ContributionSignatureLocator :=
  let '(r, d) := rd in
  try! id := next_verified_id chunk_id r in
  let locator := MkContributionSignatureLocator (rd_height r) chunk_id id false in
  if disk_exists d (LContributionFileSignature locator)
  then Err ContributionFileSignatureLocatorAlreadyExists else Ok locator.

(** The response a contributor's challenge was computed from. *)
Definition previous_locator (chunk_id current : N) (r : Round) : ContributionLocator :=
  if (current =? 0)%N then
    if (rd_height r =? 1)%N then MkContributionLocator 0 chunk_id 0 true
    else MkContributionLocator (u64_sub (rd_height r) 1) chunk_id
           (u64_sub (expected_number_of_contributions r) 1) false
  else MkContributionLocator (rd_height r) chunk_id (u64_sub current 1) false.

Definition contributor_locators (chunk_id : N) (rd : RD) : outcome CoordinatorError LockedLocators :=
  let r := rd.1 in
  try! chunk := round_chunk r chunk_id in
  let current := current_contribution_id chunk in
  try! next := next_contribution_locator chunk_id rd in
  try! signature := next_contribution_file_signature_locator chunk_id rd in
  Ok (MkLockedLocators (previous_locator chunk_id current r)
        (MkContributionLocator (rd_height r) chunk_id current true) next signature).

(** ** Locking *)

(** An unverified contribution whose file exists keeps contributors out. *)
Definition awaits_verifier (chunk_id : N) (rd : RD) : outcome CoordinatorError bool :=
  try! chunk := round_chunk rd.1 chunk_id in
  try! current := current_contribution chunk in
  Ok (negb (verified current) && is_ok (current_contribution_locator chunk_id false rd)).

Definition round_try_lock_chunk (env : Environment) (chunk_id : N) (p : Participant)
    : action LockedLocators :=
  let! held := gets (λ rd, number_of_locks_held rd.1 p) in
  let! held := lift held in
  bail_if (λ _, is_verifier p) with ExpectedContributor ;;;
  bail_if (λ _, contributor_lock_chunk_limit env <=? held) with ChunkLockLimitReached ;;;
  bail_if (λ rd, negb (round_is_contributor rd.1 p)) with UnauthorizedChunkContributor ;;;
  let! locators := gets (contributor_locators chunk_id) in
  let! locators := lift locators in
  let! awaits := gets (awaits_verifier chunk_id) in
  let! awaits := lift awaits in
  bail_if (λ _, awaits && is_contributor p) with UnauthorizedChunkContributor ;;;
  let! expected := gets (λ rd, expected_number_of_contributions rd.1) in
  on_round (with_chunk chunk_id (acquire_lock p expected)) ;;;
  on_disk (initialize_file (LContributionFile (next_contribution locators))
             (contribution_file_size env chunk_id false)) ;;;
  on_disk (initialize_file (LContributionFileSignature (next_contribution_file_signature locators))
             (contribution_file_signature_size false)) ;;;
  ret locators.

(** ** Verifiers *)

Definition initialize_verifier_response_files (env : Environment) (p : Participant) (chunk_id : N)
    (locators : LockedLocators) : M CoordinatorError Disk unit :=
  bail_if (λ _, negb (is_verifier p)) with ExpectedVerifier ;;;
  initialize_file (LContributionFile (next_contribution locators))
    (contribution_file_size env chunk_id true) ;;;
  initialize_file (LContributionFileSignature (next_contribution_file_signature locators))
    (contribution_file_signature_size true).

(** The last contribution of a chunk is verified into the next round. *)
Definition next_challenge (r : Round) (chunk : Chunk) (chunk_id : N) : N * N :=
  if only_contributions_complete chunk (expected_number_of_contributions r)
  then (u64_add (rd_height r) 1, 0%N)
  else (rd_height r, current_contribution_id chunk).

Definition get_chunk_locators_for_verifier (p : Participant) (chunk_id contribution_id : N) (rd : RD)
    : outcome CoordinatorError LockedLocators :=
  if negb (is_verifier p) then Err ExpectedVerifier else
  let r := rd.1 in
  try! chunk := round_chunk r chunk_id in
  let current := current_contribution_id chunk in
  if (current =? 0)%N then Err (ChunkCannotLockZeroContributions chunk_id)
  else if negb (current =? contribution_id)%N then Err ContributionIdMismatch
  else
    try! response := current_contribution_locator chunk_id false rd in
    let '(h, k) := next_challenge r chunk chunk_id in
    Ok (MkLockedLocators (MkContributionLocator (rd_height r) chunk_id (u64_sub current 1) true)
          response (MkContributionLocator h chunk_id k true) (MkContributionSignatureLocator h chunk_id k true)).

(** ** Removing the work of a dropped contributor *)

Definition remove_if_exists (l : Locator) : M CoordinatorError Disk unit := λ d,
  if disk_exists d l then remove l d else (Ok tt, d).

(** The files of a pending response; a verified challenge is kept when it is
    the initial one. *)
Definition remove_pending_files (chunk_id : N) (chunk : Chunk) (r : Round) : M CoordinatorError Disk unit :=
  let expected := expected_number_of_contributions r in
  let h := rd_height r in
  let! next := lift (next_contribution_id chunk expected) in
  remove_if_exists (LContributionFile (MkContributionLocator h chunk_id next false)) ;;;
  remove_if_exists (LContributionFileSignature (MkContributionSignatureLocator h chunk_id next false)) ;;;
  remove_if_exists (LContributionFileSignature (MkContributionSignatureLocator h chunk_id next true)) ;;;
  let! current := lift (current_contribution chunk) in
  if verified current then
    let '(h', k) := next_challenge r chunk chunk_id in
    if is_some (contributor_id current)
    then remove_if_exists (LContributionFile (MkContributionLocator h' chunk_id k true))
    else ret tt
  else ret tt.

Definition remove_lock (p : Participant) (chunk_id : N) : action unit :=
  bail_if (λ _, is_verifier p) with ExpectedContributor ;;;
  bail_if (λ rd, negb (round_is_contributor rd.1 p)) with UnauthorizedChunkContributor ;;;
  let! chunk := gets (λ rd, round_chunk rd.1 chunk_id) in
  let! chunk := lift chunk in
  let! r := gets fst in
  on_disk (remove_pending_files chunk_id chunk r) ;;;
  on_round (with_chunk chunk_id (modify (set_lock_holder_unsafe None))).

Definition remove_locks_unsafe (p : Participant) (locked_chunks : list N) : action unit :=
  let! locked := gets (λ rd, filter (λ id, is_chunk_locked_by rd.1 id p = true) locked_chunks) in
  for_each (remove_lock p) locked.

(** The file of a recorded location, if there is one. *)
Definition remove_location (location : option LocatorPath) : M CoordinatorError Disk unit :=
  match location with
  | None => ret tt
  | Some path =>
      let! l := gets (λ d, to_locator (base d) path) in
      let! l := lift l in
      remove_if_exists l
  end.

Definition remove_contribution_files (k : Contribution) : M CoordinatorError Disk unit :=
  remove_location (contributed_locator k) ;;;
  remove_location (contributed_signature_locator k) ;;;
  remove_location (verified_locator k) ;;;
  remove_location (verified_signature_locator k).

Definition remove_task (t : Task) : action unit :=
  let! chunk := gets (λ rd, round_chunk rd.1 (chunk_id t)) in
  let! chunk := lift chunk in
  match get_contribution chunk (contribution_id t) with
  | Ok k =>
      on_disk (remove_contribution_files k) ;;;
      on_round (with_chunk (chunk_id t) (modify (remove_contributions_from (contribution_id t))))
  | _ => ret tt
  end.

Definition remove_chunk_contributions_unsafe (p : Participant) (tasks : list Task) : action unit := λ rd,
  if is_verifier p then (Ok tt, rd)
  else
    (bail_if (λ rd, negb (length (filter (λ q, q = p) (contributor_ids rd.1)) =? 1)%nat)
       with RoundContributorMissing ;;;
     for_each remove_task tasks) rd.

Definition remove_contributor_unsafe (p : Participant) (locked_chunks : list N) (tasks : list Task)
    : action unit :=
  remove_locks_unsafe p locked_chunks ;;;
  remove_chunk_contributions_unsafe p tasks ;;;
  on_round (modify (λ r, set_contributor_ids (filter (λ q, q ≠ p) (contributor_ids r)) r)).
End round_storage.
