(* ===== verification/Commands.v ===== *)
(** * Commands

    [phase1-coordinator/src/commands/]: initialization, computation,
    verification and aggregation of the files of a chunk or round.  They run
    the operations of [Phase1] on the contents of the files; hash functions,
    hexadecimal text and the two pairing engines are other crates'. *)

From S2P Require Import Curve Elements MultiExp Buffers Accumulator Phase1.
From S2P Require Import Prelude Text Task Participant Errors Environment Phase1Parameters Contribution Locator Chunk Round ParticipantInfo RoundMetrics CoordinatorState Serde Storage RoundStorage.
From Stdlib Require Import Ascii Strings.Byte.

(** [authentication/signature.rs] *)
Class Signature := {
  is_secure : bool;
  sign : string → string → option string;
  verify_signature : string → string → string → bool;
}.

Class Cryptography := {
  (* setup-utils: Blake2b with 64 bytes of output *)
  calculate_hash : bytes → bytes;
  calculate_hash_length data : length (calculate_hash data) = 64;
  (* hex *)
  hex_encode : bytes → string;
  hex_decode : string → option bytes;
  hex_decode_encode data : hex_decode (hex_encode data) = Some data;
  (* serde_json::to_string *)
  contribution_state_json : ContributionState → string;
  (* snarkvm_curves: Bls12_377 and BW6_761 *)
  engine : CurveKind → PairingEngine;
  engine_randomness k : Randomness (engine k);
  (* rand::thread_rng, for the coefficients of a random check *)
  thread_rng k : @Rng (engine k) (engine_randomness k);
  (* how many candidates of a point are tried; see [hash_to_g2] *)
  hash_fuel : nat;
}.
#[export] Existing Instance engine_randomness.

(** The sizes of the elements are those of the engines. *)
#[export] Instance engine_sizes `{Cryptography} : CurveSizes := λ k, curve_parameters_new (engine k).

(** [Dummy] of [authentication/dummy.rs]: the signature of a message is its
    hash. *)
Definition string_bytes (s : string) : bytes := byte_of_ascii <$> String.list_ascii_of_string s.

Definition dummy_signature `{Cryptography} : Signature := {|
  is_secure := false;
  sign _ message := Some (hex_encode (calculate_hash (string_bytes message)));
  verify_signature _ message signature :=
    bool_decide (signature = hex_encode (calculate_hash (string_bytes message)));
|}.

Section commands.
Context `{TA : TimeApi, SE : !Serde, CR : Cryptography, SG : Signature}.

Notation action A := (M CoordinatorError Disk A).

Definition blank_hash : bytes := calculate_hash [].

(** [write_all] at the start of a mapped file: fails when it does not fit,
    after writing what fits. *)
Definition write_prefix (data : bytes) : M CoordinatorError bytes unit := λ buffer,
  (if (length data <=? length buffer)%nat then Ok tt else Err IOError,
   take (length buffer) data ++ list.drop (length data) buffer).

(** An operation of the [phase1] crate on a mapped file. *)
Definition phase1 {A} (m : on bytes A) : M CoordinatorError bytes A := λ buffer,
  let '(o, buffer) := m buffer in (map_err (λ _, Phase1Setup) o, buffer).

(** The engine of the ceremony. *)
Definition environment_engine (env : Environment) : PairingEngine := engine (curve (parameters env)).

(** Every error becomes [e]. *)
Definition or_error {S A} (e : CoordinatorError) (m : M CoordinatorError S A) : M CoordinatorError S A := λ s,
  let '(o, s) := m s in (map_err (λ _, e) o, s).

(** Open the file for writing and let [m] change its contents. *)
Definition with_writer (l : Locator) (m : M CoordinatorError bytes unit) : action unit :=
  let! data := gets (writer l) in
  let! data := lift data in
  let '(o, data') := m data in
  modify (write_mapped l data') ;;;
  lift o.

Definition read (l : Locator) : action bytes := λ d, (reader l d, d).

(** ** Initialization *)

Definition check_hash (current next : Locator) : action bytes :=
  let! current := read current in
  let! next := read next in
  bail_if (λ _, negb (bool_decide (calculate_hash current = calculate_hash next)))
    with InitializationTranscriptsDiffer ;;;
  ret (calculate_hash next).

(** [Initialization::initialization] *)
Definition initialization (env : Environment) (chunk_id : N) : M CoordinatorError bytes unit :=
  write_prefix blank_hash ;;;
  phase1 (phase1_initialize (environment_engine env) (compressed_inputs env)
            (chunked_parameters (parameters env) chunk_id)).

(** [Initialization::run] *)
Definition initialization_run (env : Environment) (round_height chunk_id : N) : action bytes :=
  let current := LContributionFile (MkContributionLocator round_height chunk_id 0 true) in
  let next := LContributionFile (MkContributionLocator (u64_add round_height 1) chunk_id 0 true) in
  initialize_file current (contribution_file_size env chunk_id true) ;;;
  with_writer current (or_error InitializationFailed (initialization env chunk_id)) ;;;
  copy current next ;;;
  check_hash current next.

(** ** Signing *)

Definition contribution_state_new (challenge response : bytes) (next : option bytes)
    : outcome CoordinatorError ContributionState :=
  if negb (length challenge =? 64)%nat then Err ChallengeHashSizeInvalid
  else if negb (length response =? 64)%nat then Err ResponseHashSizeInvalid
  else if match next with Some h => negb (length h =? 64)%nat | None => false end
  then Err NextChallengeHashSizeInvalid
  else Ok (MkContributionState (hex_encode challenge) (hex_encode response) (hex_encode <$> next)).

Definition contribution_file_signature_new (signature : string) (s : ContributionState)
    : outcome CoordinatorError ContributionFileSignature :=
  try! decoded := ok_or (hex_decode signature) Hex in
  if negb (length decoded =? 64)%nat then Err ContributionSignatureSizeMismatch
  else Ok (MkContributionFileSignature signature s).

Definition write_contribution_file_signature (signing_key : string)
    (challenge response : Locator) (next_challenge : option Locator) (signature_locator : Locator)
    : action unit :=
  let! challenge := read challenge in
  let! response := read response in
  let! next :=
    match next_challenge with
    | Some l => let! data := read l in ret (Some (calculate_hash data))
    | None => ret None
    end in
  let! s := lift (contribution_state_new (calculate_hash challenge) (calculate_hash response) next) in
  let! signature := lift (ok_or (sign signing_key (contribution_state_json s)) Error) in
  let! cfs := lift (contribution_file_signature_new signature s) in
  with_writer signature_locator (write_prefix (signature_to_vec cfs)).

(** ** Computation *)

(** [Computation::contribute]: the response is the hash of the challenge, the
    contribution of a key pair made from the seed, and the public key. *)
Definition contribute_response (env : Environment) (chunk_id : N) (challenge seed : bytes)
    : M CoordinatorError bytes unit :=
  bail_if (λ _, match compressed_inputs env with CompressionYes => true | CompressionNo => false end)
    with CompressedContributionHashingUnsupported ;;;
  let challenge_hash := calculate_hash challenge in
  write_prefix challenge_hash ;;;
  bail_if (λ _, (length challenge <? 64)%nat) with StorageReaderFailed ;;;
  let E := environment_engine env in
  let p := chunked_parameters (parameters env) chunk_id in
  let! keys := phase1 (lift (expect' (fst (key_generation E hash_fuel challenge_hash (derive_rng_from_seed seed))))) in
  let '(public_key, private_key) := keys in
  phase1 (computation E challenge (compressed_inputs env) (compressed_outputs env)
            (check_input_for_correctness env) private_key p) ;;;
  phase1 (public_key_write E public_key p (compressed_outputs env)).

(** [Computation::run] *)
Definition computation_run (env : Environment) (signing_key : string)
    (challenge response signature_locator : Locator) (seed : bytes) : action unit :=
  match response with
  | LContributionFile cl =>
      let! challenge_data := read challenge in
      with_writer response (or_error ComputationFailed
        (contribute_response env (cl_chunk_id cl) challenge_data seed)) ;;;
      read response ;;;
      write_contribution_file_signature signing_key challenge response None signature_locator
  | _ => fail ContributionLocatorIncorrect
  end.

(** ** Verification *)

(** [Verification::transform_pok_and_correctness]: the hash of the response,
    when it was computed from the challenge and its proofs of knowledge hold. *)
Definition transform_pok_and_correctness (env : Environment) (chunk_id : N) (challenge response : bytes)
    : outcome CoordinatorError bytes :=
  let challenge_hash := calculate_hash challenge in
  if (length response <? 64)%nat then Err StorageReaderFailed
  else if negb (bool_decide (challenge_hash = take 64 response)) then Err ContributionHashMismatch
  else
    let E := environment_engine env in
    let p := chunked_parameters (parameters env) chunk_id in
    let response_hash := calculate_hash response in
    try! public_key := map_err (λ _, Phase1Setup) (public_key_read E p (compressed_outputs env) response) in
    try! _ := map_err (λ _, Phase1Setup)
      (phase1_verify E hash_fuel challenge response public_key challenge_hash (compressed_inputs env)
         (compressed_outputs env) CheckNo CheckFull p) in
    Ok response_hash.

(** [Verification::decompress] *)
Definition decompress_response (env : Environment) (chunk_id : N) (response response_hash : bytes)
    : M CoordinatorError bytes unit :=
  write_prefix response_hash ;;;
  phase1 (decompress (environment_engine env) (chunked_parameters (parameters env) chunk_id) CheckNo response).

Definition same_compression (a b : UseCompression) : bool :=
  match a, b with
  | CompressionYes, CompressionYes | CompressionNo, CompressionNo => true
  | _, _ => false
  end.

(** [chunks(64).next().unwrap()] panics on an empty file. *)
Definition first_chunk (data : bytes) : outcome CoordinatorError bytes :=
  if is_nil data then Panic else Ok (take 64 data).

Definition verification (env : Environment) (chunk_id : N)
    (challenge response next_challenge : Locator) : action unit :=
  bail_if (λ d, negb (disk_exists d challenge) || negb (disk_exists d response))
    with ContributionLocatorMissing ;;;
  let! challenge_data := read challenge in
  let! response_data := read response in
  let! response_hash :=
    lift (map_err (λ _, VerificationFailed)
            (transform_pok_and_correctness env chunk_id challenge_data response_data)) in
  (if same_compression (compressed_outputs env) (compressed_inputs env)
   then copy response next_challenge
   else
     (λ d, if disk_exists d next_challenge then (Ok tt, d)
           else initialize_file next_challenge (contribution_file_size env chunk_id true) d) ;;;
     with_writer next_challenge (decompress_response env chunk_id response_data response_hash)) ;;;
  let! next_data := read next_challenge in
  let! saved := lift (first_chunk next_data) in
  bail_if (λ _, negb (bool_decide (response_hash = saved))) with ContributionHashMismatch ;;;
  ret tt.

(** Where the challenge after contribution [id] is stored. *)
Definition challenge_after (round_height chunk_id id : N) (is_final : bool) : ContributionLocator :=
  if is_final then MkContributionLocator (u64_add round_height 1) chunk_id 0 true
  else MkContributionLocator round_height chunk_id id true.
Definition signature_after (round_height chunk_id id : N) (is_final : bool) : ContributionSignatureLocator :=
  if is_final then MkContributionSignatureLocator (u64_add round_height 1) chunk_id 0 true
  else MkContributionSignatureLocator round_height chunk_id id true.

(** [Verification::run] *)
Definition verification_run (env : Environment) (signing_key : string)
    (round_height chunk_id id : N) (is_final : bool) : action unit :=
  bail_if (λ _, ((round_height =? 0) || (round_height =? 1))%N && (id =? 0)%N)
    with VerificationOnContributionIdZero ;;;
  bail_if (λ _, (number_of_chunks env <? chunk_id)%N) with ChunkIdInvalid ;;;
  let challenge := LContributionFile (MkContributionLocator round_height chunk_id (u64_sub id 1) true) in
  let response := LContributionFile (MkContributionLocator round_height chunk_id id false) in
  let next_challenge := LContributionFile (challenge_after round_height chunk_id id is_final) in
  let signature_locator := LContributionFileSignature (signature_after round_height chunk_id id is_final) in
  verification env chunk_id challenge response next_challenge ;;;
  (λ d, if disk_exists d signature_locator then (Ok tt, d)
        else initialize_file signature_locator (contribution_file_signature_size true) d) ;;;
  write_contribution_file_signature signing_key challenge response (Some next_challenge) signature_locator.

(** ** Aggregation *)

(** One chunk of [Aggregation::readers]. *)
Definition aggregation_reader (r : Round) (d : Disk) (chunk_id : N) : outcome CoordinatorError bytes :=
  try! chunk := round_chunk r chunk_id in
  let id := current_contribution_id chunk in
  if negb (u64_sub (expected_number_of_contributions r) 1 =? id)%N then Err NumberOfContributionsDiffer
  else if negb (disk_exists d (LContributionFile (MkContributionLocator (u64_add (rd_height r) 1) chunk_id 0 true)))
  then Err ContributionMissingVerifiedLocator
  else reader (LContributionFile (MkContributionLocator (rd_height r) chunk_id id false)) d.

Definition aggregation_readers (env : Environment) (r : Round) (d : Disk)
    : outcome CoordinatorError (list bytes) :=
  collect (aggregation_reader r d <$> u64_range 0 (number_of_chunks env)).

(** [Aggregation::run] *)
Definition aggregation_run (env : Environment) (r : Round) : action unit :=
  let round_file := LRoundFile (rd_height r) in
  bail_if (λ d, disk_exists d round_file) with RoundLocatorAlreadyExists ;;;
  initialize_file round_file (round_file_size env) ;;;
  let! readers := gets (aggregation_readers env r) in
  let! readers := lift readers in
  with_writer round_file (or_error RoundAggregationFailed
    (phase1 (aggregation (environment_engine env) ((λ data, (data, compressed_outputs env)) <$> readers)
               (compressed_inputs env) (chunked_parameters (parameters env) 0)))) ;;;
  let! aggregated := read round_file in
  lift (map_err (λ _, Phase1Setup)
    (fst (phase1_aggregate_verify (environment_engine env) aggregated CompressionNo CheckFull
            (full_parameters (parameters env)) (thread_rng (curve (parameters env)))))).
End commands.

(** ** An instance

    A toy cryptography, to evaluate the models: the hash of a file is its last
    64 bytes, the curves are the toy engine. *)

Definition last_bytes (data : bytes) : bytes := take 64 (reverse data ++ repeat x00 64).

Lemma last_bytes_length data : length (last_bytes data) = 64.
Proof. unfold last_bytes. rewrite length_take, length_app, repeat_length. lia. Qed.

Definition toy_cryptography : Cryptography.
Proof.
  refine {|
    calculate_hash := last_bytes;
    calculate_hash_length := last_bytes_length;
    hex_encode data := String.string_of_list_ascii (ascii_of_byte <$> data);
    hex_decode s := Some (string_bytes s);
    contribution_state_json s := challenge_hash s +:+ response_hash s;
    engine _ := Toy.engine;
    engine_randomness _ := toy_randomness;
    thread_rng _ := [];
    hash_fuel := 5;
  |}.
  intros data. f_equal. unfold string_bytes. rewrite String.list_ascii_of_string_of_list_ascii, <-list_fmap_compose.
  rewrite <-(list_fmap_id data) at 2. apply list_fmap_ext. intros i b _. apply byte_of_ascii_of_byte.
Defined.
