(* ===== verification/Responses.v ===== *)
(** * Responses

    What [contribute_response] of [Commands] writes to the file of a response,
    and that [transform_pok_and_correctness] accepts it: the two commands, on
    the contents of the files, from the key generation to the pairings. *)

From S2P Require Import Prelude Text Task Participant Errors Contribution Locator Chunk Round ParticipantInfo RoundMetrics CoordinatorState Serde Storage RoundStorage Commands.
From S2P Require Import Environment Phase1Parameters Curve Elements MultiExp Buffers Accumulator Phase1 Layout Computation Verifying.
From Stdlib Require Import Strings.Byte.

(** ** Lengths *)

(** The method overwrites its slice: whatever it returns, the length stays. *)
Definition keeps_length {A B} (m : on (list A) B) : Prop := ∀ l, length (m l).2 = length l.

Lemma keeps_length_lift {A B} (o : setup B) : keeps_length (A := A) (lift o).
Proof. done. Qed.
Lemma keeps_length_bind {A B D} (m : on (list A) B) (k : B → on (list A) D) :
  keeps_length m → (∀ b, keeps_length (k b)) → keeps_length (bind m k).
Proof.
  intros Hm Hk l. unfold bind. specialize (Hm l). destruct (m l) as [[b| |] l']; [|done|done].
  cbn in *. rewrite <-Hm. apply Hk.
Qed.
Lemma keeps_length_slice_mut {A B} (s e : N) (m : on (list A) B) : keeps_length m → keeps_length (slice_mut s e m).
Proof.
  intros Hm l. unfold slice_mut, len. destruct ((s <=? e)%N && (e <=? N.of_nat (length l))%N) eqn:Hb; [|done].
  apply andb_true_iff in Hb as [Hs%N.leb_le He%N.leb_le].
  specialize (Hm (take (N.to_nat (e - s)) (list.drop (N.to_nat s) l))).
  destruct (m _) as [o l']. cbn in *. rewrite !length_app, Hm, !length_take, !length_drop. lia.
Qed.
Lemma keeps_length_write_all data : keeps_length (write_all data).
Proof. intros l. unfold write_all. cbn. rewrite length_app, length_take, length_drop. lia. Qed.
Lemma keeps_length_zip_chunks {A B} (f : B → on (list A) unit) items cs :
  (∀ b, keeps_length (f b)) → length (concat (zip_chunks f items cs).2) = length (concat cs).
Proof.
  intros Hf. revert cs. induction items as [|b items IH]; intros [|c cs]; try done. cbn [zip_chunks].
  specialize (Hf b c). destruct (f b c) as [[u| |] c']; cbn in *; rewrite ?length_app; try lia.
  specialize (IH cs). destruct (zip_chunks f items cs) as [o cs']. cbn in *. rewrite length_app. lia.
Qed.
Lemma keeps_length_chunks_mut {A B} n (f : B → on (list A) unit) items :
  (∀ b, keeps_length (f b)) → keeps_length (cfg_chunks_mut n f items).
Proof.
  intros Hf l. unfold cfg_chunks_mut. destruct (N.eqb_spec n 0); [done|].
  pose proof (keeps_length_zip_chunks f items (slice_chunks (N.to_nat n) l) Hf) as H.
  destruct (zip_chunks f items _) as [o cs]. cbn in *. by rewrite H, concat_slice_chunks by lia.
Qed.
Lemma keeps_length_write_element {F} {C : AffineCurve F} (q : C) c : keeps_length (write_element q c).
Proof. apply keeps_length_write_all. Qed.
Lemma keeps_length_write_batch {F} {C : AffineCurve F} (l : list C) c : keeps_length (write_batch l c).
Proof. apply keeps_length_chunks_mut. intros q. apply keeps_length_slice_mut, keeps_length_write_element. Qed.
#[export] Hint Resolve keeps_length_lift keeps_length_bind keeps_length_slice_mut keeps_length_write_all
  keeps_length_write_element keeps_length_write_batch : keeps_length.

Lemma keeps_length_apply_powers {E : PairingEngine} {C : AffineCurve (Fr E)} co input ci check s e powers coeff :
  keeps_length (apply_powers E (C := C) co input ci check s e powers coeff).
Proof. unfold apply_powers. auto 10 with keeps_length. Qed.
#[export] Hint Resolve keeps_length_apply_powers : keeps_length.

(** ** What is in front of the sections stays *)

(** On a buffer of [n] bytes the method leaves the length and the hash. *)
Definition spares {A} (n : nat) (m : on bytes A) : Prop :=
  ∀ buffer, length buffer = n → length (m buffer).2 = n ∧ take 64 (m buffer).2 = take 64 buffer.
(** The range is behind the hash and in the buffer. *)
Definition inside (n : nat) (r : range) : Prop := (64 ≤ r_start r ∧ r_start r + r_len r ≤ N.of_nat n)%N.

Section spares.
Context (n : nat).

Lemma spares_ret {A} (a : A) : spares n (ret a).
Proof. done. Qed.
Lemma spares_lift {A} (o : setup A) : spares n (lift o).
Proof. done. Qed.
Lemma spares_bind {A B} (m : on bytes A) (k : A → on bytes B) :
  spares n m → (∀ a, spares n (k a)) → spares n (bind m k).
Proof.
  intros Hm Hk l Hl. unfold bind. destruct (Hm l Hl) as [H1 H2]. destruct (m l) as [[a| |] l']; [|done|done].
  cbn in *. destruct (Hk a l' H1) as [H3 H4]. by rewrite H4.
Qed.
Lemma spares_lift_bind {A B} (o : setup A) (k : A → on bytes B) :
  (∀ a, o = Ok a → spares n (k a)) → spares n (bind (lift o) k).
Proof. intros Hk l Hl. unfold bind, lift. destruct o as [a| |]; [by apply Hk | done | done]. Qed.
Lemma spares_expect {A} (m : on bytes A) : spares n m → spares n (expect m).
Proof. intros Hm l Hl. unfold expect. specialize (Hm l Hl). by destruct (m l) as [[a| |] l']. Qed.
Lemma spares_assert b : spares n (assert b).
Proof. done. Qed.
Lemma spares_for_each {A} (f : A → on bytes unit) l : (∀ x, spares n (f x)) → spares n (for_each f l).
Proof. intros Hf. induction l as [|x l IH]; [apply spares_ret|]. by apply spares_bind. Qed.
Lemma spares_iter_chunk p (f : N → N → on bytes unit) : (∀ s e, spares n (f s e)) → spares n (iter_chunk p f).
Proof.
  intros Hf. unfold iter_chunk. destruct (iter_bounds p). apply spares_bind; [done|]. intros cs.
  apply spares_for_each. intros c. apply spares_bind; [done|]. intros b. apply Hf.
Qed.
Lemma spares_within {A} r (m : on bytes A) : inside n r → keeps_length m → spares n (within r m).
Proof.
  intros [H1 H2] Hm l Hl. unfold within. specialize (Hm (view r l)). destruct (m (view r l)) as [o part].
  cbn in *. unfold view in Hm. rewrite length_take, length_drop in Hm. split.
  - rewrite !length_app, Hm, length_take, length_drop. lia.
  - rewrite take_app_le by (rewrite length_take; lia). rewrite take_take. f_equal. lia.
Qed.
End spares.

Section computation.
Context {E : PairingEngine}.

Lemma split_mut_inside p c n o :
  hash_size p = 64%N → split_mut E p c (N.of_nat n) = Ok o →
  inside n (sb_tau_g1 o) ∧ inside n (sb_tau_g2 o) ∧ inside n (sb_alpha_g1 o) ∧
  (p1_proving_system p = Groth16 → inside n (sb_beta_g1 o) ∧ inside n (sb_beta_g2 o)).
Proof.
  intros Hh H. unfold split_mut in H. unfold inside.
  assert (∀ r x y a, (64 ≤ r_start r ∧ r_start r + r_len r ≤ N.of_nat n)%N → split_at a r = Ok (x, y) →
    (64 ≤ r_start x ∧ r_start x + r_len x ≤ N.of_nat n)%N ∧ (64 ≤ r_start y ∧ r_start y + r_len y ≤ N.of_nat n)%N) as Hs.
  { intros r x y a [H1 H2] Hsp. unfold split_at in Hsp. destruct (N.leb_spec a (r_len r)); [|done].
    injection Hsp as <- <-. cbn. lia. }
  assert (∀ x y, split_at (hash_size p) (MkRange 0 (N.of_nat n)) = Ok (x, y) →
    (64 ≤ r_start y ∧ r_start y + r_len y ≤ N.of_nat n)%N) as H0.
  { intros x y Hsp. rewrite Hh in Hsp. unfold split_at in Hsp. cbn in Hsp.
    destruct (N.leb_spec 64 (N.of_nat n)); [|done]. injection Hsp as <- <-. cbn. lia. }
  destruct (p1_proving_system p).
  - unfold split_groth16 in H.
    apply bind_outcome_ok in H as ([x0 y0] & S0%H0 & H). apply bind_outcome_ok in H as ([x1 y1] & [I1 J1]%(Hs _ _ _ _ S0) & H).
    apply bind_outcome_ok in H as ([x2 y2] & [I2 J2]%(Hs _ _ _ _ J1) & H).
    apply bind_outcome_ok in H as ([x3 y3] & [I3 J3]%(Hs _ _ _ _ J2) & H).
    apply bind_outcome_ok in H as ([x4 y4] & [I4 J4]%(Hs _ _ _ _ J3) & H).
    apply bind_outcome_ok in H as (x5 & H5 & [= <-]). cbn. split_and!; try apply I1; try apply I2; try apply I3.
    intros _. split; [done|]. cbn [snd] in H5. unfold sub_range in H5. cbn [N.leb N.compare] in H5.
    destruct (N.leb_spec (buffer_size (G2Affine E) c) (r_len y4)); [|by rewrite andb_false_r in H5].
    destruct (0 <=? _)%N; [|done]. injection H5 as <-. cbn. lia.
  - unfold split_marlin in H. destruct (if (p1_chunk_index p =? 0)%N then _ else _) as [a b].
    apply bind_outcome_ok in H as ([x0 y0] & S0%H0 & H). apply bind_outcome_ok in H as ([x1 y1] & [I1 J1]%(Hs _ _ _ _ S0) & H).
    apply bind_outcome_ok in H as ([x2 y2] & [I2 J2]%(Hs _ _ _ _ J1) & H).
    apply bind_outcome_ok in H as ([x3 y3] & [I3 J3]%(Hs _ _ _ _ J2) & [= <-]). cbn.
    split_and!; try apply I1; try apply I2; try apply I3.
    done.
Qed.

Lemma computation_spares n input ci co check key p :
  hash_size p = 64%N → spares n (computation E input ci co check key p).
Proof.
  intros Hh output Hlen. unfold computation. unfold len at 2 4. rewrite Hlen. revert output Hlen.
  match goal with |- ∀ output, _ → length (?m output).2 = _ ∧ _ => change (spares n m) end.
  apply spares_lift_bind. intros i _. apply spares_lift_bind. intros o Ho.
  destruct (split_mut_inside p co n o Hh Ho) as (I1 & I2 & I3 & I4).
  assert (∀ C r d s e ps c, inside n r → spares n (expect (within r
    (apply_powers E (C := C) co d ci check s e ps c)))) as Hw.
  { intros C r d s e ps c Hr. apply spares_expect, spares_within; auto with keeps_length. }
  destruct (p1_proving_system p).
  - destruct I4 as [I4 I5]; [done|]. apply spares_bind; [done|]. intros q. apply spares_bind.
    { apply spares_within; [done|]. apply keeps_length_write_element. }
    intros _. apply spares_iter_chunk. intros s e. unfold contribute_groth16.
    repeat (apply spares_bind; [first [apply spares_assert | by apply Hw] | intros _]).
    destruct (s <? powers_length p)%N; [|apply spares_ret].
    repeat (apply spares_bind; [first [apply spares_assert | by apply Hw] | intros _]). by apply Hw.
  - apply spares_bind.
    + destruct (p1_chunk_index p =? 0)%N; [|apply spares_ret]. unfold contribute_marlin_first.
      repeat (apply spares_bind; [by apply Hw | intros _]). by apply Hw.
    + intros _. apply spares_iter_chunk. intros s e. by apply Hw.
Qed.

Lemma keeps_length_decompress_buffer {C : AffineCurve (Fr E)} input check s e :
  keeps_length (decompress_buffer E (C := C) input check s e).
Proof.
  unfold decompress_buffer. do 2 (apply keeps_length_bind; [apply keeps_length_lift | intros ?]).
  apply keeps_length_slice_mut, keeps_length_write_batch.
Qed.
Lemma decompress_spares n p check input : hash_size p = 64%N → spares n (decompress E p check input).
Proof.
  intros Hh output Hlen. unfold decompress. assert (len output = N.of_nat n) as -> by (unfold len; by rewrite Hlen).
  revert output Hlen.
  match goal with |- ∀ output, _ → length (?m output).2 = _ ∧ _ => change (spares n m) end.
  apply spares_lift_bind. intros i _. apply spares_lift_bind. intros o Ho.
  destruct (split_mut_inside p CompressionNo n o Hh Ho) as (I1 & I2 & I3 & I4).
  assert (∀ C r d s e, inside n r → spares n (within r (decompress_buffer E (C := C) d check s e))) as Hw.
  { intros C r d s e Hr. apply spares_within; [done | apply keeps_length_decompress_buffer]. }
  destruct (p1_proving_system p).
  - destruct I4 as [I4 I5]; [done|]. apply spares_lift_bind. intros q _. apply spares_bind.
    { apply spares_within; [done|]. apply keeps_length_write_element. }
    intros _. apply spares_bind; [by apply spares_expect, Hw | intros _]. destruct (0 <? other_chunk_size p)%N; [|apply spares_ret].
    repeat (apply spares_bind; [by apply spares_expect, Hw | intros _]). by apply spares_expect, Hw.
  - apply spares_bind; [|intros _; by apply spares_expect, Hw].
    case_match; [|apply spares_ret]. apply spares_bind; [by apply Hw | intros _; by apply Hw].
Qed.

Lemma public_key_write_spares n (key : PublicKey E) p c :
  (64 ≤ get_length p c)%N → spares n (public_key_write E key p c).
Proof.
  intros Hpos output Hlen. unfold public_key_write. split.
  - rewrite keeps_length_slice_mut; [done | apply keeps_length_write_all].
  - unfold slice_mut, public_key_position. destruct (_ && _)%bool eqn:Hb; [|done].
    apply andb_true_iff in Hb as [Hs%N.leb_le _]. unfold len in Hs.
    destruct (write_all _ _) as [o l]. cbn. rewrite take_app_le by (rewrite length_take; lia).
    rewrite take_take. f_equal. lia.
Qed.
End computation.


(** ** The public key behind the elements *)

Section public_key.
Context {E : PairingEngine} `{!EngineLaws E}.
Notation w1 := (width (G1Affine E)).
Notation w2 := (width (G2Affine E)).

Definition key_in_group (key : PublicKey E) : Prop :=
  (in_subgroup (fst (pk_tau_g1 key)) ∧ in_subgroup (snd (pk_tau_g1 key))) ∧
  (in_subgroup (fst (pk_alpha_g1 key)) ∧ in_subgroup (snd (pk_alpha_g1 key))) ∧
  (in_subgroup (fst (pk_beta_g1 key)) ∧ in_subgroup (snd (pk_beta_g1 key))) ∧
  in_subgroup (pk_tau_g2 key) ∧ in_subgroup (pk_alpha_g2 key) ∧ in_subgroup (pk_beta_g2 key).

Definition key_length : nat := 6 * w1 CompressionYes + 3 * w2 CompressionYes.
Lemma public_key_bytes_length key : length (public_key_bytes E key) = key_length.
Proof. unfold public_key_bytes. rewrite !length_app, !serialize_width. unfold key_length. lia. Qed.

Lemma take_element_ok {C : AffineCurve (Fr E)} `{!CurveLaws C} (q : C) rest :
  in_subgroup q → take_element E (serialize CompressionYes q ++ rest) = Ok (q, rest).
Proof.
  intros Hq. unfold take_element. rewrite read_element_ok by done. cbn [bind_outcome].
  by rewrite buffer_size_nat, drop_app_length' by (symmetry; apply serialize_width).
Qed.
Lemma parse_public_key_ok key rest :
  key_in_group key → parse_public_key E (public_key_bytes E key ++ rest) = Ok key.
Proof.
  intros ((? & ?) & (? & ?) & (? & ?) & ? & ? & ?). unfold parse_public_key, public_key_bytes.
  rewrite <-!app_assoc. repeat (rewrite take_element_ok by done; cbn [bind_outcome]).
  by destruct key as [[] [] [] ???].
Qed.
Lemma key_pair_in_group `{!Randomness E, !RandomnessLaws E} fuel digest pk sk :
  key_pair fuel digest pk sk → key_in_group pk.
Proof.
  intros H. destruct (key_pair_g2_s _ _ _ _ H) as (st & ht & sa & ha & sb & hb & _ & -> & (? & ? & ?) & ? & ? & ?).
  unfold key_in_group. cbn. split_and!; try done; by apply mul_in_subgroup.
Qed.

Definition set_rest d x := MkParts (pt_hash x) (pt_tau_g1 x) (pt_tau_g2 x) (pt_alpha_g1 x) (pt_beta_g1 x) (pt_beta_g2 x) d.
Lemma holds_rest p c check x (acc : Accumulator E) d : holds p c check x acc → holds p c check (set_rest d x) acc.
Proof. intros [[] ? ? ? ? ?]. by split; [split| | | | |]. Qed.
Lemma join_rest p c x :
  fits (E := E) p c x →
  ∃ elements, length elements = accumulator_length (E := E) p c ∧ ∀ d, join (set_rest d x) = elements ++ d.
Proof.
  intros [f0 f1 f2 f3 f4 f5].
  exists (pt_hash x ++ pt_tau_g1 x ++ pt_tau_g2 x ++ pt_alpha_g1 x ++ pt_beta_g1 x ++ pt_beta_g2 x). split.
  - rewrite !length_app, f0, f1, f2, f3, f4, f5. unfold accumulator_length. lia.
  - intros d. unfold join. cbn. by rewrite <-!app_assoc.
Qed.

(** Writing the key of a contribution and reading it again. *)
Lemma public_key_written p c x key :
  fits (E := E) p c x → get_length p c = N.of_nat (accumulator_length (E := E) p c) →
  length (pt_rest x) = key_length →
  public_key_write E key p c (join x) = (Ok tt, join (set_rest (public_key_bytes E key) x)).
Proof.
  intros Hf Hpos Hrest. destruct (join_rest p c x Hf) as (elements & Hlen & Hjoin). rewrite Hjoin.
  assert (join x = elements ++ pt_rest x) as -> by (rewrite <-Hjoin; by destruct x).
  unfold public_key_write, public_key_position. rewrite Hpos, <-Hlen.
  unfold len at 1. erewrite slice_mut_ok; [|rewrite length_app; lia|].
  2: { rewrite length_app, drop_app_length. replace (length elements + length (pt_rest x) - length elements) with (length (pt_rest x)) by lia.
       rewrite firstn_all. unfold write_all, len. rewrite public_key_bytes_length, <-Hrest, N.leb_refl.
       rewrite take_ge, drop_ge, app_nil_r by (rewrite ?public_key_bytes_length; lia). done. }
  rewrite take_app_length. f_equal. f_equal. rewrite drop_ge by (rewrite length_app; lia). apply app_nil_r.
Qed.
Lemma public_key_read_back p c x key :
  fits (E := E) p c x → get_length p c = N.of_nat (accumulator_length (E := E) p c) → key_in_group key →
  public_key_read E p c (join (set_rest (public_key_bytes E key) x)) = Ok key.
Proof.
  intros Hf Hpos Hk. destruct (join_rest p c x Hf) as (elements & Hlen & Hjoin). rewrite Hjoin.
  unfold public_key_read, public_key_position. rewrite Hpos, <-Hlen. unfold len.
  rewrite slice_ok by (rewrite length_app; lia). cbn [bind_outcome].
  rewrite drop_app_length, take_ge by (rewrite length_app; lia).
  rewrite <-(app_nil_r (public_key_bytes E key)). by apply parse_public_key_ok.
Qed.
End public_key.

(** ** The command *)

Section response.
Context `{CR : Cryptography}.
Implicit Types (env : Environment).

Lemma chunked_hash_size env chunk_id : hash_size (chunked_parameters (parameters env) chunk_id) = 64%N.
Proof. unfold chunked_parameters, new_chunk, new_parameters. by destruct (chunk_sizes _ _ _ _ _). Qed.

(** [m], as an operation of the coordinator. *)
Lemma phase1_run {A} (m : on bytes A) buffer : (phase1 m buffer).2 = (m buffer).2.
Proof. unfold phase1. by destruct (m buffer). Qed.
Lemma phase1_ok {A} (m : on bytes A) buffer a new : phase1 m buffer = (Ok a, new) ↔ m buffer = (Ok a, new).
Proof.
  unfold phase1. destruct (m buffer) as [o b]. split.
  - intros [= H <-]. by apply map_err_ok in H as ->.
  - by intros [= -> ->].
Qed.

(** The room of the public key is behind the hash: every round whose sizes do
    not overflow has it there. *)
Definition key_behind_hash env (chunk_id : N) : Prop :=
  (64 ≤ get_length (chunked_parameters (parameters env) chunk_id) (compressed_outputs env))%N.

Lemma decompress_response_chained env chunk_id response hash old u new :
  length hash = 64 →
  decompress_response env chunk_id response hash old = (Ok u, new) →
  length new = length old ∧ take 64 new = hash.
Proof.
  intros Hhash H. unfold decompress_response in H. apply bind_ok in H as (x & b1 & Hw & H).
  unfold write_prefix in Hw. destruct (Nat.leb_spec (length hash) (length old)); [|done]. injection Hw as _ <-.
  rewrite take_ge in H by lia. set (b1 := hash ++ _) in H. apply phase1_ok in H.
  assert (length b1 = length old) as Hb1 by (subst b1; rewrite length_app, length_drop; lia).
  destruct (decompress_spares (E := environment_engine env) (length old) (chunked_parameters (parameters env) chunk_id) CheckNo response
    (chunked_hash_size env chunk_id) b1 Hb1) as [H1 H2].
  rewrite H in H1, H2. cbn in H1, H2. split; [done|]. rewrite H2. subst b1.
  by rewrite take_app_length'.
Qed.

Lemma contribute_response_chained env chunk_id challenge seed old u new :
  key_behind_hash env chunk_id →
  contribute_response env chunk_id challenge seed old = (Ok u, new) →
  length new = length old ∧ 64 ≤ length old ∧ take 64 new = calculate_hash challenge.
Proof.
  intros Hkey H. unfold contribute_response in H. cbv zeta in H. apply check_ok in H as [_ H].
  apply bind_ok in H as (x & b1 & Hw & H). unfold write_prefix in Hw.
  destruct (Nat.leb_spec (length (calculate_hash challenge)) (length old)) as [Hle|]; [|done].
  injection Hw as _ <-. rewrite calculate_hash_length in Hle.
  rewrite take_ge in H by (rewrite calculate_hash_length; lia).
  set (b1 := calculate_hash challenge ++ _) in H.
  assert (length b1 = length old ∧ take 64 b1 = calculate_hash challenge) as [Hlen Htake].
  { subst b1. rewrite length_app, length_drop, calculate_hash_length. split; [lia|].
    rewrite take_app_le by (rewrite calculate_hash_length; lia). apply take_ge. rewrite calculate_hash_length. lia. }
  apply check_ok in H as [_ H]. apply bind_ok in H as ([pk sk] & b2 & Hk%phase1_ok & H).
  unfold lift in Hk. injection Hk as _ <-.
  apply bind_ok in H as (y & b3 & Hc%phase1_ok & H). apply phase1_ok in H.
  pose proof (computation_spares (length old) challenge (compressed_inputs env) (compressed_outputs env)
    (check_input_for_correctness env) sk _ (chunked_hash_size env chunk_id) b1 Hlen) as [L3 T3].
  rewrite Hc in L3, T3. cbn [snd] in L3, T3.
  pose proof (public_key_write_spares (length old) pk _ _ Hkey b3 L3) as [L4 T4].
  rewrite H in L4, T4. cbn [snd] in L4, T4. split_and!; [done | done | congruence].
Qed.
(** ** Honest responses *)

Context (env : Environment) (chunk_id : N).
Notation E := (environment_engine env).
Notation p := (chunked_parameters (parameters env) chunk_id).
Notation ci := (compressed_inputs env).
Notation co := (compressed_outputs env).

(** The sizes of the round are within the bounds of [Layout]. *)
Definition chunk_in_bounds : Prop :=
  parameter_bounds E (contribution_mode (parameters env)) chunk_id (Npos (chunk_size (parameters env)))
    (proving_system (parameters env)) (power (parameters env)) (batch_size (parameters env)).

(** A challenge that holds the accumulator [acc], as every challenge after an
    honest history does. *)
Record challenge_holds (challenge : bytes) (acc : Accumulator E) : Prop := {
  chl_reads : deserialize_accumulator E p ci CheckNo challenge = Ok acc;
  chl_length : accumulator_length (E := E) p ci ≤ length challenge;
  chl_group : in_group acc;
  chl_nonzero : nonzero acc;
  chl_first : is_first p = true → first_elements p acc;
}.

Context `{!EngineLaws E, !RandomnessLaws E} (Hb : chunk_in_bounds).

Lemma chunk_regular' : regular E p.
Proof. exact (new_parameters_regular _ _ _ _ _ _ Hb). Qed.
Lemma chunk_position c : get_length p c = N.of_nat (accumulator_length (E := E) p c).
Proof. exact (get_length_layout _ _ _ _ _ _ Hb c). Qed.
Lemma response_length : contribution_file_size env chunk_id false =
  N.of_nat (accumulator_length (E := E) p co + key_length (E := E)).
Proof.
  pose proof (elements_size_layout _ _ _ _ _ _ Hb co : (elements_size (proving_system (parameters env)) chunk_id
    (power (parameters env)) (serialized_size (G1Affine E) co) (serialized_size (G2Affine E) co)
    (g1_chunk_size p) (other_chunk_size p) + 64)%N = N.of_nat (accumulator_length (E := E) p co) ∧
    (N.of_nat (accumulator_length (E := E) p co) < 2 ^ 63)%N) as [Hl Hlt].
  pose proof (pb_g1 _ _ _ _ _ _ _ Hb CompressionYes). pose proof (pb_g2 _ _ _ _ _ _ _ Hb CompressionYes).
  unfold key_length, width. change (2 ^ 12)%N with 4096%N in *. change (2 ^ 63)%N with 9223372036854775808%N in *.
  unfold contribution_file_size, unverified_contribution_size.
  revert Hl Hlt. generalize (accumulator_length (E := E) p co). intros a.
  unfold chunked_parameters, new_chunk, new_parameters. destruct (chunk_sizes _ _ _ _ _) as [x y].
  cbn [accumulator_size contribution_size public_key_size g1_chunk_size other_chunk_size].
  unfold curve_parameters, engine_sizes. fold E. cbn [curve_parameters_new g1_size g2_size g1_compressed_size g2_compressed_size].
  unfold usize. change u64_modulus with 18446744073709551616%N. destruct co; intros Hl Hlt.
  - rewrite (N.mod_small (3 * _ + _)) by lia. rewrite N.mod_small by lia.
    lia.
  - rewrite (N.mod_small (3 * _ + _)) by lia. rewrite (N.mod_small (elements_size _ _ _ _ _ _ _ + _)) by lia.
    rewrite N.mod_small by lia. lia.
Qed.

(** A response that the coordinator's own computation writes - from any
    seed, to a file of the right size - passes its own verification: the hash
    of the challenge in front, the contribution of the key pair in the middle,
    the public key that proves it behind. *)
Lemma honest_response challenge acc seed response pk sk rng
    (Hraw : ci = CompressionNo)
    (Hchallenge : challenge_holds challenge acc)
    (Hkeys : key_generation E hash_fuel (calculate_hash challenge) (derive_rng_from_seed seed) = (Ok (pk, sk), rng))
    (Hsk : key_nonzero sk)
    (Hsize : N.of_nat (length response) = contribution_file_size env chunk_id false) :
  ∃ response', contribute_response env chunk_id challenge seed response = (Ok tt, response') ∧
    transform_pok_and_correctness env chunk_id challenge response' = Ok (calculate_hash response') ∧
    deserialize_accumulator E p co CheckNo response' = Ok (contributed p sk acc) ∧
    take 64 response' = calculate_hash challenge ∧ length response' = length response.
Proof.
  destruct Hchallenge as [Hreads Hlength Hgroup Hnz Hfirst]. pose proof chunk_regular' as Hp.
  rewrite response_length in Hsize. apply Nat2N.inj in Hsize.
  assert (64 ≤ length challenge) as Hc64 by (unfold accumulator_length in Hlength; lia).
  destruct (deserialize_holds_inv p ci CheckNo challenge acc Hp Hlength Hreads) as (xi & -> & Hi).
  set (challenge := join xi) in *. set (hash := calculate_hash challenge) in *.
  pose proof (calculate_hash_length challenge) as Hhash. fold hash in Hhash.
  set (b1 := hash ++ list.drop 64 response).
  assert (length b1 = length response) as Hb1.
  { subst b1. rewrite length_app, length_drop. unfold accumulator_length in Hsize. lia. }
  destruct (parts_exist (E := E) p co b1) as (xo & Hxo & Hf); [lia|].
  destruct (computation_parts p Hp sk ci co (check_input_for_correctness env) xi acc
    (holds_strengthen p ci _ xi acc Hi Hnz) xo Hf Hgroup) as (x & Hrun & Hx & Hxh & Hxr).
  fold challenge in Hrun. pose proof (hold_fits _ _ _ _ _ Hx) as Hfx.
  assert (length (pt_rest x) = key_length (E := E)) as Hrest.
  { rewrite Hxr. pose proof (join_length p co xo Hf) as Hl. rewrite <-Hxo in Hl. lia. }
  pose proof (public_key_written p co x pk Hfx (chunk_position co) Hrest) as Hwrite.
  destruct (key_generation_pair _ _ _ _ _ _ Hkeys) as [_ Hpair].
  pose proof (public_key_read_back p co x pk Hfx (chunk_position co) (key_pair_in_group _ _ _ _ Hpair)) as Hread.
  set (y := set_rest (public_key_bytes E pk) x) in *.
  pose proof (holds_rest _ _ _ _ _ (public_key_bytes E pk) Hx : holds p co CheckNo y (contributed p sk acc)) as Hy.
  assert (length (join y) = length response) as Hly.
  { rewrite (join_length p co y (hold_fits _ _ _ _ _ Hy)). cbn [set_rest pt_rest y].
    rewrite public_key_bytes_length. lia. }
  assert (take 64 (join y) = hash) as Hty.
  { pose proof (fit_hash _ _ _ Hf) as F0. pose proof (fit_hash _ _ _ (hold_fits _ _ _ _ _ Hy)) as Fy.
    unfold join. rewrite take_app_length' by lia. cbn [set_rest pt_hash y]. rewrite Hxh.
    assert (take 64 (join xo) = hash) as <- by (rewrite <-Hxo; subst b1; apply take_app_length'; lia).
    unfold join. by rewrite take_app_length' by lia. }
  exists (join y). split; [|split; [|split; [|by split]]].
  - unfold contribute_response. cbv zeta. unfold check at 1. rewrite Hraw at 1. fold hash. unfold bind at 1, write_prefix at 1.
    rewrite Hhash, (proj2 (Nat.leb_le _ _)) by (unfold accumulator_length in Hsize; lia).
    rewrite (take_ge hash) by (rewrite Hhash; unfold accumulator_length in Hsize; lia). fold b1.
    unfold check at 1. rewrite (proj2 (Nat.ltb_ge _ _)) by done.
    unfold bind at 1. unfold phase1 at 1, lift at 1. rewrite Hkeys. cbn [fst expect' map_err].
    unfold bind at 1, phase1 at 1. rewrite Hxo, Hrun. cbn [map_err]. unfold phase1. by rewrite Hwrite.
  - unfold transform_pok_and_correctness. fold hash. cbv zeta. rewrite Hly, Hty.
    rewrite (proj2 (Nat.ltb_ge _ _)) by (unfold accumulator_length in Hsize; lia).
    rewrite bool_decide_eq_true_2 by done. cbn [negb]. rewrite Hread. cbn [map_err bind_outcome].
    assert (phase1_verify E hash_fuel challenge (join y) pk hash ci co CheckNo CheckFull p = Ok tt) as ->; [|done].
    assert (∀ c, holds p co c y (with_beta_g2 (beta_g2 (contributed p sk acc)) (contributed p sk acc))) as Hyc.
    { intros c. replace (with_beta_g2 _ _) with (contributed p sk acc) by (by destruct (contributed p sk acc)).
      apply holds_strengthen; [done|]. by apply contributed_nonzero. }
    apply (verify_parts p Hp hash_fuel hash pk sk Hpair ci co CheckNo CheckFull xi y acc) with
      (b := beta_g2 (contributed p sk acc)); try done.
    intros Hs. destruct Hpair as [_ _ (s & h & Hsg & -> & _)]. unfold contributed. rewrite Hs. cbn.
    apply same_ratio_g1; [done | apply Hgroup].
  - apply deserialize_holds; done.
Qed.
End response.
