(* ===== verification/Frame.v ===== *)
(** * What an operation leaves alone

    [keeps disk_of P m]: whatever [m] returns, the files of the locators in [P]
    are as they were.  The lemmas follow the structure of a method, so that
    the hints of [keeps] find the frame of a whole operation. *)

From S2P Require Import Prelude Text Task Participant Errors Environment Phase1Parameters Contribution Locator Chunk Round ParticipantInfo RoundMetrics CoordinatorState Serde Storage RoundStorage Commands.

(** ** Disks that agree *)

Record untouched (P : Locator → bool) (d d' : Disk) : Prop := {
  untouched_base : base d' = base d;
  untouched_environment : disk_environment d' = disk_environment d;
  untouched_stored : ∀ l, P l = true → stored d' l = stored d l;
}.

#[export] Instance untouched_preorder P : PreOrder (untouched P).
Proof.
  split; [by constructor|]. intros d1 d2 d3 [] []. constructor; [congruence..|].
  intros l Hl. etrans; auto.
Qed.

Lemma untouched_write P d l data :
  P l = false → untouched P d (set_files (<[path_of d l := data]> (files d)) d).
Proof.
  intros Hl. constructor; [done..|]. intros l' Hl'. rewrite stored_insert.
  case_decide; [congruence | done].
Qed.
Lemma untouched_delete P d l :
  P l = false → untouched P d (set_files (delete (path_of d l) (files d)) d).
Proof.
  intros Hl. constructor; [done..|]. intros l' Hl'. rewrite stored_delete.
  case_decide; [congruence | done].
Qed.

Create HintDb keeps.

Definition keeps {E S A} (disk_of : S → Disk) (P : Locator → bool) (m : M E S A) : Prop :=
  ∀ s, untouched P (disk_of s) (disk_of (m s).2).

Section keeps.
Context {E S A B : Type} (disk_of : S → Disk) (P : Locator → bool).
Implicit Types m : M E S A.

Lemma keeps_ret a : keeps disk_of P (@ret E S A a).
Proof. intros s. simpl. reflexivity. Qed.
Lemma keeps_fail e : keeps disk_of P (@fail E S A e).
Proof. intros s. simpl. reflexivity. Qed.
Lemma keeps_lift o : keeps disk_of P (@lift E S A o).
Proof. intros s. simpl. reflexivity. Qed.
Lemma keeps_gets f : keeps disk_of P (@gets E S A f).
Proof. intros s. simpl. reflexivity. Qed.
Lemma keeps_reads (f : S → outcome E A) : keeps disk_of P (λ s, (f s, s)).
Proof. intros s. simpl. reflexivity. Qed.
Lemma keeps_bind m (k : A → M E S B) :
  keeps disk_of P m → (∀ a, keeps disk_of P (k a)) → keeps disk_of P (bind m k).
Proof.
  intros Hm Hk s. specialize (Hm s). unfold bind. destruct (m s) as [[a|e|] s1]; simpl in *; [|done..].
  etrans; [done|]. apply Hk.
Qed.
Lemma keeps_check (b : S → bool) e m : keeps disk_of P m → keeps disk_of P (check b e m).
Proof. intros Hm s. unfold check. destruct (b s); [simpl; reflexivity | apply Hm]. Qed.
Lemma keeps_if (b : bool) m m' :
  keeps disk_of P m → keeps disk_of P m' → keeps disk_of P (if b then m else m').
Proof. by destruct b. Qed.
Lemma keeps_state_if (b : S → bool) m m' :
  keeps disk_of P m → keeps disk_of P m' → keeps disk_of P (λ s, if b s then m s else m' s).
Proof. intros Hm Hm' s. destruct (b s); auto. Qed.
Lemma keeps_option {C} (o : option C) (f : C → M E S A) m :
  (∀ c, keeps disk_of P (f c)) → keeps disk_of P m →
  keeps disk_of P (match o with Some c => f c | None => m end).
Proof. by destruct o. Qed.
Lemma keeps_pair {C D} (p : C * D) (f : C → D → M E S A) :
  (∀ c d, keeps disk_of P (f c d)) → keeps disk_of P (let '(c, d) := p in f c d).
Proof. by destruct p. Qed.
Lemma keeps_for_each {C} (f : C → M E S unit) l :
  (∀ c, keeps disk_of P (f c)) → keeps disk_of P (for_each f l).
Proof.
  intros Hf. induction l as [|c l IH]; simpl; [intros s; simpl; reflexivity|].
  intros s. specialize (Hf c s). unfold bind. destruct (f c s) as [[[]|e|] s1]; simpl in *; [|done..].
  etrans; [done|]. apply IH.
Qed.
Lemma keeps_zoom {T} (get : S → T) (put : T → S → S) (n : M E T A) :
  (∀ s t, disk_of (put t s) = disk_of s) → keeps disk_of P (zoom get put n).
Proof. intros Hp s. unfold zoom. destruct (n (get s)). simpl. by rewrite Hp. Qed.
Lemma keeps_modify f : (∀ s, untouched P (disk_of s) (disk_of (f s))) → keeps disk_of P (@modify E S f).
Proof. intros Hf s. apply Hf. Qed.
End keeps.

#[export] Hint Resolve keeps_ret keeps_fail keeps_lift keeps_gets keeps_reads keeps_bind keeps_check
  keeps_if keeps_state_if keeps_option keeps_pair keeps_for_each : keeps.
#[export] Hint Extern 1 (_ = _) => reflexivity : keeps.

Section disk_operations.
Context `{TA : TimeApi, SE : !Serde, CR : Cryptography, SG : Signature} (P : Locator → bool).

Lemma keeps_or_error {S A} (disk_of : S → Disk) e (m : M CoordinatorError S A) :
  keeps disk_of P m → keeps disk_of P (or_error e m).
Proof. intros Hm s. specialize (Hm s). unfold or_error. by destruct (m s). Qed.

Lemma keeps_initialize_file l n : P l = false → keeps id P (initialize_file l n).
Proof.
  intros Hl. unfold initialize_file. apply keeps_check, keeps_bind.
  - apply keeps_modify. intros d. by destruct l.
  - intros _. apply keeps_check, keeps_modify. intros d. by apply untouched_write.
Qed.
Lemma keeps_update l o : P l = false → keeps id P (update l o).
Proof. intros Hl. unfold update. apply keeps_check, keeps_modify. intros d. by apply untouched_write. Qed.
Lemma keeps_remove l : P l = false → keeps id P (remove l).
Proof. intros Hl. unfold remove. apply keeps_check, keeps_modify. intros d. by apply untouched_delete. Qed.
Lemma keeps_remove_if_exists l : P l = false → keeps id P (remove_if_exists l).
Proof. intros Hl. unfold remove_if_exists. apply keeps_state_if; [by apply keeps_remove | apply keeps_ret]. Qed.
Lemma keeps_insert_object l o : P l = false → keeps id P (insert_object l o).
Proof.
  intros Hl. unfold insert_object. apply keeps_check, keeps_bind; [by apply keeps_initialize_file|].
  intros _. by apply keeps_update.
Qed.
Lemma keeps_copy l l' : P l' = false → keeps id P (copy l l').
Proof.
  intros Hl. unfold copy. do 2 apply keeps_check. apply keeps_bind; [apply keeps_gets|]. intros o.
  apply keeps_bind; [apply keeps_lift|]. intros o'.
  apply keeps_bind; [by apply keeps_initialize_file|]. intros _. by apply keeps_update.
Qed.
Lemma keeps_read l : keeps id P (read l).
Proof. apply keeps_reads. Qed.
Lemma keeps_with_writer l m : P l = false → keeps id P (with_writer l m).
Proof.
  intros Hl. unfold with_writer. apply keeps_bind; [apply keeps_gets|]. intros o.
  apply keeps_bind; [apply keeps_lift|]. intros data. destruct (m data) as [o' data'].
  apply keeps_bind; [|intros; apply keeps_lift]. apply keeps_modify. intros d. unfold write_mapped.
  destruct (files d !! path_of d l); [by apply untouched_write | simpl; reflexivity].
Qed.
End disk_operations.

#[export] Hint Resolve keeps_or_error keeps_initialize_file keeps_update keeps_remove
  keeps_remove_if_exists keeps_insert_object keeps_copy keeps_read keeps_with_writer : keeps.

(** The frame of the operation at the head of the goal. *)
Ltac keeps := solve [eauto 30 with keeps nocore].

(** ** The operations on the files of contributions *)

Section contribution_files.
Context `{TA : TimeApi, SE : !Serde, CR : Cryptography, SG : Signature} (P : Locator → bool).
Context (Pc : ∀ l, P (LContributionFile l) = false) (Ps : ∀ l, P (LContributionFileSignature l) = false).
#[local] Hint Resolve Pc Ps : keeps.

Lemma keeps_on_disk {A} (m : M CoordinatorError Disk A) : keeps id P m → keeps snd P (on_disk m).
Proof. intros Hm [r d]. specialize (Hm d). unfold on_disk, zoom. simpl. by destruct (m d). Qed.
Lemma keeps_on_round {A} (m : M CoordinatorError Round A) : keeps snd P (on_round m).
Proof. apply keeps_zoom. done. Qed.
#[local] Hint Resolve keeps_on_disk keeps_on_round : keeps.

Lemma keeps_round_try_lock_chunk env c p : keeps snd P (round_try_lock_chunk env c p).
Proof. unfold round_try_lock_chunk. keeps. Qed.

Lemma keeps_write_contribution_file_signature k c r n cl :
  keeps id P (write_contribution_file_signature k c r n (LContributionFileSignature cl)).
Proof. unfold write_contribution_file_signature. keeps. Qed.
#[local] Hint Resolve keeps_write_contribution_file_signature : keeps.

Lemma keeps_computation_run env k c r cl seed :
  keeps id P (computation_run env k c r (LContributionFileSignature cl) seed).
Proof. unfold computation_run. destruct r; keeps. Qed.

Lemma keeps_verification env c ch re cl : keeps id P (verification env c ch re (LContributionFile cl)).
Proof. unfold verification. keeps. Qed.
#[local] Hint Resolve keeps_verification : keeps.

Lemma keeps_verification_run env k h c id f : keeps Datatypes.id P (verification_run env k h c id f).
Proof. unfold verification_run. keeps. Qed.

Lemma keeps_initialization_run env h c : keeps id P (initialization_run env h c).
Proof. unfold initialization_run. unfold check_hash. keeps. Qed.

Lemma keeps_initialize_verifier_response_files env p c ls :
  keeps id P (initialize_verifier_response_files env p c ls).
Proof. unfold initialize_verifier_response_files. keeps. Qed.

Lemma keeps_remove_pending_files c ck r : keeps id P (remove_pending_files c ck r).
Proof. unfold remove_pending_files. keeps. Qed.
#[local] Hint Resolve keeps_remove_pending_files : keeps.

Lemma keeps_remove_locks_unsafe p cs : keeps snd P (remove_locks_unsafe p cs).
Proof. unfold remove_locks_unsafe, remove_lock. keeps. Qed.
End contribution_files.
