(* ===== verification/Coordinator.v ===== *)
(** * The coordinator

    [phase1-coordinator/src/coordinator.rs]: the operations of [Coordinator],
    which keep the state of the ceremony, the round and the files in step.  The
    round lives in the storage: every operation loads it, changes it and stores
    it again.  [now] is the reading of the time source; the callback after an
    aggregation only sees the finished contributors and is left out, as is
    logging. *)

From S2P Require Import Prelude Text Task Participant Errors Environment Phase1Parameters Contribution Locator Chunk Round ParticipantInfo RoundMetrics CoordinatorState Serde Storage RoundStorage Commands RoundTransition DropParticipant.

Record Coordinator := MkCoordinator {
  co_environment : Environment;
  storage : Disk;
  state : CoordinatorState;
}.

Definition set_storage (d : Disk) (c : Coordinator) : Coordinator :=
  MkCoordinator (co_environment c) d (state c).
Definition set_state (s : CoordinatorState) (c : Coordinator) : Coordinator :=
  MkCoordinator (co_environment c) (storage c) s.

Section coordinator.
Context `{HO : HashOrder, TA : TimeApi, SE : !Serde, CR : Cryptography, SG : Signature}.

Notation co A := (M CoordinatorError Coordinator A).

Definition on_storage {A} (m : M CoordinatorError Disk A) : co A := zoom storage set_storage m.
Definition on_state {A} (m : state_method A) : co A := zoom state set_state m.

(** [self.save_state()?] *)
Definition save_state : co unit := λ c,
  on_storage (update LCoordinatorState (OCoordinatorState (state c))) c.

(** ** Loading the round *)

Definition load_current_round_height (d : Disk) : outcome CoordinatorError N :=
  if disk_exists d LRoundHeight then
    try! o := get LRoundHeight d in
    match o with ORoundHeight h => Ok h | _ => Err StorageFailed end
  else Err RoundHeightNotSet.

Definition load_round (h : N) (d : Disk) : outcome CoordinatorError Round :=
  try! current := load_current_round_height d in
  if (h <=? current)%N then
    try! o := get (LRoundState h) d in
    match o with ORoundState r => Ok r | _ => Err StorageFailed end
  else Err RoundDoesNotExist.

Definition load_current_round (d : Disk) : outcome CoordinatorError Round :=
  try! h := load_current_round_height d in load_round h d.

Definition loading {A} (f : Disk → outcome CoordinatorError A) : co A := λ c, (f (storage c), c).

(** [get_round] parses the file without the checks of [get]. *)
Definition get_round (h : N) (d : Disk) : outcome CoordinatorError Round :=
  try! current := load_current_round_height d in
  if (h <=? current)%N then
    try! data := reader (LRoundState h) d in
    ok_or (round_from_slice data) JsonError
  else Err RoundDoesNotExist.

Definition stored_round_height (d : Disk) : outcome CoordinatorError N :=
  try! h := load_current_round_height d in
  if disk_exists d (LRoundState h) then Ok h else Err StorageFailed.

(** Storing the round under a height, with every failure reported as
    [StorageUpdateFailed]. *)
Definition store_round (h : N) (r : Round) : co unit :=
  on_storage (or_error StorageUpdateFailed (update (LRoundState h) (ORoundState r))).

(** A method of the loaded round that may also use the storage. *)
Definition with_round_and_disk {A} (r : Round) (m : M CoordinatorError (Round * Disk) A) : co (A * Round) := λ c,
  let '(o, (r, d)) := m (r, storage c) in
  (try! a := o in Ok (a, r), set_storage d c).

(** ** Queue, bans, manual lock *)

Definition add_to_queue (p : Participant) (ip : option IpAddr) (score : N) (now : Z) : co unit :=
  on_state (CoordinatorState.add_to_queue p ip score now) ;;; save_state.
Definition remove_from_queue (p : Participant) : co unit :=
  on_state (CoordinatorState.remove_from_queue p) ;;; save_state.
Definition unban_participant (p : Participant) : co unit :=
  on_state (modify (DropParticipant.unban_participant p)) ;;; save_state.
Definition enable_manual_lock : co unit :=
  on_state (modify CoordinatorState.enable_manual_lock) ;;; save_state.
Definition disable_manual_lock : co unit :=
  on_state (modify CoordinatorState.disable_manual_lock) ;;; save_state.
Definition heartbeat (p : Participant) (now : Z) : co unit :=
  on_state (CoordinatorState.heartbeat p now).

(** ** Resetting and dropping *)

Definition reset_round_storage (action : ResetCurrentRoundStorageAction) : co unit :=
  let! h := loading load_current_round_height in
  let! r := loading (load_round h) in
  let r := round_reset (remove_participants action) r in
  on_storage (process (Update (LRoundState (rd_height r)) (ORoundState r))) ;;;
  on_storage (process (ClearRoundFiles h)) ;;;
  if rollback action then
    bail_if (λ _, (h =? 0)%N) with RoundHeightIsZero ;;;
    on_storage (remove (LRoundState h)) ;;;
    on_storage (update LRoundHeight (ORoundHeight (u64_sub h 1)))
  else ret tt.

Definition reset_round (now : Z) : co unit :=
  let! action := on_state (reset_current_round true now) in
  save_state ;;;
  reset_round_storage action.

Definition drop_participant_from_storage (drop : DropParticipant) : co unit :=
  match drop with
  | DropQueue _ => ret tt
  | DropCurrent _ (ResetCurrentRound action) => reset_round_storage action
  | DropCurrent _ (ReplaceContributor action) =>
      let! r := loading load_current_round in
      let! result := with_round_and_disk r
        (remove_contributor_unsafe (dropped_contributor action) (replaced_locked_chunks action)
           (replaced_tasks action) ;;;
         on_round (round_add_replacement (replacement_contributor action))) in
      let r := result.2 in
      on_storage (update (LRoundState (rd_height r)) (ORoundState r))
  end.

Definition drop_participant (p : Participant) (now : Z) : co unit :=
  let! drop := on_state (DropParticipant.drop_participant p now) in
  drop_participant_from_storage drop ;;;
  save_state.

Definition ban_participant (p : Participant) (now : Z) : co unit :=
  let! drop := on_state (DropParticipant.ban_participant p now) in
  drop_participant_from_storage drop ;;;
  save_state.

Definition rollback_locked_task (p : Participant) (t : Task) (now : Z) : co unit :=
  on_state (CoordinatorState.rollback_locked_task p t now) ;;;
  save_state ;;;
  let! r := loading load_current_round in
  let! result := with_round_and_disk r (remove_locks_unsafe p [chunk_id t]) in
  let! h := loading stored_round_height in
  on_storage (process (Update (LRoundState h) (ORoundState result.2))).

(** ** Locking a chunk *)

(** The checks that the round still accepts work. *)
Definition check_round_open : co unit :=
  bail_if (λ c, is_current_round_finished (state c)) with CurrentRoundFinished ;;;
  bail_if (λ c, is_current_round_aggregating (state c)) with CurrentRoundAggregating ;;;
  bail_if (λ c, is_current_round_aggregated (state c)) with CurrentRoundAggregated ;;;
  ret tt.

Definition try_lock_chunk (chunk_id : N) (p : Participant) : co LockedLocators :=
  bail_if (λ c, (number_of_chunks (co_environment c) <? chunk_id)%N) with ChunkIdInvalid ;;;
  let! h := loading load_current_round_height in
  let! r := loading load_current_round in
  let! env := gets co_environment in
  let! result := with_round_and_disk r (round_try_lock_chunk env chunk_id p) in
  store_round h result.2 ;;;
  ret result.1.

Definition try_lock (p : Participant) (now : Z) : co (N * LockedLocators) :=
  bail_if (λ _, is_verifier p) with ExpectedContributor ;;;
  bail_if (λ c, negb (is_current_contributor p (state c))) with ParticipantUnauthorized ;;;
  check_round_open ;;;
  let! task := on_state (fetch_task p now) in
  let! r := loading load_current_round in
  let! chunk := lift (round_chunk r (chunk_id task)) in
  if (u64_add (current_contribution_id chunk) 1 <? contribution_id task)%N then
    on_state (rollback_pending_task p task now) ;;;
    fail (PreviousContributionMissing task)
  else λ c,
    match try_lock_chunk (chunk_id task) p c with
    | (Ok locators, c) =>
        (on_state (CoordinatorState.acquired_lock p (chunk_id task) now) ;;;
         save_state ;;;
         ret (chunk_id task, locators)) c
    | (Err e, c) =>
        (on_state (rollback_pending_task p task now) ;;;
         save_state ;;;
         fail e) c
    | (Panic, c) => (Panic, c)
    end.
End coordinator.
