(* ===== verification/RoundStore.v ===== *)
(** * The round in the storage

    The coordinator keeps the running round in its files only.  [holds h r d]
    says that the files hold round [r] at height [h]; storing a round and
    loading it again, and what the other operations on the files leave of it. *)

From S2P Require Import Prelude Text Task Participant Errors Environment Phase1Parameters Contribution Locator Chunk Round Board ParticipantInfo RoundMetrics CoordinatorState Serde Storage RoundStorage Commands RoundTransition DropParticipant Frame Coordinator.
From Stdlib Require Import Ascii.

(** ** Rounds whose JSON can be read back *)

Lemma elem_of_option_list {A} (a : A) o : a ∈ option_list o ↔ o = Some a.
Proof. destruct o; simpl; rewrite ?list_elem_of_singleton, ?elem_of_nil; naive_solver. Qed.

Definition chunk_readable (c : Chunk) : Prop := ∀ p, p ∈ chunk_participants c → readable p.

Lemma elem_of_chunk_participants p c :
  p ∈ chunk_participants c ↔ lock_holder c = Some p ∨
    ∃ i k, contributions c !! i = Some k ∧ (contributor_id k = Some p ∨ verifier_id k = Some p).
Proof.
  unfold chunk_participants. rewrite elem_of_app, elem_of_option_list, list_elem_of_bind. split.
  - intros [?|(k & Hp & Hk)]; [by left | right].
    apply list_elem_of_fmap in Hk as ([i k'] & -> & Hk%elem_of_map_to_list).
    rewrite elem_of_app, !elem_of_option_list in Hp. eauto.
  - intros [?|(i & k & Hk & Hp)]; [by left | right]. exists k.
    rewrite elem_of_app, !elem_of_option_list. split; [done|].
    apply list_elem_of_fmap. exists (i, k). by rewrite elem_of_map_to_list.
Qed.

Lemma elem_of_round_participants p r :
  p ∈ round_participants r ↔ p ∈ contributor_ids r ∨ p ∈ verifier_ids r ∨
    ∃ i c, chunks r !! i = Some c ∧ p ∈ chunk_participants c.
Proof.
  unfold round_participants. rewrite !elem_of_app, list_elem_of_bind. do 2 apply or_iff_compat_l. split.
  - intros (c & Hp & [i Hc]%list_elem_of_lookup_1). eauto.
  - intros (i & c & Hc%list_elem_of_lookup_2 & Hp). eauto.
Qed.

Lemma round_readable_alt r :
  round_readable r ↔ (∀ p, p ∈ contributor_ids r → readable p) ∧ (∀ p, p ∈ verifier_ids r → readable p) ∧
    ∀ i c, chunks r !! i = Some c → chunk_readable c.
Proof.
  unfold round_readable, chunk_readable. split.
  - intros H. split_and!; intros; apply H, elem_of_round_participants; eauto 8.
  - intros (? & ? & H) p [?|[?|(i & c & ? & ?)]]%elem_of_round_participants; eauto.
Qed.

(** ** The round a coordinator works on *)

Definition holders_are_members (r : Round) : Prop :=
  ∀ i c p, chunks r !! i = Some c → lock_holder c = Some p → p ∈ contributor_ids r.

(** A running round of [n] chunks at height [h]. *)
Record running (n : nat) (h : N) (r : Round) : Prop := {
  running_wf : round_wf n r;
  running_readable : round_readable r;
  running_height : rd_height r = h;
  running_range : (h < u64_modulus)%N;
  running_holders : holders_are_members r;
}.

Lemma expected_range r : (expected_number_of_contributions r < u64_modulus)%N.
Proof. apply u64_add_bound. Qed.

Lemma running_contributor n h r p : running n h r → p ∈ contributor_ids r → is_contributor p = true.
Proof.
  intros Hr Hp. pose proof (round_contributors_contribute _ _ (running_wf _ _ _ Hr)) as Hf.
  rewrite Forall_forall in Hf. auto.
Qed.

Lemma running_holder n h r c ck p :
  running n h r → round_chunk r c = Ok ck → lock_holder ck = Some p → p ∈ contributor_ids r.
Proof.
  intros Hr Hc Hp. apply (round_chunk_lookup n) in Hc; [|apply Hr]. by eapply running_holders.
Qed.

Lemma running_chunk_wf n h r c ck :
  running n h r → round_chunk r c = Ok ck → chunk_wf (expected_number_of_contributions r) ck.
Proof.
  intros Hr Hc. apply (round_chunk_lookup n) in Hc; [|apply Hr]. eapply round_chunks_wf; [apply Hr | done].
Qed.

(** Replacing a chunk. *)
Definition set_chunk (id : N) (c : Chunk) (r : Round) : Round :=
  set_chunks (<[N.to_nat id := c]> (chunks r)) r.

Lemma running_set_chunk n h r id ck ck' :
  running n h r → round_chunk r id = Ok ck → ck_chunk_id ck' = ck_chunk_id ck →
  chunk_wf (expected_number_of_contributions r) ck' →
  (∀ p, p ∈ chunk_participants ck' → p ∈ chunk_participants ck ∨ readable p) →
  (∀ p, lock_holder ck' = Some p → p ∈ contributor_ids r) →
  running n h (set_chunk id ck' r).
Proof.
  intros [Hwf Hread Hh Hrange Hhold] Hc Hid Hck Hp Hl. split; try done.
  - by eapply round_wf_update.
  - rewrite round_readable_alt in Hread |- *. destruct Hread as (? & ? & Hcs). split_and!; [done..|].
    intros i c Hi p Hin. apply (round_chunk_lookup n) in Hc; [|done].
    apply list_lookup_insert_Some in Hi as [(<- & <- & _)|[_ Hi]]; [|by eapply Hcs].
    destruct (Hp p Hin); [by eapply Hcs | done].
  - intros i c p Hi Hlock. apply list_lookup_insert_Some in Hi as [(<- & <- & _)|[_ Hi]]; eauto.
Qed.

Lemma board_set_chunk id c r : board (set_chunk id c r) = <[N.to_nat id := cell_of c]> (board r).
Proof. unfold board. simpl. apply list_fmap_insert. Qed.

Lemma board_lookup n h r id c :
  running n h r → round_chunk r id = Ok c → board r !! N.to_nat id = Some (cell_of c).
Proof.
  intros Hr Hc%(round_chunk_lookup n); [|apply Hr]. unfold board. by rewrite list_lookup_fmap, Hc.
Qed.

(** Finishing the round, and rounding its instants, is invisible. *)
Lemma running_ext n h r r' :
  chunks r' = chunks r → contributor_ids r' = contributor_ids r → verifier_ids r' = verifier_ids r →
  rd_height r' = rd_height r → running n h r → running n h r'.
Proof.
  destruct r, r'; simpl. intros -> -> -> -> [Hwf Hread Hh Hrange Hhold].
  split; try done. by destruct Hwf; split.
Qed.

Lemma try_finish_frame now r :
  chunks (try_finish now r) = chunks r ∧ contributor_ids (try_finish now r) = contributor_ids r ∧
  verifier_ids (try_finish now r) = verifier_ids r ∧ rd_height (try_finish now r) = rd_height r.
Proof. unfold try_finish. by case_match. Qed.

Section round_store.
Context `{HO : HashOrder, TA : TimeApi, SE : !Serde, CR : Cryptography, SG : Signature}.

Record holds (h : N) (r : Round) (d : Disk) : Prop := {
  held_height : load_current_round_height d = Ok h;
  held_round : load_round h d = Ok r;
}.

Lemma holds_current h r d : holds h r d → load_current_round d = Ok r.
Proof. intros [Hh Hr]. unfold load_current_round. by rewrite Hh. Qed.

(** The files that hold the round. *)
Definition round_record (l : Locator) : bool :=
  match l with LRoundHeight | LRoundState _ => true | _ => false end.

Lemma load_untouched d d' h :
  untouched round_record d d' →
  load_current_round_height d' = load_current_round_height d ∧ load_round h d' = load_round h d.
Proof.
  intros [Hb He Hs]. pose proof (get_frame _ _ _ Hb He (Hs LRoundHeight eq_refl)) as H1.
  pose proof (get_frame _ _ _ Hb He (Hs (LRoundState h) eq_refl)) as H2.
  assert (load_current_round_height d' = load_current_round_height d) as Heq.
  { unfold load_current_round_height. rewrite H1, !disk_exists_stored. by rewrite Hs. }
  split; [done|]. unfold load_round. by rewrite Heq, H2.
Qed.

Lemma holds_untouched h r d d' : untouched round_record d d' → holds h r d → holds h r d'.
Proof. intros (Hh & Hr)%(load_untouched _ _ h) [??]. split; congruence. Qed.

Lemma load_round_inv h d r :
  load_round h d = Ok r →
  (∃ current, load_current_round_height d = Ok current ∧ (h <= current)%N) ∧
  is_some (stored d (LRoundState h)) = true.
Proof.
  unfold load_round. intros (current & -> & H)%bind_outcome_ok.
  destruct (N.leb_spec h current); [|done]. split; [eauto|].
  unfold get in H. unfold stored. by destruct (files d !! path_of d (LRoundState h)).
Qed.

Definition other_than (l : Locator) : Locator → bool := λ l', negb (bool_decide (l' = l)).

Lemma untouched_other d l data :
  untouched (other_than l) d (set_files (<[path_of d l := data]> (files d)) d).
Proof. apply untouched_write. unfold other_than. by rewrite bool_decide_eq_true_2. Qed.

(** Storing a round replaces the round held. *)
Lemma update_round_holds h r0 r c :
  holds h r0 (storage c) → round_readable r →
  ∃ d, on_storage (update (LRoundState h) (ORoundState r)) c = (Ok tt, set_storage d c) ∧
       holds h (stored_round r) d ∧ untouched (other_than (LRoundState h)) (storage c) d.
Proof.
  intros [Hh Hr] Hread. destruct (load_round_inv _ _ _ Hr) as [(current & Hcur & Hle) Hex].
  set (d := set_files (<[path_of (storage c) (LRoundState h) := object_to_bytes (ORoundState r)]>
                         (files (storage c))) (storage c)).
  assert (untouched (other_than (LRoundState h)) (storage c) d) as Hu by apply untouched_other.
  exists d. split; [|split; [|done]].
  - unfold on_storage, zoom.
    rewrite (proj2 (update_ok (LRoundState h) (ORoundState r) (storage c) tt d)) by done. done.
  - assert (get LRoundHeight d = get LRoundHeight (storage c)) as Hg by (apply get_frame; [done..|]; by apply Hu).
    assert (load_current_round_height d = Ok h) as Hh'.
    { rewrite <-Hh. unfold load_current_round_height. rewrite Hg, !disk_exists_stored.
      by rewrite (untouched_stored _ _ _ Hu). }
    split; [done|]. unfold load_round. rewrite Hh'. cbn [bind_outcome]. rewrite N.leb_refl.
    rewrite (get_stored d (LRoundState h) (object_to_bytes (ORoundState r)) (ORoundState r)
      (ORoundState (stored_round r))); [done| |done|by constructor].
    unfold d. rewrite stored_insert. by rewrite decide_True.
Qed.

(** The round the files of a coordinator hold. *)
Definition loaded (c : Coordinator) : Round :=
  match load_current_round (storage c) with Ok r => r | _ => MkRound 0 0 None None [] [] [] end.

(** A state whose files hold a running round. *)
Definition runs (n : nat) (h : N) (r : Round) (c : Coordinator) : Prop :=
  running n h r ∧ holds h r (storage c).

Lemma running_stored n h r : running n h r → running n h (stored_round r).
Proof. by apply running_ext. Qed.

Lemma runs_untouched n h r c c' :
  untouched round_record (storage c) (storage c') → runs n h r c → runs n h r c'.
Proof. intros Hu [??]. split; [done|]. by eapply holds_untouched. Qed.

(** Storing a changed round. *)
Lemma runs_store n h r0 r c :
  runs n h r0 c → running n h r →
  ∃ d, on_storage (update (LRoundState h) (ORoundState r)) c = (Ok tt, set_storage d c) ∧
       runs n h (stored_round r) (set_storage d c).
Proof.
  intros [_ Hh] Hr. destruct (update_round_holds h r0 r c Hh) as (d & Hd & Hh' & _); [apply Hr|].
  exists d. split; [done|]. split; [by apply running_stored | done].
Qed.

Lemma store_round_update h r c d :
  on_storage (update (LRoundState h) (ORoundState r)) c = (Ok tt, set_storage d c) →
  store_round h r c = (Ok tt, set_storage d c).
Proof.
  unfold store_round, on_storage, zoom, or_error.
  destruct (update _ _ (storage c)) as [o d'] eqn:E. by intros [= -> ->].
Qed.
Lemma process_update h r c d :
  on_storage (update (LRoundState h) (ORoundState r)) c = (Ok tt, set_storage d c) →
  on_storage (process (Update (LRoundState h) (ORoundState r))) c = (Ok tt, set_storage d c).
Proof.
  unfold on_storage, zoom, process. destruct (update _ _ (storage c)) as [o d'] eqn:E.
  by intros [= -> ->].
Qed.

(** Loading in a coordinator that runs a round. *)
Lemma bind_loading_height n h r c {A} (k : N → M CoordinatorError Coordinator A) :
  runs n h r c → bind (loading load_current_round_height) k c = k h c.
Proof. intros [_ [Hh _]]. unfold bind, loading. by rewrite Hh. Qed.
Lemma bind_loading_current n h r c {A} (k : Round → M CoordinatorError Coordinator A) :
  runs n h r c → bind (loading load_current_round) k c = k r c.
Proof. intros [_ Hh]. unfold bind, loading. by erewrite holds_current. Qed.
Lemma bind_loading_round n h r c {A} (k : Round → M CoordinatorError Coordinator A) :
  runs n h r c → bind (loading (load_round h)) k c = k r c.
Proof. intros [_ [_ Hr]]. unfold bind, loading. by rewrite Hr. Qed.

(** The frames of the coordinator's own steps. *)
Lemma keeps_on_state {A} P (m : state_method A) : keeps storage P (on_state m).
Proof. by apply keeps_zoom. Qed.
Lemma keeps_on_storage {A} P (m : M CoordinatorError Disk A) : keeps id P m → keeps storage P (on_storage m).
Proof. intros Hm c. specialize (Hm (storage c)). unfold on_storage, zoom. by destruct (m (storage c)). Qed.
Lemma keeps_save_state P : P LCoordinatorState = false → keeps storage P save_state.
Proof.
  intros HP c. unfold save_state. apply (keeps_on_storage P (update LCoordinatorState _)).
  by apply keeps_update.
Qed.
Lemma keeps_loading {A} P (f : Disk → outcome CoordinatorError A) : keeps storage P (loading f).
Proof. apply (keeps_reads storage P (λ c, f (storage c))). Qed.
Lemma keeps_check_round_open P : keeps storage P check_round_open.
Proof. unfold check_round_open. do 3 apply keeps_check. apply keeps_ret. Qed.
End round_store.

#[export] Hint Resolve keeps_on_state keeps_on_storage keeps_save_state keeps_loading keeps_check_round_open : keeps.
