(* ===== verification/Contributing.v ===== *)
(** * Contributing and verifying

    The operations of [phase1-coordinator/src/coordinator.rs] that accept the
    work of contributors and verifiers: the files are checked against the hash
    chain and the signatures before the round and the state record the work.
    The last section has the operator's shortcuts that also do the work. *)

From S2P Require Import Prelude Text Task Participant Errors Environment Phase1Parameters Contribution Locator Chunk Round ParticipantInfo RoundMetrics CoordinatorState Serde Storage RoundStorage Commands RoundTransition DropParticipant Coordinator.
From Stdlib Require Import Ascii.

Section contributing.
Context `{HO : HashOrder, TA : TimeApi, SE : !Serde, CR : Cryptography, SG : Signature}.

Notation co A := (M CoordinatorError Coordinator A).

(** ** The checks on the files *)

(** The response starts with the hash of its challenge; returns the hashes of
    both. *)
Definition check_hash_chain (challenge response : Locator) (d : Disk)
    : outcome CoordinatorError (bytes * bytes) :=
  try! challenge_data := reader challenge d in
  try! response_data := reader response d in
  if (length response_data <? 64)%nat then Err StorageReaderFailed
  else if negb (bool_decide (take 64 response_data = calculate_hash challenge_data))
  then Err ContributionHashMismatch
  else Ok (calculate_hash challenge_data, calculate_hash response_data).

(** The text before the first dot of the participant. *)
Definition signing_address (p : Participant) : string :=
  match split "."%char (participant_to_string p) with a :: _ => a | [] => ""%string end.

(** [hex::decode(signed)? != hash] *)
Definition check_signed_hash (signed : string) (hash : bytes) : outcome CoordinatorError unit :=
  try! decoded := ok_or (hex_decode signed) Hex in
  if bool_decide (decoded = hash) then Ok tt else Err ContributionHashMismatch.

(** The stored signature, verified for the participant and the two hashes. *)
Definition check_signature (l : ContributionSignatureLocator) (p : Participant) (invalid : CoordinatorError)
    (challenge response : bytes) (d : Disk) : outcome CoordinatorError ContributionFileSignature :=
  try! data := reader (LContributionFileSignature l) d in
  try! s := ok_or (signature_from_slice data) JsonError in
  if negb (verify_signature (signing_address p) (contribution_state_json (cfs_state s)) (cfs_signature s))
  then Err invalid
  else
    try! _ := check_signed_hash (challenge_hash (cfs_state s)) challenge in
    try! _ := check_signed_hash (response_hash (cfs_state s)) response in
    Ok s.

(** ** Contributions *)

Definition accept_contribution (h chunk_id id current : N) (p : Participant) (d : Disk)
    : outcome CoordinatorError unit :=
  let response := MkContributionLocator h chunk_id id false in
  try! hashes := check_hash_chain (LContributionFile (MkContributionLocator h chunk_id current true))
                   (LContributionFile response) d in
  try! s := check_signature (MkContributionSignatureLocator h chunk_id id false) p
              ContributorSignatureInvalid hashes.1 hashes.2 d in
  if is_some (next_challenge_hash (cfs_state s)) then Err NextChallengeHashAlreadyExists else Ok tt.

Definition add_contribution (chunk_id : N) (p : Participant) : co (ContributionLocator * N) :=
  let! h := loading load_current_round_height in
  let! r := loading load_current_round in
  bail_if (λ _, negb (round_is_contributor r p)) with UnauthorizedChunkContributor ;;;
  bail_if (λ _, negb (is_chunk_locked_by r chunk_id p)) with ChunkNotLockedOrByWrongParticipant ;;;
  let expected := expected_number_of_contributions r in
  let! chunk := lift (round_chunk r chunk_id) in
  let! id := lift (next_contribution_id chunk expected) in
  bail_if (λ _, negb (is_next_contribution_id chunk id expected)) with ContributionIdMismatch ;;;
  let! _ := loading (accept_contribution h chunk_id id (current_contribution_id chunk) p) in
  let! b := gets (λ c, base (storage c)) in
  let response := MkContributionLocator h chunk_id id false in
  let signature := MkContributionSignatureLocator h chunk_id id false in
  let '(o, r) := with_chunk chunk_id
    (Chunk.add_contribution id p (to_path b (LContributionFile response))
       (to_path b (LContributionFileSignature signature))) r in
  let! _ := lift o in
  store_round h r ;;;
  ret (response, id).

(** A contribution to a chunk whose task was disposed of is thrown away. *)
Definition dispose_contribution (h chunk_id : N) (p : Participant) (t : Task) (now : Z) : co ContributionLocator :=
  on_state (disposed_task p t now) ;;;
  let response := MkContributionLocator h chunk_id (contribution_id t) false in
  on_storage (remove (LContributionFile response)) ;;;
  save_state ;;;
  let! r := loading load_current_round in
  let '(o, r) := with_chunk chunk_id (modify (set_lock_holder_unsafe None)) r in
  let! _ := lift o in
  on_storage (update (LRoundState (rd_height r)) (ORoundState r)) ;;;
  ret response.

Definition try_contribute (p : Participant) (chunk_id : N) (now : Z) : co ContributionLocator :=
  bail_if (λ _, negb (is_contributor p)) with ExpectedContributor ;;;
  bail_if (λ c, (number_of_chunks (co_environment c) <? chunk_id)%N) with ChunkIdInvalid ;;;
  bail_if (λ c, negb (is_current_contributor p (state c))) with ParticipantUnauthorized ;;;
  check_round_open ;;;
  let! h := loading load_current_round_height in
  let! disposing := gets (λ c, lookup_disposing_task p chunk_id (state c)) in
  let! disposing := lift disposing in
  match disposing with
  | Some t => dispose_contribution h chunk_id p t now
  | None =>
      let! pending := gets (λ c, lookup_pending_task p chunk_id (state c)) in
      let! pending := lift pending in
      match pending with
      | None => fail ContributionFailed
      | Some t => λ c,
          match add_contribution chunk_id p c with
          | (Ok (locator, id), c) =>
              (on_state (CoordinatorState.completed_task p (MkTask chunk_id id) now) ;;;
               save_state ;;;
               ret locator) c
          | (Err e, c) =>
              (on_storage (remove (LContributionFile (MkContributionLocator h chunk_id (contribution_id t) false))) ;;;
               fail e) c
          | (Panic, c) => (Panic, c)
          end
      end
  end.

(** ** Verifications *)

Definition accept_verification (h chunk_id id : N) (is_final : bool) (p : Participant) (d : Disk)
    : outcome CoordinatorError unit :=
  try! hashes := check_hash_chain
    (LContributionFile (MkContributionLocator h chunk_id (u64_sub id 1) true))
    (LContributionFile (MkContributionLocator h chunk_id id false)) d in
  try! next := reader (LContributionFile (challenge_after h chunk_id id is_final)) d in
  try! saved := first_chunk next in
  if negb (bool_decide (hashes.2 = saved)) then Err ContributionHashMismatch else
  try! s := check_signature (signature_after h chunk_id id is_final) p VerifierSignatureInvalid
              hashes.1 hashes.2 d in
  try! signed := ok_or (next_challenge_hash (cfs_state s)) NextChallengeHashMissing in
  check_signed_hash signed (calculate_hash next).

Definition verify_contribution (t : Task) (p : Participant) (now : Z) : co N :=
  let c := chunk_id t in
  bail_if (λ _, negb (is_verifier p)) with ExpectedVerifier ;;;
  let! h := loading load_current_round_height in
  let! r := loading load_current_round in
  let! chunk := lift (round_chunk r c) in
  let id := current_contribution_id chunk in
  bail_if (λ _, negb (id =? contribution_id t)%N) with ContributionIdMismatch ;;;
  let is_final := only_contributions_complete chunk (expected_number_of_contributions r) in
  let! _ := loading (accept_verification h c id is_final p) in
  let! b := gets (λ c, base (storage c)) in
  let '(o, r) := round_verify_contribution c id p
    (to_path b (LContributionFile (challenge_after h c id is_final)))
    (to_path b (LContributionFileSignature (signature_after h c id is_final))) now r in
  let! _ := lift o in
  store_round h r ;;;
  ret id.

Definition try_verify (p : Participant) (t : Task) (now : Z) : co unit :=
  bail_if (λ _, negb (is_verifier p)) with ExpectedVerifier ;;;
  bail_if (λ c, (number_of_chunks (co_environment c) <? chunk_id t)%N) with ChunkIdInvalid ;;;
  check_round_open ;;;
  (λ c,
    match verify_contribution t p now c with
    | (Ok id, c) =>
        (bail_if (λ _, negb (id =? contribution_id t)%N) with ContributionIdMismatch ;;;
         on_state (CoordinatorState.completed_task p t now) ;;;
         save_state) c
    | (Err e, c) =>
        (let! r := loading load_current_round in
         let is_final := (contribution_id t =? u64_sub (expected_number_of_contributions r) 1)%N in
         on_storage (remove_if_exists
           (LContributionFile (challenge_after (rd_height r) (chunk_id t) (contribution_id t) is_final))) ;;;
         fail e) c
    | (Panic, c) => (Panic, c)
    end).

Definition get_chunk_locators (p : Participant) (chunk_id contribution_id : N) : co LockedLocators :=
  bail_if (λ _, negb (is_verifier p)) with ExpectedVerifier ;;;
  let! r := loading load_current_round in
  λ c, (get_chunk_locators_for_verifier p chunk_id contribution_id (r, storage c), c).

Definition initialize_response_files (p : Participant) (chunk_id : N) (locators : LockedLocators) : co unit :=
  bail_if (λ _, negb (is_verifier p)) with ExpectedVerifier ;;;
  let! _ := loading load_current_round in
  let! env := gets co_environment in
  on_storage (initialize_verifier_response_files env p chunk_id locators).

(** ** The operator's shortcuts *)

Definition run_computation (h chunk_id id : N) (p : Participant) (signing_key : string) (seed : bytes)
    : co unit :=
  bail_if (λ c, (number_of_chunks (co_environment c) <? chunk_id)%N) with ChunkIdInvalid ;;;
  bail_if (λ _, (id =? 0)%N) with ContributionIdMustBeNonzero ;;;
  bail_if (λ _, negb (is_contributor p)) with ExpectedContributor ;;;
  let! r := loading (load_round h) in
  bail_if (λ _, negb (is_chunk_locked_by r chunk_id p)) with ChunkNotLockedOrByWrongParticipant ;;;
  let! chunk := lift (round_chunk r chunk_id) in
  bail_if (λ _, is_ok (get_contribution chunk id)) with ContributionShouldNotExist ;;;
  let! env := gets co_environment in
  on_storage (or_error Error (computation_run env signing_key
    (LContributionFile (MkContributionLocator h chunk_id (u64_sub id 1) true))
    (LContributionFile (MkContributionLocator h chunk_id id false))
    (LContributionFileSignature (MkContributionSignatureLocator h chunk_id id false)) seed)).

Definition run_verification (h : N) (t : Task) (p : Participant) (signing_key : string) : co LocatorPath :=
  let c := chunk_id t in
  let id := contribution_id t in
  bail_if (λ co, (number_of_chunks (co_environment co) <? c)%N) with ChunkIdInvalid ;;;
  bail_if (λ _, (id =? 0)%N) with ContributionIdMustBeNonzero ;;;
  bail_if (λ _, negb (is_verifier p)) with ExpectedContributor ;;;
  let! r := loading (load_round h) in
  bail_if (λ co, negb (disk_exists (storage co) (LContributionFile (MkContributionLocator h c id false))))
    with ContributionLocatorMissing ;;;
  let! chunk := lift (round_chunk r c) in
  let! k := lift (get_contribution chunk id) in
  bail_if (λ _, verified k) with ContributionAlreadyVerified ;;;
  let is_final := only_contributions_complete chunk (expected_number_of_contributions r) in
  let! env := gets co_environment in
  on_storage (verification_run env signing_key h c id is_final) ;;;
  let verified_file := LContributionFile (challenge_after h c id is_final) in
  bail_if (λ co, negb (disk_exists (storage co) verified_file)) with ContributionLocatorMissing ;;;
  gets (λ co, path_of (storage co) verified_file).

Definition contribute (p : Participant) (signing_key : string) (seed : bytes) (now : Z) : co unit :=
  let! locked := try_lock p now in
  let response := next_contribution locked.2 in
  let task := MkTask (cl_chunk_id response) (cl_contribution_id response) in
  let! info := gets (λ c, current_participant_info p (state c)) in
  (* unwrap *)
  let! info := lift (match info with Some i => Ok i | None => Panic end) in
  bail_if (λ _, is_nil (pending_tasks info)) with ContributorPendingTasksCannotBeEmpty p ;;;
  bail_if (λ _, negb (contains (pending_tasks info) task)) with PendingTasksMustContainResponseTask task ;;;
  run_computation (cl_round_height response) (cl_chunk_id response) (cl_contribution_id response)
    p signing_key seed ;;;
  try_contribute p (cl_chunk_id response) now ;;;
  ret tt.

(** [verify] reports its errors through [anyhow]. *)
Definition verify (p : Participant) (signing_key : string) (t : Task) (now : Z) : co unit :=
  let! h := loading stored_round_height in
  run_verification h t p signing_key ;;;
  try_verify p t now.
End contributing.
