(* ===== verification/Ceremony.v ===== *)
(** * The course of the ceremony

    The operations of [phase1-coordinator/src/coordinator.rs] that start the
    ceremony, aggregate a round, advance to the next one, and [update], the
    coordinator's periodic pass over everything. *)

From S2P Require Import Prelude Text Task Participant Errors Environment Phase1Parameters Contribution Locator Chunk Round ParticipantInfo RoundMetrics CoordinatorState Serde Storage RoundStorage Commands RoundTransition DropParticipant Frame Board Coordinator RoundStore.

Section ceremony.
Context `{HO : HashOrder, TA : TimeApi, SE : !Serde, CR : Cryptography, SG : Signature}.

Notation co A := (M CoordinatorError Coordinator A).

(** ** Initialization *)

(** [Coordinator::new], from what the file system holds. *)
Definition coordinator_new (env : Environment) (existing : gmap LocatorPath bytes) (dirs : gset string)
    : outcome CoordinatorError Coordinator :=
  let '(o, d) := disk_load env existing dirs in
  try! _ := o in
  try! object := get LCoordinatorState d in
  match object with
  | OCoordinatorState s => Ok (MkCoordinator env d s)
  | _ => Err StorageFailed
  end.

Definition initialize_chunk (env : Environment) (h chunk_id : N) : M CoordinatorError Disk unit :=
  let current := LContributionFile (MkContributionLocator h chunk_id 0 true) in
  let next := LContributionFile (MkContributionLocator (u64_add h 1) chunk_id 0 true) in
  bail_if (λ d, disk_exists d current) with ContributionLocatorAlreadyExists ;;;
  bail_if (λ d, disk_exists d next) with ContributionLocatorAlreadyExists ;;;
  or_error Error (initialization_run env h chunk_id) ;;;
  bail_if (λ d, negb (disk_exists d current)) with ContributionLocatorMissing ;;;
  bail_if (λ d, negb (disk_exists d next)) with ContributionLocatorMissing ;;;
  ret tt.

Definition run_initialization (started now : Z) : co N :=
  bail_if (λ c, is_ok (load_current_round_height (storage c))) with RoundAlreadyInitialized ;;;
  let h := 0%N in
  bail_if (λ c, disk_exists (storage c) (LRoundState h)) with RoundShouldNotExist ;;;
  bail_if (λ c, disk_exists (storage c) (LRoundState (u64_add h 1))) with RoundShouldNotExist ;;;
  let! env := gets co_environment in
  let! b := gets (λ c, base (storage c)) in
  let! r := lift (round_new env b h started []) in
  on_storage (for_each (initialize_chunk env h) (u64_range 0 (number_of_chunks env))) ;;;
  let r := try_finish now r in
  on_storage (insert_object (LRoundState h) (ORoundState r)) ;;;
  on_storage (insert_object LRoundHeight (ORoundHeight h)) ;;;
  ret h.

(** [Coordinator::initialize] *)
Definition coordinator_initialize (now : Z) : co unit :=
  bail_if (λ c, match deployment (co_environment c) with Production => negb is_secure | _ => false end)
    with SignatureSchemeIsInsecure ;;;
  let! height := gets (λ c, load_current_round_height (storage c)) in
  (if is_ok height then ret tt
   else
     let! h := run_initialization now now in
     on_state (modify (RoundTransition.initialize h)) ;;;
     save_state) ;;;
  let! _ := loading stored_round_height in
  let! _ := loading load_current_round in
  ret tt.

(** ** Aggregation *)

(** The last response and the last verified file of a chunk exist. *)
Definition final_files_exist (h last chunk_id : N) : M CoordinatorError Disk unit :=
  bail_if (λ d, negb (disk_exists d (LContributionFile (MkContributionLocator h chunk_id last false))))
    with ContributionMissing ;;;
  bail_if (λ d, negb (disk_exists d (LContributionFile (MkContributionLocator (u64_add h 1) chunk_id 0 true))))
    with ContributionMissing ;;;
  ret tt.

Definition aggregate_contributions : co unit :=
  let! h := loading load_current_round_height in
  bail_if (λ _, (h =? 0)%N) with RoundDoesNotExist ;;;
  bail_if (λ c, negb (disk_exists (storage c) (LRoundState h))) with RoundStateMissing ;;;
  bail_if (λ c, disk_exists (storage c) (LRoundState (u64_add h 1))) with RoundShouldNotExist ;;;
  on_storage (remove_if_exists (LRoundFile h)) ;;;
  let! r := loading load_current_round in
  let! env := gets co_environment in
  on_storage (for_each (final_files_exist h (u64_sub (expected_number_of_contributions r) 1))
                (u64_range 0 (number_of_chunks env))) ;;;
  bail_if (λ _, negb (round_is_complete r)) with RoundNotComplete ;;;
  on_storage (or_error Error (aggregation_run env r)) ;;;
  bail_if (λ c, negb (disk_exists (storage c) (LRoundFile h))) with RoundFileMissing ;;;
  ret tt.

(** The height of the round, which must be the same in the storage and in the
    state.  [CoordinatorState::current_round_height] is 0 when it is unset. *)
Definition agreed_height : co N :=
  let! h := loading load_current_round_height in
  bail_if (λ c, negb (h =? current_round_height_or_zero (state c))%N) with RoundHeightMismatch ;;;
  ret h.

Definition try_aggregate (now : Z) : co unit :=
  let! h := agreed_height in
  bail_if (λ c, negb (is_current_round_finished (state c))) with RoundNotReady ;;;
  bail_if (λ c, is_current_round_aggregated (state c)) with RoundAlreadyAggregated ;;;
  on_state (aggregating_current_round now) ;;;
  if (h =? 0)%N then on_state (aggregated_current_round now)
  else λ c,
    match aggregate_contributions c with
    | (Ok _, c) =>
        (on_state (aggregated_current_round now) ;;;
         bail_if (λ c, negb (is_current_round_aggregated (state c))) with RoundAggregationFailed ;;;
         ret tt) c
    | (Err e, c) => (on_state rollback_aggregating_current_round ;;; fail e) c
    | (Panic, c) => (Panic, c)
    end.

(** ** The next round *)

Definition initial_challenge_exists (h chunk_id : N) : M CoordinatorError Disk unit :=
  bail_if (λ d, negb (disk_exists d (LContributionFile (MkContributionLocator h chunk_id 0 true))))
    with ContributionLocatorMissing ;;;
  ret tt.

Definition next_round (started : Z) (contributors : list Participant) : co N :=
  bail_if (λ _, is_nil contributors) with ContributorsMissing ;;;
  let! h := loading load_current_round_height in
  bail_if (λ c, negb (h =? 0)%N && negb (disk_exists (storage c) (LRoundFile h))) with RoundFileMissing ;;;
  let new_height := u64_add h 1 in
  bail_if (λ c, disk_exists (storage c) (LRoundState new_height)) with RoundAlreadyInitialized ;;;
  let! env := gets co_environment in
  on_storage (for_each (initial_challenge_exists new_height) (u64_range 0 (number_of_chunks env))) ;;;
  let! b := gets (λ c, base (storage c)) in
  let! r := lift (round_new env b new_height started contributors) in
  on_storage (insert_object (LRoundState new_height) (ORoundState r)) ;;;
  on_storage (update LRoundHeight (ORoundHeight new_height)) ;;;
  ret new_height.

Definition advance_after_precommit (started now : Z) (contributors : list Participant) : co N := λ c,
  match next_round started contributors c with
  | (Ok h, c) => (on_state (modify commit_next_round) ;;; ret h) c
  | (Err e, c) => (on_state (modify (rollback_next_round now)) ;;; fail e) c
  | (Panic, c) => (Panic, c)
  end.

(** The state is saved whether the advance succeeded or not. *)
Definition then_save {A} (m : co A) : co A := λ c,
  match m c with
  | (Panic, c) => (Panic, c)
  | (o, c) => (save_state ;;; lift o) c
  end.

Definition try_advance (started now : Z) : co N :=
  let! h := agreed_height in
  bail_if (λ c, negb (is_current_round_finished (state c))) with CurrentRoundNotFinished ;;;
  bail_if (λ c, (0 <? h)%N && negb (is_current_round_aggregated (state c))) with CurrentRoundNotAggregated ;;;
  then_save (λ c,
    match on_state (precommit_next_round (u64_add h 1) now) c with
    | (Ok contributors, c) => advance_after_precommit started now contributors c
    | (Err e, c) => (on_state (modify (rollback_next_round now)) ;;; fail e) c
    | (Panic, c) => (Panic, c)
    end).

(** ** The periodic update *)

Definition update_participants (now : Z) : co unit :=
  on_state (modify update_round_metrics) ;;; save_state ;;;
  on_state update_queue ;;; save_state ;;;
  on_state (update_current_contributors now) ;;; save_state ;;;
  let! drops := on_state (update_dropped_participants now) in
  for_each drop_participant_from_storage drops ;;; save_state ;;;
  on_state (update_dropped_queued_participants now) ;;; save_state ;;;
  on_state (modify update_banned_participants) ;;; save_state.

(** [Coordinator::update] *)
Definition coordinator_update (now : Z) : co unit :=
  update_participants now ;;;
  let! finished := gets (λ c, is_current_round_finished (state c)) in
  let! aggregated := gets (λ c, is_current_round_aggregated (state c)) in
  (if finished && negb aggregated then
     try_aggregate now ;;;
     on_state (modify update_round_metrics) ;;;
     save_state
   else ret tt) ;;;
  let! aggregated := gets (λ c, is_current_round_aggregated (state c)) in
  let! ready := gets (λ c, is_precommit_next_round_ready now (state c)) in
  let! locked := gets (λ c, is_manual_lock_enabled (state c)) in
  if locked then ret tt
  else if finished && aggregated && ready then try_advance now now ;;; ret tt
  else ret tt.

(** [Coordinator::shutdown]; the first failure to save panics. *)
Definition shutdown : co unit := λ c,
  match save_state c with
  | (Ok _, c) => save_state c
  | (_, c) => (Panic, c)
  end.

(** ** A fresh round *)

Definition fresh_board (n : nat) : Board := replicate n (MkCell None [] false).

(** The verifier of the initial challenges can be written to a round. *)
Definition readable_settings (env : Environment) : Prop :=
  ∀ v, head (coordinator_verifiers env) = Some v → readable v.

Lemma initial_chunk_fresh b h v id c :
  readable v → initial_chunk b h v id = Ok c →
  ck_chunk_id c = id ∧ chunk_wf 1 c ∧ chunk_readable c ∧ cell_of c = MkCell None [] false.
Proof.
  unfold initial_chunk. intros Hread Hc. pose proof (chunk_new_wf _ _ _ _ _ Hc) as (Hwf & Hl & Hid).
  split_and!; [done..| |].
  - unfold chunk_new in Hc. destruct (is_verifier v); [|done]. apply bind_outcome_ok in Hc as (k & Hk & [= <-]).
    unfold new_verifier_contribution in Hk. repeat case_match; simplify_eq.
    intros p. rewrite elem_of_chunk_participants. simpl. intros [?|(i & k & Hi & Hp)]; [done|].
    apply lookup_singleton_Some in Hi as [<- <-]. by destruct Hp as [?|[= <-]].
  - unfold chunk_new in Hc. destruct (is_verifier v); [|done]. apply bind_outcome_ok in Hc as (k & Hk & [= <-]).
    unfold new_verifier_contribution in Hk. by repeat case_match; simplify_eq.
Qed.

Lemma round_new_running env b h started cs r :
  round_new env b h started cs = Ok r →
  (N.of_nat (length cs) + 1 < u64_modulus)%N → (h < u64_modulus)%N →
  Forall readable cs → readable_settings env →
  let n := N.to_nat (number_of_chunks env) in
  running n h r ∧ contributor_ids r = cs ∧ board r = fresh_board n.
Proof.
  intros Hr Hlen Hh Hcs Hv n. unfold round_new in Hr. case_match; [done|].
  apply bind_outcome_ok in Hr as (v & Hhead%ok_or_ok & Hr). apply Hv in Hhead.
  destruct (has_unique_elements cs) eqn:Hu; [|done]. destruct (forallb is_contributor cs) eqn:Hf; [|done].
  cbn [negb] in Hr. case_match; [done|]. apply bind_outcome_ok in Hr as (cks & Hcks & [= <-]).
  apply collect_ok in Hcks.
  assert (∀ i c, cks !! i = Some c → i < n ∧ initial_chunk b h v (N.of_nat i) = Ok c) as Hat.
  { intros i c Hc. destruct (Forall2_lookup_r _ _ _ _ _ Hcks Hc) as (o & Ho & ->).
    rewrite list_lookup_fmap in Ho. apply fmap_Some in Ho as (x & Hx & Ho).
    assert (i < n) as Hi. { apply lookup_lt_Some in Hx. rewrite u64_range_length in Hx. subst n. lia. }
    rewrite u64_range_lookup in Hx by (subst n; lia). injection Hx as <-. by rewrite Ho. }
  assert (length cks = n) as Hn.
  { apply Forall2_length in Hcks. rewrite length_fmap, u64_range_length in Hcks. subst n. lia. }
  apply bool_decide_eq_true in Hu.
  assert (∀ i c, cks !! i = Some c → ck_chunk_id c = N.of_nat i ∧ chunk_wf 1 c ∧ chunk_readable c ∧
    cell_of c = MkCell None [] false) as Hfresh.
  { intros i c Hc. destruct (Hat i c Hc) as [_ Hi]. by eapply initial_chunk_fresh. }
  split; [|split; [done|]].
  - split; simpl; try done.
    + split; simpl; try done.
      * intros i c Hc. by apply Hfresh.
      * intros i c Hc. eapply chunk_wf_weaken; [|by eapply Hfresh].
        unfold expected_number_of_contributions, round_number_of_contributors. simpl. rewrite u64_add_exact; lia.
      * by apply Is_true_true, forallb_True in Hf; eapply Forall_impl; [exact Hf|]; intros ? ?%Is_true_true.
    + apply round_readable_alt. simpl. split_and!.
      * by apply Forall_forall.
      * by intros p ?%not_elem_of_nil.
      * intros i c Hc. by eapply Hfresh.
    + intros i c p Hc Hp. destruct (Hfresh i c Hc) as (_ & _ & _ & Hcell).
      unfold cell_of in Hcell. injection Hcell. congruence.
  - unfold board, fresh_board. simpl. apply list_eq. intros i. rewrite list_lookup_fmap.
    destruct (cks !! i) as [c|] eqn:Hc; simpl.
    + destruct (Hat i c Hc) as [Hi _]. rewrite lookup_replicate_2 by done.
      by destruct (Hfresh i c Hc) as (_ & _ & _ & ->).
    + symmetry. apply lookup_replicate_None. apply lookup_ge_None in Hc. lia.
Qed.

Lemma insert_object_ok l o d u d' :
  insert_object l o d = (Ok u, d') →
  stored d l = None ∧ stored d' l = Some (object_to_bytes o) ∧ untouched (other_than l) d d'.
Proof.
  intros H. assert (untouched (other_than l) d d') as Hu.
  { pose proof (keeps_insert_object (other_than l) l o) as Hk.
    specialize (Hk ltac:(unfold other_than; by rewrite bool_decide_eq_true_2) d). by rewrite H in Hk. }
  unfold insert_object in H. apply check_ok in H as [Hn H]. rewrite disk_exists_stored, is_some_false in Hn.
  apply bind_ok in H as ([] & d1 & _ & (_ & _ & ->)%update_ok).
  split_and!; [done| |done]. rewrite stored_insert. by rewrite decide_True.
Qed.

(** The files hold a round that was just written under a new height. *)
Lemma holds_new h r d d1 d2 u :
  round_readable r → (h < u64_modulus)%N →
  insert_object (LRoundState h) (ORoundState r) d = (Ok u, d1) →
  update LRoundHeight (ORoundHeight h) d1 = (Ok u, d2) → holds h (stored_round r) d2.
Proof.
  intros Hread Hh (_ & Hs & _)%insert_object_ok (_ & _ & ->)%update_ok.
  set (d2 := set_files _ d1).
  assert (get LRoundHeight d2 = Ok (ORoundHeight h)) as Hget.
  { eapply get_stored; [|reflexivity|by constructor]. subst d2. rewrite stored_insert. by rewrite decide_True. }
  assert (load_current_round_height d2 = Ok h) as Hcur.
  { unfold load_current_round_height. rewrite Hget, disk_exists_stored. subst d2. rewrite stored_insert.
    by rewrite decide_True. }
  split; [done|]. unfold load_round. rewrite Hcur. cbn [bind_outcome]. rewrite N.leb_refl.
  erewrite get_stored; [|subst d2; rewrite stored_insert, decide_False by done; exact Hs|reflexivity|by constructor].
  done.
Qed.

(** A new round starts with nobody's lock and no contribution on its board. *)
Lemma next_round_runs started cs c h c' :
  next_round started cs c = (Ok h, c') →
  (N.of_nat (length cs) + 1 < u64_modulus)%N → Forall readable cs → readable_settings (co_environment c) →
  let n := N.to_nat (number_of_chunks (co_environment c)) in
  ∃ r, runs n h r c' ∧ contributor_ids r = cs ∧ board r = fresh_board n.
Proof.
  intros H Hlen Hcs Hv n. unfold next_round in H. apply check_ok in H as [_ H].
  apply bind_pure_ok in H as (h0 & Hh0 & H). do 2 apply check_ok in H as [_ H]. rewrite bind_gets in H.
  apply bind_ok in H as ([] & c1 & H1 & H). apply zoom_ok in H1 as (d1 & _ & ->).
  rewrite bind_gets in H. apply bind_lift_ok in H as (r & Hr & H).
  apply bind_ok in H as ([] & c2 & H2 & H). apply zoom_ok in H2 as (d2 & H2 & ->).
  apply bind_ok in H as ([] & c3 & H3 & [= <- <-]). apply zoom_ok in H3 as (d3 & H3 & ->). simpl in *.
  pose proof (u64_add_bound h0 1) as Hb.
  destruct (round_new_running _ _ _ _ _ _ Hr Hlen Hb Hcs Hv) as (Hrun & Hm & Hboard).
  exists (stored_round r). split; [|done]. split; [by apply running_stored|].
  eapply holds_new; [|done..]. apply Hrun.
Qed.
End ceremony.
