(* ===== verification/Sample.v ===== *)
(** * A small ceremony

    A ceremony of two chunks, small enough to evaluate, at the points where
    the examples of the other files start. *)

From S2P Require Import Prelude Text Task Participant Errors Environment Phase1Parameters Contribution Locator Chunk Round Board ParticipantInfo RoundMetrics CoordinatorState Serde Storage RoundStorage Commands RoundTransition DropParticipant Frame Coordinator RoundStore Contributing Ceremony.
From Stdlib Require Import Strings.Byte.

#[local] Existing Instance trie_order.
#[local] Existing Instance time_api.
#[local] Existing Instance plain_serde.
#[local] Existing Instance toy_cryptography.
#[local] Existing Instance dummy_signature.

Definition sample_environment : Environment :=
  MkEnvironment (MkSettings Chunked Groth16 Bls12_377 2 2 4) CompressionNo CompressionYes CheckNo
    1 2 1 5 5 5 (5 * nanos_per_minute) (15 * nanos_per_minute) (20 * nanos_per_minute)
    (10 * 1440 * nanos_per_minute) 5 true true 0 [Contributor "coordinator"] [Verifier "verifier"]
    1 Testing "./t" false.

Definition alice : Participant := Contributor "alice".
Definition bob : Participant := Contributor "bob".
Definition verifier : Participant := Verifier "verifier".

Definition sample_start : Coordinator :=
  MkCoordinator sample_environment (disk_load sample_environment ∅ ∅).2 (coordinator_state_new sample_environment).

Definition sample_run : M CoordinatorError Coordinator unit :=
  coordinator_initialize 0 ;;;
  Coordinator.add_to_queue alice None 10 1 ;;;
  Coordinator.add_to_queue bob None 5 2 ;;;
  coordinator_update 3 ;;; coordinator_update 4.

(** Both contributors are dealt the first round. *)
Definition sample_round : Coordinator := (sample_run sample_start).2.

(** The seed of a contributor: the toy generator returns its bytes. *)
Definition seed_of (b : Byte.byte) : bytes := [b; x03; x04; x02; x03; x01].
Definition work (p : Participant) (chunk_id id : N) (seed : Byte.byte) (now : Z) : M CoordinatorError Coordinator unit :=
  contribute p "key" (seed_of seed) now ;;; verify verifier "key" (MkTask chunk_id id) now.

Definition sample_rest : M CoordinatorError Coordinator unit :=
  work alice 0 1 x02 5 ;;; work bob 1 1 x04 6 ;;; work alice 1 2 x02 7 ;;; work bob 0 2 x04 8 ;;;
  coordinator_update 9.

(** The ceremony runs through a round to its aggregation. *)
Example sample_ceremony_completes :
  let '(o, c) := sample_rest sample_round in
  (o, is_current_round_aggregated (state c), disk_exists (storage c) (LRoundFile 1)) = (Ok tt, true, true).
Proof. vm_compute. reflexivity. Qed.

Definition first_round : Round :=
  match round_new sample_environment "./t" 1 4 [alice; bob] with Ok r => r | _ => loaded sample_start end.

Lemma sample_round_runs : runs 2 1 (loaded sample_round) sample_round.
Proof.
  assert (running 2 1 first_round) as Hrun.
  { destruct (round_new_running sample_environment "./t" 1 4 [alice; bob] first_round) as [H _].
    - vm_compute. reflexivity.
    - vm_compute. reflexivity.
    - vm_compute. reflexivity.
    - repeat constructor.
    - intros v Hv. vm_compute in Hv. by injection Hv as <-.
    - exact H. }
  split.
  - assert (loaded sample_round = stored_round first_round) as -> by (vm_compute; reflexivity).
    by apply running_stored.
  - split; vm_compute; reflexivity.
Qed.
