(* ===== verification/Challenges.v ===== *)
(** * Challenges

    The first challenge of a chunk holds the generators; the challenge after
    an honest contribution holds the contributed elements.  So every challenge
    of an honest ceremony holds the initial accumulator under the product of
    the keys of the contributors. *)

From S2P Require Import Prelude Text Task Participant Errors Contribution Locator Chunk Round ParticipantInfo RoundMetrics CoordinatorState Serde Storage RoundStorage Commands Sample.
From S2P Require Import Environment Phase1Parameters Curve Elements MultiExp Buffers Accumulator Phase1 Layout Computation Verifying Responses.
From Stdlib Require Import Strings.Byte.

(** ** Decompression *)

Section decompression.
Context {E : PairingEngine} `{!EngineLaws E}.

Lemma decompress_buffer_ok {C : AffineCurve (Fr E)} `{!CurveLaws C} check (data out : bytes) (l : list C) (n : N) :
  decodes CompressionYes check data l → n = N.of_nat (length l) → length out = length l * width C CompressionNo →
  (n < 2 ^ 42)%N → (∀ c, serialized_size C c < 2 ^ 12)%N →
  decompress_buffer E (C := C) data check 0 n out = (Ok tt, encode CompressionNo l).
Proof.
  intros Hd -> Hout Hn Hw. unfold decompress_buffer. cbv zeta.
  rewrite !(usize_mul_width (E := E) (length l)) by done || by apply Hw.
  change (usize_mul 0 ?x) with 0%N. change 0%N with (N.of_nat 0).
  pose proof (decodes_length _ _ _ _ Hd) as Hl. unfold bind, lift.
  rewrite slice_ok by lia. rewrite drop_0, Nat.sub_0_r, <-Hl, firstn_all.
  rewrite (read_batch_decodes _ _ _ _ Hd).
  erewrite slice_mut_ok; [|lia|].
  2: { rewrite drop_0, Nat.sub_0_r, take_ge by lia. by apply write_batch_ok. }
  by rewrite take_0, drop_ge, app_nil_r by lia.
Qed.

Context (p : Phase1Parameters) (Hp : regular E p) (check : CheckForCorrectness).
Context (xi xo : Parts) (acc : Accumulator E).
Context (Hi : holds p CompressionYes check xi acc) (Hf : fits (E := E) p CompressionNo xo) (Hgroup : in_group acc).

Definition decompressed : Parts :=
  MkParts (pt_hash xo) (encode CompressionNo (tau_powers_g1 acc)) (encode CompressionNo (tau_powers_g2 acc))
    (encode CompressionNo (alpha_tau_powers_g1 acc)) (encode CompressionNo (beta_tau_powers_g1 acc))
    (match p1_proving_system p with Groth16 => serialize CompressionNo (beta_g2 acc) | Marlin => [] end) (pt_rest xo).

Lemma decompressed_holds : holds p CompressionNo CheckNo decompressed acc.
Proof.
  destruct (holds_lengths _ _ _ _ _ Hi) as (L1 & L2 & L3 & L4). destruct Hgroup as (G1 & G2 & G3 & G4 & G5).
  pose proof (hold_beta_g2 _ _ _ _ _ Hi) as Hb.
  split; cbn; try by apply decodes_encoded.
  - split; cbn; rewrite ?encode_length; try by congruence. { apply Hf. }
    unfold n_beta_g2. destruct (p1_proving_system p); [rewrite serialize_width; lia | done].
  - destruct (p1_proving_system p); [|done]. rewrite <-(app_nil_r (serialize _ _)).
    apply (decodes_encoded (C := G2Affine E) CompressionNo [beta_g2 acc]). by repeat constructor.
Qed.

(** Decompressing one section of [n] elements. *)
Lemma section_decompressed {C : AffineCurve (Fr E)} `{!CurveLaws C} (n : nat) (data out : bytes) (l : list C) :
  decodes CompressionYes check data l → length l = n → length out = n * width C CompressionNo →
  (N.of_nat n < 2 ^ 42)%N → (∀ c, serialized_size C c < 2 ^ 12)%N →
  decompress_buffer E (C := C) data check 0 (N.of_nat n) out = (Ok tt, encode CompressionNo l) ∧
  length (encode CompressionNo l) = length out.
Proof.
  intros Hd Hl Hout Hn Hw. split; [|by rewrite encode_length, Hl].
  apply (decompress_buffer_ok check data out l); try done; congruence.
Qed.

Notation e1 := (encode CompressionNo (tau_powers_g1 acc)).
Notation e2 := (encode CompressionNo (tau_powers_g2 acc)).
Notation e3 := (encode CompressionNo (alpha_tau_powers_g1 acc)).
Notation e4 := (encode CompressionNo (beta_tau_powers_g1 acc)).
Notation o := (ranges (E := E) p CompressionNo).

Lemma tau_g1_decompressed x :
  fits (E := E) p CompressionNo x →
  expect (within (sb_tau_g1 o) (decompress_buffer E (C := G1Affine E) (pt_tau_g1 xi) check 0 (g1_chunk_size p))) (join x) =
    (Ok tt, join (set_tau_g1 e1 x)) ∧ fits (E := E) p CompressionNo (set_tau_g1 e1 x).
Proof.
  intros Hx. destruct (holds_lengths _ _ _ _ _ Hi) as (L1 & _). pose proof (g1_chunk_small p Hp) as Hsm.
  destruct (section_decompressed _ _ _ _ (hold_tau_g1 _ _ _ _ _ Hi) L1 (fit_tau_g1 _ _ _ Hx)) as [R1 Z1];
    [unfold n_tau_g1; lia | apply (reg_g1 _ _ Hp)|].
  unfold n_tau_g1 in R1. rewrite N2Nat.id in R1. split; [|by apply fits_tau_g1].
  by apply expect_ok, within_tau_g1.
Qed.

Lemma others_decompressed x :
  p1_proving_system p = Groth16 → fits (E := E) p CompressionNo x →
  (if (0 <? other_chunk_size p)%N then
     expect (within (sb_tau_g2 o) (decompress_buffer E (C := G2Affine E) (pt_tau_g2 xi) check 0 (other_chunk_size p))) ;;;
     expect (within (sb_alpha_g1 o) (decompress_buffer E (C := G1Affine E) (pt_alpha_g1 xi) check 0 (other_chunk_size p))) ;;;
     expect (within (sb_beta_g1 o) (decompress_buffer E (C := G1Affine E) (pt_beta_g1 xi) check 0 (other_chunk_size p)))
   else ret tt) (join x) = (Ok tt, join (set_beta_g1 e4 (set_alpha_g1 e3 (set_tau_g2 e2 x)))).
Proof.
  intros Hs Hx. destruct (holds_lengths _ _ _ _ _ Hi) as (_ & L2 & L3 & L4).
  pose proof (g1_chunk_small p Hp) as Hsm. pose proof (other_le p Hp Hs) as Hle.
  unfold n_tau_g2, n_alpha, n_beta in L2, L3, L4. rewrite Hs in L2, L3, L4.
  pose proof (fit_tau_g2 _ _ _ Hx) as F2. pose proof (fit_alpha _ _ _ Hx) as F3. pose proof (fit_beta _ _ _ Hx) as F4.
  unfold n_tau_g2, n_alpha, n_beta in F2, F3, F4. rewrite Hs in F2, F3, F4.
  destruct (N.ltb_spec 0 (other_chunk_size p)) as [Hpos|Hzero].
  - destruct (section_decompressed _ _ _ _ (hold_tau_g2 _ _ _ _ _ Hi) L2 F2) as [R2 Z2]; [lia | apply (reg_g2 _ _ Hp)|].
    destruct (section_decompressed _ _ _ _ (hold_alpha _ _ _ _ _ Hi) L3 F3) as [R3 Z3]; [lia | apply (reg_g1 _ _ Hp)|].
    destruct (section_decompressed _ _ _ _ (hold_beta _ _ _ _ _ Hi) L4 F4) as [R4 Z4]; [lia | apply (reg_g1 _ _ Hp)|].
    rewrite N2Nat.id in R2, R3, R4.
    pose proof (fits_tau_g2 p _ x _ Hx Z2) as Hx2. pose proof (fits_alpha p _ (set_tau_g2 e2 x) _ Hx2 Z3) as Hx3.
    unfold bind. rewrite (expect_ok _ _ _ _ (within_tau_g2 p _ x Hx _ _ _ R2)).
    rewrite (expect_ok _ _ _ _ (within_alpha p _ (set_tau_g2 e2 x) Hx2 _ _ _ R3)).
    by rewrite (expect_ok _ _ _ _ (within_beta p _ (set_alpha_g1 e3 (set_tau_g2 e2 x)) Hx3 _ _ _ R4 Z4)).
  - assert (other_chunk_size p = 0%N) as Hz by lia. rewrite Hz in L2, L3, L4, F2, F3, F4.
    apply nil_length_inv in L2, L3, L4, F2, F3, F4. rewrite L2, L3, L4. unfold encode. cbn.
    unfold ret. do 2 f_equal. destruct x. cbn in *. by subst.
Qed.

(** In Marlin: the two sections of the first chunk. *)
Lemma marlin_decompressed x :
  p1_proving_system p = Marlin → fits (E := E) p CompressionNo x →
  (if (p1_chunk_index p =? 0)%N || match p1_contribution_mode p with Full => true | Chunked => false end then
     within (sb_alpha_g1 o) (decompress_buffer E (C := G1Affine E) (pt_alpha_g1 xi) check 0
       (usize_add 3 (usize_mul 3 (total_size_in_log2 p)))) ;;;
     within (sb_tau_g2 o) (decompress_buffer E (C := G2Affine E) (pt_tau_g2 xi) check 0
       (usize_add (total_size_in_log2 p) 2))
   else ret tt) (join x) = (Ok tt, join (set_tau_g2 e2 (set_alpha_g1 e3 x))) ∧
  fits (E := E) p CompressionNo (set_tau_g2 e2 (set_alpha_g1 e3 x)).
Proof.
  intros Hs Hx. destruct (holds_lengths _ _ _ _ _ Hi) as (_ & L2 & L3 & _). pose proof (reg_size _ _ Hp) as Hsz.
  destruct (size_sums p Hp) as [-> ->].
  pose proof (fit_tau_g2 _ _ _ Hx) as F2. pose proof (fit_alpha _ _ _ Hx) as F3.
  assert (n_tau_g2 p = (if (p1_chunk_index p =? 0)%N then N.to_nat (total_size_in_log2 p) + 2 else 0) ∧
    n_alpha p = (if (p1_chunk_index p =? 0)%N then 3 + 3 * N.to_nat (total_size_in_log2 p) else 0)) as [N2 N3]
    by (unfold n_tau_g2, n_alpha; by rewrite Hs).
  assert ((p1_chunk_index p =? 0)%N || match p1_contribution_mode p with Full => true | Chunked => false end =
    (p1_chunk_index p =? 0)%N) as ->.
  { destruct (p1_contribution_mode p) eqn:Hm; [|by rewrite orb_false_r]. by rewrite (reg_full _ _ Hp Hm). }
  destruct (section_decompressed _ _ _ _ (hold_tau_g2 _ _ _ _ _ Hi) L2 F2) as [R2 Z2];
    [rewrite N2; destruct (p1_chunk_index p =? 0)%N; bounds_lia | apply (reg_g2 _ _ Hp)|].
  destruct (section_decompressed _ _ _ _ (hold_alpha _ _ _ _ _ Hi) L3 F3) as [R3 Z3];
    [rewrite N3; destruct (p1_chunk_index p =? 0)%N; bounds_lia | apply (reg_g1 _ _ Hp)|].
  pose proof (fits_alpha p _ x _ Hx Z3) as Hx3. split; [|by apply fits_tau_g2].
  destruct (p1_chunk_index p =? 0)%N.
  - rewrite N2 in R2. rewrite N3 in R3.
    replace (N.of_nat (N.to_nat (total_size_in_log2 p) + 2)) with (total_size_in_log2 p + 2)%N in R2 by lia.
    replace (N.of_nat (3 + 3 * N.to_nat (total_size_in_log2 p))) with (3 + 3 * total_size_in_log2 p)%N in R3 by lia.
    unfold bind. rewrite (within_alpha p _ x Hx _ _ _ R3).
    by rewrite (within_tau_g2 p _ (set_alpha_g1 e3 x) Hx3 _ _ _ R2).
  - rewrite N2 in L2, F2. rewrite N3 in L3, F3. apply nil_length_inv in L2, L3, F2, F3. rewrite L2, L3.
    unfold encode. cbn. unfold ret. do 2 f_equal. destruct x. cbn in *. by subst.
Qed.

Lemma decompress_parts : decompress E p check (join xi) (join xo) = (Ok tt, join decompressed).
Proof.
  pose proof (hold_fits _ _ _ _ _ Hi) as Hfi. pose proof (hold_beta_g2 _ _ _ _ _ Hi) as Hb.
  pose proof (fit_beta_g2 _ _ _ Hf) as F5. pose proof (fit_beta_g2 _ _ _ Hfi) as Fi5. unfold n_beta_g2 in F5, Fi5.
  unfold decompress. rewrite (split_join p Hp CompressionYes xi Hfi), (split_mut_join p Hp CompressionNo xo Hf).
  unfold bind at 1, lift at 1. unfold bind at 1, lift at 1.
  rewrite !(view_tau_g1 p _ xi Hfi), !(view_tau_g2 p _ xi Hfi), !(view_alpha p _ xi Hfi), !(view_beta p _ xi Hfi),
    (view_beta_g2 p _ xi Hfi).
  unfold decompressed. destruct (p1_proving_system p) eqn:Hs.
  - rewrite Nat.mul_1_l in F5, Fi5. apply decodes_single in Hb; [|done].
    unfold bind at 1, lift at 1. rewrite Hb.
    pose proof (write_exact CompressionNo (beta_g2 acc) _ F5) as Hw.
    assert (length (serialize CompressionNo (beta_g2 acc)) = length (pt_beta_g2 xo)) as Hl by (by rewrite serialize_width).
    unfold bind at 1. rewrite (within_beta_g2 p _ xo Hf _ _ _ Hw Hl).
    destruct (tau_g1_decompressed _ (fits_beta_g2 p _ xo _ Hf Hl)) as [R1 Hx1].
    unfold bind at 1. rewrite R1. by rewrite (others_decompressed _ Hs Hx1).
  - destruct (marlin_decompressed xo Hs Hf) as [R Hx]. unfold bind at 1. rewrite R.
    destruct (tau_g1_decompressed _ Hx) as [R1 _]. rewrite R1.
    destruct (marlin_empty p _ xo Hf Hs) as [B1 B2]. destruct (holds_lengths _ _ _ _ _ Hi) as (_ & _ & _ & L4).
    unfold n_beta in L4. rewrite Hs in L4. apply nil_length_inv in L4. rewrite L4. unfold encode. cbn.
    do 2 f_equal. unfold set_tau_g1, set_tau_g2, set_alpha_g1. cbn. by rewrite B1, B2.
Qed.
End decompression.

(** ** The first challenge *)

Section initial.
Context {E : PairingEngine} `{!EngineLaws E}.
Context (p : Phase1Parameters) (Hp : regular E p) (c : UseCompression).

(** Generators everywhere. *)
Definition initial_accumulator : Accumulator E :=
  MkAccumulator (repeat prime_subgroup_generator (n_tau_g1 p)) (repeat prime_subgroup_generator (n_tau_g2 p))
    (repeat prime_subgroup_generator (n_alpha p)) (repeat prime_subgroup_generator (n_beta p)) prime_subgroup_generator.

Lemma initial_in_group : in_group initial_accumulator.
Proof. split_and!; cbn; try (apply Forall_replicate || apply List.Forall_forall; intros q Hq; apply List.repeat_spec in Hq as ->);
  apply generator_in_subgroup. Qed.
Lemma initial_nonzero : nonzero initial_accumulator.
Proof. split_and!; cbn; try (apply List.Forall_forall; intros q Hq; apply List.repeat_spec in Hq as ->);
  apply generator_nonzero. Qed.

Lemma initialize_parts xo :
  fits (E := E) p c xo →
  ∃ x, phase1_initialize E c p (join xo) = (Ok tt, join x) ∧ holds p c CheckNo x initial_accumulator ∧
    pt_hash x = pt_hash xo ∧ pt_rest x = pt_rest xo.
Proof.
  intros Hf. destruct initial_in_group as (G1 & G2 & G3 & G4 & G5). cbn in G1, G2, G3, G4, G5.
  set (g1 := prime_subgroup_generator : G1Affine E) in *. set (g2 := prime_subgroup_generator : G2Affine E) in *.
  set (e1 := encode c (repeat g1 (n_tau_g1 p))). set (e2 := encode c (repeat g2 (n_tau_g2 p))).
  set (e3 := encode c (repeat g1 (n_alpha p))). set (e4 := encode c (repeat g1 (n_beta p))).
  set (e5 := encode c (repeat g2 (n_beta_g2 p))).
  pose proof (init_element_ok c g1 _ _ (fit_tau_g1 _ _ _ Hf)) as I1. fold e1 in I1.
  assert (length e1 = length (pt_tau_g1 xo)) as Z1 by (subst e1; by rewrite encode_length, repeat_length, (fit_tau_g1 _ _ _ Hf)).
  pose proof (fits_tau_g1 p c xo e1 Hf Z1) as Hf1. set (x1 := set_tau_g1 e1 xo) in *.
  pose proof (init_element_ok c g2 _ _ (fit_tau_g2 _ _ _ Hf1)) as I2. fold e2 in I2.
  assert (length e2 = length (pt_tau_g2 x1)) as Z2 by (subst e2; by rewrite encode_length, repeat_length, (fit_tau_g2 _ _ _ Hf1)).
  pose proof (fits_tau_g2 p c x1 e2 Hf1 Z2) as Hf2. set (x2 := set_tau_g2 e2 x1) in *.
  pose proof (init_element_ok c g1 _ _ (fit_alpha _ _ _ Hf2)) as I3. fold e3 in I3.
  assert (length e3 = length (pt_alpha_g1 x2)) as Z3 by (subst e3; by rewrite encode_length, repeat_length, (fit_alpha _ _ _ Hf2)).
  pose proof (fits_alpha p c x2 e3 Hf2 Z3) as Hf3. set (x3 := set_alpha_g1 e3 x2) in *.
  pose proof (init_element_ok c g1 _ _ (fit_beta _ _ _ Hf3)) as I4. fold e4 in I4.
  assert (length e4 = length (pt_beta_g1 x3)) as Z4 by (subst e4; by rewrite encode_length, repeat_length, (fit_beta _ _ _ Hf3)).
  pose proof (fits_beta p c x3 e4 Hf3 Z4) as Hf4. set (x4 := set_beta_g1 e4 x3) in *.
  pose proof (init_element_ok c g2 _ _ (fit_beta_g2 _ _ _ Hf4)) as I5. fold e5 in I5.
  assert (length e5 = length (pt_beta_g2 x4)) as Z5 by (subst e5; by rewrite encode_length, repeat_length, (fit_beta_g2 _ _ _ Hf4)).
  pose proof (fits_beta_g2 p c x4 e5 Hf4 Z5) as Hf5.
  exists (set_beta_g2 e5 x4). split; [|split; [|done]].
  - unfold phase1_initialize. rewrite (split_mut_join p Hp c xo Hf). unfold bind at 1, lift at 1. unfold bind.
    fold g1 g2. rewrite (expect_ok _ _ _ _ (within_tau_g1 p c xo Hf _ _ _ I1)). fold x1.
    rewrite (expect_ok _ _ _ _ (within_tau_g2 p c x1 Hf1 _ _ _ I2)). fold x2.
    rewrite (expect_ok _ _ _ _ (within_alpha p c x2 Hf2 _ _ _ I3)). fold x3.
    rewrite (expect_ok _ _ _ _ (within_beta p c x3 Hf3 _ _ _ I4 Z4)). fold x4.
    by rewrite (expect_ok _ _ _ _ (within_beta_g2 p c x4 Hf4 _ _ _ I5 Z5)).
  - split; [exact Hf5|..]; cbn; try by apply decodes_encoded.
    unfold e5, n_beta_g2. destruct (p1_proving_system p); [|done]. apply decodes_encoded. by repeat constructor.
Qed.
End initial.

(** ** The challenges of a chunk *)

Section challenges.
Context `{CR : Cryptography}.
Context (env : Environment) (chunk_id : N).
Notation E := (environment_engine env).
Notation p := (chunked_parameters (parameters env) chunk_id).
Notation ci := (compressed_inputs env).
Notation co := (compressed_outputs env).

(** New files are filled with zeros. *)
Notation blank := Storage.zeros.

Definition first_challenge : outcome CoordinatorError bytes :=
  let '(o, challenge) := initialization env chunk_id (blank (contribution_file_size env chunk_id true)) in
  try! _ := o in Ok challenge.

(** A contribution to the challenge, its verification, and the next challenge. *)
Definition honest_step (challenge seed : bytes) : outcome CoordinatorError bytes :=
  let '(o, response) :=
    contribute_response env chunk_id challenge seed (blank (contribution_file_size env chunk_id false)) in
  try! _ := o in
  try! response_hash := transform_pok_and_correctness env chunk_id challenge response in
  let '(o, next) :=
    decompress_response env chunk_id response response_hash (blank (contribution_file_size env chunk_id true)) in
  try! _ := o in Ok next.

(** The challenges an honest ceremony can come to, with the keys that went
    into them. *)
Inductive honest_history : bytes → list (PrivateKey E) → Prop :=
| history_start challenge : first_challenge = Ok challenge → honest_history challenge []
| history_step challenge keys seed pk sk rng next :
    honest_history challenge keys →
    key_generation E hash_fuel (calculate_hash challenge) (derive_rng_from_seed seed) = (Ok (pk, sk), rng) →
    key_nonzero sk →
    honest_step challenge seed = Ok next →
    honest_history next (keys ++ [sk]).

Definition contributions (keys : list (PrivateKey E)) (acc : Accumulator E) : Accumulator E :=
  foldl (λ acc key, contributed p key acc) acc keys.

Context `{!EngineLaws E, !RandomnessLaws E} (Hb : chunk_in_bounds env chunk_id).

Lemma verified_file_size : contribution_file_size env chunk_id true = N.of_nat (accumulator_length (E := E) p ci).
Proof. rewrite <-(chunk_position env chunk_id Hb ci). unfold contribution_file_size, verified_contribution_size, get_length. by destruct ci. Qed.

Lemma contributed_first (acc : Accumulator E) key :
  in_group acc → (is_first p = true → first_elements p acc) → is_first p = true → first_elements p (contributed p key acc).
Proof.
  intros Hg Hf H. pose proof (chunk_regular' env chunk_id Hb) as Hp. destruct (Hf H) as [F1 F2 F3 F4 F5].
  assert (p1_chunk_index p = 0%N ∧ chunk_lo p = 0%N) as [_ Hlo] by by apply (is_first_index p Hp).
  split; try done.
  - rewrite (target_tau_g1 p key acc 0 _ F3), Hlo, fr_pow_zero. by rewrite mul_one.
  - rewrite (target_tau_g2 p key acc 0 prime_subgroup_generator Hlo ltac:(lia) F4). by rewrite fr_pow_zero, mul_one.
Qed.

(** Before the hash is written over it, the room of an accumulator. *)
Lemma hash_written hash (file : bytes) c :
  length hash = 64 → length file = accumulator_length (E := E) p c →
  ∃ x, write_prefix hash file = (Ok tt, join x) ∧ fits (E := E) p c x ∧ pt_hash x = hash ∧ pt_rest x = [].
Proof.
  intros Hhash Hfile. assert (64 ≤ length file) as Hle by (unfold accumulator_length in Hfile; lia).
  set (b := hash ++ list.drop 64 file).
  assert (length b = length file) as Hlen by (subst b; rewrite length_app, length_drop; lia).
  destruct (parts_exist (E := E) p c b) as (x & Hx & Hf); [lia|]. exists x. split_and!; [|done| |].
  - unfold write_prefix. rewrite Hhash, (proj2 (Nat.leb_le _ _)), take_ge by lia. by rewrite <-Hx.
  - apply (f_equal (take 64)) in Hx. pose proof (fit_hash _ _ _ Hf). unfold join in Hx. subst b.
    by rewrite !take_app_length' in Hx by lia.
  - apply nil_length_inv. pose proof (join_length p c x Hf) as Hl. rewrite <-Hx in Hl. lia.
Qed.
Lemma blank_length size n : size = N.of_nat n → length (blank size) = n.
Proof. intros ->. unfold Storage.zeros. rewrite repeat_length. lia. Qed.

(** Initialization makes the first challenge. *)
Lemma first_challenge_holds :
  (is_first p = true → first_elements p (initial_accumulator (E := E) p)) →
  ∃ challenge, first_challenge = Ok challenge ∧ challenge_holds env chunk_id challenge (initial_accumulator p) ∧
    take 64 challenge = blank_hash.
Proof.
  intros Hfirst. pose proof (chunk_regular' env chunk_id Hb) as Hp.
  destruct (hash_written blank_hash _ ci (calculate_hash_length _) (blank_length _ _ verified_file_size))
    as (x0 & Hw & Hf & Hh & Hr).
  destruct (initialize_parts p Hp ci x0 Hf) as (x & Hinit & Hx & Hxh & Hxr). pose proof (hold_fits _ _ _ _ _ Hx) as Hfx.
  exists (join x). split; [|split].
  - unfold first_challenge, initialization. unfold bind. rewrite Hw. unfold phase1. by rewrite Hinit.
  - split; [by apply deserialize_holds | | apply initial_in_group | apply initial_nonzero | done].
    rewrite (join_length p ci x Hfx). lia.
  - pose proof (fit_hash _ _ _ Hfx). unfold join. rewrite take_app_length' by lia. by rewrite Hxh.
Qed.

Lemma decompressed_challenge response acc :
  ci = CompressionNo → co = CompressionYes →
  accumulator_length (E := E) p co ≤ length response →
  deserialize_accumulator E p co CheckNo response = Ok acc → in_group acc →
  ∃ next, decompress_response env chunk_id response (calculate_hash response)
      (blank (contribution_file_size env chunk_id true)) = (Ok tt, next) ∧
    deserialize_accumulator E p ci CheckNo next = Ok acc ∧
    length next = accumulator_length (E := E) p ci ∧ take 64 next = calculate_hash response.
Proof.
  intros Hci Hco Hlen Hd Hg. pose proof (chunk_regular' env chunk_id Hb) as Hp. rewrite Hco in Hd, Hlen.
  destruct (deserialize_holds_inv p CompressionYes CheckNo response acc Hp Hlen Hd) as (xi & Hxi & Hi).
  destruct (hash_written (calculate_hash response) _ ci (calculate_hash_length _) (blank_length _ _ verified_file_size))
    as (x0 & Hw & Hf & Hh & Hr). rewrite Hci in *.
  pose proof (decompress_parts p Hp CheckNo xi x0 acc Hi Hf) as Hrun. rewrite <-Hxi in Hrun.
  pose proof (decompressed_holds p CheckNo xi x0 acc Hi Hf Hg) as Hx.
  exists (join (decompressed p x0 acc)). split; [|split; [by apply deserialize_holds|split]].
  - unfold decompress_response, bind. rewrite Hw. unfold phase1. by rewrite Hrun.
  - rewrite (join_length p _ _ (hold_fits _ _ _ _ _ Hx)). cbn. rewrite Hr. simpl. lia.
  - pose proof (fit_hash _ _ _ (hold_fits _ _ _ _ _ Hx)). unfold join. rewrite take_app_length' by lia. exact Hh.
Qed.

Lemma honest_step_holds challenge acc seed pk sk rng :
  ci = CompressionNo → co = CompressionYes → challenge_holds env chunk_id challenge acc →
  key_generation E hash_fuel (calculate_hash challenge) (derive_rng_from_seed seed) = (Ok (pk, sk), rng) →
  key_nonzero sk →
  ∃ next, honest_step challenge seed = Ok next ∧ challenge_holds env chunk_id next (contributed p sk acc).
Proof.
  intros Hci Hco Hch Hkeys Hsk.
  destruct (honest_response env chunk_id Hb challenge acc seed
    (blank (contribution_file_size env chunk_id false)) pk sk rng) as (response & Hc & Hv & Hd & _ & Hl); try done.
  { unfold Storage.zeros. by rewrite repeat_length, N2Nat.id. }
  pose proof (response_length env chunk_id Hb) as Hsize.
  assert (accumulator_length (E := E) p co ≤ length response) as Hlen
    by (rewrite Hl; unfold Storage.zeros; rewrite repeat_length, Hsize; lia).
  destruct Hch as [_ _ Hg Hnz Hfirst].
  assert (in_group (contributed p sk acc)) as Hg' by by apply contributed_in_group.
  destruct (decompressed_challenge response _ Hci Hco Hlen Hd Hg') as (next & Hn & Hdn & Hln & _).
  exists next. split.
  - unfold honest_step. rewrite Hc. cbn [bind_outcome]. rewrite Hv. cbn [bind_outcome]. by rewrite Hn.
  - split; [done | by rewrite Hln | done | by apply contributed_nonzero | by apply contributed_first].
Qed.

Lemma history_keys challenge keys : honest_history challenge keys → Forall key_nonzero keys.
Proof. induction 1; [constructor|]. apply Forall_app_2; [done|]. by apply Forall_singleton. Qed.

(** The product of the keys. *)
Lemma contributions_product key keys (acc : Accumulator E) :
  in_group acc → key_nonzero key → Forall key_nonzero keys →
  contributions (key :: keys) acc = contributed p (foldl combine_keys key keys) acc.
Proof.
  intros Hg Hk Hks. unfold contributions. cbn [foldl]. revert key Hk. induction Hks as [|k ks Hk' _ IH]; intros key Hk; [done|].
  cbn [foldl]. rewrite contributed_combine by done. apply IH.
  destruct Hk as (? & ? & ?), Hk' as (? & ? & ?). split_and!; by apply fr_mul_nonzero.
Qed.

Section history.
Context (Hci : ci = CompressionNo) (Hco : co = CompressionYes).
Context (Hfirst : is_first p = true → first_elements p (initial_accumulator (E := E) p)).

Lemma history_holds challenge keys : honest_history challenge keys →
  challenge_holds env chunk_id challenge (contributions keys (initial_accumulator p)).
Proof.
  induction 1 as [challenge H0|challenge keys seed pk sk rng next Hh IH Hk Hsk Hs].
  - destruct (first_challenge_holds Hfirst) as (c & Hc & Hholds & _). rewrite H0 in Hc. by injection Hc as <-.
  - destruct (honest_step_holds challenge _ seed pk sk rng Hci Hco IH Hk Hsk) as (c & Hc & Hholds).
    rewrite Hs in Hc. injection Hc as <-. unfold contributions. by rewrite foldl_app.
Qed.

Lemma history_continues challenge keys seed pk sk rng : honest_history challenge keys →
  key_generation E hash_fuel (calculate_hash challenge) (derive_rng_from_seed seed) = (Ok (pk, sk), rng) →
  key_nonzero sk → ∃ next, honest_step challenge seed = Ok next ∧ honest_history next (keys ++ [sk]).
Proof.
  intros Hh Hk Hsk.
  destruct (honest_step_holds challenge _ seed pk sk rng Hci Hco (history_holds _ _ Hh) Hk Hsk) as (next & Hn & _).
  exists next. split; [done|]. by eapply history_step.
Qed.
End history.

(** C9. The ceremony of a chunk, from the files' point of view: every challenge
    that honest contributors can bring it to, starting from the
    initialization, holds the generators under the product of all their keys;
    and whoever comes next computes a response that is verified and becomes
    the next such challenge. *)
Theorem honest_ceremony_holds challenge keys
    (Hci : ci = CompressionNo) (Hco : co = CompressionYes)
    (Hfirst : is_first p = true → first_elements p (initial_accumulator (E := E) p))
    (Hhistory : honest_history challenge keys) :
  challenge_holds env chunk_id challenge (contributions keys (initial_accumulator p)) ∧
  (∀ key rest, keys = key :: rest →
     contributions keys (initial_accumulator p) = contributed p (foldl combine_keys key rest) (initial_accumulator p)) ∧
  (∀ seed pk sk rng,
     key_generation E hash_fuel (calculate_hash challenge) (derive_rng_from_seed seed) = (Ok (pk, sk), rng) →
     key_nonzero sk → ∃ next, honest_step challenge seed = Ok next ∧ honest_history next (keys ++ [sk])).
Proof.
  split; [by apply history_holds|]. split.
  - intros key rest ->. pose proof (history_keys _ _ Hhistory) as Hk. apply Forall_cons in Hk as [Hk Hks].
    apply contributions_product; [apply initial_in_group | done | done].
  - intros seed pk sk rng Hk Hsk. by eapply history_continues.
Qed.
End challenges.

(** ** A contribution of the toy engine *)

#[local] Existing Instance toy_cryptography.
#[local] Existing Instance toy_randomness.
#[local] Existing Instance toy_randomness_laws.
#[local] Existing Instance Toy.engine_laws.

Definition toy_first : bytes := match first_challenge sample_environment 0 with Ok c => c | _ => [] end.
Definition toy_second : bytes :=
  match honest_step sample_environment 0 toy_first (seed_of x02) with Ok c => c | _ => [] end.
Definition toy_secret : PrivateKey Toy.engine := toy_key Toy.Z2 Toy.Z3 Toy.Z4.

Lemma sample_in_bounds : chunk_in_bounds sample_environment 0.
Proof. split; try done; by intros []. Qed.
Definition toy_generated : setup (PublicKey Toy.engine * PrivateKey Toy.engine) * Rng (E := Toy.engine) :=
  key_generation Toy.engine 5 (calculate_hash toy_first) (derive_rng_from_seed (seed_of x02)).
Definition toy_public : PublicKey Toy.engine :=
  match toy_generated.1 with Ok (pk, _) => pk | _ => toy_public_key end.
Lemma toy_keys : toy_generated = (Ok (toy_public, toy_secret), toy_generated.2).
Proof. lazymatch goal with |- _ = ?r => vm_cast_no_check (eq_refl r) end. Qed.
Lemma toy_history : honest_history sample_environment 0 toy_second [toy_secret].
Proof.
  apply (history_step (CR := toy_cryptography) sample_environment 0 toy_first [] (seed_of x02) toy_public toy_secret
    toy_generated.2).
  - apply history_start. by vm_compute.
  - exact toy_keys.
  - by split_and!.
  - by vm_compute.
Qed.

Lemma honest_ceremony_holds_witness :
  challenge_holds sample_environment 0 toy_second (contributed (chunked_parameters (parameters sample_environment) 0)
    toy_secret (initial_accumulator (chunked_parameters (parameters sample_environment) 0))) ∧
  ∀ seed pk sk rng,
    key_generation (environment_engine sample_environment) hash_fuel (calculate_hash toy_second)
      (derive_rng_from_seed seed) = (Ok (pk, sk), rng) →
    key_nonzero sk →
    ∃ next, honest_step sample_environment 0 toy_second seed = Ok next ∧
      honest_history sample_environment 0 next [toy_secret; sk].
Proof.
  destruct (honest_ceremony_holds sample_environment 0 sample_in_bounds toy_second [toy_secret] eq_refl eq_refl)
    as (Hholds & _ & Hnext).
  - intros _. split; try done; vm_compute; lia.
  - exact toy_history.
  - split; [exact Hholds | exact Hnext].
Defined.
