(* ===== verification/Cli.v ===== *)
(** * The command line of the first phase

    [phase1-cli/src]: the programs that create a challenge, contribute to it,
    verify and transform a response, combine the responses of all chunks and
    verify the result, on named files.  Everything that fails ends the program
    by a panic, and leaves the files as they are by then. *)

From S2P Require Import Curve Elements MultiExp Buffers Accumulator Phase1.
From S2P Require Import Prelude Text Task Participant Errors Environment Phase1Parameters Contribution Locator Chunk Round ParticipantInfo RoundMetrics CoordinatorState Serde Storage RoundStorage Commands Computation Responses Sample Challenges.
From Stdlib Require Import Strings.Byte.

(** ** Files *)

Notation Files := (gmap string bytes).

(** [OpenOptions::open] of a file to read, and its map. *)
Definition open_file (path : string) : on Files bytes := λ fs,
  (match fs !! path with Some data => Ok data | None => Panic end, fs).

(** [create_new] and [set_len]. *)
Definition create_file (path : string) (size : N) : on Files unit := λ fs,
  match fs !! path with
  | Some _ => (Panic, fs)
  | None => (Ok tt, <[path := Storage.zeros size]> fs)
  end.

(** A writable map of the file. *)
Definition on_file {A} (path : string) (m : on bytes A) : on Files A := λ fs,
  match fs !! path with
  | Some data => let '(o, data) := m data in (o, <[path := data]> fs)
  | None => (Panic, fs)
  end.

(** [fs::copy] to another file. (Copying a file onto itself, which may truncate
    it, is not modelled: here it stays.) *)
Definition copy_file (from to : string) : on Files unit := λ fs,
  match fs !! from with
  | Some data => (Ok tt, <[to := data]> fs)
  | None => (Panic, fs)
  end.

(** [File::set_len] of a file that is not opened for writing is an error. *)
Definition truncate_read_only (path : string) : on Files unit := expect (fail IoError).

Definition panic_if {S} (b : bool) : on S unit := assert (negb b).

Section cli.
Context `{CR : Cryptography} (k : CurveKind).
Notation E := (engine k).
Implicit Types (p : Phase1Parameters) (c : UseCompression).

Definition challenge_length c p : N :=
  match c with
  | CompressionYes => usize_sub (contribution_size p) (public_key_size p)
  | CompressionNo => accumulator_size p
  end.
Definition response_size c p : N :=
  match c with
  | CompressionYes => contribution_size p
  | CompressionNo => usize_add (accumulator_size p) (public_key_size p)
  end.

(** [new_challenge] *)
Definition cli_new_challenge (compress_new_challenge : UseCompression) (challenge_filename : string) p
    : on Files unit :=
  create_file challenge_filename (challenge_length compress_new_challenge p) ;;;
  on_file challenge_filename (expect (write_all blank_hash)) ;;;
  on_file challenge_filename (expect (phase1_initialize E compress_new_challenge p)).

(** [contribute] *)
Definition cli_contribute (compressed_input : UseCompression) (challenge_filename : string)
    (compressed_output : UseCompression) (response_filename : string) (check : CheckForCorrectness) p
    (rng : Rng (E := E)) : on Files unit :=
  let! challenge := open_file challenge_filename in
  panic_if (negb (len challenge =? challenge_length compressed_input p)%N) ;;;
  create_file response_filename (response_size compressed_output p) ;;;
  assert (same_compression CompressionNo compressed_input) ;;;
  let current_accumulator_hash := calculate_hash challenge in
  on_file response_filename (expect (write_all current_accumulator_hash)) ;;;
  panic_if (length challenge <? 64)%nat ;;;
  let! keys := lift (expect' (fst (key_generation E hash_fuel current_accumulator_hash rng))) in
  let '(public_key, private_key) := keys in
  on_file response_filename (expect
    (computation E challenge compressed_input compressed_output check private_key p)) ;;;
  on_file response_filename (expect (public_key_write E public_key p compressed_output)).

(** [transform_pok_and_correctness] *)
Definition cli_transform (challenge_is_compressed : UseCompression) (challenge_filename : string)
    (contribution_is_compressed : UseCompression) (response_filename : string)
    (compress_new_challenge : UseCompression) (new_challenge_filename : string) p : on Files unit :=
  let! challenge := open_file challenge_filename in
  panic_if (negb (len challenge =? challenge_length challenge_is_compressed p)%N) ;;;
  let! response := open_file response_filename in
  panic_if (negb (len response =? response_size contribution_is_compressed p)%N) ;;;
  let current_accumulator_hash := calculate_hash challenge in
  panic_if (length response <? 64)%nat ;;;
  panic_if (negb (bool_decide (take 64 response = current_accumulator_hash))) ;;;
  let response_hash := calculate_hash response in
  let! public_key := lift (expect' (public_key_read E p contribution_is_compressed response)) in
  lift (expect' (phase1_verify E hash_fuel challenge response public_key current_accumulator_hash
    challenge_is_compressed contribution_is_compressed CheckNo CheckFull p)) ;;;
  if same_compression compress_new_challenge contribution_is_compressed then
    copy_file challenge_filename new_challenge_filename ;;;
    truncate_read_only new_challenge_filename
  else
    create_file new_challenge_filename (accumulator_size p) ;;;
    on_file new_challenge_filename (expect (write_all response_hash)) ;;;
    on_file new_challenge_filename (expect (decompress E p CheckNo response)).

(** [combine]: the lines of the response list are the names of the responses,
    one per chunk. *)
Definition read_response p (chunk_index : nat) (line : string) : on Files bytes :=
  let p := into_chunk_parameters p (p1_contribution_mode p) (N.of_nat chunk_index) (p1_chunk_size p) in
  let! response := open_file line in
  panic_if (negb (len response =? response_size CompressionYes p)%N) ;;;
  ret response.
Fixpoint read_responses p (chunk_index : nat) (response_list : list string) : on Files (list bytes) :=
  match response_list with
  | [] => ret []
  | line :: response_list =>
      let! response := read_response p chunk_index line in
      let! responses := read_responses p (S chunk_index) response_list in
      ret (response :: responses)
  end.
Definition cli_combine (response_list : list string) (combined_filename : string) p : on Files unit :=
  let! readers := read_responses p 0 response_list in
  let for_output := into_chunk_parameters p (p1_contribution_mode p) 0 (powers_g1_length p) in
  create_file combined_filename (accumulator_size for_output) ;;;
  let p := into_chunk_parameters p (p1_contribution_mode p) 0 (p1_chunk_size p) in
  on_file combined_filename (expect
    (aggregation E ((λ r, (r, CompressionYes)) <$> readers) CompressionNo p)).

(** [transform_ratios] *)
Definition cli_transform_ratios (response_filename : string) p : on Files unit :=
  let! response := open_file response_filename in
  let whole := new_parameters (p1_contribution_mode p) 0 (powers_g1_length p) (curve_parameters_new E)
    (p1_proving_system p) (total_size_in_log2 p) (p1_batch_size p) in
  panic_if (negb (len response =? accumulator_size whole)%N) ;;;
  lift (expect' (fst (phase1_aggregate_verify E response CompressionNo CheckNo p (thread_rng k)))).
End cli.

(** ** The same commands as the coordinator's *)

Section ceremony.
Context `{CR : Cryptography} (env : Environment) (chunk_id : N).
Notation kind := (curve (parameters env)).
Notation p := (chunked_parameters (parameters env) chunk_id).
Implicit Types (fs : Files) (path : string).

Lemma run_panic_if {S A} b (k : unit → on S A) s : b = false → bind (panic_if b) k s = k tt s.
Proof. by intros ->. Qed.
Lemma open_file_ok path fs data : fs !! path = Some data → open_file path fs = (Ok data, fs).
Proof. unfold open_file. by intros ->. Qed.
Lemma create_file_ok path n fs : fs !! path = None → create_file path n fs = (Ok tt, <[path := Storage.zeros n]> fs).
Proof. unfold create_file. by intros ->. Qed.
Lemma on_file_ok {A} path (m : on bytes A) fs data o data' :
  m data = (o, data') → on_file path m (<[path := data]> fs) = (o, <[path := data']> fs).
Proof. unfold on_file. rewrite lookup_insert_eq. intros ->. by rewrite insert_insert_eq. Qed.
Lemma write_prefix_all data file u file' :
  write_prefix data file = (Ok u, file') → write_all data file = (Ok tt, file').
Proof.
  unfold write_prefix, write_all, len. destruct (Nat.leb_spec (length data) (length file)); [|done].
  intros [= _ <-]. by rewrite (proj2 (N.leb_le _ _)) by lia.
Qed.
Lemma expect'_ok {A} (o : setup A) a : expect' o = Ok a ↔ o = Ok a.
Proof. by destruct o. Qed.
Lemma phase1_runs {A} (m : on bytes A) file a file' : Commands.phase1 m file = (Ok a, file') → m file = (Ok a, file').
Proof. unfold Commands.phase1. by destruct (m file) as [[?| |] ?]; intros [= -> ->]. Qed.

Lemma new_challenge_first path fs challenge c :
  compressed_inputs env = CompressionNo → fs !! path = None →
  initialization env chunk_id (Storage.zeros (accumulator_size p)) = (Ok c, challenge) →
  cli_new_challenge kind CompressionNo path p fs = (Ok tt, <[path := challenge]> fs).
Proof.
  intros Hci Hfresh Hinit. unfold initialization in Hinit. apply bind_ok in Hinit as (u & file & Hw & Hi).
  apply phase1_runs in Hi. rewrite Hci in Hi. unfold cli_new_challenge.
  cbn [challenge_length]. unfold bind at 1. rewrite create_file_ok by done.
  unfold bind at 1. erewrite on_file_ok by (eapply expect_ok, write_prefix_all, Hw).
  erewrite on_file_ok; [|eapply expect_ok, Hi]. by destruct c.
Qed.

Lemma cli_contributes cp rp fs challenge seed u response :
  compressed_inputs env = CompressionNo → compressed_outputs env = CompressionYes →
  fs !! cp = Some challenge → fs !! rp = None → len challenge = accumulator_size p →
  contribute_response env chunk_id challenge seed (Storage.zeros (contribution_size p)) = (Ok u, response) →
  cli_contribute kind CompressionNo cp CompressionYes rp (check_input_for_correctness env) p
    (derive_rng_from_seed (E := environment_engine env) seed) fs = (Ok tt, <[rp := response]> fs).
Proof.
  intros Hci Hco Hc Hr Hl Hrun. unfold contribute_response in Hrun.
  apply check_ok in Hrun as [_ Hrun]. apply bind_ok in Hrun as (u1 & f1 & Hw & Hrun).
  apply check_ok in Hrun as [H64 Hrun]. apply bind_ok in Hrun as ([pk sk] & f2 & Hk & Hrun).
  apply bind_ok in Hrun as (u2 & f3 & Hcomp & Hpk). apply phase1_runs in Hk, Hcomp, Hpk.
  injection Hk as Hk <-. rewrite Hci, Hco in Hcomp. rewrite Hco in Hpk. unfold cli_contribute.
  unfold bind at 1. rewrite (open_file_ok _ _ _ Hc). rewrite run_panic_if by (cbn [challenge_length]; by rewrite Hl, N.eqb_refl).
  unfold bind at 1. cbn [response_size]. rewrite create_file_ok by done.
  change ((assert (same_compression CompressionNo CompressionNo) ;;; ?m) ?fs0) with (m fs0).
  unfold bind at 1. erewrite on_file_ok by (eapply expect_ok, write_prefix_all, Hw).
  rewrite run_panic_if by done. unfold bind at 1, lift at 1. unfold environment_engine in *. rewrite Hk.
  unfold bind at 1. erewrite on_file_ok by (eapply expect_ok, Hcomp).
  erewrite on_file_ok by (eapply expect_ok, Hpk). by destruct u.
Qed.

(** What the coordinator's verification checks of the two files, and what the
    program checks. *)
Lemma coordinator_checks challenge response h :
  transform_pok_and_correctness env chunk_id challenge response = Ok h →
  h = calculate_hash response ∧ 64 ≤ length response ∧ take 64 response = calculate_hash challenge ∧
  ∃ pk, public_key_read (engine kind) p (compressed_outputs env) response = Ok pk ∧
    phase1_verify (engine kind) hash_fuel challenge response pk (calculate_hash challenge) (compressed_inputs env)
      (compressed_outputs env) CheckNo CheckFull p = Ok tt.
Proof.
  unfold transform_pok_and_correctness. destruct (Nat.ltb_spec (length response) 64) as [|H64]; [done|].
  destruct (bool_decide_reflect (calculate_hash challenge = take 64 response)) as [Hh|]; [|done]. cbn [negb].
  intros H. apply bind_outcome_ok in H as (pk & Hpk%map_err_ok & H). apply bind_outcome_ok in H as ([] & Hv%map_err_ok & [= <-]).
  split_and!; try done. by exists pk.
Qed.

(** The program up to the form of the new challenge. *)
Lemma cli_transform_checks cp rp np cn fs challenge response h :
  fs !! cp = Some challenge → fs !! rp = Some response →
  len challenge = challenge_length (compressed_inputs env) p →
  len response = response_size (compressed_outputs env) p →
  transform_pok_and_correctness env chunk_id challenge response = Ok h →
  cli_transform kind (compressed_inputs env) cp (compressed_outputs env) rp cn np p fs =
  (if same_compression cn (compressed_outputs env) then copy_file cp np ;;; truncate_read_only np
   else create_file np (accumulator_size p) ;;;
        on_file np (expect (write_all h)) ;;;
        on_file np (expect (decompress (engine kind) p CheckNo response))) fs.
Proof.
  intros Hc Hr Lc Lr (-> & H64 & Hh & pk & Hpk & Hv)%coordinator_checks. unfold cli_transform.
  unfold bind at 1. rewrite (open_file_ok _ _ _ Hc), run_panic_if by (by rewrite Lc, N.eqb_refl).
  unfold bind at 1. rewrite (open_file_ok _ _ _ Hr), run_panic_if by (by rewrite Lr, N.eqb_refl).
  rewrite run_panic_if by (apply Nat.ltb_ge; lia). rewrite run_panic_if by (by rewrite Hh, bool_decide_eq_true_2).
  unfold bind at 1, lift at 1. rewrite Hpk. cbn [expect']. unfold bind at 1, lift at 1. by rewrite Hv.
Qed.

(** C23. When the new challenge has the form of the response, the program fails
    on every response that the coordinator's verification accepts: what it
    copies to the new challenge is the challenge before, not the response, and
    it ends in a panic because it truncates a file that it opened for reading. *)
Theorem cli_transform_copies_the_old_challenge cp rp np fs challenge response h
    (Hc : fs !! cp = Some challenge) (Hr : fs !! rp = Some response)
    (Lc : len challenge = challenge_length (compressed_inputs env) p)
    (Lr : len response = response_size (compressed_outputs env) p)
    (Hok : transform_pok_and_correctness env chunk_id challenge response = Ok h) :
  cli_transform kind (compressed_inputs env) cp (compressed_outputs env) rp (compressed_outputs env) np p fs =
  (Panic, <[np := challenge]> fs).
Proof.
  rewrite (cli_transform_checks _ _ _ _ _ challenge response h) by done.
  replace (same_compression (compressed_outputs env) (compressed_outputs env)) with true by (by destruct (compressed_outputs env)).
  unfold bind, copy_file. by rewrite Hc.
Qed.

(** The response that the coordinator's command computes from a challenge, in a
    fresh file. *)
Definition computed_response (challenge seed : bytes) : bytes :=
  (contribute_response env chunk_id challenge seed (Storage.zeros (contribution_size p))).2.

(** Verifying a response of the right size leaves the coordinator's next
    challenge in the new file. *)
Lemma cli_transforms cp rp np fs challenge response h u next :
  compressed_inputs env = CompressionNo → compressed_outputs env = CompressionYes →
  fs !! cp = Some challenge → fs !! rp = Some response → fs !! np = None →
  len challenge = accumulator_size p → len response = contribution_size p →
  transform_pok_and_correctness env chunk_id challenge response = Ok h →
  decompress_response env chunk_id response h (Storage.zeros (accumulator_size p)) = (Ok u, next) →
  cli_transform kind CompressionNo cp CompressionYes rp CompressionNo np p fs = (Ok tt, <[np := next]> fs).
Proof.
  intros Hci Hco Hc Hr Hn Lc Lr Hok Hdec.
  pose proof (cli_transform_checks cp rp np CompressionNo fs challenge response h) as Htr.
  rewrite Hci, Hco in Htr. rewrite Htr by done. cbn [same_compression].
  unfold decompress_response in Hdec. apply bind_ok in Hdec as (u1 & f1 & Hw & Hd). apply phase1_runs in Hd.
  rewrite (run_bind_tt _ _ _ _ (create_file_ok np _ _ Hn)).
  unfold bind at 1. erewrite on_file_ok by (eapply expect_ok, write_prefix_all, Hw).
  erewrite on_file_ok; [|eapply expect_ok, Hd]. by destruct u.
Qed.

(** The size of a response. *)
Lemma honest_response_size challenge seed u response :
  key_behind_hash env chunk_id →
  contribute_response env chunk_id challenge seed (Storage.zeros (contribution_size p)) = (Ok u, response) →
  len response = contribution_size p.
Proof.
  intros Hkey Hrun. pose proof (contribute_response_chained env chunk_id challenge seed _ u response Hkey Hrun) as [Hlen _].
  unfold len. rewrite Hlen. unfold Storage.zeros. rewrite repeat_length. lia.
Qed.

(** C16. The command line runs the ceremony of the coordinator: for challenges
    uncompressed and responses compressed, creating a challenge leaves in its
    file the coordinator's first challenge; and for a challenge of the right
    size from which an honest step of the coordinator succeeds, contributing to
    it and then verifying and transforming the response leaves the response that
    the coordinator computes from the challenge with the same seed in the file
    of the response, the coordinator's next challenge in the new file, and every
    other file as it was. *)
Theorem cli_runs_the_ceremony cp rp np fs seed
    (Hci : compressed_inputs env = CompressionNo) (Hco : compressed_outputs env = CompressionYes)
    (Hkey : key_behind_hash env chunk_id) (Hrp : fs !! rp = None) (Hnp : fs !! np = None) (Hne : rp ≠ np) :
  (∀ challenge, first_challenge env chunk_id = Ok challenge →
     cli_new_challenge kind CompressionNo np p fs = (Ok tt, <[np := challenge]> fs)) ∧
  (∀ challenge next, fs !! cp = Some challenge → len challenge = accumulator_size p →
     honest_step env chunk_id challenge seed = Ok next →
     (cli_contribute kind CompressionNo cp CompressionYes rp (check_input_for_correctness env) p
        (derive_rng_from_seed (E := environment_engine env) seed) ;;;
      cli_transform kind CompressionNo cp CompressionYes rp CompressionNo np p) fs =
     (Ok tt, <[np := next]> (<[rp := computed_response challenge seed]> fs))).
Proof.
  split.
  - intros challenge Hfirst. unfold first_challenge, contribution_file_size, verified_contribution_size in Hfirst.
    rewrite Hci in Hfirst. destruct (initialization _ _ _) as [o c] eqn:Hi. apply bind_outcome_ok in Hfirst as (u & -> & [= <-]).
    by eapply new_challenge_first.
  - intros challenge next Hc Hl Hstep. unfold honest_step, contribution_file_size, unverified_contribution_size,
      verified_contribution_size in Hstep. rewrite Hci, Hco in Hstep.
    destruct (contribute_response _ _ _ _ _) as [o response] eqn:Hrun.
    apply bind_outcome_ok in Hstep as (u & -> & Hstep). apply bind_outcome_ok in Hstep as (h & Hok & Hstep).
    destruct (decompress_response _ _ _ _ _) as [o file] eqn:Hdec. apply bind_outcome_ok in Hstep as (u' & -> & [= ->]).
    assert (computed_response challenge seed = response) as -> by (unfold computed_response; by rewrite Hrun).
    rewrite (run_bind_tt _ _ _ _ (cli_contributes cp rp fs challenge seed u response Hci Hco Hc Hrp Hl Hrun)).
    apply (cli_transforms cp rp np (<[rp := response]> fs) challenge response h u' next); try done.
    + by rewrite lookup_insert_ne by congruence.
    + by rewrite lookup_insert_eq.
    + by rewrite lookup_insert_ne.
    + by eapply honest_response_size.
Qed.
End ceremony.

(** ** The small ceremony on files *)

#[local] Existing Instance toy_cryptography.
#[local] Existing Instance toy_randomness.
#[local] Existing Instance toy_randomness_laws.
#[local] Existing Instance Toy.engine_laws.

Definition sample_parameters : Phase1Parameters := chunked_parameters (parameters sample_environment) 0.
Definition sample_response : bytes := computed_response sample_environment 0 toy_first (seed_of x02).
Definition before_contributing : Files := {["challenge" := toy_first]}.
Definition after_contributing : Files := <["response" := sample_response]> before_contributing.

Lemma sample_first : first_challenge sample_environment 0 = Ok toy_first.
Proof. lazymatch goal with |- _ = ?r => vm_cast_no_check (eq_refl r) end. Qed.
Lemma sample_step : honest_step sample_environment 0 toy_first (seed_of x02) = Ok toy_second.
Proof. lazymatch goal with |- _ = ?r => vm_cast_no_check (eq_refl r) end. Qed.
Lemma sample_first_length : len toy_first = accumulator_size sample_parameters.
Proof. lazymatch goal with |- _ = ?r => vm_cast_no_check (eq_refl r) end. Qed.
Lemma sample_response_length : len sample_response = contribution_size sample_parameters.
Proof. lazymatch goal with |- _ = ?r => vm_cast_no_check (eq_refl r) end. Qed.
Lemma sample_response_verifies :
  transform_pok_and_correctness sample_environment 0 toy_first sample_response = Ok (calculate_hash sample_response).
Proof. lazymatch goal with |- _ = ?r => vm_cast_no_check (eq_refl r) end. Qed.
Lemma sample_key_behind_hash : key_behind_hash sample_environment 0.
Proof. by vm_compute. Qed.

Lemma cli_transform_copies_the_old_challenge_witness :
  cli_transform Bls12_377 CompressionNo "challenge" CompressionYes "response" CompressionYes "next" sample_parameters
    after_contributing = (Panic, <["next" := toy_first]> after_contributing).
Proof.
  exact (cli_transform_copies_the_old_challenge sample_environment 0 "challenge" "response" "next" after_contributing
    toy_first sample_response (calculate_hash sample_response)
    (eq_trans (lookup_insert_ne before_contributing "response" "challenge" sample_response ltac:(discriminate))
      (lookup_singleton_eq "challenge" toy_first))
    (lookup_insert_eq before_contributing "response" sample_response)
    sample_first_length sample_response_length sample_response_verifies).
Defined.

Lemma cli_runs_the_ceremony_witness :
  (cli_contribute Bls12_377 CompressionNo "challenge" CompressionYes "response" CheckNo sample_parameters
       (derive_rng_from_seed (E := environment_engine sample_environment) (seed_of x02)) ;;;
   cli_transform Bls12_377 CompressionNo "challenge" CompressionYes "response" CompressionNo "next" sample_parameters)
  before_contributing =
  (Ok tt, <["next" := toy_second]> (<["response" := sample_response]> before_contributing)).
Proof.
  destruct (cli_runs_the_ceremony sample_environment 0 "challenge" "response" "next" before_contributing (seed_of x02)
    eq_refl eq_refl sample_key_behind_hash
    (lookup_singleton_ne "challenge" "response" toy_first ltac:(discriminate))
    (lookup_singleton_ne "challenge" "next" toy_first ltac:(discriminate)) ltac:(discriminate)) as [_ H].
  exact (H toy_first toy_second (lookup_singleton_eq "challenge" toy_first) sample_first_length sample_step).
Defined.
