(* ===== verification/Messages.v ===== *)
(** * Reliability messages

    [setup1-shared/src/reliability] and [setup1-contributor/src/reliability]:
    the messages by which the coordinator tests a contributor before it joins
    the queue, their binary form, and the contributor's replies.  The frames of
    the connection are those of the web socket library. *)

From S2P Require Import Curve Elements MultiExp Accumulator Phase1 Layout Computation Keypair Challenges.
From S2P Require Import Prelude Text Environment Phase1Parameters Storage Commands.
From Stdlib Require Import Ascii Strings.Byte.

(** ** Names *)

(** [String] of UTF-8 bytes. *)
Definition text_of (data : bytes) : string := String.string_of_list_ascii (ascii_of_byte <$> data).

(** The trait [MessageName]; an unknown name is an error with the name. *)
Class MessageName (T : Type) := {
  from_str : string → option T;
  as_bytes : T → bytes;
}.

Inductive ContributorMessageName := ContributorBandwidth | ContributorCpu | ContributorError | Pong.
Inductive CoordinatorMessageName := BandwidthChallenge | CpuChallenge | CoordinatorMessageError | Ping.

#[export] Instance contributor_message_name : MessageName ContributorMessageName := {|
  from_str input :=
    if bool_decide (input = "bandwidth_challenge") then Some ContributorBandwidth
    else if bool_decide (input = "cpu_challenge") then Some ContributorCpu
    else if bool_decide (input = "error") then Some ContributorError
    else if bool_decide (input = "pong") then Some Pong
    else None;
  as_bytes name := string_bytes
    match name with
    | ContributorBandwidth => "bandwidth_challenge"
    | ContributorCpu => "cpu_challenge"
    | ContributorError => "error"
    | Pong => "pong"
    end;
|}.
#[export] Instance coordinator_message_name : MessageName CoordinatorMessageName := {|
  from_str input :=
    if bool_decide (input = "bandwidth_challenge") then Some BandwidthChallenge
    else if bool_decide (input = "cpu_challenge") then Some CpuChallenge
    else if bool_decide (input = "error") then Some CoordinatorMessageError
    else if bool_decide (input = "ping") then Some Ping
    else None;
  as_bytes name := string_bytes
    match name with
    | BandwidthChallenge => "bandwidth_challenge"
    | CpuChallenge => "cpu_challenge"
    | CoordinatorMessageError => "error"
    | Ping => "ping"
    end;
|}.

(** ** Messages *)

Definition MAXIMUM_MESSAGE_SIZE : N := 101 * 1024 * 1024.

Record Message (T : Type) := MkMessage { msg_name : T; msg_data : bytes }.
Arguments MkMessage {_}.
Arguments msg_name {_}.
Arguments msg_data {_}.

Inductive MessageError :=
| MessageIo
| LengthExceedsLimit (data_length : N)
| InvalidUtf8
| UnknownName (input : string).

Notation reading A := (M MessageError bytes A).

(** [read_exact] *)
Definition take_bytes (n : nat) : reading bytes := λ reader,
  let '(o, reader) := read_exact n reader in (map_err (λ _, MessageIo) o, reader).

(** [String::from_utf8]: well-formed sequences of one to four bytes. *)
Definition byte_in (lo hi : N) (b : Byte.byte) : bool := (lo <=? Byte.to_N b)%N && (Byte.to_N b <=? hi)%N.
Definition continuation : Byte.byte → bool := byte_in 128 191.
Definition second_of_three (b c : Byte.byte) : bool :=
  (byte_in 224 224 b && byte_in 160 191 c) || (byte_in 225 236 b && continuation c) ||
  (byte_in 237 237 b && byte_in 128 159 c) || (byte_in 238 239 b && continuation c).
Definition second_of_four (b c : Byte.byte) : bool :=
  (byte_in 240 240 b && byte_in 144 191 c) || (byte_in 241 243 b && continuation c) ||
  (byte_in 244 244 b && byte_in 128 143 c).
Fixpoint is_utf8 (data : bytes) : bool :=
  match data with
  | [] => true
  | b :: data1 =>
      if byte_in 0 127 b then is_utf8 data1
      else
        match data1 with
        | c :: data2 =>
            if byte_in 194 223 b && continuation c then is_utf8 data2
            else
              match data2 with
              | d :: data3 =>
                  if second_of_three b c && continuation d then is_utf8 data3
                  else
                    match data3 with
                    | e :: data4 => second_of_four b c && continuation d && continuation e && is_utf8 data4
                    | [] => false
                    end
              | [] => false
              end
        | [] => false
        end
  end.
Definition from_utf8 (data : bytes) : outcome MessageError string :=
  if is_utf8 data then Ok (text_of data) else Err InvalidUtf8.

(** A length as one byte. *)
Definition as_u8 (n : N) : bytes := [byte_of n].

Section messages.
Context {T : Type} `{!MessageName T}.

(** [Message::to_vec] *)
Definition to_vec (m : Message T) : bytes :=
  let name := as_bytes (msg_name m) in
  as_u8 (len name) ++ name ++ write_u32 (as_u32 (len (msg_data m))) ++ msg_data m.

(** [read_name] *)
Definition read_name : reading bytes :=
  let! name_length := take_bytes 1 in
  take_bytes (N.to_nat (parse_u32 name_length)).

(** [read_data] *)
Definition read_data : reading bytes :=
  let! data_length := take_bytes 4 in
  let data_length := parse_u32 data_length in
  bail_if (λ _, (MAXIMUM_MESSAGE_SIZE <? data_length)%N) with LengthExceedsLimit data_length ;;;
  take_bytes (N.to_nat data_length).

(** [Message::from_slice] *)
Definition from_slice (data : bytes) : outcome MessageError (Message T) :=
  fst ((let! name := read_name in
        let! data := read_data in
        let! name_string := lift (from_utf8 name) in
        let! name := lift (ok_or (from_str name_string) (UnknownName name_string)) in
        ret (MkMessage name data)) data).

(** ** Writing to a connection *)

(** [AsyncWriteExt::write] takes as much of the data as the connection has room
    for at the time: at most the first of [room]. *)
Definition write_some (data : bytes) : M MessageError (list nat * bytes) unit := λ '(room, sent),
  match room with
  | [] => (Ok tt, ([], sent ++ data))
  | n :: room => (Ok tt, (room, sent ++ take n data))
  end.

(** [Message::write]: [write_name] and [write_data]. *)
Definition write_name (m : Message T) : M MessageError (list nat * bytes) unit :=
  let name := as_bytes (msg_name m) in
  write_some (as_u8 (len name)) ;;; write_some name.
Definition write_data (m : Message T) : M MessageError (list nat * bytes) unit :=
  write_some (write_u32 (as_u32 (len (msg_data m)))) ;;; write_some (msg_data m).
Definition write_message (m : Message T) : M MessageError (list nat * bytes) unit :=
  write_name m ;;; write_data m.
End messages.
Arguments from_slice _ {_}.

(** ** Proof of work *)

Section work.
Context `{CR : Cryptography} (k : CurveKind).
Notation E := (engine k).

(** [calculate_powers_of_tau]: the contribution of a key made from the data to
    a fresh accumulator. *)
Definition calculate_powers_of_tau (data : bytes) (total_size batch_size : N) : setup bytes :=
  let p := new_full k Marlin total_size batch_size in
  let length := get_length p CompressionYes in
  let '(o, output) := expect (phase1_initialize E CompressionYes p) (Storage.zeros length) in
  try! _ := o in
  let input := output in
  try! _ := expect' (deserialize_accumulator E p CompressionYes CheckNo output) in
  try! keys := expect' (fst (key_generation E hash_fuel blank_hash (derive_rng_from_seed data))) in
  let '(o, output) := expect (computation E input CompressionYes CompressionYes CheckNo (snd keys) p) (Storage.zeros length) in
  try! _ := o in
  Ok output.
End work.

(** ** The contributor's replies *)

Section replies.
Context `{CR : Cryptography}.

(** [cpu::check]: the sizes are in front of the data. *)
Definition cpu_check (data : bytes) : setup (Message ContributorMessageName) :=
  try! sizes := slice 0 8 data in
  let total_size := parse_u32 (take 4 sizes) in
  let batch_size := parse_u32 (list.drop 4 sizes) in
  try! rest := slice 8 (len data) data in
  try! calculated := calculate_powers_of_tau Bls12_377 rest total_size batch_size in
  Ok (MkMessage ContributorCpu calculated).

(** The reply to a message: [latency::check], [bandwidth::check],
    [cpu::check], or the error. *)
Definition reply (m : Message CoordinatorMessageName) : setup (Message ContributorMessageName) :=
  match msg_name m with
  | Ping => Ok (MkMessage Pong (msg_data m))
  | BandwidthChallenge => Ok (MkMessage ContributorBandwidth (msg_data m))
  | CpuChallenge => cpu_check (msg_data m)
  | CoordinatorMessageError => Ok (MkMessage ContributorError (string_bytes
      "Wrong message, expected one of Ping | BandwidthChallenge | CpuChallenge, got Error"))
  end.

(** What the connection delivers. *)
Inductive Frame := Failed | Close | Control | Payload (data : bytes).
Inductive ReliabilityError := ConnectionFailed | Undecodable (e : MessageError) | ReplyFailed (e : SetupError).

(** [check]: the frames up to the end of the connection, and what is sent. *)
Fixpoint check_reliability (frames : list Frame) : M ReliabilityError (list bytes) unit :=
  match frames with
  | [] => ret tt
  | Failed :: _ => fail ConnectionFailed
  | Close :: _ => ret tt
  | Control :: frames => check_reliability frames
  | Payload data :: frames =>
      let! decoded := lift (map_err Undecodable (from_slice CoordinatorMessageName data)) in
      let! answer := lift (map_err ReplyFailed (reply decoded)) in
      modify (λ sent, sent ++ [to_vec answer]) ;;;
      check_reliability frames
  end.
End replies.

(** ** Encoding and decoding *)

(** What the encoding needs of the names. *)
Class MessageNameLaws (T : Type) `{!MessageName T} : Prop := {
  name_length t : (len (as_bytes t) < 256)%N;
  name_utf8 t : is_utf8 (as_bytes t) = true;
  name_back t : from_str (text_of (as_bytes t)) = Some t;
  name_only s t : from_str s = Some t → string_bytes s = as_bytes t;
}.
#[export] Instance contributor_message_name_laws : MessageNameLaws ContributorMessageName.
Proof.
  split; try by intros []; vm_compute.
  intros s t. cbn. repeat case_bool_decide; intros [= <-]; by subst.
Qed.
#[export] Instance coordinator_message_name_laws : MessageNameLaws CoordinatorMessageName.
Proof.
  split; try by intros []; vm_compute.
  intros s t. cbn. repeat case_bool_decide; intros [= <-]; by subst.
Qed.

Lemma byte_of_byte b : byte_of (Byte.to_N b) = b.
Proof. unfold byte_of. pose proof (Byte.to_N_bounded b). rewrite N.mod_small by lia. by rewrite Byte.of_to_N. Qed.
Lemma byte_of_mod n : byte_of (n mod 256) = byte_of n.
Proof. unfold byte_of. by rewrite N.Div0.mod_mod. Qed.
Lemma write_parse_u32 l : length l = 4 → write_u32 (parse_u32 l) = l ∧ (parse_u32 l < 2 ^ 32)%N.
Proof.
  destruct l as [|b1 [|b2 [|b3 [|b4 []]]]]; try done. intros _. unfold write_u32, parse_u32. cbn [foldl fmap list_fmap].
  pose proof (Byte.to_N_bounded b1). pose proof (Byte.to_N_bounded b2). pose proof (Byte.to_N_bounded b3).
  pose proof (Byte.to_N_bounded b4).
  set (n1 := Byte.to_N b1) in *. set (n2 := Byte.to_N b2) in *. set (n3 := Byte.to_N b3) in *. set (n4 := Byte.to_N b4) in *.
  split; [|change (2 ^ 32)%N with 4294967296%N; lia].
  change (2 ^ 24)%N with (256 * 256 * 256)%N. change (2 ^ 16)%N with (256 * 256)%N. change (2 ^ 8)%N with 256%N.
  rewrite <-!N.Div0.div_div.
  replace (((((0 * 256 + n1) * 256 + n2) * 256 + n3) * 256 + n4) / 256)%N with ((n1 * 256 + n2) * 256 + n3)%N
    by (apply (N.div_unique _ _ _ n4); lia).
  replace (((n1 * 256 + n2) * 256 + n3) / 256)%N with (n1 * 256 + n2)%N by (apply (N.div_unique _ _ _ n3); lia).
  replace ((n1 * 256 + n2) / 256)%N with n1 by (apply (N.div_unique _ _ _ n2); lia).
  rewrite <-(byte_of_mod (n1 * 256 + n2)), <-(byte_of_mod ((n1 * 256 + n2) * 256 + n3)),
    <-(byte_of_mod ((((0 * 256 + n1) * 256 + n2) * 256 + n3) * 256 + n4)).
  rewrite !(N.add_comm (_ * 256)), !N.Div0.mod_add, !N.mod_small by lia.
  subst n1 n2 n3 n4. by rewrite !byte_of_byte.
Qed.

Lemma string_bytes_text data : string_bytes (text_of data) = data.
Proof.
  unfold string_bytes, text_of. rewrite String.list_ascii_of_string_of_list_ascii, <-list_fmap_compose.
  rewrite <-(list_fmap_id data) at 2. apply list_fmap_ext. intros i b _. apply byte_of_ascii_of_byte.
Qed.

Lemma take_bytes_ok n data l rest : take_bytes n data = (Ok l, rest) ↔ data = l ++ rest ∧ length l = n.
Proof.
  unfold take_bytes, read_exact. destruct (Nat.ltb_spec (length data) n) as [|Hn]; cbn [map_err].
  - split; [done|]. intros [-> <-]. rewrite length_app in *. lia.
  - split.
    + intros [= <- <-]. rewrite length_take. split; [by rewrite take_drop | lia].
    + intros [-> <-]. by rewrite take_app_length, drop_app_length.
Qed.

Section codec.
Context {T : Type} `{!MessageName T, !MessageNameLaws T}.

Lemma read_name_ok data name rest :
  read_name data = (Ok name, rest) ↔ data = as_u8 (len name) ++ name ++ rest ∧ (len name < 256)%N.
Proof.
  unfold read_name. rewrite bind_ok. split.
  - intros (l & s & [-> H1]%take_bytes_ok & [-> Hn]%take_bytes_ok). destruct l as [|b []]; try done.
    assert (len name = Byte.to_N b) as Hl.
    { unfold len. rewrite Hn. unfold parse_u32. cbn. lia. }
    pose proof (Byte.to_N_bounded b). split; [|lia]. unfold as_u8. by rewrite Hl, byte_of_byte.
  - intros [-> Hn]. exists (as_u8 (len name)), (name ++ rest). rewrite !take_bytes_ok. split_and!; try done.
    unfold as_u8, parse_u32. cbn [foldl]. rewrite byte_of_to_N, N.mod_small by done. unfold len. lia.
Qed.
Lemma read_data_ok data d rest :
  read_data data = (Ok d, rest) ↔ data = write_u32 (len d) ++ d ++ rest ∧ (len d ≤ MAXIMUM_MESSAGE_SIZE)%N.
Proof.
  unfold read_data. rewrite bind_ok. split.
  - intros (l & s & [-> H4]%take_bytes_ok & [Hle [-> Hd]%take_bytes_ok]%check_ok). apply N.ltb_ge in Hle.
    assert (len d = parse_u32 l) as Hl by (unfold len; lia). rewrite Hl. split; [|done].
    by rewrite (proj1 (write_parse_u32 l H4)).
  - intros [-> Hle]. exists (write_u32 (len d)), (d ++ rest). rewrite take_bytes_ok. split; [done|].
    assert (len d < 2 ^ 32)%N as H32 by (unfold MAXIMUM_MESSAGE_SIZE in Hle; change (2 ^ 32)%N with 4294967296%N; lia).
    rewrite parse_write_u32 by done. apply check_ok. split; [by apply N.ltb_ge|]. apply take_bytes_ok. unfold len. split; [done | lia].
Qed.

Lemma from_slice_ok (m : Message T) data :
  from_slice T data = Ok m ↔
  (len (msg_data m) ≤ MAXIMUM_MESSAGE_SIZE)%N ∧ ∃ rest, data = to_vec m ++ rest.
Proof.
  unfold from_slice, to_vec. split.
  - destruct (bind _ _ data) as [o rest] eqn:H. cbn [fst]. intros ->.
    apply bind_ok in H as (name & s1 & [-> Hn]%read_name_ok & H). apply bind_ok in H as (d & s2 & [-> Hd]%read_data_ok & H).
    apply bind_ok in H as (str & s3 & [= Hstr ->] & H). apply bind_ok in H as (t & s4 & [= Ht ->] & [= <- ->]). cbn.
    split; [done|]. exists rest. unfold from_utf8 in Hstr. destruct (is_utf8 name); [|done]. injection Hstr as <-.
    destruct (from_str (text_of name)) as [t'|] eqn:Hfrom; [|done]. injection Ht as ->.
    apply name_only in Hfrom. rewrite string_bytes_text in Hfrom. subst name.
    unfold as_u32. rewrite N.mod_small; [by rewrite <-!app_assoc|].
    unfold MAXIMUM_MESSAGE_SIZE in Hd. change (2 ^ 32)%N with 4294967296%N. lia.
  - intros [Hd (rest & ->)]. destruct m as [t d]. cbn in *. rewrite <-!app_assoc.
    assert (len d < 2 ^ 32)%N as H32 by (unfold MAXIMUM_MESSAGE_SIZE in Hd; change (2 ^ 32)%N with 4294967296%N; lia).
    unfold as_u32. rewrite N.mod_small by done.
    erewrite run_bind by (apply read_name_ok; split; [done | apply name_length]).
    erewrite run_bind by (apply read_data_ok; split; done).
    unfold bind, lift, from_utf8. rewrite name_utf8. cbn. by rewrite name_back.
Qed.
(** C34. The binary form of the messages: what is decoded from a slice is exactly
    the message whose encoding the slice starts with, and every message with
    at most [MAXIMUM_MESSAGE_SIZE] bytes of data is decoded from its encoding,
    whatever follows; no other slice is accepted. *)
Theorem message_codec (m : Message T) data :
  from_slice T data = Ok m ↔
  (len (msg_data m) ≤ MAXIMUM_MESSAGE_SIZE)%N ∧ ∃ rest, data = to_vec m ++ rest.
Proof. apply from_slice_ok. Qed.
End codec.

Lemma message_codec_witness :
  from_slice ContributorMessageName (to_vec (MkMessage Pong [x01; x02]) ++ [x03]) = Ok (MkMessage Pong [x01; x02]) ∧
  from_slice ContributorMessageName [x04; x70; x6f; x6e; x6b; x00; x00; x00; x00] ≠ Ok (MkMessage Pong []).
Proof.
  split.
  - apply (message_codec (T := ContributorMessageName)). split; [by vm_compute | by exists [x03]].
  - intros H. apply (message_codec (T := ContributorMessageName)) in H as [_ (rest & H)]. discriminate H.
Defined.

(** ** Writing *)

Section writing.
Context {T : Type} `{!MessageName T, !MessageNameLaws T}.

Lemma read_data_short data n :
  (len data ≤ MAXIMUM_MESSAGE_SIZE)%N → n < length data →
  (read_data (write_u32 (as_u32 (len data)) ++ take n data)).1 = Err MessageIo.
Proof.
  intros Hlen Hn. unfold MAXIMUM_MESSAGE_SIZE in Hlen.
  assert (len data < 2 ^ 32)%N as H32 by (change (2 ^ 32)%N with 4294967296%N; lia).
  unfold read_data. rewrite (run_bind _ _ _ (write_u32 (as_u32 (len data))) (take n data)) by by apply take_bytes_ok.
  unfold as_u32. rewrite N.mod_small, parse_write_u32 by done. unfold check, MAXIMUM_MESSAGE_SIZE.
  rewrite (proj2 (N.ltb_ge _ _)) by lia. unfold take_bytes, read_exact. rewrite length_take.
  by rewrite (proj2 (Nat.ltb_lt _ _)) by (unfold len; lia).
Qed.

(** A connection with room for everything gets the message.  What it has no
    room for at the time is lost although the call succeeds: the reader of
    what was sent runs out of data. *)
Theorem short_write_is_lost (m : Message T) n
    (Hlen : (len (msg_data m) ≤ MAXIMUM_MESSAGE_SIZE)%N) (Hn : n < length (msg_data m)) :
  write_message m ([], []) = (Ok tt, ([], to_vec m)) ∧
  ∃ sent, write_message m ([1; 256; 4; n], []) = (Ok tt, ([], sent)) ∧ from_slice T sent = Err MessageIo.
Proof.
  split; [unfold write_message, write_name, write_data, to_vec; cbn; by rewrite <-!app_assoc|].
  exists (as_u8 (len (as_bytes (msg_name m))) ++ as_bytes (msg_name m) ++
    write_u32 (as_u32 (len (msg_data m))) ++ take n (msg_data m)).
  pose proof (name_length (msg_name m)) as Hname. split.
  - assert (∀ name : bytes, (len name < 256)%N → take 256 name = name) as Htake.
    { intros name H. apply take_ge. unfold len in H. lia. }
    unfold write_message, write_name, write_data, bind, write_some.
    rewrite (Htake _ Hname), !(take_ge (as_u8 _)), (take_ge (write_u32 _)) by done. by rewrite app_nil_l, <-!app_assoc.
  - unfold from_slice. erewrite run_bind by (apply read_name_ok; split; [done | done]).
    pose proof (read_data_short _ _ Hlen Hn) as Hd. unfold bind at 1. destruct (read_data _) as [o rest]. cbn in Hd. by subst o.
Qed.
End writing.

(** ** Replies *)

Section answers.
Context `{CR : Cryptography}.

(** The contributor answers every message, in the order in which they come. *)
Lemma check_reliability_answers ms answers sent frames :
  Forall (λ m, len (msg_data m) ≤ MAXIMUM_MESSAGE_SIZE)%N ms → collect (reply <$> ms) = Ok answers →
  check_reliability ((Payload ∘ to_vec <$> ms) ++ frames) sent = check_reliability frames (sent ++ (to_vec <$> answers)).
Proof.
  revert answers sent. induction ms as [|m ms IH]; intros answers sent Hms Hr.
  - injection Hr as <-. by rewrite app_nil_r.
  - apply Forall_cons in Hms as [Hm Hms]. rewrite fmap_cons in Hr. cbn in Hr.
    apply bind_outcome_ok in Hr as (answer & Ha & Hr). apply bind_outcome_ok in Hr as (rest & Hrest & [= <-]).
    rewrite fmap_cons. cbn [app check_reliability]. unfold compose at 1.
    rewrite (proj2 (from_slice_ok m (to_vec m)) (conj Hm (ex_intro _ [] (eq_sym (app_nil_r _))))).
    unfold bind, lift. cbn [map_err]. rewrite Ha. cbn [map_err]. unfold modify. rewrite (IH rest) by done.
    by rewrite fmap_cons, <-app_assoc.
Qed.
End answers.

(** ** The work done *)

Section proof_of_work.
Context `{CR : Cryptography} (k : CurveKind) `{!EngineLaws (engine k)} (total_size batch_size : N).
Context (Hb : parameter_bounds (engine k) Full 0 0 Marlin total_size batch_size).
Notation p := (new_full k Marlin total_size batch_size).

(** The answer to a CPU challenge is an accumulator in compressed form, of a
    fresh one under the key that is made from the data of the challenge. *)
Theorem work_is_a_contribution data pk sk rng
    (Hkeys : key_generation (engine k) hash_fuel blank_hash (derive_rng_from_seed data) = (Ok (pk, sk), rng)) :
  ∃ output, calculate_powers_of_tau k data total_size batch_size = Ok output ∧
    len output = get_length p CompressionYes ∧
    deserialize_accumulator (engine k) p CompressionYes CheckNo output = Ok (contributed p sk (initial_accumulator p)).
Proof.
  pose proof (new_parameters_regular _ _ _ _ _ _ Hb : regular (engine k) p) as Hp.
  pose proof (get_length_layout _ _ _ _ _ _ Hb CompressionYes : get_length p CompressionYes = _) as Hlen.
  set (n := accumulator_length (E := engine k) p CompressionYes) in *.
  assert (length (Storage.zeros (get_length p CompressionYes)) = n) as Hz.
  { unfold Storage.zeros. rewrite repeat_length, Hlen. apply Nat2N.id. }
  destruct (parts_exist (E := engine k) p CompressionYes _ (Nat.eq_le_incl _ _ (eq_sym Hz))) as (x0 & Hx0 & Hf).
  destruct (initialize_parts p Hp CompressionYes x0 Hf) as (x & Hinit & Hx & _ & Hrest).
  pose proof (deserialize_holds _ _ _ _ _ Hp Hx) as Hd.
  pose proof (join_length p CompressionYes x (hold_fits _ _ _ _ _ Hx)) as Hlx.
  assert (accumulator_length (E := engine k) p CompressionYes ≤ length (Layout.join x)) as Hin by (rewrite Hlx; lia).
  destruct (computation_result p sk CompressionYes CompressionYes CheckNo (Layout.join x) (Storage.zeros (get_length p CompressionYes))
    _ Hp Hd Hin (Nat.eq_le_incl _ _ (eq_sym Hz)) (initial_in_group p)) as (output & Hrun & Hout & _ & _ & Hl).
  exists output. split; [|split; [unfold len; rewrite Hl, Hz, Hlen; done|done]].
  unfold calculate_powers_of_tau. rewrite Hx0. unfold expect at 1. rewrite Hinit. cbn [bind_outcome].
  rewrite Hd. cbn [expect' bind_outcome]. rewrite Hkeys. cbn [fst expect' bind_outcome snd].
  rewrite <-Hx0. unfold expect. by rewrite Hrun.
Qed.
End proof_of_work.
