(* ===== verification/Operators.v ===== *)
(** * The programs of the operators

    What the contributor's and the verifier's program share
    ([setup1-contributor/src], [setup1-verifier/src]): requests to the
    coordinator's server and their authorization, the files they work on, the
    environments of the setups, and the form of an upload.  The server, the
    wallet's keys and the formats of the server's answers are parameters. *)

From S2P Require Import Prelude Text Environment Phase1Parameters Serde Commands Cli.
From Stdlib Require Import Ascii Strings.Byte.

(** ** Requests *)

Record Request := MkRequest {
  rq_method : string;
  rq_path : string;
  rq_authorization : option string;
  rq_body : bytes;
}.

(** The server behind the network: whether its answer has the status of a
    success, and the body; a request may also fail. *)
Class Server := {
  Network : Type;
  send : Request → Network → option (bool * bytes) * Network;
}.

(** [snarkvm_dpc]: the keys of an account. *)
Class Wallet := {
  view_key_of : string → option string;
  address_of : string → option string;
}.

(** [to_lowercase]; methods and paths are ASCII. *)
Definition lowercase_char (c : ascii) : ascii :=
  let n := N_of_ascii c in if (65 <=? n)%N && (n <=? 90)%N then ascii_of_N (n + 32) else c.
Fixpoint to_lowercase (s : string) : string :=
  match s with EmptyString => EmptyString | String c s => String (lowercase_char c) (to_lowercase s) end.

Section authorization.
Context `{SG : Signature, WA : Wallet}.

(** [AleoAuthentication::authenticate] of the verifier, and
    [get_authorization_value] of the contributor, once it has its view key. *)
Definition authenticate (view_key method path : string) : option string :=
  address ← address_of view_key;
  signature ← sign view_key (to_lowercase method +:+ " " +:+ to_lowercase path);
  Some ("Aleo " +:+ address +:+ ":" +:+ signature).

Definition get_authorization_value (private_key method path : string) : option string :=
  view_key ← view_key_of private_key; authenticate view_key method path.
End authorization.

(** ** Setups *)

Inductive SetupKind := SetupDevelopment | SetupInner | SetupOuter | SetupUniversal.

(** [environment_by_setup_kind], and [main] of the verifier. *)
Definition environment_by_setup_kind {E} (kind : SetupKind) : outcome E Environment :=
  match kind with
  | SetupDevelopment => development_from (TestCustom 64 16 512)
  | SetupInner => production_from AleoInner
  | SetupOuter => production_from AleoOuter
  | SetupUniversal => production_from AleoUniversal
  end.

(** [create_parameters_for_chunk] *)
Definition create_parameters_for_chunk `{CurveSizes} (env : Environment) (chunk_id : N) : Phase1Parameters :=
  let settings := parameters env in
  new_chunk (curve settings) Chunked chunk_id (Npos (chunk_size settings)) (proving_system settings) (power settings)
    (batch_size settings).

(** ** Files *)

Section files.
Context {E : Type}.
Notation action A := (M E Files A).

Definition remove_file_if_exists (path : string) : action unit := modify (delete path).
Definition write_file (path : string) (data : bytes) : action unit := modify <[path := data]>.
Definition read_from_file (e : E) (path : string) : action bytes := λ fs, (ok_or (fs !! path) e, fs).
End files.

(** ** Trying again *)

(** A loop that tries until it succeeds; [fuel] bounds the attempts. *)
Fixpoint until_ok {E S A} (gave_up : E) (fuel : nat) (m : M E S A) : M E S A := λ s,
  match fuel with
  | 0 => (Err gave_up, s)
  | S fuel => match m s with (Err _, s) => until_ok gave_up fuel m s | r => r end
  end.

(** ** Uploads *)

(** The flag of a verifier, the signature, the hashes and the file. *)
Definition upload (flag : Byte.byte) (signature : bytes) (hashes : list bytes) (file : bytes) : bytes :=
  [flag] ++ signature ++ concat hashes ++ file.

(** A key whose signatures are the text of 64 bytes, as the coordinator wants
    them. *)
Definition can_sign `{CR : Cryptography, SG : Signature} (key : string) : Prop :=
  ∀ message, ∃ signature data, sign key message = Some signature ∧ hex_decode signature = Some data ∧ length data = 64.

Lemma create_parameters_chunked `{CurveSizes} env chunk_id :
  contribution_mode (parameters env) = Chunked →
  create_parameters_for_chunk env chunk_id = chunked_parameters (parameters env) chunk_id.
Proof. intros Hmode. unfold create_parameters_for_chunk, chunked_parameters. by rewrite Hmode. Qed.

Lemma state_of_hashes `{CR : Cryptography} challenge response next :
  ∃ state, contribution_state_new (calculate_hash challenge) (calculate_hash response) (calculate_hash <$> next) = Ok state.
Proof.
  unfold contribution_state_new. rewrite !calculate_hash_length. cbn [Nat.eqb negb].
  destruct next; cbn; rewrite ?calculate_hash_length; by eexists.
Qed.
Lemma signature_of_data `{CR : Cryptography} signature data state :
  hex_decode signature = Some data → length data = 64 →
  contribution_file_signature_new signature state = Ok (MkContributionFileSignature signature state).
Proof. intros Hd Hl. unfold contribution_file_signature_new. rewrite Hd. cbn. by rewrite Hl. Qed.

(** [data] is what the key makes of the hashes of the files. *)
Definition signs_hashes `{CR : Cryptography, SG : Signature} (key : string) (challenge response : bytes) (next : option bytes)
    (data : bytes) : Prop :=
  ∃ state signature,
    contribution_state_new (calculate_hash challenge) (calculate_hash response) (calculate_hash <$> next) = Ok state ∧
    sign key (contribution_state_json state) = Some signature ∧ hex_decode signature = Some data.
