(* ===== verification/ContributorProgram.v ===== *)
(** * The contributor's program

    [setup1-contributor/src/commands/contribute.rs]: which chunks a contributor
    still has to contribute to, one contribution from the lock of a chunk to
    the notification of the coordinator, and the loop around them.  The state
    is the files of the working directory and the network; waiting is left
    out. *)

From S2P Require Import Curve Elements MultiExp Accumulator Phase1.
From S2P Require Import Prelude Text Task Participant Errors Environment Phase1Parameters Contribution Chunk Round ParticipantInfo RoundMetrics CoordinatorState Serde Storage RoundStorage Commands RoundTransition DropParticipant Frame Coordinator RoundStore Contributing Ceremony Sample Responses Challenges Cli Operators.
From Stdlib Require Import Ascii Strings.Byte.

(** ** The round as the contributor sees it *)

(** [chunk_all_verified] *)
Definition chunk_all_verified (chunk : Chunk) : bool :=
  forallb (λ c, verified c.2) (map_to_list (Chunk.contributions chunk)).

(** [contributor_ids_in_chunk]: the identity is the text before the first dot. *)
Definition contributor_name (p : Participant) : string :=
  default EmptyString (head (split "."%char (participant_to_string p))).
Definition contributor_ids_in_chunk (chunk : Chunk) : list string :=
  omap (λ c, if verified c.2 then contributor_name <$> contributor_id c.2 else None)
    (map_to_list (Chunk.contributions chunk)).

(** [get_non_contributed_chunks] *)
Definition is_non_contributed (participant_id : string) (chunk : Chunk) : bool :=
  if negb (chunk_all_verified chunk) then false
  else negb (bool_decide (participant_id ∈ contributor_ids_in_chunk chunk)).
Definition get_non_contributed_chunks (ceremony : Round) (participant_id : string) : list Chunk :=
  List.filter (is_non_contributed participant_id) (chunks ceremony).

(** [get_non_contributed_and_available_chunks] *)
Definition get_non_contributed_and_available_chunks (ceremony : Round) (participant_id : string) : list Chunk :=
  List.filter (λ c, negb (is_locked c)) (get_non_contributed_chunks ceremony participant_id).

(** ** Answers of the server *)

Inductive ContributorStatus := InQueue (position queue_size : N) | InRound | IsFinished | IsOther.

Record LockResponse := MkLockResponse {
  lk_chunk_id : N;
  lk_contribution_id : N;
  lk_locked : bool;
  lk_participant_id : string;
  lk_previous_response_locator : string;
  lk_challenge_locator : string;
  lk_response_locator : string;
  lk_response_chunk_id : N;
  lk_response_contribution_id : N;
}.

(** [setup_keys/confirmation_key.rs] *)
Record ConfirmationKey := MkConfirmationKey { ck_address : string; ck_private_key : string }.

(** [serde_json], and a hash function *)
Class ContributorFormats := {
  status_from_slice : bytes → option ContributorStatus;
  lock_from_slice : bytes → option LockResponse;
  bool_from_slice : bytes → option bool;
  string_to_vec : string → bytes;
  key_to_vec : ConfirmationKey → bytes;
  key_from_slice : bytes → option ConfirmationKey;
  (* blake2 *)
  blake2s : bytes → bytes;
}.

Inductive ContributeError :=
| FailedRunningContribute
| RequestFailed
| Undecodable
| NoKey
| NoFile
| NotHex
| SignatureError (e : CoordinatorError)
| NotJoined
| StillTrying.

(** [Contribute] *)
Record Contribute := MkContribute {
  participant_id : string;
  private_key : string;
  seed : bytes;
  ct_environment : Environment;
}.

(** What one pass of the loop of [run] comes to. *)
Inductive Pass := Waiting | Contributed | Finished.

Section contributor.
Context `{TA : TimeApi, SE : !Serde, CR : Cryptography, SG : Signature, SV : Server, WA : Wallet, CF : ContributorFormats}.
Implicit Types (c : Contribute).

Notation action A := (M ContributeError Files A).
Notation session A := (M ContributeError (Files * Network) A).

Definition on_files {A} (m : action A) : session A := zoom fst (λ fs s, (fs, s.2)) m.

(** A request, with its authorization, and the body of a successful answer. *)
Definition request (r : Request) : session bytes := λ s,
  let '(answer, network) := send r s.2 in
  (match answer with Some (true, body) => Ok body | _ => Err RequestFailed end, (s.1, network)).
Definition authorized c (method path : string) (body : bytes) : session bytes :=
  let! authorization := lift (ok_or (get_authorization_value (private_key c) method path) NoKey) in
  request (MkRequest method path (Some authorization) body).

(** [ConfirmationKey::for_current_round] and its helpers; a new private key is
    that of a fresh account. *)
Definition CONFIRMATION_KEY_FILE : string := ".confirmation_key".
Definition read_from_disk : action ConfirmationKey :=
  let! bytes := read_from_file NoFile CONFIRMATION_KEY_FILE in
  lift (ok_or (key_from_slice bytes) Undecodable).
Definition write_to_disk (key_file : ConfirmationKey) : action unit :=
  write_file CONFIRMATION_KEY_FILE (key_to_vec key_file).
Definition create_new (fresh : string) (address : string) : action ConfirmationKey :=
  let key_file := MkConfirmationKey address fresh in
  write_to_disk key_file ;;; ret key_file.
Definition hash_contents (key_file : ConfirmationKey) : string :=
  hex_encode (blake2s (string_bytes (ck_address key_file +:+ ck_private_key key_file))).
Definition for_current_round (fresh : string) (address : string) : action string :=
  let! exists_ := gets (λ fs, is_some (fs !! CONFIRMATION_KEY_FILE)) in
  let! key_file :=
    if exists_ then
      let! key_file := read_from_disk in
      if bool_decide (ck_address key_file = address) then ret key_file else create_new fresh address
    else create_new fresh address in
  ret (hash_contents key_file).

(** [print_key_and_remove_the_file] *)
Definition print_key_and_remove_the_file : action unit :=
  read_from_disk ;;; remove_file_if_exists CONFIRMATION_KEY_FILE.

(** [join_queue], with the version of the program *)
Definition join_queue (fresh : string) c : session bool :=
  let path := "/v1/queue/contributor/join/0/1/0" in
  let! authorization := lift (ok_or (get_authorization_value (private_key c) "POST" path) NoKey) in
  let! confirmation_key := on_files (for_current_round fresh (participant_id c)) in
  let! data := request (MkRequest "POST" path (Some authorization) (string_to_vec confirmation_key)) in
  lift (ok_or (bool_from_slice data) Undecodable).

(** [get_contributor_status], [get_ceremony] and [lock_chunk] *)
Definition get_contributor_status c : session ContributorStatus :=
  let! data := authorized c "POST" "/v1/contributor/status" [] in
  lift (ok_or (status_from_slice data) Undecodable).
Definition get_ceremony : session Round :=
  let! data := request (MkRequest "GET" "/v1/round/current" None []) in
  lift (ok_or (round_from_slice data) Undecodable).
Definition lock_chunk c : session LockResponse :=
  let! data := authorized c "POST" "/v1/contributor/try_lock" [] in
  lift (ok_or (lock_from_slice data) Undecodable).

Definition numbered (path : string) (chunk_id contribution_id : N) : string :=
  path +:+ u64_to_string chunk_id +:+ "/" +:+ u64_to_string contribution_id.

(** [download_challenge]: the file is created anew. *)
Definition download_challenge c (chunk_id contribution_id : N) (file_path : string) : session unit :=
  let! data := authorized c "GET" (numbered "/v1/download/challenge/" chunk_id contribution_id) [] in
  on_files (remove_file_if_exists file_path ;;; write_file file_path data).

(** [upload_response] and [notify_contribution] *)
Definition upload_response c (chunk_id contribution_id : N) (contents : bytes) : session unit :=
  authorized c "POST" (numbered "/v1/upload/response/" chunk_id contribution_id) contents ;;; ret tt.
Definition notify_contribution c (chunk_id : N) (body : bytes) : session unit :=
  authorized c "POST" ("/v1/contributor/try_contribute/" +:+ u64_to_string chunk_id) body ;;; ret tt.

(** ** One contribution *)

(** The thread in which the contribution runs: its panic is an error. *)
Definition in_thread (m : on Files unit) : action unit := λ fs,
  match m fs with (Ok _, fs) => (Ok tt, fs) | (_, fs) => (Err FailedRunningContribute, fs) end.

(** [sign_contribution_state] *)
Definition sign_contribution_state (signing_key : string) (challenge_hash response_hash : bytes)
    (next_challenge_hash : option bytes) : outcome ContributeError ContributionFileSignature :=
  try! state := map_err SignatureError (contribution_state_new challenge_hash response_hash next_challenge_hash) in
  try! signature := ok_or (sign signing_key (contribution_state_json state)) NoKey in
  map_err SignatureError (contribution_file_signature_new signature state).

(** [run], from the challenge file to what is uploaded. *)
Definition compute_contribution c (chunk_id : N) : action bytes :=
  let env := ct_environment c in
  let seeded_rng := derive_rng_from_seed (E := environment_engine env) (seed c) in
  remove_file_if_exists "response" ;;;
  in_thread (cli_contribute (curve (parameters env)) (compressed_inputs env) "challenge" (compressed_outputs env) "response"
    (check_input_for_correctness env) (create_parameters_for_chunk env chunk_id) seeded_rng) ;;;
  let! challenge_file := read_from_file NoFile "challenge" in
  let! response_file := read_from_file NoFile "response" in
  let challenge_hash := calculate_hash challenge_file in
  let response_hash := calculate_hash response_file in
  let! view_key := lift (ok_or (view_key_of (private_key c)) NoKey) in
  let! signed := lift (sign_contribution_state view_key challenge_hash response_hash None) in
  let! signature_bytes := lift (ok_or (hex_decode (cfs_signature signed)) NotHex) in
  ret (upload x00 signature_bytes [challenge_hash; response_hash] response_file).

(** The loops that try again. *)
Definition retry {A} (fuel : nat) (m : session A) : session A := until_ok StillTrying fuel m.

(** [serde_json::json!({})] *)
Definition empty_json : bytes := string_bytes "{}".

(** [run], from the lock to the notification. *)
Definition contribute_to_chunk (fuel : nat) c (lock : LockResponse) : session unit :=
  download_challenge c (lk_chunk_id lock) (lk_contribution_id lock) "challenge" ;;;
  let! contents := on_files (compute_contribution c (lk_chunk_id lock)) in
  retry fuel (upload_response c (lk_response_chunk_id lock) (lk_response_contribution_id lock) contents) ;;;
  retry fuel (notify_contribution c (lk_chunk_id lock) empty_json).

(** [run]: one pass of its loop. *)
Definition run_pass (fuel : nat) c : session Pass :=
  let! status := get_contributor_status c in
  match status with
  | InQueue _ _ | IsOther => ret Waiting
  | InRound | IsFinished =>
      let! ceremony := get_ceremony in
      let non_contributed_chunks := get_non_contributed_chunks ceremony (participant_id c) in
      let incomplete_chunks := get_non_contributed_and_available_chunks ceremony (participant_id c) in
      if is_nil incomplete_chunks then
        if is_nil non_contributed_chunks then
          on_files (remove_file_if_exists "challenge" ;;; remove_file_if_exists "response") ;;;
          ret Finished
        else ret Waiting
      else
        let! lock := lock_chunk c in
        contribute_to_chunk fuel c lock ;;;
        ret Contributed
  end.

(** [run]: the loop, up to [passes] times. *)
Fixpoint run (passes fuel : nat) c : session unit :=
  match passes with
  | 0 => fail StillTrying
  | S passes =>
      let! pass := run_pass fuel c in
      match pass with Finished => ret tt | _ => run passes fuel c end
  end.

(** [run_and_catch_errors], up to the questions at its end; the heartbeats of
    another thread are left out. *)
Definition run_and_catch_errors (passes fuel : nat) (fresh : string) c : session unit :=
  let! joined := retry fuel (join_queue fresh c) in
  bail_if (λ _, negb joined) with NotJoined ;;;
  retry fuel (run passes fuel c) ;;;
  λ s, match on_files print_key_and_remove_the_file s with
       | (Err _, s) => (Panic, s)
       | r => r
       end.
End contributor.

(** ** When the contributor takes itself for finished *)

Lemma chunk_all_verified_false chunk :
  chunk_all_verified chunk = false ↔ ∃ i k, Chunk.contributions chunk !! i = Some k ∧ verified k = false.
Proof.
  unfold chunk_all_verified. rewrite <-not_true_iff_false, forallb_forall. split.
  - intros Hnot. destruct (decide (map_Forall (λ _ k, verified k = true) (Chunk.contributions chunk))) as [Hall|Hex].
    + exfalso. apply Hnot. intros [i k] Hik%list_elem_of_In%elem_of_map_to_list. by apply (Hall i).
    + apply map_not_Forall in Hex as (i & k & Hk & Hv); [|apply _]. exists i, k. split; [done|]. by destruct (verified k).
  - intros (i & k & Hk & Hv) Hall. specialize (Hall (i, k)). cbn in Hall. rewrite Hall in Hv; [done|].
    by apply list_elem_of_In, elem_of_map_to_list.
Qed.
Lemma elem_of_contributor_ids id chunk :
  id ∈ contributor_ids_in_chunk chunk ↔
  ∃ i k p, Chunk.contributions chunk !! i = Some k ∧ verified k = true ∧ contributor_id k = Some p ∧ contributor_name p = id.
Proof.
  unfold contributor_ids_in_chunk. rewrite list_elem_of_omap. split.
  - intros ([i k] & Hik%elem_of_map_to_list & H). cbn in H. destruct (verified k) eqn:Hv; [|done].
    destruct (contributor_id k) as [p|] eqn:Hp; [|done]. injection H as <-. by exists i, k, p.
  - intros (i & k & p & Hk & Hv & Hp & <-). exists (i, k). split; [by apply elem_of_map_to_list|]. cbn. by rewrite Hv, Hp.
Qed.

(** A chunk the contributor does not come back to. *)
Definition passed_over (id : string) (chunk : Chunk) : Prop :=
  (∃ i k, Chunk.contributions chunk !! i = Some k ∧ verified k = false) ∨
  (∃ i k p, Chunk.contributions chunk !! i = Some k ∧ verified k = true ∧ contributor_id k = Some p ∧ contributor_name p = id).

Lemma is_non_contributed_false id chunk : is_non_contributed id chunk = false ↔ passed_over id chunk.
Proof.
  unfold is_non_contributed, passed_over. rewrite <-chunk_all_verified_false, <-elem_of_contributor_ids.
  destruct (chunk_all_verified chunk); cbn [negb].
  - rewrite negb_false_iff, bool_decide_eq_true. naive_solver.
  - naive_solver.
Qed.
Lemma no_chunk_left id ceremony :
  get_non_contributed_chunks ceremony id = [] ↔ ∀ chunk, chunk ∈ chunks ceremony → passed_over id chunk.
Proof.
  unfold get_non_contributed_chunks. induction (chunks ceremony) as [|chunk cs IH]; cbn [List.filter].
  - split; [|done]. intros _ chunk H. by apply elem_of_nil in H.
  - setoid_rewrite elem_of_cons. destruct (is_non_contributed id chunk) eqn:H.
    + split; [done|]. intros Hall. pose proof (proj2 (is_non_contributed_false id chunk) (Hall chunk (or_introl eq_refl))). congruence.
    + apply is_non_contributed_false in H. rewrite IH. naive_solver.
Qed.

Section finishing.
Context `{TA : TimeApi, SE : !Serde, CR : Cryptography, SG : Signature, SV : Server, WA : Wallet, CF : ContributorFormats}.
Implicit Types (c : Contribute) (s : Files * Network).

(** C22. A contributor in the round takes itself for finished - it removes its
    files and thanks its operator - exactly when every chunk either has a
    verified contribution of it or has a contribution that is not verified
    yet, whoever made it: while a verification is outstanding in each of the
    chunks that are left to it, it leaves without contributing to them. *)
Theorem contributor_stops_at_unverified_chunks fuel c s s1 s2 status ceremony
    (Hstatus : get_contributor_status c s = (Ok status, s1)) (Hround : status = InRound ∨ status = IsFinished)
    (Hceremony : get_ceremony s1 = (Ok ceremony, s2)) :
  ((run_pass fuel c s).1 = Ok Finished ↔
   ∀ chunk, chunk ∈ chunks ceremony → passed_over (participant_id c) chunk) ∧
  ((run_pass fuel c s).1 = Ok Finished →
   (run_pass fuel c s).2 = (delete "response" (delete "challenge" s2.1), s2.2)).
Proof.
  assert (run_pass fuel c s =
    (let non_contributed_chunks := get_non_contributed_chunks ceremony (participant_id c) in
     if is_nil (get_non_contributed_and_available_chunks ceremony (participant_id c)) then
       if is_nil non_contributed_chunks then
         on_files (remove_file_if_exists "challenge" ;;; remove_file_if_exists "response") ;;; ret Finished
       else ret Waiting
     else (let! lock := lock_chunk c in contribute_to_chunk fuel c lock) ;;; ret Contributed) s2) as ->.
  { unfold run_pass. rewrite (run_bind _ _ _ _ _ Hstatus).
    destruct Hround as [-> | ->]; rewrite (run_bind _ _ _ _ _ Hceremony); cbv zeta;
      (destruct (is_nil _); [done | by rewrite bind_assoc]). }
  cbv zeta. rewrite <-no_chunk_left. unfold get_non_contributed_and_available_chunks.
  destruct (get_non_contributed_chunks _ _) as [|chunk left_chunks] eqn:Hleft; [by destruct s2|].
  cbn [is_nil]. destruct (is_nil _); [done|]. unfold bind, ret.
  destruct (lock_chunk c s2) as [[lock| |] s3]; [|done|done]. by destruct (contribute_to_chunk fuel c lock s3) as [[] ?].
Qed.
End finishing.

(** ** What the contributor uploads *)

Section uploading.
Context `{TA : TimeApi, SE : !Serde, CR : Cryptography, SG : Signature, SV : Server, WA : Wallet, CF : ContributorFormats}.
Context (c : Contribute) (chunk_id : N).
Notation env := (ct_environment c).
Notation p := (chunked_parameters (parameters env) chunk_id).
Context (Hmode : contribution_mode (parameters env) = Chunked).
Context (Hci : compressed_inputs env = CompressionNo) (Hco : compressed_outputs env = CompressionYes).
Context (view_key : string) (Hkey : view_key_of (private_key c) = Some view_key) (Hsign : can_sign view_key).

(** Whatever the files, what is computed from a challenge is the response of
    the coordinator's computation, signed. *)
Lemma contribution_computed fs challenge u response :
  fs !! "challenge" = Some challenge → len challenge = accumulator_size p →
  contribute_response env chunk_id challenge (seed c) (Storage.zeros (contribution_size p)) = (Ok u, response) →
  ∃ data, signs_hashes view_key challenge response None data ∧
    compute_contribution c chunk_id fs =
      (Ok (upload x00 data [calculate_hash challenge; calculate_hash response] response), <["response" := response]> fs).
Proof.
  intros Hc Hl Hrun. destruct (state_of_hashes challenge response None) as [state Hstate].
  destruct (Hsign (contribution_state_json state)) as (signature & data & Hs & Hd & H64).
  exists data. split; [by exists state, signature|].
  pose proof (cli_contributes env chunk_id "challenge" "response" (delete "response" fs) challenge (seed c) u response Hci Hco) as Hcli.
  rewrite lookup_delete_ne, lookup_delete_eq in Hcli by done. specialize (Hcli Hc eq_refl Hl Hrun).
  unfold compute_contribution. unfold remove_file_if_exists, bind at 1, modify.
  rewrite (create_parameters_chunked _ _ Hmode), Hci, Hco.
  unfold bind at 1, in_thread. rewrite Hcli, insert_delete_eq.
  unfold bind, read_from_file, lift. rewrite lookup_insert_ne, lookup_insert_eq, Hc by done. cbn [ok_or].
  rewrite Hkey. cbn [ok_or]. unfold sign_contribution_state. cbn [fmap option_fmap option_map] in Hstate. rewrite Hstate.
  cbn [map_err bind_outcome]. rewrite Hs. cbn [ok_or bind_outcome].
  rewrite (signature_of_data _ _ _ Hd H64). cbn [map_err]. cbn [cfs_signature]. by rewrite Hd.
Qed.

(** A contribution between download and upload. *)
Lemma contribution_uploads fuel lock fs n n1 challenge u response :
  lk_chunk_id lock = chunk_id →
  authorized c "GET" (numbered "/v1/download/challenge/" chunk_id (lk_contribution_id lock)) [] (fs, n) =
    (Ok challenge, (fs, n1)) →
  len challenge = accumulator_size p →
  contribute_response env chunk_id challenge (seed c) (Storage.zeros (contribution_size p)) = (Ok u, response) →
  ∃ data, signs_hashes view_key challenge response None data ∧
    contribute_to_chunk fuel c lock (fs, n) =
      (retry fuel (upload_response c (lk_response_chunk_id lock) (lk_response_contribution_id lock)
         (upload x00 data [calculate_hash challenge; calculate_hash response] response)) ;;;
       retry fuel (notify_contribution c chunk_id empty_json))
      (<["response" := response]> (<["challenge" := challenge]> fs), n1).
Proof.
  intros Hlock Hdown Hl Hrun. set (fs1 := <["challenge" := challenge]> fs).
  assert (fs1 !! "challenge" = Some challenge) as Hc by (subst fs1; by rewrite lookup_insert_eq).
  destruct (contribution_computed fs1 challenge u response Hc Hl Hrun) as (data & Hdata & Hcomp).
  exists data. split; [done|]. unfold contribute_to_chunk. rewrite Hlock.
  unfold download_challenge. rewrite bind_assoc, (run_bind _ _ _ _ _ Hdown).
  erewrite run_bind_tt.
  2: { unfold on_files, zoom, remove_file_if_exists, write_file, bind, modify. cbn. by rewrite insert_delete_eq. }
  fold fs1. erewrite run_bind; [reflexivity|]. unfold on_files, zoom. cbn [fst]. by rewrite Hcomp.
Qed.
End uploading.

(** ** A contributor of the small ceremony *)

#[local] Existing Instance trie_order.
#[local] Existing Instance time_api.
#[local] Existing Instance plain_serde.
#[local] Existing Instance toy_cryptography.
#[local] Existing Instance dummy_signature.

(** A server that hands out files and takes every upload, and an account
    whose keys are its text. *)
Definition file_server : Server := {|
  Network := Files;
  send r n := (Some match n !! rq_path r with Some data => (true, data) | None => (true, []) end,
               if is_nil (rq_body r) then n else <[rq_path r := rq_body r]> n);
|}.
Definition plain_wallet : Wallet := {| view_key_of := Some; address_of := Some |}.
Definition no_formats : ContributorFormats := {|
  status_from_slice _ := Some InRound;
  lock_from_slice _ := None;
  bool_from_slice _ := None;
  string_to_vec := string_bytes;
  key_to_vec _ := [];
  key_from_slice _ := None;
  blake2s data := data;
|}.
#[local] Existing Instance file_server.
#[local] Existing Instance plain_wallet.
#[local] Existing Instance no_formats.

Definition sample_contributor : Contribute := MkContribute "alice" "key" (seed_of x02) sample_environment.

(** Alice and Bob contributed to one chunk each and nothing is verified. *)
Definition unverified : Coordinator.Coordinator :=
  ((contribute alice "key" (seed_of x02) 5 ;;; contribute bob "key" (seed_of x04) 6) sample_round).2.
Definition unverified_files : Files := {["/v1/round/current" := round_to_vec (loaded unverified)]}.
Definition unverified_network : Network := unverified_files.

Lemma unverified_status :
  get_contributor_status sample_contributor (∅, unverified_network) = (Ok InRound, (∅, unverified_network)).
Proof. vm_compute. reflexivity. Qed.
Lemma unverified_ceremony : get_ceremony (∅, unverified_network) = (Ok (loaded unverified), (∅, unverified_network)).
Proof. vm_compute. reflexivity. Qed.
Lemma nothing_verified : forallb (λ c, negb (chunk_all_verified c)) (chunks (loaded unverified)) = true.
Proof. vm_compute. reflexivity. Qed.

(** Alice's program is done although the coordinator still has a chunk for
    her. *)
Lemma contributor_stops_at_unverified_chunks_witness :
  (run_pass 1 sample_contributor (∅, unverified_network)).1 = Ok Finished ∧
  assigned_tasks <$> current_participant_info alice (Coordinator.state unverified) = Some [MkTask 1 2].
Proof.
  split; [|vm_compute; reflexivity].
  apply (contributor_stops_at_unverified_chunks (SV := file_server) (WA := plain_wallet) (CF := no_formats) 1 sample_contributor
    (∅, unverified_network) (∅, unverified_network) (∅, unverified_network) InRound (loaded unverified)
    unverified_status (or_introl eq_refl) unverified_ceremony).
  intros chunk Hchunk. left. apply chunk_all_verified_false.
  pose proof (proj1 (forallb_forall _ _) nothing_verified chunk (proj1 (list_elem_of_In _ _) Hchunk)) as H.
  by apply negb_true_iff in H.
Defined.
