(* ===== verification/VerifierProgram.v ===== *)
(** * The verifier's program

    [setup1-verifier/src]: the verifier asks the coordinator for a task, loads
    challenge and response, verifies the response with the command of
    [phase1-cli], and uploads the next challenge with its signature. *)

From S2P Require Import Curve Elements MultiExp Accumulator Phase1.
From S2P Require Import Prelude Text Participant Errors Environment Phase1Parameters ParticipantInfo RoundMetrics CoordinatorState Serde Commands Responses Sample Challenges Cli Operators ContributorProgram.
From Stdlib Require Import Ascii Strings.Byte.

Inductive VerifierError :=
| Crate (name : string)
| VerifierCoordinatorError (e : CoordinatorError)
| FailedChallengeDownload (path : string)
| FailedRequest (path : string)
| FailedResponseDownload (path : string)
| FailedChallengeUpload (path : string)
| MismatchedResponseHashes
| MissingStoredResponseHash.

Record AssignedTask := MkAssignedTask { as_round_id : N; as_chunk_id : N; as_contribution_id : N }.

(** [serde_json]: the answer may be [null]. *)
Class VerifierFormats := { task_from_slice : bytes → option (option AssignedTask) }.

(** [Verifier] *)
Record Verifier := MkVerifier {
  vf_view_key : string;
  vf_verifier : Participant;
  vf_environment : Environment;
}.

(** [Verifier::new] *)
Definition verifier_new (view_key address : string) (environment : Environment) : Verifier :=
  MkVerifier view_key (Participant.Verifier address) environment.

Section verifier.
Context `{CR : Cryptography, SG : Signature, SV : Server, WA : Wallet, VF : VerifierFormats}.
Implicit Types (v : Verifier).

Notation action A := (M VerifierError Files A).
Notation session A := (M VerifierError (Files * Network) A).

(** ** Requests *)

(** A request of [coordinator_requests.rs], with the error for an answer
    without success. *)
Definition authenticated_request v (method path : string) (body : bytes) (failed : string → VerifierError) : session bytes := λ s,
  match authenticate (vf_view_key v) method path with
  | None => (Err (Crate "snarkvm_dpc"), s)
  | Some authentication =>
      let '(answer, network) := send (MkRequest method path (Some authentication) body) s.2 in
      (match answer with
       | Some (true, data) => Ok data
       | Some (false, _) => Err (failed path)
       | None => Err (FailedRequest path)
       end, (s.1, network))
  end.

Definition download_response_file v (chunk_id contribution_id : N) : session bytes :=
  authenticated_request v "get" (numbered "/v1/download/response/" chunk_id contribution_id) [] FailedResponseDownload.
Definition download_challenge_file v (chunk_id contribution_id : N) : session bytes :=
  authenticated_request v "get" (numbered "/v1/download/verifier_challenge/" chunk_id contribution_id) [] FailedChallengeDownload.
Definition upload_next_challenge_locator_file v (chunk_id contribution_id : N) (contents : bytes) : session bytes :=
  authenticated_request v "post" (numbered "/v1/upload/challenge/" chunk_id contribution_id) contents FailedChallengeUpload.

(** [get_task]: every failure but that of its own key is no task. *)
Definition get_task v : session (option AssignedTask) := λ s,
  match authenticate (vf_view_key v) "post" "/v1/verifier/get_task" with
  | None => (Panic, s)
  | Some authentication =>
      let '(answer, network) := send (MkRequest "post" "/v1/verifier/get_task" (Some authentication) []) s.2 in
      (Ok (match answer with Some (true, data) => default None (task_from_slice data) | _ => None end), (s.1, network))
  end.

(** ** One verification *)

Definition on_local {A} (m : action A) : session A := zoom fst (λ fs s, (fs, s.2)) m.

(** [process_challenge_file] and [process_response_file] *)
Definition process_challenge_file v (chunk_id contribution_id : N) (challenge_locator : string) : session bytes :=
  let! challenge_file := download_challenge_file v chunk_id contribution_id in
  let challenge_hash := calculate_hash challenge_file in
  on_local (write_file challenge_locator challenge_file) ;;;
  ret challenge_hash.
Definition process_response_file v (chunk_id contribution_id : N) (response_locator : string) : session bytes :=
  let! response_file := download_response_file v chunk_id contribution_id in
  let response_hash := calculate_hash response_file in
  on_local (remove_file_if_exists response_locator ;;; write_file response_locator response_file) ;;;
  ret response_hash.

(** [read_next_challenge_file] *)
Definition read_next_challenge_file (next_challenge_locator : string) : action (bytes * bytes) :=
  let! next_challenge_file := read_from_file (Crate "std::io") next_challenge_locator in
  ret (next_challenge_file, calculate_hash next_challenge_file).

(** [run_verification]: the command panics when the verification fails. *)
Definition run_verification v (chunk_id : N) (challenge_file_locator response_locator next_challenge_locator : string)
    : action unit :=
  remove_file_if_exists next_challenge_locator ;;;
  let env := vf_environment v in
  let compressed_challenge := compressed_inputs env in
  λ fs,
    match cli_transform (curve (parameters env)) compressed_challenge challenge_file_locator (compressed_outputs env)
      response_locator compressed_challenge next_challenge_locator (chunked_parameters (parameters env) chunk_id) fs with
    | (Ok u, fs) => (Ok u, fs)
    | (_, fs) => (Panic, fs)
    end.

(** [verify_response_hash] *)
Definition verify_response_hash (next_challenge_file response_hash : bytes) : outcome VerifierError unit :=
  match next_challenge_file with
  | [] => Err MissingStoredResponseHash
  | _ => if bool_decide (response_hash = take 64 next_challenge_file) then Ok tt else Err MismatchedResponseHashes
  end.

(** [sign_contribution_data] *)
Definition sign_contribution_data v (challenge_hash response_hash next_challenge_hash : bytes)
    : outcome VerifierError ContributionFileSignature :=
  try! contribution_state := map_err VerifierCoordinatorError
    (contribution_state_new challenge_hash response_hash (Some next_challenge_hash)) in
  try! signature := ok_or (sign (vf_view_key v) (contribution_state_json contribution_state)) (Crate "snarkvm_dpc") in
  map_err VerifierCoordinatorError (contribution_file_signature_new signature contribution_state).

(** [serialize_contribution_and_signature] *)
Definition serialize_contribution_and_signature v (challenge_hash response_hash next_challenge_hash next_challenge_file : bytes)
    : outcome VerifierError bytes :=
  try! signed_contribution_data := sign_contribution_data v challenge_hash response_hash next_challenge_hash in
  try! signature_bytes := ok_or (hex_decode (cfs_signature signed_contribution_data)) (Crate "hex") in
  Ok (upload x01 signature_bytes [challenge_hash; response_hash; next_challenge_hash] next_challenge_file).

(** [try_verify] *)
Definition try_verify v (task : AssignedTask) : session unit :=
  let chunk_id := as_chunk_id task in
  let contribution_id := as_contribution_id task in
  let! challenge_hash := process_challenge_file v chunk_id contribution_id "challenge" in
  let! response_hash := process_response_file v chunk_id contribution_id "response" in
  on_local (run_verification v chunk_id "challenge" "response" "next_challenge") ;;;
  let! next := on_local (read_next_challenge_file "next_challenge") in
  let '(next_challenge_file, next_challenge_hash) := next in
  lift (verify_response_hash next_challenge_file response_hash) ;;;
  let! contents := lift (serialize_contribution_and_signature v challenge_hash response_hash next_challenge_hash
    next_challenge_file) in
  upload_next_challenge_locator_file v chunk_id contribution_id contents ;;;
  ret tt.

(** [start_verifier]: one pass of its loop; an error is only logged. *)
Definition verifier_pass v : session unit :=
  let! task := get_task v in
  match task with
  | None => ret tt
  | Some task => λ s, match try_verify v task s with (Err _, s) => (Ok tt, s) | r => r end
  end.
End verifier.

(** ** Contributor and verifier in sequence *)

Section ceremony.
Context `{TA : TimeApi, SE : !Serde, CR : Cryptography, SG : Signature, SV : Server, WA : Wallet,
  CF : ContributorFormats, VF : VerifierFormats}.

Lemma on_local_ok {A} (m : M VerifierError Files A) fs n a fs' : m fs = (Ok a, fs') → on_local m (fs, n) = (Ok a, (fs', n)).
Proof. intros Hm. unfold on_local, zoom. cbn. by rewrite Hm. Qed.

Context (v : Verifier) (chunk_id : N).
Notation env := (vf_environment v).
Notation p := (chunked_parameters (parameters env) chunk_id).
Context (Hci : compressed_inputs env = CompressionNo) (Hco : compressed_outputs env = CompressionYes).

Lemma run_verification_ok fs challenge response h u next :
  fs !! "challenge" = Some challenge → fs !! "response" = Some response →
  len challenge = accumulator_size p → len response = contribution_size p →
  transform_pok_and_correctness env chunk_id challenge response = Ok h →
  decompress_response env chunk_id response h (Storage.zeros (accumulator_size p)) = (Ok u, next) →
  run_verification v chunk_id "challenge" "response" "next_challenge" fs = (Ok tt, <["next_challenge" := next]> fs).
Proof.
  intros Hc Hr Lc Lr Hok Hdec.
  pose proof (cli_transforms env chunk_id "challenge" "response" "next_challenge" (delete "next_challenge" fs)
    challenge response h u next Hci Hco) as Hcli.
  rewrite !lookup_delete_ne, lookup_delete_eq in Hcli by done. specialize (Hcli Hc Hr eq_refl Lc Lr Hok Hdec).
  unfold run_verification, remove_file_if_exists. unfold bind, modify. by rewrite Hci, Hco, Hcli, insert_delete_eq.
Qed.

Context (Hsign : can_sign (vf_view_key v)).

(** The next challenge starts with the hash of the response, so the check of
    the saved hash passes, and what is uploaded is signed. *)
Lemma next_challenge_serialized challenge response next :
  take 64 next = calculate_hash response →
  verify_response_hash next (calculate_hash response) = Ok tt ∧
  ∃ data, signs_hashes (vf_view_key v) challenge response (Some next) data ∧
    serialize_contribution_and_signature v (calculate_hash challenge) (calculate_hash response) (calculate_hash next) next =
      Ok (upload x01 data [calculate_hash challenge; calculate_hash response; calculate_hash next] next).
Proof.
  intros Hnext. split.
  - unfold verify_response_hash. destruct next as [|b next].
    + pose proof (calculate_hash_length response) as Hl. by rewrite <-Hnext in Hl.
    + by rewrite bool_decide_eq_true_2.
  - destruct (state_of_hashes challenge response (Some next)) as [state Hstate].
    destruct (Hsign (contribution_state_json state)) as (signature & data & Hs & Hd & H64).
    exists data. split; [by exists state, signature|]. cbn [fmap option_fmap option_map] in Hstate.
    unfold serialize_contribution_and_signature, sign_contribution_data. rewrite Hstate. cbn [map_err bind_outcome].
    rewrite Hs. cbn [ok_or bind_outcome]. rewrite (signature_of_data _ _ _ Hd H64). cbn [map_err bind_outcome cfs_signature].
    by rewrite Hd.
Qed.

(** A verification between download and upload. *)
Lemma try_verify_uploads id fs n n1 n2 round challenge response h u next :
  download_challenge_file v chunk_id id (fs, n) = (Ok challenge, (fs, n1)) →
  download_response_file v chunk_id id (<["challenge" := challenge]> fs, n1) =
    (Ok response, (<["challenge" := challenge]> fs, n2)) →
  len challenge = accumulator_size p → len response = contribution_size p →
  transform_pok_and_correctness env chunk_id challenge response = Ok h →
  decompress_response env chunk_id response h (Storage.zeros (accumulator_size p)) = (Ok u, next) →
  ∃ data, signs_hashes (vf_view_key v) challenge response (Some next) data ∧
    try_verify v (MkAssignedTask round chunk_id id) (fs, n) =
      (upload_next_challenge_locator_file v chunk_id id
         (upload x01 data [calculate_hash challenge; calculate_hash response; calculate_hash next] next) ;;; ret tt)
      (<["next_challenge" := next]> (<["response" := response]> (<["challenge" := challenge]> fs)), n2).
Proof.
  intros Hdc Hdr Lc Lr Hok Hdec. pose proof (coordinator_checks _ _ _ _ _ Hok) as (Hh & _). subst h.
  assert (take 64 next = calculate_hash response) as Hnext.
  { by apply (decompress_response_chained env chunk_id response _ _ u next (calculate_hash_length _) Hdec). }
  destruct (next_challenge_serialized challenge response next Hnext) as (Hsaved & data & Hdata & Hser).
  exists data. split; [done|]. unfold try_verify. cbn [as_chunk_id as_contribution_id].
  unfold process_challenge_file. rewrite bind_assoc, (run_bind _ _ _ _ _ Hdc).
  rewrite bind_assoc. erewrite run_bind_tt by (apply on_local_ok; reflexivity).
  unfold ret at 1, bind at 1. unfold process_response_file. rewrite bind_assoc, (run_bind _ _ _ _ _ Hdr).
  rewrite bind_assoc. erewrite run_bind_tt by (apply on_local_ok; reflexivity).
  unfold ret at 1, bind at 1. rewrite insert_delete_eq.
  erewrite run_bind_tt.
  2: { apply on_local_ok, (run_verification_ok _ challenge response (calculate_hash response) u next); try done.
       - by rewrite lookup_insert_ne, lookup_insert_eq.
       - by rewrite lookup_insert_eq. }
  erewrite run_bind.
  2: { apply on_local_ok. unfold read_next_challenge_file, bind, read_from_file. rewrite lookup_insert_eq. reflexivity. }
  cbv beta iota. unfold bind at 1, lift at 1. rewrite Hsaved. unfold bind at 1, lift at 1. by rewrite Hser.
Qed.

(** C17. The operators' programs run the ceremony of the coordinator.  When both
    get the same challenge and the verifier the contributor's response, the
    contributor uploads a response behind its signature and the hashes of both
    files, and the verifier - whose command accepts the response - uploads,
    behind its signature and the three hashes, the challenge that the
    coordinator's own steps come to; from then on only the answers to the
    uploads matter. *)
Theorem operators_run_the_ceremony c view_key lock round id fs fs' n n1 n' n1' n2' challenge next fuel
    (Henv : ct_environment c = env) (Hmode : contribution_mode (parameters env) = Chunked)
    (Hkey : key_behind_hash env chunk_id)
    (Hview : view_key_of (private_key c) = Some view_key) (Hcan : can_sign view_key)
    (Hlock : lk_chunk_id lock = chunk_id) (Hl : len challenge = accumulator_size p)
    (Hstep : honest_step env chunk_id challenge (seed c) = Ok next)
    (Hdown : authorized c "GET" (numbered "/v1/download/challenge/" chunk_id (lk_contribution_id lock)) [] (fs, n) =
       (Ok challenge, (fs, n1)))
    (Hdown' : download_challenge_file v chunk_id id (fs', n') = (Ok challenge, (fs', n1')))
    (Hresponse : download_response_file v chunk_id id (<["challenge" := challenge]> fs', n1') =
       (Ok (computed_response env chunk_id challenge (seed c)), (<["challenge" := challenge]> fs', n2'))) :
  let response := computed_response env chunk_id challenge (seed c) in
  ∃ data data', signs_hashes view_key challenge response None data ∧
    signs_hashes (vf_view_key v) challenge response (Some next) data' ∧
    contribute_to_chunk fuel c lock (fs, n) =
      (retry fuel (upload_response c (lk_response_chunk_id lock) (lk_response_contribution_id lock)
         (upload x00 data [calculate_hash challenge; calculate_hash response] response)) ;;;
       retry fuel (notify_contribution c chunk_id empty_json))
      (<["response" := response]> (<["challenge" := challenge]> fs), n1) ∧
    try_verify v (MkAssignedTask round chunk_id id) (fs', n') =
      (upload_next_challenge_locator_file v chunk_id id
         (upload x01 data' [calculate_hash challenge; calculate_hash response; calculate_hash next] next) ;;; ret tt)
      (<["next_challenge" := next]> (<["response" := response]> (<["challenge" := challenge]> fs')), n2').
Proof.
  unfold honest_step, contribution_file_size, unverified_contribution_size, verified_contribution_size in Hstep.
  unfold computed_response in *. rewrite Hci, Hco in Hstep.
  destruct (contribute_response _ _ _ _ _) as [o response] eqn:Hrun. cbn [snd] in *.
  apply bind_outcome_ok in Hstep as (u & -> & Hstep). apply bind_outcome_ok in Hstep as (h & Hok & Hstep).
  destruct (decompress_response _ _ _ _ _) as [o file] eqn:Hdec. apply bind_outcome_ok in Hstep as (u' & -> & [= ->]).
  pose proof (honest_response_size env chunk_id challenge (seed c) u response Hkey Hrun) as Hlr.
  pose proof (contribution_uploads c chunk_id) as Hup. rewrite Henv in Hup.
  destruct (Hup Hmode Hci Hco view_key Hview Hcan fuel lock fs n n1 challenge u response Hlock Hdown Hl Hrun)
    as (data & Hdata & Hcontribute).
  destruct (try_verify_uploads id fs' n' n1' n2' round challenge response h u' next) as (data' & Hdata' & Hverify); try done.
  by exists data, data'.
Qed.
End ceremony.

(** ** The small ceremony over a server *)

#[local] Existing Instance trie_order.
#[local] Existing Instance time_api.
#[local] Existing Instance plain_serde.
#[local] Existing Instance toy_cryptography.
#[local] Existing Instance dummy_signature.

#[local] Existing Instance file_server.
#[local] Existing Instance plain_wallet.
#[local] Existing Instance no_formats.

Definition sample_verifier : Verifier := verifier_new "key" "verifier" sample_environment.
Definition sample_lock : LockResponse := MkLockResponse 0 0 true "alice" "" "" "" 0 1.
Definition sample_files : Files :=
  {["/v1/download/challenge/0/0" := toy_first; "/v1/download/verifier_challenge/0/1" := toy_first;
    "/v1/download/response/0/1" := sample_response]}.
Definition sample_network : Network := sample_files.

Lemma dummy_can_sign key : can_sign key.
Proof.
  intros message. exists (hex_encode (calculate_hash (string_bytes message))), (calculate_hash (string_bytes message)).
  split_and!; [done | apply hex_decode_encode | apply calculate_hash_length].
Qed.
Lemma sample_download :
  authorized sample_contributor "GET" (numbered "/v1/download/challenge/" 0 0) [] (∅, sample_network) =
  (Ok toy_first, (∅, sample_network)).
Proof. lazymatch goal with |- _ = ?r => vm_cast_no_check (eq_refl r) end. Qed.
Lemma sample_challenge_download :
  download_challenge_file sample_verifier 0 1 (∅, sample_network) = (Ok toy_first, (∅, sample_network)).
Proof. lazymatch goal with |- _ = ?r => vm_cast_no_check (eq_refl r) end. Qed.
Lemma sample_response_download :
  download_response_file sample_verifier 0 1 (<["challenge" := toy_first]> ∅, sample_network) =
  (Ok sample_response, (<["challenge" := toy_first]> ∅, sample_network)).
Proof. lazymatch goal with |- _ = ?r => vm_cast_no_check (eq_refl r) end. Qed.

Lemma operators_run_the_ceremony_witness :
  ∃ data data',
    contribute_to_chunk 1 sample_contributor sample_lock (∅, sample_network) =
      (retry 1 (upload_response sample_contributor 0 1
         (upload x00 data [calculate_hash toy_first; calculate_hash sample_response] sample_response)) ;;;
       retry 1 (notify_contribution sample_contributor 0 empty_json))
      (<["response" := sample_response]> (<["challenge" := toy_first]> ∅), sample_network) ∧
    try_verify sample_verifier (MkAssignedTask 1 0 1) (∅, sample_network) =
      (upload_next_challenge_locator_file sample_verifier 0 1
         (upload x01 data' [calculate_hash toy_first; calculate_hash sample_response; calculate_hash toy_second] toy_second) ;;;
       ret tt)
      (<["next_challenge" := toy_second]> (<["response" := sample_response]> (<["challenge" := toy_first]> ∅)), sample_network).
Proof.
  destruct (operators_run_the_ceremony (SG := dummy_signature) (SV := file_server) (WA := plain_wallet)
    sample_verifier 0 eq_refl eq_refl (dummy_can_sign "key") sample_contributor "key"
    sample_lock 1 1 ∅ ∅ sample_network sample_network sample_network sample_network sample_network toy_first toy_second 1
    eq_refl eq_refl sample_key_behind_hash eq_refl (dummy_can_sign "key") eq_refl sample_first_length sample_step
    sample_download sample_challenge_download sample_response_download) as (data & data' & _ & _ & H & H').
  exists data, data'. split; [exact H | exact H'].
Defined.
