(* ===== verification/Browser.v ===== *)
(** * The contributor in the browser

    [phase1-wasm/src]: the contribution to a challenge in memory, and the
    contributor that runs in a web page: its requests, its loops and its
    contribution to a chunk.  The pool of web workers only runs the tasks of
    [rayon]; waiting is left out. *)

From S2P Require Import Curve Elements MultiExp Accumulator Phase1 Layout Computation Verifying.
From S2P Require Import Prelude Text Errors Environment Phase1Parameters ParticipantInfo RoundMetrics CoordinatorState Serde Storage Commands Sample Responses Challenges Cli Operators ContributorProgram VerifierProgram.
From Stdlib Require Import Ascii Strings.Byte.

(** [phase1/src/helpers/converters.rs] *)
Definition curve_from_str (src : string) : option CurveKind :=
  let src := to_lowercase src in
  if bool_decide (src = "bls12_377") then Some Bls12_377
  else if bool_decide (src = "bw6") then Some BW6
  else None.
Definition contribution_mode_from_str (src : string) : option ContributionMode :=
  let src := to_lowercase src in
  if bool_decide (src = "full") then Some Full
  else if bool_decide (src = "chunked") then Some Chunked
  else None.
Definition proving_system_from_str (src : string) : option ProvingSystem :=
  let src := to_lowercase src in
  if bool_decide (src = "groth16") then Some Groth16
  else if bool_decide (src = "marlin") then Some Marlin
  else None.

Inductive BrowserError :=
| ChallengeSize (expected actual : N)
| NoKeypair
| NoContribution
| Io (e : SetupError)
| StateError (e : CoordinatorError)
| NotFetched
| NotSuccessful
| NotDecoded
| BadKey
| ReliabilityUnsupported
| UnsupportedSetup (kind : SetupKind)
| NeverAnswered.

(** ** A contribution in memory *)

Definition COMPRESSED_INPUT : UseCompression := CompressionNo.
Definition COMPRESSED_OUTPUT : UseCompression := CompressionYes.
Definition CHECK_INPUT_CORRECTNESS : CheckForCorrectness := CheckNo.

Record ContributionResponse := MkContributionResponse {
  current_accumulator_hash : bytes;
  cr_response : bytes;
  contribution_hash : bytes;
}.

Module Wasm.
(** [Settings] *)
Record Settings := MkSettings {
  curve_kind : string;
  proving_system : string;
  batch_size : N;
  power : N;
  chunk_size : N;
}.
End Wasm.

Definition INNER_SETTINGS : Wasm.Settings := Wasm.MkSettings "bls12_377" "groth16" 2097152 19 32768.
Definition DEVELOPMENT_SETTINGS : Wasm.Settings := Wasm.MkSettings "bls12_377" "groth16" 512 16 2048.

(** The response before the computation: the bytes of the hash, over and over. *)
Definition repeated_hash (hash : bytes) (size : N) : bytes :=
  (λ i, nth (i mod length hash) hash x00) <$> seq 0 (N.to_nat size).

Section memory.
Context `{CR : Cryptography}.

Definition get_parameters_full (k : CurveKind) (ps : ProvingSystem) (power batch_size : N) : Phase1Parameters :=
  new_full k ps power batch_size.
Definition get_parameters_chunked (k : CurveKind) (ps : ProvingSystem) (power batch_size chunk_index chunk_size : N)
    : Phase1Parameters :=
  new_chunk k Chunked chunk_index chunk_size ps power batch_size.

Definition contribute_challenge (k : CurveKind) (challenge : bytes) (p : Phase1Parameters) (rng : Rng (E := engine k))
    : outcome BrowserError ContributionResponse :=
  let expected_challenge_length :=
    match COMPRESSED_INPUT with CompressionYes => contribution_size p | CompressionNo => accumulator_size p end in
  if negb (len challenge =? expected_challenge_length)%N
  then Err (ChallengeSize expected_challenge_length (len challenge)) else
  let required_output_length :=
    match COMPRESSED_OUTPUT with
    | CompressionYes => contribution_size p
    | CompressionNo => usize_add (accumulator_size p) (public_key_size p)
    end in
  let hash := calculate_hash challenge in
  try! keys := map_err (λ _, NoKeypair) (fst (key_generation (engine k) hash_fuel hash rng)) in
  let '(o, response) := computation (engine k) challenge COMPRESSED_INPUT COMPRESSED_OUTPUT CHECK_INPUT_CORRECTNESS
    (snd keys) p (repeated_hash hash required_output_length) in
  try! _ := map_err (λ _, NoContribution) o in
  let '(o, response) := public_key_write (engine k) (fst keys) p COMPRESSED_OUTPUT response in
  try! _ := map_err Io o in
  Ok (MkContributionResponse hash response (calculate_hash response)).

(** [Phase1WASM::contribute_full], with the randomness of the system and the
    user, and [Phase1WASM::contribute_chunked]. *)
Definition contribute_full (curve_kind proving_system : string) (batch_size power : N) (challenge : bytes)
    (rng : ∀ k, Rng (E := engine k)) : outcome BrowserError ContributionResponse :=
  match proving_system_from_str proving_system, curve_from_str curve_kind with
  | Some ps, Some k => contribute_challenge k challenge (get_parameters_full k ps power batch_size) (rng k)
  | _, _ => Panic
  end.
Definition contribute_chunked (settings : Wasm.Settings) (chunk_index : N) (seed challenge : bytes)
    : outcome BrowserError ContributionResponse :=
  match proving_system_from_str (Wasm.proving_system settings), curve_from_str (Wasm.curve_kind settings) with
  | Some ps, Some k =>
      contribute_challenge k challenge
        (get_parameters_chunked k ps (Wasm.power settings) (Wasm.batch_size settings) chunk_index (Wasm.chunk_size settings))
        (derive_rng_from_seed seed)
  | _, _ => Panic
  end.
End memory.

(** ** Requests *)

Record PublicSettings := MkPublicSettings { setup_kind : SetupKind; check_reliability : bool }.

(** [serde_json] *)
Class BrowserFormats := {
  settings_decode : bytes → option PublicSettings;
  is_json : bytes → bool;
}.

Section browser.
Context `{CR : Cryptography, SG : Signature, SV : Server, WA : Wallet, CF : ContributorFormats, BF : BrowserFormats}.

Notation session A := (M BrowserError Network A).

(** A request by [fetch]: whatever the server answers counts. *)
Definition fetch (r : Request) : session bytes := λ n,
  let '(answer, n) := send r n in
  (match answer with Some (_, body) => Ok body | None => Err NotFetched end, n).
(** A request by [reqwest], with [error_for_status]. *)
Definition post (r : Request) : session bytes := λ n,
  let '(answer, n) := send r n in
  (match answer with
   | Some (true, body) => Ok body
   | Some (false, _) => Err NotSuccessful
   | None => Err NotFetched
   end, n).
Definition with_authorization (private_key method path : string) (body : bytes) (via : Request → session bytes)
    (sent_as : string) : session bytes :=
  let! authorization := lift (ok_or (get_authorization_value private_key method path) BadKey) in
  via (MkRequest sent_as path (Some authorization) body).

Definition post_join_queue (private_key confirmation_key : string) : session bool :=
  let! data := with_authorization private_key "POST" "/v1/queue/contributor/join/0/1/0" (string_to_vec confirmation_key)
    fetch "POST" in
  lift (if is_json data then match bool_from_slice data with Some joined => Ok joined | None => Panic end
        else Err NotDecoded).
Definition request_coordinator_public_settings : session PublicSettings :=
  let! data := fetch (MkRequest "POST" "/v1/coordinator/settings" None []) in
  lift (ok_or (settings_decode data) NotDecoded).
Definition post_heartbeat (private_key : string) : session unit :=
  with_authorization private_key "POST" "/v1/contributor/heartbeat" [] post "POST" ;;; ret tt.
Definition get_tasks_left (private_key : string) : session bool :=
  let! data := with_authorization private_key "GET" "/v1/contributor/get_task" [] post "POST" in
  lift (ok_or (bool_from_slice data) NotDecoded).
Definition post_lock_chunk (private_key : string) : session LockResponse :=
  let! data := with_authorization private_key "POST" "/v1/contributor/try_lock" [] post "POST" in
  lift (ok_or (lock_from_slice data) NotDecoded).
Definition get_challenge (private_key : string) (chunk_id contribution_id : N) : session bytes :=
  with_authorization private_key "GET" (numbered "/v1/download/challenge/" chunk_id contribution_id) [] fetch "GET".
Definition post_response (private_key : string) (chunk_id contribution_id : N) (contents : bytes) : session unit :=
  with_authorization private_key "POST" (numbered "/v1/upload/response/" chunk_id contribution_id) contents fetch "POST" ;;;
  ret tt.
Definition post_contribution (private_key : string) (chunk_id : N) : session unit :=
  with_authorization private_key "POST" ("/v1/contributor/try_contribute/" +:+ u64_to_string chunk_id) [] post "POST" ;;;
  ret tt.

(** The wrappers that try again, up to [fuel] times. *)
Definition retry_request {A} (fuel : nat) (m : session A) : session A := until_ok NeverAnswered fuel m.
Definition request_coordinator_public_settings_retry (fuel : nat) : session PublicSettings :=
  retry_request fuel request_coordinator_public_settings.
Definition send_heartbeat (fuel : nat) (private_key : string) : session unit :=
  retry_request fuel (post_heartbeat private_key).
Definition join_queue_retry (fuel : nat) (private_key confirmation_key : string) : session unit :=
  retry_request fuel (post_join_queue private_key confirmation_key) ;;; ret tt.
Definition lock_chunk_retry (fuel : nat) (private_key : string) : session LockResponse :=
  retry_request fuel (post_lock_chunk private_key).
Definition download_challenge_retry (fuel : nat) (private_key : string) (chunk_id contribution_id : N) : session bytes :=
  retry_request fuel (get_challenge private_key chunk_id contribution_id).
Definition upload_response_retry (fuel : nat) (private_key : string) (chunk_id contribution_id : N) (contents : bytes)
    : session unit :=
  retry_request fuel (post_response private_key chunk_id contribution_id contents).
Definition notify_contribution_retry (fuel : nat) (private_key : string) (chunk_id : N) : session unit :=
  retry_request fuel (post_contribution private_key chunk_id).

(** ** The contributor *)

(** [utils.rs: sign_contribution_state] *)
Definition sign_state (private_key : string) (challenge_hash response_hash : bytes) (next_challenge_hash : option bytes)
    : outcome BrowserError ContributionFileSignature :=
  try! state := map_err StateError (contribution_state_new challenge_hash response_hash next_challenge_hash) in
  try! view_key := ok_or (view_key_of private_key) BadKey in
  try! signature := ok_or (sign view_key (contribution_state_json state)) BadKey in
  map_err StateError (contribution_file_signature_new signature state).

(** [attempt_contribution]: whether the contributor is finished. *)
Definition attempt_contribution (fuel : nat) (settings : Wasm.Settings) (private_key : string) (seed : bytes) : session bool := λ n,
  match get_tasks_left private_key n with
  | (Err _, n) => (Ok false, n)
  | (Panic, n) => (Panic, n)
  | (Ok false, n) => (Ok true, n)
  | (Ok true, n) =>
      (let! lock := lock_chunk_retry fuel private_key in
       let! chunk_bytes := download_challenge_retry fuel private_key (lk_chunk_id lock) (lk_contribution_id lock) in
       let! result := lift (contribute_chunked settings (lk_chunk_id lock) seed chunk_bytes) in
       let challenge_hash := calculate_hash chunk_bytes in
       let response_hash := calculate_hash (cr_response result) in
       let! signed := lift (sign_state private_key challenge_hash response_hash None) in
       let! signature_bytes := lift (ok_or (hex_decode (cfs_signature signed)) NotDecoded) in
       upload_response_retry fuel private_key (lk_response_chunk_id lock) (lk_response_contribution_id lock)
         (upload x00 signature_bytes [challenge_hash; response_hash] (cr_response result)) ;;;
       notify_contribution_retry fuel private_key (lk_chunk_id lock) ;;;
       ret false) n
  end.

(** The loop of [contribute], up to [passes] times. *)
Fixpoint contribute_rounds (passes fuel : nat) (settings : Wasm.Settings) (private_key : string) (seed : bytes) : session unit :=
  match passes with
  | 0 => fail NeverAnswered
  | S passes =>
      send_heartbeat fuel private_key ;;;
      let! is_finished := attempt_contribution fuel settings private_key seed in
      if is_finished : bool then ret tt else contribute_rounds passes fuel settings private_key seed
  end.

(** [contribute], with its random seed. *)
Definition contribute_in_browser (passes fuel : nat) (private_key confirmation_key : string) (seed : bytes) : session unit :=
  bail_if (λ _, negb (is_some (view_key_of private_key))) with BadKey ;;;
  let! public_settings := request_coordinator_public_settings_retry fuel in
  bail_if (λ _, check_reliability public_settings) with ReliabilityUnsupported ;;;
  let! settings :=
    match setup_kind public_settings with
    | SetupInner => ret INNER_SETTINGS
    | SetupDevelopment => ret DEVELOPMENT_SETTINGS
    | kind => fail (UnsupportedSetup kind)
    end in
  join_queue_retry fuel private_key confirmation_key ;;;
  contribute_rounds passes fuel settings private_key seed.
End browser.

(** ** The contribution is the coordinator's *)

(** The settings of the browser and those of an environment. *)
Record settings_match (st : Wasm.Settings) (env : Environment) : Prop := {
  sm_curve : curve_from_str (Wasm.curve_kind st) = Some (curve (parameters env));
  sm_system : proving_system_from_str (Wasm.proving_system st) = Some (proving_system (parameters env));
  sm_power : Wasm.power st = power (parameters env);
  sm_batch : Wasm.batch_size st = batch_size (parameters env);
  sm_chunk : Wasm.chunk_size st = Npos (chunk_size (parameters env));
  sm_mode : contribution_mode (parameters env) = Chunked;
  sm_inputs : compressed_inputs env = COMPRESSED_INPUT;
  sm_outputs : compressed_outputs env = COMPRESSED_OUTPUT;
  sm_check : check_input_for_correctness env = CHECK_INPUT_CORRECTNESS;
}.

(** The two settings are those of the setups they are used for. *)
Lemma inner_settings_match env : (environment_by_setup_kind SetupInner : outcome unit Environment) = Ok env → settings_match INNER_SETTINGS env.
Proof. intros [= <-]. by split. Qed.
Lemma development_settings_match env :
  (environment_by_setup_kind SetupDevelopment : outcome unit Environment) = Ok env → settings_match DEVELOPMENT_SETTINGS env.
Proof. intros H. vm_compute in H. injection H as <-. by split. Qed.

Lemma repeated_hash_length hash size : length (repeated_hash hash size) = N.to_nat size.
Proof. unfold repeated_hash. by rewrite length_fmap, length_seq. Qed.

(** The hash is in front already. *)
Lemma repeated_hash_starts hash size :
  length hash = 64 → (64 ≤ size)%N → write_prefix hash (repeated_hash hash size) = (Ok tt, repeated_hash hash size).
Proof.
  intros Hl Hs. unfold write_prefix. rewrite repeated_hash_length, Hl, (proj2 (Nat.leb_le _ _)) by lia.
  rewrite take_ge by lia. do 2 f_equal. unfold repeated_hash.
  replace (N.to_nat size) with (64 + (N.to_nat size - 64)) by lia. rewrite seq_app, fmap_app.
  assert ((λ i, nth (i mod length hash) hash x00) <$> seq 0 64 = hash) as ->.
  { rewrite Hl. do 64 (destruct hash as [|? hash]; [done|]). by destruct hash. }
  by rewrite drop_app_length' by done.
Qed.

Section contributing.
Context `{CR : Cryptography} (env : Environment) (chunk_id : N).
Notation p := (chunked_parameters (parameters env) chunk_id).

Lemma contribute_chunked_runs st seed challenge u response :
  settings_match st env → len challenge = accumulator_size p → (64 ≤ contribution_size p)%N →
  contribute_response env chunk_id challenge seed
    (repeated_hash (calculate_hash challenge) (contribution_size p)) = (Ok u, response) →
  contribute_chunked st chunk_id seed challenge =
    Ok (MkContributionResponse (calculate_hash challenge) response (calculate_hash response)).
Proof.
  intros [Hc Hs Hp Hb Hk Hm Hci Hco Hch] Hl H64 Hrun. unfold contribute_chunked. rewrite Hs, Hc.
  assert (get_parameters_chunked (curve (parameters env)) (proving_system (parameters env)) (Wasm.power st) (Wasm.batch_size st)
    chunk_id (Wasm.chunk_size st) = p) as ->.
  { unfold get_parameters_chunked, chunked_parameters. by rewrite Hp, Hb, Hk, Hm. }
  unfold contribute_response in Hrun. apply check_ok in Hrun as [_ Hrun].
  rewrite (run_bind_tt _ _ _ _ (repeated_hash_starts _ _ (calculate_hash_length challenge) H64)) in Hrun.
  apply check_ok in Hrun as [_ Hrun]. apply bind_ok in Hrun as ([pk sk] & f2 & Hkeys & Hrun).
  apply bind_ok in Hrun as (u2 & f3 & Hcomp & Hpk). apply phase1_runs in Hkeys, Hcomp, Hpk.
  injection Hkeys as Hkeys <-. rewrite Hci, Hco, Hch in Hcomp. rewrite Hco in Hpk.
  unfold contribute_challenge, COMPRESSED_INPUT, COMPRESSED_OUTPUT, CHECK_INPUT_CORRECTNESS in *.
  rewrite Hl, N.eqb_refl. cbn [negb]. unfold environment_engine in *.
  destruct (fst (key_generation _ _ _ _)) as [keys| |]; [|done|done]. injection Hkeys as ->. cbn [map_err bind_outcome fst snd].
  rewrite Hcomp. cbn [map_err bind_outcome]. by rewrite Hpk.
Qed.
End contributing.

Section accepted.
Context `{CR : Cryptography, SG : Signature, SV : Server, WA : Wallet, CF : ContributorFormats, BF : BrowserFormats}.
Context (env : Environment) (chunk_id : N).
Notation E := (environment_engine env).
Notation p := (chunked_parameters (parameters env) chunk_id).
Context `{!EngineLaws E, !RandomnessLaws E} (Hb : chunk_in_bounds env chunk_id).
Context (st : Wasm.Settings) (Hst : settings_match st env).

(** The contribution in memory passes the coordinator's verification and holds
    the contributed elements. *)
Lemma browser_response challenge acc seed pk sk rng :
  challenge_holds env chunk_id challenge acc → len challenge = accumulator_size p →
  key_generation E hash_fuel (calculate_hash challenge) (derive_rng_from_seed seed) = (Ok (pk, sk), rng) →
  key_nonzero sk →
  ∃ response, contribute_chunked st chunk_id seed challenge =
      Ok (MkContributionResponse (calculate_hash challenge) response (calculate_hash response)) ∧
    transform_pok_and_correctness env chunk_id challenge response = Ok (calculate_hash response) ∧
    deserialize_accumulator E p (compressed_outputs env) CheckNo response = Ok (contributed p sk acc).
Proof.
  intros Hch Hl Hkeys Hsk.
  assert (contribution_file_size env chunk_id false = contribution_size p) as Hsize.
  { unfold contribution_file_size, unverified_contribution_size. by rewrite (sm_outputs _ _ Hst). }
  assert (64 ≤ contribution_size p)%N as H64.
  { rewrite <-Hsize, (response_length env chunk_id Hb). unfold accumulator_length. lia. }
  destruct (honest_response env chunk_id Hb challenge acc seed (repeated_hash (calculate_hash challenge) (contribution_size p))
    pk sk rng) as (response & Hrun & Hok & Hd & _); try done.
  { by rewrite (sm_inputs _ _ Hst). }
  { by rewrite repeated_hash_length, N2Nat.id, Hsize. }
  exists response. split; [|done]. by eapply contribute_chunked_runs.
Qed.

(** What is signed. *)
Lemma state_signed private_key view_key challenge response :
  view_key_of private_key = Some view_key → can_sign view_key →
  ∃ signed data, sign_state private_key (calculate_hash challenge) (calculate_hash response) None = Ok signed ∧
    hex_decode (cfs_signature signed) = Some data ∧ signs_hashes view_key challenge response None data.
Proof.
  intros Hkey Hcan. destruct (state_of_hashes challenge response None) as [state Hstate].
  destruct (Hcan (contribution_state_json state)) as (signature & data & Hs & Hd & H64).
  exists (MkContributionFileSignature signature state), data. split; [|split; [done | by exists state, signature]].
  unfold sign_state. cbn [fmap option_fmap option_map] in Hstate. rewrite Hstate. cbn [map_err bind_outcome]. rewrite Hkey.
  cbn [ok_or bind_outcome]. rewrite Hs. cbn [ok_or bind_outcome]. by rewrite (signature_of_data _ _ _ Hd H64).
Qed.

(** C18. The contributor in the browser takes part in the coordinator's ceremony:
    from a challenge that holds an accumulator it computes, for the settings
    of the environment, a response that the coordinator's verification accepts
    and that holds the accumulator under its key, and uploads it behind its
    signature and the hashes; from then on only the answers to the upload and
    to the notification matter. *)
Theorem browser_takes_part private_key view_key lock fuel n n1 n2 n3 challenge acc seed pk sk rng
    (Hch : challenge_holds env chunk_id challenge acc) (Hl : len challenge = accumulator_size p)
    (Hkeys : key_generation E hash_fuel (calculate_hash challenge) (derive_rng_from_seed seed) = (Ok (pk, sk), rng))
    (Hsk : key_nonzero sk)
    (Hview : view_key_of private_key = Some view_key) (Hcan : can_sign view_key)
    (Htasks : get_tasks_left private_key n = (Ok true, n1))
    (Hlock : lock_chunk_retry fuel private_key n1 = (Ok lock, n2)) (Hid : lk_chunk_id lock = chunk_id)
    (Hdown : download_challenge_retry fuel private_key chunk_id (lk_contribution_id lock) n2 = (Ok challenge, n3)) :
  ∃ response data,
    transform_pok_and_correctness env chunk_id challenge response = Ok (calculate_hash response) ∧
    deserialize_accumulator E p (compressed_outputs env) CheckNo response = Ok (contributed p sk acc) ∧
    signs_hashes view_key challenge response None data ∧
    attempt_contribution fuel st private_key seed n =
      (upload_response_retry fuel private_key (lk_response_chunk_id lock) (lk_response_contribution_id lock)
         (upload x00 data [calculate_hash challenge; calculate_hash response] response) ;;;
       notify_contribution_retry fuel private_key chunk_id ;;; ret false) n3.
Proof.
  destruct (browser_response challenge acc seed pk sk rng Hch Hl Hkeys Hsk) as (response & Hrun & Hok & Hd).
  destruct (state_signed private_key view_key challenge response Hview Hcan) as (signed & data & Hsigned & Hhex & Hdata).
  exists response, data. split_and!; try done. unfold attempt_contribution. rewrite Htasks.
  rewrite (run_bind _ _ _ _ _ Hlock). cbv beta. rewrite Hid, (run_bind _ _ _ _ _ Hdown). cbv beta. rewrite Hrun, run_lift.
  cbv beta zeta. cbn [cr_response]. by rewrite Hsigned, run_lift, Hhex.
Qed.
End accepted.

(** ** Answers that refuse *)

Section refused.
Context `{CR : Cryptography, SG : Signature, SV : Server, WA : Wallet, CF : ContributorFormats, BF : BrowserFormats}.

(** An upload that the server refuses counts as done in the browser, where the
    contributor's program sees a failed request and tries again. *)
Lemma refused_upload_counts c chunk_id contribution_id contents fs n body n' authorization :
  let path := numbered "/v1/upload/response/" chunk_id contribution_id in
  get_authorization_value (private_key c) "POST" path = Some authorization →
  send (MkRequest "POST" path (Some authorization) contents) n = (Some (false, body), n') →
  post_response (private_key c) chunk_id contribution_id contents n = (Ok tt, n') ∧
  upload_response c chunk_id contribution_id contents (fs, n) = (Err RequestFailed, (fs, n')).
Proof.
  intros path Hauth Hsend. subst path. split.
  - unfold post_response, with_authorization. rewrite bind_assoc, Hauth. cbn [ok_or]. rewrite run_lift. unfold fetch, bind. by rewrite Hsend.
  - unfold upload_response, authorized. rewrite bind_assoc, Hauth. cbn [ok_or]. rewrite run_lift. unfold request, bind. cbn [snd fst]. by rewrite Hsend.
Qed.

(** A download that the server refuses counts as a challenge, and ends the
    contribution because its length is not that of a challenge. *)
Lemma refused_download_counts private_key chunk_id contribution_id n body n' authorization fuel :
  let path := numbered "/v1/download/challenge/" chunk_id contribution_id in
  get_authorization_value private_key "GET" path = Some authorization →
  send (MkRequest "GET" path (Some authorization) []) n = (Some (false, body), n') →
  download_challenge_retry (S fuel) private_key chunk_id contribution_id n = (Ok body, n').
Proof.
  intros path Hauth Hsend. subst path. unfold download_challenge_retry, retry_request, until_ok, get_challenge, with_authorization.
  rewrite Hauth. cbn [ok_or]. rewrite run_lift. unfold fetch. by rewrite Hsend.
Qed.
End refused.

(** ** The small ceremony in the browser *)

#[local] Existing Instance toy_cryptography.
#[local] Existing Instance toy_randomness.
#[local] Existing Instance toy_randomness_laws.
#[local] Existing Instance Toy.engine_laws.
#[local] Existing Instance dummy_signature.
#[local] Existing Instance file_server.
#[local] Existing Instance plain_wallet.

Definition browser_contributor_formats : ContributorFormats := {|
  status_from_slice _ := None;
  lock_from_slice _ := Some (MkLockResponse 0 0 true "key" "" "" "" 0 1);
  bool_from_slice _ := Some true;
  string_to_vec := string_bytes;
  key_to_vec _ := [];
  key_from_slice _ := None;
  blake2s data := data;
|}.
#[local] Existing Instance browser_contributor_formats.

Definition toy_settings : Wasm.Settings :=
  let s := parameters sample_environment in
  Wasm.MkSettings "bls12_377" "groth16" (batch_size s) (power s) (Npos (chunk_size s)).
Definition browser_files : Files := {["/v1/download/challenge/0/0" := toy_first]}.
Definition browser_network : Network := browser_files.
Definition no_browser_formats : BrowserFormats := {| settings_decode _ := None; is_json _ := true |}.
#[local] Existing Instance no_browser_formats.

Lemma toy_settings_match : settings_match toy_settings sample_environment.
Proof. by split. Qed.
Lemma toy_first_holds : challenge_holds sample_environment 0 toy_first (initial_accumulator sample_parameters).
Proof.
  apply (history_holds sample_environment 0 sample_in_bounds eq_refl eq_refl) with (keys := []).
  - intros _. split; try done; vm_compute; lia.
  - apply history_start, sample_first.
Qed.
Lemma browser_tasks : get_tasks_left "key" browser_network = (Ok true, browser_network).
Proof. lazymatch goal with |- _ = ?r => vm_cast_no_check (eq_refl r) end. Qed.
Lemma browser_lock :
  lock_chunk_retry 1 "key" browser_network = (Ok (MkLockResponse 0 0 true "key" "" "" "" 0 1), browser_network).
Proof. lazymatch goal with |- _ = ?r => vm_cast_no_check (eq_refl r) end. Qed.
Lemma browser_download : download_challenge_retry 1 "key" 0 0 browser_network = (Ok toy_first, browser_network).
Proof. lazymatch goal with |- _ = ?r => vm_cast_no_check (eq_refl r) end. Qed.

Lemma browser_takes_part_witness :
  ∃ response data,
    transform_pok_and_correctness sample_environment 0 toy_first response = Ok (calculate_hash response) ∧
    attempt_contribution 1 toy_settings "key" (seed_of x02) browser_network =
      (upload_response_retry 1 "key" 0 1 (upload x00 data [calculate_hash toy_first; calculate_hash response] response) ;;;
       notify_contribution_retry 1 "key" 0 ;;; ret false) browser_network.
Proof.
  destruct (browser_takes_part (SG := dummy_signature) (SV := file_server) (WA := plain_wallet)
    sample_environment 0 sample_in_bounds toy_settings toy_settings_match "key" "key"
    (MkLockResponse 0 0 true "key" "" "" "" 0 1) 1 browser_network browser_network browser_network browser_network toy_first
    (initial_accumulator sample_parameters) (seed_of x02) toy_public toy_secret toy_generated.2 toy_first_holds
    sample_first_length toy_keys ltac:(by split_and!) eq_refl (dummy_can_sign "key") browser_tasks browser_lock eq_refl
    browser_download) as (response & data & Hok & _ & _ & Hrun).
  exists response, data. split; [exact Hok | exact Hrun].
Defined.
