(* ===== verification/Deployments.v ===== *)
(** * The ceremonies that are deployed

    The parameters that [environment.rs] names meet the bounds of the theorems
    on files and buffers, on every chunk; so an honest ceremony with any of
    them goes as [Challenges] says, in each deployment. *)

From S2P Require Import Prelude Text Task Participant Errors Contribution Locator Chunk Round ParticipantInfo RoundMetrics CoordinatorState Serde Storage RoundStorage Commands.
From S2P Require Import Environment Phase1Parameters Curve Elements MultiExp Buffers Accumulator Phase1 Layout Computation Verifying Responses Challenges.

Definition named : list Parameters := [AleoInner; AleoOuter; AleoUniversal; Test3Chunks; Test8Chunks].
Definition default_environments : list Environment :=
  [testing_environment; development_environment; production_environment].

Section deployments.
Context `{CR : Cryptography}.
Context (name : Parameters) (s : Settings) (default : Environment).
Context (Hname : name ∈ named) (Hs : to_settings (E := unit) name = Ok s) (Hdefault : default ∈ default_environments).
Notation env := (set_parameters s default).
Notation E := (environment_engine env).
Context (chunk_id : N) (Hchunk : (chunk_id < number_of_chunks env)%N).
Context (Hg1 : ∀ c, (serialized_size (G1Affine E) c < 2 ^ 12)%N).
Context (Hg2 : ∀ c, (serialized_size (G2Affine E) c < 2 ^ 12)%N).

Lemma named_settings :
  contribution_mode s = Chunked ∧ (power s < 40)%N ∧ (3 + 3 * power s ≤ batch_size s < 2 ^ 32)%N ∧
  (2 ≤ Npos (chunk_size s) < 2 ^ 40)%N ∧ (2 ≤ power s)%N.
Proof.
  unfold named in Hname. rewrite !elem_of_cons, elem_of_nil in Hname.
  destruct Hname as [->|[->|[->|[->|[->|[]]]]]]; injection Hs as <-; by split_and!.
Qed.
Lemma default_compressions : compressed_inputs env = CompressionNo ∧ compressed_outputs env = CompressionYes.
Proof.
  unfold default_environments in Hdefault. rewrite !elem_of_cons, elem_of_nil in Hdefault.
  by destruct Hdefault as [->|[->|[->|[]]]].
Qed.

Lemma deployed_in_bounds : chunk_in_bounds env chunk_id.
Proof.
  destruct named_settings as (Hm & Hp & [Hb Hb'] & [Hc Hc'] & Hp').
  destruct (number_of_chunks_tiles env) as [[Hlt _] _]; [cbn; lia | cbn; bounds_lia|].
  split; try done; cbn; [lia..|]. rewrite Hm. split; [done|].
  eapply N.le_lt_trans; [|exact Hlt]. apply N.mul_le_mono_r. lia.
Qed.
Notation p := (chunked_parameters (parameters env) chunk_id).

(** How many elements the sections of the first chunk have. *)
Lemma first_chunk_sizes : chunk_id = 0%N →
  (2 ≤ g1_chunk_size p)%N ∧ (proving_system s = Groth16 → (2 ≤ other_chunk_size p)%N) ∧
  p1_proving_system p = proving_system s ∧ total_size_in_log2 p = power s ∧ p1_batch_size p = batch_size s ∧
  p1_chunk_index p = 0%N.
Proof.
  intros ->. unfold named in Hname. rewrite !elem_of_cons, elem_of_nil in Hname.
  destruct Hname as [->|[->|[->|[->|[->|[]]]]]]; injection Hs as <-;
    (split; [apply N.leb_le; vm_compute; reflexivity|]);
    (split; [intros Hps; first [discriminate Hps | apply N.leb_le; vm_compute; reflexivity]|]); repeat split.
Qed.

Lemma deployed_first_elements : is_first p = true → first_elements p (initial_accumulator (E := E) p).
Proof.
  intros Hf. destruct (is_first_index p (chunk_regular' _ _ deployed_in_bounds) Hf) as [Hi _].
  assert (p1_chunk_index p = chunk_id) as Hid
    by (unfold chunked_parameters, new_chunk, new_parameters; by destruct (chunk_sizes _ _ _ _ _)).
  destruct (first_chunk_sizes (eq_trans (eq_sym Hid) Hi)) as (H1 & H2 & H3 & H4 & H5 & H6).
  destruct named_settings as (_ & _ & [Hb _] & _ & _).
  assert (2 ≤ n_tau_g1 p) as Hg by (unfold n_tau_g1; lia).
  assert (2 ≤ n_tau_g2 p) as Hg'.
  { unfold n_tau_g2. rewrite H3, H6, N.eqb_refl. revert H2. generalize (other_chunk_size p). intros n H2.
    destruct (proving_system s); [specialize (H2 eq_refl); lia | lia]. }
  split; try done.
  - unfold initial_accumulator. cbn [tau_powers_g1]. destruct (n_tau_g1 p) eqn:Hn; [lia | done].
  - unfold initial_accumulator. cbn [tau_powers_g2]. destruct (n_tau_g2 p) eqn:Hn; [lia | done].
  - intros _. by rewrite H4, H5.
Qed.

Context `{!EngineLaws E, !RandomnessLaws E}.

(** The ceremony of every chunk starts, and honest contributors can go on with
    it for ever. *)
Lemma deployed_ceremony :
  (∃ challenge, first_challenge env chunk_id = Ok challenge) ∧
  ∀ challenge keys, honest_history env chunk_id challenge keys →
    challenge_holds env chunk_id challenge (contributions env chunk_id keys (initial_accumulator p)) ∧
    ∀ seed pk sk rng,
      key_generation E hash_fuel (calculate_hash challenge) (derive_rng_from_seed seed) = (Ok (pk, sk), rng) →
      key_nonzero sk →
      ∃ next, honest_step env chunk_id challenge seed = Ok next ∧ honest_history env chunk_id next (keys ++ [sk]).
Proof.
  destruct default_compressions as [Hci Hco]. pose proof deployed_in_bounds as Hb.
  pose proof deployed_first_elements as Hf. split.
  - destruct (first_challenge_holds env chunk_id Hb Hf) as (challenge & Hc & _). by exists challenge.
  - intros challenge keys Hh. split; [by apply (history_holds env chunk_id Hb Hci Hco Hf)|].
    intros seed pk sk rng. by apply (history_continues env chunk_id Hb Hci Hco Hf).
Qed.
End deployments.
