(* ===== verification/Refinement.v ===== *)
(** * The coordinator refines the board

    What the calls of contributors and verifiers do to the round in the
    storage, whatever they return, is what the board of the round allows. *)

From S2P Require Import Prelude Text Task Participant Errors Environment Phase1Parameters Contribution Locator Chunk Round Board ParticipantInfo RoundMetrics CoordinatorState Serde Storage RoundStorage Commands RoundTransition DropParticipant Frame Coordinator RoundStore Contributing Ceremony Sample.

(** ** The operations of a round *)

Section rounds.
Context `{TA : TimeApi, SE : !Serde, CS : CurveSizes}.

Lemma on_round_ok {A} (m : M CoordinatorError Round A) (rd rd' : Round * Disk) a :
  on_round m rd = (Ok a, rd') ↔ ∃ r, m rd.1 = (Ok a, r) ∧ rd' = (r, rd.2).
Proof. unfold on_round, on_disk. rewrite zoom_ok. done. Qed.
Lemma on_disk_ok {A} (m : M CoordinatorError Disk A) (rd rd' : Round * Disk) a :
  on_disk m rd = (Ok a, rd') ↔ ∃ d, m rd.2 = (Ok a, d) ∧ rd' = (rd.1, d).
Proof. unfold on_round, on_disk. rewrite zoom_ok. done. Qed.

Lemma with_chunk_inv {A} id (m : M CoordinatorError Chunk A) r a r' :
  with_chunk id m r = (Ok a, r') ↔
  ∃ c c', round_chunk r id = Ok c ∧ m c = (Ok a, c') ∧ r' = set_chunk id c' r.
Proof.
  unfold with_chunk. split.
  - destruct (round_chunk r id) as [c| |]; [|done..]. destruct (m c) as [o c'] eqn:E.
    intros [= -> <-]. by exists c, c'.
  - intros (c & c' & -> & -> & ->). done.
Qed.

Lemma round_is_contributor_true r p :
  round_is_contributor r p = true ↔ p ∈ contributor_ids r ∧ is_contributor p = true.
Proof.
  unfold round_is_contributor, contains. destruct p; simpl; [rewrite bool_decide_eq_true|]; naive_solver.
Qed.

Lemma is_chunk_locked_by_true r id p :
  is_chunk_locked_by r id p = true ↔ ∃ c, round_chunk r id = Ok c ∧ lock_holder c = Some p.
Proof.
  unfold is_chunk_locked_by. destruct (round_chunk r id) as [c| |]; [|naive_solver..].
  unfold is_locked_by, is_unlocked, is_locked. destruct (lock_holder c) as [q|] eqn:E; simpl; [|naive_solver].
  rewrite bool_decide_eq_true. naive_solver.
Qed.

Lemma round_try_lock_chunk_ok env c p (r : Round) (d : Disk) ls rd' :
  round_try_lock_chunk env c p (r, d) = (Ok ls, rd') →
  p ∈ contributor_ids r ∧ is_contributor p = true ∧ contributor_locators c (r, d) = Ok ls ∧
  ∃ ck ck' d1, round_chunk r c = Ok ck ∧
    acquire_lock p (expected_number_of_contributions r) ck = (Ok tt, ck') ∧
    initialize_file (LContributionFile (next_contribution ls)) (contribution_file_size env c false) d = (Ok tt, d1) ∧
    initialize_file (LContributionFileSignature (next_contribution_file_signature ls))
      (contribution_file_signature_size false) d1 = (Ok tt, rd'.2) ∧
    rd'.1 = set_chunk c ck' r.
Proof.
  unfold round_try_lock_chunk. intros H. ok_inv H.
  apply negb_false_iff, round_is_contributor_true in Hguard1 as [Hp Hcon].
  apply on_round_ok in Hstep as (r' & Hr & ->). apply with_chunk_inv in Hr as (ck & ck' & Hck & Hl & ->).
  apply on_disk_ok in Hstep0 as (d1 & Hd1 & ->). apply on_disk_ok in Hstep1 as (d2 & Hd2 & ->).
  destruct x2, x3, x4. simpl in *. split_and!; [done..|]. by exists ck, ck', d1.
Qed.
End rounds.

Section refinement.
Context `{HO : HashOrder, TA : TimeApi, SE : !Serde, CR : Cryptography, SG : Signature}.

(** ** Locking *)

(** Taking the lock of a chunk of a running round. *)
Lemma running_lock n h r c ck ck' p :
  running n h r → p ∈ contributor_ids r → round_chunk r c = Ok ck →
  acquire_lock p (expected_number_of_contributions r) ck = (Ok tt, ck') →
  running n h (set_chunk c ck' r) ∧
  board_step (contributor_ids r) (Locked (N.to_nat c) p) (board r) (board (set_chunk c ck' r)).
Proof.
  intros Hr Hp Hck Hl. pose proof (running_chunk_wf _ _ _ _ _ Hr Hck) as Hwf.
  pose proof (running_contributor _ _ _ _ Hr Hp) as Hcon.
  assert (chunk_wf (expected_number_of_contributions r) ck') as Hwf'.
  { exact (acquire_wf _ (expected_range r) _ _ _ Hwf Hl). }
  destruct (acquire_cell _ (expected_range r) _ _ _ Hwf Hcon Hl) as (au & Hau & Hau' & Hfresh & Hlen).
  apply acquire_lock_inv in Hl as (Hnone & _ & -> & _). split.
  - apply (running_set_chunk _ _ _ _ ck); try done.
    + intros q. rewrite !elem_of_chunk_participants. simpl. intros [[= <-]|?]; [right | by left; right].
      pose proof (running_readable _ _ _ Hr) as Hread%round_readable_alt. by apply (proj1 Hread).
    + by intros q [= <-].
  - rewrite board_set_chunk, Hau'. apply board_lock; [|done|done|].
    + rewrite (board_lookup n h) with (c := ck) by done. by rewrite Hau.
    + unfold expected_number_of_contributions, round_number_of_contributors in Hlen.
      unfold u64_add in Hlen.
      pose proof (N.Div0.mod_le (N.of_nat (length (contributor_ids r)) + 1) u64_modulus). lia.
Qed.

(** ** Contributing *)

Lemma running_contribute n h r c ck ck' id p loc sig :
  running n h r → round_chunk r c = Ok ck →
  next_contribution_id ck (expected_number_of_contributions r) = Ok id →
  Chunk.add_contribution id p loc sig ck = (Ok tt, ck') →
  running n h (set_chunk c ck' r) ∧
  board_step (contributor_ids r) (Contributed (N.to_nat c) p) (board r) (board (set_chunk c ck' r)).
Proof.
  intros Hr Hck Hid Ha. pose proof (running_chunk_wf _ _ _ _ _ Hr Hck) as Hwf.
  pose proof (contribute_wf _ (expected_range r) _ _ _ _ _ _ Hwf Hid Ha) as Hwf'.
  destruct (contribute_cell _ (expected_range r) _ _ _ _ _ _ Hwf Hid Ha) as (au & Hau & Hau').
  apply add_contribution_inv in Ha as (Hl & Hp & ->). split.
  - apply (running_set_chunk _ _ _ _ ck); try done.
    intros q. rewrite !elem_of_chunk_participants. simpl. intros [?|(i & k & Hk & Hq)]; [done|]. left.
    apply lookup_insert_Some in Hk as [[<- <-]|[_ Hk]]; [|eauto]. simpl in Hq. left.
    destruct Hq; congruence.
  - rewrite board_set_chunk, Hau'. apply board_contribute.
    rewrite (board_lookup n h) with (c := ck) by done. by rewrite Hau.
Qed.

(** ** Verifying *)

Lemma running_verify n h r c ck ck' v loc sig :
  running n h r → readable v → round_chunk r c = Ok ck →
  Chunk.verify_contribution (current_contribution_id ck) v loc sig ck = (Ok tt, ck') →
  running n h (set_chunk c ck' r) ∧
  board_step (contributor_ids r) (Verified (N.to_nat c)) (board r) (board (set_chunk c ck' r)).
Proof.
  intros Hr Hread Hck Hv. pose proof (running_chunk_wf _ _ _ _ _ Hr Hck) as Hwf.
  pose proof (verify_wf _ (expected_range r) _ _ _ _ _ Hwf Hv) as Hwf'.
  assert (∀ p, lock_holder ck = Some p → is_contributor p = true) as Hcon.
  { intros p Hp. eapply running_contributor; [done|]. by eapply running_holder. }
  destruct (verify_cell _ (expected_range r) _ _ _ _ _ Hwf Hv (or_intror Hcon)) as (au & Hau & Hau').
  apply verify_contribution_inv in Hv as (Hver & k & Hk & _ & _ & ->). split.
  - apply (running_set_chunk _ _ _ _ ck); try done.
    intros q. rewrite !elem_of_chunk_participants. simpl. intros [?|(i & k' & Hk' & Hq)]; [done|].
    apply lookup_insert_Some in Hk' as [[<- <-]|[_ Hk']]; [|eauto 8]. simpl in Hq.
    destruct Hq as [Hq|[= <-]]; [eauto 8 | by right].
  - rewrite board_set_chunk, Hau'. apply board_verify.
    rewrite (board_lookup n h) with (c := ck) by done. by rewrite Hau.
Qed.

(** ** Releasing a lock *)

Lemma running_release n h r c ck :
  running n h r → round_chunk r c = Ok ck →
  let ck' := set_lock_holder_unsafe None ck in
  running n h (set_chunk c ck' r) ∧
  board_step (contributor_ids r) (Released (N.to_nat c)) (board r) (board (set_chunk c ck' r)).
Proof.
  intros Hr Hck ck'. pose proof (running_chunk_wf _ _ _ _ _ Hr Hck) as Hwf. split.
  - apply (running_set_chunk _ _ _ _ ck); try done.
    + destruct Hwf as (m & Hm & Hle & _). exists m. split; [done|]. split; [done|]. by intros p.
    + intros q. rewrite !elem_of_chunk_participants. simpl. intros [?|?]; [done|]. by left; right.
  - rewrite board_set_chunk. destruct (cell_of ck) as [ho au w] eqn:E.
    subst ck'. rewrite (release_cell None _ _ _ _ E). apply (board_release _ _ _ ho).
    rewrite (board_lookup n h) with (c := ck) by done. by rewrite E.
Qed.

(** ** Calls of the coordinator

    [simulates m]: from a coordinator that runs a round, whatever [m] returns,
    it leaves a coordinator that runs the round of the same members, moved as
    the board allows. *)

Notation co A := (M CoordinatorError Coordinator A).

Definition moved (n : nat) (h : N) (r : Round) (c : Coordinator) : Prop :=
  ∃ r', runs n h r' c ∧ contributor_ids r' = contributor_ids r ∧
        board_moves (contributor_ids r) (board r) (board r').

Definition simulates {A} (m : co A) : Prop := ∀ n h r c, runs n h r c → moved n h r (m c).2.

Lemma moved_refl n h r c : runs n h r c → moved n h r c.
Proof. intros Hr. exists r. split_and!; [done..|]. by apply rtc_refl. Qed.

Lemma moved_trans n h r r1 c :
  contributor_ids r1 = contributor_ids r → board_moves (contributor_ids r) (board r) (board r1) →
  moved n h r1 c → moved n h r c.
Proof.
  intros Hm Hb (r2 & Hr2 & Hm2 & Hb2). exists r2. split; [done|]. rewrite Hm in *. split; [done|]. by etrans.
Qed.

Lemma moved_step n h r e r1 c :
  runs n h r1 c → contributor_ids r1 = contributor_ids r →
  board_step (contributor_ids r) e (board r) (board r1) → moved n h r c.
Proof. intros Hr Hm Hb. exists r1. split_and!; [done..|]. apply rtc_once. by exists e. Qed.

Lemma sim_keeps {A} (m : co A) : keeps storage round_record m → simulates m.
Proof. intros Hk n h r c Hr. apply moved_refl. eapply runs_untouched; [apply Hk | done]. Qed.

Lemma sim_bind {A B} (m : co A) (k : A → co B) :
  simulates m → (∀ a, simulates (k a)) → simulates (bind m k).
Proof.
  intros Hm Hk n h r c Hr. specialize (Hm n h r c Hr). unfold bind.
  destruct (m c) as [[a|e|] c1]; simpl in *; [|done..].
  destruct Hm as (r1 & Hr1 & Hm1 & Hb1). eapply moved_trans; [done..|]. by apply Hk.
Qed.

Lemma sim_check {A} (b : Coordinator → bool) e (m : co A) : simulates m → simulates (check b e m).
Proof. intros Hm n h r c Hr. unfold check. destruct (b c); [by apply moved_refl | by apply Hm]. Qed.

Lemma sim_recover {A B} (m : co A) (k : A → co B) (k' : CoordinatorError → co B) :
  simulates m → (∀ a, simulates (k a)) → (∀ e, simulates (k' e)) →
  simulates (λ c, match m c with (Ok a, c) => k a c | (Err e, c) => k' e c | (Panic, c) => (Panic, c) end).
Proof.
  intros Hm Hk Hk' n h r c Hr. specialize (Hm n h r c Hr).
  destruct (m c) as [[a|e|] c1]; simpl in *; [| |done].
  - destruct Hm as (r1 & Hr1 & Hm1 & Hb1). eapply moved_trans; [done..|]. by apply Hk.
  - destruct Hm as (r1 & Hr1 & Hm1 & Hb1). eapply moved_trans; [done..|]. by apply Hk'.
Qed.

Lemma sim_recover_pair {A A' B} (m : co (A * A')) (k : A → A' → co B) (k' : CoordinatorError → co B) :
  simulates m → (∀ a a', simulates (k a a')) → (∀ e, simulates (k' e)) →
  simulates (λ c, match m c with
                  | (Ok (a, a'), c) => k a a' c | (Err e, c) => k' e c | (Panic, c) => (Panic, c) end).
Proof.
  intros Hm Hk Hk' n h r c Hr.
  pose proof (sim_recover m (λ aa, k aa.1 aa.2) k' Hm (λ aa, Hk aa.1 aa.2) Hk' n h r c Hr) as Hs.
  simpl in Hs. by destruct (m c) as [[[a a']|e|] c1].
Qed.

Lemma sim_if {A} (b : bool) (m m' : co A) : simulates m → simulates m' → simulates (if b then m else m').
Proof. by destruct b. Qed.
Lemma sim_option {A B} (o : option A) (f : A → co B) m :
  (∀ a, simulates (f a)) → simulates m → simulates (match o with Some a => f a | None => m end).
Proof. by destruct o. Qed.

(** A call that reads everything it needs before it changes anything. *)
Definition clean {A} (m : co A) : Prop := ∀ c, is_ok (m c).1 = false → (m c).2 = c.

Lemma clean_read {A B} (m : co A) (k : A → co B) :
  (∀ c, (m c).2 = c) → (∀ a, clean (k a)) → clean (bind m k).
Proof.
  intros Hm Hk c. specialize (Hm c). unfold bind. destruct (m c) as [[a|e|] c1]; simpl in *; subst; [|done..].
  apply Hk.
Qed.
Lemma clean_check {A} (b : Coordinator → bool) e (m : co A) : clean m → clean (check b e m).
Proof. intros Hm c. unfold check. destruct (b c); [done | apply Hm]. Qed.
Lemma clean_store {A} h r (a : A) : clean (store_round h r ;;; ret a).
Proof.
  intros c. unfold bind, store_round, on_storage, zoom, or_error, update, check, modify.
  destruct (negb (disk_exists (storage c) (LRoundState h))); [by destruct c | done].
Qed.

Lemma sim_clean {A} (m : co A) :
  clean m → (∀ n h r c a c', runs n h r c → m c = (Ok a, c') → moved n h r c') → simulates m.
Proof.
  intros Hc Hm n h r c Hr. specialize (Hc c). destruct (m c) as [[a|e|] c'] eqn:E; simpl in *.
  - by eapply Hm.
  - rewrite Hc by done. by apply moved_refl.
  - rewrite Hc by done. by apply moved_refl.
Qed.

(** ** Locking *)

Lemma try_lock_chunk_ok n h r c chunk_id p ls c' :
  runs n h r c → try_lock_chunk chunk_id p c = (Ok ls, c') →
  ∃ r', runs n h r' c' ∧ contributor_ids r' = contributor_ids r ∧
    board_step (contributor_ids r) (Locked (N.to_nat chunk_id) p) (board r) (board r').
Proof.
  intros Hr H. unfold try_lock_chunk in H. apply check_ok in H as [_ H].
  rewrite (bind_loading_height n h r), (bind_loading_current n h r) in H by done.
  rewrite bind_gets in H. apply bind_ok in H as ([ls' r1] & c1 & Hlock & H).
  unfold with_round_and_disk in Hlock.
  destruct (round_try_lock_chunk _ _ _ _) as [o [r2 d2]] eqn:E. injection Hlock as Ho <-.
  destruct o as [ls''|e|]; [|done..]. injection Ho as -> ->.
  pose proof (keeps_round_try_lock_chunk round_record (λ _, eq_refl) (λ _, eq_refl)
    (co_environment c) chunk_id p (r, storage c)) as Hk. rewrite E in Hk. simpl in Hk.
  apply round_try_lock_chunk_ok in E as (Hp & _ & _ & ck & ck' & _ & Hck & Hl & _ & _ & Hr1).
  simpl in Hr1. subst r1.
  destruct (running_lock n h r chunk_id ck ck' p) as [Hrun Hstep]; [apply Hr|done..|].
  apply (runs_untouched n h r c (set_storage d2 c)) in Hr; [|done].
  destruct (runs_store _ _ _ (set_chunk chunk_id ck' r) _ Hr Hrun) as (d3 & Hd3%store_round_update & Hr3).
  simpl in H. unfold bind in H. rewrite Hd3 in H. injection H as _ <-.
  by exists (stored_round (set_chunk chunk_id ck' r)).
Qed.

Lemma sim_try_lock_chunk chunk_id p : simulates (try_lock_chunk chunk_id p).
Proof.
  intros n h r c Hr. destruct (is_ok (try_lock_chunk chunk_id p c).1) eqn:Hok.
  { destruct (try_lock_chunk chunk_id p c) as [[ls|e|] c'] eqn:E; [|done..].
    destruct (try_lock_chunk_ok _ _ _ _ _ _ _ _ Hr E) as (r' & ? & ? & ?). by eapply moved_step. }
  apply moved_refl. revert Hok. unfold try_lock_chunk, check. case_match; [done|].
  rewrite (bind_loading_height n h r), (bind_loading_current n h r) by done. rewrite bind_gets.
  unfold bind, with_round_and_disk.
  pose proof (keeps_round_try_lock_chunk round_record (λ _, eq_refl) (λ _, eq_refl)
    (co_environment c) chunk_id p (r, storage c)) as Hk.
  destruct (round_try_lock_chunk _ _ _ _) as [o [r2 d2]] eqn:E. simpl in Hk.
  apply (runs_untouched n h r c (set_storage d2 c)) in Hr as Hr'; [|done].
  destruct o as [ls|e|]; simpl; [|by intros _..].
  apply round_try_lock_chunk_ok in E as (Hp & _ & _ & ck & ck' & _ & Hck & Hl & _ & _ & Hr1).
  simpl in Hr1. subst r2. destruct (running_lock n h r chunk_id ck ck' p) as [Hrun _]; [apply Hr|done..|].
  destruct (runs_store _ _ _ _ _ Hr' Hrun) as (d3 & Hd3%store_round_update & Hr3).
  simpl. by rewrite Hd3.
Qed.

Lemma sim_try_lock p now : simulates (try_lock p now).
Proof.
  unfold try_lock. do 2 apply sim_check. apply sim_bind; [apply sim_keeps; keeps|]. intros _.
  apply sim_bind; [apply sim_keeps; keeps|]. intros t. apply sim_bind; [apply sim_keeps; keeps|]. intros r.
  apply sim_bind; [apply sim_keeps; keeps|]. intros ck. apply sim_if; [apply sim_keeps; keeps|].
  apply sim_recover; [apply sim_try_lock_chunk|..].
  - intros ls. apply sim_keeps. keeps.
  - intros e. apply sim_keeps. keeps.
Qed.

(** ** Contributing *)

Definition response_path (c : Coordinator) (h chunk_id id : N) : LocatorPath :=
  path_of (storage c) (LContributionFile (MkContributionLocator h chunk_id id false)).
Definition response_signature_path (c : Coordinator) (h chunk_id id : N) : LocatorPath :=
  path_of (storage c) (LContributionFileSignature (MkContributionSignatureLocator h chunk_id id false)).

Lemma add_contribution_ok n h r c chunk_id p l id c' :
  runs n h r c → add_contribution chunk_id p c = (Ok (l, id), c') →
  ∃ ck ck' d, round_chunk r chunk_id = Ok ck ∧ p ∈ contributor_ids r ∧
    next_contribution_id ck (expected_number_of_contributions r) = Ok id ∧
    l = MkContributionLocator h chunk_id id false ∧
    accept_contribution h chunk_id id (current_contribution_id ck) p (storage c) = Ok tt ∧
    Chunk.add_contribution id p (response_path c h chunk_id id) (response_signature_path c h chunk_id id) ck
      = (Ok tt, ck') ∧
    c' = set_storage d c ∧ runs n h (stored_round (set_chunk chunk_id ck' r)) c'.
Proof.
  intros Hr H. unfold add_contribution in H.
  rewrite (bind_loading_height n h r), (bind_loading_current n h r) in H by done.
  ok_inv H. apply negb_false_iff, round_is_contributor_true in Hguard as [Hp _].
  unfold loading in Hstep. injection Hstep as Hacc <-. destruct x1.
  destruct (with_chunk _ _ r) as [o r1] eqn:Ew. ok_inv H. destruct x1.
  apply with_chunk_inv in Ew as (ck & ck' & Hck & Ha & ->). rewrite Hck in Hlift. injection Hlift as <-.
  destruct (running_contribute n h r chunk_id ck ck' id p _ _ (proj1 Hr) Hck Hlift0 Ha) as [Hrun _].
  destruct (runs_store _ _ _ _ _ Hr Hrun) as (d & Hd & Hr').
  rewrite (store_round_update _ _ _ _ Hd) in Hstep. injection Hstep as _ <-.
  exists ck, ck', d. by split_and!.
Qed.

Lemma clean_add_contribution chunk_id p : clean (add_contribution chunk_id p).
Proof.
  unfold add_contribution. apply clean_read; [done|]. intros h. apply clean_read; [done|]. intros r.
  do 2 apply clean_check. do 2 (apply clean_read; [done|]; intros ?). apply clean_check.
  do 2 (apply clean_read; [done|]; intros ?). destruct (with_chunk _ _ r) as [o r1].
  apply clean_read; [done|]. intros _. apply clean_store.
Qed.

Lemma sim_add_contribution chunk_id p : simulates (add_contribution chunk_id p).
Proof.
  apply sim_clean; [apply clean_add_contribution|]. intros n h r c [l id] c' Hr H.
  destruct (add_contribution_ok _ _ _ _ _ _ _ _ _ Hr H)
    as (ck & ck' & d & Hck & _ & Hid & _ & _ & Ha & _ & Hr').
  destruct (running_contribute n h r chunk_id ck ck' id p _ _ (proj1 Hr) Hck Hid Ha) as [_ Hstep].
  by eapply moved_step.
Qed.

(** Releasing the lock of a chunk in the stored round. *)
Definition release_stored {A} (chunk_id : N) (a : A) : co A :=
  let! r := loading load_current_round in
  let '(o, r) := with_chunk chunk_id (modify (set_lock_holder_unsafe None)) r in
  let! _ := lift o in
  on_storage (update (LRoundState (rd_height r)) (ORoundState r)) ;;;
  ret a.

Lemma sim_release_stored {A} chunk_id (a : A) : simulates (release_stored chunk_id a).
Proof.
  intros n h r c Hr. unfold release_stored. rewrite (bind_loading_current n h r) by done.
  destruct (with_chunk _ _ r) as [[[]|e|] r1] eqn:Ew; [|by apply moved_refl..].
  apply with_chunk_inv in Ew as (ck & ck' & Hck & [= <-] & ->).
  destruct (running_release n h r chunk_id ck (proj1 Hr) Hck) as [Hrun Hstep].
  destruct (runs_store _ _ _ _ _ Hr Hrun) as (d & Hd & Hr'). unfold bind at 1, lift.
  assert (rd_height (set_chunk chunk_id (set_lock_holder_unsafe None ck) r) = h) as -> by apply Hrun.
  unfold bind. rewrite Hd. simpl. by eapply moved_step.
Qed.

Lemma sim_dispose_contribution h chunk_id p t now : simulates (dispose_contribution h chunk_id p t now).
Proof.
  unfold dispose_contribution. do 3 (apply sim_bind; [apply sim_keeps; keeps|]; intros _).
  apply sim_release_stored.
Qed.

Lemma sim_try_contribute p chunk_id now : simulates (try_contribute p chunk_id now).
Proof.
  unfold try_contribute. do 3 apply sim_check. apply sim_bind; [apply sim_keeps; keeps|]. intros _.
  apply sim_bind; [apply sim_keeps; keeps|]. intros h. do 2 (apply sim_bind; [apply sim_keeps; keeps|]; intros ?).
  apply sim_option; [intros t; apply sim_dispose_contribution|].
  do 2 (apply sim_bind; [apply sim_keeps; keeps|]; intros ?). apply sim_option; [|apply sim_keeps; keeps].
  intros t. apply (sim_recover_pair (add_contribution chunk_id p)).
  - apply sim_add_contribution.
  - intros l id. apply sim_keeps. keeps.
  - intros e. apply sim_keeps. keeps.
Qed.

(** ** Verifying *)

Lemma running_try_finish n h now r : running n h r → running n h (try_finish now r).
Proof. destruct (try_finish_frame now r) as (? & ? & ? & ?). by apply running_ext. Qed.

(** Where the verification of contribution [id] is recorded. *)
Definition challenge_path (c : Coordinator) (h chunk_id id : N) (is_final : bool) : LocatorPath :=
  path_of (storage c) (LContributionFile (challenge_after h chunk_id id is_final)).
Definition challenge_signature_path (c : Coordinator) (h chunk_id id : N) (is_final : bool) : LocatorPath :=
  path_of (storage c) (LContributionFileSignature (signature_after h chunk_id id is_final)).

Lemma verify_contribution_ok n h r c t v now id c' :
  runs n h r c → readable v → verify_contribution t v now c = (Ok id, c') →
  ∃ ck ck' d, round_chunk r (chunk_id t) = Ok ck ∧ is_verifier v = true ∧
    id = contribution_id t ∧ id = current_contribution_id ck ∧
    let is_final := only_contributions_complete ck (expected_number_of_contributions r) in
    accept_verification h (chunk_id t) id is_final v (storage c) = Ok tt ∧
    Chunk.verify_contribution id v (challenge_path c h (chunk_id t) id is_final)
      (challenge_signature_path c h (chunk_id t) id is_final) ck = (Ok tt, ck') ∧
    c' = set_storage d c ∧
    runs n h (stored_round (try_finish now (set_chunk (chunk_id t) ck' r))) c'.
Proof.
  intros Hr Hread H. unfold verify_contribution in H. apply check_ok in H as [Hv H].
  apply negb_false_iff in Hv.
  rewrite (bind_loading_height n h r), (bind_loading_current n h r) in H by done.
  apply bind_lift_ok in H as (ck & Hck & H). apply check_ok in H as [Hid H].
  apply negb_false_iff, N.eqb_eq in Hid.
  apply bind_ok in H as ([] & c1 & [= Hacc <-] & H). rewrite bind_gets in H. cbn beta in H.
  destruct (round_verify_contribution _ _ _ _ _ _ r) as [o r1] eqn:Ew.
  apply bind_lift_ok in H as ([] & -> & H). apply bind_ok in Ew as ([] & r2 & Ew & [= <-]).
  apply with_chunk_inv in Ew as (ck2 & ck' & Hck' & Hver & ->). rewrite Hck in Hck'. injection Hck' as <-.
  destruct (running_verify n h r (chunk_id t) ck ck' v _ _ (proj1 Hr) Hread Hck Hver) as [Hrun _].
  apply (running_try_finish _ _ now) in Hrun.
  destruct (runs_store _ _ _ _ _ Hr Hrun) as (d & Hd & Hr').
  unfold bind in H. rewrite (store_round_update _ _ _ _ Hd) in H. injection H as <- <-.
  exists ck, ck', d. by split_and!.
Qed.

Lemma clean_verify_contribution t v now : clean (verify_contribution t v now).
Proof.
  unfold verify_contribution. apply clean_check. do 3 (apply clean_read; [done|]; intros ?).
  apply clean_check. do 2 (apply clean_read; [done|]; intros ?).
  destruct (round_verify_contribution _ _ _ _ _ _ _) as [o r1].
  apply clean_read; [done|]. intros _. apply clean_store.
Qed.

Lemma board_try_finish now r : board (try_finish now r) = board r.
Proof. unfold board. by destruct (try_finish_frame now r) as (-> & _). Qed.

Lemma sim_verify_contribution t v now : readable v → simulates (verify_contribution t v now).
Proof.
  intros Hread. apply sim_clean; [apply clean_verify_contribution|]. intros n h r c id c' Hr H.
  destruct (verify_contribution_ok _ _ _ _ _ _ _ _ _ Hr Hread H)
    as (ck & ck' & d & Hck & _ & -> & Hid & _ & Ha & _ & Hr'). rewrite Hid in Ha.
  destruct (running_verify n h r _ ck ck' v _ _ (proj1 Hr) Hread Hck Ha) as [_ Hstep].
  eapply moved_step; [done| |].
  - apply (proj1 (proj2 (try_finish_frame now (set_chunk (chunk_id t) ck' r)))).
  - change (board (stored_round ?x)) with (board x). by rewrite board_try_finish.
Qed.

Lemma sim_try_verify v t now : readable v → simulates (try_verify v t now).
Proof.
  intros Hread. unfold try_verify. do 2 apply sim_check. apply sim_bind; [apply sim_keeps; keeps|]. intros _.
  apply (sim_recover (verify_contribution t v now)); [by apply sim_verify_contribution|..].
  - intros id. apply sim_keeps. keeps.
  - intros e. apply sim_keeps. keeps.
Qed.

(** ** Rolling a lock back *)

Lemma remove_locks_one p c (r : Round) (d : Disk) u rd' :
  remove_locks_unsafe p [c] (r, d) = (Ok u, rd') →
  untouched round_record d rd'.2 ∧
  (rd'.1 = r ∨ ∃ ck, round_chunk r c = Ok ck ∧ rd'.1 = set_chunk c (set_lock_holder_unsafe None ck) r).
Proof.
  unfold remove_locks_unsafe. rewrite bind_gets, filter_cons, filter_nil. cbn [fst].
  destruct (decide _); cbn [for_each].
  - intros H. apply bind_ok in H as ([] & rd1 & H & H'). cbv [ret] in H'. injection H' as _ <-. unfold remove_lock in H. ok_inv H.
    apply on_disk_ok in Hstep as (d1 & Hd1 & ->). apply on_round_ok in H as (r1 & Hr1 & ->).
    apply with_chunk_inv in Hr1 as (ck & ck' & Hck & [= <-] & ->). simpl in *.
    pose proof (keeps_remove_pending_files round_record (λ _, eq_refl) (λ _, eq_refl) c x r d) as Hk.
    rewrite Hd1 in Hk. split; [done|]. right. eauto.
  - intros [= <- <-]. split; [simpl; reflexivity | by left].
Qed.

Lemma sim_rollback_locked_task p t now : simulates (rollback_locked_task p t now).
Proof.
  unfold rollback_locked_task. do 2 (apply sim_bind; [apply sim_keeps; keeps|]; intros _).
  intros n h r c Hr. rewrite (bind_loading_current n h r) by done. unfold bind, with_round_and_disk.
  pose proof (keeps_remove_locks_unsafe round_record (λ _, eq_refl) (λ _, eq_refl) p [chunk_id t] (r, storage c)) as Hk.
  destruct (remove_locks_unsafe p [chunk_id t] (r, storage c)) as [o [r1 d]] eqn:E. simpl in Hk.
  apply (runs_untouched n h r c (set_storage d c)) in Hr as Hr'; [|done].
  destruct o as [[]|e|]; [|by apply moved_refl..]. apply remove_locks_one in E as [_ Hr1]. simpl in *.
  unfold loading, stored_round_height. pose proof (held_height _ _ _ (proj2 Hr')) as Hh. simpl in *.
  rewrite Hh. cbn [bind_outcome].
  destruct (disk_exists _ _); [|by apply moved_refl].
  assert (running n h r1 ∧ moved n h r (set_storage d c) ∧
    (r1 = r ∨ board_step (contributor_ids r) (Released (N.to_nat (chunk_id t))) (board r) (board r1)) ∧
    contributor_ids r1 = contributor_ids r) as (Hrun & _ & Hb & Hm).
  { destruct Hr1 as [->|(ck & Hck & ->)].
    - split_and!; [apply Hr|by apply moved_refl|by left|done].
    - destruct (running_release n h r (chunk_id t) ck (proj1 Hr) Hck) as [??].
      split_and!; [done|by apply moved_refl|by right|done]. }
  destruct (runs_store _ _ _ _ _ Hr' Hrun) as (d2 & Hd2%process_update & Hr2).
  rewrite Hd2. destruct Hb as [->|Hb]; [|by eapply moved_step].
  exists (stored_round r). split_and!; [done..|]. by apply rtc_refl.
Qed.

(** ** The operator's shortcuts *)

Lemma sim_run_computation h chunk_id id p k seed : simulates (run_computation h chunk_id id p k seed).
Proof.
  apply sim_keeps. unfold run_computation.
  pose proof (keeps_computation_run round_record (λ _, eq_refl) (λ _, eq_refl)).
  keeps.
Qed.
Lemma sim_run_verification h t v k : simulates (run_verification h t v k).
Proof.
  apply sim_keeps. unfold run_verification.
  pose proof (keeps_verification_run round_record (λ _, eq_refl) (λ _, eq_refl)).
  keeps.
Qed.
Lemma sim_initialize_response_files p chunk_id ls : simulates (initialize_response_files p chunk_id ls).
Proof.
  apply sim_keeps. unfold initialize_response_files.
  pose proof (keeps_initialize_verifier_response_files round_record (λ _, eq_refl) (λ _, eq_refl)).
  keeps.
Qed.
Lemma sim_contribute p k seed now : simulates (contribute p k seed now).
Proof.
  unfold contribute. apply sim_bind; [apply sim_try_lock|]. intros locked.
  do 2 (apply sim_bind; [apply sim_keeps; keeps|]; intros ?). do 2 apply sim_check.
  apply sim_bind; [apply sim_run_computation|]. intros _. apply sim_bind; [apply sim_try_contribute|].
  intros _. apply sim_keeps. keeps.
Qed.
Lemma sim_verify v k t now : readable v → simulates (verify v k t now).
Proof.
  intros Hv. unfold verify. apply sim_bind; [apply sim_keeps; keeps|]. intros h.
  apply sim_bind; [apply sim_run_verification|]. intros _. by apply sim_try_verify.
Qed.
End refinement.

(** ** The calls of a running round *)

Inductive Call :=
| CTryLock (p : Participant)
| CTryContribute (p : Participant) (chunk_id : N)
| CTryVerify (v : Participant) (t : Task)
| CRollbackLock (p : Participant) (t : Task)
| CInitializeResponse (v : Participant) (chunk_id : N) (ls : LockedLocators)
| CRunComputation (h chunk_id id : N) (p : Participant) (signing_key : string) (seed : bytes)
| CRunVerification (h : N) (t : Task) (v : Participant) (signing_key : string)
| CContribute (p : Participant) (signing_key : string) (seed : bytes)
| CVerify (v : Participant) (signing_key : string) (t : Task)
| CHeartbeat (p : Participant)
| CAddToQueue (p : Participant) (ip : option IpAddr) (score : N)
| CRemoveFromQueue (p : Participant)
| CManualLock (enable : bool).

Definition call_readable (call : Call) : Prop :=
  match call with CTryVerify v _ | CVerify v _ _ => readable v | _ => True end.

Section calls.
Context `{HO : HashOrder, TA : TimeApi, SE : !Serde, CR : Cryptography, SG : Signature}.

Definition perform (call : Call) (now : Z) : M CoordinatorError Coordinator unit :=
  match call with
  | CTryLock p => try_lock p now ;;; ret tt
  | CTryContribute p c => try_contribute p c now ;;; ret tt
  | CTryVerify v t => try_verify v t now
  | CRollbackLock p t => rollback_locked_task p t now
  | CInitializeResponse v c ls => initialize_response_files v c ls
  | CRunComputation h c id p k seed => run_computation h c id p k seed
  | CRunVerification h t v k => run_verification h t v k ;;; ret tt
  | CContribute p k seed => contribute p k seed now
  | CVerify v k t => verify v k t now
  | CHeartbeat p => heartbeat p now
  | CAddToQueue p ip score => Coordinator.add_to_queue p ip score now
  | CRemoveFromQueue p => Coordinator.remove_from_queue p
  | CManualLock true => Coordinator.enable_manual_lock
  | CManualLock false => Coordinator.disable_manual_lock
  end.

(** One call, whatever it returns. *)
Definition call_step (c c' : Coordinator) : Prop :=
  ∃ call now, call_readable call ∧ c' = (perform call now c).2.

Lemma sim_then_unit {A} (m : M CoordinatorError Coordinator A) : simulates m → simulates (m ;;; ret tt).
Proof. intros Hm. apply sim_bind; [done|]. intros _. apply sim_keeps. keeps. Qed.

Lemma sim_perform call now : call_readable call → simulates (perform call now).
Proof.
  intros Hc. destruct call as [| | | | | | | | | | | |[]]; simpl in *;
    eauto using sim_then_unit, sim_try_lock, sim_try_contribute, sim_try_verify, sim_rollback_locked_task,
      sim_initialize_response_files, sim_run_computation, sim_run_verification, sim_contribute, sim_verify;
    apply sim_keeps; keeps.
Qed.

Lemma calls_moved n h r c c' : runs n h r c → rtc call_step c c' → moved n h r c'.
Proof.
  intros Hr Hc. revert r Hr. induction Hc as [c|c c1 c' (call & now & Hread & ->) _ IH]; intros r Hr.
  - by apply moved_refl.
  - destruct (sim_perform call now Hread n h r c Hr) as (r1 & Hr1 & Hm1 & Hb1).
    eapply moved_trans; [done..|]. by apply IH.
Qed.

(** A sequence of calls, with the time of each. *)
Definition perform_all (calls : list (Call * Z)) (c : Coordinator) : Coordinator :=
  foldl (λ c call, (perform call.1 call.2 c).2) c calls.

Lemma perform_all_steps calls c :
  Forall (λ call, call_readable call.1) calls → rtc call_step c (perform_all calls c).
Proof.
  revert c. induction calls as [|[call now] calls IH]; intros c Hall; [apply rtc_refl|].
  apply Forall_cons in Hall as [Hc Hall]. eapply rtc_l; [|by apply IH]. by exists call, now.
Qed.

Lemma runs_loaded n h r c : runs n h r c → loaded c = r.
Proof. intros [_ Hh]. unfold loaded. by rewrite (holds_current _ _ _ Hh). Qed.

Lemma perform_all_runs n h r calls c :
  runs n h r c → Forall (λ call, call_readable call.1) calls →
  runs n h (loaded (perform_all calls c)) (perform_all calls c).
Proof.
  intros Hr Hall. destruct (calls_moved n h r c (perform_all calls c)) as (r' & Hr' & _); [done| |].
  - by apply perform_all_steps.
  - by rewrite (runs_loaded _ _ _ _ Hr').
Qed.

(** C2. Refinement: through any sequence of calls, failing ones included, the
    round in the storage stays a well-formed round of the same members at the
    same height that can be read back, and its chunks move as the board
    allows: one holder at a time, one contribution per member and chunk, and a
    verification between any two contributions. *)
Theorem coordinator_refines_board n h r c c' :
  runs n h r c → rtc call_step c c' →
  ∃ r', runs n h r' c' ∧ contributor_ids r' = contributor_ids r ∧
        board_moves (contributor_ids r) (board r) (board r').
Proof. apply calls_moved. Qed.

(** The steps of a successful call. *)
Lemma on_state_ok {A} (m : state_method A) c a c' :
  on_state m c = (Ok a, c') ↔ ∃ s, m (state c) = (Ok a, s) ∧ c' = set_state s c.
Proof. apply zoom_ok. Qed.

Lemma save_state_ok c c' :
  save_state c = (Ok tt, c') → state c' = state c ∧ untouched round_record (storage c) (storage c').
Proof.
  intros H. pose proof (keeps_save_state round_record eq_refl c) as Hk. rewrite H in Hk. split; [|done].
  unfold save_state in H. apply zoom_ok in H as (d & _ & ->). done.
Qed.

Lemma check_round_open_ok c u c' : check_round_open c = (Ok u, c') → c' = c.
Proof. unfold check_round_open. intros H. do 3 apply check_ok in H as [_ H]. by injection H. Qed.

Lemma try_lock_ok p now c id ls c' :
  try_lock p now c = (Ok (id, ls), c') →
  ∃ t s1 c2 s2, id = chunk_id t ∧ fetch_task p now (state c) = (Ok t, s1) ∧
    try_lock_chunk id p (set_state s1 c) = (Ok ls, c2) ∧
    CoordinatorState.acquired_lock p id now (state c2) = (Ok tt, s2) ∧
    state c' = s2 ∧ untouched round_record (storage c2) (storage c').
Proof.
  intros H. unfold try_lock in H. do 2 apply check_ok in H as [_ H].
  apply bind_ok in H as (u0 & c0 & ->%check_round_open_ok & H).
  apply bind_ok in H as (t & c1 & (s1 & Ht & ->)%on_state_ok & H).
  apply bind_pure_ok in H as (r & _ & H). apply bind_lift_ok in H as (ck & _ & H).
  case_match; [by apply bind_ok in H as (? & ? & _ & ?)|].
  destruct (try_lock_chunk _ p _) as [[ls'|e|] c2] eqn:El.
  - apply bind_ok in H as ([] & c3 & (s2 & Hs2 & ->)%on_state_ok & H).
    apply bind_ok in H as ([] & c4 & [Hs Hu]%save_state_ok & [= <- -> <-]).
    by exists t, s1, c2, s2.
  - by apply bind_ok in H as (? & ? & _ & (? & ? & _ & ?)%bind_ok).
  - done.
Qed.

Lemma try_verify_ok v t now c c' u :
  try_verify v t now c = (Ok u, c') →
  ∃ c1 s, verify_contribution t v now c = (Ok (contribution_id t), c1) ∧
    CoordinatorState.completed_task v t now (state c1) = (Ok tt, s) ∧
    state c' = s ∧ untouched round_record (storage c1) (storage c').
Proof.
  intros H. unfold try_verify in H. do 2 apply check_ok in H as [_ H].
  apply bind_ok in H as (u0 & c0 & ->%check_round_open_ok & H).
  destruct (verify_contribution t v now c) as [[id|e|] c1] eqn:Ev.
  - apply check_ok in H as [->%negb_false_iff%N.eqb_eq H].
    apply bind_ok in H as ([] & c3 & (s2 & Hs2 & ->)%on_state_ok & H). destruct u.
    apply save_state_ok in H as [Hs Hu]. by exists c1, s2.
  - by apply bind_ok in H as (? & ? & _ & (? & ? & _ & ?)%bind_ok).
  - done.
Qed.

(** A contribution to a disposed task is thrown away. *)
Lemma try_contribute_ok p id now c l c' :
  try_contribute p id now c = (Ok l, c') →
  (∃ t h c0, lookup_disposing_task p id (state c) = Ok (Some t) ∧
     dispose_contribution h id p t now c0 = (Ok l, c')) ∨
  (∃ k c1 s, lookup_disposing_task p id (state c) = Ok None ∧
     add_contribution id p c = (Ok (l, k), c1) ∧
     CoordinatorState.completed_task p (MkTask id k) now (state c1) = (Ok tt, s) ∧
     state c' = s ∧ untouched round_record (storage c1) (storage c')).
Proof.
  intros H. unfold try_contribute in H. do 3 apply check_ok in H as [_ H].
  apply bind_ok in H as (u0 & c0 & ->%check_round_open_ok & H).
  apply bind_pure_ok in H as (h & _ & H). rewrite bind_gets in H. apply bind_lift_ok in H as (o & Ho & H).
  destruct o as [t|]; [left; eauto | right].
  rewrite bind_gets in H. apply bind_lift_ok in H as (o & _ & H). destruct o as [t|]; [|done].
  destruct (add_contribution id p c) as [[[l' k]|e|] c1] eqn:Ea.
  - apply bind_ok in H as ([] & c3 & (s2 & Hs2 & ->)%on_state_ok & H).
    apply bind_ok in H as ([] & c4 & [Hs Hu]%save_state_ok & [= -> <-]). by exists k, c1, s2.
  - by apply bind_ok in H as (? & ? & _ & ?).
  - done.
Qed.

(** A successful call is one event of the board. *)
Lemma try_lock_event n h r c p now id ls c' :
  runs n h r c → try_lock p now c = (Ok (id, ls), c') →
  ∃ r', runs n h r' c' ∧ contributor_ids r' = contributor_ids r ∧
    board_step (contributor_ids r) (Locked (N.to_nat id) p) (board r) (board r').
Proof.
  intros Hr (t & s1 & c2 & s2 & _ & _ & Hl & _ & _ & Hu)%try_lock_ok.
  apply (try_lock_chunk_ok n h r) in Hl as (r' & Hr' & ? & ?); [|done].
  exists r'. split; [by eapply runs_untouched | done].
Qed.

Lemma try_contribute_event n h r c p id now l c' :
  runs n h r c → lookup_disposing_task p id (state c) = Ok None → try_contribute p id now c = (Ok l, c') →
  ∃ r', runs n h r' c' ∧ contributor_ids r' = contributor_ids r ∧
    board_step (contributor_ids r) (Contributed (N.to_nat id) p) (board r) (board r').
Proof.
  intros Hr Hnone [(? & ? & ? & ? & _)|(k & c1 & s & _ & Ha & _ & _ & Hu)]%try_contribute_ok; [congruence|].
  destruct (add_contribution_ok _ _ _ _ _ _ _ _ _ Hr Ha)
    as (ck & ck' & d & Hck & _ & Hid & _ & _ & Hc & _ & Hr').
  destruct (running_contribute n h r id ck ck' k p _ _ (proj1 Hr) Hck Hid Hc) as [_ Hstep].
  exists (stored_round (set_chunk id ck' r)). split; [by eapply runs_untouched | done].
Qed.

Lemma try_verify_event n h r c v t now u c' :
  runs n h r c → readable v → try_verify v t now c = (Ok u, c') →
  ∃ r', runs n h r' c' ∧ contributor_ids r' = contributor_ids r ∧
    board_step (contributor_ids r) (Verified (N.to_nat (chunk_id t))) (board r) (board r').
Proof.
  intros Hr Hread (c1 & s & Hv & _ & _ & Hu)%try_verify_ok.
  destruct (verify_contribution_ok _ _ _ _ _ _ _ _ _ Hr Hread Hv)
    as (ck & ck' & d & Hck & _ & _ & Hid & _ & Ha & _ & Hr'). rewrite Hid in Ha.
  destruct (running_verify n h r _ ck ck' v _ _ (proj1 Hr) Hread Hck Ha) as [_ Hstep].
  eexists. split; [by eapply runs_untouched|]. split.
  - apply (proj1 (proj2 (try_finish_frame now (set_chunk (chunk_id t) ck' r)))).
  - change (board (stored_round ?x)) with (board x). by rewrite board_try_finish.
Qed.

(** What a successful call did to the board is exactly one event: a lock
    taken, a contribution added, a verification recorded. *)
Theorem successful_calls_are_board_events n h r c c' :
  runs n h r c →
  (∀ p now id ls, try_lock p now c = (Ok (id, ls), c') →
     ∃ r', runs n h r' c' ∧ contributor_ids r' = contributor_ids r ∧
       board_step (contributor_ids r) (Locked (N.to_nat id) p) (board r) (board r')) ∧
  (∀ p id now l, lookup_disposing_task p id (state c) = Ok None → try_contribute p id now c = (Ok l, c') →
     ∃ r', runs n h r' c' ∧ contributor_ids r' = contributor_ids r ∧
       board_step (contributor_ids r) (Contributed (N.to_nat id) p) (board r) (board r')) ∧
  (∀ v t now u, readable v → try_verify v t now c = (Ok u, c') →
     ∃ r', runs n h r' c' ∧ contributor_ids r' = contributor_ids r ∧
       board_step (contributor_ids r) (Verified (N.to_nat (chunk_id t))) (board r) (board r')).
Proof.
  intros Hr. split_and!; intros.
  - by eapply try_lock_event.
  - by eapply try_contribute_event.
  - by eapply try_verify_event.
Qed.
End calls.

(** ** Witnesses *)

#[local] Existing Instance trie_order.
#[local] Existing Instance time_api.
#[local] Existing Instance plain_serde.
#[local] Existing Instance toy_cryptography.
#[local] Existing Instance dummy_signature.

Definition after_lock_call : Coordinator := (perform (CTryLock alice) 5 sample_round).2.
Definition after_lock : Coordinator := (try_lock alice 5 sample_round).2.

Lemma sample_round_board :
  contributor_ids (loaded sample_round) = [alice; bob] ∧ board (loaded sample_round) = fresh_board 2.
Proof. split; vm_compute; reflexivity. Qed.

Lemma coordinator_refines_board_witness :
  ∃ r', runs 2 1 r' after_lock_call ∧ contributor_ids r' = contributor_ids (loaded sample_round) ∧
        board_moves (contributor_ids (loaded sample_round)) (board (loaded sample_round)) (board r').
Proof.
  apply (coordinator_refines_board 2 1 (loaded sample_round) sample_round after_lock_call).
  - apply sample_round_runs.
  - apply rtc_once. exists (CTryLock alice), 5%Z. by split.
Defined.

Lemma successful_calls_are_board_events_witness :
  ∃ r', runs 2 1 r' after_lock ∧ contributor_ids r' = contributor_ids (loaded sample_round) ∧
        board_step (contributor_ids (loaded sample_round)) (Locked 0 alice) (board (loaded sample_round)) (board r').
Proof.
  destruct (successful_calls_are_board_events 2 1 (loaded sample_round) sample_round after_lock
    sample_round_runs) as [H _].
  assert (∃ ls, (try_lock alice 5 sample_round).1 = Ok (0%N, ls)) as [ls Hl] by (eexists; vm_compute; reflexivity).
  exact (H alice 5%Z 0%N ls (pair_outcome _ _ Hl)).
Defined.
