(* ===== verification/Progress.v ===== *)
(** * A round comes to its end

    Every successful lock, contribution and verification brings a round one
    step closer to completion, and only a lock that is given up takes one back:
    a round of [n] chunks and [m] contributors takes [3 * n * m] of these
    calls, and one more for each lock given up in between. *)

From S2P Require Import Prelude Text Task Participant Errors Environment Phase1Parameters Contribution Locator Chunk Round Board ParticipantInfo RoundMetrics CoordinatorState Serde Storage RoundStorage Commands RoundTransition DropParticipant Frame Coordinator RoundStore Contributing Ceremony Sample Refinement.

(** ** Complete boards *)

Lemma expected_exact r :
  (N.of_nat (length (contributor_ids r)) + 1 < u64_modulus)%N →
  expected_number_of_contributions r = (N.of_nat (length (contributor_ids r)) + 1)%N.
Proof. intros H. unfold expected_number_of_contributions, round_number_of_contributors. by rewrite u64_add_exact. Qed.

(** A chunk is complete when its cell is. *)
Lemma complete_cell c m expected :
  chunk_wf expected c → expected = (N.of_nat m + 1)%N → (expected < u64_modulus)%N →
  is_complete c expected = true ↔ cell_done m (cell_of c).
Proof.
  intros (n & Hm & Hle & _) He Hexp. pose proof (transcript_nonempty _ _ Hm) as Hpos.
  destruct (transcript_lookup _ n (n - 1) Hm) as [k Hk]; [lia|].
  assert (awaiting (cell_of c) = negb (verified k)) as Haw.
  { simpl. apply (current_contribution_wf expected Hexp c n k Hm Hle) in Hk. by rewrite Hk. }
  unfold cell_done. rewrite (is_complete_wf _ _ _ Hm), (authors_length c n Hm), Haw. split.
  - intros (Hl & -> & Hv). split_and!; [lia| |done]. by rewrite (Hv _ _ Hk).
  - intros (Hlen & Hv & Hl). split_and!; [done|lia|]. eapply transcript_all_verified; [done|].
    exists k. split; [done|]. by destruct (verified k).
Qed.

Lemma complete_board n h r :
  running n h r → (N.of_nat (length (contributor_ids r)) + 1 < u64_modulus)%N →
  round_is_complete r = true ↔ ∀ i x, board r !! i = Some x → cell_done (length (contributor_ids r)) x.
Proof.
  intros Hr Hb. pose proof (expected_exact r Hb) as He.
  assert (∀ i c, chunks r !! i = Some c →
    is_complete c (expected_number_of_contributions r) = true ↔ cell_done (length (contributor_ids r)) (cell_of c)) as Hcell.
  { intros i c Hc. apply complete_cell; [|done|lia]. by eapply round_chunks_wf; [apply Hr|]. }
  unfold round_is_complete, board. split.
  - intros H i x Hx. case_match; [done|]. rewrite list_lookup_fmap in Hx.
    apply fmap_Some in Hx as (c & Hc & ->). eapply Hcell; [done|].
    apply Is_true_true, forallb_True in H. rewrite Forall_lookup in H. by apply Is_true_true, (H i).
  - intros H.
    assert (∀ i c, chunks r !! i = Some c → cell_done (length (contributor_ids r)) (cell_of c)) as Hall.
    { intros i c Hc. apply (H i). by rewrite list_lookup_fmap, Hc. }
    assert (filter (λ c, is_locked c = true) (chunks r) = []) as ->.
    { apply elem_of_nil_inv. intros c [Hf [i Hc]%list_elem_of_lookup_1]%list_elem_of_filter.
      destruct (Hall i c Hc) as (_ & _ & Hl). unfold is_locked in Hf. simpl in Hl. by rewrite Hl in Hf. }
    apply Is_true_true, forallb_True, Forall_lookup. intros i c Hc. apply Is_true_true.
    eapply Hcell; [done|]. by eapply Hall.
Qed.

(** The cells of a running round. *)
Lemma running_cell n h r i x :
  running n h r → board r !! i = Some x → NoDup (authors x) ∧ (awaiting x = true → holder x = None).
Proof.
  intros Hr Hx. unfold board in Hx. rewrite list_lookup_fmap in Hx. apply fmap_Some in Hx as (c & Hc & ->).
  destruct (round_chunks_wf _ _ (running_wf _ _ _ Hr) i c Hc) as (k & Hm & Hle & Hl). split.
  - simpl. apply NoDup_fmap_2_strong; [|apply u64_range_NoDup].
    intros a b Ha%elem_of_u64_range Hb%elem_of_u64_range Heq.
    rewrite (transcript_len c k Hm) in *.
    assert (∀ j, (1 ≤ j < k)%N → ∃ q, contributions c !! j = Some q ∧ contributor_id q = Some (contributor_at c j)) as Hat.
    { intros j Hj. destruct (transcript_lookup _ k j Hm) as [q Hq]; [lia|]. exists q. split; [done|].
      unfold contributor_at. rewrite Hq. simpl. destruct (contributor_id q) eqn:E; [done|].
      apply (transcript_entries _ _ Hm _ _ Hq) in E. lia. }
    destruct (Hat a) as (qa & Ha' & Hia); [lia|]. destruct (Hat b) as (qb & Hb' & Hib); [lia|].
    rewrite Heq in Hia. by eapply transcript_distinct.
  - simpl. intros Hw. destruct (lock_holder c) as [p|] eqn:Hp; [|done]. exfalso.
    assert (is_contributor p = true) as Hcon by (by eapply running_contributor, running_holders).
    destruct (Hl p eq_refl Hcon) as [Hv _]. pose proof (transcript_nonempty _ _ Hm).
    destruct (transcript_lookup _ k (k - 1) Hm) as [q Hq]; [lia|].
    pose proof (proj2 (current_contribution_wf _ (expected_range r) c k q Hm Hle) Hq) as Hcur.
    rewrite Hcur, (Hv _ Hq) in Hw. done.
Qed.

(** ** Counting the calls *)

Section progress.
Context `{HO : HashOrder, TA : TimeApi, SE : !Serde, CR : Cryptography, SG : Signature}.

(** A successful call that moves the work on. *)
Inductive productive_call (c c' : Coordinator) : Prop :=
| productive_lock p now id ls : try_lock p now c = (Ok (id, ls), c') → productive_call c c'
| productive_contribute p id now l :
    lookup_disposing_task p id (state c) = Ok None →
    try_contribute p id now c = (Ok l, c') → productive_call c c'
| productive_verify v t now u : readable v → try_verify v t now c = (Ok u, c') → productive_call c c'.

Lemma productive_call_step n h r c c' :
  runs n h r c → productive_call c c' →
  ∃ r', runs n h r' c' ∧ contributor_ids r' = contributor_ids r ∧
    productive_step (contributor_ids r) (board r) (board r').
Proof.
  intros Hr [p now id ls H|p id now l Hd H|v t now u Hv H].
  - eapply try_lock_event in H as (r' & ? & ? & ?); [|done]. exists r'. split_and!; [done..|]. by eexists.
  - eapply try_contribute_event in H as (r' & ? & ? & ?); [|done..]. exists r'. split_and!; [done..|]. by eexists.
  - eapply try_verify_event in H as (r' & ? & ? & ?); [|done..]. exists r'. split_and!; [done..|]. by eexists.
Qed.

Lemma productive_calls_steps n h r k c c' :
  runs n h r c → nsteps productive_call k c c' →
  ∃ r', runs n h r' c' ∧ contributor_ids r' = contributor_ids r ∧
    nsteps (productive_step (contributor_ids r)) k (board r) (board r').
Proof.
  intros Hr Hk. revert r Hr. induction Hk as [c|k c c1 c' Hc _ IH]; intros r Hr.
  - exists r. split_and!; [done..|constructor].
  - destruct (productive_call_step _ _ _ _ _ Hr Hc) as (r1 & Hr1 & Hm1 & Hs).
    destruct (IH r1 Hr1) as (r' & Hr' & Hm' & Hs'). rewrite Hm1 in *.
    exists r'. split_and!; [done|done|]. by econstructor.
Qed.

Lemma fresh_board_work n m : board_work m (fresh_board n) = 3 * n * m.
Proof.
  unfold board_work, fresh_board. induction n as [|n IH]; [done|].
  cbn [replicate foldr]. rewrite IH. unfold cell_work. simpl. lia.
Qed.

Lemma fresh_board_room n m : board_room m (fresh_board n).
Proof. intros i x [-> _]%lookup_replicate_1. simpl. split; [lia | done]. Qed.

(** ** With other calls in between *)

(** [k] of the calls are successful locks, contributions and verifications;
    between them there are any other calls, failing ones, rollbacks and
    disposals included, that give up [l] locks. *)
Inductive work_run : nat → nat → Coordinator → Coordinator → Prop :=
| work_start c : work_run 0 0 c c
| work_productive k l c c1 c' : productive_call c c1 → work_run k l c1 c' → work_run (S k) l c c'
| work_other k l c c1 c' :
    call_step c c1 → work_run k l c1 c' →
    work_run k (locks_given_up (board (loaded c)) (board (loaded c1)) + l) c c'.

Lemma work_run_bound n h r k l c c' :
  runs n h r c → board_room (length (contributor_ids r)) (board r) → work_run k l c c' →
  ∃ r', runs n h r' c' ∧ contributor_ids r' = contributor_ids r ∧
    board_room (length (contributor_ids r)) (board r') ∧
    board_work (length (contributor_ids r)) (board r') + k ≤ board_work (length (contributor_ids r)) (board r) + l.
Proof.
  intros Hr Hroom Hrun. revert r Hr Hroom.
  induction Hrun as [c|k l c c1 c' Hc _ IH|k l c c1 c' (call & now & Hread & ->) _ IH]; intros r Hr Hroom.
  - exists r. split_and!; [done..|lia].
  - destruct (productive_call_step _ _ _ _ _ Hr Hc) as (r1 & Hr1 & Hm1 & Hs).
    apply nsteps_once in Hs. destruct (productive_steps_work _ 1 _ _ Hroom Hs) as [Hw Hroom1].
    rewrite <-Hm1 in Hw, Hroom1 |- *. destruct (IH r1 Hr1 Hroom1) as (r' & ? & ? & ? & ?).
    exists r'. split_and!; [done..|lia].
  - destruct (sim_perform call now Hread n h r c Hr) as (r1 & Hr1 & Hm1 & Hb1).
    pose proof (board_moves_work _ _ _ Hb1 Hroom) as Hw. pose proof (board_moves_room _ _ _ Hb1 Hroom) as Hroom1.
    rewrite (runs_loaded _ _ _ _ Hr), (runs_loaded _ _ _ _ Hr1). rewrite <-Hm1 in Hw, Hroom1 |- *.
    destruct (IH r1 Hr1 Hroom1) as (r' & ? & ? & ? & ?). exists r'. split_and!; [done..|lia].
Qed.

(** What is left to do on the board of a running round. *)
Lemma running_work n h r :
  running n h r → (N.of_nat (length (contributor_ids r)) + 1 < u64_modulus)%N →
  board_room (length (contributor_ids r)) (board r) →
  (round_is_complete r = true ↔ board_work (length (contributor_ids r)) (board r) = 0) ∧
  (round_is_complete r = false → ∃ b, productive_step (contributor_ids r) (board r) b).
Proof.
  intros Hr Hb Hroom. pose proof (complete_board _ _ _ Hr Hb) as Hdone.
  rewrite <-(no_work_left _ _ Hroom) in Hdone. split; [done|]. intros H.
  assert (board_work (length (contributor_ids r)) (board r) ≠ 0) as (i & x & Hx & Hcw)%some_work.
  { intros H0. apply Hdone in H0. congruence. }
  destruct (running_cell _ _ _ _ _ Hr Hx) as [Hnd Hwait]. eapply board_progress; try done. apply Hr.
Qed.

(** C5. Termination: take a round with [n] chunks and [m] contributors that
    starts afresh and keeps its contributors, and any sequence of calls in
    which [k] are successful locks, contributions and verifications, while the
    others, rollbacks, disposals and failing calls included, give up [l]
    locks. Then [k] is at most [3 * n * m + l]; the round is complete when [k]
    reaches that, and while it is not complete, the board offers a next event.
    With no other call in between, it is complete after exactly [3 * n * m]. *)
Theorem round_work_terminates n h r c k l c' :
  runs n h r c → board r = fresh_board n →
  (N.of_nat (length (contributor_ids r)) + 1 < u64_modulus)%N →
  work_run k l c c' →
  let total := 3 * n * length (contributor_ids r) in
  ∃ r', runs n h r' c' ∧ contributor_ids r' = contributor_ids r ∧ k ≤ total + l ∧
    (k = total + l → round_is_complete r' = true) ∧
    (round_is_complete r' = false → ∃ b, productive_step (contributor_ids r) (board r') b) ∧
    (nsteps productive_call k c c' → (round_is_complete r' = true ↔ k = total)).
Proof.
  intros Hr Hfresh Hb Hk total.
  assert (board_room (length (contributor_ids r)) (board r)) as Hroom by (rewrite Hfresh; apply fresh_board_room).
  destruct (work_run_bound _ _ _ _ _ _ _ Hr Hroom Hk) as (r' & Hr' & Hm & Hroom' & Hw).
  rewrite Hfresh, fresh_board_work in Hw. fold total in Hw.
  destruct (running_work n h r') as [Hdone Hnext]; [apply Hr'|by rewrite Hm..|]. rewrite Hm in Hdone, Hnext.
  exists r'. split_and!; [done|done|lia|intros ->; apply Hdone; lia|exact Hnext|].
  intros Hsteps. destruct (productive_calls_steps _ _ _ _ _ _ Hr Hsteps) as (r2 & Hr2 & _ & Hs).
  rewrite <-(runs_loaded _ _ _ _ Hr2), (runs_loaded _ _ _ _ Hr') in Hs.
  apply productive_steps_work in Hs as [Hexact _]; [|done]. rewrite Hfresh, fresh_board_work in Hexact.
  rewrite Hdone. subst total. lia.
Qed.
End progress.

(** ** Witness *)

#[local] Existing Instance trie_order.
#[local] Existing Instance time_api.
#[local] Existing Instance plain_serde.
#[local] Existing Instance toy_cryptography.
#[local] Existing Instance dummy_signature.

(** Alice takes her first chunk and gives it back. *)
Definition gave_back : Coordinator := (perform (CRollbackLock alice (MkTask 0 1)) 6 after_lock).2.

Lemma gave_back_run : work_run 1 1 sample_round gave_back.
Proof.
  assert (∃ ls, (try_lock alice 5 sample_round).1 = Ok (0%N, ls)) as [ls Hl] by (eexists; vm_compute; reflexivity).
  eapply work_productive; [exact (productive_lock _ _ alice 5%Z 0%N ls (pair_outcome _ _ Hl))|].
  assert (locks_given_up (board (loaded after_lock)) (board (loaded gave_back)) = 1) as Hone
    by (vm_compute; reflexivity).
  pose proof (work_other 0 0 after_lock gave_back gave_back) as Hrun. rewrite Hone in Hrun. apply Hrun.
  - exists (CRollbackLock alice (MkTask 0 1)), 6%Z. split; [exact I|]. unfold gave_back. exact eq_refl.
  - constructor.
Qed.

Lemma round_work_terminates_witness :
  ∃ r', runs 2 1 r' gave_back ∧ contributor_ids r' = [alice; bob] ∧ 1 ≤ 12 + 1 ∧
    (1 = 12 + 1 → round_is_complete r' = true) ∧
    (round_is_complete r' = false → ∃ b, productive_step [alice; bob] (board r') b) ∧
    (nsteps productive_call 1 sample_round gave_back → (round_is_complete r' = true ↔ 1 = 12)).
Proof.
  destruct sample_round_board as [Hids Hfresh]. rewrite <-Hids.
  assert (length (contributor_ids (loaded sample_round)) = 2) as Hlen by by rewrite Hids.
  pose proof (round_work_terminates 2 1 (loaded sample_round) sample_round 1 1 gave_back) as H.
  rewrite Hlen in H. apply H.
  - exact sample_round_runs.
  - exact Hfresh.
  - vm_compute. reflexivity.
  - exact gave_back_run.
Defined.
