(* ===== verification/HashChain.v ===== *)
(** * The hash chain

    What the coordinator has checked of the files when it accepts a
    contribution or a verification, and that it accepts exactly those. *)

From S2P Require Import Prelude Text Task Participant Errors Environment Phase1Parameters Contribution Locator Chunk Round Board ParticipantInfo RoundMetrics CoordinatorState Serde Storage RoundStorage Commands RoundTransition DropParticipant Frame Coordinator RoundStore Contributing Ceremony Sample Refinement.
From Stdlib Require Import Ascii Strings.Byte.

Section hash_chain.
Context `{HO : HashOrder, TA : TimeApi, SE : !Serde, CR : Cryptography, SG : Signature}.

(** The file of the signature says that [p] signed the two hashes. *)
Record signed_by (p : Participant) (l : ContributionSignatureLocator) (challenge response : bytes)
    (next : option bytes) (d : Disk) : Prop := {
  signed_file : ∃ data s, reader (LContributionFileSignature l) d = Ok data ∧
    signature_from_slice data = Some s ∧
    verify_signature (signing_address p) (contribution_state_json (cfs_state s)) (cfs_signature s) = true ∧
    hex_decode (challenge_hash (cfs_state s)) = Some (calculate_hash challenge) ∧
    hex_decode (response_hash (cfs_state s)) = Some (calculate_hash response) ∧
    match next, next_challenge_hash (cfs_state s) with
    | Some data, Some text => hex_decode text = Some (calculate_hash data)
    | None, None => True
    | _, _ => False
    end;
}.

(** [response] was computed from [challenge]: it starts with its hash. *)
Definition chained (challenge response : bytes) : Prop :=
  64 ≤ length response ∧ take 64 response = calculate_hash challenge.

Lemma check_hash_chain_ok lc lr d hs :
  check_hash_chain lc lr d = Ok hs ↔
  ∃ challenge response, reader lc d = Ok challenge ∧ reader lr d = Ok response ∧
    chained challenge response ∧ hs = (calculate_hash challenge, calculate_hash response).
Proof.
  unfold check_hash_chain, chained. rewrite bind_outcome_ok. split.
  - intros (ch & Hch & (re & Hre & H)%bind_outcome_ok). exists ch, re.
    destruct (Nat.ltb_spec (length re) 64); [done|].
    case_bool_decide; [|done]. injection H as <-. by split_and!.
  - intros (ch & re & Hch & Hre & [Hl Ht] & ->). exists ch. split; [done|].
    apply bind_outcome_ok. exists re. split; [done|].
    rewrite (proj2 (Nat.ltb_ge _ _)) by done. by rewrite bool_decide_eq_true_2.
Qed.

Lemma check_signed_hash_ok text hash u :
  check_signed_hash text hash = Ok u ↔ hex_decode text = Some hash.
Proof.
  unfold check_signed_hash. rewrite bind_outcome_ok. setoid_rewrite ok_or_ok. destruct u. split.
  - intros (x & -> & H). by case_bool_decide; subst.
  - intros ->. exists hash. split; [done|]. by rewrite bool_decide_eq_true_2.
Qed.

Lemma check_signature_ok l p e ch re d s :
  check_signature l p e ch re d = Ok s ↔
  ∃ data, reader (LContributionFileSignature l) d = Ok data ∧ signature_from_slice data = Some s ∧
    verify_signature (signing_address p) (contribution_state_json (cfs_state s)) (cfs_signature s) = true ∧
    hex_decode (challenge_hash (cfs_state s)) = Some ch ∧ hex_decode (response_hash (cfs_state s)) = Some re.
Proof.
  unfold check_signature. rewrite bind_outcome_ok. split.
  - intros (data & Hd & (s' & Hs%ok_or_ok & H)%bind_outcome_ok). exists data. destruct (verify_signature _ _ _) eqn:Hv; [|done].
    cbn [negb] in H. rewrite bind_outcome_ok in H. destruct H as ([] & H1%check_signed_hash_ok & H).
    rewrite bind_outcome_ok in H. destruct H as ([] & H2%check_signed_hash_ok & [= <-]). done.
  - intros (data & Hd & Hs & Hv & H1 & H2). exists data. split; [done|].
    apply bind_outcome_ok. exists s. split; [by apply ok_or_ok|].
    rewrite Hv. cbn [negb].
    apply (check_signed_hash_ok _ _ tt) in H1 as ->. by apply (check_signed_hash_ok _ _ tt) in H2 as ->.
Qed.

(** The files of an acceptable contribution. *)
Record acceptable (h chunk_id id current : N) (p : Participant) (d : Disk) : Prop := {
  acceptable_files : ∃ challenge response,
    reader (LContributionFile (MkContributionLocator h chunk_id current true)) d = Ok challenge ∧
    reader (LContributionFile (MkContributionLocator h chunk_id id false)) d = Ok response ∧
    chained challenge response ∧
    signed_by p (MkContributionSignatureLocator h chunk_id id false) challenge response None d;
}.

Lemma accept_contribution_ok h c id current p d u :
  accept_contribution h c id current p d = Ok u ↔ acceptable h c id current p d.
Proof.
  unfold accept_contribution. rewrite bind_outcome_ok. split.
  - intros (hs & (ch & re & Hch & Hre & Hc & ->)%check_hash_chain_ok & H).
    rewrite bind_outcome_ok in H. destruct H as (s & (data & Hd & Hs & Hv & H1 & H2)%check_signature_ok & H).
    destruct (next_challenge_hash (cfs_state s)) eqn:En; [done|].
    constructor. exists ch, re. split_and!; try done. constructor. exists data, s. by rewrite En.
  - intros [(ch & re & Hch & Hre & Hc & [(data & s & Hd & Hs & Hv & H1 & H2 & Hn)])].
    eexists. split; [by apply check_hash_chain_ok; eauto 10|]. cbn [fst snd].
    rewrite bind_outcome_ok. exists s. split; [apply check_signature_ok; eauto 10|].
    destruct u. by destruct (next_challenge_hash (cfs_state s)).
Qed.

(** The files of an acceptable verification of contribution [id]. *)
Record verifiable (h chunk_id id : N) (is_final : bool) (p : Participant) (d : Disk) : Prop := {
  verifiable_files : ∃ challenge response next,
    reader (LContributionFile (MkContributionLocator h chunk_id (u64_sub id 1) true)) d = Ok challenge ∧
    reader (LContributionFile (MkContributionLocator h chunk_id id false)) d = Ok response ∧
    reader (LContributionFile (challenge_after h chunk_id id is_final)) d = Ok next ∧
    chained challenge response ∧ next ≠ [] ∧ take 64 next = calculate_hash response ∧
    signed_by p (signature_after h chunk_id id is_final) challenge response (Some next) d;
}.

Lemma accept_verification_ok h c id is_final p d u :
  accept_verification h c id is_final p d = Ok u ↔ verifiable h c id is_final p d.
Proof.
  unfold accept_verification, first_chunk. rewrite bind_outcome_ok. split.
  - intros (hs & (ch & re & Hch & Hre & Hc & ->)%check_hash_chain_ok & H). cbn [fst snd] in H.
    rewrite bind_outcome_ok in H. destruct H as (nx & Hnx & H).
    destruct (is_nil nx) eqn:Hnil; [done|]. apply is_nil_false in Hnil. cbn [bind_outcome] in H.
    case_bool_decide as Hsaved; [|done]. cbn [negb] in H.
    rewrite bind_outcome_ok in H. destruct H as (s & (data & Hd & Hs & Hv & H1 & H2)%check_signature_ok & H).
    rewrite bind_outcome_ok in H. destruct H as (text & En%ok_or_ok & Hn%check_signed_hash_ok).
    constructor. exists ch, re, nx. split_and!; try done. constructor. exists data, s. by rewrite En.
  - intros [(ch & re & nx & Hch & Hre & Hnx & Hc & Hnil & Hsaved & [(data & s & Hd & Hs & Hv & H1 & H2 & Hn)])].
    eexists. split; [by apply check_hash_chain_ok; eauto 10|]. cbn [fst snd].
    rewrite Hnx. cbn [bind_outcome]. apply is_nil_false in Hnil as ->. cbn [bind_outcome].
    rewrite bool_decide_eq_true_2 by done. cbn [negb].
    rewrite bind_outcome_ok. exists s. split; [apply check_signature_ok; eauto 10|].
    destruct (next_challenge_hash (cfs_state s)) as [text|]; [|done]. cbn [ok_or bind_outcome].
    by apply check_signed_hash_ok.
Qed.

(** ** What the coordinator accepts *)

(** [p] may add contribution [id] to the chunk. *)
Record may_contribute (r : Round) (chunk_id : N) (p : Participant) (ck : Chunk) (id : N) : Prop := {
  contribute_chunk : round_chunk r chunk_id = Ok ck;
  contribute_lock : lock_holder ck = Some p;
  contribute_member : p ∈ contributor_ids r;
  contribute_next : next_contribution_id ck (expected_number_of_contributions r) = Ok id;
}.

Lemma is_next_of_next ck expected id :
  next_contribution_id ck expected = Ok id → is_next_contribution_id ck id expected = true.
Proof.
  unfold next_contribution_id, is_next_contribution_id, is_complete.
  intros (k & _ & H)%bind_outcome_ok. destruct (verified k); [|done]. cbn [negb] in H.
  destruct (only_contributions_complete ck expected); [done|]. injection H as <-.
  rewrite N.eqb_refl. by destruct (is_locked ck).
Qed.

Lemma add_contribution_accepts n h r c chunk_id p ck id :
  runs n h r c → may_contribute r chunk_id p ck id →
  acceptable h chunk_id id (current_contribution_id ck) p (storage c) →
  is_ok (add_contribution chunk_id p c).1 = true.
Proof.
  intros Hr [Hck Hl Hp Hid] Hacc. unfold add_contribution.
  rewrite (bind_loading_height n h r), (bind_loading_current n h r) by done.
  assert (is_contributor p = true) as Hcon by (eapply running_contributor; [apply Hr | done]).
  unfold check at 1. rewrite (proj2 (round_is_contributor_true r p)) by done. cbn [negb].
  unfold check at 1. rewrite (proj2 (is_chunk_locked_by_true r chunk_id p)) by eauto. cbn [negb].
  unfold bind at 1, lift at 1. rewrite Hck. unfold bind at 1, lift at 1. rewrite Hid.
  unfold check at 1. rewrite (is_next_of_next _ _ _ Hid). cbn [negb].
  unfold bind at 1, loading at 1. rewrite (proj2 (accept_contribution_ok _ _ _ _ _ _ tt) Hacc).
  rewrite bind_gets. set (loc := to_path _ (LContributionFile _)). set (sig := to_path _ _).
  assert (Chunk.add_contribution id p loc sig ck = (Ok tt, MkChunk (ck_chunk_id ck) None
    (<[id := MkContribution (Some p) (Some loc) (Some sig) None None None false]> (contributions ck)))) as Ha.
  { unfold Chunk.add_contribution, check, is_locked_by, is_unlocked, is_locked, bind, lift, new_contributor_contribution.
    rewrite Hcon, Hl. simpl. by rewrite bool_decide_eq_true_2. }
  rewrite (with_chunk_ok _ _ _ _ Hck), Ha. cbn [fst snd].
  destruct (running_contribute n h r chunk_id ck _ id p loc sig (proj1 Hr) Hck Hid Ha) as [Hrun _].
  destruct (runs_store _ _ _ _ _ Hr Hrun) as (d & Hd%store_round_update & _).
  unfold bind, lift. fold (set_chunk chunk_id (MkChunk (ck_chunk_id ck) None
    (<[id := MkContribution (Some p) (Some loc) (Some sig) None None None false]> (contributions ck))) r).
  by rewrite Hd.
Qed.

(** C3. A contribution is accepted exactly when a member holds the lock, the
    chunk is missing a contribution, the response in the storage starts with
    the hash of the current challenge, and its signature is the member's and
    signs the hashes of both; the accepted contribution is recorded with the
    paths of its files, and the lock is free again. *)
Theorem accepted_contribution_is_chained n h r c chunk_id p :
  runs n h r c →
  (is_ok (add_contribution chunk_id p c).1 = true ↔ ∃ ck id, may_contribute r chunk_id p ck id ∧
     acceptable h chunk_id id (current_contribution_id ck) p (storage c)) ∧
  (∀ l id c', add_contribution chunk_id p c = (Ok (l, id), c') →
     l = MkContributionLocator h chunk_id id false ∧ state c' = state c ∧
     ∃ ck r', round_chunk r chunk_id = Ok ck ∧ runs n h r' c' ∧
       round_chunk r' chunk_id = Ok (MkChunk (ck_chunk_id ck) None
         (<[id := MkContribution (Some p) (Some (response_path c h chunk_id id))
                    (Some (response_signature_path c h chunk_id id)) None None None false]> (contributions ck)))).
Proof.
  intros Hr. split; [split|].
  - destruct (add_contribution chunk_id p c) as [[[l id]|e|] c'] eqn:E; [|done..]. intros _.
    destruct (add_contribution_ok _ _ _ _ _ _ _ _ _ Hr E)
      as (ck & ck' & d & Hck & Hp & Hid & _ & Hacc%accept_contribution_ok & Ha & _).
    apply add_contribution_inv in Ha as (Hl & _). by exists ck, id.
  - intros (ck & id & Hmay & Hacc). by eapply add_contribution_accepts.
  - intros l id c' E. destruct (add_contribution_ok _ _ _ _ _ _ _ _ _ Hr E)
      as (ck & ck' & d & Hck & Hp & Hid & -> & _ & Ha & -> & Hr').
    apply add_contribution_inv in Ha as (_ & _ & ->). split; [done|]. split; [done|].
    eexists ck, _. split; [done|]. split; [exact Hr'|].
    apply (round_chunk_lookup n); [apply Hr'|]. simpl. apply list_lookup_insert_eq.
    apply (round_chunk_lookup n) in Hck; [|apply Hr]. by eapply lookup_lt_Some.
Qed.

(** ** What it records of a verification *)

(** The last contribution of the chunk of [t] waits for a verifier. *)
Record may_verify (r : Round) (t : Task) (ck : Chunk) (k : Contribution) : Prop := {
  verify_chunk : round_chunk r (chunk_id t) = Ok ck;
  verify_last : current_contribution_id ck = contribution_id t;
  verify_contribution_at : contributions ck !! contribution_id t = Some k;
  verify_unverified : verified k = false;
}.

(** Is the verification of the last contribution of the round, whose challenge
    belongs to the next one? *)
Definition is_final (r : Round) (ck : Chunk) : bool :=
  only_contributions_complete ck (expected_number_of_contributions r).

Lemma verify_contribution_accepts n h r c t v now ck k :
  runs n h r c → readable v → is_verifier v = true → may_verify r t ck k →
  verifiable h (chunk_id t) (contribution_id t) (is_final r ck) v (storage c) →
  is_ok (verify_contribution t v now c).1 = true.
Proof.
  intros Hr Hread Hv [Hck Hid Hk Hver] Hacc. unfold verify_contribution.
  unfold check at 1. rewrite Hv. cbn [negb].
  rewrite (bind_loading_height n h r), (bind_loading_current n h r) by done.
  unfold bind at 1, lift at 1. rewrite Hck. unfold check at 1. rewrite Hid, N.eqb_refl. cbn [negb].
  unfold bind at 1, loading at 1. fold (is_final r ck).
  rewrite (proj2 (accept_verification_ok _ _ _ _ _ _ tt) Hacc). rewrite bind_gets.
  set (loc := to_path _ (LContributionFile _)). set (sig := to_path _ _).
  destruct (running_chunk_wf n h r _ ck (proj1 Hr) Hck) as (m & Hm & _).
  destruct (verify_contribution_succeeds v loc sig ck (contribution_id t) k) as [ck' Hck'];
    [done|by eapply transcript_entries|done..|].
  assert (Chunk.verify_contribution (current_contribution_id ck) v loc sig ck = (Ok tt, ck')) as Hc by by rewrite Hid.
  destruct (running_verify n h r _ ck ck' v loc sig (proj1 Hr) Hread Hck Hc) as [Hrun _].
  apply (running_try_finish _ _ now) in Hrun.
  destruct (runs_store _ _ _ _ _ Hr Hrun) as (d & Hd%store_round_update & _).
  unfold round_verify_contribution, bind at 1. rewrite (with_chunk_ok _ _ _ _ Hck), Hck'. cbn [fst snd modify].
  unfold bind, lift. fold (set_chunk (chunk_id t) ck' r). by rewrite Hd.
Qed.

(** C4. A verification is recorded exactly when the contribution is the last
    of its chunk and unverified, the chain of challenge, response and next
    challenge holds together in the storage, and the verifier's signature
    signs the hashes of all three. *)
Theorem accepted_verification_is_chained n h r c t v now :
  runs n h r c → readable v →
  (is_ok (verify_contribution t v now c).1 = true ↔ is_verifier v = true ∧
     ∃ ck k, may_verify r t ck k ∧
       verifiable h (chunk_id t) (contribution_id t) (is_final r ck) v (storage c)) ∧
  (∀ id c', verify_contribution t v now c = (Ok id, c') →
     id = contribution_id t ∧ state c' = state c ∧
     ∃ ck k r', round_chunk r (chunk_id t) = Ok ck ∧ contributions ck !! id = Some k ∧ runs n h r' c' ∧
       round_chunk r' (chunk_id t) = Ok (MkChunk (ck_chunk_id ck) None
         (<[id := MkContribution (contributor_id k) (contributed_locator k) (contributed_signature_locator k)
                    (Some v) (Some (challenge_path c h (chunk_id t) id (is_final r ck)))
                    (Some (challenge_signature_path c h (chunk_id t) id (is_final r ck))) true]>
            (contributions ck)))).
Proof.
  intros Hr Hread. split; [split|].
  - destruct (verify_contribution t v now c) as [[id|e|] c'] eqn:E; [|done..]. intros _.
    destruct (verify_contribution_ok _ _ _ _ _ _ _ _ _ Hr Hread E)
      as (ck & ck' & d & Hck & Hv & -> & Hid & Hacc%accept_verification_ok & Ha & _).
    apply verify_contribution_inv in Ha as (_ & k & Hk & Hver & _). split; [done|]. by exists ck, k.
  - intros (Hv & ck & k & Hmay & Hacc). by eapply verify_contribution_accepts.
  - intros id c' E. destruct (verify_contribution_ok _ _ _ _ _ _ _ _ _ Hr Hread E)
      as (ck & ck' & d & Hck & Hv & -> & Hid & _ & Ha & -> & Hr').
    apply verify_contribution_inv in Ha as (_ & k & Hk & Hver & _ & ->). split; [done|]. split; [done|].
    eexists ck, k, _. split; [done|]. split; [done|]. split; [exact Hr'|].
    apply (round_chunk_lookup n); [apply Hr'|]. simpl. rewrite (proj1 (try_finish_frame _ _)).
    apply list_lookup_insert_eq. apply (round_chunk_lookup n) in Hck; [|apply Hr]. by eapply lookup_lt_Some.
Qed.
End hash_chain.

(** ** Witnesses *)

#[local] Existing Instance trie_order.
#[local] Existing Instance time_api.
#[local] Existing Instance plain_serde.
#[local] Existing Instance toy_cryptography.
#[local] Existing Instance dummy_signature.

(** The first chunk, with the response of its lock holder computed. *)
Definition computed_calls : list (Call * Z) :=
  [(CTryLock alice, 5%Z); (CRunComputation 1 0 1 alice "key" (seed_of x02), 5%Z)].
Definition computed : Coordinator := perform_all computed_calls sample_round.

(** Its contribution accepted, and the verifier's files written. *)
Definition checked_calls : list (Call * Z) :=
  [(CTryContribute alice 0, 6%Z); (CRunVerification 1 (MkTask 0 1) verifier "key", 6%Z)].
Definition checked : Coordinator := perform_all checked_calls computed.

Lemma computed_runs : runs 2 1 (loaded computed) computed.
Proof. exact (perform_all_runs 2 1 _ computed_calls _ sample_round_runs ltac:(by repeat constructor)). Qed.
Lemma checked_runs : runs 2 1 (loaded checked) checked.
Proof. exact (perform_all_runs 2 1 _ checked_calls _ computed_runs ltac:(by repeat constructor)). Qed.

Lemma accepted_contribution_is_chained_witness :
  ∃ ck id, may_contribute (loaded computed) 0 alice ck id ∧
    acceptable 1 0 id (current_contribution_id ck) alice (storage computed).
Proof.
  apply (accepted_contribution_is_chained 2 1 (loaded computed) computed 0 alice computed_runs).
  vm_compute. reflexivity.
Defined.

Lemma accepted_verification_is_chained_witness :
  is_verifier verifier = true ∧ ∃ ck k, may_verify (loaded checked) (MkTask 0 1) ck k ∧
    verifiable 1 0 1 (is_final (loaded checked) ck) verifier (storage checked).
Proof.
  apply (accepted_verification_is_chained 2 1 (loaded checked) checked (MkTask 0 1) verifier 7 checked_runs eq_refl).
  vm_compute. reflexivity.
Defined.
