(* ===== verification/Recovery.v ===== *)
(** * Taking work back

    What becomes of a chunk when the coordinator takes back the lock of a
    contributor ([rollback_locked_task]) or its contributions (dropping it in
    favour of a replacement).  Both leave the files of the chunk in a state
    the later calls do not expect. *)

From S2P Require Import Prelude Text Task Participant Errors Environment Phase1Parameters Contribution Locator Chunk Round Board ParticipantInfo RoundMetrics CoordinatorState Serde Storage RoundStorage Commands RoundTransition DropParticipant Frame Coordinator RoundStore Contributing Ceremony Sample Refinement HashChain.
From Stdlib Require Import Strings.Byte.

Section recovery.
Context `{HO : HashOrder, TA : TimeApi, SE : !Serde, CR : Cryptography, SG : Signature}.

(** ** Removing a lock *)

Lemma remove_if_exists_ok l d u d' :
  remove_if_exists l d = (Ok u, d') → stored d' l = None ∧ untouched (other_than l) d d'.
Proof.
  unfold remove_if_exists. destruct (disk_exists d l) eqn:He.
  - intros (_ & _ & ->)%remove_ok. split.
    + rewrite stored_delete. by rewrite decide_True.
    + apply untouched_delete. unfold other_than. by rewrite bool_decide_eq_true_2.
  - intros [= _ <-]. split; [by apply is_some_false|]. reflexivity.
Qed.

(** The challenge the next contribution to the chunk starts from. *)
Definition current_challenge (h chunk_id : N) (ck : Chunk) : Locator :=
  LContributionFile (MkContributionLocator h chunk_id (current_contribution_id ck) true).

(** The pending files of a chunk include its current challenge, unless that is
    the initial one. *)
Lemma remove_pending_files_challenge n h r c ck k d u d' :
  running n h r → round_chunk r c = Ok ck →
  current_contribution ck = Ok k → verified k = true → is_some (contributor_id k) = true →
  remove_pending_files c ck r d = (Ok u, d') → stored d' (current_challenge h c ck) = None.
Proof.
  intros Hr Hck Hk Hv Hid H. unfold remove_pending_files in H. ok_inv H.
  rewrite Hk in Hlift0. injection Hlift0 as <-. rewrite Hv in H.
  assert (only_contributions_complete ck (expected_number_of_contributions r) = false) as Hopen.
  { unfold next_contribution_id in Hlift. rewrite Hk in Hlift. cbn [bind_outcome] in Hlift.
    rewrite Hv in Hlift. cbn [negb] in Hlift. by destruct (only_contributions_complete _ _). }
  unfold next_challenge in H. rewrite Hopen, Hid in H. apply remove_if_exists_ok in H as [H _].
  by rewrite (running_height _ _ _ Hr) in H.
Qed.

(** The last contribution under a lock is verified, and its author is a
    contributor when it is not the initial one. *)
Lemma locked_current n h r c ck p :
  running n h r → round_chunk r c = Ok ck → lock_holder ck = Some p → (0 < current_contribution_id ck)%N →
  ∃ k, current_contribution ck = Ok k ∧ verified k = true ∧ is_some (contributor_id k) = true.
Proof.
  intros Hr Hck Hp Hpos. destruct (running_chunk_wf _ _ _ _ _ Hr Hck) as (m & Hm & Hle & Hl).
  rewrite (transcript_current_id ck m _ Hm Hle (expected_range r)) in Hpos.
  destruct (transcript_lookup _ m (m - 1) Hm) as [k Hk]; [lia|]. exists k.
  assert (is_contributor p = true) as Hcon by (by eapply running_contributor, running_holder).
  split_and!.
  - by eapply (current_contribution_wf _ (expected_range r)).
  - by eapply Hl.
  - destruct (contributor_id k) eqn:E; [done|]. apply (transcript_entries _ _ Hm _ _ Hk) in E. lia.
Qed.

Lemma remove_locks_challenge n h r d p c ck u rd' :
  running n h r → round_chunk r c = Ok ck → lock_holder ck = Some p → (0 < current_contribution_id ck)%N →
  remove_locks_unsafe p [c] (r, d) = (Ok u, rd') →
  rd'.1 = set_chunk c (set_lock_holder_unsafe None ck) r ∧ stored rd'.2 (current_challenge h c ck) = None.
Proof.
  intros Hr Hck Hp Hpos. destruct (locked_current _ _ _ _ _ _ Hr Hck Hp Hpos) as (k & Hk & Hv & Hid).
  unfold remove_locks_unsafe. rewrite bind_gets, filter_cons, filter_nil. cbn [fst].
  destruct (decide _) as [_|Hn]; [|destruct Hn; apply is_chunk_locked_by_true; eauto]. cbn [for_each].
  intros H. apply bind_ok in H as ([] & rd1 & H & H'). cbv [ret] in H'. injection H' as _ <-.
  unfold remove_lock in H. ok_inv H. cbn [fst] in Hlift. rewrite Hck in Hlift. injection Hlift as <-.
  apply on_disk_ok in Hstep as (d1 & Hd1 & ->). apply on_round_ok in H as (r1 & Hr1 & ->).
  apply with_chunk_inv in Hr1 as (ck2 & ck' & Hck2 & [= <-] & ->). cbn [fst snd] in *.
  rewrite Hck in Hck2. injection Hck2 as <-. split; [done|].
  by eapply remove_pending_files_challenge.
Qed.

(** Without its current challenge a chunk accepts no contribution. *)
Lemma no_challenge_no_contribution n h r c chunk_id q ck :
  runs n h r c → round_chunk r chunk_id = Ok ck →
  stored (storage c) (current_challenge h chunk_id ck) = None →
  is_ok (add_contribution chunk_id q c).1 = false.
Proof.
  intros Hr Hck Hnone. destruct (add_contribution chunk_id q c) as [[[l id]|e|] c'] eqn:E; [|done..].
  destruct (add_contribution_ok _ _ _ _ _ _ _ _ _ Hr E)
    as (ck' & _ & _ & Hck' & _ & _ & _ & [(ch & re & Hch & _)]%accept_contribution_ok & _).
  rewrite Hck in Hck'. injection Hck' as <-. unfold reader in Hch.
  unfold stored, current_challenge in Hnone. by rewrite Hnone in Hch.
Qed.

(** The steps of a successful rollback. *)
Lemma rollback_locked_task_ok n h r c p t now u c' :
  runs n h r c → rollback_locked_task p t now c = (Ok u, c') →
  ∃ c1 r' d, untouched round_record (storage c) (storage c1) ∧
    remove_locks_unsafe p [chunk_id t] (r, storage c1) = (Ok tt, (r', d)) ∧
    on_storage (process (Update (LRoundState h) (ORoundState r'))) (set_storage d c1) = (Ok u, c').
Proof.
  intros Hr H. unfold rollback_locked_task in H.
  apply bind_ok in H as ([] & c0 & (s0 & _ & ->)%on_state_ok & H).
  apply bind_ok in H as ([] & c1 & [_ Hu]%save_state_ok & H).
  change (storage (set_state s0 c)) with (storage c) in Hu.
  pose proof (runs_untouched _ _ _ _ _ Hu Hr) as Hr1. rewrite (bind_loading_current n h r) in H by done.
  apply bind_ok in H as ([[] r'] & c2 & Hw & H). unfold with_round_and_disk in Hw.
  destruct (remove_locks_unsafe _ _ _) as [[[]|e|] [r1 d]] eqn:E; [|done..]. injection Hw as <- <-.
  exists c1, r1, d. split_and!; [done..|].
  apply remove_locks_one in E as [Hk _]. cbn [snd] in Hk.
  pose proof (runs_untouched _ _ _ c1 (set_storage d c1) Hk Hr1) as Hr2.
  apply bind_pure_ok in H as (h' & Hh & H). unfold stored_round_height in Hh.
  rewrite (held_height _ _ _ (proj2 Hr2)) in Hh. cbn [bind_outcome] in Hh.
  destruct (disk_exists _ _); [|done]. by injection Hh as <-.
Qed.

Lemma process_update_ok l o c u c' :
  on_storage (process (Update l o)) c = (Ok u, c') → untouched (other_than l) (storage c) (storage c').
Proof.
  intros (d & H & ->)%zoom_ok. unfold process in H.
  destruct (update l o (storage c)) as [[]] eqn:E; [|done..].
  injection H as <- <-. apply update_ok in E as (_ & _ & ->). apply untouched_other.
Qed.

(** C32. Rolling back the lock of a chunk that has a contribution deletes the
    verified challenge the next contribution must start from: the transcript
    is unchanged and the lock is free, but as long as nobody restores the
    file, no contribution to the chunk is accepted from anybody. *)
Theorem rollback_deletes_the_challenge n h r c p t now ck c' :
  runs n h r c → round_chunk r (chunk_id t) = Ok ck → lock_holder ck = Some p →
  (0 < current_contribution_id ck)%N →
  rollback_locked_task p t now c = (Ok tt, c') →
  stored (storage c') (current_challenge h (chunk_id t) ck) = None ∧
  (∃ r', runs n h r' c' ∧ round_chunk r' (chunk_id t) = Ok (set_lock_holder_unsafe None ck)) ∧
  ∀ q r2 c2 ck2, runs n h r2 c2 → round_chunk r2 (chunk_id t) = Ok ck2 →
    contributions ck2 = contributions ck → stored (storage c2) (current_challenge h (chunk_id t) ck) = None →
    is_ok (add_contribution (chunk_id t) q c2).1 = false.
Proof.
  intros Hr Hck Hp Hpos (c1 & r' & d & Hu & Hl & Hst)%(rollback_locked_task_ok n h r); [|done].
  pose proof (remove_locks_one _ _ _ _ _ _ Hl) as [Hk _]. cbn [snd] in Hk.
  destruct (remove_locks_challenge _ _ _ _ _ _ _ _ _ (proj1 Hr) Hck Hp Hpos Hl) as [Hr' Hnone].
  cbn [fst snd] in *. subst r'. split; [|split].
  - by rewrite (untouched_stored _ _ _ (process_update_ok _ _ _ _ _ Hst)).
  - assert (runs n h r (set_storage d c1)) as Hr2.
    { eapply runs_untouched; [|exact Hr]. by etrans. }
    destruct (running_release n h r (chunk_id t) ck (proj1 Hr) Hck) as [Hrun _].
    destruct (runs_store _ _ _ _ _ Hr2 Hrun) as (d3 & Hd3%process_update & Hr3).
    rewrite Hd3 in Hst. injection Hst as <-. eexists. split; [exact Hr3|].
    apply (round_chunk_lookup n); [apply Hr3|]. apply list_lookup_insert_eq.
    apply (round_chunk_lookup n) in Hck; [|apply Hr]. by eapply lookup_lt_Some.
  - intros q r2 c2 ck2 Hr2 Hck2 Hsame Hn. eapply no_challenge_no_contribution; [done..|].
    unfold current_challenge, current_contribution_id, contributions_len in *. by rewrite Hsame.
Qed.
End recovery.

(** ** Witness *)

#[local] Existing Instance trie_order.
#[local] Existing Instance time_api.
#[local] Existing Instance plain_serde.
#[local] Existing Instance toy_cryptography.
#[local] Existing Instance dummy_signature.

(** Alice holds the second chunk, which Bob has contributed to. *)
Definition second_locked_calls : list (Call * Z) :=
  [(CContribute alice "key" (seed_of x02), 5%Z); (CVerify verifier "key" (MkTask 0 1), 5%Z);
   (CContribute bob "key" (seed_of x04), 6%Z); (CVerify verifier "key" (MkTask 1 1), 6%Z);
   (CTryLock alice, 7%Z)].
Definition second_locked : Coordinator := perform_all second_locked_calls sample_round.
Definition second_chunk : Chunk :=
  match round_chunk (loaded second_locked) 1 with Ok ck => ck | _ => chunk_v end.
Definition rolled_back_lock : Coordinator := (rollback_locked_task alice (MkTask 1 2) 8 second_locked).2.

Lemma second_locked_runs : runs 2 1 (loaded second_locked) second_locked.
Proof. exact (perform_all_runs 2 1 _ second_locked_calls _ sample_round_runs ltac:(by repeat constructor)). Qed.

Lemma rollback_deletes_the_challenge_witness :
  is_some (stored (storage second_locked) (current_challenge 1 1 second_chunk)) = true ∧
  stored (storage rolled_back_lock) (current_challenge 1 1 second_chunk) = None.
Proof.
  split; [vm_compute; reflexivity|].
  assert ((rollback_locked_task alice (MkTask 1 2) 8 second_locked).1 = Ok tt) as H by (vm_compute; reflexivity).
  unfold rolled_back_lock.
  apply (rollback_deletes_the_challenge 2 1 (loaded second_locked) second_locked alice (MkTask 1 2) 8 second_chunk
    _ second_locked_runs ltac:(vm_compute; reflexivity) ltac:(vm_compute; reflexivity)
    ltac:(vm_compute; reflexivity) (pair_outcome _ _ H)).
Defined.

(** Alice locks the chunk again, but cannot contribute to it any more. *)
Example the_lock_is_useless :
  let c := perform_all [(CTryLock alice, 9%Z)] rolled_back_lock in
  is_chunk_locked_by (loaded c) 1 alice = true ∧
  (run_computation 1 1 2 alice "key" (seed_of x04) c).1 = Err Error ∧
  (add_contribution 1 alice c).1 = Err StorageLocatorMissing.
Proof. split_and!; vm_compute; reflexivity. Qed.
