(* ===== verification/Removal.v ===== *)
(** * Removing a contributor from the round in the storage

    What dropping a participant does to the stored round
    ([drop_participant_from_storage] of [phase1-coordinator/src/coordinator.rs]
    on top of [remove_contributor_unsafe] and [reset] of [objects/round.rs]):
    the round stays a round that can be worked on, unless the replacement is a
    member already. *)

From S2P Require Import Prelude Text Task Participant Errors Environment Phase1Parameters Contribution Locator Chunk Round Board ParticipantInfo RoundMetrics CoordinatorState Serde Storage RoundStorage Commands RoundTransition DropParticipant Frame Coordinator RoundStore Contributing Ceremony Sample Refinement HashChain Recovery.
From Stdlib Require Import Strings.Byte.

(** ** The files of a contribution *)

Definition response (h chunk_id id : N) : Locator :=
  LContributionFile (MkContributionLocator h chunk_id id false).

(** The files the coordinator records for contribution [id]. *)
Definition own_locators (h chunk_id id : N) : list Locator :=
  [ response h chunk_id id;
    LContributionFileSignature (MkContributionSignatureLocator h chunk_id id false);
    LContributionFile (challenge_after h chunk_id id false);
    LContributionFileSignature (signature_after h chunk_id id false);
    LContributionFile (challenge_after h chunk_id id true);
    LContributionFileSignature (signature_after h chunk_id id true) ].

Definition locations (k : Contribution) : list LocatorPath :=
  option_list (contributed_locator k) ++ option_list (contributed_signature_locator k) ++
  option_list (verified_locator k) ++ option_list (verified_signature_locator k).

Definition recorded_at (b : string) (h chunk_id id : N) (k : Contribution) : Prop :=
  Forall (λ path, path ∈ to_path b <$> own_locators h chunk_id id) (locations k).

(** Every contribution of the round is recorded with its own files. *)
Definition recorded (b : string) (r : Round) : Prop :=
  Forall (λ ck, map_Forall (recorded_at b (rd_height r) (ck_chunk_id ck)) (contributions ck)) (chunks r).

Definition task_in_range (t : Task) : Prop :=
  (chunk_id t < u64_modulus)%N ∧ (0 < contribution_id t < u64_modulus)%N.

Lemma own_in_range h c i l :
  (h < u64_modulus)%N → (c < u64_modulus)%N → (i < u64_modulus)%N → l ∈ own_locators h c i → locator_in_range l.
Proof.
  intros Hh Hc Hi Hl. pose proof (u64_add_bound h 1). unfold own_locators in Hl.
  repeat (apply elem_of_cons in Hl as [->|Hl]; [cbv [response challenge_after signature_after locator_in_range]; simpl; lia|]).
  by apply elem_of_nil in Hl.
Qed.

Lemma own_not_round_record h c i l : l ∈ own_locators h c i → round_record l = false.
Proof.
  intros Hl. unfold own_locators in Hl.
  repeat (apply elem_of_cons in Hl as [->|Hl]; [done|]). by apply elem_of_nil in Hl.
Qed.

Lemma own_response h c i h' c' j : response h' c' j ∈ own_locators h c i → c' = c ∧ j = i.
Proof.
  unfold own_locators, response. intros Hl.
  repeat (apply elem_of_cons in Hl as [Hl|Hl]; [simplify_eq; done|]). by apply elem_of_nil in Hl.
Qed.

(** The locators that are not in the list. *)
Definition outside (ls : list Locator) : Locator → bool := λ l, negb (bool_decide (l ∈ ls)).

Lemma outside_true ls l : outside ls l = true ↔ l ∉ ls.
Proof. unfold outside. by rewrite negb_true_iff, bool_decide_eq_false. Qed.

Lemma untouched_weaken (P Q : Locator → bool) d d' :
  (∀ l, Q l = true → P l = true) → untouched P d d' → untouched Q d d'.
Proof. intros HPQ [Hb He Hs]. split; auto. Qed.

Section removal.
Context `{HO : HashOrder, TA : TimeApi, SE : !Serde, CR : Cryptography, SG : Signature}.

Lemma remove_location_outside ls o d :
  (∀ path, o = Some path → ∃ l, l ∈ ls ∧ locator_in_range l ∧ path = to_path (base d) l) →
  untouched (outside ls) d (remove_location o d).2.
Proof.
  intros Ho. destruct o as [path|]; [|simpl; reflexivity].
  destruct (Ho path eq_refl) as (l & Hl & Hrange & ->). unfold remove_location. rewrite bind_gets.
  rewrite resolve_path by done. unfold bind, lift. destruct (relative_base (base d)); [|simpl; reflexivity].
  apply (keeps_remove_if_exists (outside ls)). unfold outside. by rewrite bool_decide_eq_true_2.
Qed.

Lemma remove_contribution_files_outside h c i k d :
  recorded_at (base d) h c i k → (h < u64_modulus)%N → (c < u64_modulus)%N → (i < u64_modulus)%N →
  untouched (outside (own_locators h c i)) d (remove_contribution_files k d).2.
Proof.
  intros Hk Hh Hc Hi.
  assert (∀ path, path ∈ locations k → ∃ l, l ∈ own_locators h c i ∧ locator_in_range l ∧ path = to_path (base d) l) as Hloc.
  { intros path Hp. unfold recorded_at in Hk. rewrite Forall_forall in Hk. apply Hk, list_elem_of_fmap in Hp as (l & -> & Hl).
    exists l. split; [done|]. split; [by apply (own_in_range h c i)|done]. }
  assert (∀ o d', (∀ path, o = Some path → path ∈ locations k) →
    untouched (outside (own_locators h c i)) d d' →
    untouched (outside (own_locators h c i)) d (remove_location o d').2) as Hstep.
  { intros o d' Ho Hu. etrans; [exact Hu|]. apply remove_location_outside. intros path Hp.
    rewrite (untouched_base _ _ _ Hu). auto. }
  unfold remove_contribution_files, locations in *.
  repeat lazymatch goal with
  | |- untouched _ _ (bind (remove_location ?o) _ ?d').2 =>
      let H := fresh "Hu" in
      assert (untouched (outside (own_locators h c i)) d (remove_location o d').2) as H;
      [apply Hstep; [intros path ->; rewrite !elem_of_app, !elem_of_option_list; auto | first [reflexivity | done]]|];
      unfold bind at 1; destruct (remove_location o d') as [[?|?|] ?]; cbn [fst snd] in *; try done
  end.
  apply Hstep; [intros path ->; rewrite !elem_of_app, !elem_of_option_list; auto | done].
Qed.

(** ** Contributions *)

(** The round after [remove_contributions_from] for one task. *)
Definition cut_task (t : Task) (r : Round) : Round :=
  set_chunks (alter (remove_contributions_from (contribution_id t)) (N.to_nat (chunk_id t)) (chunks r)) r.

Lemma remove_nothing id ck : (contributions_len ck ≤ id)%N → remove_contributions_from id ck = ck.
Proof.
  intros Hle. unfold remove_contributions_from.
  assert (u64_range id (contributions_len ck) = []) as ->; [|done].
  apply elem_of_nil_inv. intros x Hx%elem_of_u64_range. lia.
Qed.

Lemma alter_set_chunk c ck (f : Chunk → Chunk) r :
  chunks r !! N.to_nat c = Some ck → set_chunks (alter f (N.to_nat c) (chunks r)) r = set_chunk c (f ck) r.
Proof.
  intros Hc. unfold set_chunk. f_equal. apply list_eq. intros i. rewrite list_lookup_alter. case_decide as Hi.
  - subst i. rewrite Hc, list_lookup_insert_eq; [done|]. by eapply lookup_lt_Some.
  - by rewrite list_lookup_insert_ne.
Qed.

Lemma set_chunk_same c ck r : chunks r !! N.to_nat c = Some ck → set_chunk c ck r = r.
Proof. intros Hc. unfold set_chunk. rewrite list_insert_id by done. by destruct r. Qed.

Lemma recorded_set_chunk b c ck ck' r :
  recorded b r → chunks r !! N.to_nat c = Some ck → ck_chunk_id ck' = ck_chunk_id ck →
  (∀ i k, contributions ck' !! i = Some k → contributions ck !! i = Some k) → recorded b (set_chunk c ck' r).
Proof.
  intros Hrec Hc Hid Hsub. unfold recorded in *. simpl. rewrite Forall_lookup in Hrec |- *.
  intros i x [(<- & <- & _)|[_ Hi]]%list_lookup_insert_Some; [|by eapply Hrec].
  intros j k Hk. rewrite Hid. eapply Hrec; [done|]. by apply Hsub.
Qed.

Lemma running_cut_task n h r t ck :
  running n h r → task_in_range t → round_chunk r (chunk_id t) = Ok ck →
  running n h (set_chunk (chunk_id t) (remove_contributions_from (contribution_id t) ck) r) ∧
  ∀ i k, contributions (remove_contributions_from (contribution_id t) ck) !! i = Some k → contributions ck !! i = Some k.
Proof.
  intros Hr [_ Ht] Hck. pose proof (remove_contributions_from_frame (contribution_id t) ck) as [Hl Hid].
  assert (∀ i k, contributions (remove_contributions_from (contribution_id t) ck) !! i = Some k →
    contributions ck !! i = Some k) as Hsub.
  { intros i k. rewrite remove_contributions_from_lookup. by case_decide. }
  split; [|done]. apply (running_set_chunk _ _ _ _ ck); try done.
  - eapply chunk_step_wf; [apply expected_range|by eapply running_chunk_wf|]. apply step_drop. lia.
  - intros q. rewrite !elem_of_chunk_participants, Hl.
    intros [?|(i & k & Hk & Hq)]; left; [by left|]. right. exists i, k. auto.
  - intros q Hq. rewrite Hl in Hq. by eapply running_holder.
Qed.

Lemma remove_task_ok n h r d t u r' d' :
  running n h r → recorded (base d) r → task_in_range t → remove_task t (r, d) = (Ok u, (r', d')) →
  r' = cut_task t r ∧ running n h r' ∧ recorded (base d) r' ∧
  untouched (outside (own_locators h (chunk_id t) (contribution_id t))) d d'.
Proof.
  intros Hr Hrec Ht H. unfold remove_task in H. ok_inv H. cbn [fst] in Hlift. rename x into ck.
  destruct (running_cut_task n h r t ck Hr Ht Hlift) as [Hrun Hsub].
  pose proof Hlift as Hc. apply (round_chunk_lookup n) in Hc; [|apply Hr].
  assert (recorded (base d) (set_chunk (chunk_id t) (remove_contributions_from (contribution_id t) ck) r)) as Hrec'.
  { eapply recorded_set_chunk; [done..| |done]. apply remove_contributions_from_frame. }
  unfold cut_task. rewrite (alter_set_chunk _ ck) by done.
  destruct (get_contribution ck (contribution_id t)) as [k|e|] eqn:Hk.
  - apply bind_ok in H as ([] & rd1 & (d1 & Hd1 & ->)%on_disk_ok & (r1 & Hr1 & [= -> ->])%on_round_ok).
    apply with_chunk_inv in Hr1 as (ck2 & ck' & Hck2 & [= Hck'] & ->). cbn [fst snd] in *.
    rewrite Hlift in Hck2. injection Hck2 as <-. subst ck'. split_and!; [done..|].
    pose proof (remove_contribution_files_outside h (chunk_id t) (contribution_id t) k d) as Hu.
    rewrite Hd1 in Hu. apply Hu.
    + unfold recorded in Hrec. rewrite Forall_lookup in Hrec. specialize (Hrec _ _ Hc).
      rewrite (running_height _ _ _ Hr) in Hrec. rewrite (round_chunk_ids _ _ (running_wf _ _ _ Hr) _ _ Hc) in Hrec.
      rewrite N2Nat.id in Hrec. apply Hrec. unfold get_contribution in Hk. by case_match; simplify_eq.
    + apply Hr.
    + apply Ht.
    + destruct Ht as [_ [_ Ht]]. exact Ht.
  - injection H as _ <- <-.
    assert (remove_contributions_from (contribution_id t) ck = ck) as Hsame.
    { apply remove_nothing. unfold get_contribution in Hk. case_match; [done|].
      destruct (running_chunk_wf _ _ _ _ _ Hr Hlift) as (m & Hm & _). rewrite (transcript_len _ _ Hm).
      destruct (decide (m ≤ contribution_id t)%N); [done|].
      destruct (transcript_lookup _ m (contribution_id t) Hm); [lia | congruence]. }
    rewrite Hsame in *. rewrite set_chunk_same in * by done. split_and!; [done..|reflexivity].
  - unfold get_contribution in Hk. by case_match.
Qed.

(** The cuts of a list of tasks, and the files they may touch. *)
Definition cut_tasks (ts : list Task) (r : Round) : Round := foldl (λ r t, cut_task t r) r ts.
Definition tasks_locators (h : N) (ts : list Task) : list Locator :=
  ts ≫= λ t, own_locators h (chunk_id t) (contribution_id t).

Lemma remove_tasks_ok n h r d ts u r' d' :
  running n h r → recorded (base d) r → Forall task_in_range ts →
  for_each remove_task ts (r, d) = (Ok u, (r', d')) →
  r' = cut_tasks ts r ∧ running n h r' ∧ untouched (outside (tasks_locators h ts)) d d'.
Proof.
  revert r d. induction ts as [|t ts IH]; intros r d Hr Hrec Hts H.
  - injection H as _ <- <-. split_and!; [done..|reflexivity].
  - apply Forall_cons in Hts as [Ht Hts]. apply bind_ok in H as ([] & [r1 d1] & H1 & H).
    destruct (remove_task_ok _ _ _ _ _ _ _ _ Hr Hrec Ht H1) as (-> & Hr1 & Hrec1 & Hu1).
    rewrite <-(untouched_base _ _ _ Hu1) in Hrec1.
    destruct (IH _ _ Hr1 Hrec1 Hts H) as (-> & Hr' & Hu). split_and!; [done..|].
    etrans; (eapply untouched_weaken; [|done]); intros l;
      rewrite !outside_true; unfold tasks_locators; cbn [mbind list_bind]; rewrite elem_of_app; tauto.
Qed.

Lemma cut_tasks_frame ts r :
  contributor_ids (cut_tasks ts r) = contributor_ids r ∧ verifier_ids (cut_tasks ts r) = verifier_ids r ∧
  rd_height (cut_tasks ts r) = rd_height r.
Proof. unfold cut_tasks. split_and!; by apply foldl_frame. Qed.

(** ** Locks *)

Definition release (c : N) (r : Round) : Round :=
  set_chunks (alter (set_lock_holder_unsafe None) (N.to_nat c) (chunks r)) r.
Definition release_locks (cs : list N) (r : Round) : Round := foldl (λ r c, release c r) r cs.

(** Every locator but those of the chunk. *)
Definition other_chunk (c : N) (l : Locator) : bool :=
  match l with
  | LContributionFile l => negb (cl_chunk_id l =? c)%N
  | LContributionFileSignature l => negb (csl_chunk_id l =? c)%N
  | _ => true
  end.
Definition other_chunks (cs : list N) (l : Locator) : bool := forallb (λ c, other_chunk c l) cs.

#[local] Hint Extern 1 (other_chunk _ _ = false) => (simpl; by rewrite N.eqb_refl) : keeps.

Lemma keeps_remove_pending_chunk c ck r : keeps id (other_chunk c) (remove_pending_files c ck r).
Proof. unfold remove_pending_files. keeps. Qed.

Lemma remove_lock_ok n h r d p c u r' d' :
  running n h r → remove_lock p c (r, d) = (Ok u, (r', d')) →
  r' = release c r ∧ running n h r' ∧ (∀ b, recorded b r → recorded b r') ∧ untouched (other_chunk c) d d'.
Proof.
  intros Hr H. unfold remove_lock in H. ok_inv H. cbn [fst] in *. rename x into ck.
  apply on_disk_ok in Hstep as (d1 & Hd1 & ->). apply on_round_ok in H as (r1 & Hr1 & [= -> ->]).
  apply with_chunk_inv in Hr1 as (ck2 & ck' & Hck2 & [= Hck'] & ->). cbn [fst snd] in *.
  rewrite Hlift in Hck2. injection Hck2 as <-. subst ck'.
  destruct (running_release n h r c ck Hr Hlift) as [Hrun _]. pose proof Hlift as Hc.
  apply (round_chunk_lookup n) in Hc; [|apply Hr]. unfold release. rewrite (alter_set_chunk _ ck) by done.
  split_and!; [done..| |].
  - intros b Hb. by eapply recorded_set_chunk.
  - pose proof (keeps_remove_pending_chunk c ck r d) as Hk. by rewrite Hd1 in Hk.
Qed.

Lemma remove_each_lock_ok n h r d p cs u r' d' :
  running n h r → for_each (remove_lock p) cs (r, d) = (Ok u, (r', d')) →
  r' = release_locks cs r ∧ running n h r' ∧ (∀ b, recorded b r → recorded b r') ∧ untouched (other_chunks cs) d d'.
Proof.
  revert r d. induction cs as [|c cs IH]; intros r d Hr H.
  - injection H as _ <- <-. split_and!; [done..|reflexivity].
  - apply bind_ok in H as ([] & [r1 d1] & H1 & H).
    destruct (remove_lock_ok _ _ _ _ _ _ _ _ _ Hr H1) as (-> & Hr1 & Hrec1 & Hu1).
    destruct (IH _ _ Hr1 H) as (-> & Hr' & Hrec' & Hu). split_and!; [done..|auto|].
    etrans; (eapply untouched_weaken; [|done]); intros l; unfold other_chunks; cbn [forallb];
      rewrite andb_true_iff; tauto.
Qed.

(** The chunks of the list that the participant holds. *)
Definition held_chunks (p : Participant) (r : Round) (cs : list N) : list N :=
  filter (λ c, is_chunk_locked_by r c p = true) cs.

Lemma remove_locks_ok n h r d p cs u r' d' :
  running n h r → remove_locks_unsafe p cs (r, d) = (Ok u, (r', d')) →
  r' = release_locks (held_chunks p r cs) r ∧ running n h r' ∧ (∀ b, recorded b r → recorded b r') ∧
  untouched (other_chunks (held_chunks p r cs)) d d'.
Proof.
  intros Hr H. unfold remove_locks_unsafe in H. rewrite bind_gets in H. by eapply remove_each_lock_ok.
Qed.

(** ** What is left of a chunk *)

Definition cut_chunk (c : N) (ts : list Task) (ck : Chunk) : Chunk :=
  foldl (λ ck t, if bool_decide (chunk_id t = c) then remove_contributions_from (contribution_id t) ck else ck) ck ts.
Definition release_chunk (c : N) (cs : list N) (ck : Chunk) : Chunk :=
  if bool_decide (c ∈ cs) then set_lock_holder_unsafe None ck else ck.

Lemma cut_tasks_lookup ts r i :
  chunks (cut_tasks ts r) !! i = cut_chunk (N.of_nat i) ts <$> chunks r !! i.
Proof.
  revert r. induction ts as [|t ts IH]; intros r; cbn [cut_tasks cut_chunk foldl].
  - symmetry. apply option_fmap_id.
  - fold (cut_tasks ts (cut_task t r)). rewrite IH. unfold cut_task. cbn [chunks set_chunks].
    rewrite list_lookup_alter. case_decide as Hi.
    + subst i. rewrite <-option_fmap_compose. apply option_fmap_ext. intros ck. simpl.
      by rewrite bool_decide_eq_true_2 by lia.
    + apply option_fmap_ext. intros ck. simpl. by rewrite bool_decide_eq_false_2 by lia.
Qed.

Lemma release_locks_lookup cs r i :
  chunks (release_locks cs r) !! i = release_chunk (N.of_nat i) cs <$> chunks r !! i.
Proof.
  revert r. induction cs as [|c cs IH]; intros r; cbn [release_locks foldl].
  - symmetry. apply option_fmap_id.
  - fold (release_locks cs (release c r)). rewrite IH. unfold release. cbn [chunks set_chunks].
    rewrite list_lookup_alter. unfold release_chunk. case_decide as Hi.
    + subst i. rewrite <-option_fmap_compose. apply option_fmap_ext. intros ck. simpl.
      rewrite (bool_decide_eq_true_2 (_ ∈ c :: cs)) by (rewrite N2Nat.id; constructor). by case_bool_decide.
    + apply option_fmap_ext. intros ck.
      assert (N.of_nat i ≠ c) by lia. do 2 case_bool_decide; set_solver.
Qed.

Lemma cut_chunk_frame c ts ck :
  lock_holder (cut_chunk c ts ck) = lock_holder ck ∧ ck_chunk_id (cut_chunk c ts ck) = ck_chunk_id ck.
Proof.
  unfold cut_chunk.
  split; apply foldl_frame; intros x t; case_bool_decide; try done; apply remove_contributions_from_frame.
Qed.

(** A contribution survives unless a task cuts at it or before it. *)
Lemma cut_chunk_lookup c ts ck i k :
  contributions (cut_chunk c ts ck) !! i = Some k → contributions ck !! i = Some k.
Proof.
  unfold cut_chunk. revert ck. induction ts as [|t ts IH]; intros ck; cbn [foldl]; [done|].
  intros H%IH. case_bool_decide; [|done]. rewrite remove_contributions_from_lookup in H. by case_decide.
Qed.

Lemma cut_chunk_other c ts ck : (∀ t, t ∈ ts → chunk_id t ≠ c) → cut_chunk c ts ck = ck.
Proof.
  induction ts as [|t ts IH]; intros Hts; [done|]. unfold cut_chunk. cbn [foldl].
  rewrite bool_decide_eq_false_2 by (apply Hts; constructor). apply IH. intros t' Ht. apply Hts. by constructor.
Qed.

Lemma release_chunk_contributions c cs ck : contributions (release_chunk c cs ck) = contributions ck.
Proof. unfold release_chunk. by case_bool_decide. Qed.

Lemma cut_chunk_gone expected c ts ck i j :
  (expected < u64_modulus)%N → chunk_wf expected ck → Forall task_in_range ts →
  MkTask c i ∈ ts → (i ≤ j)%N → contributions (cut_chunk c ts ck) !! j = None.
Proof.
  intros Hexp. revert ck. induction ts as [|t ts IH]; intros ck Hwf Hts Hin Hij; [by apply elem_of_nil in Hin|].
  apply Forall_cons in Hts as [Ht Hts].
  assert (chunk_wf expected (if bool_decide (chunk_id t = c) then remove_contributions_from (contribution_id t) ck else ck)) as Hwf'.
  { case_bool_decide; [|done]. eapply chunk_step_wf; [done..|]. apply step_drop. unfold task_in_range in Ht. lia. }
  apply elem_of_cons in Hin as [<-|Hin]; [|by apply IH].
  unfold cut_chunk. cbn [foldl]. rewrite bool_decide_eq_true_2 by done. cbn [contribution_id].
  destruct (contributions (foldl _ (remove_contributions_from i ck) ts) !! j) as [k|] eqn:E; [|done].
  apply (cut_chunk_lookup c ts) in E. rewrite remove_contributions_from_lookup in E.
  case_decide as Hc; [done|]. destruct Hwf as (m & Hm & _). rewrite (transcript_len _ _ Hm) in Hc.
  apply (transcript_lookup_lt _ _ _ _ Hm) in E. lia.
Qed.

(** ** Replacing a contributor *)

Lemma others_and_one (p : Participant) ps :
  NoDup ps → p ∈ ps → ps ≡ₚ p :: filter (λ q, q ≠ p) ps.
Proof.
  intros Hnd Hp. apply NoDup_Permutation; [done| |].
  - constructor; [rewrite list_elem_of_filter; tauto | by apply NoDup_filter].
  - intros q. rewrite elem_of_cons, list_elem_of_filter. destruct (decide (q = p)); naive_solver.
Qed.

(** The members of a running round may change when their number and the
    holders of the locks do not. *)
Lemma running_set_members n h r ps :
  running n h r → NoDup ps → Forall (λ p, is_contributor p = true) ps → Forall readable ps →
  length ps = length (contributor_ids r) →
  (∀ i c p, chunks r !! i = Some c → lock_holder c = Some p → p ∈ ps) →
  running n h (set_contributor_ids ps r).
Proof.
  intros [Hwf Hread Hh Hrange _] Hnd Hcon Hps Hlen Hhold. split; try done.
  - destruct Hwf as [? ? Hcs ? ?]. split; simpl; try done. intros i c Hc.
    unfold expected_number_of_contributions, round_number_of_contributors in *. simpl. rewrite Hlen. eauto.
  - rewrite round_readable_alt in Hread |- *. destruct Hread as (_ & ? & ?). split_and!; [|done..].
    by apply Forall_forall.
Qed.

(** What the coordinator's state hands over about a dropped contributor. *)
Record handed_over (b : string) (r : Round) (a : ReplaceContributorStorageAction) : Prop := {
  replaced_member : dropped_contributor a ∈ contributor_ids r;
  replacement_readable : readable (replacement_contributor a);
  replaced_locks : Forall (λ ck, lock_holder ck = Some (dropped_contributor a) →
    ck_chunk_id ck ∈ replaced_locked_chunks a) (chunks r);
  replaced_in_range : Forall task_in_range (replaced_tasks a);
  replaced_recorded : recorded b r;
}.

(** Nobody checks that the replacement is not a member already. *)
Record replaceable (b : string) (r : Round) (a : ReplaceContributorStorageAction) : Prop := {
  replaceable_handed :> handed_over b r a;
  replacement_new : replacement_contributor a ∉ contributor_ids r;
}.

(** The replacement is not a member beside the one it replaces. *)
Definition free_place (r : Round) (a : ReplaceContributorStorageAction) : Prop :=
  replacement_contributor a ∉ contributor_ids r ∨ replacement_contributor a = dropped_contributor a.

Definition replaced_members (r : Round) (a : ReplaceContributorStorageAction) : list Participant :=
  filter (λ q, q ≠ dropped_contributor a) (contributor_ids r) ++ [replacement_contributor a].
Definition released_chunks (r : Round) (a : ReplaceContributorStorageAction) : list N :=
  held_chunks (dropped_contributor a) r (replaced_locked_chunks a).
Definition replaced_chunk (r : Round) (a : ReplaceContributorStorageAction) (c : N) (ck : Chunk) : Chunk :=
  cut_chunk c (replaced_tasks a) (release_chunk c (released_chunks r a) ck).

(** The files a replacement leaves alone. *)
Definition spared (h : N) (r : Round) (a : ReplaceContributorStorageAction) (l : Locator) : bool :=
  outside (LRoundState h :: tasks_locators h (replaced_tasks a)) l && other_chunks (released_chunks r a) l.

Lemma no_lock_left n h r a b i ck :
  running n h r → handed_over b r a → chunks r !! i = Some ck →
  lock_holder (replaced_chunk r a (N.of_nat i) ck) ≠ Some (dropped_contributor a).
Proof.
  intros Hr Ha Hc. unfold replaced_chunk. rewrite (proj1 (cut_chunk_frame _ _ _)).
  unfold release_chunk. case_bool_decide as Hin; [done|]. intros Hl. apply Hin.
  pose proof (replaced_locks _ _ _ Ha) as Hlocks. rewrite Forall_lookup in Hlocks. specialize (Hlocks _ _ Hc Hl).
  rewrite (round_chunk_ids _ _ (running_wf _ _ _ Hr) _ _ Hc) in Hlocks.
  apply list_elem_of_filter. split; [|done].
  apply is_chunk_locked_by_true. exists ck. split; [|done].
  apply (round_chunk_lookup n); [apply Hr|]. by rewrite Nat2N.id.
Qed.

Lemma members_kept ts cs r : contributor_ids (cut_tasks ts (release_locks cs r)) = contributor_ids r.
Proof.
  destruct (cut_tasks_frame ts (release_locks cs r)) as [-> _]. unfold release_locks. by apply foldl_frame.
Qed.

Lemma replace_steps n h r d a u r' d' :
  running n h r → handed_over (base d) r a →
  remove_contributor_unsafe (dropped_contributor a) (replaced_locked_chunks a) (replaced_tasks a) (r, d)
    = (Ok u, (r', d')) →
  r' = set_contributor_ids (filter (λ q, q ≠ dropped_contributor a) (contributor_ids r))
         (cut_tasks (replaced_tasks a) (release_locks (released_chunks r a) r)) ∧
  running n h (cut_tasks (replaced_tasks a) (release_locks (released_chunks r a) r)) ∧
  untouched (λ l, outside (tasks_locators h (replaced_tasks a)) l && other_chunks (released_chunks r a) l) d d'.
Proof.
  intros Hr Ha H. unfold remove_contributor_unsafe in H.
  apply bind_ok in H as ([] & [r1 d1] & H1 & H). apply bind_ok in H as ([] & [r2 d2] & H2 & H).
  apply on_round_ok in H as (r3 & [= _ Hr3] & [= -> ->]).
  apply (remove_locks_ok n h) in H1 as (-> & Hr1 & Hrec & Hu1); [|done].
  unfold remove_chunk_contributions_unsafe in H2.
  assert (is_verifier (dropped_contributor a) = false) as Hv.
  { pose proof (running_contributor _ _ _ _ Hr (replaced_member _ _ _ Ha)) as Hc.
    by destruct (dropped_contributor a). }
  rewrite Hv in H2. apply check_ok in H2 as [_ H2].
  apply (remove_tasks_ok n h) in H2 as (-> & Hr2 & Hu2); [|done| |apply Ha].
  2: { rewrite (untouched_base _ _ _ Hu1). apply Hrec, Ha. }
  split; [|split; [done|]].
  - rewrite <-Hr3. cbn [fst]. by rewrite members_kept.
  - etrans; (eapply untouched_weaken; [|done]); intros l; simpl; rewrite andb_true_iff; tauto.
Qed.

Lemma replaced_members_ok n h r a b :
  running n h r → handed_over b r a → is_contributor (replacement_contributor a) = true →
  Forall (λ p, is_contributor p = true) (replaced_members r a) ∧
  Forall readable (replaced_members r a) ∧ length (replaced_members r a) = length (contributor_ids r).
Proof.
  intros Hr Ha Hcon. unfold replaced_members.
  pose proof (round_contributors_unique _ _ (running_wf _ _ _ Hr)) as Hnd.
  pose proof (round_contributors_contribute _ _ (running_wf _ _ _ Hr)) as Hcs.
  pose proof (running_readable _ _ _ Hr) as [Hread _]%round_readable_alt.
  pose proof (others_and_one _ _ Hnd (replaced_member _ _ _ Ha)) as Hperm. split_and!.
  - apply Forall_app. split; [|by constructor].
    apply Forall_forall. intros q [_ Hq]%list_elem_of_filter. rewrite Forall_forall in Hcs. auto.
  - apply Forall_app. split; [|repeat constructor; apply Ha]. 
    apply Forall_forall. intros q [_ Hq]%list_elem_of_filter. auto.
  - apply Permutation_length in Hperm. rewrite length_app. simpl in *. lia.
Qed.

Lemma replaced_members_NoDup r a :
  NoDup (contributor_ids r) → NoDup (replaced_members r a) ↔ free_place r a.
Proof.
  intros Hnd. unfold replaced_members, free_place. rewrite NoDup_app. split.
  - intros (_ & Hd & _). destruct (decide (replacement_contributor a = dropped_contributor a)); [by right|].
    left. intros Hin. eapply Hd; [|by apply list_elem_of_singleton]. by apply list_elem_of_filter.
  - intros Hfree. split; [by apply NoDup_filter|]. split; [|apply NoDup_singleton].
    intros q [Hne Hq]%list_elem_of_filter ->%list_elem_of_singleton. by destruct Hfree.
Qed.

(** What a replacement leaves in the storage, and when it is a running round. *)
Lemma replace_held n h r c a p u c' :
  runs n h r c → handed_over (base (storage c)) r a →
  drop_participant_from_storage (DropCurrent p (ReplaceContributor a)) c = (Ok u, c') →
  ∃ r', holds h r' (storage c') ∧ contributor_ids r' = replaced_members r a ∧
    length (replaced_members r a) = length (contributor_ids r) ∧
    (∀ i, chunks r' !! i = replaced_chunk r a (N.of_nat i) <$> chunks r !! i) ∧
    untouched (spared h r a) (storage c) (storage c') ∧
    (runs n h r' c' ↔ free_place r a).
Proof.
  intros Hr Ha H. cbn [drop_participant_from_storage] in H. rewrite (bind_loading_current n h r) in H by done.
  apply bind_ok in H as ([[] r1] & c1 & Hw & H). unfold with_round_and_disk in Hw.
  destruct (bind _ _ (r, storage c)) as [[[]|e|] [r2 d2]] eqn:E; [|done..]. injection Hw as <- <-.
  apply bind_ok in E as ([] & [r3 d3] & E & E2).
  apply (replace_steps n h) in E as (-> & Hrun & Hu); [|apply Hr|done].
  apply on_round_ok in E2 as (r4 & E2 & [= -> ->]). unfold round_add_replacement in E2.
  apply check_ok in E2 as [Hcon%negb_false_iff [= <-]]. cbn [fst snd] in *.
  set (r5 := cut_tasks _ _) in *.
  destruct (replaced_members_ok n h r a _ (proj1 Hr) Ha Hcon) as (Hcs & Hread & Hlen).
  assert (contributor_ids r5 = contributor_ids r) as Hids by apply members_kept.
  assert (∀ i, chunks r5 !! i = replaced_chunk r a (N.of_nat i) <$> chunks r !! i) as Hchunks.
  { intros i. subst r5. rewrite cut_tasks_lookup, release_locks_lookup. by rewrite <-option_fmap_compose. }
  change (set_contributor_ids _ _) with (set_contributor_ids (replaced_members r a) r5) in H.
  assert (round_readable (set_contributor_ids (replaced_members r a) r5)) as Hread5.
  { pose proof (running_readable _ _ _ Hrun) as (_ & ? & ?)%round_readable_alt. rewrite round_readable_alt.
    split_and!; [|done..]. by apply Forall_forall. }
  assert (untouched round_record (storage c) (storage (set_storage d3 c))) as Hrec.
  { eapply untouched_weaken; [|exact Hu]. intros l Hl. apply andb_true_iff. split.
    - apply outside_true. intros (t & Ht & _)%list_elem_of_bind.
      apply own_not_round_record in Ht. congruence.
    - apply forallb_forall. intros x _. by destruct l. }
  pose proof (holds_untouched _ _ _ _ Hrec (proj2 Hr)) as Hholds.
  destruct (update_round_holds h r _ _ Hholds Hread5) as (d4 & Hd4 & Hholds4 & Hu4).
  assert (rd_height (set_contributor_ids (replaced_members r a) r5) = h) as Hh by apply Hrun.
  rewrite Hh, Hd4 in H. injection H as _ <-. eexists. split; [exact Hholds4|]. split; [done|].
  split; [done|]. split; [exact Hchunks|]. split.
  - etrans; eapply untouched_weaken; [|exact Hu| |exact Hu4]; intros l; unfold spared, other_than;
      rewrite ?andb_true_iff, ?outside_true, ?elem_of_cons, ?negb_true_iff, ?bool_decide_eq_false; tauto.
  - rewrite <-replaced_members_NoDup by (eapply round_contributors_unique, Hr). split.
    + intros [Hrun' _]. apply (round_contributors_unique _ _ (running_wf _ _ _ Hrun')).
    + intros Hnd. split; [|done]. apply running_stored, running_set_members; [done..|by rewrite Hids|].
      intros i ck q Hc Hq. pose proof Hc as Hc'. rewrite Hchunks in Hc'. apply fmap_Some in Hc' as (ck0 & Hc0 & ->).
      pose proof (no_lock_left n h r a _ i ck0 (proj1 Hr) Ha Hc0) as Hne.
      apply elem_of_app. left. apply list_elem_of_filter. split; [congruence|].
      rewrite <-Hids. by eapply running_holders.
Qed.

Lemma replace_ok n h r c a p u c' :
  runs n h r c → replaceable (base (storage c)) r a →
  drop_participant_from_storage (DropCurrent p (ReplaceContributor a)) c = (Ok u, c') →
  ∃ r', runs n h r' c' ∧ contributor_ids r' = replaced_members r a ∧
    (∀ i, chunks r' !! i = replaced_chunk r a (N.of_nat i) <$> chunks r !! i) ∧
    untouched (spared h r a) (storage c) (storage c').
Proof.
  intros Hr [Ha Hnew] H. destruct (replace_held _ _ _ _ _ _ _ _ Hr Ha H) as (r' & _ & Hids & _ & ? & ? & Hiff).
  exists r'. split; [|done]. apply Hiff. by left.
Qed.

(** ** Resetting a round *)

Lemma clear_dir_record h delete_initial d :
  disk_wf d → relative_base (base d) = true → plain_base (base d) →
  untouched round_record d (clear_dir_files (round_directory (base d) h) delete_initial d).
Proof.
  intros Hwf Hb Hp. unfold clear_dir_files.
  destruct (clear_fold_frame delete_initial (files_below (round_directory (base d) h) d) d) as (Hbase & Henv & _).
  split; [done..|]. intros l Hl. unfold stored, path_of. rewrite Hbase. fold (path_of d l).
  rewrite clear_fold_lookup; [|done|].
  - rewrite decide_False; [done|]. intros [Hin Hskip]. destruct l as [| |h'|h'|l|l]; try done.
    + apply list_elem_of_filter in Hin as [Hin _]. unfold path_of in Hin.
      by rewrite below_round_directory in Hin.
    + unfold clear_skips, path_of in Hskip. rewrite path_contains_state in Hskip by done.
      by rewrite orb_true_r in Hskip.
  - apply Forall_forall. intros p [_ Hp']%list_elem_of_filter.
    apply list_elem_of_fmap in Hp' as ([p' data] & -> & Hd%elem_of_hash_iter).
    destruct (Hwf _ _ Hd) as (l' & ? & -> & _). eauto.
Qed.

Lemma clear_round_record h d :
  disk_wf d → relative_base (base d) = true → plain_base (base d) →
  untouched round_record d (clear_round_files h d).
Proof.
  intros Hwf Hb Hp. unfold clear_round_files.
  destruct (clear_fold_frame true (files_below (round_directory (base d) (u64_add h 1)) d) d) as (Hbase & _ & _).
  fold (clear_dir_files (round_directory (base d) (u64_add h 1)) true d) in Hbase.
  etrans; [by apply clear_dir_record|]. rewrite <-Hbase. apply clear_dir_record; rewrite ?Hbase; [|done..].
  by apply clear_dir_files_wf.
Qed.

(** A reset chunk is fresh, whatever the number of contributions. *)
Lemma reset_chunk_fresh e ck :
  (e < u64_modulus)%N → chunk_wf e ck → chunk_wf 1 (reset_chunk ck) ∧ cell_of (reset_chunk ck) = MkCell None [] false.
Proof.
  intros He (n & Hm & Hle & Hl). pose proof (transcript_nonempty _ _ Hm) as Hpos.
  destruct (transcript_restrict _ (contributions (reset_chunk ck)) n 1 Hm) as (Hm' & _ & Hin); [lia|..].
  { intros i. rewrite reset_chunk_lookup. destruct (N.eqb_spec i 0), (N.ltb_spec i 1); lia || done. }
  assert (chunk_wf 1 (reset_chunk ck)) as Hwf.
  { exists 1%N. split; [done|]. split; [done|]. intros p Hp. by rewrite reset_chunk_lock in Hp. }
  split; [done|]. unfold cell_of. rewrite reset_chunk_lock, (transcript_len _ _ Hm').
  destruct (transcript_lookup _ 1 0 Hm') as [k Hk]; [lia|].
  pose proof (proj2 (current_contribution_wf 1 ltac:(done) (reset_chunk ck) 1 k Hm' ltac:(done)) Hk) as ->.
  f_equal. destruct (transcript_entries _ _ Hm' _ _ Hk) as [Hw H0].
  inversion Hw; subst; simpl in *; try done. destruct H0 as [_ H0]. by specialize (H0 eq_refl).
Qed.

Lemma reset_running n h r remove :
  running n h r → (N.of_nat (length (contributor_ids r)) + 1 < u64_modulus)%N →
  running n h (round_reset remove r) ∧ board (round_reset remove r) = fresh_board n.
Proof.
  intros Hr Hlen. pose proof (running_wf _ _ _ Hr) as [Hn Hids Hcs Hnd Hcon].
  assert (∀ i c, chunks r !! i = Some c →
    chunk_wf 1 (reset_chunk c) ∧ cell_of (reset_chunk c) = MkCell None [] false) as Hfresh.
  { intros i c Hc. eapply reset_chunk_fresh; [apply expected_range | by eapply Hcs]. }
  split; [split|].
  - split; simpl.
    + by rewrite length_fmap.
    + intros i c Hc. apply list_lookup_fmap_Some in Hc as (c0 & -> & Hc0).
      rewrite <-(Hids _ _ Hc0). unfold reset_chunk.
      rewrite (foldl_frame _ ck_chunk_id); [done|]. intros a b. by destruct (negb (b =? 0)%N).
    + intros i c Hc. apply list_lookup_fmap_Some in Hc as (c0 & -> & Hc0).
      eapply chunk_wf_weaken; [|by eapply Hfresh].
      unfold expected_number_of_contributions, round_number_of_contributors. simpl.
      pose proof (length_filter (λ p, contains remove p = false) (contributor_ids r)).
      rewrite u64_add_exact; lia.
    + by apply NoDup_filter.
    + apply Forall_forall. intros q [_ Hq]%list_elem_of_filter. rewrite Forall_forall in Hcon. auto.
  - pose proof (running_readable _ _ _ Hr) as (H1 & H2 & H3)%round_readable_alt.
    apply round_readable_alt. simpl. split_and!.
    + intros q [_ Hq]%list_elem_of_filter. auto.
    + intros q [_ Hq]%list_elem_of_filter. auto.
    + intros i c Hc q Hq. apply list_lookup_fmap_Some in Hc as (c0 & -> & Hc0). apply (H3 _ _ Hc0).
      rewrite elem_of_chunk_participants, reset_chunk_lock in *.
      destruct Hq as [|(j & k & Hk & Hq)]; [done|]. right. exists j, k. split; [|done].
      rewrite reset_chunk_lookup in Hk. by destruct (j =? 0)%N.
  - apply Hr.
  - apply Hr.
  - intros i c q Hc Hq. simpl in Hc. apply list_lookup_fmap_Some in Hc as (c0 & -> & _).
    by rewrite reset_chunk_lock in Hq.
  - unfold board, fresh_board. simpl. apply list_eq. intros i.
    rewrite !list_lookup_fmap. destruct (chunks r !! i) as [c|] eqn:Hc; simpl.
    + rewrite lookup_replicate_2 by (rewrite <-Hn; by eapply lookup_lt_Some).
      by destruct (Hfresh _ _ Hc) as [_ ->].
    + symmetry. apply lookup_replicate_None. rewrite <-Hn. by apply lookup_ge_None.
Qed.

(** The storage of a coordinator in order. *)
Record storage_wf (d : Disk) : Prop := {
  storage_files : disk_wf d;
  storage_relative : relative_base (base d) = true;
  storage_plain : plain_base (base d);
}.

(** The part of a reset that both kinds share. *)
Lemma reset_steps n h r c remove :
  runs n h r c → storage_wf (storage c) → (N.of_nat (length (contributor_ids r)) + 1 < u64_modulus)%N →
  ∃ d, (on_storage (process (Update (LRoundState h) (ORoundState (round_reset remove r)))) ;;;
        on_storage (process (ClearRoundFiles h))) c = (Ok tt, set_storage (clear_round_files h d) c) ∧
    storage_wf d ∧ directories d = directories (storage c) ∧ untouched (other_than (LRoundState h)) (storage c) d ∧
    runs n h (stored_round (round_reset remove r)) (set_storage (clear_round_files h d) c).
Proof.
  intros Hr [Hwf Hb Hp] Hlen. destruct (reset_running n h r remove (proj1 Hr) Hlen) as [Hrun _].
  destruct (runs_store _ _ _ _ _ Hr Hrun) as (d & Hd & Hr').
  destruct (update_round_holds h r _ _ (proj2 Hr) (running_readable _ _ _ Hrun)) as (d' & Hd' & _ & Hu).
  rewrite Hd in Hd'. injection Hd' as Hd'. subst d'.
  pose proof Hd as (d2 & Hup & [= Hd2])%zoom_ok. subst d2.
  assert (storage_wf d) as Hwf'.
  { destruct Hu as [Hbase _ _]. split; rewrite ?Hbase; [|done..]. by eapply update_wf. }
  assert (directories d = directories (storage c)) as Hdirs.
  { by apply update_ok in Hup as (_ & _ & ->). }
  exists d. split_and!; [|done..|].
  - unfold bind. by rewrite (process_update _ _ _ _ Hd).
  - eapply runs_untouched; [|exact Hr']. by apply clear_round_record; apply Hwf'.
Qed.

(** ** Properties *)

(** The contributions of the dropped contributor are among its tasks. *)
Definition work_listed (r : Round) (a : ReplaceContributorStorageAction) : Prop :=
  Forall (λ ck, map_Forall (λ i k, contributor_id k = Some (dropped_contributor a) →
    MkTask (ck_chunk_id ck) i ∈ replaced_tasks a) (contributions ck)) (chunks r).

(** C6. Type: replacing a contributor, when the state hands over all its locks
    and contributions, leaves a round of as many members in the storage, with
    the replacement in the place of the dropped one, which holds no lock and has
    no contribution in it any more; the chunks it has no contribution in keep
    theirs. This is a well-formed running round exactly when the replacement was
    not a member beside the dropped one: otherwise it is in the list of members
    twice. *)
Theorem replacement_keeps_the_round_running n h r c p a c' :
  runs n h r c → handed_over (base (storage c)) r a → work_listed r a →
  drop_participant_from_storage (DropCurrent p (ReplaceContributor a)) c = (Ok tt, c') →
  ∃ r', holds h r' (storage c') ∧ contributor_ids r' = replaced_members r a ∧
    length (contributor_ids r') = length (contributor_ids r) ∧
    (∀ i ck, chunks r' !! i = Some ck → lock_holder ck ≠ Some (dropped_contributor a) ∧
       ∀ j k, contributions ck !! j = Some k → contributor_id k ≠ Some (dropped_contributor a)) ∧
    (∀ i ck, chunks r !! i = Some ck → (∀ t, t ∈ replaced_tasks a → chunk_id t ≠ N.of_nat i) →
       ∃ ck', chunks r' !! i = Some ck' ∧ contributions ck' = contributions ck) ∧
    (runs n h r' c' ↔ free_place r a) ∧ (NoDup (contributor_ids r') ↔ free_place r a).
Proof.
  intros Hr Ha Hwork H.
  destruct (replace_held _ _ _ _ _ _ _ _ Hr Ha H) as (r' & Hr' & Hids & Hlen & Hchunks & _ & Hiff).
  exists r'. rewrite Hids. split_and!; [done..| | |done|].
  - intros i ck Hc. rewrite Hchunks in Hc. apply fmap_Some in Hc as (ck0 & Hc0 & ->).
    split; [by eapply no_lock_left; [apply Hr|..]|]. intros j k Hk Hp.
    unfold work_listed in Hwork. rewrite Forall_lookup in Hwork. specialize (Hwork _ _ Hc0).
    rewrite (round_chunk_ids _ _ (running_wf _ _ _ (proj1 Hr)) _ _ Hc0) in Hwork.
    pose proof (cut_chunk_lookup _ _ _ _ _ Hk) as Hk0. rewrite release_chunk_contributions in Hk0.
    unfold replaced_chunk in Hk. erewrite cut_chunk_gone in Hk; [done|..|by eapply Hwork|done].
    + apply (expected_range r).
    + pose proof (round_chunks_wf _ _ (running_wf _ _ _ (proj1 Hr)) _ _ Hc0) as Hwf.
      unfold release_chunk. case_bool_decide; [|done].
      eapply chunk_step_wf; [apply expected_range|exact Hwf|apply step_unlock].
    + apply Ha.
  - intros i ck Hc Hno. eexists. rewrite Hchunks, Hc. split; [done|].
    unfold replaced_chunk. rewrite cut_chunk_other by done. apply release_chunk_contributions.
  - apply replaced_members_NoDup, (round_contributors_unique n), Hr.
Qed.

(** Resetting a round that goes on: the members that are not removed stay,
    every chunk is back to its initial contribution with nobody's lock, and of
    the files exactly the contributions of the round and what was there of the
    next round are gone. *)
Theorem reset_restarts_the_round n h r c a :
  runs n h r c → storage_wf (storage c) → (N.of_nat (length (contributor_ids r)) + 1 < u64_modulus)%N →
  rollback a = false →
  ∃ c' r', reset_round_storage a c = (Ok tt, c') ∧ runs n h r' c' ∧ board r' = fresh_board n ∧
    contributor_ids r' = filter (λ p, contains (remove_participants a) p = false) (contributor_ids r) ∧
    ∀ l, locator_in_range l → l ≠ LRoundState h →
      stored (storage c') l = if cleared h l then None else stored (storage c) l.
Proof.
  intros Hr Hwf Hlen Ha.
  destruct (reset_steps n h r c (remove_participants a) Hr Hwf Hlen) as (d & Hd & Hwf' & _ & Hu & Hr').
  destruct (reset_running n h r (remove_participants a) (proj1 Hr) Hlen) as [_ Hboard].
  eexists _, _. split_and!; [|exact Hr'|exact Hboard|done|].
  - unfold reset_round_storage. rewrite (bind_loading_height n h r), (bind_loading_round n h r), Ha by done.
    assert (rd_height (round_reset (remove_participants a) r) = h) as -> by apply Hr.
    rewrite <-bind_assoc. unfold bind at 1. by rewrite Hd.
  - intros l Hl Hne. cbn [storage set_storage]. rewrite clear_round_lookup by (done || apply Hwf').
    rewrite (untouched_stored _ _ _ Hu); [done|]. unfold other_than. by rewrite bool_decide_eq_false_2.
Qed.

(** *** Files left behind *)

Lemma try_lock_chunk_locators n h r c chunk_id q ls c' :
  runs n h r c → try_lock_chunk chunk_id q c = (Ok ls, c') → contributor_locators chunk_id (r, storage c) = Ok ls.
Proof.
  intros Hr H. unfold try_lock_chunk in H. apply check_ok in H as [_ H].
  rewrite (bind_loading_height n h r), (bind_loading_current n h r) in H by done. rewrite bind_gets in H.
  apply bind_ok in H as ([ls' r1] & c1 & Hlock & H). unfold with_round_and_disk in Hlock.
  destruct (round_try_lock_chunk _ _ _ _) as [[ls2|e|] rd2] eqn:E.
  - destruct (round_try_lock_chunk_ok _ _ _ _ _ _ _ E) as (_ & _ & Hls & _).
    destruct rd2 as [r2 d2]. injection Hlock as -> -> <-.
    apply bind_ok in H as (u & c2 & _ & [= <- _]). exact Hls.
  - by destruct rd2.
  - by destruct rd2.
Qed.

(** A response file under the next contribution id keeps everybody from
    locking the chunk. *)
Lemma stale_response_blocks n h r c chunk_id ck q :
  runs n h r c → round_chunk r chunk_id = Ok ck →
  stored (storage c) (response h chunk_id (u64_add (current_contribution_id ck) 1)) ≠ None →
  is_ok (try_lock_chunk chunk_id q c).1 = false.
Proof.
  intros Hr Hck Hs. destruct (try_lock_chunk chunk_id q c) as [[ls|e|] c'] eqn:E; [|done..]. exfalso. apply Hs.
  apply (try_lock_chunk_locators n h r) in E; [|done]. unfold contributor_locators in E.
  apply bind_outcome_ok in E as (ck' & Hck' & (next & Hnext & _)%bind_outcome_ok).
  unfold next_contribution_locator in Hnext. apply bind_outcome_ok in Hnext as (id & Hid & Hnext).
  unfold next_verified_id in Hid. cbn [fst] in *. rewrite Hck in Hid. cbn [bind_outcome] in Hid.
  apply bind_outcome_ok in Hid as (id' & Hid & (k & _ & Hver)%bind_outcome_ok).
  destruct (negb (verified k)); [done|]. injection Hver as ->.
  unfold next_contribution_id in Hid. apply bind_outcome_ok in Hid as (k' & _ & Hid).
  destruct (negb (verified k')); [done|]. destruct (only_contributions_complete _ _); [done|]. injection Hid as <-.
  rewrite disk_exists_stored, (running_height _ _ _ (proj1 Hr)) in Hnext.
  unfold response. by destruct (stored (storage c) _).
Qed.

(** C31. Replacing a contributor cuts the transcript of each of its chunks at
    its contribution, but of the contributions after it the response files
    stay.  When the transcript has grown back to such a file, nobody can lock
    the chunk any more. *)
Theorem replacement_leaves_later_responses n h r c p a c' chunk_id ck i j data :
  runs n h r c → replaceable (base (storage c)) r a →
  drop_participant_from_storage (DropCurrent p (ReplaceContributor a)) c = (Ok tt, c') →
  round_chunk r chunk_id = Ok ck → lock_holder ck ≠ Some (dropped_contributor a) →
  MkTask chunk_id i ∈ replaced_tasks a → (i < j)%N → MkTask chunk_id j ∉ replaced_tasks a →
  stored (storage c) (response h chunk_id j) = Some data →
  (∃ r' ck', runs n h r' c' ∧ round_chunk r' chunk_id = Ok ck' ∧ contributions ck' !! j = None) ∧
  stored (storage c') (response h chunk_id j) = Some data ∧
  ∀ q now r2 c2 ck2 id ls c3, runs n h r2 c2 → round_chunk r2 chunk_id = Ok ck2 →
    u64_add (current_contribution_id ck2) 1 = j → stored (storage c2) (response h chunk_id j) = Some data →
    try_lock q now c2 = (Ok (id, ls), c3) → id ≠ chunk_id.
Proof.
  intros Hr Ha H Hck Hfree Hi Hij Hj Hs.
  destruct (replace_ok _ _ _ _ _ _ _ _ Hr Ha H) as (r' & Hr' & Hids & Hchunks & Hu). split; [|split].
  - pose proof Hck as Hc. apply (round_chunk_lookup n) in Hc; [|apply Hr].
    exists r'. eexists. split; [done|]. split.
    + apply (round_chunk_lookup n); [apply Hr'|]. by rewrite Hchunks, Hc.
    + unfold replaced_chunk. rewrite N2Nat.id.
      eapply (cut_chunk_gone (expected_number_of_contributions r)); [apply expected_range| |apply Ha|exact Hi|lia].
      pose proof (round_chunks_wf _ _ (running_wf _ _ _ (proj1 Hr)) _ _ Hc) as Hwf.
      unfold release_chunk. case_bool_decide; [|done].
      eapply chunk_step_wf; [apply expected_range|exact Hwf|apply step_unlock].
  - rewrite <-Hs. apply Hu. unfold spared. apply andb_true_iff. split.
    + apply outside_true. rewrite elem_of_cons. intros [|(t & Ht & Hin)%list_elem_of_bind]; [done|].
      apply own_response in Ht as [Hc ->]. apply Hj. rewrite Hc. by destruct t.
    + apply forallb_forall. intros c0 Hc0%list_elem_of_In. simpl. apply negb_true_iff, N.eqb_neq. intros <-.
      apply list_elem_of_filter in Hc0 as [(ck2 & Hck2 & Hl)%is_chunk_locked_by_true _]. congruence.
  - intros q now r2 c2 ck2 id ls c3 Hr2 Hck2 Hcur Hs2 (t & s1 & c4 & s2 & Hid & _ & Hl & _)%try_lock_ok Heq.
    rewrite Heq in Hl.
    assert (is_ok (try_lock_chunk chunk_id q (set_state s1 c2)).1 = false) as Hno.
    { eapply (stale_response_blocks n h r2); [|done|]; [exact Hr2|].
      rewrite Hcur. cbn [storage set_state]. by rewrite Hs2. }
    by rewrite Hl in Hno.
Qed.

(** *** Starting a round again *)

Lemma for_each_reads {A} (f : A → M CoordinatorError Disk unit) l d :
  (∀ a, a ∈ l → f a d = (Ok tt, d)) → for_each f l d = (Ok tt, d).
Proof.
  intros Hf. induction l as [|a l IH]; [done|]. cbn [for_each]. unfold bind.
  rewrite Hf by constructor. apply IH. intros a' Ha. apply Hf. by constructor.
Qed.

Lemma insert_round_ok h r d :
  stored d (LRoundState h) = None → round_directory (base d) h ∈ directories d →
  ∃ d', insert_object (LRoundState h) (ORoundState r) d = (Ok tt, d') ∧ untouched (other_than (LRoundState h)) d d'.
Proof.
  intros Hs Hdir. pose proof (keeps_insert_object (other_than (LRoundState h)) (LRoundState h) (ORoundState r)) as Hk.
  specialize (Hk ltac:(unfold other_than; by rewrite bool_decide_eq_true_2) d).
  assert (is_ok (insert_object (LRoundState h) (ORoundState r) d).1 = true) as Hok.
  { unfold insert_object, initialize_file, update, check, bind, modify.
    rewrite disk_exists_stored, Hs. cbn [is_some parent_directory base directories].
    rewrite bool_decide_eq_true_2 by done. cbn [negb]. rewrite disk_exists_stored, stored_insert.
    by rewrite decide_True. }
  destruct (insert_object _ _ d) as [[[]|e|] d']; [|done..]. by exists d'.
Qed.

(** Storing the height. *)
Lemma height_after h d d' u :
  (h < u64_modulus)%N → update LRoundHeight (ORoundHeight h) d = (Ok u, d') →
  load_current_round_height d' = Ok h.
Proof.
  intros Hh (_ & _ & ->)%update_ok.
  assert (get LRoundHeight (set_files (<[path_of d LRoundHeight:=object_to_bytes (ORoundHeight h)]> (files d)) d)
    = Ok (ORoundHeight h)) as Hget.
  { eapply get_stored; [|reflexivity|by constructor]. rewrite stored_insert. by rewrite decide_True. }
  unfold load_current_round_height. rewrite Hget, disk_exists_stored, stored_insert. by rewrite decide_True.
Qed.

Lemma height_stored d h : load_current_round_height d = Ok h → is_some (stored d LRoundHeight) = true.
Proof. unfold load_current_round_height. rewrite disk_exists_stored. by destruct (is_some _). Qed.

Lemma clear_round_frame h d :
  base (clear_round_files h d) = base d ∧ directories (clear_round_files h d) = directories d.
Proof.
  unfold clear_round_files, clear_dir_files. cbv zeta.
  set (d1 := foldl (clear_entry true) d _). set (ps := files_below _ d1).
  destruct (clear_fold_frame false ps d1) as (-> & _ & ->). unfold d1.
  by destruct (clear_fold_frame true (files_below (round_directory (base d) (u64_add h 1)) d) d) as (-> & _ & ->).
Qed.

(** What a rollback leaves in the storage. *)
Lemma rolled_back_storage n h r c a :
  runs n h r c → storage_wf (storage c) → (N.of_nat (length (contributor_ids r)) + 1 < u64_modulus)%N →
  rollback a = true → (0 < h)%N →
  ∃ d, reset_round_storage a c = (Ok tt, set_storage d c) ∧
    load_current_round_height d = Ok (h - 1)%N ∧ base d = base (storage c) ∧
    directories d = directories (storage c) ∧ stored d (LRoundState h) = None ∧
    ∀ l, locator_in_range l → l ≠ LRoundState h → l ≠ LRoundHeight →
      stored d l = if cleared h l then None else stored (storage c) l.
Proof.
  intros Hr Hwf Hlen Ha Hpos.
  destruct (reset_steps n h r c (remove_participants a) Hr Hwf Hlen) as (d1 & Hd & Hwf' & Hdir & Hu & Hr').
  set (d2 := clear_round_files h d1) in *.
  assert (base d2 = base d1 ∧ directories d2 = directories d1) as [Hb2 Hdir2].
  { apply clear_round_frame. }
  destruct (load_round_inv _ _ _ (held_round _ _ _ (proj2 Hr'))) as [_ Hex]. cbn [storage set_storage] in Hex.
  set (d3 := set_files (delete (path_of d2 (LRoundState h)) (files d2)) d2).
  assert (remove (LRoundState h) d2 = (Ok tt, d3)) as Hrm by by apply remove_ok.
  pose proof (height_stored _ _ (held_height _ _ _ (proj2 Hr'))) as Hhs. cbn [storage set_storage] in Hhs.
  set (d4 := set_files (<[path_of d3 LRoundHeight := object_to_bytes (ORoundHeight (h - 1))]> (files d3)) d3).
  assert (update LRoundHeight (ORoundHeight (h - 1)) d3 = (Ok tt, d4)) as Hup.
  { apply update_ok. split; [done|]. split; [|done]. subst d3. rewrite stored_delete. by rewrite decide_False. }
  pose proof (running_range _ _ _ (proj1 Hr)) as Hrange. exists d4. split_and!.
  - unfold reset_round_storage. rewrite (bind_loading_height n h r), (bind_loading_round n h r), Ha by done.
    assert (rd_height (round_reset (remove_participants a) r) = h) as -> by apply Hr.
    rewrite <-bind_assoc. unfold bind at 1. rewrite Hd. unfold check.
    rewrite (proj2 (N.eqb_neq h 0)) by lia. unfold bind, on_storage, zoom. cbn [storage set_storage].
    rewrite Hrm. cbn [storage set_storage]. by rewrite u64_sub_exact, Hup by lia.
  - eapply (height_after _ d3); [lia|done].
  - change (base d4) with (base d2). rewrite Hb2. apply Hu.
  - change (directories d4) with (directories d2). congruence.
  - subst d4. rewrite stored_insert, decide_False by done. subst d3. rewrite stored_delete. by rewrite decide_True.
  - intros l Hl Hne1 Hne2. subst d4. rewrite stored_insert, decide_False by done. subst d3.
    rewrite stored_delete, decide_False by done. subst d2. rewrite clear_round_lookup by (done || apply Hwf').
    rewrite (untouched_stored _ _ _ Hu); [done|]. unfold other_than. by rewrite bool_decide_eq_false_2.
Qed.

(** C33. Liveness: rolling a round back always succeeds, goes back to the
    previous height and forgets the round; as its initial challenges stay in
    the storage, the round can be started again with any list of contributors
    a round can be made of. *)
Theorem rolled_back_round_can_start_again n h r c a :
  runs n h r c → storage_wf (storage c) → (N.of_nat (length (contributor_ids r)) + 1 < u64_modulus)%N →
  rollback a = true → (0 < h)%N →
  ∃ c1, reset_round_storage a c = (Ok tt, c1) ∧ state c1 = state c ∧
    load_current_round_height (storage c1) = Ok (h - 1)%N ∧ stored (storage c1) (LRoundState h) = None ∧
    (h = 1%N ∨ is_some (stored (storage c) (LRoundFile (h - 1))) = true →
     (number_of_chunks (co_environment c) < u64_modulus)%N →
     (∀ k, (k < number_of_chunks (co_environment c))%N →
        is_some (stored (storage c) (LContributionFile (MkContributionLocator h k 0 true))) = true) →
     ∀ started cs r', cs ≠ [] → round_new (co_environment c) (base (storage c)) h started cs = Ok r' →
       ∃ c2, next_round started cs c1 = (Ok h, c2) ∧ load_current_round_height (storage c2) = Ok h).
Proof.
  intros Hr Hwf Hlen Ha Hpos. pose proof (running_range _ _ _ (proj1 Hr)) as Hrange.
  destruct (rolled_back_storage _ _ _ _ _ Hr Hwf Hlen Ha Hpos) as (d & Hd & Hheight & Hbase & Hdir & Hno & Hfiles).
  exists (set_storage d c). split_and!; [done..|]. intros Hprev Hnum Hinit started cs r' Hcs Hnew.
  assert (∀ k, (k < number_of_chunks (co_environment c))%N →
    disk_exists d (LContributionFile (MkContributionLocator h k 0 true)) = true) as Hch.
  { intros k Hk. rewrite disk_exists_stored, Hfiles; [|simpl; lia|done..]. unfold cleared. simpl.
    rewrite !andb_false_r, orb_false_r. case_bool_decide as Heq; [|by apply Hinit].
    injection Heq as Heq. exfalso. by apply (u64_add_1_ne h). }
  assert (negb (h - 1 =? 0)%N && negb (disk_exists d (LRoundFile (h - 1))) = false) as Hfile.
  { destruct Hprev as [->|Hprev]; [done|]. apply andb_false_iff. right. apply negb_false_iff.
    rewrite disk_exists_stored, Hfiles; [|simpl; lia|done..]. unfold cleared. simpl.
    rewrite !bool_decide_eq_false_2; [done|intros [=]; lia|]. intros [= Heq]. revert Heq. unfold u64_add.
    destruct (decide (h + 1 = u64_modulus)%N) as [He|]; [|rewrite N.mod_small by lia; lia].
    assert (2 < u64_modulus)%N by by vm_compute. rewrite He, N.Div0.mod_same. lia. }
  assert (round_directory (base d) h ∈ directories d) as Hparent.
  { destruct (load_round_inv _ _ _ (held_round _ _ _ (proj2 Hr))) as [_ [data Hex]%is_some_true].
    destruct (storage_files _ Hwf _ _ Hex) as (l & _ & Hp & Hin).
    unfold path_of in Hp. apply to_path_inj in Hp. subst l.
    by rewrite Hbase, Hdir. }
  destruct (insert_round_ok h r' d Hno Hparent) as (d1 & Hd1 & Hu1).
  pose proof (height_stored _ _ Hheight) as Hhs.
  assert (is_some (stored d1 LRoundHeight) = true) as Hhs1.
  { by rewrite (untouched_stored _ _ _ Hu1). }
  destruct (update LRoundHeight (ORoundHeight h) d1) as [o d2] eqn:Hup.
  pose proof (proj2 (update_ok LRoundHeight (ORoundHeight h) d1 tt _) (conj eq_refl (conj Hhs1 eq_refl))) as Hup'.
  rewrite Hup in Hup'. injection Hup' as -> _.
  exists (set_storage d2 c). split; [|by eapply height_after].
  unfold next_round. unfold check at 1. apply is_nil_false in Hcs. rewrite Hcs.
  unfold bind at 1, loading. cbn [storage set_storage]. rewrite Hheight.
  unfold check at 1. cbn [storage set_storage]. rewrite Hfile.
  replace (u64_add (h - 1) 1) with h by (rewrite u64_add_exact; lia).
  unfold check at 1. cbn [storage set_storage]. rewrite disk_exists_stored, Hno. cbn [is_some].
  rewrite bind_gets. cbn [co_environment set_storage].
  unfold bind at 1, on_storage at 1, zoom at 1. cbn [storage set_storage].
  rewrite for_each_reads.
  2: { intros k Hk%elem_of_u64_range. unfold initial_challenge_exists, check. by rewrite Hch by lia. }
  cbn [storage set_storage]. rewrite bind_gets. cbn [storage set_storage]. rewrite Hbase.
  unfold bind at 1, lift. rewrite Hnew. unfold bind, on_storage, zoom. cbn [storage set_storage].
  rewrite Hd1. cbn [storage set_storage]. by rewrite Hup.
Qed.
End removal.

(** ** Witnesses *)

#[local] Existing Instance trie_order.
#[local] Existing Instance time_api.
#[local] Existing Instance plain_serde.
#[local] Existing Instance toy_cryptography.
#[local] Existing Instance dummy_signature.

(** Alice's contribution to the first chunk, with Bob's on top of it. *)
Definition built_on_calls : list (Call * Z) :=
  [(CContribute alice "key" (seed_of x02), 5%Z); (CVerify verifier "key" (MkTask 0 1), 5%Z);
   (CContribute bob "key" (seed_of x04), 6%Z); (CVerify verifier "key" (MkTask 1 1), 6%Z);
   (CContribute bob "key" (seed_of x04), 7%Z); (CVerify verifier "key" (MkTask 0 2), 7%Z)].
Definition built_on : Coordinator := perform_all built_on_calls sample_round.

Lemma built_on_runs : runs 2 1 (loaded built_on) built_on.
Proof. exact (perform_all_runs 2 1 _ built_on_calls _ sample_round_runs ltac:(by repeat constructor)). Qed.

(** What the state hands over when Alice is dropped. *)
Definition alice_dropped : ReplaceContributorStorageAction :=
  match (DropParticipant.drop_participant alice 9 (state built_on)).1 with
  | Ok (DropCurrent _ (ReplaceContributor a)) => a
  | _ => MkReplaceAction bob 0 [] [] bob
  end.
Definition after_drop : Coordinator :=
  (drop_participant_from_storage (DropCurrent alice (ReplaceContributor alice_dropped)) built_on).2.

Lemma alice_handed : handed_over (base (storage built_on)) (loaded built_on) alice_dropped.
Proof.
  split.
  - apply (bool_decide_eq_true_1 _). vm_compute. reflexivity.
  - vm_compute. reflexivity.
  - apply (bool_decide_eq_true_1 _). vm_compute. reflexivity.
  - apply (bool_decide_eq_true_1 _). vm_compute. reflexivity.
  - apply (bool_decide_eq_true_1 _). vm_compute. reflexivity.
Qed.
Lemma alice_replaceable : replaceable (base (storage built_on)) (loaded built_on) alice_dropped.
Proof. split; [exact alice_handed|]. apply (bool_decide_eq_true_1 _). vm_compute. reflexivity. Qed.

Lemma alice_work_listed : work_listed (loaded built_on) alice_dropped.
Proof. apply (bool_decide_eq_true_1 _). vm_compute. reflexivity. Qed.

Lemma alice_drop_ok :
  drop_participant_from_storage (DropCurrent alice (ReplaceContributor alice_dropped)) built_on = (Ok tt, after_drop).
Proof.
  assert ((drop_participant_from_storage (DropCurrent alice (ReplaceContributor alice_dropped)) built_on).1 = Ok tt)
    as H by (vm_compute; reflexivity).
  unfold after_drop. exact (pair_outcome _ _ H).
Qed.

(** Then Bob is dropped as well, and the only coordinator contributor replaces
    him too. *)
Definition bob_dropped : ReplaceContributorStorageAction :=
  match (DropParticipant.drop_participant bob 12 (state (drop_participant alice 9 built_on).2)).1 with
  | Ok (DropCurrent _ (ReplaceContributor a)) => a
  | _ => MkReplaceAction alice 0 [] [] alice
  end.
Definition after_both : Coordinator :=
  (drop_participant_from_storage (DropCurrent bob (ReplaceContributor bob_dropped)) after_drop).2.

Lemma bob_handed : handed_over (base (storage after_drop)) (loaded after_drop) bob_dropped.
Proof.
  split.
  - apply (bool_decide_eq_true_1 _). vm_compute. reflexivity.
  - vm_compute. reflexivity.
  - apply (bool_decide_eq_true_1 _). vm_compute. reflexivity.
  - apply (bool_decide_eq_true_1 _). vm_compute. reflexivity.
  - apply (bool_decide_eq_true_1 _). vm_compute. reflexivity.
Qed.
Lemma bob_work_listed : work_listed (loaded after_drop) bob_dropped.
Proof. apply (bool_decide_eq_true_1 _). vm_compute. reflexivity. Qed.
Lemma bob_drop_ok :
  drop_participant_from_storage (DropCurrent bob (ReplaceContributor bob_dropped)) after_drop = (Ok tt, after_both).
Proof.
  assert ((drop_participant_from_storage (DropCurrent bob (ReplaceContributor bob_dropped)) after_drop).1 = Ok tt)
    as H by (vm_compute; reflexivity).
  unfold after_both. exact (pair_outcome _ _ H).
Qed.
Lemma bob_place_taken : ¬ free_place (loaded after_drop) bob_dropped.
Proof.
  intros [Hin|Heq].
  - apply Hin. apply (bool_decide_eq_true_1 _). vm_compute. reflexivity.
  - vm_compute in Heq. discriminate.
Qed.

Lemma replacement_keeps_the_round_running_witness :
  (∃ r', runs 2 1 r' after_drop ∧ contributor_ids r' = replaced_members (loaded built_on) alice_dropped) ∧
  ∃ r', holds 1 r' (storage after_both) ∧ length (contributor_ids r') = 2 ∧ ¬ NoDup (contributor_ids r').
Proof.
  destruct (replacement_keeps_the_round_running 2 1 (loaded built_on) built_on alice alice_dropped after_drop
    built_on_runs alice_handed alice_work_listed alice_drop_ok) as (r' & _ & Hids & Hlen & _ & _ & Hiff & _).
  assert (runs 2 1 r' after_drop) as Hr' 
    by exact (proj2 Hiff (or_introl (replacement_new _ _ _ alice_replaceable))).
  split; [exists r'; exact (conj Hr' Hids)|]. pose proof (runs_loaded _ _ _ _ Hr') as Hl. rewrite <-Hl in Hr', Hlen.
  destruct (replacement_keeps_the_round_running 2 1 (loaded after_drop) after_drop bob bob_dropped after_both
    Hr' bob_handed bob_work_listed bob_drop_ok) as (r2 & Hr2 & _ & Hlen2 & _ & _ & _ & Hnd).
  exists r2. split; [exact Hr2|]. rewrite Hlen2, Hlen. split; [vm_compute; reflexivity|].
  intros H. exact (bob_place_taken (proj1 Hnd H)).
Defined.

(** The first chunk, where Bob's response is left behind. *)
Definition built_chunk : Chunk :=
  match round_chunk (loaded built_on) 0 with Ok ck => ck | _ => chunk_v end.
Definition bobs_response : bytes := default [] (stored (storage built_on) (response 1 0 2)).

Lemma replacement_leaves_later_responses_witness :
  stored (storage after_drop) (response 1 0 2) = Some bobs_response.
Proof.
  eapply (replacement_leaves_later_responses 2 1 (loaded built_on) built_on alice alice_dropped after_drop
    0 built_chunk 1 2 bobs_response built_on_runs alice_replaceable alice_drop_ok).
  - vm_compute. reflexivity.
  - apply (bool_decide_eq_true_1 _). vm_compute. reflexivity.
  - apply (bool_decide_eq_true_1 _). vm_compute. reflexivity.
  - done.
  - apply (bool_decide_eq_true_1 _). vm_compute. reflexivity.
  - vm_compute. reflexivity.
Defined.

(** Bob is stuck: after the replacement has redone Alice's contribution, the
    first chunk is his next task. *)
Definition redone : Coordinator :=
  perform_all [(CContribute (Contributor "coordinator") "key" (seed_of x03), 10%Z);
               (CVerify verifier "key" (MkTask 0 1), 10%Z)]
    (drop_participant alice 9 built_on).2.

Example bob_is_stuck :
  (fetch_task bob 11 (state redone)).1 = Ok (MkTask 0 2) ∧
  (try_lock bob 11 redone).1 = Err ContributionLocatorAlreadyExists.
Proof. split; vm_compute; reflexivity. Qed.

Lemma built_on_storage_wf : storage_wf (storage built_on).
Proof.
  split; [apply disk_wf_check; vm_compute; reflexivity | vm_compute; reflexivity | split; vm_compute; reflexivity].
Qed.

Definition keep_everybody : ResetCurrentRoundStorageAction := MkResetAction [] false.
Definition everybody_out : ResetCurrentRoundStorageAction := MkResetAction [alice; bob] true.

Lemma reset_restarts_the_round_witness :
  ∃ c' r', reset_round_storage keep_everybody built_on = (Ok tt, c') ∧ runs 2 1 r' c' ∧
    board r' = fresh_board 2 ∧
    contributor_ids r' = filter (λ p, contains (remove_participants keep_everybody) p = false)
                           (contributor_ids (loaded built_on)) ∧
    ∀ l, locator_in_range l → l ≠ LRoundState 1 →
      stored (storage c') l = if cleared 1 l then None else stored (storage built_on) l.
Proof.
  exact (reset_restarts_the_round 2 1 (loaded built_on) built_on keep_everybody built_on_runs built_on_storage_wf
    ltac:(vm_compute; reflexivity) eq_refl).
Defined.

Lemma rolled_back_round_can_start_again_witness :
  ∃ c1, reset_round_storage everybody_out built_on = (Ok tt, c1) ∧
    load_current_round_height (storage c1) = Ok 0%N ∧
    ∃ c2, next_round 20 [alice; bob] c1 = (Ok 1%N, c2).
Proof.
  destruct (rolled_back_round_can_start_again 2 1 (loaded built_on) built_on everybody_out built_on_runs
    built_on_storage_wf ltac:(vm_compute; reflexivity) eq_refl eq_refl) as (c1 & Hc1 & _ & Hh & _ & Hstart).
  exists c1. split; [exact Hc1|]. split; [exact Hh|].
  destruct (Hstart (or_introl eq_refl) ltac:(vm_compute; reflexivity)
    ltac:(intros k Hk; assert (k = 0 ∨ k = 1)%N as [->| ->] by (change (k < 2)%N in Hk; lia); vm_compute; reflexivity)
    20%Z [alice; bob] (match round_new sample_environment "./t" 1 20 [alice; bob] with Ok r => r | _ => first_round end)
    ltac:(discriminate) ltac:(vm_compute; reflexivity)) as (c2 & Hc2 & _).
  exists c2. exact Hc2.
Defined.
