(* ===== verification/Honest.v ===== *)
(** * Honest work is accepted

    The files that the coordinator's own commands compute pass the checks it
    makes of a contribution and of a verification.  What the commands need of
    the crates behind them is stated first. *)

From S2P Require Import Prelude Text Task Participant Errors Environment Phase1Parameters Contribution Locator Chunk Round Board ParticipantInfo RoundMetrics CoordinatorState Serde Storage RoundStorage Commands Responses RoundTransition DropParticipant Frame Coordinator RoundStore Contributing Ceremony Sample Refinement HashChain.
From Stdlib Require Import Ascii Strings.Byte.

Section honest.
Context `{HO : HashOrder, TA : TimeApi, SE : !Serde, CR : Cryptography, SG : Signature}.

(** ** What the crates promise *)

(** The key is that of the participant. *)
Definition signs_for (key : string) (p : Participant) : Prop :=
  ∀ message signature, sign key message = Some signature →
    verify_signature (signing_address p) message signature = true.

(** The text of 64 bytes. *)
Definition hex64 (s : string) : Prop := ∃ data, hex_decode s = Some data ∧ length data = 64.

(** The JSON of a signature fills its file. *)
Definition signatures_fill_files : Prop := ∀ s,
  hex64 (cfs_signature s) → hex64 (challenge_hash (cfs_state s)) → hex64 (response_hash (cfs_state s)) →
  (∀ t, next_challenge_hash (cfs_state s) = Some t → hex64 t) →
  N.of_nat (length (signature_to_vec s)) =
    contribution_file_signature_size (is_some (next_challenge_hash (cfs_state s))).

(** ** Writing files *)

Lemma with_writer_ok l m d u d' :
  with_writer l m d = (Ok u, d') →
  ∃ old new, stored d l = Some old ∧ check_size d l old = Ok tt ∧ m old = (Ok u, new) ∧ d' = write_mapped l new d.
Proof.
  unfold with_writer. rewrite bind_gets. intros H. apply bind_lift_ok in H as (old & Hold & H).
  destruct (m old) as [o new] eqn:Hm. rewrite bind_modify in H. unfold lift in H. injection H as -> <-.
  unfold writer in Hold. apply bind_outcome_ok in Hold as (data & Hdata%ok_or_ok & Hold).
  destruct (is_nil data); [done|]. apply bind_outcome_ok in Hold as ([] & Hsize & [= ->]).
  by exists old, new.
Qed.

Lemma write_mapped_same l d old new :
  stored d l = Some old → length new = length old →
  write_mapped l new d = set_files (<[path_of d l := new]> (files d)) d.
Proof.
  unfold stored, write_mapped. intros -> Hlen. by rewrite take_app_le, take_ge by lia.
Qed.

Lemma write_prefix_ok data old u new :
  write_prefix data old = (Ok u, new) →
  length data ≤ length old ∧ new = data ++ list.drop (length data) old ∧ length new = length old.
Proof.
  unfold write_prefix. destruct (Nat.leb_spec (length data) (length old)); [|done]. intros [= _ <-].
  rewrite (take_ge data) by done. split_and!; [done..|]. rewrite length_app, length_drop. lia.
Qed.

Lemma reader_frame d d' l :
  disk_environment d' = disk_environment d → stored d' l = stored d l → reader l d' = reader l d.
Proof.
  unfold stored. intros He Hs. unfold reader. rewrite Hs. destruct (files d !! path_of d l); [|done].
  cbn [ok_or bind_outcome]. unfold check_size, expected_size. by rewrite He.
Qed.

Lemma reader_untouched P d d' l : untouched P d d' → P l = true → reader l d' = reader l d.
Proof. intros [Hb He Hs] Hl. apply reader_frame; auto. Qed.

Lemma reader_signature d l data : stored d (LContributionFileSignature l) = Some data →
  reader (LContributionFileSignature l) d = Ok data.
Proof. unfold stored, reader. by intros ->. Qed.

Lemma reader_other l d d' l' : untouched (other_than l) d d' → l' ≠ l → reader l' d' = reader l' d.
Proof. intros Hu Hne. eapply reader_untouched; [done|]. unfold other_than. by rewrite bool_decide_eq_false_2. Qed.
Lemma stored_other l d d' l' : untouched (other_than l) d d' → l' ≠ l → stored d' l' = stored d l'.
Proof. intros Hu Hne. apply Hu. unfold other_than. by rewrite bool_decide_eq_false_2. Qed.

(** ** Signatures *)

Lemma hex64_hash data : hex64 (hex_encode (calculate_hash data)).
Proof. exists (calculate_hash data). rewrite hex_decode_encode. split; [done|]. apply calculate_hash_length. Qed.

(** What [write_contribution_file_signature] leaves: the participant's
    signature of the hashes. *)
Lemma written_signature key p lc lr ln l d u d' ch re nx :
  signs_for key p → signatures_fill_files →
  reader lc d = Ok ch → reader lr d = Ok re →
  match ln, nx with Some ln, Some nx => reader ln d = Ok nx | None, None => True | _, _ => False end →
  (∀ old, stored d (LContributionFileSignature l) = Some old →
     N.of_nat (length old) = contribution_file_signature_size (is_some nx)) →
  write_contribution_file_signature key lc lr ln (LContributionFileSignature l) d = (Ok u, d') →
  signed_by p l ch re nx d' ∧ untouched (other_than (LContributionFileSignature l)) d d'.
Proof.
  intros Hkey Hfill Hch Hre Hnx Hsize H. unfold write_contribution_file_signature, read in H.
  apply bind_ok in H as (x & d1 & [= Hx <-] & H). rewrite Hch in Hx. injection Hx as <-.
  apply bind_ok in H as (x & d1 & [= Hx <-] & H). rewrite Hre in Hx. injection Hx as <-.
  apply bind_ok in H as (x & d1 & Hx & H).
  assert (d1 = d ∧ x = calculate_hash <$> nx) as [-> ->].
  { destruct ln as [ln|], nx as [nx|]; try done.
    - apply bind_ok in Hx as (y & d2 & [= Hy <-] & [= <- <-]). rewrite Hnx in Hy. by injection Hy as <-.
    - by injection Hx as <- <-. }
  apply bind_lift_ok in H as (s & Hs & H). unfold contribution_state_new in Hs.
  rewrite !calculate_hash_length in Hs. cbn [negb Nat.eqb] in Hs.
  apply bind_lift_ok in H as (signature & Hsig%ok_or_ok & H). apply bind_lift_ok in H as (cfs & Hcfs & H).
  assert (s = MkContributionState (hex_encode (calculate_hash ch)) (hex_encode (calculate_hash re))
    (hex_encode <$> (calculate_hash <$> nx))) as ->.
  { change (64 =? 64) with true in Hs. cbn [negb] in Hs.
    destruct nx as [nx|]; simpl in Hs; [rewrite calculate_hash_length in Hs; simpl in Hs|]; by injection Hs as <-. }
  unfold contribution_file_signature_new in Hcfs. apply bind_outcome_ok in Hcfs as (raw & Hraw%ok_or_ok & Hcfs).
  destruct (Nat.eqb_spec (length raw) 64); [|done]. injection Hcfs as <-. set (cfs := MkContributionFileSignature _ _) in *.
  apply with_writer_ok in H as (old & new & Hold & _ & (Hle & -> & Hlen)%write_prefix_ok & ->).
  assert (N.of_nat (length (signature_to_vec cfs)) = contribution_file_signature_size (is_some nx)) as Hvec.
  { replace (is_some nx) with (is_some (next_challenge_hash (cfs_state cfs))) by by destruct nx.
    apply Hfill; simpl; eauto using hex64_hash; [by exists raw|].
    intros t Ht. destruct nx; simpl in Ht; [|done]. injection Ht as <-. apply hex64_hash. }
  specialize (Hsize _ Hold). rewrite drop_ge, app_nil_r in * by lia.
  rewrite (write_mapped_same _ _ old) by done. split; [|apply untouched_other]. constructor.
  exists (signature_to_vec cfs), cfs. split_and!.
  - apply reader_signature. rewrite stored_insert. by rewrite decide_True.
  - apply signature_from_to.
  - by apply Hkey.
  - simpl. by rewrite hex_decode_encode.
  - simpl. by rewrite hex_decode_encode.
  - destruct nx; [|done]. simpl. by rewrite hex_decode_encode.
Qed.

(** ** Contributions *)

Lemma check_size_length d d' l data data' :
  disk_environment d' = disk_environment d → length data' = length data →
  check_size d' l data' = check_size d l data.
Proof. intros He Hl. unfold check_size, expected_size. by rewrite He, Hl. Qed.

(** A file whose contents were replaced in place. *)
Lemma reader_replaced d l old new :
  stored d l = Some old → check_size d l old = Ok tt → length new = length old →
  reader l (set_files (<[path_of d l := new]> (files d)) d) = Ok new.
Proof.
  intros Hs Hc Hl. pose proof (stored_insert d l l new) as Hn. rewrite decide_True in Hn by done.
  unfold stored in Hn. unfold reader. rewrite Hn. cbn [ok_or bind_outcome].
  by rewrite (check_size_length d _ _ old new) by done; rewrite Hc.
Qed.

Lemma computed_response env seed ch chunk_id old new u :
  key_behind_hash env chunk_id →
  or_error ComputationFailed (contribute_response env chunk_id ch seed) old = (Ok u, new) →
  length new = length old ∧ chained ch new.
Proof.
  intros Hkey H. unfold or_error in H. destruct (contribute_response _ _ _ _ old) as [o b] eqn:E.
  injection H as Ho ->. apply map_err_ok in Ho as ->.
  destruct (contribute_response_chained _ _ _ _ _ _ _ Hkey E) as (Hl & Hle & Ht).
  split; [done|]. split; [lia | done].
Qed.

Lemma computation_run_acceptable env key p seed h chunk_id id current d u d' :
  signs_for key p → signatures_fill_files → key_behind_hash env chunk_id →
  (∀ old, stored d (LContributionFileSignature (MkContributionSignatureLocator h chunk_id id false)) = Some old →
     N.of_nat (length old) = contribution_file_signature_size false) →
  computation_run env key (LContributionFile (MkContributionLocator h chunk_id current true))
    (LContributionFile (MkContributionLocator h chunk_id id false))
    (LContributionFileSignature (MkContributionSignatureLocator h chunk_id id false)) seed d = (Ok u, d') →
  acceptable h chunk_id id current p d'.
Proof.
  intros Hkey Hfill Hbehind Hsize H. unfold computation_run, read in H.
  set (lc := LContributionFile (MkContributionLocator h chunk_id current true)) in *.
  set (lr := LContributionFile (MkContributionLocator h chunk_id id false)) in *.
  apply bind_ok in H as (ch & d1 & [= Hch <-] & H). apply bind_ok in H as ([] & d1 & Hw & H).
  apply with_writer_ok in Hw as (old & new & Hold & Hcs & Hnew & ->). cbn [cl_chunk_id] in Hnew.
  apply computed_response in Hnew as [Hlen Hchained]; [|done].
  rewrite (write_mapped_same _ _ old) in H by done. set (d1 := set_files _ d) in *.
  assert (untouched (other_than lr) d d1) as Hu1 by apply untouched_other.
  apply bind_ok in H as (re & d2 & [= Hre <-] & H).
  assert (reader lr d1 = Ok new) as Hre1 by by apply (reader_replaced d lr old new).
  assert (reader lc d1 = Ok ch) as Hch1. { by rewrite (reader_other _ _ _ _ Hu1). }
  eapply (written_signature key p lc lr None _ d1 u d' ch new None) in H as [Hsigned Hu2]; [|try done..].
  - constructor. exists ch, new.
    split_and!; [by rewrite (reader_other _ _ _ _ Hu2)..|done|done].
  - intros old' Hs. apply Hsize. rewrite <-Hs. symmetry. by apply (stored_other _ _ _ _ Hu1).
Qed.

(** C7. Liveness: a response computed by the coordinator's own command, for the
    holder of the lock and signed with its key, is accepted.  The crates are
    assumed to verify what they signed and to write a signature that fills its
    file; the room of the public key must not overlap the hash. *)
Theorem honest_contribution_is_accepted n h r c chunk_id p ck id key seed u c' :
  signs_for key p → signatures_fill_files → key_behind_hash (co_environment c) chunk_id →
  runs n h r c → may_contribute r chunk_id p ck id →
  (∀ old, stored (storage c)
     (LContributionFileSignature (MkContributionSignatureLocator h chunk_id id false)) = Some old →
     N.of_nat (length old) = contribution_file_signature_size false) →
  run_computation h chunk_id id p key seed c = (Ok u, c') →
  is_ok (add_contribution chunk_id p c').1 = true.
Proof.
  intros Hkey Hfill Hspare Hr Hmay Hsize H.
  assert (runs n h r c') as Hr'.
  { pose proof (keeps_computation_run round_record (λ _, eq_refl) (λ _, eq_refl)) as Hk.
    eapply runs_untouched; [|exact Hr].
    assert (keeps storage round_record (run_computation h chunk_id id p key seed)) as Hkeep
      by (unfold run_computation; keeps).
    specialize (Hkeep c). by rewrite H in Hkeep. }
  eapply (add_contribution_accepts n h r); [done..|].
  destruct Hmay as [Hck _ _ Hid]. unfold run_computation in H.
  do 3 apply check_ok in H as [_ H]. rewrite (bind_loading_round n h r) in H by done.
  apply check_ok in H as [_ H]. apply bind_lift_ok in H as (ck' & _ & H). apply check_ok in H as [_ H].
  rewrite bind_gets in H. apply zoom_ok in H as (d & H & ->). cbn [storage set_storage].
  unfold or_error in H. destruct (computation_run _ _ _ _ _ _ _) as [[x|e|] d'] eqn:E; [|done..].
  injection H as _ <-. destruct (running_chunk_wf _ _ _ _ _ (proj1 Hr) Hck) as (m & Hm & Hle & _).
  assert (u64_sub id 1 = current_contribution_id ck) as Hcur.
  { rewrite (transcript_current_id ck m _ Hm Hle (expected_range r)). pose proof (transcript_nonempty _ _ Hm).
    apply (next_contribution_id_inv _ _ _ m) in Hid as (-> & Hlt & _); [|done|done|apply expected_range].
    pose proof (expected_range r). apply u64_sub_exact; lia. }
  rewrite Hcur in E. by eapply computation_run_acceptable.
Qed.

(** ** Verifications *)

#[local] Hint Extern 1 (other_than _ _ = false) =>
  (unfold other_than; by rewrite bool_decide_eq_true_2) : keeps.

Lemma keeps_verification_next env c ch re next : keeps id (other_than next) (verification env c ch re next).
Proof. unfold verification. keeps. Qed.

Lemma verification_ok env c ch re next d u d' :
  verification env c ch re next d = (Ok u, d') →
  untouched (other_than next) d d' ∧
  ∃ challenge response data, reader ch d = Ok challenge ∧ reader re d = Ok response ∧
    chained challenge response ∧ reader next d' = Ok data ∧ data ≠ [] ∧ take 64 data = calculate_hash response.
Proof.
  intros H. pose proof (keeps_verification_next env c ch re next d) as Hk. rewrite H in Hk. split; [done|].
  unfold verification, read in H. apply check_ok in H as [_ H].
  apply bind_ok in H as (challenge & d1 & [= Hch <-] & H). apply bind_ok in H as (response & d1 & [= Hre <-] & H).
  apply bind_lift_ok in H as (hash & Hhash & H).
  apply bind_ok in H as (x & d1 & _ & H). apply bind_ok in H as (data & d2 & [= Hdata <-] & H).
  apply bind_lift_ok in H as (saved & Hsaved & H). apply check_ok in H as [Heq [= _ <-]].
  apply negb_false_iff, bool_decide_eq_true in Heq. subst saved.
  unfold first_chunk in Hsaved. destruct (is_nil data) eqn:Hnil; [done|]. apply is_nil_false in Hnil.
  injection Hsaved as Hsaved. apply map_err_ok in Hhash.
  unfold transform_pok_and_correctness in Hhash.
  destruct (Nat.ltb_spec (length response) 64); [done|]. case_bool_decide as Htake; [|done]. cbn [negb] in Hhash.
  apply bind_outcome_ok in Hhash as (pk & _ & Hhash). apply bind_outcome_ok in Hhash as (v & _ & [= <-]).
  exists challenge, response, data. split_and!; [done..| |done|done|done]. by split.
Qed.

Lemma signature_file_ready l d u d' :
  (if disk_exists d (LContributionFileSignature l) then (Ok tt, d)
   else initialize_file (LContributionFileSignature l) (contribution_file_signature_size true) d) = (Ok u, d') →
  untouched (other_than (LContributionFileSignature l)) d d' ∧
  ∀ old, stored d' (LContributionFileSignature l) = Some old →
    stored d (LContributionFileSignature l) = Some old ∨
    N.of_nat (length old) = contribution_file_signature_size true.
Proof.
  destruct (disk_exists d _) eqn:He.
  - intros [= _ <-]. split; [reflexivity|]. by left.
  - intros H. pose proof (keeps_initialize_file (other_than (LContributionFileSignature l))
      (LContributionFileSignature l) (contribution_file_signature_size true)) as Hk.
    specialize (Hk ltac:(unfold other_than; by rewrite bool_decide_eq_true_2) d). rewrite H in Hk.
    split; [done|]. apply initialize_file_ok in H as (_ & Hb & _ & _ & _ & Hf). intros old Ho. right.
    unfold stored in Ho. rewrite Hf, (path_of_base d d'), lookup_insert_eq in Ho by done. injection Ho as <-.
    unfold zeros. rewrite repeat_length. by rewrite N2Nat.id.
Qed.

Lemma verification_run_verifiable env key v h c id final d u d' :
  signs_for key v → signatures_fill_files → (h < u64_modulus)%N → (0 < id < u64_modulus)%N →
  (∀ old, stored d (LContributionFileSignature (signature_after h c id final)) = Some old →
     N.of_nat (length old) = contribution_file_signature_size true) →
  verification_run env key h c id final d = (Ok u, d') → verifiable h c id final v d'.
Proof.
  intros Hkey Hfill Hh Hid Hsize H. unfold verification_run in H. do 2 apply check_ok in H as [_ H].
  set (lc := LContributionFile (MkContributionLocator h c (u64_sub id 1) true)) in *.
  set (lr := LContributionFile (MkContributionLocator h c id false)) in *.
  set (ln := LContributionFile (challenge_after h c id final)) in *.
  assert (lc ≠ ln) as Hcn.
  { subst lc ln. unfold challenge_after. pose proof (u64_add_1_ne h Hh).
    rewrite u64_sub_exact by lia. destruct final; intros [=]; lia. }
  assert (lr ≠ ln) as Hrn by (subst lr ln; unfold challenge_after; by destruct final).
  apply bind_ok in H as (x & d1 & (Hu1 & ch & re & nx & Hch & Hre & Hchained & Hnx & Hnil & Hsaved)%verification_ok & H).
  apply bind_ok in H as (y & d2 & [Hu2 Hsig]%signature_file_ready & H).
  assert (reader lc d2 = Ok ch) as Hch2.
  { by rewrite (reader_other _ _ _ _ Hu2), (reader_other _ _ _ _ Hu1). }
  assert (reader lr d2 = Ok re) as Hre2.
  { by rewrite (reader_other _ _ _ _ Hu2), (reader_other _ _ _ _ Hu1). }
  assert (reader ln d2 = Ok nx) as Hnx2.
  { by rewrite (reader_other _ _ _ _ Hu2). }
  eapply (written_signature key v lc lr (Some ln) _ d2 u d' ch re (Some nx)) in H as [Hsigned Hu3]; [|try done..].
  - constructor. exists ch, re, nx.
    split_and!; [by rewrite (reader_other _ _ _ _ Hu3)..|done|done|done|done].
  - intros old [Hs|Hs]%Hsig; [|done]. apply Hsize. rewrite <-Hs. symmetry. by apply (stored_other _ _ _ _ Hu1).
Qed.

(** C8. Liveness: what the coordinator's own verification leaves in the storage
    is accepted as the verification of the contribution, whenever the verifier
    signs with its own key and signatures fill their files. *)
Theorem honest_verification_is_accepted n h r c t v now key path c' :
  signs_for key v → signatures_fill_files → readable v → runs n h r c →
  (∀ final old, stored (storage c)
     (LContributionFileSignature (signature_after h (chunk_id t) (contribution_id t) final)) = Some old →
     N.of_nat (length old) = contribution_file_signature_size true) →
  run_verification h t v key c = (Ok path, c') →
  is_ok (verify_contribution t v now c').1 = true.
Proof.
  intros Hkey Hfill Hread Hr Hsize H.
  assert (runs n h r c') as Hr'.
  { pose proof (keeps_verification_run round_record (λ _, eq_refl) (λ _, eq_refl)) as Hk.
    eapply runs_untouched; [|exact Hr].
    assert (keeps storage round_record (run_verification h t v key)) as Hkeep by (unfold run_verification; keeps).
    specialize (Hkeep c). by rewrite H in Hkeep. }
  unfold run_verification in H. apply check_ok in H as [_ H]. apply check_ok in H as [Hid H].
  apply check_ok in H as [Hv%negb_false_iff H]. rewrite (bind_loading_round n h r) in H by done.
  apply check_ok in H as [_ H]. apply bind_lift_ok in H as (ck & Hck & H).
  apply bind_lift_ok in H as (k & Hk & H). apply check_ok in H as [Hver H]. rewrite bind_gets in H.
  apply bind_ok in H as ([] & c1 & H1 & H). apply zoom_ok in H1 as (d & H1 & ->).
  apply check_ok in H as [_ [= _ <-]].
  destruct (running_chunk_wf _ _ _ _ _ (proj1 Hr) Hck) as (m & Hm & Hle & _).
  assert (contributions ck !! contribution_id t = Some k) as Hk'.
  { unfold get_contribution in Hk. case_match; by simplify_eq. }
  pose proof (transcript_lookup_lt _ _ _ _ Hm Hk') as Hlt. apply N.eqb_neq in Hid.
  assert (contribution_id t + 1 = m)%N as Hlast.
  { destruct (decide (contribution_id t + 1 < m)%N) as [Hl|]; [|lia].
    by rewrite (transcript_verified _ _ Hm _ _ Hk' Hl) in Hver. }
  pose proof (expected_range r) as Hexp.
  assert (may_verify r t ck k) as Hmay.
  { split; [done| |done|done]. rewrite (transcript_current_id ck m _ Hm Hle Hexp). lia. }
  eapply (verify_contribution_accepts n h r); [done..|]. cbn [storage set_storage].
  eapply verification_run_verifiable; [done|done| | |apply Hsize|exact H1].
  - apply Hr.
  - lia.
Qed.
End honest.

(** ** Witnesses *)

#[local] Existing Instance trie_order.
#[local] Existing Instance time_api.
#[local] Existing Instance plain_serde.
#[local] Existing Instance toy_cryptography.
#[local] Existing Instance dummy_signature.

Lemma dummy_signs_for key p : signs_for key p.
Proof. intros m s [= <-]. by apply bool_decide_eq_true. Qed.

Lemma enc_string_length (s : string) : length (enc s) = 2 * String.length s + 1.
Proof.
  induction s as [|c s IH]; [done|]. change (length (enc (String c s))) with (2 + length (enc s)).
  rewrite IH. simpl. lia.
Qed.

Lemma hex64_length s : hex64 s → String.length s = 64.
Proof.
  intros (data & [= <-] & Hl). unfold string_bytes in Hl. rewrite length_fmap in Hl.
  rewrite <-Hl. clear Hl. induction s as [|c s IH]; simpl; [done | by rewrite IH].
Qed.

Lemma plain_signatures_fill_files : signatures_fill_files.
Proof.
  intros [sig [ch re nx]] Hs Hc Hr Hn. simpl in *. apply hex64_length in Hs, Hc, Hr.
  assert (∀ sig ch re nx, length (enc (MkContributionFileSignature sig (MkContributionState ch re nx)))
    = length (enc sig) + length (enc ch) + length (enc re) + length (enc nx)) as Henc.
  { intros. change (length (((enc sig0 ++ enc ch0) ++ enc re0) ++ enc nx0) = length (enc sig0) + length (enc ch0)
      + length (enc re0) + length (enc nx0)). by rewrite !length_app. }
  unfold signature_bytes, padded. rewrite length_app, repeat_length. simpl next_challenge_hash. rewrite Henc.
  rewrite !enc_string_length, Hs, Hc, Hr. destruct nx as [t|].
  - change (length (enc (Some t))) with (S (length (enc t))).
    rewrite enc_string_length, (hex64_length t) by auto. done.
  - done.
Qed.

(** Alice holds the first chunk. *)
Definition locked_calls : list (Call * Z) := [(CTryLock alice, 5%Z)].
Definition first_locked : Coordinator := perform_all locked_calls sample_round.
Definition first_locked_chunk : Chunk :=
  match round_chunk (loaded first_locked) 0 with Ok ck => ck | _ => chunk_v end.

(** Her contribution waits for a verifier. *)
Definition contributed_calls : list (Call * Z) := [(CTryContribute alice 0, 6%Z)].
Definition first_contributed : Coordinator := perform_all contributed_calls computed.

Lemma first_locked_runs : runs 2 1 (loaded first_locked) first_locked.
Proof. exact (perform_all_runs 2 1 _ locked_calls _ sample_round_runs ltac:(by repeat constructor)). Qed.
Lemma first_contributed_runs : runs 2 1 (loaded first_contributed) first_contributed.
Proof. exact (perform_all_runs 2 1 _ contributed_calls _ computed_runs ltac:(by repeat constructor)). Qed.

Lemma first_locked_key : key_behind_hash (co_environment first_locked) 0.
Proof. by vm_compute. Qed.

Lemma honest_contribution_is_accepted_witness :
  is_ok (add_contribution 0 alice (run_computation 1 0 1 alice "key" (seed_of x02) first_locked).2).1 = true.
Proof.
  assert ((run_computation 1 0 1 alice "key" (seed_of x02) first_locked).1 = Ok tt) as H by (vm_compute; reflexivity).
  assert (may_contribute (loaded first_locked) 0 alice first_locked_chunk 1) as Hmay.
  { split; [vm_compute; reflexivity|vm_compute; reflexivity| |vm_compute; reflexivity].
    apply (bool_decide_eq_true_1 _). vm_compute. reflexivity. }
  apply (honest_contribution_is_accepted 2 1 (loaded first_locked) first_locked 0 alice first_locked_chunk 1
    "key" (seed_of x02) tt _ (dummy_signs_for "key" alice) plain_signatures_fill_files first_locked_key
    first_locked_runs Hmay); [|exact (pair_outcome _ _ H)].
  intros old Hs.
  assert ((N.of_nat ∘ length) <$> stored (storage first_locked)
    (LContributionFileSignature (MkContributionSignatureLocator 1 0 1 false)) = Some 471%N) as Hlen
    by (vm_compute; reflexivity).
  rewrite Hs in Hlen. by injection Hlen.
Defined.

Lemma honest_verification_is_accepted_witness :
  is_ok (verify_contribution (MkTask 0 1) verifier 7
    (run_verification 1 (MkTask 0 1) verifier "key" first_contributed).2).1 = true.
Proof.
  assert (∃ path, (run_verification 1 (MkTask 0 1) verifier "key" first_contributed).1 = Ok path) as [path H]
    by (eexists; vm_compute; reflexivity).
  apply (honest_verification_is_accepted 2 1 (loaded first_contributed) first_contributed (MkTask 0 1) verifier 7
    "key" path _ (dummy_signs_for "key" verifier) plain_signatures_fill_files (eq_refl : readable verifier)
    first_contributed_runs); [|exact (pair_outcome _ _ H)].
  intros final old Hs.
  assert (stored (storage first_contributed) (LContributionFileSignature (signature_after 1 0 1 final)) = None)
    as Hnone by (destruct final; vm_compute; reflexivity).
  change (stored (storage first_contributed) (LContributionFileSignature (signature_after 1 0 1 final)) = Some old) in Hs.
  by rewrite Hs in Hnone.
Defined.
